(* ===== verification/_CoqProject ===== *)
-Q . S2P
Prelude.v
Obj.v
TxTypes.v
Float64.v
Opcodes.v
Values.v
ValueOrder.v
Scalars.v
Containers.v
VarOps.v
Ast.v
Capture.v
CodegenState.v
Codegen.v
CodegenProofs.v
CodegenLines.v
CodegenMain.v
RelIndex.v
RelTx.v
RelTxSpec.v
RelTxProofs.v
RelTxMain.v
CheckApply.v
CheckApplyProofs.v
Bloom.v
Model.v
Verbs.v
Caches.v
ModelProofs.v
Relations.v
PropertyPolicy.v
Commit.v
Publication.v
CommitProofs.v
System.v
SystemProofs.v
SystemMain.v
CacheCoherence.v
IndexKinds.v
SystemRuns.v
Forest.v
Auth.v
Environment.v
Frame.v
WsBase.v
WsObjects.v
WsVerbs.v
WsProps.v
WsRenumber.v
WorldState.v
Machine.v
Vm.v
Eval.v
ExprRun.v
ExprMain.v
Activation.v
Exec.v
FrameProofs.v
Loops.v
Schedule.v
ScheduleProofs.v
ScheduleSteps.v
WsSpec.v
WsViews.v
WsHierarchy.v
WsResolve.v
WsInherit.v
WsCoherent.v
WsEdits.v
WsPropEdits.v
WsOwner.v
WsLife.v
WsSession.v
WsMediate.v
WsWithin.v
WsSteps.v
WsMain.v
WsAuthority.v
WsRuns.v
WsTaskRuns.v
