(* ===== verification/Prelude.v ===== *)
(** * mooR: a verification library for its database, its compiler and its machine

    mooR (crates under src/crates) is a server for MOO worlds: objects with
    properties and verbs, kept in a database and changed by programs that run as
    transactions. This library models the four parts that carry its logic:

    - the database: a multi-version store of thirteen relations with snapshot
      isolation, an optimistic conflict check and lock-free publication, and the
      world kept in it, up to the permission checks that tasks meet;
    - the language: its values and their operators, its programs, and the
      compiler's back end from syntax trees to instructions;
    - the virtual machine: frames, every instruction, calls, lambdas, and the
      unwinding of the stack of activations;
    - the schedules of the kernel: verbs that run at a time or over and over.

    ** The program

    A database (crates/db/src/engine/moor_db.rs) keeps a published root, an
    immutable snapshot of all relations, behind an atomic pointer, and beside it
    a plane of resolution caches. A transaction takes a timestamp and the root
    (acquire_tx_seed), works on private logs, one per relation
    (tx/transaction.rs), and commits (engine/moor_db/commit_pipeline.rs):
    the logs are checked against the current root (tx/check.rs, with the
    property policies of engine/moor_db/property_policy.rs), unless a Bloom
    filter of recent commits (tx/commit_bloom.rs) shows the check is needless;
    a candidate root is built (tx/apply.rs, tx/indexes.rs) and swapped in if the
    root is still the one checked; if not, the commit is rebased on the winner
    and tried again, at most sixteen times.

    On these relations a transaction keeps the world (engine/ws_transaction.rs):
    a forest of objects with owners, flags, locations, verbs and properties,
    resolved along the lineage of an object through caches. Tasks reach it
    through DbWorldState (db/src/api/world_state.rs), which puts a permission
    check (db/src/api/auth.rs) before every operation.

    A verb is compiled from its tree (var/src/program/ast.rs) by the code
    generator (compiler/src/backend) into a Program: vectors of instructions
    for the verb, its forks and its lambdas, with tables of jumps, literals and
    operands (var/src/program). The interpreter (vm/src/moo_execute.rs) runs
    an activation's frame (vm/src/moo_frame.rs) in slices of ticks, one
    instruction a tick, until it asks for something: a call, a builtin, a
    return, an error, a fork. Calls push activations (vm/src/activation.rs,
    exec_state.rs); errors, returns and exits unwind them (vm_unwind.rs). What
    an instruction needs of the world it asks of its host (vm/src/lib.rs),
    which the kernel implements with the world state above.

    Tasks can ask for verbs to be run later. The scheduler keeps these schedules
    outside of the database (kernel/src/tasks/schedule_q.rs): a task's requests
    are buffered and take effect when it commits (scheduler/effects.rs); a timer
    loop collects what is due, fires each as a background task and hears of its
    end (scheduler/schedules.rs); live schedules are rows of the tasks database
    (convert_task.rs) and come back after a restart.

    ** The files of the database

    Sources are relative to src/crates.

    - Prelude: results, early return, families over an index type, machine
      integers, shared lemmas and automation.
    - Obj: object references (var/src/obj.rs): one 64-bit word for numbered,
      UUID and anonymous objects, printing and parsing.
    - TxTypes: timestamps, errors, the classes of keys and values
      (RelationDomain, RelationCodomain) and the contract of a store, Provider
      with its law ProviderModel (db/src/tx/mod.rs, db/src/provider/mod.rs); the
      errors of the world state (common/src/model/world_state.rs).
    - RelIndex: HashRelationIndex and SecondaryIndexRelation behind the trait
      RelationIndex (db/src/tx/indexes.rs), with the grouped batch update.
    - RelTx: the private log of a transaction (db/src/tx/transaction.rs and
      transaction/local_operations.rs), every operation on every branch.
      RelTxSpec states what it promises, a private finite map; RelTxProofs and
      RelTxMain prove it.
    - CheckApply: check.rs, apply.rs, resolve.rs, relation.rs of db/src/tx and
      seeding (db/src/provider/mod.rs). CheckApplyProofs.
    - Bloom: db/src/tx/commit_bloom.rs, as 256 bytes with their bits.
    - Model, ModelProofs: bit sets, flags and their strings, packed property
      permissions, definition sets, database keys (common/src/util/bitenum.rs,
      common/src/model, db/src/model/mod.rs).
    - Verbs: verb flags, argument specifications, name patterns
      (common/src/model/verbs.rs, match.rs, verbdef.rs, common/src/util/mod.rs).
    - Caches: the verb, property and ancestry caches
      (db/src/cache) and their bundle.
    - Relations: the thirteen relations of define_relations!
      (db/src/engine/relation_defs.rs) as one family indexed by
      DatabaseRelation: snapshots, working sets, checkers, starting a
      transaction; its Module Sequences, the shared counters.
    - PropertyPolicy: db/src/engine/moor_db/property_policy.rs.
    - Commit: preparing, publishing and rebasing a commit, the planes, opening
      the database (commit_pipeline.rs, commit_pipeline/state.rs,
      snapshot_planes.rs, relation_defs.rs, moor_db.rs). CommitProofs.
    - Publication: the compare-and-swap loop of try_publish_write_root, one
      shared access at a time, for any number of threads.
    - System: the database with any number of concurrent transactions, as a step
      relation; SystemProofs has its invariant, SystemMain the results,
      CacheCoherence those on caches, SystemRuns a concrete run.
    - IndexKinds, Forest: which relations keep a reverse index, walks up a map.
    - WsBase, WsObjects, WsVerbs, WsProps, WsRenumber: ws_transaction.rs and its
      edit guard as a state-and-error monad, every operation. WsSpec gives the
      rule of weakest preconditions for each step; WsViews says what resolution
      means on the rows alone and what coherent caches are; WsHierarchy,
      WsResolve, WsInherit, WsCoherent, WsEdits, WsPropEdits, WsOwner, WsLife
      prove each group of operations; WsSession composes them.
    - Auth, WorldState: grants and rules (common/src/model/task_permissions.rs,
      db/src/api/auth.rs) and DbWorldState.
    - WsMediate: the requests of a task as data and the authority each needs, as
      a decision on the rows. WsWithin: what every command keeps, every
      operation keeps (the class Journal). WsSteps: operations are steps of
      System.
    - WsMain, WsAuthority: the results; WsRuns, WsTaskRuns: concrete runs.

    ** The files of the language and its machine

    - Float64: 64-bit floats, on the Standard Library's executable IEEE 754:
      arithmetic, comparison, the total order, conversion.
    - Values: the values (var/src/variant.rs, error.rs, flyweight.rs, lambda.rs)
      and what they are asked; ValueOrder: equality and order (variant.rs,
      map.rs). Scalars: arithmetic and bit operators with their errors and
      overflow (var/src/scalar.rs). Containers: lists, strings, binaries, maps
      (list.rs, string.rs, binary.rs, map.rs). VarOps: indexing and ranges on
      any value, one- and zero-based (variant.rs).
    - Opcodes: instructions, operands, names and programs (var/src/program);
      Ast: syntax trees (ast.rs). CodegenState: the generator's state, emitter,
      operand tables, tracked stack and jumps (compiler/src/backend/state.rs,
      emitter.rs, operands.rs); Capture: captured variables and line numbers of
      lambdas (lambda_codegen.rs); Codegen: expressions, places, assignments,
      scatters, comprehensions, lambdas and statements (expr_codegen.rs,
      stmt_codegen.rs, codegen.rs), as functions in a state monad whose outcomes
      are a program, a compile error and a panic.
    - CodegenProofs, CodegenLines, CodegenMain: what generation keeps, and the
      results on it.
    - Environment: the variables of a frame in one vector with 16-bit layouts
      (vm/src/environment.rs), against a stack of scopes. Frame: program
      counter, values, scopes and their payloads (moo_frame.rs), and scatter
      assignment (scatter_assign.rs). Machine: the host as the class VmHost,
      the monad of instructions, requests and dispatch of calls (vm/src/lib.rs,
      moo_execute.rs). Vm: every instruction and the slice (moo_execute.rs).
    - Activation: activations, calls, lambdas and their parameters
      (activation.rs); Exec: callers, authority, unwinding and the error path
      (exec_state.rs, vm_unwind.rs).
    - Eval: a reference evaluator of expressions on trees, a scope list and no
      instructions; ExprRun: what the code of each form executes to; ExprMain:
      the compiled program computes what the evaluator does.
    - FrameProofs: the scopes of frames and their payloads through instructions
      and unwinding, and the two ways of the error path. Loops: what a range
      loop binds, where the arguments of a scatter go.

    ** The files of the schedules

    - Schedule: times, schedules, the queue (ScheduleQ, every operation), the
      stored form, the effects and handlers of tasks, firing and settling
      (kernel/src/tasks/schedule_q.rs, convert_task.rs, scheduler/effects.rs,
      scheduler/schedules.rs). The timer wheel is the class Wheel.
    - ScheduleProofs: the law of the wheel (WheelLaws), the closed form of a
      cadence against stepping, the invariant, and that each operation, which is
      about one schedule, keeps it and leaves the others alone.
    - ScheduleSteps: expiry, everything that happens to the queue as a step
      relation (arms collected and creations buffered are part of the state),
      the accounts of a cadence, restarting, and a run with a concrete wheel.

    ** What is proved

    - Isolation. The published root is always the stored rows with the published
      commits applied in order (published_state_is_serial); a transaction reads
      its own writes over one fixed earlier state of it
      (running_transaction_reads_snapshot); no update is lost
      (first_committer_wins), for any interleaving, number of rebases and use of
      the filter.
    - Outcomes. An uncontended commit succeeds; one that fails publishes nothing;
      no internal assertion fails; opening recovers exactly the stored state, or
      refuses a store whose timestamps are used up.
    - Refinement. A relation transaction is a finite map to its user
      (transaction_refines_map), its working set carries the provenance the
      check relies on, the check decides first-committer-wins exactly, and
      applying gives exactly the log over the base, incrementally or rebased.
    - Data structures: the grouped index update equals the sequential one, the
      filter is sound and exact per bit, definition sets and caches are maps in
      spite of packed keys, encodings and strings round-trip, name patterns
      follow their documented rule.
    - The world state. Whatever operations a transaction makes, resolution
      through the caches gives what the rows say and the world stays well formed
      (resolution_is_transparent); walks end when chains do
      (hierarchy_walks_end); what moving, recycling, creating and changing
      owners do (moves_keep_containment, recycle_object_effect,
      create_numbered_object, chown_keeps_permissions).
    - Authority. A request without the authority it needs writes nothing
      (complete_mediation), and tasks without a wizard's authority make no
      wizards (no_new_wizards).
    - What snapshot isolation does not give: two transactions that each pass the
      check against cycles close one (concurrent_reparenting_closes_cycle), and
      two that create the same number both commit (concurrent_creation_overwrites).
    - Caches. The version tags keep caches and snapshots together
      (caches_follow_snapshot), and write commits publish no caches of their own
      (write_commits_discard_caches in CacheCoherence).
    - Publication is serial at the granularity of single shared accesses
      (publication_root_serial).
    - The compiler. Well-formed trees never make it panic (compile_never_panics),
      and which do (unchecked_trees_panic); the code of an expression pushes one
      value and keeps the tracked stack, scopes and loops
      (expression_pushes_one, lvalue_takes_footprint); numbering the lines of a
      lambda before or during generation is the same (lambda_body_renumbering).
    - Compiler and machine together: running the code compiled from an
      expression gives the value, the error or the panic of the evaluator, with
      the same variables, in no more ticks than there are instructions
      (compiled_expression_computes).
    - The machine. Variables are a stack of scopes (environment_refines_scopes);
      scopes always find their data (scopes_stay_linked); the fast path of an
      error is unwinding (fast_catch_is_unwinding); ranges are counted to the end
      (for_range_counts); scatters hand out every argument (scatter_distributes).
    - Schedules. None is lost and none overlaps itself (schedules_are_kept); a
      cadence does not drift and all of its points are accounted for
      (cadence_is_accounted); a restart loses nothing that is stored
      (restart_keeps_schedules); the wheel's skips are steps
      (advance_is_stepping). A firing without a session is the exception: the
      schedule is stranded (no_session_strands), and the step relation has none.

    ** Modelling decisions

    Fallible code returns [result]; an [expect] that fails is the outcome
    [Panicked] in the database, [CgPanic] in the compiler and a [vm_panic] in the
    machine. Persistent maps (imbl, im) are finite maps. Integers are in Z with
    the wrap written out where the code can reach it: the transaction counter,
    encodings, the filter's bytes, the integers of the language, the 16 bits of
    jump targets, operand offsets, scope positions and program counters. Versions
    and cache counters are unbounded. The walks up and down the hierarchy have no
    bound in the code; the model has fuel, and running out of it is the separate
    outcome [Diverged], so no theorem takes it for success. Without cycles a walk
    needs more steps than there are rows with a parent (hierarchy_walks_end), a
    move one more, the check of change_parent two. The rebase loop has the
    code's own bound of sixteen attempts, and a slice of the machine its ticks.

    The laws the database asks of caches are the class Coherence of
    CacheCoherence; WsMain's world_coherence discharges it for the caches of the
    world state. Random identifiers and the time are arguments of the operations
    that draw them.

    A value is a tree: sharing and reference counts are not visible to programs.
    The value stack and the stacks of scopes and activations have their top
    first. A delay is in seconds; times of schedules are nanoseconds. Maps of the language are lists of pairs sorted
    by the order of keys, as the code keeps them.

    Parameters, each with the law used of it: a store (Provider, ProviderModel),
    the hash function of the filter (Hashes, no law), values and programs in the
    database (Payload: equality and the cleared hint), the symbol interner and
    the text of symbols (Interner, Text), the printed forms of values and errors
    (Printing, ErrorText), powers of floats (Libm), which of two equal keys
    a map keeps (OrdMap), addresses of lambda bodies (Addresses), the host of the machine
    (VmHost), the table of builtin functions (Builtins, BuiltinNames), the timer
    wheel (Wheel, WheelLaws), random draws (Random), the size of a value (Sizes). The whole-database theorems are about
    databases opened by seeding every relation, as try_open does.
    mark_all_fully_loaded is defined but is not a step of System: after it a
    rebased commit may publish a filter that claims more versions than it covers.

    Functional extensionality, an axiom of the Standard Library, is used for
    families over DatabaseRelation.

    ** Not modelled

    Disk formats, the background writer, timers, object sizes and disk usage; the
    lexer, the parser, its lowering and the decompiler (the parser is generated
    text processing; trees are where the model starts); printing, JSON and binary
    encodings of values; task queues, suspension and retries, the built-in functions
    and command matching of the kernel, which sit on services and threads; of the
    schedules the metrics, the map of schedule_info and the scan for anonymous
    references; hosts, daemon and
    workers (network protocols); import and export; the generated schema. *)
From stdpp Require Import base gmap sets list strings fin_maps.

(** ** The result type of the Rust code, with the [?] operator *)

Inductive result (A E : Type) : Type :=
| Ok (a : A)
| Err (e : E).
Arguments Ok {A E} a.
Arguments Err {A E} e.

Declare Scope moor_scope.
Delimit Scope moor_scope with moor.

(** [let? x := e in k] is Rust's [let x = e?; k]. *)
Notation "'let?' x ':=' e 'in' k" :=
  (match e with Ok x => k | Err err => Err err end)
  (at level 10, x pattern, e at level 200, k at level 200) : moor_scope.
Open Scope moor_scope.

Definition is_ok {A E} (r : result A E) : bool :=
  match r with Ok _ => true | Err _ => false end.

(** A loop whose body may return early with an error. *)
Fixpoint fold_res {A S E} (f : S → A → result S E) (s : S) (l : list A)
  : result S E :=
  match l with
  | [] => Ok s
  | a :: l' => let? s' := f s a in fold_res f s' l'
  end.

(** ** Families indexed by a type with decidable equality *)

Definition dupd {R} `{EqDecision R} {P : R → Type} (r : R) (v : P r)
    (f : ∀ r', P r') : ∀ r', P r' :=
  λ r', match decide (r = r') with
        | left e => eq_rect r P v r' e
        | right _ => f r'
        end.

(** ** Machine integers *)

Definition u16_max : Z := 65535.
Definition u64_max : Z := 18446744073709551615.

Definition wrap (w x : Z) : Z := x `mod` 2 ^ w.

(** [x as iN] on a value already reduced modulo [2^w]. *)
Definition to_signed (w x : Z) : Z :=
  if decide (x < 2 ^ (w - 1))%Z then x else (x - 2 ^ w)%Z.

(** ** Automation shared by the components *)

Create HintDb moor.

(** Destructs every [match] scrutinee of the goal or of [H], keeping equations. *)
Ltac case_match_in H :=
  match type of H with
  | context [match ?x with _ => _ end] => destruct x eqn:?
  end.

Ltac inv_all H := repeat (case_match_in H; simplify_eq/=); simplify_eq/=.

(** ** Generic lemmas *)

Section fold_res_lemmas.
Context {A S E : Type} (f : S → A → result S E).

Lemma fold_res_app s l1 l2 :
  fold_res f s (l1 ++ l2) =
  (let? s' := fold_res f s l1 in fold_res f s' l2).
Proof. revert s; induction l1 as [|a l1 IH]; intros s; simpl; [done|]. by destruct (f s a). Qed.

(** A loop that returns keeps every invariant of its body. *)
Lemma fold_res_inv (I : S → Prop) s l s' :
  I s →
  (∀ s a s', a ∈ l → I s → f s a = Ok s' → I s') →
  fold_res f s l = Ok s' → I s'.
Proof.
  revert s; induction l as [|a l IH]; intros s Hs Hstep Hf; simplify_eq/=; [done|].
  destruct (f s a) as [s1|e] eqn:Hfa; simplify_eq/=.
  apply (IH s1); [| |done].
  - apply (Hstep s a s1); [constructor|done|done].
  - intros s2 a2 s2' Hin. apply Hstep. by constructor.
Qed.

(** A loop returns when every iteration does, under an invariant. *)
Lemma fold_res_ok (I : S → Prop) s l :
  I s →
  (∀ s a, a ∈ l → I s → ∃ s', f s a = Ok s' ∧ I s') →
  ∃ s', fold_res f s l = Ok s' ∧ I s'.
Proof.
  revert s; induction l as [|a l IH]; intros s Hs Hstep; simpl; [by eauto|].
  destruct (Hstep s a) as (s1 & -> & Hs1); [constructor|done|].
  apply IH; [done|]. intros s2 a2 Hin. apply Hstep. by constructor.
Qed.
End fold_res_lemmas.

Section dupd_lemmas.
Context {R : Type} `{EqDecision R} {P : R → Type}.

Lemma dupd_eq (r : R) (v : P r) f : dupd r v f r = v.
Proof.
  unfold dupd. destruct (decide (r = r)) as [e|]; [|done].
  by rewrite (proof_irrel e eq_refl).
Qed.

Lemma dupd_ne (r r' : R) (v : P r) f : r ≠ r' → dupd r v f r' = f r'.
Proof. intros Hne. unfold dupd. by destruct (decide (r = r')). Qed.
End dupd_lemmas.

Lemma fmap_Some_key {A B} (f : A → B) (o : option A) x :
  o = Some x → f <$> o = Some (f x).
Proof. by intros ->. Qed.

#[export] Hint Resolve fmap_Some_key : moor.

(** ** Bit packing *)

Lemma lor_shiftl_low (a b n : Z) :
  (0 ≤ n)%Z → (0 ≤ b < 2 ^ n)%Z → Z.lor (Z.shiftl a n) b = (a * 2 ^ n + b)%Z.
Proof.
  intros Hn Hb.
  assert (Z.land (Z.shiftl a n) b = 0%Z) as Hdisj.
  { apply Z.bits_inj'. intros i Hi. rewrite Z.land_spec, Z.bits_0.
    destruct (decide (i < n)%Z).
    - by rewrite Z.shiftl_spec_low.
    - rewrite <- (Z.mod_small b (2 ^ n)) by done.
      rewrite Z.mod_pow2_bits_high by lia. apply andb_false_r. }
  rewrite <- Z.shiftl_mul_pow2 by done.
  rewrite <- Z.lxor_lor by done. by rewrite Z.add_nocarry_lxor.
Qed.

Lemma land_low_ones (a b n : Z) :
  (0 ≤ n)%Z → (0 ≤ b < 2 ^ n)%Z → Z.land (a * 2 ^ n + b) (Z.ones n) = b.
Proof.
  intros Hn Hb. rewrite Z.land_ones by done.
  rewrite Z.add_comm, Z.mod_add by lia. by apply Z.mod_small.
Qed.

Lemma shiftr_high (a b n : Z) :
  (0 ≤ n)%Z → (0 ≤ b < 2 ^ n)%Z → Z.shiftr (a * 2 ^ n + b) n = a.
Proof.
  intros Hn Hb. rewrite Z.shiftr_div_pow2 by done.
  rewrite Z.div_add_l by lia. rewrite Z.div_small by done. lia.
Qed.

Lemma land_ones_bound (x n : Z) : (0 ≤ n)%Z → (0 ≤ Z.land x (Z.ones n) < 2 ^ n)%Z.
Proof. intros Hn. rewrite Z.land_ones by done. apply Z.mod_pos_bound. lia. Qed.

(** ** Loops over hash maps that update one key per iteration *)

Section keyed_loops.
Context {D X C : Type} `{Countable D}.
Context (f : gmap D C → D * X → gmap D C) (g : D → X → option C → option C).
Hypothesis f_same : ∀ R d x, f R (d, x) !! d = g d x (R !! d).
Hypothesis f_other : ∀ R d x d', d ≠ d' → f R (d, x) !! d' = R !! d'.

Lemma keyed_loop_none (l : list (D * X)) R d :
  d ∉ l.*1 → fold_left f l R !! d = R !! d.
Proof.
  revert R. induction l as [|[d0 x0] l IH]; intros R Hn; [done|]; simpl in *.
  apply not_elem_of_cons in Hn as [Hne Hn]. rewrite IH by done. by apply f_other.
Qed.

Lemma keyed_loop_some (l : list (D * X)) R d x :
  NoDup l.*1 → (d, x) ∈ l → fold_left f l R !! d = g d x (R !! d).
Proof.
  revert R. induction l as [|[d0 x0] l IH]; intros R Hnd Hin; [set_solver|]; simpl in *.
  apply NoDup_cons in Hnd as [Hn Hnd]. apply elem_of_cons in Hin as [?|Hin]; simplify_eq.
  - rewrite keyed_loop_none by done. apply f_same.
  - rewrite IH by done. f_equal. apply f_other. intros <-. apply Hn.
    apply list_elem_of_fmap. by exists (d0, x).
Qed.

Lemma keyed_loop_lookup (m : gmap D X) R d :
  fold_left f (map_to_list m) R !! d =
  match m !! d with Some x => g d x (R !! d) | None => R !! d end.
Proof.
  destruct (m !! d) as [x|] eqn:Hd.
  - apply keyed_loop_some; [apply NoDup_fst_map_to_list|by apply elem_of_map_to_list].
  - apply keyed_loop_none. rewrite list_elem_of_fmap. intros ([d0 x0] & -> & Hin).
    apply elem_of_map_to_list in Hin. simpl in *. congruence.
Qed.
End keyed_loops.

Lemma fold_left_fmap {A B S} (h : A → B) (f : S → B → S) (l : list A) s :
  fold_left f (h <$> l) s = fold_left (λ s a, f s (h a)) l s.
Proof. revert s. induction l as [|a l IH]; intros s; simpl; [done|]. by rewrite IH. Qed.
