(* ===== verification/Obj.v ===== *)
(** Object identifiers: the 64-bit packed [Obj] of crates/var/src/obj.rs.

    [Obj] is a [u64] whose top two bits are a type code (numbered object,
    UUID object, anonymous object) and whose low bits hold the identifier.
    Every bit operation of the source is written with [Z.land], [Z.lor],
    [Z.shiftl] and [Z.shiftr] on the value of the machine word. *)
From S2P Require Import Prelude.
From Stdlib Require Import Ascii String.
From stdpp Require Import base gmap strings.

Open Scope Z_scope.

(** ** Data *)

Record Obj := mkObj { obj_bits : Z }.

#[export] Instance Obj_eq_dec : EqDecision Obj.
Proof. solve_decision. Defined.

#[export] Instance Obj_countable : Countable Obj.
Proof.
  refine (inj_countable' obj_bits mkObj _). by intros [].
Defined.

Record Objid := mkObjid { objid_val : Z }.
Record UuObjid := mkUuObjid { uuobjid_val : Z }.
Record AnonymousObjid := mkAnonymousObjid { anonymous_val : Z }.

Definition OBJID_TYPE_CODE : Z := 0.
Definition UUOBJID_TYPE_CODE : Z := 1.
Definition ANONYMOUS_TYPE_CODE : Z := 2.

Definition mask32 : Z := 0xffffffff.
Definition mask62 : Z := 0x3fffffffffffffff.
Definition mask40 : Z := 0xffffffffff.

(** ** Encoding and decoding *)

Definition as_u64 (o : Obj) : Z := obj_bits o.

Definition decode_as_objid (o : Obj) : Z :=
  to_signed 32 (Z.land (obj_bits o) mask32).

(** [i32::cast_unsigned] is reduction modulo [2^32]. *)
Definition encode_as_objid (id : Z) : Obj :=
  let as_u32 := wrap 32 id in
  mkObj (Z.lor (Z.land as_u32 mask32) (Z.shiftl OBJID_TYPE_CODE 62)).

Definition decode_as_uuobjid (o : Obj) : UuObjid :=
  mkUuObjid (Z.land (obj_bits o) mask62).

Definition encode_as_uuobjid (u : UuObjid) : Obj :=
  mkObj (Z.lor (Z.land (uuobjid_val u) mask62) (Z.shiftl UUOBJID_TYPE_CODE 62)).

Definition decode_as_anonymous (o : Obj) : AnonymousObjid :=
  mkAnonymousObjid (Z.land (obj_bits o) mask62).

Definition encode_as_anonymous (a : AnonymousObjid) : Obj :=
  mkObj (Z.lor (Z.land (anonymous_val a) mask62) (Z.shiftl ANONYMOUS_TYPE_CODE 62)).

Definition object_type_code (o : Obj) : Z := Z.shiftr (obj_bits o) 62.

Definition mk_id (id : Z) : Obj := encode_as_objid id.
Definition mk_uuobjid (u : UuObjid) : Obj := encode_as_uuobjid u.
Definition mk_anonymous (a : AnonymousObjid) : Obj := encode_as_anonymous a.

Definition SYSTEM_OBJECT : Obj := mk_id 0.
Definition NOTHING : Obj := mk_id (-1).
Definition AMBIGUOUS : Obj := mk_id (-2).
Definition FAILED_MATCH : Obj := mk_id (-3).

(** ** Queries *)

Definition is_sysobj (o : Obj) : bool :=
  (object_type_code o =? OBJID_TYPE_CODE) && (decode_as_objid o =? 0).

Definition is_nothing (o : Obj) : bool :=
  (object_type_code o =? OBJID_TYPE_CODE) && (decode_as_objid o =? -1).

Definition is_positive (o : Obj) : bool :=
  if object_type_code o =? OBJID_TYPE_CODE
  then 0 <=? decode_as_objid o else true.

(** [id] asserts the type code: [None] is the panic. *)
Definition id (o : Obj) : option Objid :=
  if object_type_code o =? OBJID_TYPE_CODE
  then Some (mkObjid (decode_as_objid o)) else None.

Definition is_oid (o : Obj) : bool := object_type_code o =? OBJID_TYPE_CODE.

Definition uuobjid (o : Obj) : option UuObjid :=
  if object_type_code o =? UUOBJID_TYPE_CODE
  then Some (decode_as_uuobjid o) else None.

Definition is_uuobjid (o : Obj) : bool := object_type_code o =? UUOBJID_TYPE_CODE.

Definition anonymous_objid (o : Obj) : option AnonymousObjid :=
  if object_type_code o =? ANONYMOUS_TYPE_CODE
  then Some (decode_as_anonymous o) else None.

Definition is_anonymous (o : Obj) : bool := object_type_code o =? ANONYMOUS_TYPE_CODE.

Definition is_valid_object (o : Obj) : bool :=
  if object_type_code o =? OBJID_TYPE_CODE then 0 <=? decode_as_objid o
  else if object_type_code o =? UUOBJID_TYPE_CODE then true
  else if object_type_code o =? ANONYMOUS_TYPE_CODE then true
  else false.

(** ** UUID object identifiers: 16 bits counter, 6 bits random, 40 bits time *)

Definition uuobjid_new (autoincrement rng epoch_ms : Z) : UuObjid :=
  let rng := Z.land rng 0x3f in
  let epoch_ms := Z.land epoch_ms mask40 in
  mkUuObjid (Z.lor (Z.lor (Z.shiftl autoincrement 46) (Z.shiftl rng 40)) epoch_ms).

Definition uuobjid_components (u : UuObjid) : Z * Z * Z :=
  (Z.land (Z.shiftr (uuobjid_val u) 46) 0xffff,
   Z.land (Z.shiftr (uuobjid_val u) 40) 0x3f,
   Z.land (uuobjid_val u) mask40).

Definition anonymous_new (autoincrement rng epoch_ms : Z) : AnonymousObjid :=
  let rng := Z.land rng 0x3f in
  let epoch_ms := Z.land epoch_ms mask40 in
  mkAnonymousObjid (Z.lor (Z.lor (Z.shiftl autoincrement 46) (Z.shiftl rng 40)) epoch_ms).

Definition anonymous_components (a : AnonymousObjid) : Z * Z * Z :=
  (Z.land (Z.shiftr (anonymous_val a) 46) 0xffff,
   Z.land (Z.shiftr (anonymous_val a) 40) 0x3f,
   Z.land (anonymous_val a) mask40).

(** ** Literals: printing and [TryFrom<&str>]

    Strings are lists of ASCII characters. [format!("{:06X}")] and the decimal
    formatting of the standard library are written out, as are
    [u64::from_str_radix] and [i32::from_str] (optional sign, at least one
    digit, overflow is an error). *)

Definition digit_char (d : Z) : ascii :=
  if d <? 10 then ascii_of_nat (48 + Z.to_nat d) else ascii_of_nat (55 + Z.to_nat d).

(** [char::to_digit]. *)
Definition to_digit (radix : Z) (c : ascii) : option Z :=
  let n := Z.of_nat (nat_of_ascii c) in
  let d := if (48 <=? n) && (n <=? 57) then Some (n - 48)
           else if (65 <=? n) && (n <=? 90) then Some (n - 55)
           else if (97 <=? n) && (n <=? 122) then Some (n - 87)
           else None in
  match d with
  | Some d => if d <? radix then Some d else None
  | None => None
  end.

(** Digits of [x], most significant first; 64 rounds are enough for a [u64]
    in any radix, since each divides by at least two. *)
Fixpoint digits_fuel (fuel : nat) (radix x : Z) (acc : list ascii) : list ascii :=
  match fuel with
  | O => acc
  | S fuel' =>
      let acc' := digit_char (x `mod` radix) :: acc in
      if x / radix =? 0 then acc' else digits_fuel fuel' radix (x / radix) acc'
  end.

Definition fmt_unsigned (radix x : Z) : list ascii := digits_fuel 64 radix x [].

Definition pad_zeros (width : nat) (l : list ascii) : list ascii :=
  replicate (width - length l) "0"%char ++ l.

Definition fmt_signed (x : Z) : list ascii :=
  if x <? 0 then "-"%char :: fmt_unsigned 10 (- x) else fmt_unsigned 10 x.

(** Accumulate digits, refusing a non-digit or a value outside [lo..hi]. *)
Fixpoint parse_digits (radix sgn lo hi acc : Z) (l : list ascii) : option Z :=
  match l with
  | [] => Some acc
  | c :: l' =>
      match to_digit radix c with
      | None => None
      | Some d =>
          let acc' := acc * radix + sgn * d in
          if (lo <=? acc') && (acc' <=? hi) then parse_digits radix sgn lo hi acc' l'
          else None
      end
  end.

Definition u64_from_str_radix (radix : Z) (l : list ascii) : option Z :=
  match l with
  | [] => None
  | c :: l' =>
      if bool_decide (c = "+"%char)
      then match l' with [] => None | _ => parse_digits radix 1 0 u64_max 0 l' end
      else parse_digits radix 1 0 u64_max 0 l
  end.

Definition i32_min : Z := - 2 ^ 31.
Definition i32_max : Z := 2 ^ 31 - 1.

Definition parse_i32 (l : list ascii) : option Z :=
  match l with
  | [] => None
  | c :: l' =>
      if bool_decide (c = "+"%char)
      then match l' with [] => None | _ => parse_digits 10 1 i32_min i32_max 0 l' end
      else if bool_decide (c = "-"%char)
      then match l' with [] => None | _ => parse_digits 10 (-1) i32_min i32_max 0 l' end
      else parse_digits 10 1 i32_min i32_max 0 l
  end.

Inductive DecodingError :=
| CouldNotDecode (msg : string).

Definition first_group (u : UuObjid) : Z :=
  let '(autoincrement, rng, _) := uuobjid_components u in
  Z.lor (Z.shiftl autoincrement 6) rng.

Definition to_uuid_string (u : UuObjid) : list ascii :=
  let '(_, _, epoch_ms) := uuobjid_components u in
  pad_zeros 6 (fmt_unsigned 16 (first_group u)) ++ "-"%char ::
  pad_zeros 10 (fmt_unsigned 16 epoch_ms).

(** [s.split(c).collect()]: one part more than separators. *)
Fixpoint split_on (c : ascii) (cur : list ascii) (l : list ascii) : list (list ascii) :=
  match l with
  | [] => [rev cur]
  | x :: l' => if bool_decide (x = c) then rev cur :: split_on c [] l'
               else split_on c (x :: cur) l'
  end.

Definition from_uuid_string (s : list ascii) : result UuObjid DecodingError :=
  match split_on "-"%char [] s with
  | [part0; part1] =>
      match u64_from_str_radix 16 part0 with
      | None => Err (CouldNotDecode "Invalid first group")
      | Some first_group =>
          match u64_from_str_radix 16 part1 with
          | None => Err (CouldNotDecode "Invalid epoch_ms")
          | Some epoch_ms =>
              let autoincrement := Z.land (Z.shiftr first_group 6) 0xffff in
              let rng := Z.land first_group 0x3f in
              Ok (uuobjid_new autoincrement rng epoch_ms)
          end
      end
  | _ => Err (CouldNotDecode "Expected format FFFFFF-FFFFFFFFFF")
  end.

Definition to_literal (o : Obj) : list ascii :=
  if object_type_code o =? OBJID_TYPE_CODE
  then "#"%char :: fmt_signed (decode_as_objid o)
  else if object_type_code o =? UUOBJID_TYPE_CODE
  then to_uuid_string (decode_as_uuobjid o)
  else if object_type_code o =? ANONYMOUS_TYPE_CODE
  then list_ascii_of_string "*anonymous*"
  else list_ascii_of_string "UnknownType:" ++ fmt_unsigned 10 (object_type_code o).

Definition display (o : Obj) : list ascii :=
  if object_type_code o =? OBJID_TYPE_CODE
  then "#"%char :: fmt_signed (decode_as_objid o)
  else if object_type_code o =? UUOBJID_TYPE_CODE
  then "#"%char :: to_uuid_string (decode_as_uuobjid o)
  else if object_type_code o =? ANONYMOUS_TYPE_CODE
  then list_ascii_of_string "*anonymous*"
  else list_ascii_of_string "UnknownType:" ++ fmt_unsigned 10 (object_type_code o).

Definition contains_dash (s : list ascii) : bool := existsb (λ c, bool_decide (c = "-"%char)) s.

Definition try_from (value : list ascii) : result Obj DecodingError :=
  match value with
  | c :: stripped =>
      if bool_decide (c = "#"%char) then
        match parse_i32 stripped with
        | Some id => Ok (mk_id id)
        | None =>
            if contains_dash stripped
            then let? uuid := from_uuid_string stripped in Ok (mk_uuobjid uuid)
            else Err (CouldNotDecode "Could not parse as objid or UUID after stripping #")
        end
      else if contains_dash value
      then let? uuid := from_uuid_string value in Ok (mk_uuobjid uuid)
      else Err (CouldNotDecode "Expected Objid to start with # or be in UUID format")
  | [] => Err (CouldNotDecode "Expected Objid to start with # or be in UUID format")
  end.

(** ** Lemmas on the packed representation *)

Lemma packed_code c x :
  0 ≤ x < 2 ^ 62 → object_type_code (mkObj (Z.lor x (Z.shiftl c 62))) = c.
Proof.
  intros Hx. unfold object_type_code; simpl.
  rewrite Z.lor_comm, lor_shiftl_low by lia. by apply shiftr_high.
Qed.

Lemma packed_low c x :
  0 ≤ x < 2 ^ 62 → Z.land (Z.lor x (Z.shiftl c 62)) mask62 = x.
Proof.
  intros Hx. rewrite Z.lor_comm, lor_shiftl_low by lia.
  change mask62 with (Z.ones 62). by apply land_low_ones.
Qed.

Lemma land_mask62 x : 0 ≤ x < 2 ^ 62 → Z.land x mask62 = x.
Proof.
  intros Hx. change mask62 with (Z.ones 62).
  rewrite Z.land_ones by lia. by apply Z.mod_small.
Qed.

Lemma wrap32_bound x : 0 ≤ wrap 32 x < 2 ^ 32.
Proof. unfold wrap. apply Z.mod_pos_bound. lia. Qed.

Lemma to_signed_wrap x : -2 ^ 31 ≤ x < 2 ^ 31 → to_signed 32 (wrap 32 x) = x.
Proof.
  intros Hx. unfold to_signed, wrap. change (32 - 1) with 31.
  destruct (decide (0 ≤ x)).
  - rewrite Z.mod_small by lia. by rewrite decide_True by lia.
  - rewrite <- (Z.mod_add x 1) by lia. rewrite Z.mod_small by lia.
    rewrite decide_False by lia. lia.
Qed.

Lemma encode_as_objid_bits id : obj_bits (encode_as_objid id) = wrap 32 id.
Proof.
  unfold encode_as_objid; simpl. rewrite Z.lor_0_r. change mask32 with (Z.ones 32).
  rewrite Z.land_ones by lia. apply Z.mod_small, wrap32_bound.
Qed.

Lemma encode_as_objid_code id : object_type_code (encode_as_objid id) = OBJID_TYPE_CODE.
Proof.
  unfold object_type_code. rewrite encode_as_objid_bits, Z.shiftr_div_pow2 by lia.
  apply Z.div_small. pose proof (wrap32_bound id). lia.
Qed.

Lemma decode_encode_objid i :
  -2 ^ 31 ≤ i < 2 ^ 31 → decode_as_objid (encode_as_objid i) = i.
Proof.
  intros Hi. unfold decode_as_objid. rewrite encode_as_objid_bits.
  change mask32 with (Z.ones 32). rewrite Z.land_ones by lia.
  rewrite Z.mod_small by apply wrap32_bound. by apply to_signed_wrap.
Qed.

Lemma land62_bound x : 0 ≤ Z.land x mask62 < 2 ^ 62.
Proof. change mask62 with (Z.ones 62). apply land_ones_bound. lia. Qed.

Lemma encode_as_uuobjid_code u : object_type_code (encode_as_uuobjid u) = UUOBJID_TYPE_CODE.
Proof. apply packed_code, land62_bound. Qed.

Lemma encode_as_anonymous_code a :
  object_type_code (encode_as_anonymous a) = ANONYMOUS_TYPE_CODE.
Proof. apply packed_code, land62_bound. Qed.

Create Rewrite HintDb moor_obj.
#[export] Hint Rewrite encode_as_objid_code encode_as_uuobjid_code
  encode_as_anonymous_code : moor_obj.

Lemma decode_encode_uuobjid u :
  0 ≤ uuobjid_val u < 2 ^ 62 → decode_as_uuobjid (encode_as_uuobjid u) = u.
Proof.
  intros Hu. unfold decode_as_uuobjid, encode_as_uuobjid; simpl obj_bits.
  rewrite packed_low by apply land62_bound. rewrite land_mask62 by done.
  by destruct u.
Qed.

Lemma decode_encode_anonymous a :
  0 ≤ anonymous_val a < 2 ^ 62 → decode_as_anonymous (encode_as_anonymous a) = a.
Proof.
  intros Ha. unfold decode_as_anonymous, encode_as_anonymous; simpl obj_bits.
  rewrite packed_low by apply land62_bound. rewrite land_mask62 by done.
  by destruct a.
Qed.

Lemma uuobjid_new_val a r e :
  0 ≤ a < 2 ^ 16 →
  uuobjid_val (uuobjid_new a r e) =
    (a * 2 ^ 6 + Z.land r 0x3f) * 2 ^ 40 + Z.land e mask40.
Proof.
  intros Ha. unfold uuobjid_new; simpl uuobjid_val.
  pose proof (land_ones_bound r 6 ltac:(lia)) as Hr.
  pose proof (land_ones_bound e 40 ltac:(lia)) as He.
  change (Z.ones 6) with 0x3f in Hr. change (Z.ones 40) with mask40 in He.
  replace (Z.shiftl a 46) with (Z.shiftl (Z.shiftl a 6) 40)
    by (rewrite Z.shiftl_shiftl by lia; done).
  rewrite <- Z.shiftl_lor. rewrite !lor_shiftl_low by lia. lia.
Qed.

Example to_literal_example :
  string_of_list_ascii (to_literal (mk_uuobjid (uuobjid_new 0x1234 5 0x1234567890)))
  = "048D05-1234567890"%string.
Proof. reflexivity. Qed.

Example try_from_example :
  try_from (list_ascii_of_string "#-12") = Ok (mk_id (-12)).
Proof. reflexivity. Qed.

(** ** Printing and parsing *)

Lemma to_digit_char radix d :
  2 ≤ radix ≤ 16 → 0 ≤ d < radix → to_digit radix (digit_char d) = Some d.
Proof.
  intros Hr Hd.
  assert (d = 0 ∨ d = 1 ∨ d = 2 ∨ d = 3 ∨ d = 4 ∨ d = 5 ∨ d = 6 ∨ d = 7 ∨ d = 8 ∨ d = 9
    ∨ d = 10 ∨ d = 11 ∨ d = 12 ∨ d = 13 ∨ d = 14 ∨ d = 15) as Hcases by lia.
  destruct_or? Hcases; subst d; unfold to_digit;
    match goal with |- context [Z.of_nat ?n] =>
      let z := eval vm_compute in (Z.of_nat n) in change (Z.of_nat n) with z end;
    cbn -[Z.ltb Z.leb]; simpl; rewrite (proj2 (Z.ltb_lt _ radix)) by lia; done.
Qed.

(** Parsing positive digits succeeds exactly with the value, while it stays in bounds. *)
Lemma parse_digits_cons radix sgn lo hi acc c d l :
  to_digit radix c = Some d → lo ≤ acc * radix + sgn * d ≤ hi →
  parse_digits radix sgn lo hi acc (c :: l) =
  parse_digits radix sgn lo hi (acc * radix + sgn * d) l.
Proof.
  intros Hd Hb. simpl. rewrite Hd.
  rewrite (proj2 (Z.leb_le lo _)), (proj2 (Z.leb_le _ hi)) by lia. done.
Qed.

Lemma digits_fuel_parse fuel radix sgn lo hi x acc :
  2 ≤ radix ≤ 16 → 0 ≤ x < 2 ^ Z.of_nat fuel → (sgn = 1 ∨ sgn = -1) →
  lo ≤ 0 ≤ hi → lo ≤ sgn * x ≤ hi →
  parse_digits radix sgn lo hi 0 (digits_fuel fuel radix x acc) =
  parse_digits radix sgn lo hi (sgn * x) acc.
Proof.
  intros Hr. revert x acc.
  induction fuel as [|fuel IH]; intros x acc Hx Hs Hlh Hb.
  { simpl in Hx. replace x with 0 by lia. by rewrite Z.mul_0_r. }
  cbn [digits_fuel].
  pose proof (Z.mod_pos_bound x radix ltac:(lia)) as Hm.
  pose proof (Z.div_mod x radix ltac:(lia)) as Hdm.
  assert (0 ≤ x / radix) by (apply Z.div_pos; lia).
  destruct (Z.eqb_spec (x / radix) 0) as [Hz|Hnz].
  - rewrite (parse_digits_cons _ _ _ _ _ _ (x `mod` radix))
      by (try apply to_digit_char; nia). f_equal. nia.
  - rewrite IH; [| |done|done|].
    + rewrite (parse_digits_cons _ _ _ _ _ _ (x `mod` radix))
        by (try apply to_digit_char; nia). f_equal. nia.
    + split; [lia|]. rewrite Nat2Z.inj_succ, Z.pow_succ_r in Hx by lia.
      apply Z.div_lt_upper_bound; nia.
    + nia.
Qed.

Lemma parse_zeros radix sgn lo hi n l :
  2 ≤ radix ≤ 16 → lo ≤ 0 ≤ hi →
  parse_digits radix sgn lo hi 0 (replicate n "0"%char ++ l) =
  parse_digits radix sgn lo hi 0 l.
Proof.
  intros Hr Hlh. induction n as [|n IH]; [done|].
  cbn [replicate app]. change "0"%char with (digit_char 0).
  rewrite (parse_digits_cons _ _ _ _ _ _ 0); [|apply to_digit_char; lia|lia].
  by rewrite Z.mul_0_r, Z.add_0_l.
Qed.

(** No digit is a sign or a hash. *)
Lemma digits_fuel_char fuel radix x acc c :
  2 ≤ radix ≤ 16 → 0 ≤ x →
  c ∈ digits_fuel fuel radix x acc →
  (∃ d, 0 ≤ d < radix ∧ c = digit_char d) ∨ c ∈ acc.
Proof.
  intros Hr. revert x acc.
  induction fuel as [|fuel IH]; intros x acc Hx Hin; [by right|].
  cbn [digits_fuel] in Hin.
  pose proof (Z.mod_pos_bound x radix ltac:(lia)) as Hm.
  assert (c ∈ digit_char (x `mod` radix) :: acc →
    (∃ d, 0 ≤ d < radix ∧ c = digit_char d) ∨ c ∈ acc) as Hcons.
  { intros [->|Hin']%elem_of_cons; [left; eauto|by right]. }
  destruct (Z.eqb_spec (x / radix) 0) as [Hz|Hnz]; [by apply Hcons|].
  destruct (IH (x / radix) (digit_char (x `mod` radix) :: acc)) as [?|?]; auto.
  apply Z.div_pos; lia.
Qed.

Lemma digit_char_not_sign d : 0 ≤ d < 16 →
  digit_char d ≠ "+"%char ∧ digit_char d ≠ "-"%char ∧ digit_char d ≠ "#"%char.
Proof.
  intros Hd.
  assert (d = 0 ∨ d = 1 ∨ d = 2 ∨ d = 3 ∨ d = 4 ∨ d = 5 ∨ d = 6 ∨ d = 7 ∨ d = 8 ∨ d = 9
    ∨ d = 10 ∨ d = 11 ∨ d = 12 ∨ d = 13 ∨ d = 14 ∨ d = 15) as Hcases by lia.
  destruct_or? Hcases; subst d; by vm_compute.
Qed.

Lemma digits_fuel_nonempty fuel radix x acc :
  fuel ≠ O → ∃ c l, digits_fuel fuel radix x acc = c :: l.
Proof.
  intros Hf. assert (fuel ≠ O ∨ acc ≠ []) as Hor by by left. clear Hf. revert x acc Hor.
  induction fuel as [|fuel IH]; intros x acc Hor.
  { destruct acc; [naive_solver|simpl; eauto]. }
  cbn [digits_fuel]. destruct (x / radix =? 0); [eauto|].
  apply IH. by right.
Qed.

Definition plain (c : ascii) : Prop := c ≠ "+"%char ∧ c ≠ "-"%char ∧ c ≠ "#"%char.

Lemma fmt_unsigned_plain radix x c :
  2 ≤ radix ≤ 16 → 0 ≤ x → c ∈ fmt_unsigned radix x → plain c.
Proof.
  intros Hr Hx Hin. unfold fmt_unsigned in Hin.
  apply digits_fuel_char in Hin as [(d & Hd & ->)|Hin]; [|set_solver|lia|lia].
  apply digit_char_not_sign. lia.
Qed.

Lemma pad_zeros_plain w radix x c :
  2 ≤ radix ≤ 16 → 0 ≤ x → c ∈ pad_zeros w (fmt_unsigned radix x) → plain c.
Proof.
  intros Hr Hx [Hin|Hin]%elem_of_app.
  - apply elem_of_replicate in Hin as [-> _]. by vm_compute.
  - by eapply fmt_unsigned_plain.
Qed.

Lemma pad_zeros_nonempty w radix x :
  ∃ c l, pad_zeros w (fmt_unsigned radix x) = c :: l.
Proof.
  unfold pad_zeros, fmt_unsigned.
  destruct (digits_fuel_nonempty 64 radix x []) as (c & l & ->); [done|].
  destruct (w - _)%nat; simpl; eauto.
Qed.

Lemma u64_parse_fmt w x :
  0 ≤ x ≤ u64_max →
  u64_from_str_radix 16 (pad_zeros w (fmt_unsigned 16 x)) = Some x.
Proof.
  intros Hx. destruct (pad_zeros_nonempty w 16 x) as (c & l & Hcl).
  assert (plain c) as (Hplus & _).
  { apply (pad_zeros_plain w 16 x); [lia|lia|]. rewrite Hcl. constructor. }
  rewrite Hcl. cbn [u64_from_str_radix]. rewrite bool_decide_eq_false_2 by done.
  rewrite <- Hcl. unfold pad_zeros, fmt_unsigned. rewrite parse_zeros by (unfold u64_max; lia).
  rewrite digits_fuel_parse by (unfold u64_max in *; simpl; lia).
  by rewrite Z.mul_1_l.
Qed.

Lemma parse_i32_fmt i : i32_min ≤ i ≤ i32_max → parse_i32 (fmt_signed i) = Some i.
Proof.
  intros Hi. unfold fmt_signed.
  assert (∀ sgn x, (sgn = 1 ∨ sgn = -1) → 0 ≤ x → i32_min ≤ sgn * x ≤ i32_max →
    parse_digits 10 sgn i32_min i32_max 0 (fmt_unsigned 10 x) = Some (sgn * x)) as Hp.
  { intros sgn x Hs Hx Hb. unfold fmt_unsigned.
    rewrite digits_fuel_parse; unfold i32_min, i32_max in *; simpl; lia || done. }
  destruct (digits_fuel_nonempty 64 10 (Z.abs i) []) as (c & l & Hcl); [done|].
  fold (fmt_unsigned 10 (Z.abs i)) in Hcl.
  assert (plain c) as (Hplus & Hminus & _).
  { apply (fmt_unsigned_plain 10 (Z.abs i)); [lia|lia|]. rewrite Hcl. constructor. }
  destruct (Z.ltb_spec i 0).
  - rewrite Z.abs_neq in Hcl by lia. cbn [parse_i32].
    rewrite bool_decide_eq_false_2 by done. rewrite bool_decide_eq_true_2 by done.
    rewrite Hcl, <- Hcl. rewrite Hp by (lia || auto). f_equal. lia.
  - rewrite Z.abs_eq in Hcl by lia. rewrite Hcl. cbn [parse_i32].
    rewrite !bool_decide_eq_false_2 by done. rewrite <- Hcl.
    rewrite Hp by (lia || auto). f_equal. lia.
Qed.

Lemma parse_digits_dash sgn lo hi acc l :
  "-"%char ∈ l → parse_digits 10 sgn lo hi acc l = None.
Proof.
  revert acc. induction l as [|c l IH]; intros acc Hin; [set_solver|].
  apply elem_of_cons in Hin as [<-|Hin]; [done|].
  simpl. destruct (to_digit 10 c); [|done]. destruct (_ && _); auto.
Qed.

Lemma split_on_plain c a b cur :
  c ∉ a → split_on c cur (a ++ c :: b) = (rev cur ++ a) :: split_on c [] b.
Proof.
  revert cur. induction a as [|x a IH]; intros cur Hn; simpl.
  - by rewrite bool_decide_eq_true_2, app_nil_r by done.
  - apply not_elem_of_cons in Hn as [Hx Ha].
    rewrite bool_decide_eq_false_2 by done. rewrite IH by done. simpl.
    by rewrite <- app_assoc.
Qed.

Lemma split_on_none c b cur : c ∉ b → split_on c cur b = [rev cur ++ b].
Proof.
  revert cur. induction b as [|x b IH]; intros cur Hn; simpl; [by rewrite app_nil_r|].
  apply not_elem_of_cons in Hn as [Hx Hb].
  rewrite bool_decide_eq_false_2 by done. rewrite IH by done. simpl.
  by rewrite <- app_assoc.
Qed.

Lemma contains_dash_elem l : contains_dash l = true ↔ "-"%char ∈ l.
Proof.
  unfold contains_dash. rewrite existsb_exists. setoid_rewrite bool_decide_eq_true.
  setoid_rewrite <- list_elem_of_In. naive_solver.
Qed.

(** The components of a 62-bit identifier determine it. *)
Lemma uuobjid_decompose x :
  0 ≤ x < 2 ^ 62 →
  Z.land (Z.shiftr x 46) 0xffff = x / 2 ^ 46 ∧
  Z.land (Z.shiftr x 40) 0x3f = (x / 2 ^ 40) `mod` 2 ^ 6 ∧
  Z.land x mask40 = x `mod` 2 ^ 40.
Proof.
  intros Hx. change 0xffff with (Z.ones 16). change 0x3f with (Z.ones 6).
  change mask40 with (Z.ones 40). rewrite !Z.land_ones, !Z.shiftr_div_pow2 by lia.
  split_and!; [|done..]. apply Z.mod_small. split; [apply Z.div_pos; lia|].
  apply Z.div_lt_upper_bound; lia.
Qed.

Lemma from_to_uuid_string u :
  0 ≤ uuobjid_val u < 2 ^ 62 → from_uuid_string (to_uuid_string u) = Ok u.
Proof.
  intros Hu. destruct u as [x]; simpl in Hu.
  destruct (uuobjid_decompose x Hu) as (Ha & Hr & He).
  assert (0 ≤ x / 2 ^ 46 < 2 ^ 16) as Hab
    by (split; [apply Z.div_pos; lia|apply Z.div_lt_upper_bound; lia]).
  pose proof (Z.mod_pos_bound (x / 2 ^ 40) (2 ^ 6) ltac:(lia)) as Hrb.
  pose proof (Z.mod_pos_bound x (2 ^ 40) ltac:(lia)) as Heb.
  set (r := (x / 2 ^ 40) `mod` 2 ^ 6) in *. set (e := x `mod` 2 ^ 40) in *.
  assert (first_group (mkUuObjid x) = x / 2 ^ 46 * 2 ^ 6 + r) as Hfg.
  { unfold first_group, uuobjid_components; cbn [uuobjid_val]. rewrite Ha, Hr.
    apply lor_shiftl_low; lia. }
  unfold from_uuid_string, to_uuid_string. rewrite Hfg.
  unfold uuobjid_components; cbn [uuobjid_val]. rewrite He.
  rewrite split_on_plain, split_on_none.
  2,3: intros Hin; apply pad_zeros_plain in Hin as (_ & ? & _); [done|lia|lia].
  simpl rev. rewrite !app_nil_l. rewrite !u64_parse_fmt by (unfold u64_max; lia).
  f_equal. rewrite shiftr_high by lia. change 0x3f with (Z.ones 6).
  rewrite land_low_ones by lia. change 0xffff with (Z.ones 16).
  rewrite Z.land_ones, Z.mod_small by lia.
  destruct (uuobjid_new (x / 2 ^ 46) r e) as [y] eqn:Hy. f_equal.
  change y with (uuobjid_val (mkUuObjid y)). rewrite <- Hy, uuobjid_new_val by done.
  change 0x3f with (Z.ones 6). change mask40 with (Z.ones 40).
  rewrite !Z.land_ones, !Z.mod_small by lia. subst r e.
  change (2 ^ 46) with (2 ^ 40 * 2 ^ 6). rewrite <- Z.div_div by lia.
  pose proof (Z.div_mod x (2 ^ 40)). pose proof (Z.div_mod (x / 2 ^ 40) (2 ^ 6)). lia.
Qed.

Lemma to_uuid_string_dash u : "-"%char ∈ to_uuid_string u.
Proof.
  unfold to_uuid_string. destruct (uuobjid_components u) as [[a r] e].
  apply elem_of_app. right. constructor.
Qed.

Lemma uuid_string_head u :
  0 ≤ uuobjid_val u < 2 ^ 62 → ∃ c l, to_uuid_string u = c :: l ∧ plain c.
Proof.
  intros Hu. destruct u as [x]; simpl in Hu. unfold to_uuid_string.
  destruct (uuobjid_components _) as [[a r] e] eqn:Hc.
  destruct (pad_zeros_nonempty 6 16 (first_group (mkUuObjid x))) as (c & l & Hcl).
  exists c, (l ++ "-"%char :: pad_zeros 10 (fmt_unsigned 16 e)). split; [by rewrite Hcl|].
  apply (pad_zeros_plain 6 16 (first_group (mkUuObjid x))); [lia| |rewrite Hcl; constructor].
  unfold first_group. rewrite Hc. unfold uuobjid_components in Hc. simplify_eq/=.
  apply Z.lor_nonneg. split; [apply Z.shiftl_nonneg|]; apply Z.land_nonneg; right; lia.
Qed.

Lemma try_from_uuid_plain u :
  0 ≤ uuobjid_val u < 2 ^ 62 →
  try_from (to_uuid_string u) = Ok (mk_uuobjid u) ∧
  try_from ("#"%char :: to_uuid_string u) = Ok (mk_uuobjid u).
Proof.
  intros Hu. destruct (uuid_string_head u Hu) as (c & l & Hcl & Hp & Hm & Hh).
  pose proof (to_uuid_string_dash u) as Hdash.
  pose proof (proj2 (contains_dash_elem _) Hdash) as Hcd.
  split.
  - unfold try_from. rewrite Hcl at 1. rewrite bool_decide_eq_false_2 by done.
    rewrite Hcd. by rewrite from_to_uuid_string.
  - cbn [try_from]. rewrite bool_decide_eq_true_2 by done.
    assert (parse_i32 (to_uuid_string u) = None) as ->.
    { rewrite Hcl. cbn [parse_i32]. rewrite !bool_decide_eq_false_2 by done.
      rewrite <- Hcl. by apply parse_digits_dash. }
    rewrite Hcd. by rewrite from_to_uuid_string.
Qed.

(** ** Main results *)

(** An object reference that names a numbered or UUID object. *)
Inductive nameable : Obj → Prop :=
| nameable_id i : i32_min ≤ i ≤ i32_max → nameable (mk_id i)
| nameable_uuid u : 0 ≤ uuobjid_val u < 2 ^ 62 → nameable (mk_uuobjid u).

(** printing then parsing a numbered or UUID object reference, in either
    of its two printed forms (the literal and the display form), gives back
    the same reference. *)
Theorem literal_roundtrip (o : Obj) :
  nameable o → try_from (to_literal o) = Ok o ∧ try_from (display o) = Ok o.
Proof.
  intros [i Hi|u Hu].
  - unfold to_literal, display, mk_id. rewrite encode_as_objid_code.
    rewrite decode_encode_objid by (unfold i32_min, i32_max in *; lia).
    rewrite Z.eqb_refl. cbn [try_from]. rewrite bool_decide_eq_true_2 by done. by rewrite parse_i32_fmt.
  - unfold to_literal, display, mk_uuobjid. rewrite encode_as_uuobjid_code.
    rewrite decode_encode_uuobjid by done. rewrite Z.eqb_refl.
    change (UUOBJID_TYPE_CODE =? OBJID_TYPE_CODE) with false. by apply try_from_uuid_plain.
Qed.

Lemma literal_roundtrip_witness :
  nameable (mk_uuobjid (uuobjid_new 0x1234 5 0x1234567890)) ∧
  try_from (to_literal (mk_uuobjid (uuobjid_new 0x1234 5 0x1234567890))) =
    Ok (mk_uuobjid (uuobjid_new 0x1234 5 0x1234567890)).
Proof.
  assert (nameable (mk_uuobjid (uuobjid_new 0x1234 5 0x1234567890))) as Hn.
  { constructor. vm_compute. split; [discriminate|reflexivity]. }
  split; [exact Hn|]. exact (proj1 (literal_roundtrip _ Hn)).
Defined.

(** the three kinds of reference are disjoint and each constructor is a
    64-bit word from which its own accessor recovers the identifier while the
    two others refuse; a numbered reference never passes for another kind. *)
Theorem obj_kinds (i : Z) (u : UuObjid) (a : AnonymousObjid) :
  i32_min ≤ i ≤ i32_max → 0 ≤ uuobjid_val u < 2 ^ 62 → 0 ≤ anonymous_val a < 2 ^ 62 →
  (id (mk_id i) = Some (mkObjid i) ∧ uuobjid (mk_id i) = None ∧
     anonymous_objid (mk_id i) = None ∧ is_valid_object (mk_id i) = (0 <=? i)) ∧
  (uuobjid (mk_uuobjid u) = Some u ∧ id (mk_uuobjid u) = None ∧
     anonymous_objid (mk_uuobjid u) = None ∧ is_valid_object (mk_uuobjid u) = true) ∧
  (anonymous_objid (mk_anonymous a) = Some a ∧ id (mk_anonymous a) = None ∧
     uuobjid (mk_anonymous a) = None ∧ is_valid_object (mk_anonymous a) = true) ∧
  Forall (λ o, 0 ≤ as_u64 o ≤ u64_max) [mk_id i; mk_uuobjid u; mk_anonymous a].
Proof.
  intros Hi Hu Ha.
  unfold id, uuobjid, anonymous_objid, is_valid_object, mk_id, mk_uuobjid, mk_anonymous.
  autorewrite with moor_obj.
  rewrite decode_encode_objid by (unfold i32_min, i32_max in *; lia).
  rewrite decode_encode_uuobjid, decode_encode_anonymous by done.
  split_and!; try done. repeat constructor; unfold as_u64, u64_max.
  1,2: rewrite encode_as_objid_bits; pose proof (wrap32_bound i); lia.
  all: unfold encode_as_uuobjid, encode_as_anonymous; cbn [obj_bits].
  all: rewrite Z.lor_comm, lor_shiftl_low by (lia || apply land62_bound).
  all: rewrite land_mask62 by done.
  all: unfold UUOBJID_TYPE_CODE, ANONYMOUS_TYPE_CODE; lia.
Qed.

Lemma obj_kinds_witness :
  uuobjid (mk_uuobjid (mkUuObjid 5)) = Some (mkUuObjid 5) ∧
  id (mk_id (-1)) = Some (mkObjid (-1)).
Proof.
  destruct (obj_kinds (-1) (mkUuObjid 5) (mkAnonymousObjid 7)) as (H1 & H2 & _);
    [unfold i32_min, i32_max; lia|simpl; lia|simpl; lia|].
  split; [apply H2|apply H1].
Defined.
