(* ===== verification/TxTypes.v ===== *)
(** Shared vocabulary of the transaction layer (crates/db/src/tx/mod.rs,
    crates/db/src/provider/mod.rs and the conflict reports of
    crates/common/src/model/mod.rs): timestamps, conflict metadata, errors,
    and the traits a relation's key, value and backing store implement.

    Timestamps are the [u64] values of [Timestamp], as integers.
    [RelationDomain] and [RelationCodomain] are classes, one method per trait
    method the transaction code calls. A provider is any type with the
    operations of the [Provider] trait; the fjall store behind it is outside
    this library, so [ProviderModel] states only what a store of rows does. *)
From S2P Require Import Prelude Obj.
From Stdlib Require Import Ascii.
From stdpp Require Import base gmap sets list strings fin_maps.

Open Scope Z_scope.

(** ** Identifiers *)

(** [uuid::Uuid]: 16 bytes, as one 128-bit number. *)
Record Uuid := mkUuid { uuid_bits : Z }.

#[export] Instance Uuid_eq_dec : EqDecision Uuid.
Proof. solve_decision. Defined.

#[export] Instance Uuid_countable : Countable Uuid.
Proof. refine (inj_countable' uuid_bits mkUuid _). by intros []. Defined.

(** Interned names compare by their case-folded text; a [Symbol] is that text. *)
Record Symbol := mkSymbol { symbol_text : string }.

#[export] Instance Symbol_eq_dec : EqDecision Symbol.
Proof. solve_decision. Defined.

#[export] Instance Symbol_countable : Countable Symbol.
Proof. refine (inj_countable' symbol_text mkSymbol _). by intros []. Defined.

(** The 32-bit number the interner (crates/var/src/symbol.rs) gives a symbol. *)
Class Interner := { compare_id : Symbol → Z }.

(** ** Transactions and conflict reports *)

Definition Timestamp : Type := Z.

Record Tx := mkTx {
  tx_ts : Timestamp;
  tx_visible_ts : Timestamp;
  tx_snapshot_version : Z;
}.

Inductive ConflictType :=
| InsertDuplicate
| ConcurrentWrite
| StaleRead
| UpdateNonExistent.

#[export] Instance ConflictType_eq_dec : EqDecision ConflictType.
Proof. solve_decision. Defined.

Inductive ConflictTarget :=
| TargetObject (o : Obj)
| TargetProperty (object : Obj) (uuid : Uuid) (name : option Symbol).

#[export] Instance ConflictTarget_eq_dec : EqDecision ConflictTarget.
Proof. solve_decision. Defined.

Record ConflictInfo := mkConflictInfo {
  ci_relation_name : Symbol;
  ci_domain_key : list ascii;
  ci_target : option ConflictTarget;
  ci_conflict_type : ConflictType;
}.

#[export] Instance ConflictInfo_eq_dec : EqDecision ConflictInfo.
Proof. solve_decision. Defined.

Inductive Error :=
| Duplicate
| Conflict (info : ConflictInfo)
| RetrievalFailure (msg : string)
| StorageFailure (msg : string)
| EncodingFailure.

(** ** Keys and values of a relation *)

(** [double_hash] is the pair of [ahash] values commit filters use. *)
Class RelationDomain (D : Type) `{Countable D} := {
  domain_display : D → list ascii;
  target : D → option ConflictTarget;
  double_hash : D → Z * Z;
}.

(** Values compare with [PartialEq]/[Eq], which for some types identifies more
    than structural equality does (strings fold case, hints are ignored):
    [cod_key] maps a value to what equality and hashing see of it. *)
Class RelationCodomain (C : Type) := {
  cod_rep : Type;
  cod_rep_eq_dec :: EqDecision cod_rep;
  cod_rep_countable :: Countable cod_rep;
  cod_key : C → cod_rep;
  clone_for_commit : C → C;
  clone_for_commit_key c : cod_key (clone_for_commit c) = cod_key c;
}.

Definition cod_eqb {C} `{RelationCodomain C} (a b : C) : bool :=
  bool_decide (cod_key a = cod_key b).

Definition make_conflict_info {D} `{RelationDomain D}
    (relation_name : Symbol) (domain : D) (conflict_type : ConflictType) : ConflictInfo :=
  {| ci_relation_name := relation_name;
     ci_domain_key := domain_display domain;
     ci_target := target domain;
     ci_conflict_type := conflict_type |}.

(** ** Backing stores *)

Class Provider (P D C : Type) := {
  provider_get : P → D → result (option (Timestamp * C)) Error;
  provider_put : P → Timestamp → D → C → result P Error;
  provider_del : P → Timestamp → D → result P Error;
  provider_scan : P → (D → C → bool) → result (list (Timestamp * D * C)) Error;
}.

(** What the transaction layer relies on: at one moment the store is a set of
    rows [m], [get] reads the row of a key and [scan] returns the rows its
    predicate accepts, each once. *)
Record ProviderModel {P D C} `{Countable D} `{Provider P D C}
    (p : P) (m : gmap D (Timestamp * C)) : Prop := {
  pm_get d : provider_get p d = Ok (m !! d);
  pm_scan f : ∃ rows, provider_scan p f = Ok rows ∧
    NoDup (map (λ r : Timestamp * D * C, r.1.2) rows) ∧
    (∀ t d c, (t, d, c) ∈ rows ↔ m !! d = Some (t, c) ∧ f d c = true);
}.

(** ** A provider backed by rows in memory, used to instantiate the interface *)

Section RowsProvider.
Context {D C : Type} `{Countable D}.

Definition rows_scan (m : gmap D (Timestamp * C)) (f : D → C → bool)
  : list (Timestamp * D * C) :=
  omap (λ '(d, (t, c)), if f d c then Some (t, d, c) else None) (map_to_list m).

#[global] Instance rows_provider : Provider (gmap D (Timestamp * C)) D C := {
  provider_get m d := Ok (m !! d);
  provider_put m t d c := Ok (<[d := (t, c)]> m);
  provider_del m t d := Ok (delete d m);
  provider_scan m f := Ok (rows_scan m f);
}.

Lemma elem_of_rows_scan m f t d c :
  (t, d, c) ∈ rows_scan m f ↔ m !! d = Some (t, c) ∧ f d c = true.
Proof.
  unfold rows_scan. rewrite list_elem_of_omap. split.
  - intros ([d' [t' c']] & Hin%elem_of_map_to_list & Hf).
    destruct (f d' c') eqn:Hfd; simplify_eq. by split.
  - intros [Hm Hf]. exists (d, (t, c)). rewrite Hf.
    split; [by apply elem_of_map_to_list|done].
Qed.

Lemma rows_scan_keys_NoDup m f : NoDup (map (λ r : Timestamp * D * C, r.1.2) (rows_scan m f)).
Proof.
  unfold rows_scan. pose proof (NoDup_fst_map_to_list m) as Hnd. revert Hnd.
  induction (map_to_list m) as [|[d [t c]] l IH]; simpl; intros Hnd; [constructor|].
  apply NoDup_cons in Hnd as [Hn Hnd]. destruct (f d c); simpl; [|by apply IH].
  constructor; [|by apply IH].
  intros ([[t' d'] c'] & Heq & Hin)%list_elem_of_fmap. simplify_eq/=.
  apply list_elem_of_omap in Hin as ([d2 [t2 c2]] & Hin & Hsome).
  destruct (f d2 c2); simplify_eq. apply Hn.
  apply list_elem_of_fmap. by exists (d', (t', c')).
Qed.

Lemma rows_provider_model (m : gmap D (Timestamp * C)) : ProviderModel m m.
Proof.
  split; [done|]. intros f. exists (rows_scan m f). split_and!; [done| |].
  - apply rows_scan_keys_NoDup.
  - intros. apply elem_of_rows_scan.
Qed.
End RowsProvider.

(** ** The errors of the world state (crates/common/src/model/world_state.rs,
    [WorldStateError], and crates/common/src/model/objects.rs, [ObjectRef])

    A message is kept as what it is about, before formatting: [Printed] is the
    value whose text the code puts into the error. *)

Inductive ObjectRef :=
| RefId (o : Obj)
| RefSysObj (path : list Symbol)
| RefMatch (text : string).

Inductive Printed :=
| PSymbol (s : Symbol)
| PUuid (u : Uuid)
| PUuidTagged (u : Uuid)
| PIndex (n : nat)
| PText (s : string).

Inductive WorldStateError :=
| ObjectNotFound (r : ObjectRef)
| ObjectAlreadyExists (o : Obj)
| RecursiveMove (what where_ : Obj)
| ObjectPermissionDenied
| PropertyNotFound (o : Obj) (what : Printed)
| PropertyPermissionDenied
| PropertyDefinitionNotFound (o : Obj) (what : Printed)
| DuplicatePropertyDefinition (o : Obj) (what : Printed)
| ChparentPropertyNameConflict (o o' : Obj) (what : Printed)
| PropertyTypeMismatch
| CannotClearPropertyOnDefiner (o : Obj) (what : Printed)
| VerbNotFound (o : Obj) (what : Printed)
| InvalidVerb (vid : Z)
| VerbDecodeError (o : Obj) (name : Symbol)
| VerbPermissionDenied
| DuplicateVerb (o : Obj) (name : Symbol)
| FailedMatch (text : string)
| AmbiguousMatch (text : string)
| InvalidRenumber (text : string)
| DatabaseError (msg : string)
| DatabaseOverloaded (waited : Z)
| RollbackRetry.
