(* ===== verification/Float64.v ===== *)
(** Double-precision floats (Rust's [f64]) as the values of the language use
    them (crates/var/src/scalar.rs, variant.rs).

    The arithmetic is the Standard Library's executable definition of IEEE 754
    at precision 53 and maximal exponent 1024. [f64::powf] is given by the
    platform's mathematical library and is a parameter. NaN payloads are not
    modelled: the language has no NaN. *)
From S2P Require Import Prelude.
From Stdlib Require Import Floats.SpecFloat.
From stdpp Require Import base list.

Open Scope Z_scope.

Definition f64 : Type := spec_float.

Definition prec : Z := 53.
Definition emax : Z := 1024.
Definition emin_exp : Z := 3 - emax - prec.

Definition f64_add : f64 → f64 → f64 := SFadd prec emax.
Definition f64_sub : f64 → f64 → f64 := SFsub prec emax.
Definition f64_mul : f64 → f64 → f64 := SFmul prec emax.
Definition f64_div : f64 → f64 → f64 := SFdiv prec emax.
Definition f64_neg : f64 → f64 := SFopp.
Definition f64_abs : f64 → f64 := SFabs.
Definition f64_eqb : f64 → f64 → bool := SFeqb.
Definition f64_ltb : f64 → f64 → bool := SFltb.

(** [i as f64] on an integer. *)
Definition f64_of_int (i : Z) : f64 := binary_normalize prec emax i 0 false.

Definition f64_zero : f64 := S754_zero false.
Definition f64_one : f64 := f64_of_int 1.

Definition is_finite (f : f64) : bool :=
  match f with
  | S754_zero _ | S754_finite _ _ _ => true
  | S754_infinity _ | S754_nan => false
  end.

Definition is_zero (f : f64) : bool := f64_eqb f f64_zero.

(** [l % r]: the exact remainder, with the sign of [l]. *)
Definition f64_rem (l r : f64) : f64 :=
  match l, r with
  | S754_nan, _ | _, S754_nan => S754_nan
  | S754_infinity _, _ => S754_nan
  | _, S754_zero _ => S754_nan
  | S754_zero s, _ => S754_zero s
  | S754_finite _ _ _, S754_infinity _ => l
  | S754_finite s ml el, S754_finite _ mr er =>
      let e := Z.min el er in
      let m := (Z.pos ml * 2 ^ (el - e)) `mod` (Z.pos mr * 2 ^ (er - e)) in
      match m with
      | Z0 => S754_zero s
      | _ => binary_normalize prec emax (cond_Zopp s m) e s
      end
  end.

(** The 63 low bits of [to_bits] of a float in canonical form. *)
Definition magnitude (f : f64) : Z :=
  match f with
  | S754_zero _ => 0
  | S754_finite _ m e =>
      if Z.pos m <? 2 ^ (prec - 1) then Z.pos m
      else (e - emin_exp + 1) * 2 ^ (prec - 1) + (Z.pos m - 2 ^ (prec - 1))
  | S754_infinity _ => 2047 * 2 ^ (prec - 1)
  | S754_nan => 2047 * 2 ^ (prec - 1) + 2 ^ (prec - 2)
  end.

Definition sign_bit (f : f64) : bool :=
  match f with
  | S754_zero s | S754_infinity s | S754_finite s _ _ => s
  | S754_nan => false
  end.

(** [f64::total_cmp]: the bits as a signed integer, with the low bits of
    negative numbers inverted. *)
Definition total_key (f : f64) : Z :=
  if sign_bit f then - magnitude f - 1 else magnitude f.

Definition total_cmp (a b : f64) : comparison := total_key a ?= total_key b.

Class Libm := { powf : f64 → f64 → f64 }.

(** ** [float_pow_int] *)

Fixpoint float_pow_loop (fuel : nat) (result factor : f64) (e : Z) : f64 :=
  match fuel with
  | O => result
  | S fuel =>
      if e =? 0 then result else
      let result := if Z.testbit e 0 then f64_mul result factor else result in
      let e := Z.shiftr e 1 in
      let factor := if e =? 0 then factor else f64_mul factor factor in
      float_pow_loop fuel result factor e
  end.

(** The exponent has at most 64 bits, so 65 rounds suffice. *)
Definition float_pow_int (base : f64) (exp : Z) : f64 :=
  let sign_flip := f64_ltb base f64_zero && negb (Z.rem exp 2 =? 0) in
  let result := float_pow_loop 65 f64_one (f64_abs base) (Z.abs exp) in
  let result := if exp <? 0 then f64_div f64_one result else result in
  if sign_flip then f64_neg result else result.

(** ** Canonical form *)

(** The floats of the type: mantissa and exponent in canonical form. *)
Definition f64_valid (f : f64) : bool := valid_binary prec emax f.

(** [float_key] of variant.rs: [-0.0] as [0.0]. *)
Definition float_key (f : f64) : f64 := if is_zero f then f64_zero else f.

Lemma float_pow_loop_done fuel r f : float_pow_loop fuel r f 0 = r.
Proof. by destruct fuel. Qed.

(** Extra rounds change nothing once there are as many as bits. *)
Lemma float_pow_loop_fuel n m r f e :
  0 ≤ e < 2 ^ Z.of_nat n → (n ≤ m)%nat →
  float_pow_loop (S m) r f e = float_pow_loop (S n) r f e.
Proof.
  revert m r f e. induction n as [|n IH]; intros m r f e He Hm.
  - assert (e = 0) as -> by lia. done.
  - destruct m as [|m]; [lia|].
    change (float_pow_loop (S (S m)) r f e) with
      (if e =? 0 then r else
       float_pow_loop (S m) (if Z.testbit e 0 then f64_mul r f else r)
         (if Z.shiftr e 1 =? 0 then f else f64_mul f f) (Z.shiftr e 1)).
    change (float_pow_loop (S (S n)) r f e) with
      (if e =? 0 then r else
       float_pow_loop (S n) (if Z.testbit e 0 then f64_mul r f else r)
         (if Z.shiftr e 1 =? 0 then f else f64_mul f f) (Z.shiftr e 1)).
    destruct (e =? 0) eqn:E; [done|]. apply IH; [|lia].
    rewrite Z.shiftr_div_pow2 by lia. change (2 ^ 1) with 2.
    rewrite Nat2Z.inj_succ, Z.pow_succ_r in He by lia.
    split; [apply Z.div_pos; lia|]. apply Z.div_lt_upper_bound; lia.
Qed.
