(* ===== verification/Opcodes.v ===== *)
(** Compiled programs (crates/var/src/program): variable names, jump labels,
    the instructions of the virtual machine and their operand tables.

    A program holds values (its literals) and values hold programs (lambdas), so
    [Program] takes the type of values as a parameter; Values.v ties the knot.
    The 16-bit and 8-bit numbers of names, labels and offsets are integers in Z;
    the casts that truncate them are written where the code has them. *)
From S2P Require Import Prelude Obj TxTypes Float64.
From stdpp Require Import base gmap list strings.

Open Scope Z_scope.

(** [x as u16] *)
Definition as_u16 (x : Z) : Z := wrap 16 x.

(** ** names.rs, labels.rs *)

Record Name := mkName { name_offset : Z; name_depth : Z; name_scope : Z }.

#[export] Instance Name_eq_dec : EqDecision Name.
Proof. solve_decision. Defined.

#[export] Instance Name_countable : Countable Name.
Proof.
  refine (inj_countable' (λ n, (name_offset n, name_depth n, name_scope n))
    (λ t, mkName t.1.1 t.1.2 t.2) _). by intros [].
Defined.

Inductive GlobalName :=
| gplayer | gthis | gcaller | gverb | gargs | gargstr | gdobj | gdobjstr | gprepstr
| giobj | giobjstr.

Definition global_index (g : GlobalName) : Z :=
  match g with
  | gplayer => 0 | gthis => 1 | gcaller => 2 | gverb => 3 | gargs => 4 | gargstr => 5
  | gdobj => 6 | gdobjstr => 7 | gprepstr => 8 | giobj => 9 | giobjstr => 10
  end.

Definition global_count : Z := 11.

Definition global_from_repr (i : Z) : option GlobalName :=
  match i with
  | 0 => Some gplayer | 1 => Some gthis | 2 => Some gcaller | 3 => Some gverb
  | 4 => Some gargs | 5 => Some gargstr | 6 => Some gdobj | 7 => Some gdobjstr
  | 8 => Some gprepstr | 9 => Some giobj | 10 => Some giobjstr | _ => None
  end.

Inductive VarName := Named (s : Symbol) | Register (r : Z).

#[export] Instance VarName_eq_dec : EqDecision VarName.
Proof. solve_decision. Defined.

Record Variable_ := mkVariable { var_id : Z; var_scope_id : Z; var_nr : VarName }.

#[export] Instance Variable_eq_dec : EqDecision Variable_.
Proof. solve_decision. Defined.

Inductive DeclType :=
| DtGlobal | DtLet | DtAssign | DtFor | DtUnknown | DtRegister | DtExcept
| DtWhileLabel | DtForkLabel.

#[export] Instance DeclType_eq_dec : EqDecision DeclType.
Proof. solve_decision. Defined.

Record Decl := mkDecl {
  decl_type : DeclType;
  identifier : Variable_;
  decl_depth : Z;
  constant : bool;
  decl_scope_id : Z;
}.

#[export] Instance Decl_eq_dec : EqDecision Decl.
Proof. solve_decision. Defined.

Record Names := mkNames { global_width : Z; decls : gmap Name Decl }.

#[export] Instance Names_eq_dec : EqDecision Names.
Proof. solve_decision. Defined.

Definition name_for_scope0_offset (ns : Names) (offset : Z) : option Name :=
  (λ ip, ip.2.1) <$> list_find (λ p : Name * Decl, name_offset p.1 = offset ∧ name_depth p.1 = 0)
                       (map_to_list (decls ns)).

Definition Label : Type := Z.
Definition Offset : Type := Z.

Record JumpLabel := mkJumpLabel { jl_id : Label; jl_name : option Name; jl_position : Offset }.

#[export] Instance JumpLabel_eq_dec : EqDecision JumpLabel.
Proof. solve_decision. Defined.

(** ** Error codes (error.rs) and types (lib.rs) *)

Inductive ErrorCode :=
| E_NONE | E_TYPE | E_DIV | E_PERM | E_PROPNF | E_VERBNF | E_VARNF | E_INVIND
| E_RECMOVE | E_MAXREC | E_RANGE | E_ARGS | E_NACC | E_INVARG | E_QUOTA | E_FLOAT
| E_FILE | E_EXEC | E_INTRPT | ErrCustom (s : Symbol).

#[export] Instance ErrorCode_eq_dec : EqDecision ErrorCode.
Proof. solve_decision. Defined.

Inductive VarType :=
| TYPE_INT | TYPE_OBJ | TYPE_STR | TYPE_ERR | TYPE_LIST | TYPE_CLEAR | TYPE_NONE
| TYPE_LABEL | TYPE_FINALLY | TYPE_FLOAT | TYPE_MAP | TOAST_TYPE_ITER | TOAST_TYPE_ANON
| TOAST_TYPE_WAIF | TYPE_BOOL | TYPE_FLYWEIGHT | TYPE_SYMBOL | TYPE_BINARY | TYPE_LAMBDA.

#[export] Instance VarType_eq_dec : EqDecision VarType.
Proof. solve_decision. Defined.

(** [vt as u8] *)
Definition var_type_repr (t : VarType) : Z :=
  match t with
  | TYPE_INT => 0 | TYPE_OBJ => 1 | TYPE_STR => 2 | TYPE_ERR => 3 | TYPE_LIST => 4
  | TYPE_CLEAR => 5 | TYPE_NONE => 6 | TYPE_LABEL => 7 | TYPE_FINALLY => 8
  | TYPE_FLOAT => 9 | TYPE_MAP => 10 | TOAST_TYPE_ITER => 11 | TOAST_TYPE_ANON => 12
  | TOAST_TYPE_WAIF => 13 | TYPE_BOOL => 14 | TYPE_FLYWEIGHT => 15 | TYPE_SYMBOL => 16
  | TYPE_BINARY => 17 | TYPE_LAMBDA => 18
  end.

(** ** opcode.rs *)

Inductive ComprehensionType := CRange | CList.

#[export] Instance ComprehensionType_eq_dec : EqDecision ComprehensionType.
Proof. solve_decision. Defined.

Record ForSequenceOperand := mkForSequenceOperand {
  fso_value_bind : Name;
  fso_key_bind : option Name;
  fso_end_label : Label;
  fso_environment_width : Z;
}.

Record ForRangeOperand := mkForRangeOperand {
  fro_loop_variable : Name;
  fro_end_label : Label;
  fro_environment_width : Z;
}.

Record RangeComprehend := mkRangeComprehend {
  rc_position : Name;
  rc_end_of_range_register : Name;
  rc_end_label : Label;
}.

Record ListComprehend := mkListComprehend {
  lc_position_register : Name;
  lc_list_register : Name;
  lc_item_variable : Name;
  lc_end_label : Label;
}.

Inductive ScatterLabel :=
| SOptional (id : Name) (default : option Label)
| SRequired (id : Name)
| SRest (id : Name).

Record ScatterArgs := mkScatterArgs { sa_labels : list ScatterLabel; sa_done : Label }.

#[export] Instance ForSequenceOperand_eq_dec : EqDecision ForSequenceOperand.
Proof. solve_decision. Defined.
#[export] Instance ForRangeOperand_eq_dec : EqDecision ForRangeOperand.
Proof. solve_decision. Defined.
#[export] Instance RangeComprehend_eq_dec : EqDecision RangeComprehend.
Proof. solve_decision. Defined.
#[export] Instance ListComprehend_eq_dec : EqDecision ListComprehend.
Proof. solve_decision. Defined.
#[export] Instance ScatterLabel_eq_dec : EqDecision ScatterLabel.
Proof. solve_decision. Defined.
#[export] Instance ScatterArgs_eq_dec : EqDecision ScatterArgs.
Proof. solve_decision. Defined.

Module Op.
Inductive t :=
| Add | And (label : Label) | BitAnd | BitOr | BitXor | BitShl | BitShr | BitLShr | BitNot
| CallVerb | CheckListForSplice | FinallyContinue | Div | Done
| EndCatch (label : Label) | EndExcept (label : Label) | EndFinally | Eq
| Exit (stack : Offset) (label : Label) | ExitId (label : Label) | Exp
| BeginForSequence (operand : Offset) | IterateForSequence
| BeginForRange (operand : Offset) | IterateForRange
| Fork (fv_offset : Offset) (id : option Name)
| FuncCall (id : Z)
| Ge | GetProp | Gt | IfQues (label : Label)
| Imm (slot : Label) | ImmBigInt (i : Z) | ImmFloat (f : f64) | ImmEmptyList | ImmInt (i : Z)
| ImmType (t : VarType) | ImmNone | ImmObjid (o : Obj) | ImmSymbol (s : Symbol)
| In | IndexSet | IndexSetAt (offset : Offset) | Jump (label : Label) | Le
| Length (offset : Offset) | ListAddTail | ListAppend | Lt
| ImmErr (code : ErrorCode) | MakeError (offset : Offset)
| MakeSingletonList | MakeMap | MapInsert | MakeFlyweight (num_slots : nat)
| Mod | Mul | Ne | Not | Or (label : Label) | Pass | Pop | Dup | Swap
| Push (name : Name) | PushGetProp | PushRef | PushTemp
| Put (name : Name) | PutPop (name : Name) | PutProp
| PutPropAt (offset : Offset) (jump_if_object : Label)
| PutTemp | PutTempPop | RangeRef | RangeSet | RangeSetAt (offset : Offset) | Ref
| Return | Return0 | Scatter (offset : Offset) | Sub | PushCatchLabel (label : Label)
| TryCatch (handler_label end_label : Label)
| TryExcept (num_excepts environment_width : Z) (end_label : Label)
| TryFinally (end_label : Label) (environment_width : Z)
| BeginScope (num_bindings : Z) (end_label : Label)
| EndScope (num_bindings : Z)
| UnaryMinus
| While (jump_label : Label) (environment_width : Z)
| WhileId (id : Name) (end_label : Label) (environment_width : Z)
| If (label : Label) (environment_width : Z) | Eif (label : Label) (environment_width : Z)
| BeginComprehension (t : ComprehensionType) (end_label start_label : Label)
| ComprehendRange (offset : Offset) | ComprehendList (offset : Offset)
| FilterComprehension (label : Label) | ContinueComprehension (id : Name)
| Capture (name : Name)
| MakeLambda (scatter_offset program_offset : Offset) (self_var : option Name)
    (num_captured : Z)
| CallLambda
| PushScope0Local (offset : Z) | PutScope0Local (offset : Z) | PutPopScope0Local (offset : Z).
End Op.

(** ** program.rs *)

Inductive DeclarationKind := KLet | KConst.

#[export] Instance DeclarationKind_eq_dec : EqDecision DeclarationKind.
Proof. solve_decision. Defined.

Record DeclarationSite := mkDeclarationSite {
  ds_offset : Z;
  ds_kind : DeclarationKind;
  ds_has_initializer : bool;
}.

#[export] Instance DeclarationSite_eq_dec : EqDecision DeclarationSite.
Proof. solve_decision. Defined.

Record SourceDeclarations := mkSourceDeclarations {
  sd_main : list DeclarationSite;
  sd_forks : list (list DeclarationSite);
}.

#[export] Instance SourceDeclarations_eq_dec : EqDecision SourceDeclarations.
Proof. solve_decision. Defined.

Inductive Program (V : Type) := mkProgram {
  literals : list V;
  jump_labels : list JumpLabel;
  var_names : Names;
  scatter_tables : list ScatterArgs;
  for_sequence_operands : list ForSequenceOperand;
  for_range_operands : list ForRangeOperand;
  range_comprehensions : list RangeComprehend;
  list_comprehensions : list ListComprehend;
  error_operands : list ErrorCode;
  lambda_programs : list (Program V);
  main_vector : list Op.t;
  main_max_stack : Z;
  main_max_scope_depth : Z;
  fork_vectors : list (Z * list Op.t);
  fork_max_stacks : list Z;
  fork_max_scope_depths : list Z;
  line_number_spans : list (Z * Z);
  fork_line_number_spans : list (list (Z * Z));
  source_declarations : option SourceDeclarations;
  lambda_entry_scope_count : Z;
}.
Arguments mkProgram {V}.
Arguments literals {V}. Arguments jump_labels {V}. Arguments var_names {V}.
Arguments scatter_tables {V}. Arguments for_sequence_operands {V}.
Arguments for_range_operands {V}. Arguments range_comprehensions {V}.
Arguments list_comprehensions {V}. Arguments error_operands {V}.
Arguments lambda_programs {V}. Arguments main_vector {V}. Arguments main_max_stack {V}.
Arguments main_max_scope_depth {V}. Arguments fork_vectors {V}. Arguments fork_max_stacks {V}.
Arguments fork_max_scope_depths {V}. Arguments line_number_spans {V}.
Arguments fork_line_number_spans {V}. Arguments source_declarations {V}.
Arguments lambda_entry_scope_count {V}.

(** Indexing a table by a label or an offset; [None] is the panic of [v[i]]. *)
Definition at_index {A} (l : list A) (i : Z) : option A := l !! Z.to_nat i.

Section program.
Context {V : Type}.
Implicit Types p : Program V.

Definition program_new : Program V :=
  mkProgram [] [] (mkNames 0 ∅) [] [] [] [] [] [] [] [] 0 0 [] [] [] [] []
    (Some (mkSourceDeclarations [] [])) 0.

Definition find_literal p (label : Label) : option V := at_index (literals p) label.
Definition error_operand p (o : Offset) : option ErrorCode := at_index (error_operands p) o.
Definition scatter_table p (o : Offset) : option ScatterArgs := at_index (scatter_tables p) o.
Definition for_sequence_operand p (o : Offset) : option ForSequenceOperand :=
  at_index (for_sequence_operands p) o.
Definition for_range_operand p (o : Offset) : option ForRangeOperand :=
  at_index (for_range_operands p) o.
Definition range_comprehension p (o : Offset) : option RangeComprehend :=
  at_index (range_comprehensions p) o.
Definition list_comprehension p (o : Offset) : option ListComprehend :=
  at_index (list_comprehensions p) o.
Definition lambda_program p (o : Offset) : option (Program V) := at_index (lambda_programs p) o.
Definition jump_label p (l : Label) : option JumpLabel := at_index (jump_labels p) l.
Definition fork_vector p (o : Offset) : option (list Op.t) := snd <$> at_index (fork_vectors p) o.
Definition fork_vector_max_stack p (o : Offset) : Z := default 0 (at_index (fork_max_stacks p) o).
Definition fork_vector_max_scope_depth p (o : Offset) : Z :=
  default 0 (at_index (fork_max_scope_depths p) o).

(** [line_num_for_position]: the line of the last span that starts at or before
    the position, 1 before the first. *)
Fixpoint line_in_spans (spans : list (Z * Z)) (position last_line_num : Z) : Z :=
  match spans with
  | [] => last_line_num
  | (off, line_no) :: spans =>
      if position <? off then last_line_num else line_in_spans spans position line_no
  end.

Definition line_num_for_position p (position offset : Z) : Z :=
  line_in_spans (line_number_spans p) (position + offset) 1.

Definition fork_line_num_for_position p (fork_offset : Offset) (position : Z) : option Z :=
  (λ spans, line_in_spans spans position 1) <$> at_index (fork_line_number_spans p) fork_offset.
End program.

(** ** Equality of instructions *)

#[export] Instance f64_eq_dec : EqDecision f64.
Proof. intros a b. unfold Decision, f64 in *. decide equality; solve_decision. Defined.

#[export] Instance Op_eq_dec : EqDecision Op.t.
Proof. solve_decision. Defined.
