(* ===== verification/Values.v ===== *)
(** The values of the language (crates/var/src): [Var], its accessors and
    constructors (variant.rs), errors (error.rs), flyweights (flyweight.rs) and
    lambdas (lambda.rs).

    The code stores a value as a tag, seven bytes of metadata and a word; here it
    is the variant that [Var::variant] shows. Two facts of the representation
    stay: the length cached in 16 bits ([cached_len]), which length and index
    operations read first, and the test for ASCII strings. Conflict hints belong
    to the database (Payload) and are left out. A string is its list of Unicode
    scalar values. [Text] gives what the code takes from elsewhere: case
    conversion (the tables of Rust's library) and the interner of symbols. *)
From S2P Require Import Prelude Obj TxTypes Float64 Opcodes.
From Stdlib Require Import Ascii String.
From stdpp Require Import base gmap list strings.

Open Scope Z_scope.

Definition Str : Type := list N.

(** A string literal of the source. *)
Definition lit (s : string) : Str := N_of_ascii <$> list_ascii_of_string s.

(** [format!("{}", i)] for an integer. *)
Definition fmt_int (i : Z) : Str := N_of_ascii <$> fmt_signed i.

Class Text := {
  to_lowercase : N → list N;
  mk_symbol : Str → Symbol;
  as_arc_str : Symbol → Str;
}.

(** A variable's name as a symbol (names.rs); a register prints as
    [<register_n>]. *)
Definition var_name_symbol `{Text} (nr : VarName) : Symbol :=
  match nr with
  | Named sym => sym
  | Register r => mk_symbol (lit "<register_" ++ fmt_int r ++ lit ">")
  end.

Definition to_symbol `{Text} (v : Variable_) : Symbol := var_name_symbol (var_nr v).

Definition ident_for_name `{Text} (ns : Names) (n : Name) : option Symbol :=
  (λ d, var_name_symbol (var_nr (identifier d))) <$> decls ns !! n.

Definition ident_for_scope0_offset `{Text} (ns : Names) (offset : Z) : option Symbol :=
  name_for_scope0_offset ns offset ≫= ident_for_name ns.

(** ** Errors, flyweights, lambdas *)

Record ErrorOf (V : Type) := mkError {
  err_type : ErrorCode;
  err_msg : option Str;
  err_value : option V;
}.
Arguments mkError {V}. Arguments err_type {V}. Arguments err_msg {V}. Arguments err_value {V}.

Record FlyweightOf (V : Type) := mkFlyweight {
  fw_delegate : Obj;
  fw_slots : list (Symbol * V);
  fw_contents : list V;
}.
Arguments mkFlyweight {V}. Arguments fw_delegate {V}. Arguments fw_slots {V}.
Arguments fw_contents {V}.

Record LambdaOf (V : Type) := mkLambda {
  lam_params : ScatterArgs;
  lam_body : Program V;
  lam_captured_env : list (list V);
  lam_self_var : option Name;
}.
Arguments mkLambda {V}. Arguments lam_params {V}. Arguments lam_body {V}.
Arguments lam_captured_env {V}. Arguments lam_self_var {V}.

Inductive Var :=
| VNone
| VBool (b : bool)
| VInt (i : Z)
| VFloat (f : f64)
| VObj (o : Obj)
| VSym (s : Symbol)
| VStr (s : Str)
| VList (l : list Var)
| VMap (m : list (Var * Var))
| VErr (e : ErrorOf Var)
| VFlyweight (f : FlyweightOf Var)
| VBinary (b : list Z)
| VLambda (l : LambdaOf Var).

Definition Error : Type := ErrorOf Var.
Definition Flyweight : Type := FlyweightOf Var.
Definition Lambda : Type := LambdaOf Var.
Definition PrgInner : Type := Program Var.

(** [ErrorCode::msg], [with_msg], [From<ErrorCode>]. *)
Definition with_msg (c : ErrorCode) (s : Str) : Error := mkError c (Some s) None.
Definition from_code (c : ErrorCode) : Error := mkError c None None.

Definition error_code_string `{Text} (c : ErrorCode) : Str :=
  match c with
  | E_NONE => lit "E_NONE" | E_TYPE => lit "E_TYPE" | E_DIV => lit "E_DIV"
  | E_PERM => lit "E_PERM" | E_PROPNF => lit "E_PROPNF" | E_VERBNF => lit "E_VERBNF"
  | E_VARNF => lit "E_VARNF" | E_INVIND => lit "E_INVIND" | E_RECMOVE => lit "E_RECMOVE"
  | E_MAXREC => lit "E_MAXREC" | E_RANGE => lit "E_RANGE" | E_ARGS => lit "E_ARGS"
  | E_NACC => lit "E_NACC" | E_INVARG => lit "E_INVARG" | E_QUOTA => lit "E_QUOTA"
  | E_FLOAT => lit "E_FLOAT" | E_FILE => lit "E_FILE" | E_EXEC => lit "E_EXEC"
  | E_INTRPT => lit "E_INTRPT" | ErrCustom sym => as_arc_str sym
  end.

Definition error_message `{Text} (e : Error) : Str :=
  match err_msg e with
  | Some msg => msg
  | None =>
      match err_type e with
      | E_NONE => lit "No error" | E_TYPE => lit "Type mismatch"
      | E_DIV => lit "Division by zero" | E_PERM => lit "Permission denied"
      | E_PROPNF => lit "Property not found" | E_VERBNF => lit "Verb not found"
      | E_VARNF => lit "Variable not found" | E_INVIND => lit "Invalid indirection"
      | E_RECMOVE => lit "Recursive move" | E_MAXREC => lit "Too many verb calls"
      | E_RANGE => lit "Range error" | E_ARGS => lit "Incorrect number of arguments"
      | E_NACC => lit "Move refused by destination" | E_INVARG => lit "Invalid argument"
      | E_QUOTA => lit "Resource limit exceeded"
      | E_FLOAT => lit "Floating-point arithmetic error" | E_FILE => lit "File error"
      | E_EXEC => lit "Execution error" | E_INTRPT => lit "Interruption"
      | ErrCustom sym => lit "Custom error: " ++ as_arc_str sym
      end
  end.

Definition error_name `{Text} (e : Error) : Symbol := mk_symbol (error_code_string (err_type e)).

(** [Error::to_int], [Error::from_repr]. *)
Definition error_to_int (c : ErrorCode) : option Z :=
  match c with
  | E_NONE => Some 0 | E_TYPE => Some 1 | E_DIV => Some 2 | E_PERM => Some 3
  | E_PROPNF => Some 4 | E_VERBNF => Some 5 | E_VARNF => Some 6 | E_INVIND => Some 7
  | E_RECMOVE => Some 8 | E_MAXREC => Some 9 | E_RANGE => Some 10 | E_ARGS => Some 11
  | E_NACC => Some 12 | E_INVARG => Some 13 | E_QUOTA => Some 14 | E_FLOAT => Some 15
  | E_FILE => Some 16 | E_EXEC => Some 17 | E_INTRPT => Some 18 | ErrCustom _ => None
  end.

Definition error_from_repr (v : Z) : option Error :=
  from_code <$>
  match v with
  | 0 => Some E_NONE | 1 => Some E_TYPE | 2 => Some E_DIV | 3 => Some E_PERM
  | 4 => Some E_PROPNF | 5 => Some E_VERBNF | 6 => Some E_VARNF | 7 => Some E_INVIND
  | 8 => Some E_RECMOVE | 9 => Some E_MAXREC | 10 => Some E_RANGE | 11 => Some E_ARGS
  | 12 => Some E_NACC | 13 => Some E_INVARG | 14 => Some E_QUOTA | 15 => Some E_FLOAT
  | 16 => Some E_FILE | 17 => Some E_EXEC | 18 => Some E_INTRPT | _ => None
  end.

(** ** Constructors and accessors *)

Definition v_bool_int (b : bool) : Var := if b then VInt 1 else VInt 0.
Definition v_err (c : ErrorCode) : Var := VErr (from_code c).
Definition v_nothing : Var := VObj NOTHING.

Definition as_integer (v : Var) : option Z := match v with VInt i => Some i | _ => None end.
Definition as_float (v : Var) : option f64 := match v with VFloat f => Some f | _ => None end.
Definition as_object (v : Var) : option Obj := match v with VObj o => Some o | _ => None end.
Definition as_string (v : Var) : option Str := match v with VStr s => Some s | _ => None end.
Definition as_list (v : Var) : option (list Var) := match v with VList l => Some l | _ => None end.
Definition as_lambda (v : Var) : option Lambda := match v with VLambda l => Some l | _ => None end.
Definition as_error (v : Var) : option Error := match v with VErr e => Some e | _ => None end.
Definition as_flyweight (v : Var) : option Flyweight :=
  match v with VFlyweight f => Some f | _ => None end.

Definition is_none (v : Var) : bool := match v with VNone => true | _ => false end.
Definition is_int (v : Var) : bool := match v with VInt _ => true | _ => false end.
Definition is_float (v : Var) : bool := match v with VFloat _ => true | _ => false end.
Definition is_list (v : Var) : bool := match v with VList _ => true | _ => false end.
Definition is_string (v : Var) : bool := match v with VStr _ => true | _ => false end.
Definition is_sequence (v : Var) : bool :=
  match v with VList _ | VStr _ | VBinary _ => true | _ => false end.
Definition is_associative (v : Var) : bool := match v with VMap _ => true | _ => false end.
Definition is_scalar (v : Var) : bool := negb (is_sequence v) && negb (is_associative v).

Definition same_numeric_type (a b : Var) : bool :=
  match a, b with
  | VInt _, VInt _ | VFloat _, VFloat _ | VObj _, VObj _ => true
  | _, _ => false
  end.

Definition type_code (v : Var) : VarType :=
  match v with
  | VNone => TYPE_NONE | VBool _ => TYPE_BOOL | VInt _ => TYPE_INT | VFloat _ => TYPE_FLOAT
  | VObj _ => TYPE_OBJ | VSym _ => TYPE_SYMBOL | VStr _ => TYPE_STR | VList _ => TYPE_LIST
  | VMap _ => TYPE_MAP | VErr _ => TYPE_ERR | VFlyweight _ => TYPE_FLYWEIGHT
  | VBinary _ => TYPE_BINARY | VLambda _ => TYPE_LAMBDA
  end.

(** [VarType::to_literal] *)
Definition type_literal (t : VarType) : Str :=
  lit match t with
      | TYPE_INT => "TYPE_INT" | TYPE_OBJ => "TYPE_OBJ" | TYPE_FLOAT => "TYPE_FLOAT"
      | TYPE_STR => "TYPE_STR" | TYPE_ERR => "TYPE_ERR" | TYPE_LIST => "TYPE_LIST"
      | TYPE_MAP => "TYPE_MAP" | TYPE_BOOL => "TYPE_BOOL" | TYPE_FLYWEIGHT => "TYPE_FLYWEIGHT"
      | TYPE_SYMBOL => "TYPE_SYM" | TYPE_BINARY => "TYPE_BINARY" | TYPE_LAMBDA => "TYPE_LAMBDA"
      | _ => "INVALID-TYPE"
      end.

Definition ty (v : Var) : Str := type_literal (type_code v).

Definition as_symbol `{Text} (v : Var) : result Symbol Error :=
  match v with
  | VStr s => Ok (mk_symbol s)
  | VSym s => Ok s
  | VErr e => Ok (error_name e)
  | _ => Err (with_msg E_TYPE (lit "Cannot convert " ++ ty v ++ lit " to symbol"))
  end.

Definition is_true (v : Var) : bool :=
  match v with
  | VNone | VObj _ | VErr _ => false
  | VBool b => b
  | VInt i => negb (i =? 0)
  | VFloat f => negb (is_zero f)
  | VSym _ | VLambda _ => true
  | VStr s => negb (bool_decide (s = []))
  | VList [] | VMap [] | VBinary [] => false
  | VList _ | VMap _ | VBinary _ => true
  | VFlyweight f => match fw_contents f with [] => false | _ => true end
  end.

(** ** The cached length *)

Definition LEN_OVERFLOW : Z := 0xFFFF.

(** [meta_with_len]: the length in 16 bits, or the sentinel. *)
Definition meta_len (len : Z) : Z := if LEN_OVERFLOW <=? len then LEN_OVERFLOW else as_u16 len.

Definition zlen {A} (l : list A) : Z := Z.of_nat (length l).

(** The real length of a container. *)
Definition container_len (v : Var) : Z :=
  match v with
  | VStr s => zlen s
  | VList l => zlen l
  | VMap m => zlen m
  | VBinary b => zlen b
  | _ => 0
  end.

Definition cached_len (v : Var) : Z := meta_len (container_len v).

Definition len (v : Var) : result Z Error :=
  if is_scalar v then
    Err (with_msg E_INVARG (lit "Cannot get length of scalar value " ++ ty v))
  else
    let cached := cached_len v in
    if negb (cached =? LEN_OVERFLOW) then Ok cached else Ok (container_len v).

Definition is_empty (v : Var) : result bool Error :=
  if is_scalar v then
    Err (with_msg E_INVARG (lit "Cannot check if scalar value " ++ ty v ++ lit " is empty"))
  else
    let cached := cached_len v in
    if negb (cached =? LEN_OVERFLOW) then Ok (cached =? 0) else Ok (container_len v =? 0).

(** [str_is_ascii]: as many bytes as characters. *)
Definition is_ascii (s : Str) : bool := forallb (λ c, (c <? 128)%N) s.

(** ** Flyweights *)

Section flyweight.
Context `{Interner}.

Definition sym_leb (a b : Symbol) : bool := compare_id a <=? compare_id b.

(** [sort_unstable_by_key]: with equal keys the order is not specified; insertion
    keeps the later one after the earlier. *)
Fixpoint insert_slot {A} (kv : Symbol * A) (l : list (Symbol * A)) : list (Symbol * A) :=
  match l with
  | [] => [kv]
  | kv' :: l' => if sym_leb kv.1 kv'.1 then kv :: l else kv' :: insert_slot kv l'
  end.

Definition sort_slots {A} (l : list (Symbol * A)) : list (Symbol * A) :=
  fold_right insert_slot [] l.

Fixpoint dedup_slots {A} (l : list (Symbol * A)) : list (Symbol * A) :=
  match l with
  | [] => []
  | (k, v) :: l' =>
      match dedup_slots l' with
      | (k', w) :: r => if compare_id k =? compare_id k' then (k, w) :: r else (k, v) :: (k', w) :: r
      | [] => [(k, v)]
      end
  end.

Definition canonicalize_slots {A} (l : list (Symbol * A)) : list (Symbol * A) :=
  dedup_slots (sort_slots l).

Definition mk_flyweight (delegate : Obj) (slots : list (Symbol * Var)) (contents : list Var)
  : Flyweight := mkFlyweight delegate (canonicalize_slots slots) contents.

Definition get_slot (f : Flyweight) (key : Symbol) : option Var :=
  snd ∘ snd <$> list_find (λ kv, compare_id kv.1 = compare_id key) (fw_slots f).

(** Slots below the key, the slot, slots above it: the slots are sorted, so the
    binary search finds the slot or the place for it. *)
Definition add_slot (f : Flyweight) (key : Symbol) (value : Var) : Flyweight :=
  mkFlyweight (fw_delegate f)
    (filter (λ kv, compare_id kv.1 < compare_id key) (fw_slots f) ++ [(key, value)]
     ++ filter (λ kv, compare_id key < compare_id kv.1) (fw_slots f))
    (fw_contents f).

Definition remove_slot (f : Flyweight) (key : Symbol) : Flyweight :=
  mkFlyweight (fw_delegate f)
    (filter (λ kv, compare_id kv.1 ≠ compare_id key) (fw_slots f)) (fw_contents f).
End flyweight.
