(* ===== verification/ValueOrder.v ===== *)
(** Equality and order of values (crates/var/src/variant.rs, with the
    comparisons of string.rs, list.rs, map.rs, error.rs, flyweight.rs, lambda.rs).

    Strings compare without case, by the characters of their lower-case form;
    when both are ASCII the code compares bytes instead. Lists and maps compare
    by length first. Lambdas are ordered by the address of their compiled body,
    given here by [Addresses]. *)
From S2P Require Import Prelude Obj TxTypes Float64 Opcodes Values.
From stdpp Require Import base gmap list strings.

Open Scope Z_scope.

(** The address of a lambda's body ([&*l.0.body.0 as *const PrgInner]). *)
Class Addresses := { body_addr : PrgInner → Z }.

(** ** Comparison of sequences *)

Fixpoint list_eqb {A} (eqb : A → A → bool) (l1 l2 : list A) : bool :=
  match l1, l2 with
  | [], [] => true
  | a :: l1, b :: l2 => eqb a b && list_eqb eqb l1 l2
  | _, _ => false
  end.

Definition option_eqb {A} (eqb : A → A → bool) (o1 o2 : option A) : bool :=
  match o1, o2 with
  | Some a, Some b => eqb a b
  | None, None => true
  | _, _ => false
  end.

Definition pair_eqb {A B} (eqa : A → A → bool) (eqb : B → B → bool) (p q : A * B) : bool :=
  eqa p.1 q.1 && eqb p.2 q.2.

(** Lexicographic order, a proper prefix first. *)
Fixpoint lex_cmp {A} (cmp : A → A → comparison) (l1 l2 : list A) : comparison :=
  match l1, l2 with
  | [], [] => Datatypes.Eq
  | [], _ :: _ => Datatypes.Lt
  | _ :: _, [] => Datatypes.Gt
  | a :: l1, b :: l2 => match cmp a b with Datatypes.Eq => lex_cmp cmp l1 l2 | x => x end
  end.

(** Shorter first, then element by element. *)
Definition len_lex_cmp {A} (cmp : A → A → comparison) (l1 l2 : list A) : comparison :=
  match Nat.compare (length l1) (length l2) with
  | Datatypes.Eq => lex_cmp cmp l1 l2
  | x => x
  end.

Definition then_cmp (c d : comparison) : comparison :=
  match c with Datatypes.Eq => d | x => x end.

Definition pair_cmp {A B} (ca : A → A → comparison) (cb : B → B → comparison) (p q : A * B)
  : comparison := then_cmp (ca p.1 q.1) (cb p.2 q.2).

Definition option_cmp {A} (cmp : A → A → comparison) (o1 o2 : option A) : comparison :=
  match o1, o2 with
  | None, None => Datatypes.Eq
  | None, Some _ => Datatypes.Lt
  | Some _, None => Datatypes.Gt
  | Some a, Some b => cmp a b
  end.

(** ** Strings *)

Definition to_ascii_lowercase (c : N) : N :=
  if ((65 <=? c) && (c <=? 90))%N then (c + 32)%N else c.

Definition folded_chars `{Text} (s : Str) : list N := s ≫= to_lowercase.

Definition cmp_case_insensitive `{Text} (a b : Str) : comparison :=
  lex_cmp N.compare (folded_chars a) (folded_chars b).

Definition cmp_case_insensitive_ascii (a b : Str) : comparison :=
  lex_cmp N.compare (to_ascii_lowercase <$> a) (to_ascii_lowercase <$> b).

Definition eq_ignore_ascii_case (a b : Str) : bool :=
  list_eqb N.eqb (to_ascii_lowercase <$> a) (to_ascii_lowercase <$> b).

Definition str_eq_case_insensitive `{Text} (a b : Str) : bool :=
  if is_ascii a && is_ascii b then eq_ignore_ascii_case a b
  else match cmp_case_insensitive a b with Datatypes.Eq => true | _ => false end.

Definition str_cmp `{Text} (a b : Str) : comparison :=
  if is_ascii a && is_ascii b then cmp_case_insensitive_ascii a b
  else cmp_case_insensitive a b.

(** ** Numbers *)

(** An integer against a float: by value, the integer first when equal. *)
Definition int_float_cmp (int : Z) (float : f64) : comparison :=
  match total_cmp (f64_of_int int) (float_key float) with
  | Datatypes.Eq => Datatypes.Lt
  | order => order
  end.

Definition float_cmp (a b : f64) : comparison := total_cmp (float_key a) (float_key b).

(** ** Equality *)

Definition op_eqb (a b : Op.t) : bool :=
  match a, b with
  | Op.ImmFloat x, Op.ImmFloat y => f64_eqb x y
  | _, _ => bool_decide (a = b)
  end.

Section equality.
Context {V : Type} (eqb : V → V → bool).

Definition error_eqb (a b : ErrorOf V) : bool :=
  bool_decide (err_type a = err_type b) && option_eqb eqb (err_value a) (err_value b).

Definition flyweight_eqb (a b : FlyweightOf V) : bool :=
  bool_decide (fw_delegate a = fw_delegate b)
  && list_eqb (pair_eqb (λ k k', bool_decide (k = k')) eqb) (fw_slots a) (fw_slots b)
  && list_eqb eqb (fw_contents a) (fw_contents b).

Fixpoint program_eqb (a b : Program V) : bool :=
  list_eqb eqb (literals a) (literals b)
  && bool_decide (jump_labels a = jump_labels b)
  && bool_decide (var_names a = var_names b)
  && bool_decide (scatter_tables a = scatter_tables b)
  && bool_decide (for_sequence_operands a = for_sequence_operands b)
  && bool_decide (for_range_operands a = for_range_operands b)
  && bool_decide (range_comprehensions a = range_comprehensions b)
  && bool_decide (list_comprehensions a = list_comprehensions b)
  && bool_decide (error_operands a = error_operands b)
  && list_eqb program_eqb (lambda_programs a) (lambda_programs b)
  && list_eqb op_eqb (main_vector a) (main_vector b)
  && bool_decide (main_max_stack a = main_max_stack b)
  && bool_decide (main_max_scope_depth a = main_max_scope_depth b)
  && list_eqb (pair_eqb Z.eqb (list_eqb op_eqb)) (fork_vectors a) (fork_vectors b)
  && bool_decide (fork_max_stacks a = fork_max_stacks b)
  && bool_decide (fork_max_scope_depths a = fork_max_scope_depths b)
  && bool_decide (line_number_spans a = line_number_spans b)
  && bool_decide (fork_line_number_spans a = fork_line_number_spans b)
  && bool_decide (source_declarations a = source_declarations b)
  && bool_decide (lambda_entry_scope_count a = lambda_entry_scope_count b).

Definition lambda_eqb (a b : LambdaOf V) : bool :=
  bool_decide (lam_params a = lam_params b)
  && program_eqb (lam_body a) (lam_body b)
  && list_eqb (list_eqb eqb) (lam_captured_env a) (lam_captured_env b)
  && bool_decide (lam_self_var a = lam_self_var b).
End equality.

(** [PartialEq for Var] *)
Fixpoint var_eqb `{Text} (a b : Var) : bool :=
  match a, b with
  | VNone, VNone => true
  | VBool x, VBool y => Bool.eqb x y
  | VInt x, VInt y => x =? y
  | VFloat x, VFloat y => f64_eqb x y
  | VObj x, VObj y => bool_decide (x = y)
  | VSym x, VSym y => bool_decide (x = y)
  | VStr x, VStr y => str_eq_case_insensitive x y
  | VList x, VList y => list_eqb var_eqb x y
  | VMap x, VMap y => list_eqb (pair_eqb var_eqb var_eqb) x y
  | VErr x, VErr y => error_eqb var_eqb x y
  | VFlyweight x, VFlyweight y => flyweight_eqb var_eqb x y
  | VBinary x, VBinary y => list_eqb Z.eqb x y
  | VLambda x, VLambda y => lambda_eqb var_eqb x y
  | _, _ => false
  end.

(** [eq_case_sensitive]: strings exactly, also inside lists, maps and flyweights. *)
Fixpoint eq_case_sensitive `{Text} (a b : Var) : bool :=
  match a, b with
  | VStr x, VStr y => bool_decide (x = y)
  | VList x, VList y => list_eqb eq_case_sensitive x y
  | VMap x, VMap y => list_eqb (pair_eqb eq_case_sensitive eq_case_sensitive) x y
  | VFlyweight x, VFlyweight y =>
      bool_decide (fw_delegate x = fw_delegate y)
      && list_eqb (pair_eqb (λ k k', bool_decide (k = k')) eq_case_sensitive)
           (fw_slots x) (fw_slots y)
      && list_eqb eq_case_sensitive (fw_contents x) (fw_contents y)
  | _, _ => var_eqb a b
  end.

(** ** Order *)

Section order.
Context `{Text} `{Interner} `{Addresses}.

Definition error_code_cmp (a b : ErrorCode) : comparison :=
  match a, b with
  | ErrCustom x, ErrCustom y => compare_id x ?= compare_id y
  | _, _ => default 19 (error_to_int a) ?= default 19 (error_to_int b)
  end.

Definition error_cmp (cmp : Var → Var → comparison) (a b : Error) : comparison :=
  then_cmp (error_code_cmp (err_type a) (err_type b))
    (option_cmp cmp (err_value a) (err_value b)).

Definition sym_cmp (a b : Symbol) : comparison := compare_id a ?= compare_id b.

Definition flyweight_cmp (cmp : Var → Var → comparison) (a b : Flyweight) : comparison :=
  then_cmp (obj_bits (fw_delegate a) ?= obj_bits (fw_delegate b))
    (then_cmp (lex_cmp (pair_cmp sym_cmp cmp) (fw_slots a) (fw_slots b))
       (len_lex_cmp cmp (fw_contents a) (fw_contents b))).

Definition bool_cmp (a b : bool) : comparison :=
  match a, b with
  | false, true => Datatypes.Lt | true, false => Datatypes.Gt | _, _ => Datatypes.Eq
  end.

(** [Ord for Var], with [cmp_slow] *)
Fixpoint var_cmp (a b : Var) : comparison :=
  match a, b with
  | VNone, VNone => Datatypes.Eq
  | VBool l, VBool r => bool_cmp l r
  | VObj l, VObj r => obj_bits l ?= obj_bits r
  | VInt l, VInt r => l ?= r
  | VFloat l, VFloat r => float_cmp l r
  | VList l, VList r => len_lex_cmp var_cmp l r
  | VStr l, VStr r => str_cmp l r
  | VMap l, VMap r => len_lex_cmp (pair_cmp var_cmp var_cmp) l r
  | VErr l, VErr r => error_cmp var_cmp l r
  | VFlyweight l, VFlyweight r => flyweight_cmp var_cmp l r
  | VSym l, VSym r => sym_cmp l r
  | VBinary l, VBinary r => lex_cmp Z.compare l r
  | VLambda l, VLambda r => body_addr (lam_body l) ?= body_addr (lam_body r)
  | VInt l, VFloat r => int_float_cmp l r
  | VFloat l, VInt r => CompOpp (int_float_cmp r l)
  | VNone, _ => Datatypes.Lt
  | _, VNone => Datatypes.Gt
  | VBool _, _ => Datatypes.Lt
  | _, VBool _ => Datatypes.Gt
  | VObj _, _ => Datatypes.Lt
  | _, VObj _ => Datatypes.Gt
  | VInt _, _ => Datatypes.Lt
  | _, VInt _ => Datatypes.Gt
  | VFloat _, _ => Datatypes.Lt
  | _, VFloat _ => Datatypes.Gt
  | VList _, _ => Datatypes.Lt
  | _, VList _ => Datatypes.Gt
  | VStr _, _ => Datatypes.Lt
  | _, VStr _ => Datatypes.Gt
  | VMap _, _ => Datatypes.Lt
  | _, VMap _ => Datatypes.Gt
  | VFlyweight _, _ => Datatypes.Lt
  | _, VFlyweight _ => Datatypes.Gt
  | VSym _, _ => Datatypes.Lt
  | _, VSym _ => Datatypes.Gt
  | VBinary _, _ => Datatypes.Lt
  | _, VBinary _ => Datatypes.Gt
  | VLambda _, _ => Datatypes.Gt
  | _, VLambda _ => Datatypes.Lt
  end.

(** [cmp_case_sensitive]: by the bytes of the text, which order as its characters. *)
Definition cmp_case_sensitive (a b : Var) : comparison :=
  match a, b with
  | VStr x, VStr y => lex_cmp N.compare x y
  | _, _ => var_cmp a b
  end.

(** The ordering operators of the language: like types only. *)
Definition compare (a b : Var) : result comparison Error :=
  match a, b with
  | VInt _, VInt _ | VFloat _, VFloat _ | VStr _, VStr _ | VObj _, VObj _ | VErr _, VErr _ =>
      Ok (var_cmp a b)
  | _, _ => Err (with_msg E_TYPE (lit "these values cannot be ordered"))
  end.
End order.
