(* ===== verification/Scalars.v ===== *)
(** Arithmetic on values (crates/var/src/scalar.rs).

    Integers are 64-bit; every operation either gives the exact result or raises
    an error, except the shifts, which work on the 64 bits. Floats are the
    finite doubles. *)
From S2P Require Import Prelude Obj TxTypes Float64 Opcodes Values.
From stdpp Require Import base list strings.

Open Scope Z_scope.

Definition i64_min : Z := - 2 ^ 63.
Definition i64_max : Z := 2 ^ 63 - 1.
Definition in_i64 (z : Z) : bool := (i64_min <=? z) && (z <=? i64_max).

(** The checked operations of [i64]: [None] on overflow. *)
Definition checked (z : Z) : option Z := if in_i64 z then Some z else None.
Definition checked_rem (l r : Z) : option Z :=
  if (l =? i64_min) && (r =? -1) then None else Some (Z.rem l r).
Definition checked_pow (l r : Z) : option Z :=
  if (2 <=? Z.abs l) && (64 <=? r) then None else checked (l ^ r).

(** [x as i64] on 64 bits. *)
Definition as_i64 (x : Z) : Z := to_signed 64 (wrap 64 x).

Definition float_result (d : f64) : result Var Error :=
  if is_finite d then Ok (VFloat d) else Err (with_msg E_FLOAT (lit "result is not a real number")).

Definition division_by_zero : Error := with_msg E_DIV (lit "division by zero").

Definition int_or (o : option Z) (message : string) : result Var Error :=
  match o with
  | Some i => Ok (VInt i)
  | None => Err (with_msg E_INVARG (lit message))
  end.

(** "Cannot [verb] type [l] [joint] [r]" *)
Definition type_error (verb joint : string) (l r : Var) : result Var Error :=
  Err (with_msg E_TYPE (lit "Cannot " ++ lit verb ++ lit " type " ++ ty l ++ lit joint ++ ty r)).

Definition add (l r : Var) : result Var Error :=
  match l, r with
  | VInt x, VInt y => int_or (checked (x + y)) "Integer overflow"
  | VFloat x, VFloat y => float_result (f64_add x y)
  | VStr x, VStr y => Ok (VStr (x ++ y))
  | _, _ => type_error "add" " and " l r
  end.

Definition sub (l r : Var) : result Var Error :=
  match l, r with
  | VInt x, VInt y => int_or (checked (x - y)) "Integer underflow"
  | VFloat x, VFloat y => float_result (f64_sub x y)
  | _, _ => type_error "sub" " and " l r
  end.

Definition mul (l r : Var) : result Var Error :=
  match l, r with
  | VInt x, VInt y => int_or (checked (x * y)) "Integer overflow"
  | VFloat x, VFloat y => float_result (f64_mul x y)
  | _, _ => type_error "mul" " and " l r
  end.

Definition div (l r : Var) : result Var Error :=
  match l, r with
  | VInt x, VInt y =>
      if y =? 0 then Err division_by_zero else int_or (checked (Z.quot x y)) "Integer overflow"
  | VFloat x, VFloat y =>
      if is_zero y then Err division_by_zero else float_result (f64_div x y)
  | _, _ => type_error "div" " and " l r
  end.

Definition modulus (l r : Var) : result Var Error :=
  match l, r with
  | VInt x, VInt y =>
      if y =? 0 then Err division_by_zero else int_or (checked_rem x y) "Integer overflow"
  | VFloat x, VFloat y =>
      if is_zero y then Err division_by_zero else Ok (VFloat (f64_rem x y))
  | _, _ => type_error "modulus" " and " l r
  end.

Definition u32_max : Z := 2 ^ 32 - 1.

Definition pow `{Libm} (l r : Var) : result Var Error :=
  match l, r with
  | VInt l, VInt r =>
      if r =? 0 then Ok (VInt 1)
      else if r <? 0 then
        match l with
        | -1 => Ok (VInt (if Z.rem r 2 =? 0 then 1 else -1))
        | 0 => Err division_by_zero
        | 1 => Ok (VInt 1)
        | _ => Ok (VInt 0)
        end
      else if l =? 0 then Ok (VInt 0)
      else if l =? 1 then Ok (VInt 1)
      else if l =? -1 then Ok (VInt (if Z.rem r 2 =? 0 then 1 else -1))
      else if r <=? u32_max then int_or (checked_pow l r) "Integer overflow"
      else Err (with_msg E_INVARG (lit "Integer overflow"))
  | VFloat x, VFloat y => float_result (powf x y)
  | VFloat x, VInt n =>
      if Z.abs n <=? 2 ^ 53 then float_result (powf x (f64_of_int n))
      else float_result (float_pow_int x n)
  | _, _ => type_error "pow" " and " l r
  end.

Definition negative (v : Var) : result Var Error :=
  match v with
  | VInt i => int_or (checked (- i)) "Integer underflow"
  | VFloat f => Ok (VFloat (f64_neg f))
  | _ => Err (with_msg E_TYPE (lit "Cannot negate type " ++ ty v))
  end.

Definition bitand (l r : Var) : result Var Error :=
  match l, r with
  | VInt x, VInt y => Ok (VInt (Z.land x y))
  | _, _ => type_error "bitwise AND" " and " l r
  end.

Definition bitor (l r : Var) : result Var Error :=
  match l, r with
  | VInt x, VInt y => Ok (VInt (Z.lor x y))
  | _, _ => type_error "bitwise OR" " and " l r
  end.

Definition bitxor (l r : Var) : result Var Error :=
  match l, r with
  | VInt x, VInt y => Ok (VInt (Z.lxor x y))
  | _, _ => type_error "bitwise XOR" " and " l r
  end.

Definition shift_amount (r : Z) : bool := (0 <=? r) && (r <=? 63).
Definition invalid_shift : result Var Error := Err (with_msg E_INVARG (lit "Invalid shift amount")).

Definition bitshl (l r : Var) : result Var Error :=
  match l, r with
  | VInt x, VInt y => if shift_amount y then Ok (VInt (as_i64 (Z.shiftl x y))) else invalid_shift
  | _, _ => type_error "left shift" " by " l r
  end.

Definition bitshr (l r : Var) : result Var Error :=
  match l, r with
  | VInt x, VInt y => if shift_amount y then Ok (VInt (Z.shiftr x y)) else invalid_shift
  | _, _ => type_error "right shift" " by " l r
  end.

Definition bitlshr (l r : Var) : result Var Error :=
  match l, r with
  | VInt x, VInt y =>
      if shift_amount y then Ok (VInt (as_i64 (Z.shiftr (wrap 64 x) y))) else invalid_shift
  | _, _ => type_error "logical right shift" " by " l r
  end.

Definition bitnot (v : Var) : result Var Error :=
  match v with
  | VInt i => Ok (VInt (Z.lnot i))
  | _ => Err (with_msg E_TYPE (lit "Cannot bitwise complement type " ++ ty v))
  end.
