(* ===== verification/Containers.v ===== *)
(** Lists, strings, binaries and maps, and indexing of values
    (crates/var/src/list.rs, string.rs, binary.rs, map.rs, variant.rs, lib.rs).

    The persistent vector of the code is a list, its ordered map the list of its
    entries in key order. What the map library keeps as the key when it replaces
    an entry is [OrdMap]'s parameter. An index is an [isize]: arithmetic wraps at
    64 bits as in release builds. [range] on a binary can panic: it returns
    [None] then. *)
From S2P Require Import Prelude Obj TxTypes Float64 Opcodes Values ValueOrder Scalars.
From stdpp Require Import base gmap list strings.

Open Scope Z_scope.

(** How values print in error messages: [{:?}] and the unparser's [to_literal]. *)
Class Printing := { debug_fmt : Var → Str; to_literal : Var → Str }.

(** The key kept when an entry for [old] is replaced under the equal key [new]. *)
Class OrdMap := { stored_key : Var → Var → Var }.

(** [l.iter().take(n)], [.skip(n)] for a [usize]. *)
Definition ztake {A} (n : Z) (l : list A) : list A := take (Z.to_nat (Z.min n (zlen l))) l.
Definition zskip {A} (n : Z) (l : list A) : list A := drop (Z.to_nat (Z.min n (zlen l))) l.

(** ** Index modes (lib.rs) *)

Inductive IndexMode := ZeroBased | OneBased.

Definition adjust_i64 (m : IndexMode) (i : Z) : Z :=
  match m with ZeroBased => i | OneBased => as_i64 (i - 1) end.

Definition reverse_adjust_isize (m : IndexMode) (i : Z) : Z :=
  match m with ZeroBased => i | OneBased => as_i64 (i + 1) end.

(** [x as usize] on an [isize]. *)
Definition as_usize (x : Z) : Z := wrap 64 x.

(** ** list.rs *)

Module List_.
Definition push_owned (l : list Var) (value : Var) : Var := VList (l ++ [value]).

Definition insert_owned (l : list Var) (i : Z) (value : Var) : Var :=
  VList (ztake i l ++ [value] ++ zskip i l).

Definition index_set_owned (l : list Var) (i : Z) (value : Var) : result Var Error :=
  if zlen l <=? i then
    Err (with_msg E_RANGE (lit "attempt to set index " ++ fmt_int (i + 1)
           ++ lit " in list of length " ++ fmt_int (zlen l)))
  else Ok (VList (<[Z.to_nat i := value]> l)).

Definition append_owned (l : list Var) (other : Var) : result Var Error :=
  match other with
  | VList o => Ok (VList (l ++ o))
  | _ => Err (with_msg E_TYPE (lit "attempt to append non-list"))
  end.

Definition remove_at_owned (l : list Var) (i : Z) : result Var Error :=
  if zlen l <=? i then
    Err (with_msg E_RANGE (lit "attempt to remove index " ++ fmt_int (i + 1)
           ++ lit " in list of length " ++ fmt_int (zlen l)))
  else Ok (VList (delete (Z.to_nat i) l)).

Definition range_set_owned (l : list Var) (from to : Z) (with_ : Var) : result Var Error :=
  match with_ with
  | VList with_val =>
      let base_len := zlen l in
      if from <? 0 then
        Err (with_msg E_RANGE (lit "attempt to set range with negative index " ++ fmt_int from))
      else if (from =? 0) && (to =? -1) then Ok (VList (with_val ++ l))
      else
        let to := if to <? 0 then 0 else to in
        if base_len + 1 <? from then
          Err (with_msg E_RANGE (lit "attempt to set range with index " ++ fmt_int (from + 1)
                 ++ lit " in list of length " ++ fmt_int base_len))
        else
          let to := if base_len =? 0 then 0
                    else if base_len <? to + 1 then base_len - 1 else to in
          Ok (VList (ztake from l ++ with_val ++ zskip (to + 1) l))
  | _ => Err (with_msg E_TYPE (lit "attempt to set range with non-list"))
  end.

Definition set_remove `{Text} (l : list Var) (item : Var) : Var :=
  match list_find (λ v, var_eqb v item = true) l with
  | Some (i, _) => VList (delete i l)
  | None => VList l
  end.

Definition set_add `{Text} (l : list Var) (item : Var) : Var :=
  if existsb (λ v, var_eqb v item) l then VList l else VList (l ++ [item]).

Definition pop_front (l : list Var) : result (Var * Var) Error :=
  match l with
  | [] => Err (with_msg E_RANGE (lit "attempt to pop from empty list"))
  | first :: l => Ok (first, VList l)
  end.

Definition index_in `{Text} (l : list Var) (value : Var) (case_sensitive : bool) : option Z :=
  (λ p, Z.of_nat p.1) <$>
  list_find (λ v, (if case_sensitive then eq_case_sensitive v value else var_eqb v value) = true) l.

Definition index (l : list Var) (i : Z) : result Var Error :=
  match l !! Z.to_nat i with
  | Some v => Ok v
  | None => Err (with_msg E_RANGE (lit "attempt to index " ++ fmt_int (i + 1)
                   ++ lit " in list of length " ++ fmt_int (zlen l)))
  end.

Definition range (l : list Var) (from to : Z) : result Var Error :=
  let len := zlen l in
  if to <? from then Ok (VList [])
  else if (len + 1 <? from) || (len <? to) then
    Err (with_msg E_RANGE (lit "attempt to access out of bounds range " ++ fmt_int (from + 1)
           ++ lit ".." ++ fmt_int (to + 1) ++ lit " in list of length " ++ fmt_int len))
  else
    let from := as_usize (Z.max from 0) in
    let to := as_usize to in
    Ok (VList (ztake (as_usize (to - from + 1)) (zskip from l))).
End List_.

(** ** string.rs *)

Module Str_.
Section str.
Context `{Text}.

(** The offset of the first suffix that satisfies [p]. *)
Fixpoint find_suffix (p : Str → bool) (s : Str) : option Z :=
  if p s then Some 0
  else match s with
       | [] => None
       | _ :: s' => Z.succ <$> find_suffix p s'
       end.

Definition starts_with (eqb : N → N → bool) (needle s : Str) : bool :=
  list_eqb eqb (ztake (zlen needle) s) needle.

Definition ascii_find_ci (subject needle : Str) (skip_chars : Z) (known_ascii : bool)
  : result (option Z) unit :=
  if negb known_ascii && negb (is_ascii needle && is_ascii subject) then Err tt
  else if bool_decide (needle = []) then Ok (Some (Z.min skip_chars (zlen subject)))
  else if zlen subject <=? skip_chars then Ok None
  else Ok ((Z.add skip_chars) <$>
             find_suffix
               (starts_with (λ a b, (to_ascii_lowercase a =? to_ascii_lowercase b)%N) needle)
               (zskip skip_chars subject)).

Definition single_folded_char (needle : Str) : option N :=
  match needle with
  | [ch] => match to_lowercase ch with [first] => Some first | _ => None end
  | _ => None
  end.

(** [matches_ci_precomputed]: the folded needle starts the folded rest. *)
Definition matches_ci_precomputed (s : Str) (needle_lower : list N) : bool :=
  starts_with N.eqb needle_lower (folded_chars s).

Definition unicode_find_ci (subject needle : Str) (skip_chars : Z) : option Z :=
  if bool_decide (needle = []) then Some (Z.min skip_chars (zlen subject))
  else
    (Z.add skip_chars) <$>
    match single_folded_char needle with
    | Some needle_single =>
        find_suffix
          (λ s, match s with
                | c :: _ => bool_decide (head (to_lowercase c) = Some needle_single)
                | [] => false
                end) (zskip skip_chars subject)
    | None =>
        let needle_lower := folded_chars needle in
        match needle_lower with
        | [] => Some (Z.min skip_chars (zlen subject) - skip_chars)
        | first_needle_char :: _ =>
            find_suffix
              (λ s, match s with
                    | c :: _ => (default 0 (head (to_lowercase c)) =? first_needle_char)%N
                                && matches_ci_precomputed s needle_lower
                    | [] => false
                    end) (zskip skip_chars subject)
        end
    end.

Definition str_find (subject needle : Str) (case_matters : bool) (skip : Z) (ascii : bool)
  : option Z :=
  if case_matters then
    if zlen subject <=? skip then
      if bool_decide (needle = []) then Some (Z.min skip (zlen subject)) else None
    else (Z.add skip) <$> find_suffix (starts_with N.eqb needle) (zskip skip subject)
  else
    match ascii_find_ci subject needle skip ascii with
    | Ok r => r
    | Err _ => unicode_find_ci subject needle skip
    end.

Definition out_of_range (s : Str) (i : Z) : Error :=
  with_msg E_RANGE (lit "Index " ++ fmt_int i ++ lit " out of range for string of length "
    ++ fmt_int (zlen s)).

Definition index (s : Str) (i : Z) : result Var Error :=
  match s !! Z.to_nat i with
  | Some c => Ok (VStr [c])
  | None => Err (out_of_range s i)
  end.

Definition index_set (s : Str) (i : Z) (value : Var) : result Var Error :=
  match s !! Z.to_nat i with
  | None => Err (out_of_range s i)
  | Some _ =>
      match value with
      | VStr [c] => Ok (VStr (<[Z.to_nat i := c]> s))
      | VStr _ =>
          Err (with_msg E_INVARG (lit "String index set value must be a single character"))
      | _ => Err (with_msg E_TYPE (lit "Cannot set string index " ++ fmt_int i ++ lit " with "
                                   ++ ty value))
      end
  end.

Definition push (s : Str) (value : Var) : result Var Error :=
  match value with
  | VStr o => Ok (VStr (s ++ o))
  | _ => Err (with_msg E_TYPE (lit "Cannot push " ++ ty value ++ lit " to string"))
  end.

Definition insert (s : Str) (i : Z) (value : Var) : result Var Error :=
  match value with
  | VStr o => Ok (VStr (ztake i s ++ o ++ zskip i s))
  | _ => Err (with_msg E_TYPE (lit "Cannot insert " ++ ty value ++ lit " into string"))
  end.

Definition range (s : Str) (from to : Z) : result Var Error :=
  if to <? from then Ok (VStr [])
  else
    let char_len := zlen s in
    let start := as_usize (Z.max from 0) in
    let to' := as_usize to in
    if (char_len <=? start) || (char_len <=? to') then
      Err (with_msg E_RANGE (lit "Range " ++ fmt_int from ++ lit ".." ++ fmt_int to'
             ++ lit " out of bounds for string of length " ++ fmt_int char_len))
    else Ok (VStr (ztake (as_usize (to' - start + 1)) (zskip start s))).

Definition range_set (s : Str) (from to : Z) (with_ : Var) : result Var Error :=
  match with_ with
  | VStr with_val =>
      let char_len := zlen s in
      let from := Z.max from 0 in
      if char_len <? from then
        Err (with_msg E_RANGE (lit "Range start " ++ fmt_int from
               ++ lit " out of bounds for string of length " ++ fmt_int char_len))
      else
        Ok (VStr (ztake from s ++ with_val
                  ++ (if to <? 0 then s
                      else if to + 1 <? char_len then zskip (to + 1) s else [])))
  | _ => Err (with_msg E_TYPE (lit "Cannot set string range with " ++ ty with_))
  end.

Definition append (s : Str) (other : Var) : result Var Error :=
  match other with
  | VStr o => Ok (VStr (s ++ o))
  | _ => Err (with_msg E_TYPE (lit "Cannot append " ++ ty other ++ lit " to string"))
  end.

Definition remove_at (s : Str) (i : Z) : result Var Error :=
  match s !! Z.to_nat i with
  | Some _ => Ok (VStr (delete (Z.to_nat i) s))
  | None => Err (out_of_range s i)
  end.
End str.
End Str_.

(** ** binary.rs *)

Module Binary.
Definition is_byte (i : Z) : bool := (0 <=? i) && (i <=? 255).

Definition byte_error {A} (i : Z) : result A Error :=
  Err (with_msg E_INVARG (lit "Byte value " ++ fmt_int i ++ lit " out of range (0-255)")).

Definition out_of_range (b : list Z) (i : Z) : Error :=
  with_msg E_RANGE (lit "Index " ++ fmt_int i ++ lit " out of range for binary of length "
    ++ fmt_int (zlen b)).

Fixpoint find_bytes (needle s : list Z) : option Z :=
  if bool_decide (ztake (zlen needle) s = needle) then Some 0
  else match s with
       | [] => None
       | _ :: s' => Z.succ <$> find_bytes needle s'
       end.

Definition index_in (b : list Z) (value : Var) : result (option Z) Error :=
  match value with
  | VBinary [] => Ok (Some 0)
  | VBinary needle => Ok (find_bytes needle b)
  | VInt i =>
      if is_byte i then Ok ((λ p, Z.of_nat p.1) <$> list_find (λ x, x = i) b) else byte_error i
  | _ => Err (with_msg E_TYPE (lit "Cannot search binary for " ++ ty value))
  end.

Definition index (b : list Z) (i : Z) : result Var Error :=
  match b !! Z.to_nat i with
  | Some x => Ok (VInt x)
  | None => Err (out_of_range b i)
  end.

Definition index_set (b : list Z) (i : Z) (value : Var) : result Var Error :=
  if zlen b <=? i then Err (out_of_range b i)
  else
    match value with
    | VInt x => if is_byte x then Ok (VBinary (<[Z.to_nat i := x]> b)) else byte_error x
    | _ => Err (with_msg E_TYPE (lit "Cannot set binary index " ++ fmt_int i ++ lit " with "
                                 ++ ty value))
    end.

Definition push (b : list Z) (value : Var) : result Var Error :=
  match value with
  | VInt x => if is_byte x then Ok (VBinary (b ++ [x])) else byte_error x
  | VBinary other => Ok (VBinary (b ++ other))
  | _ => Err (with_msg E_TYPE (lit "Cannot append " ++ ty value ++ lit " to binary"))
  end.

Definition insert (b : list Z) (i : Z) (value : Var) : result Var Error :=
  if zlen b <? i then Err (out_of_range b i)
  else
    match value with
    | VInt x =>
        if is_byte x then Ok (VBinary (ztake i b ++ [x] ++ zskip i b)) else byte_error x
    | _ => Err (with_msg E_TYPE (lit "Cannot insert " ++ ty value ++ lit " into binary"))
    end.

(** Negative indices count from the end. *)
Definition clamp (len i : Z) : Z := if i <? 0 then Z.max 0 (len + i) else i.

(** [&s[a..=b]]: a panic when the end is past the last element or the start past
    the end. *)
Definition slice_inclusive (s : list Z) (a b : Z) : option (list Z) :=
  if (zlen s <? b + 1) || (b + 1 <? a) then None
  else Some (ztake (b + 1 - a) (zskip a s)).

Definition range (b : list Z) (from to : Z) : option (result Var Error) :=
  let len := zlen b in
  let from := Z.max 0 (clamp len from) in
  let to := Z.min (Z.max 0 (clamp len to)) len in
  if to <? from then Some (Ok (VBinary []))
  else (λ s, Ok (VBinary s)) <$> slice_inclusive b from (Z.min to (Z.max 0 (len - 1))).

Definition range_set (b : list Z) (from to : Z) (with_ : Var) : result Var Error :=
  let len := zlen b in
  let from := Z.max 0 (clamp len from) in
  let to := Z.min (Z.max 0 (clamp len to)) len in
  if to <? from then Err (with_msg E_RANGE (lit "Invalid range"))
  else
    match with_ with
    | VBinary r =>
        Ok (VBinary (ztake from b ++ r ++ (if to + 1 <? len then zskip (to + 1) b else [])))
    | _ => Err (with_msg E_TYPE (lit "Cannot replace binary range with " ++ ty with_))
    end.

Definition append (b : list Z) (other : Var) : result Var Error :=
  match other with
  | VBinary o => Ok (VBinary (b ++ o))
  | _ => Err (with_msg E_TYPE (lit "Cannot append " ++ ty other ++ lit " to binary"))
  end.

Definition remove_at (b : list Z) (i : Z) : result Var Error :=
  if zlen b <=? i then Err (out_of_range b i) else Ok (VBinary (delete (Z.to_nat i) b)).
End Binary.
