(* ===== verification/VarOps.v ===== *)
(** Maps (crates/var/src/map.rs) and the operations of values that dispatch on
    the type (crates/var/src/variant.rs): indexing, ranges, membership. *)
From S2P Require Import Prelude Obj TxTypes Float64 Opcodes Values ValueOrder Scalars Containers.
From stdpp Require Import base gmap list strings.

Open Scope Z_scope.

Section ops.
Context `{Text} `{Interner} `{Addresses} `{OrdMap} `{Printing}.

(** ** The ordered map *)

Definition entries : Type := list (Var * Var).

Definition key_eqb (a b : Var) : bool :=
  match var_cmp a b with Datatypes.Eq => true | _ => false end.
Definition key_ltb (a b : Var) : bool :=
  match var_cmp a b with Datatypes.Lt => true | _ => false end.

Fixpoint omap_get (m : entries) (k : Var) : option Var :=
  match m with
  | [] => None
  | (k', v) :: m => if key_eqb k' k then Some v else omap_get m k
  end.

Definition omap_contains (m : entries) (k : Var) : bool :=
  match omap_get m k with Some _ => true | None => false end.

Fixpoint omap_insert (k v : Var) (m : entries) : entries :=
  match m with
  | [] => [(k, v)]
  | (k', v') :: m' =>
      match var_cmp k k' with
      | Datatypes.Lt => (k, v) :: m
      | Datatypes.Eq => (stored_key k' k, v) :: m'
      | Datatypes.Gt => (k', v') :: omap_insert k v m'
      end
  end.

Fixpoint omap_remove (m : entries) (k : Var) : entries * option Var :=
  match m with
  | [] => ([], None)
  | (k', v) :: m' =>
      if key_eqb k' k then (m', Some v)
      else let '(r, o) := omap_remove m' k in ((k', v) :: r, o)
  end.

(** [range(from..)] *)
Definition omap_from (m : entries) (from : Var) : entries :=
  filter (λ kv, key_ltb kv.1 from = false) m.

Definition omap_collect (l : entries) : entries :=
  fold_left (λ m kv, omap_insert kv.1 kv.2 m) l [].

(** ** map.rs *)

Definition validate_key (key : Var) : result unit Error :=
  if negb (is_scalar key) && negb (is_string key) then
    Err (with_msg E_TYPE (lit "Key must be a string or scalar, was " ++ ty key))
  else Ok tt.

Definition map_build (pairs : entries) : Var := VMap (omap_collect pairs).

Definition map_set_owned (m : entries) (key value : Var) : result Var Error :=
  let? _ := validate_key key in Ok (VMap (omap_insert key value m)).

Definition key_not_found (key : Var) : Error :=
  with_msg E_RANGE (lit "Key not found: " ++ debug_fmt key).

Definition map_get (m : entries) (key : Var) : result Var Error :=
  match omap_get m key with
  | Some v => Ok v
  | None => Err (key_not_found key)
  end.

Definition map_index (m : entries) (i : Z) : result (Var * Var) Error :=
  match m !! Z.to_nat i with
  | Some kv => Ok kv
  | None => Err (with_msg E_RANGE (lit "Index " ++ fmt_int i
                   ++ lit " out of bounds for map of length " ++ fmt_int (zlen m)))
  end.

(** Searches the values. *)
Definition map_index_in (m : entries) (value : Var) (case_sensitive : bool) : option Z :=
  (λ p, Z.of_nat p.1) <$>
  list_find (λ kv, (if case_sensitive
                    then match cmp_case_sensitive kv.2 value with Datatypes.Eq => true | _ => false end
                    else var_eqb kv.2 value) = true) m.

Fixpoint take_while_below (l : entries) (to : Var) : entries :=
  match l with
  | kv :: l => if key_ltb kv.1 to then kv :: take_while_below l to else []
  | [] => []
  end.

Definition map_range (m : entries) (from to : Var) : result Var Error :=
  if negb (omap_contains m from) then Err (key_not_found from)
  else Ok (VMap (omap_collect (take_while_below (omap_from m from) to))).

Definition map_range_set : result Var Error :=
  Err (with_msg E_TYPE (lit "Range assignment not supported on maps")).

Definition map_contains_key (m : entries) (key : Var) (case_sensitive : bool) : bool :=
  if case_sensitive then
    existsb (λ kv, match cmp_case_sensitive kv.1 key with Datatypes.Eq => true | _ => false end) m
  else omap_contains m key.

Definition map_remove (m : entries) (key : Var) (case_sensitive : bool) : Var * option Var :=
  let key' :=
    if case_sensitive then
      (λ p, p.2.1) <$>
      list_find (λ kv, match cmp_case_sensitive kv.1 key with Datatypes.Eq => true | _ => false end
                       = true) m
    else Some key in
  match key' with
  | Some k => let '(r, o) := omap_remove m k in (VMap r, o)
  | None => (VMap m, None)
  end.

Definition map_first (m : entries) : result (Var * Var) Error :=
  match m with
  | kv :: _ => Ok kv
  | [] => Err (from_code E_RANGE)
  end.

Definition no_key_after : Error := with_msg E_RANGE (lit "No key after").

Fixpoint after_exact (l : entries) (key : Var) : option (Var * Var) :=
  match l with
  | [] => None
  | kv :: l =>
      match cmp_case_sensitive kv.1 key with
      | Datatypes.Eq => head l
      | _ => after_exact l key
      end
  end.

Definition map_next_after (m : entries) (key : Var) (case_sensitive : bool)
  : result (Var * Var) Error :=
  let next := if case_sensitive then after_exact (omap_from m key) key
              else head (tail (omap_from m key)) in
  match next with
  | Some kv => Ok kv
  | None => Err no_key_after
  end.

(** ** variant.rs *)

Definition non_integer_index (c : ErrorCode) (i : Var) : Error :=
  with_msg c (lit "Cannot index into sequence with non-integer index " ++ ty i).

Definition index (v i : Var) (m : IndexMode) : result Var Error :=
  if is_scalar v then
    Err (with_msg E_TYPE (lit "Cannot index into scalar value " ++ ty v))
  else
    match as_integer i with
    | None => Err (non_integer_index E_TYPE i)
    | Some n =>
        let cached := cached_len v in
        let idx := adjust_i64 m n in
        if idx <? 0 then
          Err (with_msg E_RANGE
                 (if cached =? LEN_OVERFLOW
                  then lit "Index " ++ fmt_int n ++ lit " out of bounds for sequence"
                  else lit "Index " ++ fmt_int n ++ lit " out of bounds for " ++ ty v
                       ++ lit " of length " ++ fmt_int cached))
        else if negb (cached =? LEN_OVERFLOW) && (cached <=? idx) then
          Err (with_msg E_RANGE (lit "Index " ++ fmt_int (reverse_adjust_isize m idx)
                 ++ lit " out of bounds for " ++ ty v ++ lit " of length " ++ fmt_int cached))
        else
          match v with
          | VList l => List_.index l idx
          | VStr s => Str_.index s idx
          | VBinary b => Binary.index b idx
          | VMap e => let? kv := map_index e idx in Ok kv.2
          | _ => Err (with_msg E_TYPE [])
          end
    end.

Definition get (v key : Var) (m : IndexMode) : result Var Error :=
  match v with
  | VList _ | VStr _ | VBinary _ => index v key m
  | VMap e => map_get e key
  | _ => Err (with_msg E_TYPE (lit "Cannot index value from type " ++ ty v))
  end.

Definition index_set (v i value : Var) (m : IndexMode) : result Var Error :=
  match as_integer i with
  | None => Err (non_integer_index E_INVARG i)
  | Some n =>
      let idx := adjust_i64 m n in
      if idx <? 0 then
        Err (with_msg E_RANGE (lit "Index " ++ fmt_int n ++ lit " out of bounds for sequence"))
      else if negb (is_sequence v) then
        Err (with_msg E_TYPE (lit "Cannot set value in type " ++ ty v))
      else if container_len v <=? idx then
        Err (with_msg E_RANGE (lit "Index " ++ fmt_int (reverse_adjust_isize m idx)
               ++ lit " out of bounds for " ++ (match v with VList _ => lit "list" | _ => ty v end)
               ++ lit " of length " ++ fmt_int (container_len v)))
      else
        match v with
        | VList l => List_.index_set_owned l idx value
        | VStr s => Str_.index_set s idx value
        | VBinary b => Binary.index_set b idx value
        | _ => Err (with_msg E_TYPE [])
        end
  end.

(** [set_owned_vars], with [set_owned] and [set] *)
Definition set_owned_vars (v key value : Var) (m : IndexMode) : result Var Error :=
  match v with
  | VMap e => map_set_owned e key value
  | VList _ | VStr _ | VBinary _ => index_set v key value m
  | _ => Err (with_msg E_TYPE (lit "Cannot set value in type " ++ ty v))
  end.

Definition range_bound (i : Var) (m : IndexMode) : result Z Error :=
  match i with
  | VInt n => Ok (adjust_i64 m n)
  | _ => Err (non_integer_index E_INVARG i)
  end.

Definition range (v from to : Var) (m : IndexMode) : option (result Var Error) :=
  match v with
  | VList _ | VStr _ | VBinary _ =>
      match range_bound from m with
      | Err e => Some (Err e)
      | Ok f =>
          match range_bound to m with
          | Err e => Some (Err e)
          | Ok t =>
              match v with
              | VList l => Some (List_.range l f t)
              | VStr s => Some (Str_.range s f t)
              | VBinary b => Binary.range b f t
              | _ => None
              end
          end
      end
  | VMap e => Some (map_range e from to)
  | _ => Some (Err (with_msg E_TYPE (lit "Cannot index into scalar value " ++ ty v)))
  end.

(** [range_set_owned], with [range_set] *)
Definition range_set_owned (v from to with_ : Var) (m : IndexMode) : result Var Error :=
  match v with
  | VList _ | VStr _ | VBinary _ =>
      let? f := range_bound from m in
      let? t := range_bound to m in
      match v with
      | VList l => List_.range_set_owned l f t with_
      | VStr s => Str_.range_set s f t with_
      | VBinary b => Binary.range_set b f t with_
      | _ => Err (with_msg E_TYPE [])
      end
  | VMap _ => map_range_set
  | _ => Err (with_msg E_TYPE (lit "Cannot index into scalar value " ++ ty v))
  end.

Definition append_owned (v other : Var) : result Var Error :=
  match v with
  | VList l => List_.append_owned l other
  | VStr s => Str_.append s other
  | VBinary b => Binary.append b other
  | _ => Err (with_msg E_TYPE (lit "Cannot append to type " ++ ty v))
  end.

Definition push_owned (v value : Var) : result Var Error :=
  match v with
  | VList l => Ok (List_.push_owned l value)
  | VStr s => Str_.push s value
  | VBinary b => Binary.push b value
  | _ => Err (with_msg E_TYPE (lit "Cannot push to type " ++ ty v))
  end.

(** The position as the language counts it; absent is one before the first. *)
Definition position_var (m : IndexMode) (o : option Z) : Var :=
  VInt (reverse_adjust_isize m (default (-1) o)).

Definition index_in (v value : Var) (case_sensitive : bool) (m : IndexMode) : result Var Error :=
  match v with
  | VStr s =>
      match value with
      | VStr needle =>
          Ok (position_var m (Str_.str_find s needle case_sensitive 0
                                (is_ascii s && is_ascii needle)))
      | _ => Err (with_msg E_TYPE (lit "Cannot index string with " ++ ty value))
      end
  | VList l => Ok (position_var m (List_.index_in l value case_sensitive))
  | VBinary b => let? o := Binary.index_in b value in Ok (position_var m o)
  | VMap e => Ok (position_var m (map_index_in e value case_sensitive))
  | _ => Err (with_msg E_TYPE (lit "Cannot check for membership in type " ++ ty v))
  end.

Definition insert (v i value : Var) (m : IndexMode) : result Var Error :=
  match v with
  | VList _ | VStr _ | VBinary _ =>
      match i with
      | VInt n =>
          let adjusted := adjust_i64 m n in
          let idx := if adjusted <? 0 then 0 else Z.min adjusted (container_len v) in
          match v with
          | VList l => Ok (List_.insert_owned l idx value)
          | VStr s => Str_.insert s idx value
          | VBinary b => Binary.insert b idx value
          | _ => Err (with_msg E_TYPE [])
          end
      | _ => Err (with_msg E_INVARG
                    (lit "Cannot insert into sequence with non-integer index " ++ ty i))
      end
  | _ => Err (with_msg E_TYPE (lit "Cannot insert into type " ++ ty v))
  end.

Definition remove_at (v i : Var) (m : IndexMode) : result Var Error :=
  match v with
  | VList _ | VStr _ | VBinary _ =>
      match i with
      | VInt n =>
          let idx := adjust_i64 m n in
          if idx <? 0 then
            Err (with_msg E_RANGE (lit "Index " ++ fmt_int n ++ lit " out of bounds for sequence"))
          else if container_len v <=? idx then
            Err (with_msg E_RANGE (lit "Index " ++ fmt_int (reverse_adjust_isize m idx)
                   ++ lit " out of bounds for " ++ (match v with VList _ => lit "list" | _ => ty v end)
                   ++ lit " of length " ++ fmt_int (container_len v)))
          else
            match v with
            | VList l => List_.remove_at_owned l idx
            | VStr s => Str_.remove_at s idx
            | VBinary b => Binary.remove_at b idx
            | _ => Err (with_msg E_TYPE [])
            end
      | _ => Err (non_integer_index E_INVARG i)
      end
  | _ => Err (with_msg E_TYPE (lit "Cannot remove from type " ++ ty v))
  end.

Definition remove (v key : Var) (case_sensitive : bool) : result (Var * option Var) Error :=
  match v with
  | VMap e => Ok (map_remove e key case_sensitive)
  | _ => Err (with_msg E_INVARG (lit "Cannot remove from type " ++ ty v))
  end.
End ops.
