(* ===== verification/Ast.v ===== *)
(** The syntax tree (crates/compiler/src/ast.rs): expressions and statements as
    the parser hands them to the code generator. The types that only wrap
    expressions ([Arg], [ScatterItem], ...) take them as a parameter, so that one
    mutual declaration ties expressions and statements. *)
From S2P Require Import Prelude Obj TxTypes Float64 Opcodes Values.
From stdpp Require Import base gmap list strings.

Open Scope Z_scope.

Inductive Arg (E : Type) := Normal (e : E) | Splice (e : E).
Arguments Normal {E}. Arguments Splice {E}.

Inductive ScatterKind := KRequired | KOptional | KRest.

Inductive ScatterItem (E : Type) := mkScatterItem {
  si_kind : ScatterKind;
  si_id : Variable_;
  si_expr : option E;
}.
Arguments mkScatterItem {E}. Arguments si_kind {E}. Arguments si_id {E}. Arguments si_expr {E}.

Inductive BinaryOp :=
| BAdd | BBitAnd | BBitOr | BBitShl | BBitShr | BBitLShr | BBitXor | BDiv | BEq | BExp
| BGt | BGtE | BIn | BLt | BLtE | BMod | BMul | BNEq | BSub.

Inductive UnaryOp := UNeg | UNot | UBitNot.

Inductive CatchCodes (E : Type) := Codes (args : list (Arg E)) | Any.
Arguments Codes {E}. Arguments Any {E}.

Inductive CallTarget (E : Type) := Builtin (s : Symbol) | CalleeExpr (e : E).
Arguments Builtin {E}. Arguments CalleeExpr {E}.

Inductive CondArm (E S : Type) := mkCondArm {
  ca_condition : E;
  ca_statements : list S;
  ca_environment_width : Z;
}.
Arguments mkCondArm {E S}. Arguments ca_condition {E S}. Arguments ca_statements {E S}.
Arguments ca_environment_width {E S}.

Inductive ElseArm (S : Type) := mkElseArm {
  ea_statements : list S;
  ea_environment_width : Z;
}.
Arguments mkElseArm {S}. Arguments ea_statements {S}. Arguments ea_environment_width {S}.

Inductive ExceptArm (E S : Type) := mkExceptArm {
  xa_id : option Variable_;
  xa_codes : CatchCodes E;
  xa_statements : list S;
}.
Arguments mkExceptArm {E S}. Arguments xa_id {E S}. Arguments xa_codes {E S}.
Arguments xa_statements {E S}.

Scheme All for list.
Scheme All for option.
Scheme All for prod.
Scheme All for Arg.
Scheme All for ScatterItem.
Scheme All for CatchCodes.
Scheme All for CallTarget.
Scheme All for CondArm.
Scheme All for ElseArm.
Scheme All for ExceptArm.

Inductive Expr :=
| EAssign (left right : Expr)
| EPass (args : list (Arg Expr))
| ETypeConstant (t : VarType)
| EValue (v : Var)
| EError (c : ErrorCode) (msg : option Expr)
| EId (v : Variable_)
| EBinary (op : BinaryOp) (l r : Expr)
| EAnd (l r : Expr)
| EOr (l r : Expr)
| EUnary (op : UnaryOp) (e : Expr)
| EProp (location property : Expr)
| ECall (function : CallTarget Expr) (args : list (Arg Expr))
| EVerb (location verb : Expr) (args : list (Arg Expr))
| ERange (base from to : Expr)
| ECond (condition consequence alternative : Expr)
| ETryCatch (trye : Expr) (codes : CatchCodes Expr) (except : option Expr)
| EIndex (lhs rhs : Expr)
| EList (l : list (Arg Expr))
| EMap (m : list (Expr * Expr))
| EFlyweight (delegate : Expr) (slots : list (Symbol * Expr)) (contents : option Expr)
| EScatter (items : list (ScatterItem Expr)) (right : Expr) (declaration : option DeclarationKind)
| ELength
| EComprehendList (variable position_register list_register : Variable_)
    (producer_expr list_expr : Expr) (filter : option Expr)
| EComprehendRange (variable end_of_range_register : Variable_)
    (producer_expr from to : Expr) (filter : option Expr)
| EDecl (id : Variable_) (is_const : bool) (expr : option Expr)
| EReturn (e : option Expr)
| ELambda (entry_scope_count : Z) (params : list (ScatterItem Expr)) (body : Stmt)
    (self_name : option Variable_)
with StmtNode :=
| SCond (arms : list (CondArm Expr Stmt)) (otherwise : option (ElseArm Stmt))
| SForList (value_binding : Variable_) (key_binding : option Variable_) (expr : Expr)
    (body : list Stmt) (environment_width : Z)
| SForRange (id : Variable_) (from to : Expr) (body : list Stmt) (environment_width : Z)
| SWhile (id : option Variable_) (condition : Expr) (body : list Stmt) (environment_width : Z)
| SFork (id : option Variable_) (time : Expr) (body : list Stmt)
| STryExcept (body : list Stmt) (excepts : list (ExceptArm Expr Stmt)) (environment_width : Z)
| STryFinally (body handler : list Stmt) (environment_width : Z)
| SScope (num_bindings : Z) (body : list Stmt)
| SBreak (exit : option Variable_)
| SContinue (exit : option Variable_)
| SExpr (e : Expr)
with Stmt :=
| mkStmt (node : StmtNode) (line_col : Z * Z) (tree_line_no : Z).

Definition stmt_node (s : Stmt) : StmtNode := let 'mkStmt n _ _ := s in n.
Definition stmt_line_col (s : Stmt) : Z * Z := let 'mkStmt _ lc _ := s in lc.
Definition tree_line_no (s : Stmt) : Z := let 'mkStmt _ _ t := s in t.

(** [Stmt::new] *)
Definition stmt_new (node : StmtNode) (line_col : Z * Z) : Stmt := mkStmt node line_col 0.

Scheme Expr_mind := Induction for Expr Sort Prop
  with StmtNode_mind := Induction for StmtNode Sort Prop
  with Stmt_mind := Induction for Stmt Sort Prop.
Combined Scheme tree_mind from Expr_mind, StmtNode_mind, Stmt_mind.

(** What the parser hands on (parse_tree.rs); its scopes are not used further. *)
Record Parse := mkParse { parse_stmts : list Stmt; parse_names : Names }.

(** The induction hypotheses on lists and options of subtrees, as [Forall] and on
    the element. *)
Lemma list_all_Forall {A} (PA : A → Type) (Q : A → Prop) l :
  (∀ a, PA a → Q a) → list_all A PA l → Forall Q l.
Proof. intros HPQ. induction 1; constructor; auto. Qed.

Lemma list_all_prop {A} (P : A → Prop) l : list_all A P l → Forall P l.
Proof. induction 1; constructor; auto. Qed.

Lemma option_all_prop {A} (P : A → Prop) o a : option_all A P o → o = Some a → P a.
Proof. by intros [b Hb|] [= <-]. Qed.

Lemma Arg_all_elim {E} (P : E → Prop) (a : Arg E) :
  Arg_all E P a → match a with Normal e | Splice e => P e end.
Proof. by destruct 1. Qed.

Lemma prod_all_snd {A B} (P : B → Prop) (p : A * B) : prod_all A (λ _, unit) B P p → P p.2.
Proof. by destruct 1. Qed.

Lemma prod_all_both {A B} (P : A → Prop) (Q : B → Prop) (p : A * B) :
  prod_all A P B Q p → P p.1 ∧ Q p.2.
Proof. by destruct 1. Qed.

Lemma ScatterItem_all_elim {E} (P : E → Prop) (i : ScatterItem E) e :
  ScatterItem_all E P i → si_expr i = Some e → P e.
Proof. destruct 1 as [k v o Ho]. cbn. by apply option_all_prop. Qed.
