(* ===== verification/Capture.v ===== *)
(** Two passes over the body of a lambda (crates/compiler/src/backend/
    lambda_codegen.rs): numbering its statements by source line, and finding the
    outer variables it reads (the visitor of ast.rs). *)
From S2P Require Import Prelude Obj TxTypes Float64 Opcodes Values Ast.
From stdpp Require Import base gmap sets list strings.

Open Scope Z_scope.

(** [CompileError] (common/src/model/mod.rs): the errors of code generation.
    [CompileContext] is the line and column. *)
Inductive CompileError :=
| StringLexError (ctx : Z * Z) (message : Str)
| UnknownBuiltinFunction (ctx : Z * Z) (name : Str)
| UnknownLoopLabel (ctx : Z * Z) (name : Str)
| InvalidAssignmentTarget (ctx : Z * Z)
| InvalidTypeLiteralAssignment (name : Str) (ctx : Z * Z)
| AssignmentToCapturedVariable (ctx : Z * Z) (name : Symbol).

(** ** Line numbers *)

Definition map_arg {E F} (f : E → F) (a : Arg E) : Arg F :=
  match a with Normal e => Normal (f e) | Splice e => Splice (f e) end.

Definition map_codes {E F} (f : E → F) (c : CatchCodes E) : CatchCodes F :=
  match c with Codes args => Codes (map (map_arg f) args) | Any => Any end.

Definition map_item {E F} (f : E → F) (i : ScatterItem E) : ScatterItem F :=
  mkScatterItem (si_kind i) (si_id i) (option_map f (si_expr i)).

(** [assign_expr_lambda_source_lines] and [assign_stmt_source_line_numbers]. The
    code leaves the conditions of [if] arms as they are. *)
Fixpoint assign_expr_lambda_source_lines (e : Expr) : Expr :=
  let ae := assign_expr_lambda_source_lines in
  match e with
  | EAssign l r => EAssign (ae l) (ae r)
  | EPass args => EPass (map (map_arg ae) args)
  | EList args => EList (map (map_arg ae) args)
  | EError c msg => EError c (option_map ae msg)
  | EReturn x => EReturn (option_map ae x)
  | EBinary op l r => EBinary op (ae l) (ae r)
  | EAnd l r => EAnd (ae l) (ae r)
  | EOr l r => EOr (ae l) (ae r)
  | EIndex l r => EIndex (ae l) (ae r)
  | EUnary op x => EUnary op (ae x)
  | EDecl id c x => EDecl id c (option_map ae x)
  | ETypeConstant _ | EValue _ | EId _ | ELength => e
  | EProp l p => EProp (ae l) (ae p)
  | ECall f args =>
      ECall (match f with CalleeExpr x => CalleeExpr (ae x) | Builtin s => Builtin s end)
        (map (map_arg ae) args)
  | EVerb l v args => EVerb (ae l) (ae v) (map (map_arg ae) args)
  | ERange b f t => ERange (ae b) (ae f) (ae t)
  | ECond c a b => ECond (ae c) (ae a) (ae b)
  | ETryCatch t c x => ETryCatch (ae t) (map_codes ae c) (option_map ae x)
  | EMap m => EMap (map (λ kv, (ae kv.1, ae kv.2)) m)
  | EFlyweight d slots contents =>
      EFlyweight (ae d) (map (λ kv, (kv.1, ae kv.2)) slots) (option_map ae contents)
  | EScatter items r d => EScatter (map (map_item ae) items) (ae r) d
  | EComprehendList v p l pr x f =>
      EComprehendList v p l (ae pr) (ae x) (option_map ae f)
  | EComprehendRange v r pr a b f =>
      EComprehendRange v r (ae pr) (ae a) (ae b) (option_map ae f)
  | ELambda n params body self =>
      ELambda n (map (map_item ae) params) (assign_stmt_source_line_numbers body) self
  end
with assign_node_source_line_numbers (n : StmtNode) : StmtNode :=
  let ae := assign_expr_lambda_source_lines in
  let as_ := map assign_stmt_source_line_numbers in
  match n with
  | SCond arms otherwise =>
      SCond
        (map (λ a, mkCondArm (ca_condition a) (as_ (ca_statements a)) (ca_environment_width a))
           arms)
        (option_map (λ o, mkElseArm (as_ (ea_statements o)) (ea_environment_width o)) otherwise)
  | SForList v k x body w => SForList v k (ae x) (as_ body) w
  | SWhile id c body w => SWhile id (ae c) (as_ body) w
  | SForRange id a b body w => SForRange id (ae a) (ae b) (as_ body) w
  | SFork id t body => SFork id (ae t) (as_ body)
  | STryExcept body excepts w =>
      STryExcept (as_ body)
        (map (λ x, mkExceptArm (xa_id x) (map_codes ae (xa_codes x)) (as_ (xa_statements x)))
           excepts) w
  | STryFinally body handler w => STryFinally (as_ body) (as_ handler) w
  | SScope n body => SScope n (as_ body)
  | SExpr x => SExpr (ae x)
  | SBreak _ | SContinue _ => n
  end
with assign_stmt_source_line_numbers (s : Stmt) : Stmt :=
  match s with
  | mkStmt n lc _ => mkStmt (assign_node_source_line_numbers n) lc lc.1
  end.

(** ** Captured variables *)

Definition for_all {A S} (f : A → S → S) (l : list A) (s : S) : S :=
  fold_left (λ s a, f a s) l s.

Definition for_opt {A S} (f : A → S → S) (o : option A) (s : S) : S :=
  match o with Some a => f a s | None => s end.

Definition walk_arg {E S} (f : E → S → S) (a : Arg E) : S → S :=
  match a with Normal e | Splice e => f e end.

Record CaptureAnalyzer := mkAnalyzer {
  captures : list Name;
  assigned_captures : list (Symbol * (Z * Z));
  param_names : gset Symbol;
  analyzer_line_col : Z * Z;
}.

Section capture.
Context `{Text}.
Variable param_scope_depth : option Z.
Variable outer_scope_level : Z.
Variable name_for_variable : list (option Name).

Definition analyzer_name (v : Variable_) : option Name :=
  mjoin (name_for_variable !! Z.to_nat (var_id v)).

Definition is_outer_scope_variable (v : Variable_) (a : CaptureAnalyzer) : bool :=
  if decide (to_symbol v ∈ param_names a) then false
  else match param_scope_depth, analyzer_name v with
       | Some depth, Some n => name_depth n <? depth
       | _, _ => var_scope_id v <=? outer_scope_level
       end.

Definition capture (v : Variable_) (a : CaptureAnalyzer) : CaptureAnalyzer :=
  if is_outer_scope_variable v a then
    match analyzer_name v with
    | Some n =>
        if decide (n ∈ captures a) then a
        else mkAnalyzer (captures a ++ [n]) (assigned_captures a) (param_names a)
               (analyzer_line_col a)
    | None => a
    end
  else a.

Definition assigned (v : Variable_) (a : CaptureAnalyzer) : CaptureAnalyzer :=
  if is_outer_scope_variable v a then
    mkAnalyzer (captures a) (assigned_captures a ++ [(to_symbol v, analyzer_line_col a)])
      (param_names a) (analyzer_line_col a)
  else a.

Definition with_param_names (f : gset Symbol → gset Symbol) (a : CaptureAnalyzer) :=
  mkAnalyzer (captures a) (assigned_captures a) (f (param_names a)) (analyzer_line_col a).

Definition at_line (lc : Z * Z) (a : CaptureAnalyzer) : CaptureAnalyzer :=
  mkAnalyzer (captures a) (assigned_captures a) (param_names a) lc.

(** [visit_expr], with [walk_expr] on the expressions it does not treat itself;
    [visit_stmt_node] is [walk_stmt_node]. The codes of a catch are not visited. *)
Fixpoint visit_expr (e : Expr) (a : CaptureAnalyzer) : CaptureAnalyzer :=
  match e with
  | EId v => capture v a
  | EAssign lhs rhs =>
      let a := match lhs with EId v => assigned v a | _ => a end in
      visit_expr rhs (visit_expr lhs a)
  | EScatter items rhs _ =>
      let a := for_all (λ i, assigned (si_id i)) items a in
      let a := for_all (λ i, for_opt visit_expr (si_expr i)) items a in
      visit_expr rhs a
  | ELambda _ params body _ =>
      let a := for_all (λ i, for_opt visit_expr (si_expr i)) params a in
      let nested := map (λ p, to_symbol (si_id p)) params in
      let a := with_param_names (λ s, for_all (λ x s, {[x]} ∪ s) nested s) a in
      let a := visit_stmt body a in
      with_param_names (λ s, for_all (λ x s, s ∖ {[x]}) nested s) a
  | EPass args | EList args => for_all (walk_arg visit_expr) args a
  | ETypeConstant _ | EValue _ | ELength => a
  | EError _ x | EDecl _ _ x | EReturn x => for_opt visit_expr x a
  | EBinary _ l r | EAnd l r | EOr l r | EIndex l r | EProp l r => visit_expr r (visit_expr l a)
  | EUnary _ x => visit_expr x a
  | ECall f args =>
      let a := match f with CalleeExpr x => visit_expr x a | Builtin _ => a end in
      for_all (walk_arg visit_expr) args a
  | EVerb l v args => for_all (walk_arg visit_expr) args (visit_expr v (visit_expr l a))
  | ERange x y z | ECond x y z => visit_expr z (visit_expr y (visit_expr x a))
  | ETryCatch t _ x => for_opt visit_expr x (visit_expr t a)
  | EMap m => for_all (λ kv a, visit_expr kv.2 (visit_expr kv.1 a)) m a
  | EFlyweight d slots contents =>
      for_opt visit_expr contents (for_all (λ kv, visit_expr kv.2) slots (visit_expr d a))
  | EComprehendList _ _ _ p l f => for_opt visit_expr f (visit_expr l (visit_expr p a))
  | EComprehendRange _ _ p x y f =>
      for_opt visit_expr f (visit_expr y (visit_expr x (visit_expr p a)))
  end
with visit_stmt_node (n : StmtNode) (a : CaptureAnalyzer) : CaptureAnalyzer :=
  match n with
  | SCond arms otherwise =>
      let a := for_all (λ arm a,
        for_all visit_stmt (ca_statements arm) (visit_expr (ca_condition arm) a)) arms a in
      for_opt (λ o, for_all visit_stmt (ea_statements o)) otherwise a
  | SForList _ _ x body _ | SWhile _ x body _ | SFork _ x body =>
      for_all visit_stmt body (visit_expr x a)
  | SForRange _ x y body _ => for_all visit_stmt body (visit_expr y (visit_expr x a))
  | STryExcept body excepts _ =>
      for_all (λ x, for_all visit_stmt (xa_statements x)) excepts (for_all visit_stmt body a)
  | STryFinally body handler _ => for_all visit_stmt handler (for_all visit_stmt body a)
  | SScope _ body => for_all visit_stmt body a
  | SBreak _ | SContinue _ => a
  | SExpr x => visit_expr x a
  end
with visit_stmt (s : Stmt) (a : CaptureAnalyzer) : CaptureAnalyzer :=
  match s with mkStmt n lc _ => visit_stmt_node n (at_line lc a) end.
End capture.

(** [CaptureAnalyzer::new], [analyze_lambda_captures]. [checked_sub] and
    [u8::try_from] give the depth of the parameter scope. *)
Definition param_scope_depth_of (entry_scope_count : Z) : option Z :=
  if (1 <=? entry_scope_count) && (entry_scope_count <=? 256)
  then Some (entry_scope_count - 1) else None.

Definition analyze_lambda_captures `{Text} (params : list (ScatterItem Expr)) (body : Stmt)
    (entry_scope_count outer_scope_depth : Z) (name_for_variable : list (option Name))
  : result (list Name) CompileError :=
  let outer_scope_level :=
    match params with p :: _ => var_scope_id (si_id p) | [] => outer_scope_depth end in
  let a := mkAnalyzer [] [] (list_to_set (map (λ p, to_symbol (si_id p)) params)) (0, 0) in
  let a := visit_stmt (param_scope_depth_of entry_scope_count) outer_scope_level
             name_for_variable body a in
  match assigned_captures a with
  | (v, lc) :: _ => Err (AssignmentToCapturedVariable lc v)
  | [] => Ok (captures a)
  end.
