(* ===== verification/CodegenState.v ===== *)
(** The state of the code generator and its operations (crates/compiler/src/
    backend: emitter.rs, stack.rs, control.rs, operands.rs and the helpers of
    state.rs), as a monad of state and failure. A [panic!], a failed [expect] and
    an index out of range are [CgPanic]. *)
From S2P Require Import Prelude Obj TxTypes Float64 Opcodes Values ValueOrder Ast Capture.
From stdpp Require Import base gmap list strings.

Open Scope Z_scope.

(** ** emitter.rs *)

Record EmitterState := mkEmitter { em_ops : list Op.t; em_jumps : list JumpLabel }.

Definition emitter_new : EmitterState := mkEmitter [] [].

Definition has_label_at_current_pc (e : EmitterState) : bool :=
  existsb (λ j, jl_position j =? Z.of_nat (length (em_ops e))) (em_jumps e).

(** A [Pop] after a store is fused with it, unless a jump lands between them. *)
Definition fused (op : Op.t) : option Op.t :=
  match op with
  | Op.Put name => Some (Op.PutPop name)
  | Op.PutScope0Local offset => Some (Op.PutPopScope0Local offset)
  | Op.PutTemp => Some Op.PutTempPop
  | _ => None
  end.

Definition set_last {A} (l : list A) (a : A) : list A := removelast l ++ [a].

Definition emitter_emit (op : Op.t) (e : EmitterState) : EmitterState :=
  let push := mkEmitter (em_ops e ++ [op]) (em_jumps e) in
  match op with
  | Op.Pop =>
      if has_label_at_current_pc e then push
      else match last (em_ops e) ≫= fused with
           | Some op' => mkEmitter (set_last (em_ops e) op') (em_jumps e)
           | None => push
           end
  | _ => push
  end.

Definition pc (e : EmitterState) : Z := Z.of_nat (length (em_ops e)).

Definition new_jump_label (name : option Name) (e : EmitterState) : Label * EmitterState :=
  let id := as_u16 (Z.of_nat (length (em_jumps e))) in
  (id, mkEmitter (em_ops e) (em_jumps e ++ [mkJumpLabel id name (as_u16 (pc e))])).

(** [None] is the failure of [expect("Invalid jump fixup")]. *)
Definition bind_jump_label (id : Label) (e : EmitterState) : option EmitterState :=
  match em_jumps e !! Z.to_nat id with
  | Some j =>
      Some (mkEmitter (em_ops e)
              (<[Z.to_nat id := mkJumpLabel (jl_id j) (jl_name j) (as_u16 (pc e))]> (em_jumps e)))
  | None => None
  end.

(** ** stack.rs *)

Record StackState := mkStack { cur_stack : Z; max_stack : Z; saved_stack : option Offset }.

Definition stack_new : StackState := mkStack 0 0 None.

Definition stack_set_depth (d : Z) (s : StackState) : StackState :=
  mkStack d (Z.max d (max_stack s)) (saved_stack s).

Definition stack_push (n : Z) (s : StackState) : StackState := stack_set_depth (cur_stack s + n) s.

Definition stack_pop (n : Z) (s : StackState) : option StackState :=
  if cur_stack s <? n then None
  else Some (mkStack (cur_stack s - n) (max_stack s) (saved_stack s)).

Definition stack_save_top (s : StackState) : option Offset * StackState :=
  (saved_stack s, mkStack (cur_stack s) (max_stack s) (Some (as_u16 (cur_stack s - 1)))).

Definition stack_restore_saved_top (old : option Offset) (s : StackState) : StackState :=
  mkStack (cur_stack s) (max_stack s) old.

Record ScopeDepthState := mkScopes { cur_depth : Z; max_depth : Z }.

Definition scopes_new : ScopeDepthState := mkScopes 0 0.

Definition scopes_enter (s : ScopeDepthState) : ScopeDepthState :=
  mkScopes (cur_depth s + 1) (Z.max (cur_depth s + 1) (max_depth s)).

Definition scopes_exit (s : ScopeDepthState) : option ScopeDepthState :=
  if cur_depth s =? 0 then None else Some (mkScopes (cur_depth s - 1) (max_depth s)).

(** ** control.rs *)

Record LoopFrame := mkLoopFrame {
  loop_name : option Name;
  top_label : Label;
  top_stack : Offset;
  bottom_label : Label;
  bottom_stack : Offset;
}.

(** The innermost loop is the last. *)
Record ControlState := mkControl { loops : list LoopFrame; lambda_scope_depth : Z }.

Definition control_new : ControlState := mkControl [] 0.

Definition control_find_loop (n : Name) (c : ControlState) : option LoopFrame :=
  snd <$> list_find (λ f, loop_name f = Some n) (rev (loops c)).

(** ** operands.rs *)

Record OperandState := mkOperands {
  o_literals : list Var;
  o_scatter_tables : list ScatterArgs;
  o_for_sequence_operands : list ForSequenceOperand;
  o_for_range_operands : list ForRangeOperand;
  o_range_comprehensions : list RangeComprehend;
  o_list_comprehensions : list ListComprehend;
  o_error_operands : list ErrorCode;
  o_lambda_programs : list PrgInner;
  o_fork_vectors : list (Z * list Op.t);
  o_fork_max_stacks : list Z;
  o_fork_max_scope_depths : list Z;
  o_fork_line_number_spans : list (list (Z * Z));
  o_fork_declaration_sites : list (list DeclarationSite);
}.

Definition operands_new : OperandState := mkOperands [] [] [] [] [] [] [] [] [] [] [] [] [].

Definition snoc_at {A} (l : list A) (a : A) : Offset * list A :=
  (as_u16 (Z.of_nat (length l)), l ++ [a]).

Section operands.
Context `{Text} `{Interner} `{Addresses}.

Definition add_literal (v : Var) (o : OperandState) : Label * OperandState :=
  match list_find (λ lv, eq_case_sensitive lv v = true) (o_literals o) with
  | Some (i, _) => (as_u16 (Z.of_nat i), o)
  | None =>
      let '(label, literals) := snoc_at (o_literals o) v in
      (label,
       mkOperands literals (o_scatter_tables o) (o_for_sequence_operands o)
         (o_for_range_operands o) (o_range_comprehensions o) (o_list_comprehensions o)
         (o_error_operands o) (o_lambda_programs o) (o_fork_vectors o) (o_fork_max_stacks o)
         (o_fork_max_scope_depths o) (o_fork_line_number_spans o) (o_fork_declaration_sites o))
  end.
End operands.

Definition add_scatter_table (labels : list ScatterLabel) (done : Label) (o : OperandState)
  : Offset * OperandState :=
  let '(i, l) := snoc_at (o_scatter_tables o) (mkScatterArgs labels done) in
  (i, mkOperands (o_literals o) l (o_for_sequence_operands o)
        (o_for_range_operands o) (o_range_comprehensions o) (o_list_comprehensions o)
        (o_error_operands o) (o_lambda_programs o) (o_fork_vectors o) (o_fork_max_stacks o)
        (o_fork_max_scope_depths o) (o_fork_line_number_spans o) (o_fork_declaration_sites o)).

Definition add_for_sequence_operand (x : ForSequenceOperand) (o : OperandState)
  : Offset * OperandState :=
  let '(i, l) := snoc_at (o_for_sequence_operands o) x in
  (i, mkOperands (o_literals o) (o_scatter_tables o) l
        (o_for_range_operands o) (o_range_comprehensions o) (o_list_comprehensions o)
        (o_error_operands o) (o_lambda_programs o) (o_fork_vectors o) (o_fork_max_stacks o)
        (o_fork_max_scope_depths o) (o_fork_line_number_spans o) (o_fork_declaration_sites o)).

Definition add_for_range_operand (x : ForRangeOperand) (o : OperandState)
  : Offset * OperandState :=
  let '(i, l) := snoc_at (o_for_range_operands o) x in
  (i, mkOperands (o_literals o) (o_scatter_tables o) (o_for_sequence_operands o)
        l (o_range_comprehensions o) (o_list_comprehensions o)
        (o_error_operands o) (o_lambda_programs o) (o_fork_vectors o) (o_fork_max_stacks o)
        (o_fork_max_scope_depths o) (o_fork_line_number_spans o) (o_fork_declaration_sites o)).

Definition add_range_comprehension (x : RangeComprehend) (o : OperandState)
  : Offset * OperandState :=
  let '(i, l) := snoc_at (o_range_comprehensions o) x in
  (i, mkOperands (o_literals o) (o_scatter_tables o) (o_for_sequence_operands o)
        (o_for_range_operands o) l (o_list_comprehensions o)
        (o_error_operands o) (o_lambda_programs o) (o_fork_vectors o) (o_fork_max_stacks o)
        (o_fork_max_scope_depths o) (o_fork_line_number_spans o) (o_fork_declaration_sites o)).

Definition add_list_comprehension (x : ListComprehend) (o : OperandState)
  : Offset * OperandState :=
  let '(i, l) := snoc_at (o_list_comprehensions o) x in
  (i, mkOperands (o_literals o) (o_scatter_tables o) (o_for_sequence_operands o)
        (o_for_range_operands o) (o_range_comprehensions o) l
        (o_error_operands o) (o_lambda_programs o) (o_fork_vectors o) (o_fork_max_stacks o)
        (o_fork_max_scope_depths o) (o_fork_line_number_spans o) (o_fork_declaration_sites o)).

Definition add_error_code_operand (x : ErrorCode) (o : OperandState) : Offset * OperandState :=
  let '(i, l) := snoc_at (o_error_operands o) x in
  (i, mkOperands (o_literals o) (o_scatter_tables o) (o_for_sequence_operands o)
        (o_for_range_operands o) (o_range_comprehensions o) (o_list_comprehensions o)
        l (o_lambda_programs o) (o_fork_vectors o) (o_fork_max_stacks o)
        (o_fork_max_scope_depths o) (o_fork_line_number_spans o) (o_fork_declaration_sites o)).

(** The lines of a lambda are shifted by its base line. *)
Definition shift_lines (base_line_offset : Z) (p : PrgInner) : PrgInner :=
  mkProgram (literals p) (jump_labels p) (var_names p) (scatter_tables p)
    (for_sequence_operands p) (for_range_operands p) (range_comprehensions p)
    (list_comprehensions p) (error_operands p) (lambda_programs p) (main_vector p)
    (main_max_stack p) (main_max_scope_depth p) (fork_vectors p) (fork_max_stacks p)
    (fork_max_scope_depths p)
    (map (λ ol, (ol.1, ol.2 + base_line_offset)) (line_number_spans p))
    (fork_line_number_spans p) (source_declarations p) (lambda_entry_scope_count p).

Definition add_lambda_program (p : PrgInner) (base_line_offset : Z) (o : OperandState)
  : Offset * OperandState :=
  let '(i, l) := snoc_at (o_lambda_programs o) (shift_lines base_line_offset p) in
  (i, mkOperands (o_literals o) (o_scatter_tables o) (o_for_sequence_operands o)
        (o_for_range_operands o) (o_range_comprehensions o) (o_list_comprehensions o)
        (o_error_operands o) l (o_fork_vectors o) (o_fork_max_stacks o)
        (o_fork_max_scope_depths o) (o_fork_line_number_spans o) (o_fork_declaration_sites o)).

Definition add_fork_vector (offset : Z) (opcodes : list Op.t) (max_stack max_scope_depth : Z)
    (line_spans : list (Z * Z)) (sites : list DeclarationSite) (o : OperandState)
  : Offset * OperandState :=
  let '(i, l) := snoc_at (o_fork_vectors o) (offset, opcodes) in
  (i, mkOperands (o_literals o) (o_scatter_tables o) (o_for_sequence_operands o)
        (o_for_range_operands o) (o_range_comprehensions o) (o_list_comprehensions o)
        (o_error_operands o) (o_lambda_programs o) l (o_fork_max_stacks o ++ [max_stack])
        (o_fork_max_scope_depths o ++ [max_scope_depth])
        (o_fork_line_number_spans o ++ [line_spans])
        (o_fork_declaration_sites o ++ [sites])).

(** [take_program_parts] and [build_program] *)
Definition build_program (o : OperandState) (sites : list DeclarationSite) (names : Names)
    (jumps : list JumpLabel) (ops : list Op.t) (max_stack max_scope_depth : Z)
    (spans : list (Z * Z)) : PrgInner :=
  mkProgram (o_literals o) jumps names (o_scatter_tables o) (o_for_sequence_operands o)
    (o_for_range_operands o) (o_range_comprehensions o) (o_list_comprehensions o)
    (o_error_operands o) (o_lambda_programs o) ops max_stack max_scope_depth
    (o_fork_vectors o) (o_fork_max_stacks o) (o_fork_max_scope_depths o) spans
    (o_fork_line_number_spans o)
    (Some (mkSourceDeclarations sites (o_fork_declaration_sites o))) 0.

Definition with_entry_scope_count (n : Z) (p : PrgInner) : PrgInner :=
  mkProgram (literals p) (jump_labels p) (var_names p) (scatter_tables p)
    (for_sequence_operands p) (for_range_operands p) (range_comprehensions p)
    (list_comprehensions p) (error_operands p) (lambda_programs p) (main_vector p)
    (main_max_stack p) (main_max_scope_depth p) (fork_vectors p) (fork_max_stacks p)
    (fork_max_scope_depths p) (line_number_spans p) (fork_line_number_spans p)
    (source_declarations p) n.
