(* ===== verification/Codegen.v ===== *)
(** The code generator (crates/compiler/src/backend: state.rs, expr_codegen.rs,
    stmt_codegen.rs, lambda_codegen.rs; codegen.rs): from the syntax tree to a
    program.

    The generator is recursive on the tree. Where the code compiles the clone of a
    lambda's body with its statements renumbered, [generate_stmt] runs on the body
    itself with [src] set, and numbers a statement by its source line;
    CodegenLines.v proves that this is the same. *)
From S2P Require Import Prelude Obj TxTypes Float64 Opcodes Values ValueOrder Ast Capture CodegenState.
From stdpp Require Import base gmap list strings.

Open Scope Z_scope.

(** Calls of functions the compiler knows: [BUILTINS.find_builtin]
    (common/src/builtins.rs), a table of names. *)
Class Builtins := { find_builtin : Symbol → option Z }.

Record CodegenState := mkCodegen {
  emitter : EmitterState;
  cg_var_names : Names;
  name_for_variable : list (option Name);
  operands : OperandState;
  control : ControlState;
  stack : StackState;
  scopes : ScopeDepthState;
  line_spans : list (Z * Z);
  declaration_sites : list DeclarationSite;
  current_line_col : Z * Z;
  call_unsupported_builtins : bool;
}.

(** [CodegenState::new]: the table from variable ids to names. *)
Definition name_table (ns : Names) : list (option Name) :=
  let ids := map (λ nd : Name * Decl, (Z.to_nat (var_id (identifier nd.2)), nd.1))
               (map_to_list (decls ns)) in
  let width := foldr (λ p m, Nat.max p.1 m) 0%nat ids in
  foldr (λ p t, <[p.1 := Some p.2]> t) (replicate (S width) None) (rev ids).

Definition codegen_new (call_unsupported : bool) (ns : Names) : CodegenState :=
  mkCodegen emitter_new ns (name_table ns) operands_new control_new stack_new scopes_new [] []
    (0, 0) call_unsupported.

(** ** The monad *)

Inductive outcome (A : Type) :=
| CgOk (a : A) (s : CodegenState)
| CgErr (e : CompileError)
| CgPanic.
Arguments CgOk {A}. Arguments CgErr {A}. Arguments CgPanic {A}.

Definition CG (A : Type) : Type := CodegenState → outcome A.

Definition ret {A} (a : A) : CG A := λ s, CgOk a s.
Definition bind {A B} (m : CG A) (k : A → CG B) : CG B := λ s,
  match m s with CgOk a s' => k a s' | CgErr e => CgErr e | CgPanic => CgPanic end.
Definition raise {A} (e : CompileError) : CG A := λ _, CgErr e.
Definition panic {A} : CG A := λ _, CgPanic.
Definition get {A} (f : CodegenState → A) : CG A := λ s, CgOk (f s) s.
Definition put (s' : CodegenState) : CG unit := λ _, CgOk tt s'.

Declare Scope cg_scope.
Delimit Scope cg_scope with cg.
Bind Scope cg_scope with CG.
Notation "'let*' x ':=' m 'in' k" := (bind m (λ x, k))
  (at level 100, x pattern, m at level 200, k at level 200, right associativity) : cg_scope.
Notation "m ';;' k" := (bind m (λ _, k)) (at level 100, k at level 200, right associativity)
  : cg_scope.
Open Scope cg_scope.

Fixpoint each {A} (f : A → CG unit) (l : list A) : CG unit :=
  match l with [] => ret tt | a :: l' => f a;; each f l' end.

Definition opt_each {A} (f : A → CG unit) (o : option A) : CG unit :=
  match o with Some a => f a | None => ret tt end.

(** ** Access to the parts of the state *)

Definition on_emitter (f : EmitterState → EmitterState) : CG unit := λ s,
  CgOk tt (mkCodegen (f (emitter s)) (cg_var_names s) (name_for_variable s) (operands s)
    (control s) (stack s) (scopes s) (line_spans s) (declaration_sites s) (current_line_col s)
    (call_unsupported_builtins s)).

Definition on_operands {A} (f : OperandState → A * OperandState) : CG A := λ s,
  let '(a, o) := f (operands s) in
  CgOk a (mkCodegen (emitter s) (cg_var_names s) (name_for_variable s) o
    (control s) (stack s) (scopes s) (line_spans s) (declaration_sites s) (current_line_col s)
    (call_unsupported_builtins s)).

Definition on_control (f : ControlState → ControlState) : CG unit := λ s,
  CgOk tt (mkCodegen (emitter s) (cg_var_names s) (name_for_variable s) (operands s)
    (f (control s)) (stack s) (scopes s) (line_spans s) (declaration_sites s)
    (current_line_col s) (call_unsupported_builtins s)).

Definition set_stack (k : StackState) : CG unit := λ s,
  CgOk tt (mkCodegen (emitter s) (cg_var_names s) (name_for_variable s) (operands s)
    (control s) k (scopes s) (line_spans s) (declaration_sites s) (current_line_col s)
    (call_unsupported_builtins s)).

Definition set_scopes (k : ScopeDepthState) : CG unit := λ s,
  CgOk tt (mkCodegen (emitter s) (cg_var_names s) (name_for_variable s) (operands s)
    (control s) (stack s) k (line_spans s) (declaration_sites s) (current_line_col s)
    (call_unsupported_builtins s)).

Definition set_lines (spans : list (Z * Z)) (line_col : Z * Z) : CG unit := λ s,
  CgOk tt (mkCodegen (emitter s) (cg_var_names s) (name_for_variable s) (operands s)
    (control s) (stack s) (scopes s) spans (declaration_sites s) line_col
    (call_unsupported_builtins s)).

Definition set_declaration_sites (sites : list DeclarationSite) : CG unit := λ s,
  CgOk tt (mkCodegen (emitter s) (cg_var_names s) (name_for_variable s) (operands s)
    (control s) (stack s) (scopes s) (line_spans s) sites (current_line_col s)
    (call_unsupported_builtins s)).

Definition state : CG CodegenState := get (λ s, s).
Definition depth : CG Z := get (λ s, cur_stack (stack s)).
Definition line_col : CG (Z * Z) := get current_line_col.

(** ** state.rs *)

Definition push_stack (n : Z) : CG unit :=
  let* k := get stack in set_stack (stack_push n k).

Definition pop_stack (n : Z) : CG unit :=
  let* k := get stack in
  match stack_pop n k with Some k' => set_stack k' | None => panic end.

Definition set_depth (d : Z) : CG unit :=
  let* k := get stack in set_stack (stack_set_depth d k).

Definition saved_stack_top : CG (option Offset) := get (λ s, saved_stack (stack s)).

Definition save_stack_top : CG (option Offset) :=
  let* k := get stack in
  let '(old, k') := stack_save_top k in set_stack k';; ret old.

Definition restore_stack_top (old : option Offset) : CG unit :=
  let* k := get stack in set_stack (stack_restore_saved_top old k).

Definition enter_scope : CG unit :=
  let* k := get scopes in set_scopes (scopes_enter k).

Definition exit_scope : CG unit :=
  let* k := get scopes in
  match scopes_exit k with Some k' => set_scopes k' | None => panic end.

Definition make_jump_label (name : option Name) : CG Label :=
  let* e := get emitter in
  let '(id, e') := new_jump_label name e in on_emitter (λ _, e');; ret id.

Definition commit_jump_label (id : Label) : CG unit :=
  let* e := get emitter in
  match bind_jump_label id e with Some e' => on_emitter (λ _, e') | None => panic end.

(** How an instruction changes the depth of scopes. *)
Definition enters_scope (op : Op.t) : bool :=
  match op with
  | Op.If _ _ | Op.Eif _ _ | Op.BeginForSequence _ | Op.BeginForRange _ | Op.While _ _
  | Op.WhileId _ _ _ | Op.TryCatch _ _ | Op.TryExcept _ _ _ | Op.TryFinally _ _
  | Op.BeginScope _ _ | Op.BeginComprehension _ _ _ => true
  | _ => false
  end.

Definition exits_scope (op : Op.t) : bool :=
  match op with
  | Op.EndCatch _ | Op.EndExcept _ | Op.EndFinally | Op.EndScope _ => true
  | _ => false
  end.

Definition emit (op : Op.t) : CG unit :=
  (if enters_scope op then enter_scope else if exits_scope op then exit_scope else ret tt);;
  on_emitter (emitter_emit op).

Definition scope0_local_offset (n : Name) : option Z :=
  if negb (name_depth n =? 0) then None
  else match global_from_repr (name_offset n) with Some _ => None | None => Some (name_offset n) end.

Definition emit_push_name (n : Name) : CG unit :=
  match scope0_local_offset n with
  | Some offset => emit (Op.PushScope0Local offset)
  | None => emit (Op.Push n)
  end.

Definition emit_put_name (n : Name) : CG unit :=
  match scope0_local_offset n with
  | Some offset => emit (Op.PutScope0Local offset)
  | None => emit (Op.Put n)
  end.

Definition is_assignable_expr (e : Expr) : bool :=
  match e with EId _ | EIndex _ _ | ERange _ _ _ | EProp _ _ => true | _ => false end.

Definition find_name (v : Variable_) : CG Name :=
  let* t := get name_for_variable in
  match mjoin (t !! Z.to_nat (var_id v)) with Some n => ret n | None => panic end.

Fixpoint lvalue_stack_footprint (e : Expr) (indexed_above : bool) : Z :=
  let above := if indexed_above then 1 else 0 in
  match e with
  | ERange base _ _ => lvalue_stack_footprint base true + 2
  | EIndex lhs _ => lvalue_stack_footprint lhs true + 1 + above
  | EId _ => above
  | EProp location _ =>
      (if is_assignable_expr location then lvalue_stack_footprint location true else 1) + 1 + above
  | _ => 0
  end.

Definition current_loop : CG LoopFrame :=
  let* c := get control in
  match last (loops c) with Some l => ret l | None => panic end.

Definition push_loop (l : LoopFrame) : CG unit :=
  on_control (λ c, mkControl (loops c ++ [l]) (lambda_scope_depth c)).

Definition pop_loop : CG unit :=
  on_control (λ c, mkControl (removelast (loops c)) (lambda_scope_depth c)).

Definition declare_site (kind : DeclarationKind) (has_initializer : bool) : CG unit :=
  let* e := get emitter in
  let* sites := get declaration_sites in
  set_declaration_sites (sites ++ [mkDeclarationSite (pc e) kind has_initializer]).

(** ** expr_codegen.rs, stmt_codegen.rs, lambda_codegen.rs *)

Definition binary_opcode (op : BinaryOp) : Op.t :=
  match op with
  | BAdd => Op.Add | BSub => Op.Sub | BMul => Op.Mul | BDiv => Op.Div | BMod => Op.Mod
  | BEq => Op.Eq | BNEq => Op.Ne | BGt => Op.Gt | BGtE => Op.Ge | BLt => Op.Lt
  | BLtE => Op.Le | BExp => Op.Exp | BIn => Op.In | BBitAnd => Op.BitAnd
  | BBitOr => Op.BitOr | BBitXor => Op.BitXor | BBitShl => Op.BitShl | BBitShr => Op.BitShr
  | BBitLShr => Op.BitLShr
  end.

Definition unary_opcode (op : UnaryOp) : Op.t :=
  match op with UNeg => Op.UnaryMinus | UNot => Op.Not | UBitNot => Op.BitNot end.

Definition in_i32 (i : Z) : bool := (- 2 ^ 31 <=? i) && (i <? 2 ^ 31).

Definition advance_comprehension_position (position : Name) : CG unit :=
  emit_push_name position;; push_stack 1;; emit (Op.ImmInt 1);; push_stack 1;;
  emit Op.Add;; pop_stack 1;; emit_put_name position;; emit Op.Pop;; pop_stack 1.

Section codegen.
Context `{Text} `{Interner} `{Addresses} `{Builtins}.

Definition find_loop (n : Name) : CG LoopFrame :=
  let* c := get control in
  match control_find_loop n c with
  | Some l => ret l
  | None =>
      let* ns := get cg_var_names in
      let* lc := line_col in
      match ident_for_name ns n with
      | Some name => raise (UnknownLoopLabel lc (as_arc_str name))
      | None => panic
      end
  end.

(** [Expr::Value] *)
Definition generate_value (v : Var) : CG unit :=
  match v with
  | VNone => emit Op.ImmNone
  | VObj o => emit (Op.ImmObjid o)
  | VInt i => emit (if in_i32 i then Op.ImmInt i else Op.ImmBigInt i)
  | VFloat f => emit (Op.ImmFloat f)
  | _ => let* literal := on_operands (add_literal v) in emit (Op.Imm literal)
  end;;
  push_stack 1.

(** [generate_arg_list], on the code of the arguments; [true] is a splice. *)
Definition arg_list (args : list (bool * CG unit)) : CG unit :=
  match args with
  | [] => emit Op.ImmEmptyList;; push_stack 1
  | (splice, gen) :: args' =>
      gen;;
      emit (if splice : bool then Op.CheckListForSplice else Op.MakeSingletonList);;
      pop_stack 0;;
      each (λ '((splice, gen) : bool * CG unit),
              gen;; emit (if splice then Op.ListAppend else Op.ListAddTail);; pop_stack 1) args'
  end.

Definition arg_code (gen : Expr → CG unit) (a : Arg Expr) : bool * CG unit :=
  match a with Normal e => (false, gen e) | Splice e => (true, gen e) end.

Definition codes_code (gen : Expr → CG unit) (c : CatchCodes Expr) : CG unit :=
  match c with
  | Codes args => arg_list (map (arg_code gen) args)
  | Any => emit (Op.ImmInt 0);; push_stack 1
  end.

(** [generate_symbol_expr] *)
Definition symbol_code (gen : Expr → CG unit) (e : Expr) : CG unit :=
  match e with
  | EValue (VStr s) => emit (Op.ImmSymbol (mk_symbol s));; push_stack 1
  | _ => gen e
  end.

(** The stores of [generate_assign], from the assigned place outwards. The blocks
    are the exits taken when a property store is complete, with the slots to
    clean up and the depth at entry. *)
Fixpoint assign_stores (e : Expr) (used_set : bool) (blocks : list (Label * Z * Z))
  : CG (bool * bool * list (Label * Z * Z)) :=
  match e with
  | ERange base _ _ =>
      emit (Op.RangeSetAt 1);; pop_stack 3;; assign_stores base true blocks
  | EIndex lhs _ =>
      emit (Op.IndexSetAt 1);; pop_stack 2;; assign_stores lhs true blocks
  | EId v =>
      let* name := find_name v in
      if used_set then
        emit Op.Swap;; emit_put_name name;; emit Op.Pop;; pop_stack 1;;
        ret (used_set, true, blocks)
      else emit_put_name name;; ret (used_set, false, blocks)
  | EProp location _ =>
      let needs_prop_short_circuit := match location with EProp _ _ => true | _ => false end in
      let* jump_if_object := make_jump_label None in
      emit (Op.PutPropAt 1 jump_if_object);; pop_stack 2;;
      if is_assignable_expr location then
        (if needs_prop_short_circuit then ret tt else commit_jump_label jump_if_object);;
        if needs_prop_short_circuit then
          let* d := depth in
          assign_stores location true
            (blocks ++ [(jump_if_object, lvalue_stack_footprint location true, d)])
        else assign_stores location true blocks
      else
        (if needs_prop_short_circuit then ret tt else commit_jump_label jump_if_object);;
        ret (true, false, blocks)
  | _ => panic
  end.

(** [for _ in 0..=n { emit(Pop); pop_stack(1) }] *)
Definition pops (n : Z) : CG unit :=
  each (λ _, emit Op.Pop;; pop_stack 1) (seq 0 (Z.to_nat (n + 1))).

Definition short_circuit_block (done_label : Label) (normal_path_stack : Z)
    (b : Label * Z * Z) : CG unit :=
  let '(label, cleanup_slots, entry_stack) := b in
  commit_jump_label label;; set_depth entry_stack;; emit Op.PutTemp;; pops cleanup_slots;;
  emit Op.PushTemp;; push_stack 1;; emit (Op.Jump done_label);; set_depth normal_path_stack.

(** [generate_assign] after its operands. *)
Definition finish_assign (l : Expr) : CG unit :=
  (match l with
   | ERange _ _ _ | EIndex _ _ | EProp _ _ => emit Op.Dup;; push_stack 1
   | _ => ret tt
   end);;
  let* (used_set, handled_stack, blocks) := assign_stores l false [] in
  (if used_set && negb handled_stack then emit Op.Swap;; emit Op.Pop;; pop_stack 1 else ret tt);;
  match blocks with
  | [] => ret tt
  | _ =>
      let* done_label := make_jump_label None in
      emit (Op.Jump done_label);;
      let* normal_path_stack := depth in
      each (short_circuit_block done_label normal_path_stack) blocks;;
      commit_jump_label done_label
  end.

(** The end of a comprehension's loop, with its filter. *)
Definition comprehension_body (gen : Expr → CG unit) (producer_expr : Expr)
    (filter : option Expr) (position : Name) (loop_start_label : Label) : CG unit :=
  match filter with
  | Some filter =>
      let* skip_producer_label := make_jump_label None in
      gen filter;; emit (Op.FilterComprehension skip_producer_label);; pop_stack 1;;
      gen producer_expr;; emit (Op.ContinueComprehension position);; pop_stack 1;;
      emit (Op.Jump loop_start_label);;
      commit_jump_label skip_producer_label;;
      advance_comprehension_position position;;
      emit (Op.Jump loop_start_label)
  | None =>
      gen producer_expr;; emit (Op.ContinueComprehension position);; pop_stack 1;;
      emit (Op.Jump loop_start_label)
  end.

(** The labels of a scatter; for every item, the label of its default. *)
Fixpoint scatter_labels (items : list (ScatterItem Expr))
  : CG (list ScatterLabel * list (option Label)) :=
  match items with
  | [] => ret ([], [])
  | s :: items' =>
      let* d := (match si_kind s, si_expr s with
                 | KOptional, Some _ => let* l := make_jump_label None in ret (Some l)
                 | _, _ => ret None
                 end) in
      let* n := find_name (si_id s) in
      let label := match si_kind s with
                   | KRequired => SRequired n | KOptional => SOptional n d | KRest => SRest n
                   end in
      let* (ls, ds) := scatter_labels items' in ret (label :: ls, d :: ds)
  end.

Fixpoint each2 {A B} (f : A → B → CG unit) (l : list A) (bs : list B) : CG unit :=
  match l, bs with
  | a :: l', b :: bs' => f a b;; each2 f l' bs'
  | _, _ => ret tt
  end.

Definition default_code (gen : Expr → CG unit) (s : ScatterItem Expr) (d : option Label)
  : CG unit :=
  match d, si_expr s with
  | Some label, Some e =>
      commit_jump_label label;; gen e;;
      let* name := find_name (si_id s) in
      emit_put_name name;; emit Op.Pop;; pop_stack 1
  | _, _ => ret tt
  end.

(** The table of a lambda's parameters, their defaults compiled in its body. *)
Fixpoint param_labels (params : list (ScatterItem Expr)) : CG (list ScatterLabel) :=
  match params with
  | [] => ret []
  | p :: params' =>
      let* n := find_name (si_id p) in
      let* ls := param_labels params' in
      ret (match si_kind p with
           | KRequired => SRequired n | KOptional => SOptional n None | KRest => SRest n
           end :: ls)
  end.

(** The default of an optional parameter, taken when the parameter is 0. *)
Definition param_default (gen : Expr → CG unit) (p : ScatterItem Expr) : CG unit :=
  match si_kind p, si_expr p with
  | KOptional, Some default_expr =>
      let* param_name := find_name (si_id p) in
      emit_push_name param_name;; push_stack 1;; emit (Op.ImmInt 0);; push_stack 1;;
      emit Op.Eq;; pop_stack 1;;
      let* skip_default := make_jump_label None in
      emit (Op.IfQues skip_default);; pop_stack 1;;
      gen default_expr;; emit_put_name param_name;; emit Op.Pop;; pop_stack 1;;
      commit_jump_label skip_default
  | _, _ => ret tt
  end.

(** What a lambda and a fork set aside: [lambda_stash] starts a program of its
    own, [fork_stash] a vector of the same program. *)
Definition lambda_stash (s : CodegenState) : CodegenState :=
  mkCodegen emitter_new (cg_var_names s) (name_for_variable s) operands_new (control s)
    stack_new scopes_new [] [] (current_line_col s) (call_unsupported_builtins s).

Definition lambda_restore (outer s : CodegenState) : CodegenState :=
  mkCodegen (emitter outer) (cg_var_names outer) (name_for_variable s) (operands outer)
    (control s) (stack outer) (scopes outer) (line_spans outer) (declaration_sites outer)
    (current_line_col s) (call_unsupported_builtins s).

Definition fork_stash (s : CodegenState) : CodegenState :=
  mkCodegen (mkEmitter [] (em_jumps (emitter s))) (cg_var_names s) (name_for_variable s)
    (operands s) (control s) stack_new scopes_new [] [] (current_line_col s)
    (call_unsupported_builtins s).

Definition fork_restore (outer s : CodegenState) : CodegenState :=
  mkCodegen (mkEmitter (em_ops (emitter outer)) (em_jumps (emitter s))) (cg_var_names s)
    (name_for_variable s) (operands s) (control s) (stack outer) (scopes outer)
    (line_spans outer) (declaration_sites outer) (current_line_col s)
    (call_unsupported_builtins s).

(** The checks at the end of a vector. *)
Definition at_rest (s : CodegenState) : bool :=
  (cur_stack (stack s) =? 0) && bool_decide (saved_stack (stack s) = None)
  && (cur_depth (scopes s) =? 0).

(** The program of a lambda, on the code of its body. *)
Definition lambda_body_program (gen : Expr → CG unit) (gen_body : CG unit)
    (params : list (ScatterItem Expr)) (entry_scope_count : Z) : CG PrgInner :=
  let* outer := state in
  put (lambda_stash outer);;
  each (param_default gen) params;;
  gen_body;;
  let* inner := state in
  if at_rest inner then
    put (lambda_restore outer inner);;
    ret (with_entry_scope_count entry_scope_count
      (build_program (operands inner) (declaration_sites inner) (cg_var_names inner)
         (em_jumps (emitter inner)) (em_ops (emitter inner)) (max_stack (stack inner))
         (max_depth (scopes inner)) (line_spans inner)))
  else panic.

Definition set_lambda_scope_depth (n : Z) : CG unit :=
  on_control (λ c, mkControl (loops c) n).

(** [compile_lambda_body] *)
Definition lambda_code (gen : Expr → CG unit) (gen_body : CG unit)
    (params : list (ScatterItem Expr)) (body : Stmt) (entry_scope_count : Z) : CG unit :=
  let* c := get control in
  set_lambda_scope_depth (Z.min 255 (lambda_scope_depth c + 2));;
  let* labels := param_labels params in
  let* done_label := make_jump_label None in
  let* scatter_offset := on_operands (add_scatter_table labels done_label) in
  let* prg := lambda_body_program gen gen_body params entry_scope_count in
  let* program_offset := on_operands (add_lambda_program prg (stmt_line_col body).1) in
  set_lambda_scope_depth (lambda_scope_depth c);;
  let* table := get name_for_variable in
  match analyze_lambda_captures params (assign_stmt_source_line_numbers body)
          entry_scope_count (lambda_scope_depth c) table with
  | Err e => raise e
  | Ok captured_names =>
      each (λ n, emit (Op.Capture n)) captured_names;;
      emit (Op.MakeLambda scatter_offset program_offset None
              (as_u16 (Z.of_nat (length captured_names))));;
      push_stack 1
  end.

(** [*self.emitter.last_op_mut() = ...] for a recursive lambda. *)
Definition set_self_var (n : Name) : CG unit :=
  on_emitter (λ e,
    match last (em_ops e) with
    | Some (Op.MakeLambda sc pr _ num) =>
        mkEmitter (set_last (em_ops e) (Op.MakeLambda sc pr (Some n) num)) (em_jumps e)
    | _ => e
    end).

Definition find_opt_name (v : option Variable_) : CG (option Name) :=
  match v with Some v => let* n := find_name v in ret (Some n) | None => ret None end.

(** A fork's vector, on the code of its body: the state at its end. *)
Definition fork_body (gen_body : CG unit) : CG CodegenState :=
  let* outer := state in
  put (fork_stash outer);;
  gen_body;; emit Op.Done;;
  let* inner := state in
  if at_rest inner then put (fork_restore outer inner);; ret inner else panic.

Definition fork_code (gen_body : CG unit) (fork_id : option Variable_) : CG unit :=
  let* outer := state in
  let* inner := fork_body gen_body in
  let* fv_id := on_operands (add_fork_vector (pc (emitter outer)) (em_ops (emitter inner))
                  (max_stack (stack inner)) (max_depth (scopes inner)) (line_spans inner)
                  (declaration_sites inner)) in
  let* name := find_opt_name fork_id in
  emit (Op.Fork fv_id name);; pop_stack 1.

(** The loop around a body: its frame, the body and, in this order, what ends an
    iteration. *)
Definition loop_code (loop_name : option Name) (top bottom : Label) (gen_body finish : CG unit)
  : CG unit :=
  let* d := depth in
  push_loop (mkLoopFrame loop_name top (as_u16 d) bottom (as_u16 d));;
  gen_body;; finish;; commit_jump_label bottom;; pop_loop.

(** The arms of an [if]; all but the first are [elseif]. *)
Fixpoint cond_arms (gen : Expr → CG unit) (gen_stmt : Stmt → CG unit) (end_label : Label)
    (is_else : bool) (arms : list (CondArm Expr Stmt)) : CG unit :=
  match arms with
  | [] => ret tt
  | arm :: arms' =>
      gen (ca_condition arm);; let* otherwise_label := make_jump_label None in
      emit (if is_else then Op.Eif otherwise_label (as_u16 (ca_environment_width arm))
            else Op.If otherwise_label (as_u16 (ca_environment_width arm)));;
      pop_stack 1;; each gen_stmt (ca_statements arm);;
      emit (Op.EndScope (as_u16 (ca_environment_width arm)));; emit (Op.Jump end_label);;
      commit_jump_label otherwise_label;; cond_arms gen gen_stmt end_label true arms'
  end.

(** The codes of the [except] arms of a [try]. *)
Fixpoint except_codes (gen : Expr → CG unit) (arms : list (ExceptArm Expr Stmt))
  : CG (list Label) :=
  match arms with
  | [] => ret []
  | a :: arms' =>
      codes_code gen (xa_codes a);;
      let* l := make_jump_label None in
      emit (Op.PushCatchLabel l);;
      let* ls := except_codes gen arms' in ret (l :: ls)
  end.

Fixpoint except_arms (gen : Stmt → CG unit) (end_label : Label)
    (arms : list (ExceptArm Expr Stmt)) (labels : list Label) : CG unit :=
  match arms, labels with
  | a :: arms', l :: labels' =>
      commit_jump_label l;; push_stack 1;;
      (match xa_id a with
       | Some v => let* n := find_name v in emit_put_name n
       | None => ret tt
       end);;
      emit Op.Pop;; pop_stack 1;;
      each gen (xa_statements a);;
      (match arms' with [] => ret tt | _ => emit (Op.Jump end_label) end);;
      except_arms gen end_label arms' labels'
  | _, _ => ret tt
  end.

Fixpoint generate_expr (src : bool) (e : Expr) : CG unit :=
  let gen := generate_expr src in
  match e with
  | EValue v => generate_value v
  | EError code msg =>
      (match msg with
       | Some msg =>
           gen msg;; pop_stack 1;;
           let* operand_offset := on_operands (add_error_code_operand code) in
           emit (Op.MakeError operand_offset)
       | None => emit (Op.ImmErr code)
       end);;
      push_stack 1
  | ETypeConstant vt => emit (Op.ImmType vt);; push_stack 1
  | EId v => let* name := find_name v in emit_push_name name;; push_stack 1
  | EAnd l r =>
      gen l;; let* end_label := make_jump_label None in
      emit (Op.And end_label);; pop_stack 1;; gen r;; commit_jump_label end_label
  | EOr l r =>
      gen l;; let* end_label := make_jump_label None in
      emit (Op.Or end_label);; pop_stack 1;; gen r;; commit_jump_label end_label
  | EBinary op l r => gen l;; gen r;; emit (binary_opcode op);; pop_stack 1
  | EIndex l r =>
      gen l;; let* old := save_stack_top in
      gen r;; restore_stack_top old;; emit Op.Ref;; pop_stack 1
  | ERange base from to =>
      gen base;; let* old := save_stack_top in
      gen from;; gen to;; restore_stack_top old;; emit Op.RangeRef;; pop_stack 2
  | ELength =>
      let* saved := saved_stack_top in
      (match saved with
       | Some saved => emit (Op.Length saved)
       | None => let* lc := line_col in raise (StringLexError lc (lit "Invalid use of '$'"))
       end);;
      push_stack 1
  | EUnary op x => gen x;; emit (unary_opcode op)
  | EProp location property =>
      gen location;; symbol_code gen property;; emit Op.GetProp;; pop_stack 1
  | EPass args => arg_list (map (arg_code gen) args);; emit Op.Pass
  | ECall (Builtin symbol) args =>
      match find_builtin symbol with
      | Some id => arg_list (map (arg_code gen) args);; emit (Op.FuncCall id)
      | None =>
          let* transform := get call_unsupported_builtins in
          if transform then
            match find_builtin (mk_symbol (lit "call_function")) with
            | Some call_function_id =>
                arg_list ((false, generate_value (VSym symbol)) :: map (arg_code gen) args);;
                emit (Op.FuncCall call_function_id)
            | None => panic
            end
          else
            let* lc := line_col in raise (UnknownBuiltinFunction lc (as_arc_str symbol))
      end
  | ECall (CalleeExpr x) args =>
      gen x;; arg_list (map (arg_code gen) args);; emit Op.CallLambda;; pop_stack 1
  | EVerb location verb args =>
      gen location;; symbol_code gen verb;; arg_list (map (arg_code gen) args);;
      emit Op.CallVerb;; pop_stack 2
  | ECond condition consequence alternative =>
      gen condition;; let* else_label := make_jump_label None in
      emit (Op.IfQues else_label);; pop_stack 1;;
      gen consequence;; let* end_label := make_jump_label None in
      emit (Op.Jump end_label);; pop_stack 1;; commit_jump_label else_label;;
      gen alternative;; commit_jump_label end_label
  | ETryCatch trye codes except =>
      let* handler_label := make_jump_label None in
      codes_code gen codes;; emit (Op.PushCatchLabel handler_label);; pop_stack 1;;
      let* end_label := make_jump_label None in
      emit (Op.TryCatch handler_label end_label);;
      gen trye;; emit (Op.EndCatch end_label);; commit_jump_label handler_label;;
      (match except with
       | None => emit (Op.ImmInt 1);; emit Op.Ref
       | Some x => emit Op.Pop;; pop_stack 1;; gen x
       end);;
      commit_jump_label end_label
  | EList l => arg_list (map (arg_code gen) l)
  | EMap m =>
      emit Op.MakeMap;; push_stack 1;;
      each (λ '(k, v), gen k;; gen v;; emit Op.MapInsert;; pop_stack 2) m
  | EFlyweight delegate slots contents =>
      gen delegate;;
      each (λ '(k, v), gen v;; generate_value (VStr (as_arc_str k))) slots;;
      (match contents with
       | Some x => gen x
       | None => emit Op.ImmEmptyList;; push_stack 1
       end);;
      emit (Op.MakeFlyweight (length slots));; pop_stack (1 + Z.of_nat (length slots) * 2)
  | EScatter items rhs declaration =>
      gen rhs;;
      let* (labels, defaults) := scatter_labels items in
      let* done_label := make_jump_label None in
      let* scatter_offset := on_operands (add_scatter_table labels done_label) in
      opt_each (λ kind, declare_site kind true) declaration;;
      emit (Op.Scatter scatter_offset);;
      each2 (default_code gen) items defaults;;
      commit_jump_label done_label
  | EAssign l r => push_lvalue src l false;; gen r;; finish_assign l
  | EDecl id is_const x =>
      (match x with Some rhs => gen rhs | None => generate_value (VInt 0) end);;
      declare_site (if is_const then KConst else KLet) (bool_decide (is_Some x));;
      let* name := find_name id in emit_put_name name
  | EComprehendRange variable end_of_range_register producer_expr from to filter =>
      let* end_label := make_jump_label None in
      let* loop_start_label := make_jump_label None in
      (if end_label =? loop_start_label then panic else ret tt);;
      let* index_variable := find_name variable in
      let* end_of_range_register := find_name end_of_range_register in
      emit (Op.BeginComprehension CRange end_label loop_start_label);;
      push_stack 1;;
      gen from;; emit_put_name index_variable;; emit Op.Pop;;
      gen to;; emit_put_name end_of_range_register;; emit Op.Pop;; pop_stack 2;;
      commit_jump_label loop_start_label;;
      let* offset := on_operands (add_range_comprehension
                       (mkRangeComprehend index_variable end_of_range_register end_label)) in
      emit (Op.ComprehendRange offset);;
      comprehension_body gen producer_expr filter index_variable loop_start_label;;
      commit_jump_label end_label;; exit_scope
  | EComprehendList variable position_register list_register producer_expr list_expr filter =>
      let* end_label := make_jump_label None in
      let* position_register := find_name position_register in
      let* list_register := find_name list_register in
      let* item_variable := find_name variable in
      let* loop_start_label := make_jump_label None in
      emit (Op.BeginComprehension CList end_label loop_start_label);;
      push_stack 1;;
      gen list_expr;; emit_put_name list_register;; emit Op.Pop;; pop_stack 1;;
      emit (Op.ImmInt 1);; emit_put_name position_register;; emit Op.Pop;;
      commit_jump_label loop_start_label;;
      let* offset := on_operands (add_list_comprehension
                       (mkListComprehend position_register list_register item_variable
                          end_label)) in
      emit (Op.ComprehendList offset);;
      comprehension_body gen producer_expr filter position_register loop_start_label;;
      commit_jump_label end_label;; exit_scope
  | EReturn (Some x) => gen x;; emit Op.Return
  | EReturn None => emit Op.Return0;; push_stack 1
  | ELambda entry_scope_count params body self_name =>
      lambda_code gen (generate_stmt true body) params body entry_scope_count;;
      opt_each (λ v, let* n := find_name v in set_self_var n) self_name
  end
with push_lvalue (src : bool) (e : Expr) (indexed_above : bool) : CG unit :=
  let gen := generate_expr src in
  match e with
  | ERange base from to =>
      push_lvalue src base true;; let* old := save_stack_top in
      gen from;; gen to;; restore_stack_top old
  | EIndex l r =>
      push_lvalue src l true;; let* old := save_stack_top in
      gen r;; restore_stack_top old;;
      if indexed_above then emit Op.PushRef;; push_stack 1 else ret tt
  | EId v =>
      if indexed_above then
        let* name := find_name v in emit_push_name name;; push_stack 1
      else ret tt
  | EProp location property =>
      (if is_assignable_expr location then push_lvalue src location true else gen location);;
      symbol_code gen property;;
      if indexed_above then emit Op.PushGetProp;; push_stack 1 else ret tt
  | ETypeConstant c => let* lc := line_col in raise (InvalidTypeLiteralAssignment (type_literal c) lc)
  | _ => let* lc := line_col in raise (InvalidAssignmentTarget lc)
  end
with generate_node (src : bool) (n : StmtNode) : CG unit :=
  let gen := generate_expr src in
  let body_code := each (generate_stmt src) in
  match n with
  | SCond arms otherwise =>
      let* end_label := make_jump_label None in
      cond_arms gen (generate_stmt src) end_label false arms;;
      opt_each (λ '(mkElseArm statements w),
        let* end_label := make_jump_label None in
        emit (Op.BeginScope (as_u16 w) end_label);; body_code statements;;
        emit (Op.EndScope (as_u16 w));; commit_jump_label end_label) otherwise;;
      commit_jump_label end_label
  | SForList value_binding key_binding x body w =>
      gen x;;
      let* value_bind := find_name value_binding in
      let* key_bind := find_opt_name key_binding in
      let* end_label := make_jump_label (Some value_bind) in
      let* offset := on_operands (add_for_sequence_operand
                       (mkForSequenceOperand value_bind key_bind end_label (as_u16 w))) in
      emit (Op.BeginForSequence offset);; pop_stack 1;;
      let* loop_top := make_jump_label (Some value_bind) in
      commit_jump_label loop_top;; emit Op.IterateForSequence;;
      loop_code (Some value_bind) loop_top end_label (body_code body)
        (emit (Op.Jump loop_top);; emit (Op.EndScope (as_u16 w)))
  | SForRange id from to body w =>
      gen from;; gen to;;
      let* loop_variable := find_name id in
      let* end_label := make_jump_label (Some loop_variable) in
      let* offset := on_operands (add_for_range_operand
                       (mkForRangeOperand loop_variable end_label (as_u16 w))) in
      emit (Op.BeginForRange offset);; pop_stack 2;;
      let* loop_top := make_jump_label (Some loop_variable) in
      commit_jump_label loop_top;; emit Op.IterateForRange;;
      loop_code (Some loop_variable) loop_top end_label (body_code body)
        (emit (Op.Jump loop_top);; emit (Op.EndScope (as_u16 w)))
  | SWhile id condition body w =>
      let* name := find_opt_name id in
      let* loop_start_label := make_jump_label name in
      commit_jump_label loop_start_label;;
      let* loop_end_label := make_jump_label name in
      gen condition;;
      emit (match name with
            | None => Op.While loop_end_label (as_u16 w)
            | Some n => Op.WhileId n loop_end_label (as_u16 w)
            end);;
      pop_stack 1;;
      loop_code name loop_start_label loop_end_label (body_code body)
        (emit (Op.EndScope (as_u16 w));; emit (Op.Jump loop_start_label))
  | SFork id time body => gen time;; fork_code (body_code body) id
  | STryExcept body excepts w =>
      let* labels := except_codes gen excepts in
      pop_stack (Z.of_nat (length excepts));;
      let* end_label := make_jump_label None in
      emit (Op.TryExcept (as_u16 (Z.of_nat (length excepts))) (as_u16 w) end_label);;
      body_code body;;
      emit (Op.EndExcept end_label);;
      except_arms (generate_stmt src) end_label excepts labels;;
      commit_jump_label end_label
  | STryFinally body handler w =>
      let* handler_label := make_jump_label None in
      emit (Op.TryFinally handler_label (as_u16 w));;
      body_code body;; emit Op.EndFinally;; commit_jump_label handler_label;;
      body_code handler;; emit Op.FinallyContinue
  | SScope num_bindings body =>
      let* end_label := make_jump_label None in
      emit (Op.BeginScope (as_u16 num_bindings) end_label);; body_code body;;
      emit (Op.EndScope (as_u16 num_bindings));; commit_jump_label end_label
  | SBreak None => let* l := current_loop in emit (Op.Exit (bottom_stack l) (bottom_label l))
  | SBreak (Some v) =>
      let* n := find_name v in let* l := find_loop n in emit (Op.ExitId (bottom_label l))
  | SContinue None => let* l := current_loop in emit (Op.Exit (top_stack l) (top_label l))
  | SContinue (Some v) =>
      let* n := find_name v in
      let* c := get control in
      match control_find_loop n c with
      | Some l => emit (Op.ExitId (top_label l))
      | None => panic
      end
  | SExpr x => gen x;; emit Op.Pop;; pop_stack 1
  end
with generate_stmt (src : bool) (s : Stmt) : CG unit :=
  match s with
  | mkStmt node lc tree_line_no =>
      let* e := get emitter in
      let* spans := get line_spans in
      set_lines (spans ++ [(pc e, if src then lc.1 else tree_line_no)]) lc;;
      generate_node src node
  end.

(** [do_compile] (codegen.rs) *)
Definition do_compile (parse : Parse) (call_unsupported : bool) : outcome PrgInner :=
  (each (generate_stmt false) (parse_stmts parse);;
   emit Op.Done;;
   let* s := state in
   if at_rest s then
     ret (build_program (operands s) (declaration_sites s) (cg_var_names s)
            (em_jumps (emitter s)) (em_ops (emitter s)) (max_stack (stack s))
            (max_depth (scopes s)) (line_spans s))
   else panic)
  (codegen_new call_unsupported (parse_names parse)).
End codegen.
