(* ===== verification/CodegenProofs.v ===== *)
(** Code generation keeps its books: on a well-formed tree no assertion of the
    generator fails, an expression leaves exactly one slot on the stack it tracks
    and a statement none, and loops, scopes and the top saved for [$] are restored.

    [step f s s'] says how the tracked part of the state changes; the rules below
    give it for each operation, and the proof for the generator goes through the
    tree once. *)
From S2P Require Import Prelude Obj TxTypes Float64 Opcodes Values ValueOrder Ast Capture CodegenState Codegen.
From stdpp Require Import base gmap list strings.

Open Scope Z_scope.
Open Scope cg_scope.

(** ** What is tracked *)

Record View := mkView {
  v_table : list (option Name);
  v_names : Names;
  v_flag : bool;
  v_loops : list LoopFrame;
  v_lambda : Z;
  v_cur : Z;
  v_saved : option Offset;
  v_scope : Z;
}.

Definition view (s : CodegenState) : View :=
  mkView (name_for_variable s) (cg_var_names s) (call_unsupported_builtins s)
    (loops (control s)) (lambda_scope_depth (control s)) (cur_stack (stack s))
    (saved_stack (stack s)) (cur_depth (scopes s)).

Definition njumps (s : CodegenState) : nat := length (em_jumps (emitter s)).

(** [k] more slots, [d] more scopes. *)
Definition vadd (k d : Z) (v : View) : View :=
  mkView (v_table v) (v_names v) (v_flag v) (v_loops v) (v_lambda v) (v_cur v + k) (v_saved v)
    (v_scope v + d).
Definition vdepth (k : Z) (v : View) : View :=
  mkView (v_table v) (v_names v) (v_flag v) (v_loops v) (v_lambda v) k (v_saved v) (v_scope v).
Definition vsaved (o : option Offset) (v : View) : View :=
  mkView (v_table v) (v_names v) (v_flag v) (v_loops v) (v_lambda v) (v_cur v) o (v_scope v).
Definition vloops (l : list LoopFrame) (v : View) : View :=
  mkView (v_table v) (v_names v) (v_flag v) l (v_lambda v) (v_cur v) (v_saved v) (v_scope v).
Definition vlambda (l : Z) (v : View) : View :=
  mkView (v_table v) (v_names v) (v_flag v) (v_loops v) l (v_cur v) (v_saved v) (v_scope v).

Definition step (f : View → View) (s s' : CodegenState) : Prop :=
  view s' = f (view s) ∧ (njumps s ≤ njumps s')%nat.

(** ** Rules *)

Definition wp {A} (m : CG A) (Q : A → CodegenState → Prop) (s : CodegenState) : Prop :=
  match m s with CgOk a s' => Q a s' | CgErr _ => True | CgPanic => False end.

Section rules.
Implicit Types s : CodegenState.

Lemma cg_wp_bind {A B} (m : CG A) (k : A → CG B) Q s :
  wp m (λ a s', wp (k a) Q s') s → wp (bind m k) Q s.
Proof. unfold wp, bind. by destruct (m s). Qed.

Lemma cg_wp_mono {A} (m : CG A) (Q Q' : A → CodegenState → Prop) s :
  wp m Q s → (∀ a s', Q a s' → Q' a s') → wp m Q' s.
Proof. unfold wp. destruct (m s); auto. Qed.

Lemma cg_wp_ret {A} (a : A) (Q : A → CodegenState → Prop) s : Q a s → wp (ret a) Q s.
Proof. done. Qed.

Lemma wp_raise {A} e (Q : A → CodegenState → Prop) s : wp (raise e) Q s.
Proof. done. Qed.

Lemma cg_wp_get {A} (f : CodegenState → A) (Q : A → CodegenState → Prop) s :
  Q (f s) s → wp (get f) Q s.
Proof. done. Qed.

Lemma wp_push n (Q : unit → CodegenState → Prop) s :
  (∀ s', step (vadd n 0) s s' → Q tt s') → wp (push_stack n) Q s.
Proof. intros HQ. apply HQ. split; [|done]. cbv [view vadd]; cbn. by rewrite Z.add_0_r. Qed.

Lemma wp_pop n (Q : unit → CodegenState → Prop) s :
  n ≤ v_cur (view s) → (∀ s', step (vadd (- n) 0) s s' → Q tt s') → wp (pop_stack n) Q s.
Proof.
  cbn. intros Hn HQ. unfold pop_stack, wp, bind, get, stack_pop.
  destruct (Z.ltb_spec (cur_stack (stack s)) n); [lia|]. apply HQ. split; [|done].
  cbv [view vadd]; cbn. f_equal; lia.
Qed.

Lemma wp_set_depth n (Q : unit → CodegenState → Prop) s :
  (∀ s', step (vdepth n) s s' → Q tt s') → wp (set_depth n) Q s.
Proof. intros HQ. by apply HQ. Qed.

Lemma wp_depth (Q : Z → CodegenState → Prop) s : Q (v_cur (view s)) s → wp depth Q s.
Proof. done. Qed.

Lemma wp_saved_top (Q : option Offset → CodegenState → Prop) s :
  (∀ o, Q o s) → wp saved_stack_top Q s.
Proof. intros HQ. apply HQ. Qed.

Lemma wp_save_top (Q : option Offset → CodegenState → Prop) s :
  (∀ o s', step (vsaved o) s s' → Q (v_saved (view s)) s') → wp save_stack_top Q s.
Proof. intros HQ. by eapply HQ. Qed.

Lemma wp_restore_top o (Q : unit → CodegenState → Prop) s :
  (∀ s', step (vsaved o) s s' → Q tt s') → wp (restore_stack_top o) Q s.
Proof. intros HQ. by apply HQ. Qed.

Lemma wp_exit_scope (Q : unit → CodegenState → Prop) s :
  0 < v_scope (view s) → (∀ s', step (vadd 0 (-1)) s s' → Q tt s') → wp exit_scope Q s.
Proof.
  cbn. intros Hn HQ. unfold exit_scope, wp, bind, get, scopes_exit.
  destruct (Z.eqb_spec (cur_depth (scopes s)) 0); [lia|]. apply HQ. split; [|done].
  cbv [view vadd]; cbn. f_equal; lia.
Qed.

Lemma emitter_emit_jumps op e : em_jumps (emitter_emit op e) = em_jumps e.
Proof.
  destruct op; try done. cbn. destruct (has_label_at_current_pc e); [done|].
  by destruct (last (em_ops e) ≫= fused).
Qed.

Definition scope_change (op : Op.t) : Z :=
  if enters_scope op then 1 else if exits_scope op then -1 else 0.

Lemma wp_emit op (Q : unit → CodegenState → Prop) s :
  0 ≤ v_scope (view s) + scope_change op →
  (∀ s', step (vadd 0 (scope_change op)) s s' → Q tt s') → wp (emit op) Q s.
Proof.
  unfold scope_change, emit. intros Hn HQ. apply cg_wp_bind.
  destruct (enters_scope op); [|destruct (exits_scope op)].
  - apply HQ. split; [|unfold njumps; cbn; by rewrite emitter_emit_jumps].
    cbv [view vadd]; cbn. f_equal; lia.
  - apply wp_exit_scope; [lia|]. intros s' [Hv Hj]. apply HQ. split.
    + cbn in *. rewrite <- Hv. done.
    + unfold njumps in *. cbn. by rewrite emitter_emit_jumps.
  - apply HQ. split; [|unfold njumps; cbn; by rewrite emitter_emit_jumps].
    cbv [view vadd]; cbn. f_equal; lia.
Qed.

Lemma wp_emit_push_name n (Q : unit → CodegenState → Prop) s :
  0 ≤ v_scope (view s) → (∀ s', step (vadd 0 0) s s' → Q tt s') → wp (emit_push_name n) Q s.
Proof.
  intros Hs HQ. unfold emit_push_name.
  destruct (scope0_local_offset n); (apply wp_emit; [cbn in *; lia|exact HQ]).
Qed.

Lemma wp_emit_put_name n (Q : unit → CodegenState → Prop) s :
  0 ≤ v_scope (view s) → (∀ s', step (vadd 0 0) s s' → Q tt s') → wp (emit_put_name n) Q s.
Proof.
  intros Hs HQ. unfold emit_put_name.
  destruct (scope0_local_offset n); (apply wp_emit; [cbn in *; lia|exact HQ]).
Qed.

Lemma wp_make_label n (Q : Label → CodegenState → Prop) s :
  (∀ l s', step (λ v, v) s s' → (Z.to_nat l < njumps s')%nat → Q l s') → wp (make_jump_label n) Q s.
Proof.
  intros HQ. apply HQ.
  - split; [done|]. unfold njumps; cbn. rewrite length_app. lia.
  - unfold njumps; cbn. rewrite length_app; cbn. unfold as_u16, wrap.
    pose proof (Z.mod_le (Z.of_nat (length (em_jumps (emitter s)))) (2 ^ 16)). lia.
Qed.

Lemma wp_commit_label l (Q : unit → CodegenState → Prop) s :
  (Z.to_nat l < njumps s)%nat → (∀ s', step (λ v, v) s s' → Q tt s') → wp (commit_jump_label l) Q s.
Proof.
  intros Hl HQ. unfold commit_jump_label, wp, bind, get, bind_jump_label.
  destruct (lookup_lt_is_Some_2 _ _ Hl) as [j ->]. apply HQ. split; [done|].
  unfold njumps; cbn. by rewrite length_insert.
Qed.

Lemma wp_operands {A} (f : OperandState → A * OperandState) (Q : A → CodegenState → Prop) s :
  (∀ a s', step (λ v, v) s s' → Q a s') → wp (on_operands f) Q s.
Proof. intros HQ. unfold wp, on_operands. destruct (f (operands s)). by apply HQ. Qed.

Lemma wp_on_emitter f (Q : unit → CodegenState → Prop) s :
  (∀ e, em_jumps (f e) = em_jumps e) → (∀ s', step (λ v, v) s s' → Q tt s') → wp (on_emitter f) Q s.
Proof. intros Hf HQ. apply HQ. split; [done|]. unfold njumps; cbn. by rewrite Hf. Qed.

Lemma wp_push_loop l (Q : unit → CodegenState → Prop) s :
  (∀ s', step (vloops (v_loops (view s) ++ [l])) s s' → Q tt s') → wp (push_loop l) Q s.
Proof. intros HQ. by apply HQ. Qed.

Lemma wp_pop_loop (Q : unit → CodegenState → Prop) s :
  (∀ s', step (vloops (removelast (v_loops (view s)))) s s' → Q tt s') → wp pop_loop Q s.
Proof. intros HQ. by apply HQ. Qed.

Lemma wp_lambda_depth n (Q : unit → CodegenState → Prop) s :
  (∀ s', step (vlambda n) s s' → Q tt s') →
  wp (on_control (λ c, mkControl (loops c) n)) Q s.
Proof. intros HQ. by apply HQ. Qed.

Lemma wp_lines spans lc (Q : unit → CodegenState → Prop) s :
  (∀ s', step (λ v, v) s s' → Q tt s') → wp (set_lines spans lc) Q s.
Proof. intros HQ. by apply HQ. Qed.

Lemma wp_declare_site k b (Q : unit → CodegenState → Prop) s :
  (∀ s', step (λ v, v) s s' → Q tt s') → wp (declare_site k b) Q s.
Proof. intros HQ. by apply HQ. Qed.

Definition declared (table : list (option Name)) (v : Variable_) : bool :=
  match mjoin (table !! Z.to_nat (var_id v)) with Some _ => true | None => false end.

Lemma wp_find_name v (Q : Name → CodegenState → Prop) s :
  declared (v_table (view s)) v = true →
  (∀ n, mjoin (v_table (view s) !! Z.to_nat (var_id v)) = Some n → Q n s) →
  wp (find_name v) Q s.
Proof.
  cbn. unfold declared, find_name, wp, bind, get. intros Hd HQ.
  destruct (mjoin _) as [n|] eqn:Hn; [|done]. by apply HQ.
Qed.

End rules.

(** ** Well-formed trees *)

Section ok.
Variable table : list (option Name).

Definition name_of (v : Variable_) : option Name := mjoin (table !! Z.to_nat (var_id v)).

Definition opt_ok {A} (f : A → bool) (o : option A) : bool :=
  match o with Some a => f a | None => true end.

Definition arg_ok {E} (f : E → bool) (a : Arg E) : bool :=
  match a with Normal e | Splice e => f e end.

Definition codes_ok {E} (f : E → bool) (c : CatchCodes E) : bool :=
  match c with Codes args => forallb (arg_ok f) args | Any => true end.

Definition item_ok {E} (f : E → bool) (i : ScatterItem E) : bool :=
  declared table (si_id i) && opt_ok f (si_expr i).

(** Every variable has a name; [break] and [continue] are inside a loop, a
    [continue] with a label inside that loop; no range is assigned through. [ls]
    are the names of the loops around. *)
Fixpoint expr_ok (ls : list (option Name)) (e : Expr) : bool :=
  let ok := expr_ok ls in
  match e with
  | EAssign l r => lvalue_ok ls false l && ok r
  | EPass args | EList args => forallb (arg_ok ok) args
  | ETypeConstant _ | EValue _ | ELength => true
  | EError _ x | EReturn x => opt_ok ok x
  | EId v => declared table v
  | EBinary _ l r | EAnd l r | EOr l r | EIndex l r | EProp l r => ok l && ok r
  | EUnary _ x => ok x
  | ECall f args =>
      match f with CalleeExpr x => ok x | Builtin _ => true end && forallb (arg_ok ok) args
  | EVerb l v args => ok l && ok v && forallb (arg_ok ok) args
  | ERange x y z | ECond x y z => ok x && ok y && ok z
  | ETryCatch t c x => ok t && codes_ok ok c && opt_ok ok x
  | EMap m => forallb (λ kv, ok kv.1 && ok kv.2) m
  | EFlyweight d slots contents => ok d && forallb (λ kv, ok kv.2) slots && opt_ok ok contents
  | EScatter items r _ => ok r && forallb (item_ok ok) items
  | EComprehendList v p l pr x f =>
      declared table v && declared table p && declared table l && ok pr && ok x && opt_ok ok f
  | EComprehendRange v r pr x y f =>
      declared table v && declared table r && ok pr && ok x && ok y && opt_ok ok f
  | EDecl v _ x => declared table v && opt_ok ok x
  | ELambda _ params body self =>
      forallb (item_ok ok) params && stmt_ok ls body && opt_ok (declared table) self
  end
with lvalue_ok (ls : list (option Name)) (nested : bool) (e : Expr) : bool :=
  let ok := expr_ok ls in
  match e with
  | ERange base from to => negb nested && lvalue_ok ls true base && ok from && ok to
  | EIndex l r => lvalue_ok ls true l && ok r
  | EId v => declared table v
  | EProp l p => (if is_assignable_expr l then lvalue_ok ls true l else ok l) && ok p
  | _ => true
  end
with node_ok (ls : list (option Name)) (n : StmtNode) : bool :=
  let ok := expr_ok ls in
  let body_ok := forallb (stmt_ok ls) in
  match n with
  | SCond arms otherwise =>
      forallb (λ a, ok (ca_condition a) && body_ok (ca_statements a)) arms
      && opt_ok (λ o, body_ok (ea_statements o)) otherwise
  | SForList v k x body _ =>
      declared table v && opt_ok (declared table) k && ok x
      && forallb (stmt_ok (ls ++ [name_of v])) body
  | SForRange v x y body _ =>
      declared table v && ok x && ok y && forallb (stmt_ok (ls ++ [name_of v])) body
  | SWhile v x body _ =>
      opt_ok (declared table) v && ok x && forallb (stmt_ok (ls ++ [v ≫= name_of])) body
  | SFork v x body => opt_ok (declared table) v && ok x && body_ok body
  | STryExcept body excepts _ =>
      body_ok body
      && forallb (λ x, opt_ok (declared table) (xa_id x) && codes_ok ok (xa_codes x)
                       && body_ok (xa_statements x)) excepts
  | STryFinally body handler _ => body_ok body && body_ok handler
  | SScope _ body => body_ok body
  | SBreak None | SContinue None => negb (bool_decide (ls = []))
  | SBreak (Some v) => declared table v
  | SContinue (Some v) => declared table v && bool_decide (name_of v ∈ ls)
  | SExpr x => ok x
  end
with stmt_ok (ls : list (option Name)) (s : Stmt) : bool :=
  match s with mkStmt n _ _ => node_ok ls n end.
End ok.

(** ** Books kept *)

Section books.
Context `{Text} `{Interner} `{Addresses} `{Builtins}.
Variable table : list (option Name).
Variable names : Names.
Variable flag : bool.

(** The names of the table are declared, and a function the compiler would call
    for an unknown one exists. *)
Hypothesis table_named : ∀ v n, name_of table v = Some n → is_Some (ident_for_name names n).
Hypothesis call_function_known :
  flag = true → is_Some (find_builtin (mk_symbol (lit "call_function"))).

Definition at_ (ls : list (option Name)) (s : CodegenState) (lps : list LoopFrame) (lam cur : Z)
    (saved : option Offset) (sc : Z) : Prop :=
  view s = mkView table names flag lps lam cur saved sc ∧ 0 ≤ cur ∧ 0 ≤ sc
  ∧ map loop_name lps = ls.

(** [m] pushes [k] slots and leaves the rest as it was. *)
Definition good (k : Z) (ls : list (option Name)) (m : CG unit) : Prop :=
  ∀ s lps lam cur saved sc, at_ ls s lps lam cur saved sc →
  wp m (λ _ s', at_ ls s' lps lam (cur + k) saved sc ∧ (njumps s ≤ njumps s')%nat) s.

Ltac cg_cbv Hv :=
  cbv beta iota delta [vadd vdepth vsaved vloops vlambda v_table v_names v_flag v_loops v_lambda
    v_cur v_saved v_scope scope_change enters_scope exits_scope] in Hv.

Ltac cg_state :=
  match goal with
  | Hs : view ?s = mkView _ _ _ _ _ _ _ _, Hv : view ?s' = _ |- _ =>
      lazymatch type of Hv with context [view s] => rewrite Hs in Hv; cg_cbv Hv end
  end.

Ltac cg_side :=
  repeat match goal with Hs : view ?s = _ |- context [view ?s] => rewrite Hs end;
  cbn in *; try assumption; try lia.

Ltac cg_goal :=
  repeat match goal with Hs : view ?s = _ |- context [view ?s] => rewrite Hs end;
  cbn [v_saved v_cur v_loops v_table].

Ltac cg_intro := intros ? [? ?]; cg_state.

Ltac cg_at :=
  repeat match goal with |- at_ _ _ _ _ _ _ _ => split_and! end; try eassumption; try lia;
  try (etransitivity; [eassumption|]; f_equal; lia).

Ltac cg_step :=
  lazymatch goal with
  | |- wp (bind _ _) _ _ => apply cg_wp_bind
  | |- wp (emit (match ?b with _ => _ end)) _ _ => destruct b eqn:?
  | |- wp (emit (binary_opcode ?op)) _ _ => destruct op; cbn [binary_opcode]
  | |- wp (emit (unary_opcode ?op)) _ _ => destruct op; cbn [unary_opcode]
  | |- wp (ret _) _ _ => apply cg_wp_ret
  | |- wp (raise _) _ _ => apply wp_raise
  | |- wp (push_stack _) _ _ => apply wp_push; cg_intro
  | |- wp (pop_stack _) _ _ => apply wp_pop; [cg_side|cg_intro]
  | |- wp (set_depth _) _ _ => apply wp_set_depth; cg_intro
  | |- wp depth _ _ => apply wp_depth; cg_goal
  | |- wp line_col _ _ => apply cg_wp_get
  | |- wp saved_stack_top _ _ => apply wp_saved_top; intros ?
  | |- wp save_stack_top _ _ => apply wp_save_top; intros ? ? [? ?]; cg_state; cg_goal
  | |- wp (restore_stack_top _) _ _ => apply wp_restore_top; cg_intro
  | |- wp exit_scope _ _ => apply wp_exit_scope; [cg_side|cg_intro]
  | |- wp (emit _) _ _ => apply wp_emit; [cg_side|cg_intro]
  | |- wp (make_jump_label _) _ _ => apply wp_make_label; intros ? ? [? ?] ?; cg_state
  | |- wp (commit_jump_label _) _ _ => apply wp_commit_label; [lia|cg_intro]
  | |- wp (on_operands _) _ _ => apply wp_operands; intros ? ? [? ?]; cg_state
  | |- wp (push_loop _) _ _ => apply wp_push_loop; cg_intro
  | |- wp pop_loop _ _ => apply wp_pop_loop; cg_intro
  | |- wp (set_lines _ _) _ _ => apply wp_lines; cg_intro
  | |- wp (declare_site _ _) _ _ => apply wp_declare_site; cg_intro
  | |- wp (find_name _) _ _ => apply wp_find_name; [cg_side|intros ? ?]
  | |- wp (get _) _ _ => apply cg_wp_get
  | |- wp (emit_push_name _) _ _ => apply wp_emit_push_name; [cg_side|cg_intro]
  | |- wp (emit_put_name _) _ _ => apply wp_emit_put_name; [cg_side|cg_intro]
  | Hg : good _ _ ?m |- wp ?m _ _ =>
      eapply cg_wp_mono;
      [eapply Hg; cg_at|cbv beta; intros [] ? [(? & ? & ? & ?) ?]]
  end.

Ltac cg := repeat cg_step.
Ltac cg_done := cg; (split; [cg_at|lia]).

Tactic Notation "cg_start" := intros ? ? ? ? ? ? (? & ? & ? & ?).

Lemma wp_good k ls m s lps lam cur saved sc (Q : unit → CodegenState → Prop) :
  good k ls m → at_ ls s lps lam cur saved sc →
  (∀ s', view s' = mkView table names flag lps lam (cur + k) saved sc →
         0 ≤ cur + k → (njumps s ≤ njumps s')%nat → Q tt s') →
  wp m Q s.
Proof.
  intros Hg Hat HQ. eapply cg_wp_mono; [by eapply Hg|]. intros [] s' [(? & ? & ? & ?) ?]. auto.
Qed.

Lemma good_ret ls : good 0 ls (ret tt).
Proof. cg_start. cg_done. Qed.

Lemma good_value ls v : good 1 ls (generate_value v).
Proof. cg_start. unfold generate_value. destruct v; cg_done. Qed.

Lemma good_each {A} (f : A → CG unit) k ls l :
  0 ≤ k → Forall (λ a, good k ls (f a)) l → good (k * Z.of_nat (length l)) ls (each f l).
Proof.
  intros Hk. induction 1 as [|a l Ha _ IH]; cg_start; cbn [each length].
  - rewrite Z.mul_0_r. cg_done.
  - rewrite Nat2Z.inj_succ, Z.mul_succ_r. cg_done.
Qed.

Lemma good_each0 {A} (f : A → CG unit) ls l :
  Forall (λ a, good 0 ls (f a)) l → good 0 ls (each f l).
Proof. intros Hf. by apply (good_each f 0) in Hf. Qed.

Lemma good_symbol gen ls e : good 1 ls (gen e) → good 1 ls (symbol_code gen e).
Proof. intros Hg. destruct e; try done. destruct v; try done. cg_start. unfold symbol_code. cg_done. Qed.

Lemma good_arg_list ls args : Forall (λ a : bool * CG unit, good 1 ls a.2) args → good 1 ls (arg_list args).
Proof.
  intros Hf. destruct Hf as [|[sp m] args Ha Hf]; cg_start; cbn [arg_list].
  - cg_done.
  - assert (good 0 ls (each (λ '((splice, gen) : bool * CG unit),
      gen;; emit (if splice then Op.ListAppend else Op.ListAddTail);; pop_stack 1) args)).
    { apply good_each0. eapply Forall_impl; [exact Hf|]. intros [b g] Hg. cbn in Hg.
      cg_start. destruct b; cg_done. }
    cbn in Ha. destruct sp; cg_done.
Qed.

Lemma good_args gen ls args :
  (∀ a, a ∈ args → match a with Normal e | Splice e => good 1 ls (gen e) end) →
  Forall (λ a : bool * CG unit, good 1 ls a.2) (map (arg_code gen) args).
Proof.
  intros Hf. rewrite Forall_map, Forall_forall. intros a Ha.
  specialize (Hf a Ha). by destruct a.
Qed.

Lemma good_advance ls n : good 0 ls (advance_comprehension_position n).
Proof. cg_start. unfold advance_comprehension_position. cg_done. Qed.

Lemma good_comprehension gen ls producer filter n l :
  good 1 ls (gen producer) → (∀ f, filter = Some f → good 1 ls (gen f)) →
  good 0 ls (comprehension_body gen producer filter n l).
Proof.
  intros Hp Hf. cg_start. pose proof (good_advance ls n). unfold comprehension_body.
  destruct filter as [f|]; [specialize (Hf f eq_refl)|]; cg_done.
Qed.

Ltac by_view :=
  repeat match goal with Hv : view _ = _ |- _ => cbv [view] in Hv; injection Hv; clear Hv; intros end;
  try (cbv [view]; cbn); congruence.

(** Labels still bound later. *)
Definition known_label (s : CodegenState) (d : option Label) : Prop :=
  match d with Some l => (Z.to_nat l < njumps s)%nat | None => True end.

Lemma known_label_mono s s' d : (njumps s ≤ njumps s')%nat → known_label s d → known_label s' d.
Proof. destruct d; simpl; lia. Qed.

Lemma known_labels_mono s s' ds :
  (njumps s ≤ njumps s')%nat → Forall (known_label s) ds → Forall (known_label s') ds.
Proof. intros ? Hf. eapply Forall_impl; [exact Hf|]. intros ?. by apply known_label_mono. Qed.

Lemma wp_scatter_labels gen items : ∀ ls s lps lam cur saved sc,
  forallb (item_ok table gen) items = true →
  at_ ls s lps lam cur saved sc →
  wp (scatter_labels items)
    (λ '(_, ds) s', at_ ls s' lps lam cur saved sc ∧ (njumps s ≤ njumps s')%nat
                    ∧ Forall (known_label s') ds) s.
Proof.
  induction items as [|i items IH]; intros ls s lps lam cur saved sc Hok (? & ? & ? & ?);
    cbn [scatter_labels].
  - cg. split_and!; [cg_at|lia|constructor].
  - cbn in Hok. unfold item_ok at 1 in Hok.
    apply andb_prop in Hok as [[Hi _]%andb_prop Hok].
    apply cg_wp_bind.
    eapply (cg_wp_mono _ (λ d s', at_ ls s' lps lam cur saved sc ∧ (njumps s ≤ njumps s')%nat
                               ∧ known_label s' d)).
    { destruct (si_kind i), (si_expr i); cg; (split_and!; [cg_at|lia|done]). }
    intros d s1 ((? & ? & ? & ?) & ? & Hd). cg.
    eapply cg_wp_mono; [apply IH; [done|cg_at]|].
    intros [labels ds] s2 (Hat & ? & Hds). apply cg_wp_ret.
    split_and!; [done|lia|]. constructor; [by eapply known_label_mono|done].
Qed.

Lemma good_defaults gen ls items :
  (∀ i e, i ∈ items → si_expr i = Some e → good 1 ls (gen e)) →
  (∀ i, i ∈ items → declared table (si_id i) = true) →
  ∀ ds s lps lam cur saved sc,
  at_ ls s lps lam cur saved sc → Forall (known_label s) ds →
  wp (each2 (default_code gen) items ds)
    (λ _ s', at_ ls s' lps lam cur saved sc ∧ (njumps s ≤ njumps s')%nat) s.
Proof.
  induction items as [|i items IH]; intros Hg Hd [|d ds] s lps lam cur saved sc
    (? & ? & ? & ?) Hk; cbn [each2]; try (cg; (split; [cg_at|lia])).
  apply Forall_cons in Hk as [Hk Hks].
  assert (Hi : declared table (si_id i) = true) by (apply Hd; constructor).
  apply cg_wp_bind. eapply (cg_wp_mono _ (λ _ s', at_ ls s' lps lam cur saved sc ∧ (njumps s ≤ njumps s')%nat)).
  - unfold default_code. destruct d as [l|], (si_expr i) as [e|] eqn:He; try cg_done.
    assert (Hge : good 1 ls (gen e)) by (apply (Hg i); [constructor|done]).
    cbn in Hk. cg_done.
  - intros [] s1 ((? & ? & ? & ?) & ?). eapply cg_wp_mono.
    + apply IH; [intros; eapply Hg; [by right|done]|intros; apply Hd; by right|cg_at|].
      by eapply known_labels_mono.
    + intros [] s2 [? ?]. split; [done|lia].
Qed.

Lemma wp_param_labels gen items : ∀ ls s lps lam cur saved sc,
  forallb (item_ok table gen) items = true →
  at_ ls s lps lam cur saved sc →
  wp (param_labels items)
    (λ _ s', at_ ls s' lps lam cur saved sc ∧ (njumps s ≤ njumps s')%nat) s.
Proof.
  induction items as [|i items IH]; intros ls s lps lam cur saved sc Hok (? & ? & ? & ?);
    cbn [param_labels].
  - cg_done.
  - cbn in Hok. unfold item_ok at 1 in Hok.
    apply andb_prop in Hok as [[Hi _]%andb_prop Hok].
    cg. eapply cg_wp_mono; [apply IH; [done|cg_at]|]. intros ds s2 [? ?]. by apply cg_wp_ret.
Qed.

Lemma good_param_default gen ls i :
  declared table (si_id i) = true → (∀ e, si_expr i = Some e → good 1 ls (gen e)) →
  good 0 ls (param_default gen i).
Proof.
  intros Hi Hg. cg_start. unfold param_default.
  destruct (si_kind i), (si_expr i) as [e|] eqn:He; try cg_done.
  specialize (Hg e eq_refl). cg_done.
Qed.

Lemma at_rest_true s lps lam :
  view s = mkView table names flag lps lam 0 None 0 → at_rest s = true.
Proof. unfold at_rest. cbv [view]. intros [= _ _ _ _ _ -> -> ->]. done. Qed.

Lemma wp_lambda_program gen gen_body ls params n s lps lam cur saved sc :
  Forall (λ p, good 0 ls (param_default gen p)) params → good 0 ls gen_body →
  at_ ls s lps lam cur saved sc →
  wp (lambda_body_program gen gen_body params n)
    (λ _ s', at_ ls s' lps lam cur saved sc ∧ njumps s' = njumps s) s.
Proof.
  intros Hparams Hbody (Hs & ? & ? & ?). apply good_each0 in Hparams.
  assert (Hin : at_ ls (lambda_stash s) lps lam 0 None 0).
  { split_and!; [|lia|lia|done]. by_view. }
  unfold lambda_body_program. cg_step. apply cg_wp_get. apply cg_wp_bind. unfold put, wp at 1.
  apply cg_wp_bind. eapply wp_good; [exact Hparams|exact Hin|]. intros s1 Hs1 _ _.
  apply cg_wp_bind. eapply wp_good; [exact Hbody|split_and!; [exact Hs1|lia|lia|done]|].
  intros s2 Hs2 _ _. apply cg_wp_bind, cg_wp_get. rewrite (at_rest_true s2 _ _ Hs2).
  apply cg_wp_bind. unfold put, wp at 1. apply cg_wp_ret. split; [|done]. split_and!; try done.
  by_view.
Qed.

Lemma wp_fork_body gen_body ls s lps lam cur saved sc :
  good 0 ls gen_body → at_ ls s lps lam cur saved sc →
  wp (fork_body gen_body)
    (λ _ s', at_ ls s' lps lam cur saved sc ∧ (njumps s ≤ njumps s')%nat) s.
Proof.
  intros Hbody (Hs & ? & ? & ?).
  assert (Hin : at_ ls (fork_stash s) lps lam 0 None 0).
  { split_and!; [|lia|lia|done]. by_view. }
  unfold fork_body. cg_step. apply cg_wp_get. apply cg_wp_bind. unfold put, wp at 1.
  apply cg_wp_bind. eapply wp_good; [exact Hbody|exact Hin|]. intros s1 Hs1 _ Hj. cg_step.
  apply wp_emit; [by rewrite Hs1|]. intros s2 [Hs2 ?]. rewrite Hs1 in Hs2.
  apply cg_wp_bind, cg_wp_get. rewrite (at_rest_true s2 _ _ Hs2).
  apply cg_wp_bind. unfold put, wp at 1. apply cg_wp_ret.
  split; [|unfold njumps in *; cbn in *; lia]. split_and!; try done. cbv [vadd] in Hs2. by_view.
Qed.

Lemma wp_set_lambda n (Q : unit → CodegenState → Prop) s :
  (∀ s', step (vlambda n) s s' → Q tt s') → wp (set_lambda_scope_depth n) Q s.
Proof. intros HQ. by apply HQ. Qed.

Lemma good_captures ls (l : list Name) : good 0 ls (each (λ n, emit (Op.Capture n)) l).
Proof. apply good_each0, Forall_forall. intros n _. cg_start. cg_done. Qed.

Lemma good_lambda gen gen_body ls params body n :
  Forall (λ p, good 0 ls (param_default gen p)) params →
  forallb (item_ok table (expr_ok table ls)) params = true →
  good 0 ls gen_body →
  good 1 ls (lambda_code gen gen_body params body n).
Proof.
  intros Hparams Hok Hbody. pose proof (good_captures ls) as Hcap.
  intros s lps lam cur saved sc (Hs & ? & ? & ?).
  assert (lambda_scope_depth (control s) = lam) as Hlam by by_view.
  unfold lambda_code. cg_step. apply cg_wp_get. cg_step. apply wp_set_lambda. cg_intro. cg_step.
  eapply cg_wp_mono; [eapply wp_param_labels; [exact Hok|cg_at]|].
  intros labels s1 ((? & ? & ? & ?) & ?). do 5 cg_step.
  eapply cg_wp_mono; [eapply wp_lambda_program; [done|done|cg_at]|].
  intros prg s2 ((? & ? & ? & ?) & ?). do 3 cg_step. apply wp_set_lambda. cg_intro.
  do 2 cg_step. case_match; [|cg]. rewrite Hlam in *.
  match goal with |- wp (bind (each _ ?l) _) _ _ => specialize (Hcap l) end. cg_done.
Qed.

Lemma wp_find_opt_name v (Q : option Name → CodegenState → Prop) s :
  opt_ok (declared (v_table (view s))) v = true →
  Q (v ≫= name_of (v_table (view s))) s → wp (find_opt_name v) Q s.
Proof.
  destruct v as [v|]; cbn [find_opt_name opt_ok]; [|done]. intros Hd HQ. apply cg_wp_bind, wp_find_name; [done|].
  intros n Hn. apply cg_wp_ret. cbn in HQ. unfold name_of in HQ. cbn in Hn. by rewrite Hn in HQ.
Qed.

(** A fork takes its delay from the stack. *)
Lemma wp_fork_code gen_body ls v s lps lam cur saved sc :
  good 0 ls gen_body → opt_ok (declared table) v = true →
  at_ ls s lps lam (cur + 1) saved sc → 0 ≤ cur →
  wp (fork_code gen_body v)
    (λ _ s', at_ ls s' lps lam cur saved sc ∧ (njumps s ≤ njumps s')%nat) s.
Proof.
  intros Hbody Hv (Hs & ? & ? & ?) ?. unfold fork_code. cg_step. apply cg_wp_get. cg_step.
  eapply cg_wp_mono; [eapply wp_fork_body; [done|cg_at]|]. intros inner s1 ((? & ? & ? & ?) & ?).
  do 3 cg_step. apply wp_find_opt_name; [cg_side|]. cg_done.
Qed.

(** The body of a loop, whose last part leaves the scope the loop entered. *)
Lemma wp_loop_code name top bottom gen_body finish ls s lps lam cur saved sc :
  good 0 (ls ++ [name]) gen_body →
  (∀ s lps, at_ (ls ++ [name]) s lps lam cur saved (sc + 1) →
     wp finish (λ _ s', at_ (ls ++ [name]) s' lps lam cur saved sc ∧ (njumps s ≤ njumps s')%nat) s) →
  at_ ls s lps lam cur saved (sc + 1) → 0 ≤ sc → (Z.to_nat bottom < njumps s)%nat →
  wp (loop_code name top bottom gen_body finish)
    (λ _ s', at_ ls s' lps lam cur saved sc ∧ (njumps s ≤ njumps s')%nat) s.
Proof.
  intros Hbody Hfin (Hs & ? & ? & Hls) ??. unfold loop_code. do 4 cg_step.
  assert (map loop_name (lps ++ [mkLoopFrame name top (as_u16 cur) bottom (as_u16 cur)]) = ls ++ [name])
    by (rewrite map_app, Hls; done).
  cg_step. eapply wp_good; [exact Hbody|split_and!; [eassumption|lia|lia|done]|].
  intros s2 ? _ ?. cg_step. eapply cg_wp_mono; [apply Hfin; split_and!; [|lia|lia|done]|].
  { etransitivity; [eassumption|]. f_equal; lia. }
  intros [] s3 ((? & ? & ? & ?) & ?). do 2 cg_step. apply wp_pop_loop. cg_intro.
  split; [|lia]. split_and!; try done. etransitivity; [eassumption|].
  f_equal. by rewrite removelast_last.
Qed.

(** The arms of a [try]: their labels are bound later. *)
Lemma wp_except_codes gen ls arms : ∀ s lps lam cur saved sc,
  (∀ a, a ∈ arms → good 1 ls (codes_code gen (xa_codes a))) →
  at_ ls s lps lam cur saved sc →
  wp (except_codes gen arms)
    (λ l s', at_ ls s' lps lam (cur + Z.of_nat (length arms)) saved sc
             ∧ (njumps s ≤ njumps s')%nat
             ∧ Forall (λ x, (Z.to_nat x < njumps s')%nat) l) s.
Proof.
  induction arms as [|a arms IH]; intros s lps lam cur saved sc Hg (? & ? & ? & ?);
    cbn [except_codes length].
  - cg. split_and!; [cg_at|lia|constructor].
  - assert (Ha : good 1 ls (codes_code gen (xa_codes a))) by (apply Hg; constructor).
    do 7 cg_step. eapply cg_wp_mono; [apply IH; [intros; apply Hg; by right|cg_at]|].
    intros l' s3 ((? & ? & ? & ?) & ? & Hl). apply cg_wp_ret.
    split_and!; [cg_at|lia|]. constructor; [lia|]. exact Hl.
Qed.

Lemma wp_except_arms gen ls end_label arms : ∀ labels s lps lam cur saved sc,
  (∀ a, a ∈ arms → Forall (λ x, good 0 ls (gen x)) (xa_statements a)) →
  forallb (λ a, opt_ok (declared table) (xa_id a)) arms = true →
  Forall (λ x, (Z.to_nat x < njumps s)%nat) labels →
  at_ ls s lps lam cur saved sc →
  wp (except_arms gen end_label arms labels)
    (λ _ s', at_ ls s' lps lam cur saved sc ∧ (njumps s ≤ njumps s')%nat) s.
Proof.
  induction arms as [|a arms IH]; intros [|l labels] s lps lam cur saved sc Hg Hids Hl
    (? & ? & ? & ?); cbn [except_arms]; try (cg_done).
  cbn in Hids. apply andb_prop in Hids as [Hid Hids]. apply Forall_cons in Hl as [Hl Hls].
  assert (Hbody : good 0 ls (each gen (xa_statements a))).
  { apply good_each0, Hg. constructor. }
  do 4 cg_step.
  apply cg_wp_bind. eapply (cg_wp_mono _ (λ _ s', at_ ls s' lps lam (cur + 1) saved sc
                                     ∧ (njumps s ≤ njumps s')%nat)).
  { destruct (xa_id a); cbn in Hid; cg_done. }
  intros [] s1 ((? & ? & ? & ?) & ?). do 6 cg_step.
  apply cg_wp_bind. eapply (cg_wp_mono _ (λ _ s', at_ ls s' lps lam cur saved sc
                                     ∧ (njumps s ≤ njumps s')%nat)).
  { destruct arms; cg_done. }
  intros [] s2 ((? & ? & ? & ?) & ?).
  eapply cg_wp_mono; [apply IH; [intros; apply Hg; by right|done| |cg_at]|].
  - eapply Forall_impl; [exact Hls|]. cbn. intros. lia.
  - intros [] s3 [? ?]. split; [done|lia].
Qed.

(** ** Assignments *)

(** What [push_lvalue] accepts, without a range below another place. *)
Fixpoint storable (nested : bool) (e : Expr) : bool :=
  match e with
  | ERange b _ _ => negb nested && storable true b
  | EIndex l _ => storable true l
  | EId v => declared table v
  | EProp l _ => if is_assignable_expr l then storable true l else true
  | _ => false
  end.

Lemma footprint_nonneg e b : 0 ≤ lvalue_stack_footprint e b.
Proof.
  revert b. induction e; intros b; cbn [lvalue_stack_footprint]; try lia.
  - destruct b; lia.
  - destruct (is_assignable_expr _); [specialize (IHe1 true)|]; destruct b; lia.
  - specialize (IHe1 true). lia.
  - specialize (IHe1 true). destruct b; lia.
Qed.

Definition block_ok (base : Z) (s : CodegenState) (b : Label * Z * Z) : Prop :=
  let '(l, c, d) := b in (Z.to_nat l < njumps s)%nat ∧ d = base + c + 1 ∧ 0 ≤ c.

Lemma blocks_ok_mono base s s' bs :
  (njumps s ≤ njumps s')%nat → Forall (block_ok base s) bs → Forall (block_ok base s') bs.
Proof.
  intros ? Hf. eapply Forall_impl; [exact Hf|]. intros [[l c] d] (? & ? & ?). split_and!; lia.
Qed.

(** The copy of the value under the stores. *)
Definition copies (nested : bool) (e : Expr) : Z :=
  if nested then 0 else match e with EId _ => 0 | _ => 1 end.

Lemma wp_assign_stores e : ∀ nested blocks ls s lps lam base saved sc,
  storable nested e = true → 0 ≤ base →
  at_ ls s lps lam (base + lvalue_stack_footprint e nested + 1 + copies nested e) saved sc →
  Forall (block_ok base s) blocks →
  wp (assign_stores e nested blocks)
    (λ '(used, handled, blocks') s',
       at_ ls s' lps lam (base + 1 + (if used && negb handled then 1 else 0)) saved sc
       ∧ (njumps s ≤ njumps s')%nat ∧ Forall (block_ok base s') blocks') s.
Proof.
  induction e; intros nested blocks ls s lps lam base saved sc Hst Hbase (Hs & ? & ? & ?) Hb;
    cbn [storable] in Hst; try done; cbn [assign_stores lvalue_stack_footprint copies] in *.
  - (* a variable *)
    destruct nested; cbn [copies] in *; cg;
      (cbn [andb negb]; split; [cg_at|split; [lia|eapply blocks_ok_mono, Hb; lia]]).
  - (* a property *)
    pose proof (footprint_nonneg e1 true) as Hf.
    set (f := if is_assignable_expr e1 then lvalue_stack_footprint e1 true else 1) in *.
    set (c := base + (f + 1 + (if nested then 1 else 0)) + 1 + copies nested (EProp e1 e2)) in *.
    assert (Hc : c - 2 = base + f + 1) by (subst c; destruct nested; cbn; lia).
    assert (0 ≤ f) by (subst f; destruct (is_assignable_expr e1); lia).
    clearbody c. do 6 cg_step.
    destruct (is_assignable_expr e1); subst f.
    + destruct (match e1 with EProp _ _ => true | _ => false end); cbv iota; do 2 cg_step.
      * do 2 cg_step. eapply cg_wp_mono.
        { eapply (IHe1 true _ ls _ lps lam base saved sc); [exact Hst|exact Hbase|cbn [copies]; cg_at|].
          apply Forall_app. split; [eapply blocks_ok_mono, Hb; lia|].
          constructor; [|constructor]. cbn [block_ok].
          repeat match goal with Hv : view ?s = _ |- context [view ?s] => rewrite Hv end.
          cbn [v_cur]. split_and!; lia. }
        intros [[u h] bs] s3 (? & ? & ?). split; [done|split; [lia|done]].
      * eapply cg_wp_mono.
        { eapply (IHe1 true _ ls _ lps lam base saved sc); [exact Hst|exact Hbase|cbn [copies]; cg_at|eapply blocks_ok_mono, Hb; lia]. }
        intros [[u h] bs] s3 (? & ? & ?). split; [done|split; [lia|done]].
    + destruct (match e1 with EProp _ _ => true | _ => false end); cbv iota; cg;
        (cbn [andb negb]; split; [cg_at|split; [lia|eapply blocks_ok_mono, Hb; lia]]).
  - (* a range *)
    apply andb_prop in Hst as [Hn Hst]. destruct nested; [done|]. cbn [copies] in *.
    pose proof (footprint_nonneg e1 true). do 4 cg_step.
    eapply cg_wp_mono.
    { eapply (IHe1 true _ ls _ lps lam base saved sc); [exact Hst|exact Hbase|cbn [copies]; cg_at|eapply blocks_ok_mono, Hb; lia]. }
    intros [[u h] bs] s3 (? & ? & ?). split; [done|split; [lia|done]].
  - (* an index *)
    unfold copies in * |-. pose proof (footprint_nonneg e1 true).
    assert (Hc : base + (lvalue_stack_footprint e1 true + 1 + (if nested then 1 else 0)) + 1
                 + (if nested then 0 else 1) - 2 = base + lvalue_stack_footprint e1 true + 1)
      by (destruct nested; lia).
    do 4 cg_step. eapply cg_wp_mono.
    { eapply (IHe1 true _ ls _ lps lam base saved sc); [exact Hst|exact Hbase|cbn [copies]; cg_at|eapply blocks_ok_mono, Hb; lia]. }
    intros [[u h] bs] s3 (? & ? & ?). split; [done|split; [lia|done]].
Qed.

Lemma wp_pops n ls s lps lam cur saved sc :
  0 ≤ n → 0 ≤ cur → at_ ls s lps lam (cur + n + 1) saved sc →
  wp (pops n) (λ _ s', at_ ls s' lps lam cur saved sc ∧ (njumps s ≤ njumps s')%nat) s.
Proof.
  intros Hn Hcur. unfold pops.
  replace (cur + n + 1) with (cur + Z.of_nat (Z.to_nat (n + 1))) by lia.
  generalize (Z.to_nat (n + 1)) as m. generalize 0%nat as i. intros i m. revert i s.
  induction m as [|m IH]; intros i s (Hs & ? & ? & ?); cbn [seq each].
  - cg_done.
  - do 4 cg_step. eapply cg_wp_mono; [apply IH; cg_at|]. intros [] s3 [? ?]. split; [done|lia].
Qed.

Lemma wp_short_circuit done_label base b ls s lps lam saved sc :
  0 ≤ base → block_ok base s b → (Z.to_nat done_label < njumps s)%nat →
  at_ ls s lps lam (base + 1) saved sc →
  wp (short_circuit_block done_label (base + 1) b)
    (λ _ s', at_ ls s' lps lam (base + 1) saved sc ∧ (njumps s ≤ njumps s')%nat) s.
Proof.
  destruct b as [[l c] d]. intros Hb (? & -> & ?) ? (Hs & ? & ? & ?). unfold short_circuit_block.
  do 6 cg_step. apply cg_wp_bind. eapply cg_wp_mono; [apply (wp_pops c ls _ lps lam base saved sc); try lia; cg_at|].
  intros [] s3 ((? & ? & ? & ?) & ?). cg_done.
Qed.

Lemma wp_blocks done_label base bs : ∀ ls s lps lam saved sc,
  0 ≤ base → Forall (block_ok base s) bs → (Z.to_nat done_label < njumps s)%nat →
  at_ ls s lps lam (base + 1) saved sc →
  wp (each (short_circuit_block done_label (base + 1)) bs)
    (λ _ s', at_ ls s' lps lam (base + 1) saved sc ∧ (njumps s ≤ njumps s')%nat) s.
Proof.
  induction bs as [|b bs IH]; intros ls s lps lam saved sc Hbase Hbs Hl Hat; cbn [each].
  - apply cg_wp_ret. split; [done|lia].
  - apply Forall_cons in Hbs as [Hb Hbs]. apply cg_wp_bind.
    eapply cg_wp_mono; [by apply (wp_short_circuit done_label base b ls s lps lam saved sc)|].
    intros [] s1 [Hat1 ?]. eapply cg_wp_mono.
    { apply IH; [done|eapply blocks_ok_mono, Hbs; lia|lia|done]. }
    intros [] s2 [? ?]. split; [done|lia].
Qed.

Lemma wp_finish_assign e ls s lps lam base saved sc :
  storable false e = true → 0 ≤ base →
  at_ ls s lps lam (base + lvalue_stack_footprint e false + 1) saved sc →
  wp (finish_assign e)
    (λ _ s', at_ ls s' lps lam (base + 1) saved sc ∧ (njumps s ≤ njumps s')%nat) s.
Proof.
  intros Hst Hb (Hs & ? & ? & ?). unfold finish_assign. apply cg_wp_bind.
  eapply (cg_wp_mono _ (λ _ s', at_ ls s' lps lam (base + lvalue_stack_footprint e false + 1
     + copies false e) saved sc ∧ (njumps s ≤ njumps s')%nat)).
  { destruct e; try done; cbn [copies]; cg_done. }
  intros [] s1 (Hat & ?). apply cg_wp_bind. eapply cg_wp_mono.
  { by apply (wp_assign_stores e false [] ls s1 lps lam base saved sc). }
  intros [[used handled] blocks] s2 ((? & ? & ? & ?) & ? & Hblocks). apply cg_wp_bind.
  eapply (cg_wp_mono _ (λ _ s', at_ ls s' lps lam (base + 1) saved sc ∧ (njumps s2 ≤ njumps s')%nat)).
  { destruct (used && negb handled); cg_done. }
  intros [] s3 ((? & ? & ? & ?) & ?). destruct Hblocks as [|b blocks Hb1 Hbs]; [cg_done|].
  do 6 cg_step. apply cg_wp_bind.
  eapply cg_wp_mono.
  { rewrite Z.add_0_r.
    apply (wp_blocks l base (b :: blocks) ls s'0 lps lam saved sc); [done| |lia|cg_at].
    eapply blocks_ok_mono; [|by constructor]. lia. }
  intros [] s4 ((? & ? & ? & ?) & ?). cg_done.
Qed.

(** ** The generator *)

Section subtrees.
Variable P : Expr → Prop.
Variable ls : list (option Name).
Variable ok : Expr → bool.
Variable gen : Expr → CG unit.
Hypothesis P_good : ∀ e, P e → ok e = true → good 1 ls (gen e).

Lemma args_good args :
  list_all (Arg Expr) (Arg_all Expr P) args → forallb (arg_ok ok) args = true →
  Forall (λ a : bool * CG unit, good 1 ls a.2) (map (arg_code gen) args).
Proof.
  intros Hall Hok. apply (list_all_Forall _ _ _ (Arg_all_elim P)) in Hall.
  rewrite Forall_forall in Hall. rewrite forallb_forall in Hok. apply good_args. intros a Ha.
  specialize (Hall a Ha). specialize (Hok a (proj1 (list_elem_of_In _ _) Ha)). destruct a; auto.
Qed.

Lemma codes_good c :
  CatchCodes_all Expr P c → codes_ok ok c = true → good 1 ls (codes_code gen c).
Proof.
  destruct 1; cbn [codes_ok codes_code]; [intros; by apply good_arg_list, args_good|]. intros _. cg_start. cg_done.
Qed.

Lemma option_good x e :
  option_all Expr P x → opt_ok ok x = true → x = Some e → good 1 ls (gen e).
Proof. intros Hall Hok ->. inversion Hall. auto. Qed.

Lemma item_default_good items i e :
  list_all (ScatterItem Expr) (ScatterItem_all Expr P) items →
  forallb (item_ok table ok) items = true →
  i ∈ items → si_expr i = Some e → good 1 ls (gen e).
Proof.
  intros Hall Hok Hi He.
  apply (list_all_Forall _ (λ i, ∀ e, si_expr i = Some e → P e)) in Hall;
    [|intros ???; by eapply ScatterItem_all_elim].
  rewrite Forall_forall in Hall. rewrite forallb_forall in Hok.
  specialize (Hok i (proj1 (list_elem_of_In _ _) Hi)). apply andb_prop in Hok as [_ Hok].
  rewrite He in Hok. by eauto.
Qed.

Lemma item_declared items i :
  forallb (item_ok table ok) items = true → i ∈ items → declared table (si_id i) = true.
Proof.
  rewrite forallb_forall. intros Hok Hi.
  apply list_elem_of_In, Hok, andb_prop in Hi. apply Hi.
Qed.
End subtrees.

Lemma stmts_good (P : Stmt → Prop) (ok : Stmt → bool) (gen : Stmt → CG unit) ls body :
  (∀ s, P s → ok s = true → good 0 ls (gen s)) →
  list_all Stmt P body → forallb ok body = true → Forall (λ s, good 0 ls (gen s)) body.
Proof.
  intros Hg Hall Hok. apply list_all_prop in Hall.
  rewrite Forall_forall in *. rewrite forallb_forall in Hok. intros s Hs.
  apply Hg; [by apply Hall|by apply Hok, list_elem_of_In].
Qed.

(** What [push_lvalue] does on a place it accepts. *)
Definition good_lvalue (ls : list (option Name)) (nested : bool) (e : Expr) (m : CG unit) : Prop :=
  ∀ s lps lam cur saved sc, at_ ls s lps lam cur saved sc →
  wp m (λ _ s', storable nested e = true
                ∧ at_ ls s' lps lam (cur + lvalue_stack_footprint e nested) saved sc
                ∧ (njumps s ≤ njumps s')%nat) s.

Definition expr_good (e : Expr) : Prop := ∀ src ls,
  (expr_ok table ls e = true → good 1 ls (generate_expr src e)) ∧
  (∀ nested, lvalue_ok table ls nested e = true →
             good_lvalue ls nested e (push_lvalue src e nested)).

Definition node_good (n : StmtNode) : Prop := ∀ src ls,
  node_ok table ls n = true → good 0 ls (generate_node src n).

Definition stmt_good (s : Stmt) : Prop := ∀ src ls,
  stmt_ok table ls s = true → good 0 ls (generate_stmt src s).

Ltac ok_split :=
  repeat match goal with H : (_ && _)%bool = true |- _ => apply andb_prop in H as [? ?] end.

(** Uses the induction hypotheses on the direct subtrees. *)
Ltac use_ih :=
  ok_split;
  repeat match goal with
  | IH : expr_good ?e, Hok : expr_ok table ?ls ?e = true |- _ =>
      let Hg := fresh "Hg" in
      assert (Hg : ∀ src, good 1 ls (generate_expr src e)) by (intros src0; by apply (IH src0 ls));
      clear Hok
  end.

Ltac pick src := repeat match goal with Hg : ∀ src, good _ _ (_ src _) |- _ => specialize (Hg src) end.

Ltac no_lvalue := intros ? ?; cg_start; cbn [push_lvalue]; cg.


Ltac simple_expr :=
  intros src ls; split; [|no_lvalue];
  cbn [expr_ok]; intros Hok; use_ih; pick src; cg_start; cbn [generate_expr]; cg_done.

Lemma expr_good_binary op l r : expr_good l → expr_good r → expr_good (EBinary op l r).
Proof. intros ??. simple_expr. Qed.
Lemma expr_good_and l r : expr_good l → expr_good r → expr_good (EAnd l r).
Proof. intros ??. simple_expr. Qed.
Lemma expr_good_or l r : expr_good l → expr_good r → expr_good (EOr l r).
Proof. intros ??. simple_expr. Qed.
Lemma expr_good_cond c a b : expr_good c → expr_good a → expr_good b → expr_good (ECond c a b).
Proof. intros ???. simple_expr. Qed.
Lemma expr_good_unary op e : expr_good e → expr_good (EUnary op e).
Proof. intros ?. simple_expr. Qed.
Lemma expr_good_length : expr_good ELength.
Proof. intros src ls. split; [|no_lvalue]. intros _. cg_start. cbn [generate_expr]. cg_step. cg_step. cg_step. destruct o; cg_done. Qed.
Lemma expr_good_index l r : expr_good l → expr_good r → expr_good (EIndex l r).
Proof.
  intros IHl IHr src ls. split.
  - cbn [expr_ok]; intros Hok; use_ih; pick src. cg_start; cbn [generate_expr]; cg_done.
  - intros nested. cbn [lvalue_ok]. intros Hok. use_ih. pick src.
    pose proof (proj2 (IHl src ls) true) as Hl.
    intros s lps lam cur saved sc Hat. cbn [push_lvalue lvalue_stack_footprint storable].
    apply cg_wp_bind. eapply cg_wp_mono; [by eapply Hl|].
    intros [] s1 (Hst & (? & ? & ? & ?) & ?). rewrite Hst. destruct nested; cg;
      (split; [done|split; [cg_at|lia]]).
Qed.
Lemma expr_good_range b f t : expr_good b → expr_good f → expr_good t → expr_good (ERange b f t).
Proof.
  intros IHb IHf IHt src ls. split.
  - cbn [expr_ok]; intros Hok; use_ih; pick src. cg_start; cbn [generate_expr]; cg_done.
  - intros nested. cbn [lvalue_ok]. intros Hok. use_ih. pick src.
    pose proof (proj2 (IHb src ls) true) as Hl.
    intros s lps lam cur saved sc Hat. cbn [push_lvalue lvalue_stack_footprint storable].
    apply cg_wp_bind. eapply cg_wp_mono; [by eapply Hl|].
    intros [] s1 (-> & (? & ? & ? & ?) & ?). cg.
      (split; [by destruct nested|split; [cg_at|lia]]).
Qed.
Lemma expr_good_id v : expr_good (EId v).
Proof.
  intros src ls. split.
  - cbn [expr_ok]; intros Hok. cg_start; cbn [generate_expr]; cg_done.
  - intros nested. cbn [lvalue_ok]. intros Hok.
    cg_start. cbn [push_lvalue lvalue_stack_footprint storable].
    rewrite Hok. destruct nested; cg; (split; [done|split; [cg_at|lia]]).
Qed.
Lemma expr_good_prop l p : expr_good l → expr_good p → expr_good (EProp l p).
Proof.
  intros IHl IHp src ls.
  assert (Hsym : expr_ok table ls p = true → good 1 ls (symbol_code (generate_expr src) p)).
  { intros Hp. apply good_symbol. by apply IHp. }
  split.
  - cbn [expr_ok]; intros Hok; ok_split. specialize (Hsym ltac:(done)). use_ih; pick src.
    cg_start; cbn [generate_expr]; cg_done.
  - intros nested. cbn [lvalue_ok]. intros Hok. ok_split. specialize (Hsym ltac:(done)).
    intros s lps lam cur saved sc Hat. cbn [push_lvalue lvalue_stack_footprint storable].
    apply cg_wp_bind. eapply (cg_wp_mono _ (λ _ s', (if is_assignable_expr l then storable true l else true) = true ∧
      at_ ls s' lps lam (cur + (if is_assignable_expr l then lvalue_stack_footprint l true else 1)) saved sc
      ∧ (njumps s ≤ njumps s')%nat)).
    { destruct (is_assignable_expr l); [by eapply (IHl src ls)|]. use_ih; pick src.
      eapply wp_good; [eassumption|exact Hat|]. intros s1 ? ? ?. destruct Hat as (? & ? & ? & ?).
      split; [done|split; [cg_at|lia]]. }
    intros [] s1 (-> & (? & ? & ? & ?) & ?). destruct nested; cg;
      (split; [done|split; [cg_at|lia]]).
Qed.

Notation args_hyp args := (list_all (Arg Expr) (Arg_all Expr expr_good) args).
Notation items_hyp items := (list_all (ScatterItem Expr) (ScatterItem_all Expr expr_good) items).

Lemma expr_good_use src ls e : expr_good e → expr_ok table ls e = true → good 1 ls (generate_expr src e).
Proof. intros IH. apply (IH src ls). Qed.

Lemma args_code src ls args :
  args_hyp args → forallb (arg_ok (expr_ok table ls)) args = true →
  Forall (λ a : bool * CG unit, good 1 ls a.2) (map (arg_code (generate_expr src)) args).
Proof. apply args_good. apply expr_good_use. Qed.

Lemma option_code src ls x e :
  option_all Expr expr_good x → opt_ok (expr_ok table ls) x = true → x = Some e →
  good 1 ls (generate_expr src e).
Proof. apply (option_good expr_good). apply expr_good_use. Qed.

Ltac start_expr src ls := intros src ls; split; [cbn [expr_ok]; intros Hok; use_ih; pick src|no_lvalue].

Lemma expr_good_value v : expr_good (EValue v).
Proof. start_expr src ls. apply good_value. Qed.
Lemma expr_good_type t : expr_good (ETypeConstant t).
Proof.
  intros src ls. split; [|no_lvalue]. intros _. cg_start. cbn [generate_expr]. cg_done.
Qed.
Lemma expr_good_error c x : option_all Expr expr_good x → expr_good (EError c x).
Proof.
  intros Hx. start_expr src ls. destruct x as [x|]; cg_start; cbn [generate_expr].
  - pose proof (option_code src ls _ x Hx Hok eq_refl). cg_done.
  - cg_done.
Qed.
Lemma expr_good_pass args : args_hyp args → expr_good (EPass args).
Proof.
  intros Ha. start_expr src ls. pose proof (good_arg_list _ _ (args_code src ls _ Ha Hok)).
  cg_start. cbn [generate_expr]. cg_done.
Qed.
Lemma expr_good_list args : args_hyp args → expr_good (EList args).
Proof. intros Ha. start_expr src ls. by apply good_arg_list, args_code. Qed.

Lemma expr_good_call f args :
  CallTarget_all Expr expr_good f → args_hyp args → expr_good (ECall f args).
Proof.
  intros Hf Ha. start_expr src ls. ok_split.
  pose proof (args_code src ls _ Ha ltac:(done)) as Hall. pose proof (good_arg_list _ _ Hall).
  destruct Hf as [b|e He].
  - cbn [generate_expr]. destruct (find_builtin b); [cg_start; cg_done|].
    assert (good 1 ls (arg_list ((false, generate_value (VSym b))
              :: map (arg_code (generate_expr src)) args))).
    { apply good_arg_list. constructor; [apply good_value|done]. }
    cg_start. cg_step. apply cg_wp_get. destruct (call_unsupported_builtins _) eqn:Hflag; [|cg].
    destruct call_function_known as [i ->]; [by_view|]. cg_done.
  - use_ih. pick src. cg_start. cbn [generate_expr]. cg_done.
Qed.

Lemma expr_good_verb l v args : expr_good l → expr_good v → args_hyp args → expr_good (EVerb l v args).
Proof.
  intros IHl IHv Ha. start_expr src ls.
  pose proof (good_arg_list _ _ (args_code src ls _ Ha ltac:(done))).
  assert (good 1 ls (symbol_code (generate_expr src) v)) by by apply good_symbol.
  cg_start. cbn [generate_expr]. cg_done.
Qed.

Lemma codes_hyp_good src ls c :
  CatchCodes_all Expr expr_good c → codes_ok (expr_ok table ls) c = true →
  good 1 ls (codes_code (generate_expr src) c).
Proof. apply (codes_good expr_good). apply expr_good_use. Qed.

Lemma expr_good_try t c x :
  expr_good t → CatchCodes_all Expr expr_good c → option_all Expr expr_good x →
  expr_good (ETryCatch t c x).
Proof.
  intros IHt Hc Hx. start_expr src ls. pose proof (codes_hyp_good src ls _ Hc ltac:(done)).
  cg_start. cbn [generate_expr]. destruct x as [x|].
  - pose proof (option_code src ls _ x Hx ltac:(done) eq_refl). cg_done.
  - cg_done.
Qed.

Lemma expr_good_map m : list_all (Expr * Expr) (prod_all Expr expr_good Expr expr_good) m → expr_good (EMap m).
Proof.
  intros Hm. start_expr src ls. apply (list_all_Forall _ _ _ (prod_all_both _ _)) in Hm.
  rewrite Forall_forall in Hm. rewrite forallb_forall in Hok.
  assert (good 0 ls (each (λ '(k, v), generate_expr src k;; generate_expr src v;;
            emit Op.MapInsert;; pop_stack 2) m)).
  { apply good_each0, Forall_forall. intros [k v] Hkv. destruct (Hm _ Hkv) as [IHk IHv].
    specialize (Hok _ (proj1 (list_elem_of_In _ _) Hkv)). cbn in *. use_ih. pick src.
    cg_start. cg_done. }
  cg_start. cbn [generate_expr]. cg_done.
Qed.

Lemma expr_good_flyweight d slots x :
  expr_good d → list_all (Symbol * Expr) (prod_all Symbol (λ _, unit) Expr expr_good) slots →
  option_all Expr expr_good x → expr_good (EFlyweight d slots x).
Proof.
  intros IHd Hs Hx. start_expr src ls. assert (Hs' : Forall (λ p, expr_good p.2) slots)
    by (eapply list_all_Forall; [|exact Hs]; apply prod_all_snd).
  clear Hs. rewrite Forall_forall in Hs'. rewrite forallb_forall in *.
  assert (good (2 * Z.of_nat (length slots)) ls
    (each (λ '(k, v), generate_expr src v;; generate_value (VStr (as_arc_str k))) slots)).
  { apply good_each; [lia|]. apply Forall_forall. intros [k v] Hkv. specialize (Hs' _ Hkv).
    assert (Hv : expr_ok table ls v = true) by
      match goal with Hok : ∀ _, _ |- _ => apply (Hok _ (proj1 (list_elem_of_In _ _) Hkv)) end.
    cbn in Hs'. use_ih. pick src. pose proof (good_value ls (VStr (as_arc_str k))). cg_start. cg_done. }
  cg_start. cbn [generate_expr]. destruct x as [x|].
  - pose proof (option_code src ls _ x Hx ltac:(done) eq_refl). cg_done.
  - cg_done.
Qed.

Lemma expr_good_decl v c x : option_all Expr expr_good x → expr_good (EDecl v c x).
Proof.
  intros Hx. start_expr src ls. pose proof (good_value ls (VInt 0)). destruct x as [x|].
  - pose proof (option_code src ls _ x Hx ltac:(done) eq_refl).
    cg_start. cbn [generate_expr]. cg_done.
  - cg_start. cbn [generate_expr]. cg_done.
Qed.

Lemma expr_good_return x : option_all Expr expr_good x → expr_good (EReturn x).
Proof.
  intros Hx. start_expr src ls. destruct x as [x|].
  - pose proof (option_code src ls _ x Hx ltac:(done) eq_refl).
    cg_start. cbn [generate_expr]. cg_done.
  - cg_start. cbn [generate_expr]. cg_done.
Qed.

Lemma expr_good_assign l r : expr_good l → expr_good r → expr_good (EAssign l r).
Proof.
  intros IHl IHr. start_expr src ls. pose proof (proj2 (IHl src ls) false ltac:(done)) as Hl.
  intros s lps lam cur saved sc Hat. cbn [generate_expr]. apply cg_wp_bind.
  eapply cg_wp_mono; [by eapply Hl|]. intros [] s1 (Hst & (? & ? & ? & ?) & ?).
  apply cg_wp_bind. eapply wp_good; [eassumption|cg_at|]. intros s2 ? ? ?.
  eapply cg_wp_mono; [apply (wp_finish_assign l ls s2 lps lam cur saved sc Hst); [apply Hat|cg_at]|].
  intros [] s3 [? ?]. split; [done|lia].
Qed.

Lemma expr_good_scatter items r d : items_hyp items → expr_good r → expr_good (EScatter items r d).
Proof.
  intros Hitems IHr. start_expr src ls.
  assert (Hd : ∀ i e, i ∈ items → si_expr i = Some e → good 1 ls (generate_expr src e)).
  { intros i e. eapply item_default_good; eauto. apply expr_good_use. }
  assert (Hn : ∀ i, i ∈ items → declared table (si_id i) = true).
  { intros i. by eapply item_declared. }
  cg_start. cbn [generate_expr]. do 3 cg_step.
  eapply cg_wp_mono; [eapply wp_scatter_labels; [eassumption|cg_at]|].
  intros [labels defaults] s2 ((? & ? & ? & ?) & ? & Hl). do 4 cg_step. apply cg_wp_bind.
  eapply (cg_wp_mono _ (λ _ s', at_ ls s' lps lam (cur + 1) saved sc ∧ (njumps s'0 ≤ njumps s')%nat)).
  { destruct d; cbn [opt_each]; cg_done. }
  intros [] s5 ((? & ? & ? & ?) & ?). do 3 cg_step.
  eapply cg_wp_mono; [eapply (good_defaults _ ls items Hd Hn); [cg_at|eapply known_labels_mono, Hl; lia]|].
  intros [] s6 ((? & ? & ? & ?) & ?). cg_done.
Qed.

Lemma next_label_ne n : as_u16 (Z.of_nat n) ≠ as_u16 (Z.of_nat (S n)).
Proof.
  unfold as_u16, wrap. change (2 ^ 16) with 65536.
  pose proof (Z.div_mod (Z.of_nat n) 65536). pose proof (Z.div_mod (Z.of_nat (S n)) 65536). lia.
Qed.

Lemma wp_make_label_exact n (Q : Label → CodegenState → Prop) s :
  (∀ l s', step (λ v, v) s s' → (Z.to_nat l < njumps s')%nat → l = as_u16 (Z.of_nat (njumps s)) →
           njumps s' = S (njumps s) → Q l s') →
  wp (make_jump_label n) Q s.
Proof.
  intros HQ. unfold make_jump_label, wp, bind, get, new_jump_label. apply HQ.
  - split; [done|]. unfold njumps; cbn. rewrite length_app. lia.
  - unfold njumps; cbn. rewrite length_app; cbn. unfold as_u16, wrap.
    pose proof (Z.mod_le (Z.of_nat (length (em_jumps (emitter s)))) (2 ^ 16)). lia.
  - done.
  - unfold njumps; cbn. rewrite length_app; cbn. lia.
Qed.

Lemma comprehension_good src ls p f n l :
  expr_good p → expr_ok table ls p = true → option_all Expr expr_good f →
  opt_ok (expr_ok table ls) f = true →
  good 0 ls (comprehension_body (generate_expr src) p f n l).
Proof.
  intros IHp Hp Hf Hfok. apply good_comprehension; [by apply expr_good_use|].
  intros x ->. by eapply option_code.
Qed.

Lemma expr_good_comprehend_range v r p x y f :
  expr_good p → expr_good x → expr_good y → option_all Expr expr_good f →
  expr_good (EComprehendRange v r p x y f).
Proof.
  intros IHp IHx IHy Hf. intros src ls; split; [|no_lvalue].
  cbn [expr_ok]. intros Hok. ok_split.
  assert (Hbody : ∀ n l, good 0 ls (comprehension_body (generate_expr src) p f n l))
    by (intros; by apply comprehension_good).
  use_ih. pick src. cg_start. cbn [generate_expr]. cg_step.
  apply wp_make_label_exact. intros l1 s1 [? ?] ? Hl1 Hj1. cg_state. cg_step.
  apply wp_make_label_exact. intros l2 s2 [? ?] ? Hl2 Hj2. cg_state.
  assert (Hne : l1 =? l2 = false).
  { apply Z.eqb_neq. subst l1 l2. rewrite Hj1. apply next_label_ne. }
  rewrite Hne. clear Hl1 Hl2. cg_step. cbv iota. cg.
  all: match goal with |- wp (comprehension_body _ _ _ ?n ?l) _ _ => specialize (Hbody n l) end.
  all: cg_done.
Qed.

Lemma expr_good_comprehend_list v q r p x f :
  expr_good p → expr_good x → option_all Expr expr_good f → expr_good (EComprehendList v q r p x f).
Proof.
  intros IHp IHx Hf. intros src ls; split; [|no_lvalue].
  cbn [expr_ok]. intros Hok. ok_split.
  assert (Hbody : ∀ n l, good 0 ls (comprehension_body (generate_expr src) p f n l))
    by (intros; by apply comprehension_good).
  use_ih. pick src. cg_start. cbn [generate_expr]. cg.
  all: match goal with |- wp (comprehension_body _ _ _ ?n ?l) _ _ => specialize (Hbody n l) end.
  all: cg_done.
Qed.

Notation stmts_hyp body := (list_all Stmt stmt_good body).

Lemma stmts_code src ls body :
  stmts_hyp body → forallb (stmt_ok table ls) body = true →
  Forall (λ s, good 0 ls (generate_stmt src s)) body.
Proof. apply stmts_good. intros s Hs. apply Hs. Qed.

Lemma body_code src ls body :
  stmts_hyp body → forallb (stmt_ok table ls) body = true →
  good 0 ls (each (generate_stmt src) body).
Proof. intros. by apply good_each0, stmts_code. Qed.

Lemma expr_good_lambda n params body self :
  items_hyp params → stmt_good body → expr_good (ELambda n params body self).
Proof.
  intros Hp Hb. intros src ls; split; [|no_lvalue]. cbn [expr_ok]. intros Hok. ok_split.
  assert (Hl : good 1 ls (lambda_code (generate_expr src) (generate_stmt true body) params body n)).
  { apply good_lambda; [|done|by apply Hb]. apply Forall_forall. intros i Hi.
    apply good_param_default; [by eapply item_declared|].
    intros e. eapply item_default_good; eauto. apply expr_good_use. }
  cg_start. cbn [generate_expr]. cg_step. cg_step.
  destruct self as [v|]; cbn [opt_each opt_ok] in *; [|cg_done].
  do 2 cg_step. unfold set_self_var. apply wp_on_emitter.
  { intros e. destruct (last (em_ops e)) as [[]|]; done. }
  cg_intro. cg_done.
Qed.

(** *** Statements *)

Lemma arms_good src ls arms end_label : ∀ is_else s lps lam cur saved sc,
  Forall (λ a, good 1 ls (generate_expr src (ca_condition a))
               ∧ good 0 ls (each (generate_stmt src) (ca_statements a))) arms →
  at_ ls s lps lam cur saved sc →
  wp (cond_arms (generate_expr src) (generate_stmt src) end_label is_else arms)
    (λ _ s', at_ ls s' lps lam cur saved sc ∧ (njumps s ≤ njumps s')%nat) s.
Proof.
  induction arms as [|a arms IH]; intros is_else s lps lam cur saved sc Harms
    (? & ? & ? & ?); cbn [cond_arms]; [cg_done|].
  apply Forall_cons in Harms as [[Hc Hb] Harms].
  destruct is_else; cg; (eapply cg_wp_mono; [apply (IH true _ lps lam cur saved sc); [exact Harms|cg_at]|]);
    (intros [] s9 [? ?]; split; [done|lia]).
Qed.

Lemma node_good_cond arms o :
  list_all (CondArm Expr Stmt) (CondArm_all Expr expr_good Stmt stmt_good) arms →
  option_all (ElseArm Stmt) (ElseArm_all Stmt stmt_good) o → node_good (SCond arms o).
Proof.
  intros Ha Ho src ls. cbn [node_ok]. intros Hok. ok_split.
  assert (Harms : Forall (λ a, good 1 ls (generate_expr src (ca_condition a))
               ∧ good 0 ls (each (generate_stmt src) (ca_statements a))) arms).
  { apply (list_all_Forall _ (λ a, expr_good (ca_condition a) ∧ (∀ l, forallb (stmt_ok table l) (ca_statements a) = true →
      good 0 l (each (generate_stmt src) (ca_statements a))))) in Ha.
    - rewrite Forall_forall in *. intros a Hin. destruct (Ha a Hin) as [He Hs].
      match goal with Hf : forallb _ arms = true |- _ => rewrite forallb_forall in Hf;
        specialize (Hf a (proj1 (list_elem_of_In _ _) Hin)) end. ok_split.
      split; [by apply expr_good_use|by apply Hs].
    - intros a [c Hc sts Hsts w]. split; [done|]. intros l. by apply body_code. }
  cg_start. cbn [generate_node]. do 3 cg_step.
  eapply cg_wp_mono; [by apply (arms_good src ls arms l false s' lps lam cur saved sc)|].
  intros [] s1 ((? & ? & ? & ?) & ?).
  destruct Ho as [? [sts Hsts w]|]; cbn [opt_each opt_ok ea_statements] in *; [|cg_done].
  pose proof (body_code src ls sts Hsts ltac:(done)). cg_done.
Qed.

Lemma node_good_for_list v k x body w :
  expr_good x → stmts_hyp body → node_good (SForList v k x body w).
Proof.
  intros IHx Hb src ls. cbn [node_ok]. intros Hok. use_ih. pick src.
  pose proof (body_code src _ _ Hb ltac:(done)) as Hbody. cg_start. cbn [generate_node].
  do 4 cg_step. match goal with Hn : mjoin _ = Some ?n |- _ => rename Hn into Hname, n into nm end.
  assert (Hnm : name_of table v = Some nm). { unfold name_of. revert Hname. cg_goal. done. }
  rewrite Hnm in Hbody. cg_step. apply wp_find_opt_name; [cg_side|]. cg.
  eapply cg_wp_mono.
  { eapply (wp_loop_code _ _ _ _ _ ls _ lps lam cur saved sc Hbody); [|cg_at|lia|lia].
    intros s9 lps9 (? & ? & ? & ?). cg_done. }
  intros [] s9 [? ?]. split; [by rewrite Z.add_0_r|lia].
Qed.

Lemma node_good_for_range v x y body w :
  expr_good x → expr_good y → stmts_hyp body → node_good (SForRange v x y body w).
Proof.
  intros IHx IHy Hb src ls. cbn [node_ok]. intros Hok. use_ih. pick src.
  pose proof (body_code src _ _ Hb ltac:(done)) as Hbody. cg_start. cbn [generate_node].
  do 6 cg_step. match goal with Hn : mjoin _ = Some ?n |- _ => rename Hn into Hname, n into nm end.
  assert (Hnm : name_of table v = Some nm). { unfold name_of. revert Hname. cg_goal. done. }
  rewrite Hnm in Hbody. cg. eapply cg_wp_mono.
  { eapply (wp_loop_code _ _ _ _ _ ls _ lps lam cur saved sc Hbody); [|cg_at|lia|lia].
    intros s9 lps9 (? & ? & ? & ?). cg_done. }
  intros [] s9 [? ?]. split; [by rewrite Z.add_0_r|lia].
Qed.

Lemma node_good_while v x body w : expr_good x → stmts_hyp body → node_good (SWhile v x body w).
Proof.
  intros IHx Hb src ls. cbn [node_ok]. intros Hok. use_ih. pick src.
  pose proof (body_code src _ _ Hb ltac:(done)) as Hbody. cg_start. cbn [generate_node].
  cg_step. apply wp_find_opt_name; [cg_side|]. cg_goal.
  cg; (eapply cg_wp_mono; [eapply (wp_loop_code _ _ _ _ _ ls _ lps lam cur saved sc Hbody);
    [intros s9 lps9 (? & ? & ? & ?); cg_done|cg_at|lia|lia]|]);
    (intros [] s9 [? ?]; split; [by rewrite Z.add_0_r|lia]).
Qed.

Lemma node_good_fork v x body : expr_good x → stmts_hyp body → node_good (SFork v x body).
Proof.
  intros IHx Hb src ls. cbn [node_ok]. intros Hok. use_ih. pick src.
  pose proof (body_code src _ _ Hb ltac:(done)) as Hbody. cg_start. cbn [generate_node].
  cg. eapply cg_wp_mono; [eapply (wp_fork_code _ ls v _ lps lam cur saved sc); [done|done|cg_at|lia]|].
  intros [] s9 [? ?]. split; [by rewrite Z.add_0_r|lia].
Qed.

Lemma node_good_try_finally a b w : stmts_hyp a → stmts_hyp b → node_good (STryFinally a b w).
Proof.
  intros Ha Hb src ls. cbn [node_ok]. intros Hok. ok_split.
  pose proof (body_code src _ _ Ha ltac:(done)). pose proof (body_code src _ _ Hb ltac:(done)).
  cg_start. cbn [generate_node]. cg_done.
Qed.

Lemma node_good_scope n a : stmts_hyp a → node_good (SScope n a).
Proof.
  intros Ha src ls. cbn [node_ok]. intros Hok. pose proof (body_code src _ _ Ha Hok).
  cg_start. cbn [generate_node]. cg_done.
Qed.

Lemma node_good_expr e : expr_good e → node_good (SExpr e).
Proof.
  intros IH src ls. cbn [node_ok]. intros Hok. use_ih. pick src.
  cg_start. cbn [generate_node]. cg_done.
Qed.

Lemma node_good_try_except body arms w :
  stmts_hyp body →
  list_all (ExceptArm Expr Stmt) (ExceptArm_all Expr expr_good Stmt stmt_good) arms →
  node_good (STryExcept body arms w).
Proof.
  intros Hb Ha src ls. cbn [node_ok]. intros Hok. ok_split.
  pose proof (body_code src _ _ Hb ltac:(done)).
  assert (Harms : Forall (λ a, good 1 ls (codes_code (generate_expr src) (xa_codes a))
     ∧ opt_ok (declared table) (xa_id a) = true
     ∧ Forall (λ x, good 0 ls (generate_stmt src x)) (xa_statements a)) arms).
  { apply (list_all_Forall _ (λ a, ∀ l, codes_ok (expr_ok table l) (xa_codes a) = true →
      forallb (stmt_ok table l) (xa_statements a) = true →
      good 1 l (codes_code (generate_expr src) (xa_codes a))
      ∧ Forall (λ x, good 0 l (generate_stmt src x)) (xa_statements a))) in Ha.
    - rewrite Forall_forall in *. intros a Hin.
      match goal with Hf : forallb _ arms = true |- _ => rewrite forallb_forall in Hf;
        specialize (Hf a (proj1 (list_elem_of_In _ _) Hin)) end. ok_split.
      destruct (Ha a Hin ls); done.
    - intros a [v c Hc sts Hsts] l ??. split; [by apply codes_hyp_good|by apply stmts_code]. }
  rewrite Forall_forall in Harms.
  cg_start. cbn [generate_node]. cg_step.
  eapply cg_wp_mono; [apply (wp_except_codes _ ls arms s lps lam cur saved sc); [|cg_at]|].
  { intros a Hin. apply (Harms a Hin). }
  intros labels s1 ((? & ? & ? & ?) & ? & Hl). cg.
  eapply cg_wp_mono; [apply (wp_except_arms _ ls _ arms labels _ lps lam cur saved sc); [| | |cg_at]|].
  - intros a Hin. apply (Harms a Hin).
  - apply forallb_forall. intros a Hin. apply (Harms a), list_elem_of_In, Hin.
  - eapply Forall_impl; [exact Hl|]. cbn. intros. lia.
  - intros [] s9 ((? & ? & ? & ?) & ?). cg_done.
Qed.

Lemma wp_current_loop (Q : LoopFrame → CodegenState → Prop) s :
  v_loops (view s) ≠ [] → (∀ l, Q l s) → wp current_loop Q s.
Proof.
  cbn. intros Hl HQ. unfold current_loop, wp, bind, get.
  destruct (last (loops (control s))) as [l|] eqn:Hlast; [apply HQ|].
  by apply last_None in Hlast.
Qed.

Lemma wp_find_loop n (Q : LoopFrame → CodegenState → Prop) s :
  is_Some (ident_for_name (v_names (view s)) n) → (∀ l, Q l s) → wp (find_loop n) Q s.
Proof.
  cbn. intros [x Hx] HQ. unfold find_loop, wp, bind, get, line_col, raise.
  destruct (control_find_loop n (control s)); [apply HQ|]. by rewrite Hx.
Qed.

Lemma find_loop_known n c :
  Some n ∈ map loop_name (loops c) → is_Some (control_find_loop n c).
Proof.
  intros (f & Hf & Hin)%list_elem_of_fmap. unfold control_find_loop.
  destruct (list_find _ _) as [[i g]|] eqn:Hfind; [by eexists|].
  apply list_find_None in Hfind. rewrite Forall_forall in Hfind.
  exfalso. apply (Hfind f); [|done]. apply list_elem_of_In, in_rev. by rewrite rev_involutive, <- list_elem_of_In.
Qed.

Lemma node_good_break v : node_good (SBreak v).
Proof.
  intros src ls Hok. cg_start. destruct v as [v|]; cbn [generate_node node_ok] in *.
  - do 2 cg_step. cg_step. apply wp_find_loop; [|intros l; cg_done].
    cg_goal. apply (table_named v). match goal with Hn : mjoin _ = _ |- _ => revert Hn end.
    cg_goal. done.
  - apply cg_wp_bind, wp_current_loop; [|intros l; cg_done]. cg_goal.
    apply negb_true_iff, bool_decide_eq_false in Hok. intros ->. by subst.
Qed.

Lemma node_good_continue v : node_good (SContinue v).
Proof.
  intros src ls Hok. cg_start. destruct v as [v|]; cbn [generate_node node_ok] in *.
  - ok_split. do 4 cg_step.
    match goal with Hn : mjoin _ = _ |- _ => revert Hn end. cg_goal. intros Hn.
    match goal with Hb : bool_decide _ = true |- _ => apply bool_decide_eq_true in Hb; rename Hb into Hin end.
    unfold name_of in Hin. rewrite Hn in Hin.
    destruct (find_loop_known n (control s)) as [l ->]; [|cg_done].
    match goal with Hl : map loop_name lps = ls |- _ => rewrite <- Hl in Hin end.
    cbv [view] in *. match goal with Hv : mkView _ _ _ _ _ _ _ _ = _ |- _ => by injection Hv as _ _ _ -> _ _ _ _ end.
  - apply cg_wp_bind, wp_current_loop; [|intros l; cg_done]. cg_goal.
    apply negb_true_iff, bool_decide_eq_false in Hok. intros ->. by subst.
Qed.

Lemma stmt_good_intro n lc t : node_good n → stmt_good (mkStmt n lc t).
Proof.
  intros Hn src ls Hok. specialize (Hn src ls Hok). cg_start. cbn [generate_stmt]. cg_done.
Qed.

(** Every tree keeps the books. *)
Lemma trees_good : (∀ e, expr_good e) ∧ (∀ n, node_good n) ∧ (∀ s, stmt_good s).
Proof.
  apply tree_mind; eauto using expr_good_assign, expr_good_pass, expr_good_type, expr_good_value,
    expr_good_error, expr_good_id, expr_good_binary, expr_good_and, expr_good_or,
    expr_good_unary, expr_good_call, expr_good_verb, expr_good_range,
    expr_good_cond, expr_good_try, expr_good_index, expr_good_list, expr_good_map,
    expr_good_flyweight, expr_good_scatter, expr_good_length, expr_good_comprehend_list,
    expr_good_comprehend_range, expr_good_decl, expr_good_return, expr_good_lambda,
    node_good_cond, node_good_for_list, node_good_for_range, node_good_while, node_good_fork,
    node_good_try_except, node_good_try_finally, node_good_scope, node_good_break,
    node_good_continue, node_good_expr, stmt_good_intro.
  intros l Hl p Hp. by apply expr_good_prop.
Qed.
End books.
