(* ===== verification/CodegenLines.v ===== *)
(** Compiling a lambda's body with the lines of the source is compiling its
    renumbered clone, as the code does (lambda_codegen.rs): the flag [src] of the
    generator stands for [assign_stmt_source_line_numbers]. *)
From S2P Require Import Prelude Obj TxTypes Float64 Opcodes Values ValueOrder Ast Capture CodegenState Codegen.
From stdpp Require Import base gmap list strings.
From Stdlib Require Import FunctionalExtensionality.

Open Scope Z_scope.
Open Scope cg_scope.

Notation renumber_expr := assign_expr_lambda_source_lines.
Notation renumber_node := assign_node_source_line_numbers.
Notation renumber := assign_stmt_source_line_numbers.

(** ** Maps over the wrappers *)

Lemma map_fix {A} (f : A → A) l : Forall (λ a, f a = a) l → map f l = l.
Proof. induction 1; cbn; congruence. Qed.

Lemma option_map_fix {A} (f : A → A) o : (∀ a, o = Some a → f a = a) → option_map f o = o.
Proof. destruct o as [a|]; cbn; [|done]. intros Hf. by rewrite Hf. Qed.

Lemma each_map {A B} (f : A → B) (g : B → CG unit) l : each g (map f l) = each (λ a, g (f a)) l.
Proof. induction l as [|a l IH]; cbn; [done|]. by rewrite IH. Qed.

Lemma each_ext {A} (f g : A → CG unit) l : Forall (λ a, f a = g a) l → each f l = each g l.
Proof. induction 1 as [|a l Ha _ IH]; cbn; [done|]. by rewrite Ha, IH. Qed.

Lemma map_ext_Forall {A B} (f g : A → B) l : Forall (λ a, f a = g a) l → map f l = map g l.
Proof. induction 1; cbn; congruence. Qed.

(** ** Renumbering twice is renumbering once *)

Notation idem_expr := (λ e, renumber_expr (renumber_expr e) = renumber_expr e).
Notation idem_node := (λ n, renumber_node (renumber_node n) = renumber_node n).
Notation idem_stmt := (λ s, renumber (renumber s) = renumber s).

Lemma idem_args args :
  list_all (Arg Expr) (Arg_all Expr idem_expr) args →
  map (map_arg renumber_expr) (map (map_arg renumber_expr) args) = map (map_arg renumber_expr) args.
Proof.
  intros Hall. rewrite map_map. apply map_ext_Forall.
  eapply list_all_Forall; [|exact Hall]. intros a Ha. destruct Ha; cbn; congruence.
Qed.

Lemma idem_option o :
  option_all Expr idem_expr o →
  option_map renumber_expr (option_map renumber_expr o) = option_map renumber_expr o.
Proof. destruct 1; cbn; congruence. Qed.

Lemma idem_items items :
  list_all (ScatterItem Expr) (ScatterItem_all Expr idem_expr) items →
  map (map_item renumber_expr) (map (map_item renumber_expr) items) = map (map_item renumber_expr) items.
Proof.
  intros Hall. rewrite map_map. apply map_ext_Forall.
  eapply list_all_Forall; [|exact Hall]. intros i [k v o Ho]. unfold map_item. cbn.
  by rewrite idem_option.
Qed.

Lemma idem_stmts body :
  list_all Stmt idem_stmt body → map renumber (map renumber body) = map renumber body.
Proof. intros Hall. rewrite map_map. apply map_ext_Forall. by apply list_all_prop in Hall. Qed.

Lemma idem_codes c :
  CatchCodes_all Expr idem_expr c →
  map_codes renumber_expr (map_codes renumber_expr c) = map_codes renumber_expr c.
Proof. destruct 1; cbn; [|done]. by rewrite idem_args. Qed.

Lemma renumber_idem : (∀ e, idem_expr e) ∧ (∀ n, idem_node n) ∧ (∀ s, idem_stmt s).
Proof.
  apply tree_mind; intros; cbn; rewrite ?idem_args, ?idem_option, ?idem_items, ?idem_stmts,
    ?idem_codes by assumption; try congruence.
  - match goal with H : CallTarget_all _ _ ?f |- _ => destruct H; cbn; congruence end.
  - f_equal. rewrite map_map. apply map_ext_Forall.
    eapply list_all_Forall; [|eassumption]. intros kv []; cbn; congruence.
  - f_equal; [done|]. rewrite map_map. apply map_ext_Forall.
    eapply list_all_Forall; [|eassumption]. intros kv []; cbn; congruence.
  - f_equal.
    + rewrite map_map. apply map_ext_Forall.
      eapply list_all_Forall; [|eassumption]. intros a [c Hc sts Hs w]; cbn. by rewrite idem_stmts.
    + match goal with H : option_all _ _ ?o |- _ => destruct H as [? []|]; cbn; [|done] end.
      by rewrite idem_stmts.
  - f_equal. rewrite map_map. apply map_ext_Forall.
    eapply list_all_Forall; [|eassumption]. intros a [v c Hc sts Hs]; cbn.
    by rewrite idem_codes, idem_stmts.
Qed.

(** ** The generator *)

Section lines.
Context `{Text} `{Interner} `{Addresses} `{Builtins}.

Definition expr_same (e : Expr) : Prop := ∀ src src',
  generate_expr src (renumber_expr e) = generate_expr src' e ∧
  ∀ b, push_lvalue src (renumber_expr e) b = push_lvalue src' e b.
Definition node_same (n : StmtNode) : Prop := ∀ src,
  generate_node src (renumber_node n) = generate_node true n.
Definition stmt_same (s : Stmt) : Prop := ∀ src,
  generate_stmt src (renumber s) = generate_stmt true s.

Lemma expr_same_gen src src' e :
  expr_same e → generate_expr src (renumber_expr e) = generate_expr src' e.
Proof. intros He. apply He. Qed.

(** An expression does not see the flag. *)
Lemma expr_same_src src src' e : expr_same e → generate_expr src e = generate_expr src' e.
Proof. intros He. by rewrite <- (expr_same_gen true src), <- (expr_same_gen true src'). Qed.

Lemma expr_same_lvalue src src' e b :
  expr_same e → push_lvalue src (renumber_expr e) b = push_lvalue src' e b.
Proof. intros He. apply He. Qed.

Lemma same_args src src' args :
  list_all (Arg Expr) (Arg_all Expr expr_same) args →
  map (arg_code (generate_expr src)) (map (map_arg renumber_expr) args)
  = map (arg_code (generate_expr src')) args.
Proof.
  intros Hall. rewrite map_map. apply map_ext_Forall.
  eapply list_all_Forall; [|exact Hall]. intros a []; cbn; by rewrite (expr_same_gen src src').
Qed.

Lemma same_codes src src' c :
  CatchCodes_all Expr expr_same c →
  codes_code (generate_expr src) (map_codes renumber_expr c) = codes_code (generate_expr src') c.
Proof. destruct 1; cbn; [|done]. by rewrite (same_args src src'). Qed.

Lemma same_symbol src src' e :
  expr_same e →
  symbol_code (generate_expr src) (renumber_expr e) = symbol_code (generate_expr src') e.
Proof.
  intros He. pose proof (expr_same_gen src src' e He) as Hg.
  destruct e; try done; try exact Hg.
Qed.

Lemma same_stmts src body :
  list_all Stmt stmt_same body →
  each (generate_stmt src) (map renumber body) = each (generate_stmt true) body.
Proof.
  intros Hall. rewrite each_map. apply each_ext. apply list_all_prop in Hall.
  eapply Forall_impl; [exact Hall|]. intros s Hs. apply Hs.
Qed.

Lemma same_assignable e : is_assignable_expr (renumber_expr e) = is_assignable_expr e.
Proof. by destruct e. Qed.

Lemma same_footprint e : ∀ b,
  lvalue_stack_footprint (renumber_expr e) b = lvalue_stack_footprint e b.
Proof. induction e; intros b; cbn; rewrite ?same_assignable, ?IHe1; done. Qed.

Lemma same_stores e : ∀ u bs, assign_stores (renumber_expr e) u bs = assign_stores e u bs.
Proof.
  induction e; intros u bs; cbn; rewrite ?same_assignable, ?same_footprint; try done.
  - assert (Hp : match renumber_expr e1 with EProp _ _ => true | _ => false end
                 = match e1 with EProp _ _ => true | _ => false end) by by destruct e1.
    rewrite Hp. f_equal. extensionality l. f_equal. extensionality x. f_equal. extensionality y.
    destruct (is_assignable_expr e1); [|done]. f_equal. extensionality z.
    destruct (match e1 with EProp _ _ => true | _ => false end); [|done].
    f_equal. by extensionality d.
  - f_equal. extensionality x. f_equal. by extensionality y.
  - f_equal. extensionality x. f_equal. by extensionality y.
Qed.

Lemma same_finish e : finish_assign (renumber_expr e) = finish_assign e.
Proof. unfold finish_assign. rewrite same_stores. by destruct e. Qed.

Lemma same_option src src' (x : option Expr) e :
  option_all Expr expr_same x → x = Some e →
  generate_expr src (renumber_expr e) = generate_expr src' e.
Proof. intros Hx ->. inversion Hx. by apply expr_same_gen. Qed.

Lemma same_comprehension src src' p f :
  expr_same p → option_all Expr expr_same f →
  comprehension_body (generate_expr src) (renumber_expr p) (option_map renumber_expr f)
  = comprehension_body (generate_expr src') p f.
Proof. intros Hp Hf. extensionality n. extensionality l. destruct Hf; cbn; by rewrite ?(expr_same_gen src src') by done. Qed.

Lemma same_scatter_labels items :
  scatter_labels (map (map_item renumber_expr) items) = scatter_labels items.
Proof.
  induction items as [|i items IH]; [done|]. cbn. rewrite IH. f_equal.
  by destruct (si_kind i), (si_expr i).
Qed.

Lemma same_param_labels items :
  param_labels (map (map_item renumber_expr) items) = param_labels items.
Proof. induction items as [|i items IH]; [done|]. cbn. by rewrite IH. Qed.

Lemma same_defaults src src' items :
  list_all (ScatterItem Expr) (ScatterItem_all Expr expr_same) items →
  each2 (default_code (generate_expr src)) (map (map_item renumber_expr) items)
  = each2 (default_code (generate_expr src')) items.
Proof.
  intros Hall. extensionality ds. revert ds. induction Hall as [|i Hi items _ IH]; [done|]. intros [|d ds]; [done|].
  cbn. rewrite IH. f_equal. destruct Hi as [k v o []], d as [l|]; try done.
  unfold default_code; cbn. by rewrite (expr_same_gen src src').
Qed.

Lemma same_param_defaults src src' items :
  list_all (ScatterItem Expr) (ScatterItem_all Expr expr_same) items →
  each (param_default (generate_expr src)) (map (map_item renumber_expr) items)
  = each (param_default (generate_expr src')) items.
Proof.
  intros Hall. rewrite each_map. apply each_ext. eapply list_all_Forall; [|exact Hall].
  intros i [k v o []]; cbn; [|by destruct k].
  unfold param_default; cbn. by rewrite (expr_same_gen src src').
Qed.

Lemma same_captures items body n d t :
  analyze_lambda_captures (map (map_item renumber_expr) items) body n d t
  = analyze_lambda_captures items body n d t.
Proof. unfold analyze_lambda_captures. rewrite map_map. by destruct items. Qed.

Lemma stmt_line_col_renumber s : stmt_line_col (renumber s) = stmt_line_col s.
Proof. by destruct s. Qed.

Lemma same_lambda src src' params body n :
  list_all (ScatterItem Expr) (ScatterItem_all Expr expr_same) params → stmt_same body →
  lambda_code (generate_expr src) (generate_stmt true (renumber body))
    (map (map_item renumber_expr) params) (renumber body) n
  = lambda_code (generate_expr src') (generate_stmt true body) params body n.
Proof.
  intros Hp Hb. unfold lambda_code, lambda_body_program.
  rewrite same_param_labels, (same_param_defaults src src'), (Hb true), stmt_line_col_renumber,
    (proj2 (proj2 renumber_idem)) by done.
  f_equal. extensionality c. f_equal. extensionality x. f_equal. extensionality l.
  f_equal. extensionality d. f_equal. extensionality o. f_equal. extensionality prg.
  f_equal. extensionality po. f_equal. extensionality y. f_equal. extensionality t.
  by rewrite same_captures.
Qed.

Lemma same_map src src' m :
  list_all (Expr * Expr) (prod_all Expr expr_same Expr expr_same) m →
  each (λ '(k, v), generate_expr src k;; generate_expr src v;; emit Op.MapInsert;; pop_stack 2)
    (map (λ kv, (renumber_expr kv.1, renumber_expr kv.2)) m)
  = each (λ '(k, v), generate_expr src' k;; generate_expr src' v;; emit Op.MapInsert;; pop_stack 2) m.
Proof.
  intros Hall. rewrite each_map. apply each_ext. eapply list_all_Forall; [|exact Hall].
  intros kv [k Hk v Hv]; cbn. by rewrite !(expr_same_gen src src') by done.
Qed.

Lemma same_slots src src' (slots : list (Symbol * Expr)) :
  list_all (Symbol * Expr) (prod_all Symbol (λ _, unit) Expr expr_same) slots →
  each (λ '(k, v), generate_expr src v;; generate_value (VStr (as_arc_str k)))
    (map (λ kv : Symbol * Expr, (kv.1, renumber_expr kv.2)) slots)
  = each (λ '(k, v), generate_expr src' v;; generate_value (VStr (as_arc_str k))) slots.
Proof.
  intros Hall. rewrite each_map. apply each_ext. eapply list_all_Forall; [|exact Hall].
  intros kv [k Hk v Hv]; cbn. by rewrite (expr_same_gen src src').
Qed.

Lemma same_arms src el : ∀ is_else arms,
  list_all (CondArm Expr Stmt) (CondArm_all Expr expr_same Stmt stmt_same) arms →
  cond_arms (generate_expr src) (generate_stmt src) el is_else
    (map (λ a, mkCondArm (ca_condition a) (map renumber (ca_statements a))
                 (ca_environment_width a)) arms)
  = cond_arms (generate_expr true) (generate_stmt true) el is_else arms.
Proof.
  intros is_else arms Hall. revert is_else.
  induction Hall as [|a [c Hc sts Hsts w] arms _ IH]; intros is_else; cbn; [done|].
  by rewrite (expr_same_src src true), (same_stmts src), IH.
Qed.

Lemma same_except_codes src arms :
  list_all (ExceptArm Expr Stmt) (ExceptArm_all Expr expr_same Stmt stmt_same) arms →
  except_codes (generate_expr src)
    (map (λ x, mkExceptArm (xa_id x) (map_codes renumber_expr (xa_codes x))
                 (map renumber (xa_statements x))) arms)
  = except_codes (generate_expr true) arms.
Proof.
  induction 1 as [|a [v c Hc sts Hsts] arms _ IH]; cbn; [done|]. by rewrite (same_codes src true), IH.
Qed.

Lemma same_except_arms src el arms :
  list_all (ExceptArm Expr Stmt) (ExceptArm_all Expr expr_same Stmt stmt_same) arms →
  except_arms (generate_stmt src) el
    (map (λ x, mkExceptArm (xa_id x) (map_codes renumber_expr (xa_codes x))
                 (map renumber (xa_statements x))) arms)
  = except_arms (generate_stmt true) el arms.
Proof.
  intros Hall. extensionality ls. revert ls.
  induction Hall as [|a [v c Hc sts Hsts] arms _ IH]; intros [|l ls]; cbn; try done.
  rewrite (same_stmts src), IH by done. by destruct arms.
Qed.

Lemma same_push_lvalue e :
  (∀ src src' b, push_lvalue src (renumber_expr e) b = push_lvalue src' e b) →
  (∀ src src', generate_expr src (renumber_expr e) = generate_expr src' e) → expr_same e.
Proof. intros Hl Hg src src'. split; [apply Hg|apply Hl]. Qed.

Ltac lines_expr src src' :=
  cbn; rewrite ?(same_args src src'), ?(same_codes src src'), ?(same_symbol src src'),
    ?(expr_same_gen src src'), ?length_map by assumption.


Ltac lines_lvalue src src' :=
  rewrite ?same_assignable, ?(expr_same_lvalue src src') by assumption.

Ltac lines_option src src' :=
  match goal with Ho : option_all Expr expr_same ?o |- _ =>
    destruct Ho; cbn; rewrite ?(expr_same_gen src src') by assumption; done end.

Lemma expr_same_intro e :
  (∀ src src', generate_expr src (renumber_expr e) = generate_expr src' e) →
  (∀ src src' b, push_lvalue src (renumber_expr e) b = push_lvalue src' e b) → expr_same e.
Proof. intros Hg Hl src src'. split; [apply Hg|apply Hl]. Qed.

(** The trees that hold no list or option of expressions. *)
Ltac plain := apply expr_same_intro; intros src src'; [|intros ?];
  cbn; rewrite ?same_assignable, ?(expr_same_lvalue src src'), ?(same_symbol src src'),
    ?(expr_same_gen src src') by assumption; try done.

Lemma assign_same l r : expr_same l → expr_same r → expr_same (EAssign l r).
Proof.
  intros Hl Hr. apply expr_same_intro; [|done]. intros src src'.
  change ((push_lvalue src (renumber_expr l) false;; generate_expr src (renumber_expr r);;
           finish_assign (renumber_expr l)) =
          (push_lvalue src' l false;; generate_expr src' r;; finish_assign l)).
  by rewrite (expr_same_lvalue src src'), (expr_same_gen src src' r), same_finish.
Qed.

Lemma prop_same l r : expr_same l → expr_same r → expr_same (EProp l r).
Proof. intros. plain. Qed.

Lemma call_same f args :
  CallTarget_all Expr expr_same f → list_all (Arg Expr) (Arg_all Expr expr_same) args →
  expr_same (ECall f args).
Proof.
  intros Hf Ha. apply expr_same_intro; [|done]. intros src src'.
  destruct Hf; cbn; by rewrite (same_args src src'), ?(expr_same_gen src src').
Qed.

Lemma stmt_same_intro n lc t : node_same n → stmt_same (mkStmt n lc t).
Proof.
  intros Hn src.
  change ((let* e := get emitter in let* spans := get line_spans in
           set_lines (spans ++ [(pc e, if src then lc.1 else lc.1)]) lc;;
           generate_node src (renumber_node n)) =
          (let* e := get emitter in let* spans := get line_spans in
           set_lines (spans ++ [(pc e, lc.1)]) lc;; generate_node true n)).
  rewrite (Hn src). by destruct src.
Qed.

Lemma trees_same : (∀ e, expr_same e) ∧ (∀ n, node_same n) ∧ (∀ s, stmt_same s).
Proof.
  apply tree_mind; intros;
  lazymatch goal with
  | |- expr_same (EAssign _ _) => by apply assign_same
  | |- expr_same (EProp _ _) => by apply prop_same
  | |- expr_same (ECall _ _) => by apply call_same
  | |- expr_same _ => apply expr_same_intro; intros src src'; [|intros b];
      lines_expr src src'; lines_lvalue src src'; try done
  | |- node_same _ => intros src; cbn; rewrite ?(same_stmts src), ?(expr_same_gen src true) by assumption; try done
  | |- stmt_same _ => by apply stmt_same_intro
  end; try lines_option src src'.
  - by rewrite (same_map src src').
  - rewrite (same_slots src src') by done. lines_option src src'.
  - by rewrite same_scatter_labels, (same_defaults src src').
  - match goal with |- bind ?a ?k = bind ?b ?k' => change (bind a k = bind b k) end.
    f_equal. by apply same_lambda.
  - f_equal. extensionality l. f_equal; [by apply same_arms|]. extensionality u.
    match goal with Ho : option_all _ _ ?o |- _ => destruct Ho as [? [sts Hsts w]|]; cbn; [|done] end.
    by rewrite (same_stmts src).
  - f_equal; [by apply same_except_codes|]. extensionality ls. rewrite length_map.
    f_equal. extensionality u. f_equal. extensionality l. f_equal. extensionality u2.
    f_equal. extensionality u3. f_equal. extensionality u4.
    f_equal. by rewrite <- (same_except_arms src).
Qed.

(** C22: Compiling the body of a lambda with the line numbers of its source gives the
    same code, tables, line spans and errors as the code's own way, which clones
    the body, renumbers every statement of the clone by its source line and
    compiles that. *)
Theorem lambda_body_renumbering (body : Stmt) (s : CodegenState) :
  generate_stmt true body s = generate_stmt false (assign_stmt_source_line_numbers body) s.
Proof. by rewrite (proj2 (proj2 trees_same) body false). Qed.
End lines.
