(* ===== verification/CodegenMain.v ===== *)
(** Results on the code generator. *)
From S2P Require Import Prelude Obj TxTypes Float64 Opcodes Values ValueOrder Ast Capture CodegenState Codegen CodegenProofs.
From stdpp Require Import base gmap list strings.

Open Scope Z_scope.
Open Scope cg_scope.

Section main.
Context `{Text} `{Interner} `{Addresses} `{Builtins}.

(** The table of [CodegenState::new] holds declared names only. *)
Lemma name_table_named ns v n :
  name_of (name_table ns) v = Some n → is_Some (ident_for_name ns n).
Proof.
  unfold name_of, name_table.
  set (ids := map _ (map_to_list (decls ns))). set (width := S (foldr _ _ ids)).
  assert (Hids : ∀ i m, (i, m) ∈ rev ids → is_Some (decls ns !! m)).
  { intros i m Hin. apply list_elem_of_In, in_rev, in_map_iff in Hin as ([m' d] & [= _ ->] & Hin).
    apply list_elem_of_In, elem_of_map_to_list in Hin. by rewrite Hin. }
  generalize (Z.to_nat (var_id v)) as i. clearbody width. clear v.
  induction (rev ids) as [|[j m] l IH]; intros i; cbn [foldr].
  - intros Hn. destruct (replicate width None !! i) as [x|] eqn:Hx; [|done].
    apply lookup_replicate in Hx as [-> _]. done.
  - destruct (decide (i = j)) as [->|Hne].
    + rewrite list_lookup_insert. case_decide as Hin; cbn.
      * intros [= ->]. destruct (Hids j n) as [d Hd]; [by left|].
        unfold ident_for_name. rewrite Hd. by eexists.
      * intros Hn. exfalso. revert Hn. destruct (_ !! j) eqn:Hl; [|done].
        apply lookup_lt_Some in Hl. tauto.
    + rewrite list_lookup_insert_ne by done. apply IH. intros k m' Hk. eapply Hids. by right.
Qed.

(** The state of a generator between two trees. *)
Definition state_ok (s : CodegenState) : Prop :=
  (∀ v n, name_of (name_for_variable s) v = Some n → is_Some (ident_for_name (cg_var_names s) n)) ∧
  (call_unsupported_builtins s = true →
   is_Some (find_builtin (mk_symbol (lit "call_function")))) ∧
  0 ≤ cur_stack (stack s) ∧ 0 ≤ cur_depth (scopes s).

Lemma state_ok_at s : state_ok s →
  at_ (name_for_variable s) (cg_var_names s) (call_unsupported_builtins s)
    (map loop_name (loops (control s))) s (loops (control s)) (lambda_scope_depth (control s))
    (cur_stack (stack s)) (saved_stack (stack s)) (cur_depth (scopes s)).
Proof. intros (_ & _ & ? & ?). by split_and!. Qed.

Definition parse_ok (p : Parse) : bool :=
  forallb (stmt_ok (name_table (parse_names p)) []) (parse_stmts p).

(** What a piece of code leaves as it was. *)
Definition same_context (s s' : CodegenState) : Prop :=
  saved_stack (stack s') = saved_stack (stack s) ∧ cur_depth (scopes s') = cur_depth (scopes s)
  ∧ loops (control s') = loops (control s)
  ∧ lambda_scope_depth (control s') = lambda_scope_depth (control s)
  ∧ name_for_variable s' = name_for_variable s.

Lemma at_context table names flag ls s s' lps lam cur saved sc n :
  at_ table names flag ls s lps lam cur saved sc →
  at_ table names flag ls s' lps lam n saved sc →
  cur_stack (stack s') = n ∧ same_context s s'.
Proof.
  unfold at_, view. intros (E1 & _) (E2 & _). injection E1. injection E2. intros.
  unfold same_context. split_and!; congruence.
Qed.


(** The operands of an assignment take exactly [lvalue_stack_footprint] slots,
    the number the generator uses to clean up when a property store ends early. *)
Theorem lvalue_takes_footprint (src : bool) (e : Expr) (nested : bool) (s : CodegenState)
    (Hs : state_ok s)
    (He : lvalue_ok (name_for_variable s) (map loop_name (loops (control s))) nested e = true) :
  match push_lvalue src e nested s with
  | CgOk _ s' =>
      cur_stack (stack s') = cur_stack (stack s) + lvalue_stack_footprint e nested
      ∧ same_context s s'
  | CgErr _ => True
  | CgPanic => False
  end.
Proof.
  pose proof (state_ok_at s Hs) as Hat. destruct Hs as (Ht & Hf & _).
  pose proof (proj1 (trees_good _ _ _ Ht Hf) e src (map loop_name (loops (control s)))) as [_ Hg].
  specialize (Hg nested He s _ _ _ _ _ Hat). unfold wp in Hg.
  destruct (push_lvalue src e nested s) as [[] s'| |]; [|done..].
  destruct Hg as (_ & Hat' & _). by eapply at_context.
Qed.

(** C19: Compiling a program whose variables are declared, whose [break] and
    [continue] are inside loops (of their name) and which assigns through no range
    gives a program or a compile error; no assertion of the generator fails,
    in particular the stack and scopes it tracks are empty at the end of the
    program, of every lambda and of every fork. *)
Theorem compile_never_panics (p : Parse) (call_unsupported : bool)
    (Hok : parse_ok p = true)
    (Hcall : call_unsupported = true → is_Some (find_builtin (mk_symbol (lit "call_function")))) :
  do_compile p call_unsupported ≠ CgPanic.
Proof.
  set (t := name_table (parse_names p)).
  pose proof (proj2 (proj2 (trees_good t (parse_names p) call_unsupported
    (name_table_named (parse_names p)) Hcall))) as Htrees.
  assert (Hbody : good t (parse_names p) call_unsupported 0 []
    (each (generate_stmt false) (parse_stmts p))).
  { apply good_each0, Forall_forall. intros s Hs. apply Htrees.
    unfold parse_ok in Hok. rewrite forallb_forall in Hok. by apply Hok, list_elem_of_In. }
  assert (Hat : at_ t (parse_names p) call_unsupported [] (codegen_new call_unsupported (parse_names p))
            [] 0 0 None 0) by (split_and!; [reflexivity|lia|lia|done]).
  specialize (Hbody _ _ _ _ _ _ Hat). unfold wp in Hbody. unfold do_compile, bind at 1.
  destruct (each _ _ _) as [[] s1| |]; [|done..]. destruct Hbody as [(Hs1 & _) _].
  pose proof (wp_emit Op.Done (λ _ s2, at_rest s2 = true) s1) as Hemit.
  rewrite Hs1 in Hemit. specialize (Hemit ltac:(done)).
  assert (Hrest : wp (emit Op.Done) (λ _ s2, at_rest s2 = true) s1).
  { apply Hemit. intros s2 [Hs2 _]. rewrite Hs1 in Hs2.
    exact (at_rest_true t (parse_names p) call_unsupported s2 [] 0 Hs2). }
  unfold wp in Hrest. unfold bind, state, get.
  destruct (emit Op.Done s1) as [[] s2| |]; [|done..]. by rewrite Hrest.
Qed.

End main.

(** ** A program: [while (x) x[1].p = {2, @x}[$]; if (x) break; endif endwhile] *)

Module Demo.
#[export] Instance demo_text : Text := {
  to_lowercase c := [c];
  mk_symbol s := mkSymbol (String.string_of_list_ascii (Ascii.ascii_of_N <$> s));
  as_arc_str s := lit (symbol_text s);
}.

#[export] Instance demo_interner : Interner := {
  compare_id s := Z.of_nat (String.length (symbol_text s));
}.

#[export] Instance demo_addresses : Addresses := { body_addr _ := 0 }.

#[export] Instance demo_builtins : Builtins := {
  find_builtin s := if decide (s = mkSymbol "call_function") then Some 0 else None;
}.

Definition x : Variable_ := mkVariable 0 0 (Named (mkSymbol "x")).
Definition names_x : Names :=
  mkNames 12 {[ mkName 11 0 0 := mkDecl DtAssign x 0 false 0 ]}.

Definition place : Expr :=
  EProp (EIndex (EId x) (EValue (VInt 1))) (EValue (VSym (mkSymbol "p"))).
Definition value : Expr := EIndex (EList [Normal (EValue (VInt 2)); Splice (EId x)]) ELength.

Definition program : Parse :=
  mkParse
    [stmt_new (SWhile None (EId x)
       [stmt_new (SExpr (EAssign place value)) (2, 3);
        stmt_new (SCond [mkCondArm (EId x) [stmt_new (SBreak None) (4, 5)] 0] None) (3, 3)] 0)
       (1, 1)] names_x.

(** The lemma that applies to states, at the generator's first. *)
Lemma demo_state_ok : state_ok (codegen_new true names_x).
Proof.
  split_and!; [|intros _; vm_compute; by eexists|vm_compute; discriminate..].
  intros v n Hn. by eapply name_table_named.
Qed.


Example lvalue_takes_footprint_witness :
  match push_lvalue false place false (codegen_new true names_x) with
  | CgOk _ s => cur_stack (stack s) = lvalue_stack_footprint place false ∧ cur_stack (stack s) = 4
  | _ => False
  end.
Proof.
  pose proof (lvalue_takes_footprint false place false (codegen_new true names_x)
    demo_state_ok eq_refl) as Hs.
  destruct (push_lvalue _ _ _ _) as [[] s| |] eqn:Hrun;
    [|vm_compute in Hrun; discriminate|destruct Hs].
  destruct Hs as [Hs _]. split; [exact Hs|].
  vm_compute in Hrun. injection Hrun as <-. reflexivity.
Defined.

Example compile_never_panics_witness :
  parse_ok program = true ∧ do_compile program true ≠ CgPanic
  ∧ match do_compile program true with
    | CgOk p _ => length (main_vector p) = 26%nat ∧ main_max_stack p = 6
    | _ => False
    end.
Proof.
  split; [reflexivity|]. split; [|vm_compute; split; reflexivity].
  apply (compile_never_panics program true); [reflexivity|]. intros _. vm_compute. by eexists.
Defined.
End Demo.
