(* ===== verification/RelIndex.v ===== *)
(** Relation indexes (crates/db/src/tx/indexes.rs): the [RelationIndex] trait,
    the hash index, the index with a reverse (codomain) map, and the trait
    object a snapshot stores.

    The persistent maps of [imbl] are finite maps here, so [fork] is the
    identity: a fork shares nothing mutable with its origin. The secondary map
    is keyed by [cod_key], what [Eq]/[Hash] see of a value.

    [RelationIndexLaws] is the contract the transaction code is proved
    against; the three implementations discharge it. *)
From S2P Require Import Prelude TxTypes.
From stdpp Require Import base gmap sets list fin_maps.

Open Scope Z_scope.

Record Entry (C : Type) := mkEntry { entry_ts : Timestamp; entry_value : C }.
Arguments mkEntry {C} _ _.
Arguments entry_ts {C} _.
Arguments entry_value {C} _.

#[export] Instance Entry_eq_dec {C} `{EqDecision C} : EqDecision (Entry C).
Proof. solve_decision. Defined.

(** ** The trait *)

Class RelationIndex (I D C : Type) := {
  insert_entry : Timestamp → D → C → I → I * option (Entry C);
  insert_tombstone : Timestamp → D → I → I * option (Entry C);
  index_lookup : I → D → option (Entry C);
  remove_entry : D → I → I * option (Entry C);
  idx_iter : I → list (D * Entry C);
  idx_len : I → nat;
  apply_batch : list (Timestamp * D * C) → list (Timestamp * D) → I → I;
  get_by_codomain : I → C → list D;
  for_each_by_codomain : I → C → list D;
  has_secondary_index : I → bool;
  is_provider_fully_loaded : I → bool;
  set_provider_fully_loaded : bool → I → I;
}.

(** The default body of [apply_batch] in the trait: inserts, then tombstones. *)
Definition default_apply_batch {I D C}
    (ins : Timestamp → D → C → I → I * option (Entry C))
    (tomb : Timestamp → D → I → I * option (Entry C))
    (inserts : list (Timestamp * D * C)) (tombstones : list (Timestamp * D)) (i : I) : I :=
  let i1 := fold_left (λ i '(ts, d, c), (ins ts d c i).1) inserts i in
  fold_left (λ i '(ts, d), (tomb ts d i).1) tombstones i1.

(** The default body of [is_empty]. *)
Definition idx_is_empty {I D C} `{RelationIndex I D C} (i : I) : bool :=
  Nat.eqb (idx_len i) 0.

(** ** Hash index *)

Module HashRelationIndex.
Section defs.
Context {D C : Type} `{Countable D} `{RelationCodomain C}.

Record t := mk {
  entries : gmap D (Entry C);
  secondary_index : option (gmap cod_rep (gset D));
  provider_fully_loaded : bool;
}.

Definition new : t := mk ∅ None false.
Definition new_with_secondary : t := mk ∅ (Some ∅) false.

Definition insert_entry (ts : Timestamp) (domain : D) (codomain : C) (i : t)
  : t * option (Entry C) :=
  (mk (<[domain := mkEntry ts codomain]> (entries i))
      (secondary_index i) (provider_fully_loaded i),
   entries i !! domain).

Definition remove_entry (domain : D) (i : t) : t * option (Entry C) :=
  (mk (delete domain (entries i)) (secondary_index i) (provider_fully_loaded i),
   entries i !! domain).

Definition insert_tombstone (_ts : Timestamp) (domain : D) (i : t)
  : t * option (Entry C) := remove_entry domain i.

Definition index_lookup (i : t) (domain : D) : option (Entry C) := entries i !! domain.

Definition apply_batch : list (Timestamp * D * C) → list (Timestamp * D) → t → t :=
  default_apply_batch insert_entry insert_tombstone.

Definition get_by_codomain (i : t) (_codomain : C) : list D := [].

Definition has_secondary_index (i : t) : bool :=
  match secondary_index i with Some _ => true | None => false end.

Definition set_provider_fully_loaded (loaded : bool) (i : t) : t :=
  mk (entries i) (secondary_index i) loaded.
End defs.
Arguments t D C {_ _ _}.
End HashRelationIndex.

#[export] Instance hash_relation_index {D C} `{Countable D} `{RelationCodomain C}
  : RelationIndex (HashRelationIndex.t D C) D C := {
  insert_entry := HashRelationIndex.insert_entry;
  insert_tombstone := HashRelationIndex.insert_tombstone;
  index_lookup := HashRelationIndex.index_lookup;
  remove_entry := HashRelationIndex.remove_entry;
  idx_iter i := map_to_list (HashRelationIndex.entries i);
  idx_len i := size (HashRelationIndex.entries i);
  apply_batch := HashRelationIndex.apply_batch;
  get_by_codomain := HashRelationIndex.get_by_codomain;
  for_each_by_codomain := HashRelationIndex.get_by_codomain;
  has_secondary_index := HashRelationIndex.has_secondary_index;
  is_provider_fully_loaded := HashRelationIndex.provider_fully_loaded;
  set_provider_fully_loaded := HashRelationIndex.set_provider_fully_loaded;
}.

(** ** Index with a secondary (codomain to domains) map *)

Module SecondaryIndexRelation.
Section defs.
Context {D C : Type} `{Countable D} `{RelationCodomain C}.

Record t := mk { inner : HashRelationIndex.t D C }.

Definition new : t := mk HashRelationIndex.new_with_secondary.

Definition with_secondary (f : gmap cod_rep (gset D) → gmap cod_rep (gset D)) (s : t) : t :=
  mk (HashRelationIndex.mk (HashRelationIndex.entries (inner s))
        (f <$> HashRelationIndex.secondary_index (inner s))
        (HashRelationIndex.provider_fully_loaded (inner s))).

Definition secondary_remove (k : cod_rep) (domain : D)
    (sec : gmap cod_rep (gset D)) : gmap cod_rep (gset D) :=
  match sec !! k with
  | Some domain_set =>
      let domain_set' := domain_set ∖ {[domain]} in
      if bool_decide (domain_set' = ∅) then delete k sec
      else <[k := domain_set']> (delete k sec)
  | None => sec
  end.

Definition secondary_add (k : cod_rep) (domain : D)
    (sec : gmap cod_rep (gset D)) : gmap cod_rep (gset D) :=
  <[k := {[domain]} ∪ default ∅ (sec !! k)]> sec.

Definition remove_from_secondary (codomain : C) (domain : D) (s : t) : t :=
  with_secondary (secondary_remove (cod_key codomain) domain) s.

Definition add_to_secondary_owned (codomain : C) (domain : D) (s : t) : t :=
  with_secondary (secondary_add (cod_key codomain) domain) s.

Definition insert_entry (ts : Timestamp) (domain : D) (codomain : C) (s : t)
  : t * option (Entry C) :=
  let '(inner', result) := HashRelationIndex.insert_entry ts domain codomain (inner s) in
  let s1 := mk inner' in
  let s2 := match result with
            | Some old => remove_from_secondary (entry_value old) domain s1
            | None => s1
            end in
  (add_to_secondary_owned codomain domain s2, result).

Definition insert_tombstone (ts : Timestamp) (domain : D) (s : t) : t * option (Entry C) :=
  let '(inner', result) := HashRelationIndex.insert_tombstone ts domain (inner s) in
  let s1 := mk inner' in
  (match result with
   | Some old => remove_from_secondary (entry_value old) domain s1
   | None => s1
   end, result).

Definition remove_entry (domain : D) (s : t) : t * option (Entry C) :=
  let '(inner', old_entry) := HashRelationIndex.remove_entry domain (inner s) in
  let s1 := mk inner' in
  (match old_entry with
   | Some old => remove_from_secondary (entry_value old) domain s1
   | None => s1
   end, old_entry).

(** [map.entry(k).or_default().push(d)]. *)
Definition push_group (k : cod_rep) (d : D) (g : gmap cod_rep (list D))
  : gmap cod_rep (list D) := <[k := default [] (g !! k) ++ [d]]> g.

(** State of the grouping loops: the inner index, [removals] and [additions]. *)
Record batch := mkBatch {
  b_inner : HashRelationIndex.t D C;
  b_removals : gmap cod_rep (list D);
  b_additions : gmap cod_rep (list D);
}.

Definition batch_insert (b : batch) (x : Timestamp * D * C) : batch :=
  let '(ts, domain, codomain) := x in
  let '(inner', old) := HashRelationIndex.insert_entry ts domain codomain (b_inner b) in
  let '(removals', changed_codomain) :=
    match old with
    | Some old =>
        if cod_eqb (entry_value old) codomain then (b_removals b, false)
        else (push_group (cod_key (entry_value old)) domain (b_removals b), true)
    | None => (b_removals b, true)
    end in
  mkBatch inner' removals'
    (if changed_codomain : bool then push_group (cod_key codomain) domain (b_additions b)
     else b_additions b).

Definition batch_tombstone (b : batch) (x : Timestamp * D) : batch :=
  let '(ts, domain) := x in
  let '(inner', old) := HashRelationIndex.insert_tombstone ts domain (b_inner b) in
  mkBatch inner'
    (match old with
     | Some old => push_group (cod_key (entry_value old)) domain (b_removals b)
     | None => b_removals b
     end) (b_additions b).

Definition apply_removal (sec : gmap cod_rep (gset D)) (x : cod_rep * list D)
  : gmap cod_rep (gset D) :=
  let '(k, domains) := x in
  match sec !! k with
  | Some set =>
      let set' := fold_left (λ s d, s ∖ {[d]}) domains set in
      if bool_decide (set' = ∅) then delete k sec else <[k := set']> (delete k sec)
  | None => sec
  end.

Definition apply_addition (sec : gmap cod_rep (gset D)) (x : cod_rep * list D)
  : gmap cod_rep (gset D) :=
  let '(k, domains) := x in
  let set := default ∅ (sec !! k) in
  <[k := fold_left (λ s d, {[d]} ∪ s) domains set]> (delete k sec).

Definition apply_batch (inserts : list (Timestamp * D * C))
    (tombstones : list (Timestamp * D)) (s : t) : t :=
  let b1 := fold_left batch_insert inserts (mkBatch (inner s) ∅ ∅) in
  let b2 := fold_left batch_tombstone tombstones b1 in
  with_secondary
    (λ secondary,
       fold_left apply_addition (map_to_list (b_additions b2))
         (fold_left apply_removal (map_to_list (b_removals b2)) secondary))
    (mk (b_inner b2)).

Definition get_by_codomain (s : t) (codomain : C) : list D :=
  match HashRelationIndex.secondary_index (inner s) with
  | Some secondary =>
      match secondary !! cod_key codomain with
      | Some set => elements set
      | None => []
      end
  | None => []
  end.

Definition set_provider_fully_loaded (loaded : bool) (s : t) : t :=
  mk (HashRelationIndex.set_provider_fully_loaded loaded (inner s)).
End defs.
Arguments t D C {_ _ _}.
End SecondaryIndexRelation.

#[export] Instance secondary_relation_index {D C} `{Countable D} `{RelationCodomain C}
  : RelationIndex (SecondaryIndexRelation.t D C) D C := {
  insert_entry := SecondaryIndexRelation.insert_entry;
  insert_tombstone := SecondaryIndexRelation.insert_tombstone;
  index_lookup s d := HashRelationIndex.entries (SecondaryIndexRelation.inner s) !! d;
  remove_entry := SecondaryIndexRelation.remove_entry;
  idx_iter s := map_to_list (HashRelationIndex.entries (SecondaryIndexRelation.inner s));
  idx_len s := size (HashRelationIndex.entries (SecondaryIndexRelation.inner s));
  apply_batch := SecondaryIndexRelation.apply_batch;
  get_by_codomain := SecondaryIndexRelation.get_by_codomain;
  for_each_by_codomain := SecondaryIndexRelation.get_by_codomain;
  has_secondary_index s := true;
  is_provider_fully_loaded s :=
    HashRelationIndex.provider_fully_loaded (SecondaryIndexRelation.inner s);
  set_provider_fully_loaded := SecondaryIndexRelation.set_provider_fully_loaded;
}.

(** ** Trait objects: [dyn RelationIndex], one of the two implementations *)

Inductive DynIndex (D C : Type) `{Countable D} `{RelationCodomain C} :=
| DynHash (i : HashRelationIndex.t D C)
| DynSecondary (s : SecondaryIndexRelation.t D C).
Arguments DynHash {D C _ _ _} i.
Arguments DynSecondary {D C _ _ _} s.

#[export] Instance dyn_relation_index {D C} `{Countable D} `{RelationCodomain C}
  : RelationIndex (DynIndex D C) D C := {
  insert_entry ts d c i := match i with
    | DynHash i => let '(i', r) := insert_entry ts d c i in (DynHash i', r)
    | DynSecondary s => let '(s', r) := insert_entry ts d c s in (DynSecondary s', r) end;
  insert_tombstone ts d i := match i with
    | DynHash i => let '(i', r) := insert_tombstone ts d i in (DynHash i', r)
    | DynSecondary s => let '(s', r) := insert_tombstone ts d s in (DynSecondary s', r) end;
  index_lookup i d := match i with
    | DynHash i => index_lookup i d | DynSecondary s => index_lookup s d end;
  remove_entry d i := match i with
    | DynHash i => let '(i', r) := remove_entry d i in (DynHash i', r)
    | DynSecondary s => let '(s', r) := remove_entry d s in (DynSecondary s', r) end;
  idx_iter i := match i with
    | DynHash i => idx_iter i | DynSecondary s => idx_iter s end;
  idx_len i := match i with
    | DynHash i => idx_len i | DynSecondary s => idx_len s end;
  apply_batch ins tombs i := match i with
    | DynHash i => DynHash (apply_batch ins tombs i)
    | DynSecondary s => DynSecondary (apply_batch ins tombs s) end;
  get_by_codomain i c := match i with
    | DynHash i => get_by_codomain i c | DynSecondary s => get_by_codomain s c end;
  for_each_by_codomain i c := match i with
    | DynHash i => for_each_by_codomain i c | DynSecondary s => for_each_by_codomain s c end;
  has_secondary_index i := match i with
    | DynHash i => has_secondary_index i | DynSecondary s => has_secondary_index s end;
  is_provider_fully_loaded i := match i with
    | DynHash i => is_provider_fully_loaded i
    | DynSecondary s => is_provider_fully_loaded s end;
  set_provider_fully_loaded b i := match i with
    | DynHash i => DynHash (set_provider_fully_loaded b i)
    | DynSecondary s => DynSecondary (set_provider_fully_loaded b s) end;
}.

(** ** The contract *)

Definition insert_all {D C} `{Countable D} (inserts : list (Timestamp * D * C))
    (m : gmap D (Entry C)) : gmap D (Entry C) :=
  fold_left (λ m '(ts, d, c), <[d := mkEntry ts c]> m) inserts m.

Definition delete_all {D C} `{Countable D} (tombstones : list (Timestamp * D))
    (m : gmap D (Entry C)) : gmap D (Entry C) :=
  fold_left (λ m '(ts, d), delete d m) tombstones m.

Definition batch_domains {D C} (inserts : list (Timestamp * D * C))
    (tombstones : list (Timestamp * D)) : list D :=
  map (λ x, x.1.2) inserts ++ map snd tombstones.

Class RelationIndexLaws (I D C : Type)
    `{Countable D} `{RelationCodomain C} `{!RelationIndex I D C} := {
  idx_entries : I → gmap D (Entry C);
  idx_inv : I → Prop;
  law_lookup i d : index_lookup i d = idx_entries i !! d;
  law_insert ts d c i : idx_entries (insert_entry ts d c i).1 =
    <[d := mkEntry ts c]> (idx_entries i);
  law_insert_old ts d c i : (insert_entry ts d c i).2 = idx_entries i !! d;
  law_tombstone ts d i : idx_entries (insert_tombstone ts d i).1 = delete d (idx_entries i);
  law_tombstone_old ts d i : (insert_tombstone ts d i).2 = idx_entries i !! d;
  law_remove d i : idx_entries (remove_entry d i).1 = delete d (idx_entries i);
  law_iter i : idx_iter i = map_to_list (idx_entries i);
  law_len i : idx_len i = size (idx_entries i);
  law_batch ins tombs i : idx_entries (apply_batch ins tombs i) =
    delete_all tombs (insert_all ins (idx_entries i));
  law_set_loaded b i : idx_entries (set_provider_fully_loaded b i) = idx_entries i;
  law_loaded_set b i : is_provider_fully_loaded (set_provider_fully_loaded b i) = b;
  law_loaded_insert ts d c i :
    is_provider_fully_loaded (insert_entry ts d c i).1 = is_provider_fully_loaded i;
  law_loaded_batch ins tombs i :
    is_provider_fully_loaded (apply_batch ins tombs i) = is_provider_fully_loaded i;
  law_secondary_insert ts d c i :
    has_secondary_index (insert_entry ts d c i).1 = has_secondary_index i;
  law_secondary_loaded b i :
    has_secondary_index (set_provider_fully_loaded b i) = has_secondary_index i;
  law_inv_insert ts d c i : idx_inv i → idx_inv (insert_entry ts d c i).1;
  law_inv_tombstone ts d i : idx_inv i → idx_inv (insert_tombstone ts d i).1;
  law_inv_batch ins tombs i :
    NoDup (batch_domains ins tombs) → idx_inv i → idx_inv (apply_batch ins tombs i);
  law_inv_loaded b i : idx_inv i → idx_inv (set_provider_fully_loaded b i);
  law_for_each i c : for_each_by_codomain i c = get_by_codomain i c;
  law_by_codomain i c : idx_inv i → has_secondary_index i = true →
    NoDup (get_by_codomain i c) ∧
    ∀ d, d ∈ get_by_codomain i c ↔
      ∃ e, idx_entries i !! d = Some e ∧ cod_key (entry_value e) = cod_key c;
}.

Create Rewrite HintDb index_laws.
#[export] Hint Rewrite @law_lookup @law_insert @law_insert_old @law_tombstone
  @law_tombstone_old @law_remove @law_iter @law_len @law_batch @law_set_loaded
  @law_loaded_set @law_loaded_insert @law_loaded_batch @law_secondary_insert
  @law_secondary_loaded @law_for_each : index_laws.

(** ** The hash index meets the contract *)

Section hash_laws.
Context {D C : Type} `{Countable D} `{RelationCodomain C}.
Implicit Types i : HashRelationIndex.t D C.
Import HashRelationIndex.

Lemma hash_fold_insert ins i :
  let i' := fold_left (λ i '(ts, d, c), (insert_entry ts d c i).1) ins i in
  entries i' = insert_all ins (entries i) ∧
  secondary_index i' = secondary_index i ∧
  provider_fully_loaded i' = provider_fully_loaded i.
Proof.
  simpl. unfold insert_all. revert i.
  induction ins as [|[[ts d] c] ins IH]; intros i; simpl; [done|].
  destruct (IH (insert_entry ts d c i).1) as (? & ? & ?); by split_and!.
Qed.

Lemma hash_fold_tombstone tombs i :
  let i' := fold_left (λ i '(ts, d), (insert_tombstone ts d i).1) tombs i in
  entries i' = delete_all tombs (entries i) ∧
  secondary_index i' = secondary_index i ∧
  provider_fully_loaded i' = provider_fully_loaded i.
Proof.
  simpl. unfold delete_all. revert i.
  induction tombs as [|[ts d] tombs IH]; intros i; simpl; [done|].
  destruct (IH (insert_tombstone ts d i).1) as (? & ? & ?); by split_and!.
Qed.

Lemma hash_apply_batch ins tombs i :
  entries (apply_batch ins tombs i) = delete_all tombs (insert_all ins (entries i)) ∧
  secondary_index (apply_batch ins tombs i) = secondary_index i ∧
  provider_fully_loaded (apply_batch ins tombs i) = provider_fully_loaded i.
Proof.
  unfold apply_batch, default_apply_batch. cbn zeta.
  destruct (hash_fold_insert ins i) as (He & Hs & Hl). cbn zeta in *.
  destruct (hash_fold_tombstone tombs
    (fold_left (λ i '(ts, d, c), (insert_entry ts d c i).1) ins i)) as (-> & -> & ->).
  by rewrite He, Hs, Hl.
Qed.

#[global] Program Instance hash_laws : RelationIndexLaws (HashRelationIndex.t D C) D C := {
  idx_entries := entries;
  idx_inv i := secondary_index i = None;
}.
Solve All Obligations with
  try solve [intros; simpl; done | intros; simpl; apply hash_apply_batch].
Next Obligation.
  intros ins tombs i _ Hs; simpl in *. destruct (hash_apply_batch ins tombs i) as (_ & Hs' & _).
  by rewrite Hs'.
Qed.
Next Obligation.
  intros i c Hinv Hs. simpl in *. unfold has_secondary_index in Hs. by rewrite Hinv in Hs.
Qed.
End hash_laws.

(** ** The secondary index: its invariant and its batch update *)

Section secondary_laws.
Context {D C : Type} `{Countable D} `{RelationCodomain C}.
Import SecondaryIndexRelation.
Implicit Types s : t D C.
Implicit Types sec : gmap cod_rep (gset D).

(** The reverse map holds, under each value, exactly the domains whose entry
    has that value, and no empty set. *)
Definition sec_ok (m : gmap D (Entry C)) sec : Prop :=
  (∀ k, sec !! k ≠ Some ∅) ∧
  ∀ k d, d ∈ (default ∅ (sec !! k) : gset D) ↔
    ∃ e, m !! d = Some e ∧ cod_key (entry_value e) = k.

Definition sec_inv s : Prop :=
  ∃ sec, HashRelationIndex.secondary_index (inner s) = Some sec ∧
         sec_ok (HashRelationIndex.entries (inner s)) sec.

Lemma sec_ok_unique m sec1 sec2 : sec_ok m sec1 → sec_ok m sec2 → sec1 = sec2.
Proof.
  intros [Hne1 H1] [Hne2 H2]. apply map_eq. intros k.
  assert ((default ∅ (sec1 !! k) : gset D) = default ∅ (sec2 !! k)) as Heq.
  { apply set_eq. intros d. by rewrite H1, H2. }
  specialize (Hne1 k). specialize (Hne2 k).
  destruct (sec1 !! k), (sec2 !! k); simpl in Heq; congruence.
Qed.

Lemma secondary_remove_spec k d sec k' d' :
  d' ∈ (default ∅ (secondary_remove k d sec !! k') : gset D) ↔
  d' ∈ (default ∅ (sec !! k') : gset D) ∧ ¬ (k' = k ∧ d' = d).
Proof.
  unfold secondary_remove.
  destruct (sec !! k) as [set|] eqn:Hk.
  - case_bool_decide as Hemp.
    + rewrite lookup_delete. case_decide; simplify_eq; rewrite ?Hk; simpl; set_solver.
    + rewrite lookup_insert. case_decide; simplify_eq; rewrite ?Hk; simpl; [set_solver|].
      rewrite lookup_delete_ne by done. set_solver.
  - split; [|naive_solver]. intros Hin. split; [done|].
    intros [-> ->]. rewrite Hk in Hin. set_solver.
Qed.

Lemma secondary_remove_nonempty k d sec :
  (∀ k, sec !! k ≠ Some ∅) → ∀ k', secondary_remove k d sec !! k' ≠ Some ∅.
Proof.
  intros Hne k'. unfold secondary_remove. destruct (sec !! k) eqn:Hk; [|done].
  case_bool_decide; rewrite ?lookup_insert, ?lookup_delete; repeat case_decide; naive_solver.
Qed.

Lemma secondary_add_spec k d sec k' d' :
  d' ∈ (default ∅ (secondary_add k d sec !! k') : gset D) ↔
  d' ∈ (default ∅ (sec !! k') : gset D) ∨ (k' = k ∧ d' = d).
Proof.
  unfold secondary_add. rewrite lookup_insert. case_decide; simplify_eq; simpl; set_solver.
Qed.

Lemma secondary_add_nonempty k d sec :
  (∀ k, sec !! k ≠ Some ∅) → ∀ k', secondary_add k d sec !! k' ≠ Some ∅.
Proof.
  intros Hne k'. unfold secondary_add. rewrite lookup_insert.
  case_decide; [|done]. intros [=]. set_solver.
Qed.

(** Dropping the old value of a domain from the reverse map. *)
Lemma sec_ok_remove m sec d old :
  sec_ok m sec → m !! d = Some old →
  sec_ok (delete d m) (secondary_remove (cod_key (entry_value old)) d sec).
Proof.
  intros [Hne Hs] Hd. split; [by apply secondary_remove_nonempty|].
  intros k d'. rewrite secondary_remove_spec, Hs, lookup_delete.
  case_decide; naive_solver.
Qed.

Lemma sec_ok_add m sec d ts c :
  sec_ok m sec → m !! d = None →
  sec_ok (<[d := mkEntry ts c]> m) (secondary_add (cod_key c) d sec).
Proof.
  intros [Hne Hs] Hd. split; [by apply secondary_add_nonempty|].
  intros k d'. rewrite secondary_add_spec, Hs, lookup_insert. case_decide; naive_solver.
Qed.

Lemma sec_insert_entry ts d c s : sec_inv s → sec_inv (insert_entry ts d c s).1.
Proof.
  destruct s as [[m osec l]]. intros (sec & Hsec & Hok); simpl in *; subst osec.
  unfold insert_entry, HashRelationIndex.insert_entry; simpl.
  destruct (m !! d) as [old|] eqn:Hd; simpl; eexists; (split; [done|simpl]).
  - rewrite <- insert_delete_eq. apply sec_ok_add; [|by rewrite lookup_delete_eq].
    by apply sec_ok_remove.
  - by apply sec_ok_add.
Qed.

Lemma sec_ok_delete_none m sec d : sec_ok m sec → m !! d = None → sec_ok (delete d m) sec.
Proof. intros Hok Hd. by rewrite delete_id. Qed.

Lemma sec_insert_tombstone ts d s : sec_inv s → sec_inv (insert_tombstone ts d s).1.
Proof.
  destruct s as [[m osec l]]. intros (sec & Hsec & Hok); simpl in *; subst osec.
  unfold insert_tombstone, HashRelationIndex.insert_tombstone, HashRelationIndex.remove_entry.
  simpl. destruct (m !! d) as [old|] eqn:Hd; simpl; eexists; (split; [done|simpl]).
  - by apply sec_ok_remove.
  - by apply sec_ok_delete_none.
Qed.

Lemma push_group_spec k d (g : gmap cod_rep (list D)) k' d' :
  d' ∈ default [] (push_group k d g !! k') ↔ d' ∈ default [] (g !! k') ∨ (k' = k ∧ d' = d).
Proof.
  unfold push_group. rewrite lookup_insert.
  case_decide; simplify_eq; simpl; rewrite ?elem_of_app, ?list_elem_of_singleton; naive_solver.
Qed.

Definition groups_nonempty (g : gmap cod_rep (list D)) : Prop := ∀ k, g !! k ≠ Some [].

Lemma push_group_nonempty k d g : groups_nonempty g → groups_nonempty (push_group k d g).
Proof.
  intros Hg k'. unfold push_group. rewrite lookup_insert. case_decide; [|done].
  intros [=]. by destruct (default [] (g !! k)).
Qed.

(** What the grouping loops have collected, relative to the index [m0] the
    batch started from: the inserts [ins] and tombstones [tombs] so far. *)
Record batch_state (m0 : gmap D (Entry C)) (ins : list (Timestamp * D * C))
    (tombs : list (Timestamp * D)) (b : batch) : Prop := {
  bs_entries : HashRelationIndex.entries (b_inner b) = delete_all tombs (insert_all ins m0);
  bs_removals k d : d ∈ default [] (b_removals b !! k) ↔
    ∃ old, m0 !! d = Some old ∧ cod_key (entry_value old) = k ∧
      ((∃ ts c, (ts, d, c) ∈ ins ∧ cod_key c ≠ k) ∨ ∃ ts, (ts, d) ∈ tombs);
  bs_additions k d : d ∈ default [] (b_additions b !! k) ↔
    ∃ ts c, (ts, d, c) ∈ ins ∧ cod_key c = k ∧
      ∀ old, m0 !! d = Some old → cod_key (entry_value old) ≠ k;
  bs_nonempty : groups_nonempty (b_additions b);
}.

Lemma insert_all_snoc (ins : list (Timestamp * D * C)) ts d c m :
  insert_all (ins ++ [(ts, d, c)]) m = <[d := mkEntry ts c]> (insert_all ins m).
Proof. unfold insert_all. by rewrite fold_left_app. Qed.

Lemma delete_all_snoc (tombs : list (Timestamp * D)) ts d (m : gmap D (Entry C)) :
  delete_all (tombs ++ [(ts, d)]) m = delete d (delete_all tombs m).
Proof. unfold delete_all. by rewrite fold_left_app. Qed.

Lemma insert_all_lookup_ne ins d (m : gmap D (Entry C)) :
  d ∉ map (λ x : Timestamp * D * C, x.1.2) ins → insert_all ins m !! d = m !! d.
Proof.
  unfold insert_all. revert m. induction ins as [|[[ts d'] c] ins IH]; intros m Hn; [done|].
  simpl in *. apply not_elem_of_cons in Hn as [Hne Hn].
  rewrite IH by done. by rewrite lookup_insert_ne.
Qed.

Lemma delete_all_lookup tombs d (m : gmap D (Entry C)) :
  delete_all tombs m !! d = if decide (d ∈ map snd tombs) then None else m !! d.
Proof.
  unfold delete_all. revert m. induction tombs as [|[ts d'] tombs IH]; intros m.
  - case_decide; [set_solver|done].
  - cbn [fold_left]. rewrite IH, lookup_delete. cbn [map snd].
    repeat case_decide; simplify_eq; set_solver.
Qed.

Lemma insert_all_lookup_in ins ts d c (m : gmap D (Entry C)) :
  NoDup (map (λ x : Timestamp * D * C, x.1.2) ins) → (ts, d, c) ∈ ins →
  insert_all ins m !! d = Some (mkEntry ts c).
Proof.
  unfold insert_all. revert m. induction ins as [|[[ts' d'] c'] ins IH]; intros m Hnd Hin;
    [set_solver|].
  simpl in *. apply NoDup_cons in Hnd as [Hn Hnd].
  apply elem_of_cons in Hin as [?|Hin]; simplify_eq.
  - fold (insert_all ins (<[d' := mkEntry ts' c']> m)).
    rewrite insert_all_lookup_ne by done. by rewrite lookup_insert_eq.
  - by apply IH.
Qed.

Lemma batch_insert_state m0 ins ts d c b :
  d ∉ map (λ x : Timestamp * D * C, x.1.2) ins →
  batch_state m0 ins [] b → batch_state m0 (ins ++ [(ts, d, c)]) [] (batch_insert b (ts, d, c)).
Proof.
  intros Hfresh [He Hr Ha Hn]. simpl in He.
  assert (HashRelationIndex.entries (b_inner b) !! d = m0 !! d) as Hold.
  { rewrite He. by apply insert_all_lookup_ne. }
  assert (∀ ts' c', (ts', d, c') ∉ ins) as Hnin.
  { intros ts' c' Hin. apply Hfresh. apply list_elem_of_fmap. by exists (ts', d, c'). }
  unfold batch_insert, HashRelationIndex.insert_entry. rewrite Hold.
  destruct (m0 !! d) as [old|] eqn:Hd; [unfold cod_eqb; case_bool_decide as Hk|]; split;
    cbn [b_inner b_removals b_additions HashRelationIndex.entries];
    try (by rewrite insert_all_snoc, He); try done; try (by apply push_group_nonempty).
  all: intros k d'; rewrite ?push_group_spec, ?Hr, ?Ha.
  all: setoid_rewrite elem_of_app; setoid_rewrite list_elem_of_singleton.
  all: try (split; [naive_solver|]).
  all: try naive_solver.
Qed.

Lemma batch_tombstone_state m0 ins tombs ts d b :
  d ∉ map (λ x : Timestamp * D * C, x.1.2) ins → d ∉ map snd tombs →
  batch_state m0 ins tombs b →
  batch_state m0 ins (tombs ++ [(ts, d)]) (batch_tombstone b (ts, d)).
Proof.
  intros Hfi Hft [He Hr Ha Hn].
  assert (HashRelationIndex.entries (b_inner b) !! d = m0 !! d) as Hold.
  { rewrite He, delete_all_lookup, decide_False by done. by apply insert_all_lookup_ne. }
  unfold batch_tombstone, HashRelationIndex.insert_tombstone, HashRelationIndex.remove_entry.
  rewrite Hold. split; cbn [b_inner b_removals b_additions HashRelationIndex.entries];
    [by rewrite delete_all_snoc, He| |done|done].
  intros k d'. setoid_rewrite elem_of_app. setoid_rewrite list_elem_of_singleton.
  destruct (m0 !! d) as [old|] eqn:Hd; rewrite ?push_group_spec, Hr; naive_solver.
Qed.

Lemma batch_loops_state (m0 : gmap D (Entry C)) osec l ins tombs :
  NoDup (batch_domains ins tombs) →
  let i := HashRelationIndex.mk m0 osec l in
  let b := fold_left batch_tombstone tombs
             (fold_left batch_insert ins (mkBatch i ∅ ∅)) in
  batch_state m0 ins tombs b ∧
  HashRelationIndex.secondary_index (b_inner b) = osec ∧
  HashRelationIndex.provider_fully_loaded (b_inner b) = l.
Proof.
  intros Hnd. simpl. unfold batch_domains in Hnd.
  assert (batch_state m0 [] [] (mkBatch (HashRelationIndex.mk m0 osec l) ∅ ∅)) as Hinit.
  { split; [done|intros k d; set_solver|intros k d; set_solver|intros k; simpl; by rewrite lookup_empty]. }
  assert (∀ ins', NoDup (map (λ x : Timestamp * D * C, x.1.2) ins') →
    let b := fold_left batch_insert ins' (mkBatch (HashRelationIndex.mk m0 osec l) ∅ ∅) in
    batch_state m0 ins' [] b ∧ HashRelationIndex.secondary_index (b_inner b) = osec ∧
    HashRelationIndex.provider_fully_loaded (b_inner b) = l) as Hins.
  { intros ins'. induction ins' as [|[[ts d] c] ins' IH] using rev_ind; [by intros|].
    rewrite map_app; simpl. intros [Hnd1 [Hnd2 _]]%NoDup_app. rewrite fold_left_app; simpl.
    destruct IH as (IHs & IHsec & IHl); [done|]. split.
    - apply batch_insert_state; [|done]. set_solver.
    - unfold HashRelationIndex.insert_entry.
      repeat case_match; simplify_eq/=; done. }
  clear Hinit. induction tombs as [|[ts d] tombs IH] using rev_ind.
  { apply Hins. apply NoDup_app in Hnd. naive_solver. }
  rewrite map_app, app_assoc in Hnd. simpl in Hnd.
  apply NoDup_app in Hnd as (Hnd & Hdisj & _).
  rewrite fold_left_app; simpl. destruct IH as (IHs & IHsec & IHl); [done|]. split; [|done].
  apply batch_tombstone_state; set_solver.
Qed.

Lemma fold_difference (l : list D) (X : gset D) d :
  d ∈ fold_left (λ Y d, Y ∖ {[d]}) l X ↔ d ∈ X ∧ d ∉ l.
Proof. revert X. induction l as [|x l IH]; intros X; simpl; [|rewrite IH]; set_solver. Qed.

Lemma fold_union (l : list D) (X : gset D) d :
  d ∈ fold_left (λ Y d, {[d]} ∪ Y) l X ↔ d ∈ X ∨ d ∈ l.
Proof. revert X. induction l as [|x l IH]; intros X; simpl; [|rewrite IH]; set_solver. Qed.

Lemma apply_removals_spec l sec :
  (∀ k, sec !! k ≠ Some ∅) →
  let sec' := fold_left apply_removal l sec in
  (∀ k, sec' !! k ≠ Some ∅) ∧
  ∀ k d, d ∈ (default ∅ (sec' !! k) : gset D) ↔
    d ∈ (default ∅ (sec !! k) : gset D) ∧ ∀ ds, (k, ds) ∈ l → d ∉ ds.
Proof.
  revert sec. induction l as [|[k0 ds0] l IH]; intros sec Hne; simpl; [set_solver|].
  assert (∀ k, apply_removal sec (k0, ds0) !! k ≠ Some ∅) as Hne1.
  { intros k. simpl. destruct (sec !! k0) eqn:Hk0; [|done].
    case_bool_decide; rewrite ?lookup_insert, ?lookup_delete; repeat case_decide; naive_solver. }
  assert (∀ k d, d ∈ (default ∅ (apply_removal sec (k0, ds0) !! k) : gset D) ↔
    d ∈ (default ∅ (sec !! k) : gset D) ∧ ¬ (k = k0 ∧ d ∈ ds0)) as Hstep.
  { intros k d. simpl. destruct (sec !! k0) as [X|] eqn:Hk0.
    - pose proof (fold_difference ds0 X d) as Hf.
      case_bool_decide as Hemp; rewrite ?lookup_insert, ?lookup_delete;
        repeat case_decide; simplify_eq; rewrite ?Hk0; simpl.
      all: rewrite ?Hemp in Hf; set_solver.
    - split; [|naive_solver]. intros Hin. split; [done|]. intros [-> _].
      rewrite Hk0 in Hin. set_solver. }
  destruct (IH (apply_removal sec (k0, ds0)) Hne1) as [IH1 IH2]. split; [exact IH1|].
  intros k d. rewrite IH2, Hstep. setoid_rewrite elem_of_cons. naive_solver.
Qed.

Lemma apply_additions_spec l sec :
  (∀ k, sec !! k ≠ Some ∅) → (∀ k, (k, []) ∉ l) →
  let sec' := fold_left apply_addition l sec in
  (∀ k, sec' !! k ≠ Some ∅) ∧
  ∀ k d, d ∈ (default ∅ (sec' !! k) : gset D) ↔
    d ∈ (default ∅ (sec !! k) : gset D) ∨ ∃ ds, (k, ds) ∈ l ∧ d ∈ ds.
Proof.
  revert sec. induction l as [|[k0 ds0] l IH]; intros sec Hne Hl; simpl; [set_solver|].
  assert (∀ k, apply_addition sec (k0, ds0) !! k ≠ Some ∅) as Hne1.
  { intros k. simpl. rewrite lookup_insert, lookup_delete. repeat case_decide; [|naive_solver..].
    intros [= Hemp]. destruct ds0 as [|d0 ds0]; [by apply (Hl k0); constructor|].
    assert (d0 ∈ (∅ : gset D)); [|set_solver]. rewrite <- Hemp. apply fold_union. set_solver. }
  assert (∀ k d, d ∈ (default ∅ (apply_addition sec (k0, ds0) !! k) : gset D) ↔
    d ∈ (default ∅ (sec !! k) : gset D) ∨ (k = k0 ∧ d ∈ ds0)) as Hstep.
  { intros k d. simpl. rewrite lookup_insert, lookup_delete. repeat case_decide; simplify_eq.
    - simpl. rewrite fold_union. naive_solver.
    - naive_solver. }
  destruct (IH (apply_addition sec (k0, ds0)) Hne1) as [IH1 IH2]; [set_solver|].
  split; [exact IH1|]. intros k d. rewrite IH2, Hstep. setoid_rewrite elem_of_cons. naive_solver.
Qed.

(** A domain of a duplicate-free batch is deleted, written once, or untouched. *)
Lemma batch_cases ins tombs (m0 : gmap D (Entry C)) d :
  NoDup (batch_domains ins tombs) →
  let m' := delete_all tombs (insert_all ins m0) in
  (m' !! d = None ∧ (∃ ts, (ts, d) ∈ tombs) ∧ ∀ ts c, (ts, d, c) ∉ ins) ∨
  (∃ ts c, m' !! d = Some (mkEntry ts c) ∧ (ts, d, c) ∈ ins ∧
     (∀ ts' c', (ts', d, c') ∈ ins → c' = c) ∧ ∀ ts', (ts', d) ∉ tombs) ∨
  (m' !! d = m0 !! d ∧ (∀ ts c, (ts, d, c) ∉ ins) ∧ ∀ ts, (ts, d) ∉ tombs).
Proof.
  intros Hnd m'. subst m'. unfold batch_domains in Hnd.
  apply NoDup_app in Hnd as (Hndi & Hdisj & _). rewrite delete_all_lookup.
  assert (∀ ts c, (ts, d, c) ∈ ins → d ∈ map (λ x : Timestamp * D * C, x.1.2) ins) as Hin_i.
  { intros ts c Hin. apply list_elem_of_fmap. by exists (ts, d, c). }
  assert (∀ ts, (ts, d) ∈ tombs → d ∈ map snd tombs) as Hin_t.
  { intros ts Hin. apply list_elem_of_fmap. by exists (ts, d). }
  case_decide as Hdt; [left|right].
  - apply list_elem_of_fmap in Hdt as Hdt'. destruct Hdt' as ([ts' d'] & ? & ?). simplify_eq/=.
    split_and!; [done|by eauto|]. intros ts c Hin. by eapply Hdisj; eauto.
  - destruct (decide (d ∈ map (λ x : Timestamp * D * C, x.1.2) ins)) as [Hdi|Hdi]; [left|right].
    + apply list_elem_of_fmap in Hdi as ([[ts' d'] c'] & ? & Hin). simplify_eq/=.
      exists ts', c'. pose proof (insert_all_lookup_in ins ts' d' c' m0 Hndi Hin) as Hl.
      split_and!; [done|done| |by eauto]. intros ts c Hin2.
      rewrite (insert_all_lookup_in ins ts d' c) in Hl by done. by simplify_eq.
    + rewrite insert_all_lookup_ne by done. split_and!; [done|by eauto|by eauto].
Qed.

Lemma batch_state_sec m0 ins tombs b sec :
  NoDup (batch_domains ins tombs) → batch_state m0 ins tombs b → sec_ok m0 sec →
  sec_ok (delete_all tombs (insert_all ins m0))
    (fold_left apply_addition (map_to_list (b_additions b))
       (fold_left apply_removal (map_to_list (b_removals b)) sec)).
Proof.
  intros Hnd [He Hr Ha Hn] [Hne Hok].
  destruct (apply_removals_spec (map_to_list (b_removals b)) sec Hne) as [Hne1 Hrem].
  destruct (apply_additions_spec (map_to_list (b_additions b)) _ Hne1) as [Hne2 Hadd].
  { intros k Hin%elem_of_map_to_list. by apply (Hn k). }
  split; [exact Hne2|]. intros k d. rewrite Hadd, Hrem, Hok.
  assert ((∀ ds, (k, ds) ∈ map_to_list (b_removals b) → d ∉ ds) ↔
    d ∉ default [] (b_removals b !! k)) as ->.
  { setoid_rewrite elem_of_map_to_list. destruct (b_removals b !! k); set_solver. }
  assert ((∃ ds, (k, ds) ∈ map_to_list (b_additions b) ∧ d ∈ ds) ↔
    d ∈ default [] (b_additions b !! k)) as ->.
  { setoid_rewrite elem_of_map_to_list. destruct (b_additions b !! k); set_solver. }
  rewrite Hr, Ha. pose proof (batch_cases ins tombs m0 d Hnd) as Hcases; cbn zeta in Hcases.
  clear He Hr Ha Hn Hne Hok Hne1 Hrem Hne2 Hadd Hnd.
  destruct Hcases as [(-> & [ts Ht] & Hni)|[(ts & c & -> & Hin & Hc & Hnt)|(-> & Hni & Hnt)]].
  - naive_solver.
  - destruct (m0 !! d) as [old|] eqn:Hm; [|naive_solver].
    destruct (decide (cod_key (entry_value old) = k)), (decide (cod_key c = k)); naive_solver.
  - naive_solver.
Qed.

(** The batch keeps the reverse map exact when no domain occurs twice. *)
Lemma sec_apply_batch ins tombs s :
  NoDup (batch_domains ins tombs) → sec_inv s → sec_inv (apply_batch ins tombs s).
Proof.
  destruct s as [[m0 osec l]]. intros Hnd (sec & Hsec & Hok); simpl in *; subst osec.
  destruct (batch_loops_state m0 (Some sec) l ins tombs Hnd) as (Hbs & Hsec & Hl).
  unfold apply_batch. cbn [inner]. set (b := fold_left batch_tombstone tombs _) in *.
  unfold sec_inv; simpl. rewrite Hsec; simpl. eexists; split; [done|].
  rewrite (bs_entries _ _ _ _ Hbs). by apply batch_state_sec.
Qed.

Lemma batch_entries ins tombs s :
  HashRelationIndex.entries (inner (apply_batch ins tombs s)) =
    delete_all tombs (insert_all ins (HashRelationIndex.entries (inner s))) ∧
  HashRelationIndex.provider_fully_loaded (inner (apply_batch ins tombs s)) =
    HashRelationIndex.provider_fully_loaded (inner s).
Proof.
  unfold apply_batch; simpl.
  assert (∀ b, let b' := fold_left batch_insert ins b in
    HashRelationIndex.entries (b_inner b') = insert_all ins (HashRelationIndex.entries (b_inner b)) ∧
    HashRelationIndex.provider_fully_loaded (b_inner b') =
      HashRelationIndex.provider_fully_loaded (b_inner b)) as Hi.
  { unfold insert_all. induction ins as [|[[ts d] c] ins IH]; intros b; cbn zeta; cbn [fold_left];
      [done|]. destruct (IH (batch_insert b (ts, d, c))) as [-> ->].
    unfold batch_insert, HashRelationIndex.insert_entry. by repeat case_match; simplify_eq/=. }
  assert (∀ b, let b' := fold_left batch_tombstone tombs b in
    HashRelationIndex.entries (b_inner b') = delete_all tombs (HashRelationIndex.entries (b_inner b)) ∧
    HashRelationIndex.provider_fully_loaded (b_inner b') =
      HashRelationIndex.provider_fully_loaded (b_inner b)) as Ht.
  { unfold delete_all. induction tombs as [|[ts d] tombs IH]; intros b; cbn zeta; cbn [fold_left];
      [done|]. destruct (IH (batch_tombstone b (ts, d))) as [-> ->]. done. }
  destruct (Ht (fold_left batch_insert ins (mkBatch (inner s) ∅ ∅))) as [-> ->].
  destruct (Hi (mkBatch (inner s) ∅ ∅)) as [-> ->]. done.
Qed.

Lemma sec_fold_insert ins s :
  sec_inv s → sec_inv (fold_left (λ s '(ts, d, c), (insert_entry ts d c s).1) ins s).
Proof.
  revert s. induction ins as [|[[ts d] c] ins IH]; intros s Hs; simpl; [done|].
  apply IH. by apply sec_insert_entry.
Qed.

Lemma sec_fold_tombstone tombs s :
  sec_inv s → sec_inv (fold_left (λ s '(ts, d), (insert_tombstone ts d s).1) tombs s).
Proof.
  revert s. induction tombs as [|[ts d] tombs IH]; intros s Hs; simpl; [done|].
  apply IH. by apply (sec_insert_tombstone ts d).
Qed.

Lemma insert_entry_inner ts d c s :
  HashRelationIndex.entries (inner (insert_entry ts d c s).1) =
    <[d := mkEntry ts c]> (HashRelationIndex.entries (inner s)) ∧
  HashRelationIndex.provider_fully_loaded (inner (insert_entry ts d c s).1) =
    HashRelationIndex.provider_fully_loaded (inner s).
Proof. destruct s as [[m osec l]]. unfold insert_entry; simpl. by destruct (m !! d). Qed.

Lemma insert_tombstone_inner ts d s :
  HashRelationIndex.entries (inner (insert_tombstone ts d s).1) =
    delete d (HashRelationIndex.entries (inner s)) ∧
  HashRelationIndex.provider_fully_loaded (inner (insert_tombstone ts d s).1) =
    HashRelationIndex.provider_fully_loaded (inner s).
Proof. destruct s as [[m osec l]]. unfold insert_tombstone; simpl. by destruct (m !! d). Qed.

Lemma sec_default_batch_inner ins tombs s :
  let s' := default_apply_batch insert_entry insert_tombstone ins tombs s in
  HashRelationIndex.entries (inner s') =
    delete_all tombs (insert_all ins (HashRelationIndex.entries (inner s))) ∧
  HashRelationIndex.provider_fully_loaded (inner s') =
    HashRelationIndex.provider_fully_loaded (inner s).
Proof.
  unfold default_apply_batch. cbn zeta. revert s.
  induction ins as [|[[ts d] c] ins IH]; intros s; cbn [fold_left].
  - revert s. induction tombs as [|[ts d] tombs IHt]; intros s; cbn [fold_left]; [done|].
    destruct (IHt (insert_tombstone ts d s).1) as [-> ->].
    destruct (insert_tombstone_inner ts d s) as [-> ->]. done.
  - destruct (IH (insert_entry ts d c s).1) as [-> ->].
    destruct (insert_entry_inner ts d c s) as [-> ->]. done.
Qed.
End secondary_laws.

#[export] Instance secondary_laws_instance {D C} `{Countable D} `{RelationCodomain C}
  : RelationIndexLaws (SecondaryIndexRelation.t D C) D C.
Proof.
  refine {|
    idx_entries s := HashRelationIndex.entries (SecondaryIndexRelation.inner s);
    idx_inv := sec_inv |}; try (intros; done).
  - intros. apply insert_entry_inner.
  - intros ts d s. apply (insert_tombstone_inner ts d).
  - intros d [[m osec l]]. simpl. unfold SecondaryIndexRelation.remove_entry; simpl.
    by destruct (m !! d).
  - intros. apply batch_entries.
  - intros. apply insert_entry_inner.
  - intros. apply batch_entries.
  - intros. by apply sec_insert_entry.
  - intros ts d s Hs. by apply (sec_insert_tombstone ts d).
  - intros. by apply sec_apply_batch.
  - intros s c (sec & Hsec & [Hne Hok]) _. simpl.
    unfold SecondaryIndexRelation.get_by_codomain. rewrite Hsec.
    specialize (Hok (cod_key c)). destruct (sec !! cod_key c) as [X|]; simpl in Hok.
    + split; [apply NoDup_elements|]. intros d. by rewrite elem_of_elements.
    + split; [constructor|]. intros d. rewrite <- Hok. set_solver.
Defined.

(** Each law of the trait object is the law of the implementation it holds. *)
#[export] Instance dyn_laws {D C} `{Countable D} `{RelationCodomain C}
  : RelationIndexLaws (DynIndex D C) D C.
Proof.
  refine {|
    idx_entries i := match i with DynHash i => idx_entries i | DynSecondary s => idx_entries s end;
    idx_inv i := match i with DynHash i => idx_inv i | DynSecondary s => idx_inv s end |}.
  - intros [i|i] d; exact (law_lookup i d).
  - intros ts d c [i|i]; [done|].
    pose proof (law_insert ts d c i) as L. exact L.
  - intros ts d c [i|i]; [done|].
    pose proof (law_insert_old ts d c i) as L. exact L.
  - intros ts d [i|i]; [done|].
    pose proof (law_tombstone ts d i) as L. exact L.
  - intros ts d [i|i]; [done|].
    pose proof (law_tombstone_old ts d i) as L. exact L.
  - intros d [i|i]; [done|].
    pose proof (law_remove d i) as L. exact L.
  - intros [i|i]; exact (law_iter i).
  - intros [i|i]; exact (law_len i).
  - intros ins tombs [i|i]; exact (law_batch ins tombs i).
  - intros b [i|i]; exact (law_set_loaded b i).
  - intros b [i|i]; exact (law_loaded_set b i).
  - intros ts d c [i|i]; [done|].
    pose proof (law_loaded_insert ts d c i) as L. exact L.
  - intros ins tombs [i|i]; exact (law_loaded_batch ins tombs i).
  - intros ts d c [i|i]; [done|].
    pose proof (law_secondary_insert ts d c i) as L. exact L.
  - intros b [i|i]; exact (law_secondary_loaded b i).
  - intros ts d c [i|i] Hi; [done|].
    pose proof (law_inv_insert ts d c i Hi) as L. exact L.
  - intros ts d [i|i] Hi; [done|].
    pose proof (law_inv_tombstone ts d i Hi) as L. exact L.
  - intros ins tombs [i|i] Hnd Hi; [exact (law_inv_batch ins tombs i Hnd Hi)|].
    exact (law_inv_batch ins tombs i Hnd Hi).
  - intros b [i|i] Hi; exact (law_inv_loaded b i Hi).
  - intros [i|i] c; exact (law_for_each i c).
  - intros [i|i] c Hi Hs; exact (law_by_codomain i c Hi Hs).
Defined.

(** ** Main results *)

(** C36: updating the reverse map in groups, once per batch, gives the same
    index as inserting the entries and then the tombstones one at a time, on
    every batch that names no domain twice (as a working set never does). *)
Theorem grouped_batch_equals_sequential {D C} `{Countable D} `{RelationCodomain C}
    (ins : list (Timestamp * D * C)) (tombs : list (Timestamp * D))
    (s : SecondaryIndexRelation.t D C) :
  NoDup (batch_domains ins tombs) → sec_inv s →
  SecondaryIndexRelation.apply_batch ins tombs s =
  default_apply_batch SecondaryIndexRelation.insert_entry
    SecondaryIndexRelation.insert_tombstone ins tombs s.
Proof.
  intros Hnd Hs.
  destruct (sec_apply_batch ins tombs s Hnd Hs) as (sec1 & Hsec1 & Hok1).
  destruct (batch_entries ins tombs s) as [He1 Hl1].
  destruct (sec_fold_tombstone tombs _ (sec_fold_insert ins s Hs)) as (sec2 & Hsec2 & Hok2).
  destruct (sec_default_batch_inner ins tombs s) as [He2 Hl2].
  unfold default_apply_batch in *. cbn zeta in *.
  destruct (SecondaryIndexRelation.apply_batch ins tombs s) as [[m1 o1 l1]].
  destruct (fold_left _ tombs _) as [[m2 o2 l2]]. simpl in *. subst.
  do 3 f_equal. eapply sec_ok_unique; [exact Hok1|exact Hok2].
Qed.

#[local] Instance Z_codomain : RelationCodomain Z := {
  cod_rep := Z; cod_key := λ x, x; clone_for_commit := λ x, x;
  clone_for_commit_key := λ _, eq_refl;
}.

Lemma sec_inv_new {D C} `{Countable D} `{RelationCodomain C} :
  sec_inv (SecondaryIndexRelation.new (D := D) (C := C)).
Proof.
  exists ∅. split; [done|]. split; intros k; [by rewrite lookup_empty|].
  intros d. rewrite !lookup_empty. simpl. split; [set_solver|].
  intros (e & He & _). by rewrite lookup_empty in He.
Qed.

Lemma grouped_batch_equals_sequential_witness :
  let s := (SecondaryIndexRelation.insert_entry 1 7 100 SecondaryIndexRelation.new).1 in
  sec_inv s ∧
  SecondaryIndexRelation.apply_batch [(2, 7, 200); (2, 8, 200)] [(2, 9)] s =
  default_apply_batch SecondaryIndexRelation.insert_entry
    SecondaryIndexRelation.insert_tombstone [(2, 7, 200); (2, 8, 200)] [(2, 9)] s.
Proof.
  assert (sec_inv (SecondaryIndexRelation.insert_entry 1 7 100 SecondaryIndexRelation.new).1)
    as Hs by apply (sec_insert_entry 1 7 100), sec_inv_new.
  split; [exact Hs|].
  apply grouped_batch_equals_sequential; [|exact Hs].
  apply (bool_decide_unpack _). vm_compute. exact I.
Defined.

(** Two entries for one domain in the same batch do break the grouped update:
    the stale value keeps the domain. *)
Example grouped_batch_needs_distinct_domains :
  SecondaryIndexRelation.get_by_codomain
    (SecondaryIndexRelation.apply_batch [(1, 7, 100); (1, 7, 200)] []
       (SecondaryIndexRelation.new (D := Z) (C := Z))) 100 = [7].
Proof. vm_compute. reflexivity. Qed.
