(* ===== verification/RelTx.v ===== *)
(** One relation inside a transaction (crates/db/src/tx/transaction.rs and
    transaction/local_operations.rs): the log of local operations, reads
    through the log, the snapshot index and the backing store, and the working
    set handed to commit.

    Methods taking [&mut self] return the new transaction with their result;
    [&self] methods that fill the [RefCell] cache of the log do so too. A hash
    map is iterated in the order of [map_to_list]; the source's order is
    unspecified, and no statement below depends on it. *)
From S2P Require Import Prelude TxTypes RelIndex.
From stdpp Require Import base gmap sets list fin_maps.

Open Scope Z_scope.

(** ** Logged operations *)

Inductive OpType (C : Type) :=
| OpInsert (c : C)
| OpUpdate (c : C)
| OpDelete.
Arguments OpInsert {C} c.
Arguments OpUpdate {C} c.
Arguments OpDelete {C}.

Definition is_insert {C} (o : OpType C) : bool :=
  match o with OpInsert _ => true | _ => false end.
Definition is_update {C} (o : OpType C) : bool :=
  match o with OpUpdate _ => true | _ => false end.
Definition is_delete {C} (o : OpType C) : bool :=
  match o with OpDelete => true | _ => false end.

Record Op (C : Type) := mkOp {
  read_ts : Timestamp;
  write_ts : Timestamp;
  operation : OpType C;
  guaranteed_unique : bool;
}.
Arguments mkOp {C} _ _ _ _.
Arguments read_ts {C} _.
Arguments write_ts {C} _.
Arguments operation {C} _.
Arguments guaranteed_unique {C} _.

(** The value an operation leaves behind. *)
Definition op_value {C} (o : OpType C) : option C :=
  match o with OpInsert c | OpUpdate c => Some c | OpDelete => None end.

(** ** The local log, with its lazily built reverse index *)

Module LocalOperations.
Section defs.
Context {D C : Type} `{Countable D} `{RelationCodomain C}.

Record t := mk {
  entries : gmap D (Op C);
  codomains : option (list (C * list D));
}.

Definition new : t := mk ∅ None.

Definition is_empty (l : t) : bool := bool_decide (entries l = ∅).

Definition insert (domain : D) (op : Op C) (l : t) : t :=
  mk (<[domain := op]> (entries l)) None.

(** A mutable borrow of an entry drops the cache before it is handed out;
    [write_back] is the store through that borrow. *)
Definition get_mut (domain : D) (l : t) : option (t * Op C) :=
  match entries l !! domain with
  | Some entry => Some (mk (entries l) None, entry)
  | None => None
  end.

Definition write_back (domain : D) (op : Op C) (l : t) : t :=
  mk (<[domain := op]> (entries l)) (codomains l).

Definition into_map (l : t) : gmap D (Op C) := entries l.

(** Add a domain to the bucket of its value, opening one at the end if needed. *)
Fixpoint add_bucket (value : C) (domain : D) (buckets : list (C * list D))
  : list (C * list D) :=
  match buckets with
  | [] => [(value, [domain])]
  | (c, domains) :: rest =>
      if cod_eqb c value then (c, domains ++ [domain]) :: rest
      else (c, domains) :: add_bucket value domain rest
  end.

Definition build_buckets (m : gmap D (Op C)) : list (C * list D) :=
  fold_left (λ buckets '(domain, op),
    match op_value (operation op) with
    | Some value => add_bucket value domain buckets
    | None => buckets
    end) (map_to_list m) [].

Fixpoint find_bucket (codomain : C) (buckets : list (C * list D)) : list D :=
  match buckets with
  | [] => []
  | (c, domains) :: rest =>
      if cod_eqb c codomain then domains else find_bucket codomain rest
  end.

(** The domains visited, in order, and the log with its cache filled. *)
Definition for_each_by_codomain (codomain : C) (l : t) : t * list D :=
  let cache := match codomains l with
               | Some cache => cache
               | None => build_buckets (entries l)
               end in
  (mk (entries l) (Some cache), find_bucket codomain cache).
End defs.
Arguments t D C : clear implicits.
Arguments t D C {_ _}.
End LocalOperations.

(** ** The index a transaction reads: shared until first written *)

Inductive TransactionIndex (I : Type) :=
| TIShared (i : I)
| TIBorrowed (i : I)
| TIOwned (i : I).
Arguments TIShared {I} i.
Arguments TIBorrowed {I} i.
Arguments TIOwned {I} i.

Definition ti_deref {I} (m : TransactionIndex I) : I :=
  match m with TIShared i | TIBorrowed i | TIOwned i => i end.

(** [deref_mut] forks a shared index, then the caller updates the owned one. *)
Definition ti_update {I} (f : I → I) (m : TransactionIndex I) : TransactionIndex I :=
  TIOwned (f (ti_deref m)).

Definition into_shared {I} (m : TransactionIndex I) : I := ti_deref m.

(** ** Working sets *)

Module WorkingSet.
Record t (D C I : Type) `{Countable D} := mk {
  tuples : gmap D (Op C);
  base_index : I;
  provider_fully_loaded : bool;
}.
Arguments mk {D C I _ _} _ _ _.
Arguments tuples {D C I _ _} _.
Arguments base_index {D C I _ _} _.
Arguments provider_fully_loaded {D C I _ _} _.

Section defs.
Context {D C I : Type} `{Countable D} `{!RelationIndex I D C}.

Definition len (w : t D C I) : nat := size (tuples w).
Definition is_empty (w : t D C I) : bool := bool_decide (tuples w = ∅).
Definition with_tuples (m : gmap D (Op C)) (w : t D C I) : t D C I :=
  mk m (base_index w) (provider_fully_loaded w).

Definition base_value (w : t D C I) (domain : D) : option (Timestamp * C) :=
  match index_lookup (base_index w) domain with
  | Some entry => Some (entry_ts entry, entry_value entry)
  | None => None
  end.
End defs.
End WorkingSet.

(** ** The relation's state in a transaction *)

Module RelationTransaction.
Section defs.
Context {D C I P : Type} `{RelationDomain D} `{RelationCodomain C}
  `{!RelationIndex I D C} `{!Provider P D C}.

Record t := mk {
  tx : Tx;
  relation_name : Symbol;
  local_operations : LocalOperations.t D C;
  master_entries : TransactionIndex I;
  provider_fully_loaded : bool;
  backing_source : P;
}.

Definition new_shared (tx : Tx) (name : Symbol) (canonical : I) (source : P) : t :=
  mk tx name LocalOperations.new (TIShared canonical)
     (is_provider_fully_loaded canonical) source.

Definition new_borrowed (tx : Tx) (name : Symbol) (canonical : I) (source : P) : t :=
  mk tx name LocalOperations.new (TIBorrowed canonical)
     (is_provider_fully_loaded canonical) source.

Definition visible_ts (s : t) : Timestamp := tx_visible_ts (tx s).
Definition write_ts (s : t) : Timestamp := tx_ts (tx s).
Definition master (s : t) : I := ti_deref (master_entries s).

Definition with_local (l : LocalOperations.t D C) (s : t) : t :=
  mk (tx s) (relation_name s) l (master_entries s) (provider_fully_loaded s)
     (backing_source s).

(** [self.index.local_operations.insert(domain, op)]. *)
Definition log_op (domain : D) (op : Op C) (s : t) : t :=
  with_local (LocalOperations.insert domain op (local_operations s)) s.

Definition conflict_info (s : t) (domain : D) (ct : ConflictType) : ConflictInfo :=
  make_conflict_info (relation_name s) domain ct.

(** *** Reads of the backing store *)

Definition backing_get (s : t) (domain : D) : result (option (Timestamp * C)) Error :=
  let? row := provider_get (backing_source s) domain in
  match row with
  | None => Ok None
  | Some (ts, value) =>
      if visible_ts s <? ts
      then Err (Conflict (conflict_info s domain ConcurrentWrite))
      else Ok (Some (ts, value))
  end.

Definition backing_scan (s : t) (predicate : D → C → bool)
  : result (list (Timestamp * D * C)) Error :=
  let? rows := provider_scan (backing_source s) predicate in
  match List.find (λ '(ts, domain, _), (visible_ts s <? ts) &&
          match index_lookup (master s) domain with None => true | Some _ => false end) rows with
  | Some (_, domain, _) => Err (Conflict (conflict_info s domain ConcurrentWrite))
  | None => Ok rows
  end.

(** *** Mutations *)

Definition insert_fresh (domain : D) (value : C) (s : t) : t * result unit Error :=
  let op := mkOp (write_ts s) (write_ts s) (OpInsert value) false in
  match index_lookup (master s) domain with
  | Some _ => (s, Err Duplicate)
  | None =>
      if negb (provider_fully_loaded s) then
        match backing_get s domain with
        | Err e => (s, Err e)
        | Ok (Some _) => (s, Err Duplicate)
        | Ok None => (log_op domain op s, Ok tt)
        end
      else (log_op domain op s, Ok tt)
  end.

(** Recreating a deleted entry: an update of what the snapshot held, or a
    fresh insert of a key only this transaction had created. *)
Definition recreate (s : t) (entry : Op C) (value : C) : Op C :=
  if read_ts entry <=? visible_ts s
  then mkOp (read_ts entry) (write_ts s) (OpUpdate value) (guaranteed_unique entry)
  else mkOp (write_ts s) (write_ts s) (OpInsert value) (guaranteed_unique entry).

Definition insert (domain : D) (value : C) (s : t) : t * result unit Error :=
  if LocalOperations.is_empty (local_operations s) then insert_fresh domain value s
  else
    match LocalOperations.get_mut domain (local_operations s) with
    | Some (l, entry) =>
        if is_delete (operation entry)
        then (with_local (LocalOperations.write_back domain (recreate s entry value) l) s, Ok tt)
        else (with_local l s, Err Duplicate)
    | None => insert_fresh domain value s
    end.

Definition insert_guaranteed_unique (domain : D) (value : C) (s : t) : t * result unit Error :=
  (log_op domain (mkOp (write_ts s) (write_ts s) (OpInsert value) true) s, Ok tt).

(** The log entry of [domain], looked up only when there are mutations. *)
Definition local_entry_mut (domain : D) (s : t) : option (LocalOperations.t D C * Op C) :=
  if LocalOperations.is_empty (local_operations s) then None
  else LocalOperations.get_mut domain (local_operations s).

(** Replace the value of a logged insert or update, keeping its kind. *)
Definition replace_value (s : t) (entry : Op C) (value : C) : Op C :=
  mkOp (read_ts entry) (write_ts s)
    (match operation entry with
     | OpInsert _ => OpInsert value
     | OpUpdate _ => OpUpdate value
     | OpDelete => OpDelete
     end) (guaranteed_unique entry).

Definition update (domain : D) (value : C) (s : t) : t * result (option C) Error :=
  match local_entry_mut domain s with
  | Some (l, entry) =>
      match op_value (operation entry) with
      | None => (with_local l s, Ok None)
      | Some old_value =>
          (with_local (LocalOperations.write_back domain (replace_value s entry value) l) s,
           Ok (Some old_value))
      end
  | None =>
      match index_lookup (master s) domain with
      | Some entry =>
          if visible_ts s <? entry_ts entry then (s, Ok None)
          else (log_op domain (mkOp (entry_ts entry) (write_ts s) (OpUpdate value) false) s,
                Ok (Some (entry_value entry)))
      | None =>
          if provider_fully_loaded s then (s, Ok None)
          else match backing_get s domain with
               | Err e => (s, Err e)
               | Ok None => (s, Ok None)
               | Ok (Some (rts, backing_value)) =>
                   (log_op domain (mkOp rts (write_ts s) (OpUpdate value) false) s,
                    Ok (Some backing_value))
               end
      end
  end.

Definition upsert (domain : D) (value : C) (s : t) : t * result (option C) Error :=
  match local_entry_mut domain s with
  | Some (l, entry) =>
      match op_value (operation entry) with
      | None =>
          (with_local (LocalOperations.write_back domain (recreate s entry value) l) s, Ok None)
      | Some old_value =>
          (with_local (LocalOperations.write_back domain (replace_value s entry value) l) s,
           Ok (Some old_value))
      end
  | None =>
      match index_lookup (master s) domain with
      | Some entry =>
          (log_op domain (mkOp (entry_ts entry) (write_ts s) (OpUpdate value) false) s,
           Ok (Some (entry_value entry)))
      | None =>
          let inserted :=
            (log_op domain (mkOp (write_ts s) (write_ts s) (OpInsert value) false) s, Ok None) in
          if negb (provider_fully_loaded s) then
            match backing_get s domain with
            | Err e => (s, Err e)
            | Ok (Some (rts, backing_value)) =>
                (log_op domain (mkOp rts (write_ts s) (OpUpdate value) false) s,
                 Ok (Some backing_value))
            | Ok None => inserted
            end
          else inserted
      end
  end.

Definition upsert_with (domain : D) (f : option C → option C) (s : t)
  : t * result (option C) Error :=
  match local_entry_mut domain s with
  | Some (l, entry) =>
      match op_value (operation entry) with
      | None =>
          match f None with
          | Some new_value =>
              (with_local (LocalOperations.write_back domain (recreate s entry new_value) l) s,
               Ok None)
          | None => (with_local l s, Ok None)
          end
      | Some old_value =>
          match f (Some old_value) with
          | Some new_value =>
              (with_local (LocalOperations.write_back domain (replace_value s entry new_value) l) s,
               Ok (Some old_value))
          | None => (with_local l s, Ok (Some old_value))
          end
      end
  | None =>
      match index_lookup (master s) domain with
      | Some entry =>
          (match f (Some (entry_value entry)) with
           | Some new_value =>
               log_op domain (mkOp (entry_ts entry) (write_ts s) (OpUpdate new_value) false) s
           | None => s
           end, Ok (Some (entry_value entry)))
      | None =>
          let absent :=
            (match f None with
             | Some new_value =>
                 log_op domain (mkOp (write_ts s) (write_ts s) (OpInsert new_value) false) s
             | None => s
             end, Ok None) in
          if negb (provider_fully_loaded s) then
            match backing_get s domain with
            | Err e => (s, Err e)
            | Ok (Some (rts, backing_value)) =>
                (match f (Some backing_value) with
                 | Some new_value =>
                     log_op domain (mkOp rts (write_ts s) (OpUpdate new_value) false) s
                 | None => s
                 end, Ok (Some backing_value))
            | Ok None => absent
            end
          else absent
      end
  end.

Definition update_with (domain : D) (f : C → option C) (s : t) : t * result (option C) Error :=
  upsert_with domain (λ current, current ≫= f) s.

Definition delete (domain : D) (s : t) : t * result (option C) Error :=
  match local_entry_mut domain s with
  | Some (l, entry) =>
      match op_value (operation entry) with
      | None => (with_local l s, Ok None)
      | Some old_value =>
          (with_local (LocalOperations.write_back domain
             (mkOp (read_ts entry) (write_ts s) OpDelete (guaranteed_unique entry)) l) s,
           Ok (Some old_value))
      end
  | None =>
      match index_lookup (master s) domain with
      | Some entry =>
          (log_op domain (mkOp (entry_ts entry) (write_ts s) OpDelete false) s,
           Ok (Some (entry_value entry)))
      | None =>
          if provider_fully_loaded s then (s, Ok None)
          else match backing_get s domain with
               | Err e => (s, Err e)
               | Ok None => (s, Ok None)
               | Ok (Some (rts, backing_value)) =>
                   (log_op domain (mkOp rts (write_ts s) OpDelete false) s,
                    Ok (Some backing_value))
               end
      end
  end.

(** *** Reads *)

(** The log entry of [domain], for the methods that read it. *)
Definition local_entry (domain : D) (s : t) : option (Op C) :=
  if LocalOperations.is_empty (local_operations s) then None
  else LocalOperations.entries (local_operations s) !! domain.

Definition has_domain (domain : D) (s : t) : result bool Error :=
  match local_entry domain s with
  | Some op => Ok (negb (is_delete (operation op)))
  | None =>
      match index_lookup (master s) domain with
      | Some _ => Ok true
      | None =>
          if provider_fully_loaded s then Ok false
          else let? row := backing_get s domain in
               Ok (match row with Some _ => true | None => false end)
      end
  end.

Definition check_domain (s : t) (valid : gset D) (domain : D) : result (gset D) Error :=
  match local_entry domain s with
  | Some op =>
      match operation op with
      | OpDelete => Ok valid
      | OpInsert _ | OpUpdate _ => Ok ({[domain]} ∪ valid)
      end
  | None =>
      match index_lookup (master s) domain with
      | Some _ => Ok ({[domain]} ∪ valid)
      | None =>
          if provider_fully_loaded s then Ok valid
          else let? row := backing_get s domain in
               Ok (match row with Some _ => {[domain]} ∪ valid | None => valid end)
      end
  end.

Definition check_domains (domains : list D) (s : t) : result (gset D) Error :=
  fold_res (check_domain s) ∅ domains.

Definition get (domain : D) (s : t) : result (option C) Error :=
  if LocalOperations.is_empty (local_operations s) then
    match index_lookup (master s) domain with
    | Some entry => Ok (Some (entry_value entry))
    | None =>
        if provider_fully_loaded s then Ok None
        else let? row := backing_get s domain in Ok (snd <$> row)
    end
  else
    match LocalOperations.entries (local_operations s) !! domain with
    | Some op => Ok (op_value (operation op))
    | None =>
        match index_lookup (master s) domain with
        | Some entry => Ok (Some (entry_value entry))
        | None =>
            if provider_fully_loaded s then Ok None
            else let? row := backing_get s domain in Ok (snd <$> row)
        end
    end.

Definition with_domain_value {R} (domain : D) (f : C → R) (s : t) : result (option R) Error :=
  if LocalOperations.is_empty (local_operations s) then
    match index_lookup (master s) domain with
    | Some entry => Ok (Some (f (entry_value entry)))
    | None =>
        if provider_fully_loaded s then Ok None
        else let? row := backing_get s domain in Ok ((λ '(_, value), f value) <$> row)
    end
  else
    match LocalOperations.entries (local_operations s) !! domain with
    | Some op => Ok (f <$> op_value (operation op))
    | None =>
        match index_lookup (master s) domain with
        | Some entry => Ok (Some (f (entry_value entry)))
        | None =>
            if provider_fully_loaded s then Ok None
            else let? row := backing_get s domain in Ok ((λ '(_, value), f value) <$> row)
        end
    end.

(** Domains with no local operation, each reported once: the loop bodies push
    onto the visited list and the [seen] set. *)
Definition local_shadows (s : t) (domain : D) : bool :=
  match LocalOperations.entries (local_operations s) !! domain with
  | Some _ => true | None => false end.

Definition visit_once (s : t) (acc : gset D * list D) (domain : D) : gset D * list D :=
  let '(seen, out) := acc in
  if negb (local_shadows s domain) && negb (bool_decide (domain ∈ seen))
  then ({[domain]} ∪ seen, out ++ [domain]) else (seen, out).

Definition superseded (s : t) (codomain : C) (domain : D) : bool :=
  match index_lookup (master s) domain with
  | Some entry => negb (cod_eqb (entry_value entry) codomain)
  | None => false
  end.

Definition for_each_unloaded_by_codomain (codomain : C) (s : t) : result (list D) Error :=
  let? rows := backing_scan s (λ _ value, cod_eqb value codomain) in
  let acc := fold_left (λ acc '(_, domain, _),
               if superseded s codomain domain then acc else visit_once s acc domain)
               rows (∅, []) in
  Ok (fold_left (visit_once s) (for_each_by_codomain (master s) codomain) acc).2.

Definition for_each_by_codomain (codomain : C) (s : t) : t * result (list D) Error :=
  match (if provider_fully_loaded s
         then Ok (filter (λ domain, local_shadows s domain = false)
                    (RelIndex.for_each_by_codomain (master s) codomain))
         else for_each_unloaded_by_codomain codomain s) with
  | Err e => (s, Err e)
  | Ok visited =>
      if LocalOperations.is_empty (local_operations s) then (s, Ok visited)
      else let '(l, locals) :=
             LocalOperations.for_each_by_codomain codomain (local_operations s) in
           (with_local l s, Ok (visited ++ locals))
  end.

Definition get_by_codomain (codomain : C) (s : t) : t * result (list D) Error :=
  for_each_by_codomain codomain s.

(** Overlay the log on collected results; [keep] is the predicate of a scan. *)
Definition overlay_results (keep : D → C → bool) (s : t) (results : gmap D C) : gmap D C :=
  fold_left (λ results '(domain, op),
    match op_value (operation op) with
    | Some value => if keep domain value then <[domain := value]> results else results
    | None => base.delete domain results
    end) (map_to_list (LocalOperations.entries (local_operations s))) results.

Definition collect_master (keep : D → C → bool) (s : t) (results : gmap D C) : gmap D C :=
  fold_left (λ results '(domain, entry),
    if (entry_ts entry <=? visible_ts s) && keep domain (entry_value entry)
    then <[domain := entry_value entry]> results else results)
    (idx_iter (master s)) results.

Definition scan (predicate : D → C → bool) (s : t) : result (gmap D C) Error :=
  if provider_fully_loaded s
  then Ok (overlay_results predicate s (collect_master predicate s ∅))
  else
    let? rows := backing_scan s predicate in
    let results := fold_left (λ results '(_, domain, value),
        if match index_lookup (master s) domain with None => true | Some _ => false end
           && predicate domain value
        then <[domain := value]> results else results) rows ∅ in
    Ok (overlay_results predicate s (collect_master predicate s results)).

Definition fully_load_from_provider (s : t) : result t Error :=
  let? provider_data := backing_scan s (λ _ _, true) in
  let m := fold_left (λ m '(ts, domain, codomain),
      match index_lookup (ti_deref m) domain with
      | None => ti_update (λ i, (insert_entry ts domain codomain i).1) m
      | Some _ => m
      end) provider_data (master_entries s) in
  Ok (mk (tx s) (relation_name s) (local_operations s)
        (ti_update (set_provider_fully_loaded true) m)
        (provider_fully_loaded s) (backing_source s)).

Definition get_all (s : t) : t * result (gmap D C) Error :=
  let loaded :=
    if provider_fully_loaded s then Ok s
    else let? s' := fully_load_from_provider s in
         Ok (mk (tx s') (relation_name s') (local_operations s') (master_entries s')
                true (backing_source s')) in
  match loaded with
  | Err e => (s, Err e)
  | Ok s' => (s', Ok (overlay_results (λ _ _, true) s' (collect_master (λ _ _, true) s' ∅)))
  end.

Definition bulk_get_one (s : t) (results : gmap D C) (domain : D) : result (gmap D C) Error :=
  match local_entry domain s with
  | Some op =>
      match op_value (operation op) with
      | None => Ok results
      | Some value => Ok (<[domain := value]> results)
      end
  | None =>
      let fallback :=
        if provider_fully_loaded s then Ok results
        else let? row := backing_get s domain in
             Ok (match row with Some (_, value) => <[domain := value]> results
                              | None => results end) in
      match index_lookup (master s) domain with
      | Some entry =>
          if entry_ts entry <=? visible_ts s
          then Ok (<[domain := entry_value entry]> results) else fallback
      | None => fallback
      end
  end.

Definition bulk_get (domains : list D) (s : t) : result (gmap D C) Error :=
  fold_res (bulk_get_one s) ∅ domains.

Definition has_mutations (s : t) : bool :=
  negb (LocalOperations.is_empty (local_operations s)).

Definition working_set (s : t) : WorkingSet.t D C I :=
  WorkingSet.mk (LocalOperations.into_map (local_operations s))
    (into_shared (master_entries s)) (provider_fully_loaded s).
End defs.
Arguments t D C I P {_ _}.
End RelationTransaction.
