(* ===== verification/RelTxSpec.v ===== *)
(** What a transaction's relation promises: a private finite map.

    [view] is the map a transaction sees (its log over the rows visible in its
    snapshot). [cmd]/[exec] are the public operations of [RelationTransaction],
    and [spec] says what each does to the map. [wf] is the invariant of the
    state, including the provenance of every logged operation, on which the
    commit check relies. *)
From S2P Require Import Prelude TxTypes RelIndex RelTx.
From stdpp Require Import base gmap sets list fin_maps.

Open Scope Z_scope.

(** ** Operations and the specification *)

Inductive cmd (D C : Type) :=
| CInsert (d : D) (v : C)
| CInsertUnique (d : D) (v : C)
| CUpdate (d : D) (v : C)
| CUpsert (d : D) (v : C)
| CUpsertWith (d : D) (f : option C → option C)
| CUpdateWith (d : D) (f : C → option C)
| CDelete (d : D)
| CGet (d : D)
| CWithValue (d : D) (f : C → C)
| CHasDomain (d : D)
| CScanKeys (f : D → bool)
| CGetAll
| CBulkGet (ds : list D)
| CCheckDomains (ds : list D)
| CByCodomain (c : C).
Arguments CInsert {D C}. Arguments CInsertUnique {D C}. Arguments CUpdate {D C}.
Arguments CUpsert {D C}. Arguments CUpsertWith {D C}. Arguments CUpdateWith {D C}.
Arguments CDelete {D C}. Arguments CGet {D C}. Arguments CWithValue {D C}.
Arguments CHasDomain {D C}. Arguments CScanKeys {D C}. Arguments CGetAll {D C}.
Arguments CBulkGet {D C}. Arguments CCheckDomains {D C}. Arguments CByCodomain {D C}.

Inductive out (D C : Type) `{Countable D} :=
| OutUnit
| OutVal (o : option C)
| OutBool (b : bool)
| OutMap (m : gmap D C)
| OutSet (X : gset D)
| OutList (l : list D)
| OutErr (e : Error).
Arguments OutUnit {D C _ _}. Arguments OutVal {D C _ _}. Arguments OutBool {D C _ _}.
Arguments OutMap {D C _ _}. Arguments OutSet {D C _ _}. Arguments OutList {D C _ _}.
Arguments OutErr {D C _ _}.

Definition to_out {D C A} `{Countable D} (f : A → out D C) (r : result A Error) : out D C :=
  match r with Ok a => f a | Err e => OutErr e end.

Definition spec {D C} `{Countable D} `{RelationCodomain C}
    (c : cmd D C) (M : gmap D C) (o : out D C) (M' : gmap D C) : Prop :=
  match c with
  | CInsert d v =>
      match M !! d with
      | Some _ => o = OutErr Duplicate ∧ M' = M
      | None => o = OutUnit ∧ M' = <[d := v]> M
      end
  | CInsertUnique d v => o = OutUnit ∧ M' = <[d := v]> M
  | CUpdate d v =>
      o = OutVal (M !! d) ∧ M' = match M !! d with Some _ => <[d := v]> M | None => M end
  | CUpsert d v => o = OutVal (M !! d) ∧ M' = <[d := v]> M
  | CUpsertWith d f =>
      o = OutVal (M !! d) ∧ M' = match f (M !! d) with Some v => <[d := v]> M | None => M end
  | CUpdateWith d f =>
      o = OutVal (M !! d) ∧ M' = match M !! d ≫= f with Some v => <[d := v]> M | None => M end
  | CDelete d => o = OutVal (M !! d) ∧ M' = delete d M
  | CGet d => o = OutVal (M !! d) ∧ M' = M
  | CWithValue d f => o = OutVal (f <$> M !! d) ∧ M' = M
  | CHasDomain d => o = OutBool (bool_decide (is_Some (M !! d))) ∧ M' = M
  | CScanKeys f => o = OutMap (filter (λ x, f x.1 = true) M) ∧ M' = M
  | CGetAll => o = OutMap M ∧ M' = M
  | CBulkGet ds => o = OutMap (filter (λ x, x.1 ∈ ds) M) ∧ M' = M
  | CCheckDomains ds => o = OutSet (dom M ∩ list_to_set ds) ∧ M' = M
  | CByCodomain c =>
      M' = M ∧ ∃ l, o = OutList l ∧ NoDup l ∧
        ∀ d, d ∈ l ↔ ∃ v, M !! d = Some v ∧ cod_key v = cod_key c
  end.

Section exec.
Context {D C I P : Type} `{RelationDomain D} `{RelationCodomain C}
  `{!RelationIndex I D C} `{!Provider P D C}.
Import RelationTransaction.

Definition exec (c : cmd D C) (s : t D C I P) : t D C I P * out D C :=
  match c with
  | CInsert d v => let '(s', r) := insert d v s in (s', to_out (λ _, OutUnit) r)
  | CInsertUnique d v =>
      let '(s', r) := insert_guaranteed_unique d v s in (s', to_out (λ _, OutUnit) r)
  | CUpdate d v => let '(s', r) := update d v s in (s', to_out OutVal r)
  | CUpsert d v => let '(s', r) := upsert d v s in (s', to_out OutVal r)
  | CUpsertWith d f => let '(s', r) := upsert_with d f s in (s', to_out OutVal r)
  | CUpdateWith d f => let '(s', r) := update_with d f s in (s', to_out OutVal r)
  | CDelete d => let '(s', r) := delete d s in (s', to_out OutVal r)
  | CGet d => (s, to_out OutVal (get d s))
  | CWithValue d f => (s, to_out OutVal (with_domain_value d f s))
  | CHasDomain d => (s, to_out OutBool (has_domain d s))
  | CScanKeys f => (s, to_out OutMap (scan (λ d _, f d) s))
  | CGetAll => let '(s', r) := get_all s in (s', to_out OutMap r)
  | CBulkGet ds => (s, to_out OutMap (bulk_get ds s))
  | CCheckDomains ds => (s, to_out OutSet (check_domains ds s))
  | CByCodomain c => let '(s', r) := get_by_codomain c s in (s', to_out OutList r)
  end.

Fixpoint exec_all (cs : list (cmd D C)) (s : t D C I P) : t D C I P * list (out D C) :=
  match cs with
  | [] => (s, [])
  | c :: cs' =>
      let '(s1, o) := exec c s in
      let '(s2, os) := exec_all cs' s1 in (s2, o :: os)
  end.
End exec.

(** A sequence of operations and their results, explained by the map. *)
Inductive spec_all {D C} `{Countable D} `{RelationCodomain C}
  : list (cmd D C) → gmap D C → list (out D C) → gmap D C → Prop :=
| spec_nil M : spec_all [] M [] M
| spec_cons c cs M o M1 os M2 :
    spec c M o M1 → spec_all cs M1 os M2 → spec_all (c :: cs) M (o :: os) M2.

(** ** The map a transaction sees, and its invariant *)

Section view.
Context {D C I P : Type} `{RelationDomain D} `{RelationCodomain C}
  `{!RelationIndex I D C} `{!RelationIndexLaws I D C} `{!Provider P D C}.
Import RelationTransaction.
Implicit Types s : t D C I P.
Implicit Types pm : gmap D (Timestamp * C).

Definition row_entry (row : Timestamp * C) : Entry C := mkEntry row.1 row.2.

(** The rows a transaction's snapshot holds: the index, completed by the
    store [pm] while the index is not authoritative. *)
Definition base_rows pm s : gmap D (Entry C) :=
  if provider_fully_loaded s then idx_entries (master s)
  else idx_entries (master s) ∪ (row_entry <$> pm).

(** The rows of a snapshot: its index, completed by the store while the index
    is not authoritative. *)
Definition snapshot_rows (canonical : I) (pm : gmap D (Timestamp * C)) : gmap D (Entry C) :=
  if is_provider_fully_loaded canonical then idx_entries canonical
  else idx_entries canonical ∪ (row_entry <$> pm).

Definition overlay (ops : gmap D (Op C)) (rows : gmap D (Entry C)) : gmap D C :=
  merge (λ op e, match op with
                 | Some op => op_value (operation op)
                 | None => entry_value <$> e
                 end) ops rows.

Definition log s : gmap D (Op C) := LocalOperations.entries (local_operations s).

Definition view pm s : gmap D C := overlay (log s) (base_rows pm s).

(** Provenance: what the logged operation assumes of the snapshot row. *)
Definition op_provenance (own : Timestamp) (row : option (Entry C)) (op : Op C) : Prop :=
  RelTx.write_ts op = own ∧
  match operation op, row with
  | OpInsert _, None | OpDelete, None => read_ts op = own
  | OpUpdate _, Some e | OpDelete, Some e => read_ts op = entry_ts e
  | OpInsert _, Some _ | OpUpdate _, None => False
  end.

Record wf pm s : Prop := {
  wf_ts : visible_ts s < write_ts s;
  wf_provider : ProviderModel (backing_source s) pm;
  wf_settled d e : base_rows pm s !! d = Some e → entry_ts e ≤ visible_ts s;
  wf_ops d op : log s !! d = Some op → op_provenance (write_ts s) (base_rows pm s !! d) op;
  wf_cache cache : LocalOperations.codomains (local_operations s) = Some cache →
    cache = LocalOperations.build_buckets (log s);
  wf_index : idx_inv (master s);
}.

(** What the caller of an operation must provide: a guaranteed-unique key is
    new, and reverse lookups are made on relations with a secondary index. *)
Definition allowed pm (c : cmd D C) s : Prop :=
  match c with
  | CInsertUnique d _ => base_rows pm s !! d = None
  | CByCodomain _ => has_secondary_index (master s) = true
  | _ => True
  end.
End view.
