(* ===== verification/RelTxProofs.v ===== *)
(** The transaction's relation refines its specification: every operation,
    and every sequence of operations, behaves as on a private finite map,
    keeps the invariant, and never disturbs the snapshot rows. *)
From S2P Require Import Prelude TxTypes RelIndex RelTx RelTxSpec.
From stdpp Require Import base gmap sets list fin_maps.

Open Scope Z_scope.

Section proofs.
Context {D C I P : Type} `{RelationDomain D} `{RelationCodomain C}
  `{!RelationIndex I D C} `{!RelationIndexLaws I D C} `{!Provider P D C}.
Import RelationTransaction.
Implicit Types s : t D C I P.
Context (pm : gmap D (Timestamp * C)).

(** ** Looking at the snapshot rows *)

Lemma view_lookup s d :
  view pm s !! d = match log s !! d with
                   | Some op => op_value (operation op)
                   | None => entry_value <$> base_rows pm s !! d
                   end.
Proof.
  unfold view, overlay. rewrite lookup_merge.
  destruct (log s !! d), (base_rows pm s !! d); done.
Qed.

(** Where a row comes from: the index, nowhere, or the store. *)
Inductive row_source s d : Prop :=
| row_indexed e : index_lookup (master s) d = Some e → base_rows pm s !! d = Some e →
    entry_ts e ≤ visible_ts s → row_source s d
| row_absent : index_lookup (master s) d = None → provider_fully_loaded s = true →
    base_rows pm s !! d = None → row_source s d
| row_stored row : index_lookup (master s) d = None → provider_fully_loaded s = false →
    backing_get s d = Ok row → base_rows pm s !! d = row_entry <$> row → row_source s d.

Lemma find_row s d : wf pm s → row_source s d.
Proof.
  intros Hwf. pose proof (law_lookup (master s) d) as Hl.
  destruct (index_lookup (master s) d) as [e|] eqn:Hi; [eapply row_indexed; [done|..]|].
  - unfold base_rows. destruct (provider_fully_loaded s); [by rewrite <- Hl|].
    apply lookup_union_Some_l. by rewrite <- Hl.
  - apply (wf_settled _ _ Hwf d). unfold base_rows.
    destruct (provider_fully_loaded s); [by rewrite <- Hl|].
    apply lookup_union_Some_l. by rewrite <- Hl.
  - destruct (provider_fully_loaded s) eqn:Hf.
    + apply row_absent; [done|done|]. unfold base_rows. by rewrite Hf, <- Hl.
    + assert (base_rows pm s !! d = row_entry <$> pm !! d) as Hb.
      { unfold base_rows. rewrite Hf, lookup_union_r by (by rewrite <- Hl).
        by rewrite lookup_fmap. }
      eapply row_stored; [done|done| |exact Hb].
      unfold backing_get. rewrite (pm_get _ _ (wf_provider _ _ Hwf)).
      destruct (pm !! d) as [[ts v]|] eqn:Hd; [|done].
      assert (entry_ts (mkEntry ts v) ≤ visible_ts s) as Hle.
      { apply (wf_settled _ _ Hwf d). by rewrite Hb. }
      simpl in Hle. by rewrite (proj2 (Z.ltb_ge _ _)).
Qed.

Lemma log_is_empty s d :
  LocalOperations.is_empty (local_operations s) = true → log s !! d = None.
Proof.
  unfold LocalOperations.is_empty, log. intros He%bool_decide_eq_true.
  by rewrite He, lookup_empty.
Qed.

Lemma local_entry_log s d : local_entry d s = log s !! d.
Proof.
  unfold local_entry. destruct (LocalOperations.is_empty _) eqn:He; [|done].
  by rewrite log_is_empty.
Qed.

Lemma local_entry_mut_log s d :
  local_entry_mut d s =
  (λ op, (LocalOperations.mk (log s) None, op)) <$> log s !! d.
Proof.
  unfold local_entry_mut, LocalOperations.get_mut.
  destruct (LocalOperations.is_empty _) eqn:He; [by rewrite log_is_empty|].
  unfold log. by destruct (LocalOperations.entries _ !! d).
Qed.

(** ** Writing the log *)

(** The state with the operation of [d] replaced, its cache dropped. *)
Definition set_op s d (op : Op C) : t D C I P :=
  with_local (LocalOperations.mk (<[d := op]> (log s)) None) s.

Lemma log_op_set_op s d op : log_op d op s = set_op s d op.
Proof. done. Qed.

Lemma write_back_set_op s d op :
  with_local (LocalOperations.write_back d op (LocalOperations.mk (log s) None)) s = set_op s d op.
Proof. done. Qed.

Lemma set_op_wf s d op :
  wf pm s → op_provenance (write_ts s) (base_rows pm s !! d) op → wf pm (set_op s d op).
Proof.
  intros [Hts Hp Hset Hops Hc Hi] Hop. split; try done.
  intros d' op'. unfold set_op, log, with_local; simpl.
  intros [[<- <-]|[Hne Hl]]%lookup_insert_Some; [done|by apply Hops].
Qed.

Lemma set_op_view s d op :
  view pm (set_op s d op) = match op_value (operation op) with
                            | Some v => <[d := v]> (view pm s)
                            | None => base.delete d (view pm s)
                            end.
Proof.
  apply map_eq. intros d'. rewrite view_lookup.
  change (log (set_op s d op)) with (<[d := op]> (log s)).
  change (base_rows pm (set_op s d op)) with (base_rows pm s).
  rewrite lookup_insert. destruct (op_value (operation op)) as [v|] eqn:Hv;
    rewrite ?lookup_insert, ?lookup_delete; case_decide; rewrite ?view_lookup; congruence.
Qed.

(** Dropping the cache alone (a borrow that writes nothing back). *)
Lemma drop_cache_wf s : wf pm s → wf pm (with_local (LocalOperations.mk (log s) None) s).
Proof. intros [Hts Hp Hset Hops Hc Hi]. by split. Qed.

Lemma drop_cache_view s : view pm (with_local (LocalOperations.mk (log s) None) s) = view pm s.
Proof. done. Qed.

(** A step that keeps the snapshot rows and the identity of the transaction. *)
Definition same_snapshot s s' : Prop :=
  base_rows pm s' = base_rows pm s ∧ tx s' = tx s ∧
  has_secondary_index (master s') = has_secondary_index (master s).

(** The outcome of an operation on map [M] leading to map [M']. *)
Definition steps_to s M' s' : Prop :=
  wf pm s' ∧ view pm s' = M' ∧ same_snapshot s s'.

Lemma steps_same s : wf pm s → steps_to s (view pm s) s.
Proof. done. Qed.

Lemma steps_drop_cache s :
  wf pm s → steps_to s (view pm s) (with_local (LocalOperations.mk (log s) None) s).
Proof. intros Hwf. split_and!; [by apply drop_cache_wf|done|done]. Qed.

Lemma steps_insert s d v op :
  wf pm s → op_value (operation op) = Some v →
  op_provenance (write_ts s) (base_rows pm s !! d) op →
  steps_to s (<[d := v]> (view pm s)) (set_op s d op).
Proof.
  intros Hwf Hv Hop. split; [by apply set_op_wf|]. split; [|done]. by rewrite set_op_view, Hv.
Qed.

Lemma steps_delete s d op :
  wf pm s → op_value (operation op) = None →
  op_provenance (write_ts s) (base_rows pm s !! d) op →
  steps_to s (base.delete d (view pm s)) (set_op s d op).
Proof.
  intros Hwf Hv Hop. split; [by apply set_op_wf|]. split; [|done]. by rewrite set_op_view, Hv.
Qed.

(** Provenance of the rewritten log entries. *)
Lemma recreate_provenance s d entry v :
  wf pm s → log s !! d = Some entry → op_value (operation entry) = None →
  op_provenance (write_ts s) (base_rows pm s !! d) (recreate s entry v).
Proof.
  intros Hwf Hl Hv. destruct (wf_ops _ _ Hwf _ _ Hl) as [_ Hp].
  pose proof (wf_ts _ _ Hwf). unfold recreate, op_provenance.
  destruct (operation entry); simplify_eq/=.
  destruct (base_rows pm s !! d) as [e|] eqn:Hb.
  - pose proof (wf_settled _ _ Hwf _ _ Hb). rewrite Hp.
    by rewrite (proj2 (Z.leb_le _ _)).
  - rewrite Hp. rewrite (proj2 (Z.leb_gt _ _)) by done. done.
Qed.

Lemma recreate_value s entry v : op_value (operation (recreate s entry v)) = Some v.
Proof. unfold recreate. by destruct (_ <=? _). Qed.

Lemma replace_provenance s d entry v :
  wf pm s → log s !! d = Some entry → is_Some (op_value (operation entry)) →
  op_provenance (write_ts s) (base_rows pm s !! d) (replace_value s entry v) ∧
  op_value (operation (replace_value s entry v)) = Some v.
Proof.
  intros Hwf Hl [v0 Hv]. destruct (wf_ops _ _ Hwf _ _ Hl) as [_ Hp].
  unfold replace_value, op_provenance. by destruct (operation entry).
Qed.

Lemma delete_provenance s d entry :
  wf pm s → log s !! d = Some entry →
  op_provenance (write_ts s) (base_rows pm s !! d)
    (mkOp (read_ts entry) (write_ts s) OpDelete (guaranteed_unique entry)).
Proof.
  intros Hwf Hl. destruct (wf_ops _ _ Hwf _ _ Hl) as [_ Hp]. unfold op_provenance; simpl.
  by destruct (operation entry), (base_rows pm s !! d).
Qed.

(** ** Each operation *)

Definition refines (c : cmd D C) s : Prop :=
  ∃ M', steps_to s M' (exec c s).1 ∧ spec c (view pm s) (exec c s).2 M'.

(** Case analysis on where the row of [d] lives. *)
Ltac row_cases s d Hwf :=
  pose proof (view_lookup s d) as Hview;
  let op := fresh "op" in let Hlog := fresh "Hlog" in
  destruct (log s !! d) as [op|] eqn:Hlog; simpl;
  [|destruct (find_row s d Hwf) as [e Hidx Hbase Hle|Hidx Hload Hbase|row Hidx Hload Hget Hbase];
    rewrite Hbase in Hview; simpl in Hview;
    rewrite ?Hidx, ?Hload, ?Hget; simpl].

(** The provenance of an operation logged for the first time. *)
Ltac provenance Hbase := unfold op_provenance; simpl; rewrite Hbase; simpl; done.

Lemma insert_fresh_refines s d v :
  wf pm s → log s !! d = None →
  ∃ M', steps_to s M' (insert_fresh d v s).1 ∧
    spec (CInsert d v) (view pm s) (to_out (λ _, OutUnit) (insert_fresh d v s).2) M'.
Proof.
  intros Hwf Hlog0. unfold insert_fresh. row_cases s d Hwf; simplify_eq.
  - exists (view pm s). split; [by apply steps_same|]. simpl. by rewrite Hview.
  - exists (<[d := v]> (view pm s)). split; [|simpl; by rewrite Hview].
    apply steps_insert; [done|done|provenance Hbase].
  - destruct row as [[ts c]|]; simpl in *.
    + exists (view pm s). split; [by apply steps_same|]. by rewrite Hview.
    + exists (<[d := v]> (view pm s)). split; [|by rewrite Hview].
      apply steps_insert; [done|done|provenance Hbase].
Qed.

Lemma insert_refines s d v : wf pm s → refines (CInsert d v) s.
Proof.
  intros Hwf. unfold refines, exec. rewrite (surjective_pairing (insert d v s)). cbn [fst snd].
  unfold insert. destruct (LocalOperations.is_empty _) eqn:He.
  { apply insert_fresh_refines; [done|by apply log_is_empty]. }
  unfold LocalOperations.get_mut. fold (log s).
  destruct (log s !! d) as [op|] eqn:Hlog; [|by apply insert_fresh_refines].
  pose proof (view_lookup s d) as Hview. rewrite Hlog in Hview. simpl.
  destruct (operation op) eqn:Hop; simpl in *.
  1,2: exists (view pm s); rewrite Hview; by split; [apply steps_drop_cache|].
  exists (<[d := v]> (view pm s)). rewrite Hview. split; [|done].
  apply steps_insert; [done|apply recreate_value|].
  apply recreate_provenance; [done|done|by rewrite Hop].
Qed.

Lemma insert_unique_refines s d v :
  wf pm s → base_rows pm s !! d = None → refines (CInsertUnique d v) s.
Proof.
  intros Hwf Hb. exists (<[d := v]> (view pm s)). split; [|done].
  apply steps_insert; [done|done|provenance Hb].
Qed.

Lemma update_refines s d v : wf pm s → refines (CUpdate d v) s.
Proof.
  intros Hwf. unfold refines, exec. rewrite (surjective_pairing (update d v s)). cbn [fst snd].
  unfold update. rewrite local_entry_mut_log. row_cases s d Hwf.
  - destruct (op_value (operation op)) as [v0|] eqn:Hv; simpl; eexists;
      (split; [|simpl; rewrite Hview; done]).
    + destruct (replace_provenance s d op v Hwf Hlog) as [Hp Hv']; [by rewrite Hv|].
      by apply steps_insert.
    + by apply steps_drop_cache.
  - rewrite (proj2 (Z.ltb_ge _ _)) by done. eexists; split; [|simpl; rewrite Hview; done].
    apply steps_insert; [done|done|provenance Hbase].
  - eexists; split; [|simpl; rewrite Hview; done]. by apply steps_same.
  - destruct row as [[ts c]|]; simpl in *; eexists; (split; [|rewrite Hview; done]).
    + apply steps_insert; [done|done|provenance Hbase].
    + by apply steps_same.
Qed.

Lemma upsert_refines s d v : wf pm s → refines (CUpsert d v) s.
Proof.
  intros Hwf. unfold refines, exec. rewrite (surjective_pairing (upsert d v s)). cbn [fst snd].
  unfold upsert. rewrite local_entry_mut_log. exists (<[d := v]> (view pm s)).
  row_cases s d Hwf; simpl.
  - destruct (op_value (operation op)) as [v0|] eqn:Hv; simpl; rewrite Hview; (split; [|done]).
    + destruct (replace_provenance s d op v Hwf Hlog) as [Hp Hv']; [by rewrite Hv|].
      by apply steps_insert.
    + apply steps_insert; [done|apply recreate_value|by apply recreate_provenance].
  - rewrite Hview. split; [|done]. apply steps_insert; [done|done|provenance Hbase].
  - rewrite Hview. split; [|done]. apply steps_insert; [done|done|provenance Hbase].
  - destruct row as [[ts c]|]; simpl in *; rewrite Hview; (split; [|done]);
      (apply steps_insert; [done|done|provenance Hbase]).
Qed.

Lemma upsert_with_steps s d f :
  wf pm s →
  (upsert_with d f s).2 = Ok (view pm s !! d) ∧
  steps_to s (match f (view pm s !! d) with
              | Some v => <[d := v]> (view pm s) | None => view pm s end)
    (upsert_with d f s).1.
Proof.
  intros Hwf. unfold upsert_with. rewrite local_entry_mut_log. row_cases s d Hwf.
  - destruct (op_value (operation op)) as [v0|] eqn:Hv; simpl; rewrite Hview.
    + destruct (f (Some v0)) as [v|]; simpl; (split; [done|]); [|by apply steps_drop_cache].
      destruct (replace_provenance s d op v Hwf Hlog) as [Hp Hv']; [by rewrite Hv|].
      by apply steps_insert.
    + destruct (f None) as [v|]; simpl; (split; [done|]); [|by apply steps_drop_cache].
      apply steps_insert; [done|apply recreate_value|by apply recreate_provenance].
  - rewrite Hview. split; [done|]. destruct (f _); [|by apply steps_same].
    apply steps_insert; [done|done|provenance Hbase].
  - rewrite Hview. split; [done|]. destruct (f _); [|by apply steps_same].
    apply steps_insert; [done|done|provenance Hbase].
  - destruct row as [[ts c]|]; simpl in *; rewrite Hview; (split; [done|]);
      (destruct (f _); [|by apply steps_same]);
      (apply steps_insert; [done|done|provenance Hbase]).
Qed.

Lemma upsert_with_refines s d f : wf pm s → refines (CUpsertWith d f) s.
Proof.
  intros Hwf. destruct (upsert_with_steps s d f Hwf) as [Hr Hs].
  unfold refines, exec. rewrite (surjective_pairing (upsert_with d f s)). cbn [fst snd].
  eexists; split; [exact Hs|]. by rewrite Hr.
Qed.

Lemma update_with_refines s d f : wf pm s → refines (CUpdateWith d f) s.
Proof.
  intros Hwf. destruct (upsert_with_steps s d (λ cur, cur ≫= f) Hwf) as [Hr Hs].
  unfold refines, exec, update_with.
  rewrite (surjective_pairing (upsert_with d (λ cur, cur ≫= f) s)). cbn [fst snd].
  eexists; split; [exact Hs|]. by rewrite Hr.
Qed.

Lemma delete_refines s d : wf pm s → refines (CDelete d) s.
Proof.
  intros Hwf. unfold refines, exec. rewrite (surjective_pairing (delete d s)). cbn [fst snd].
  exists (base.delete d (view pm s)).
  assert (view pm s !! d = None → steps_to s (base.delete d (view pm s)) s) as Hsame.
  { intros Hn. rewrite delete_id by done. by apply steps_same. }
  unfold delete. rewrite local_entry_mut_log. row_cases s d Hwf.
  - destruct (op_value (operation op)) as [v0|] eqn:Hv; simpl; rewrite Hview; (split; [|done]).
    + apply steps_delete; [done|done|by apply delete_provenance].
    + rewrite delete_id by done. by apply steps_drop_cache.
  - rewrite Hview. split; [|done]. apply steps_delete; [done|done|provenance Hbase].
  - rewrite Hview. split; [by apply Hsame|done].
  - destruct row as [[ts c]|]; simpl in *; rewrite Hview; (split; [|done]); [|by apply Hsame].
    apply steps_delete; [done|done|provenance Hbase].
Qed.

(** ** Reads *)

Lemma get_view s d : wf pm s → get d s = Ok (view pm s !! d).
Proof.
  intros Hwf. unfold get. destruct (LocalOperations.is_empty _) eqn:He.
  - pose proof (log_is_empty s d He) as Hlog0. row_cases s d Hwf; simplify_eq; rewrite Hview.
    + done.
    + done.
    + by destruct row as [[ts c]|].
  - fold (log s). row_cases s d Hwf; rewrite Hview; [done|done|done|].
    by destruct row as [[ts c]|].
Qed.

Lemma with_domain_value_view {R} s d (f : C → R) :
  wf pm s → with_domain_value d f s = Ok (f <$> view pm s !! d).
Proof.
  intros Hwf. unfold with_domain_value. destruct (LocalOperations.is_empty _) eqn:He.
  - pose proof (log_is_empty s d He) as Hlog0. row_cases s d Hwf; simplify_eq; rewrite Hview.
    + done.
    + done.
    + by destruct row as [[ts c]|].
  - fold (log s). row_cases s d Hwf; rewrite Hview; [done|done|done|].
    by destruct row as [[ts c]|].
Qed.

Lemma has_domain_view s d :
  wf pm s → has_domain d s = Ok (bool_decide (is_Some (view pm s !! d))).
Proof.
  intros Hwf. unfold has_domain. rewrite local_entry_log.
  row_cases s d Hwf; rewrite Hview; [by destruct (operation op)|done|done|].
  by destruct row as [[ts c]|].
Qed.

Lemma check_domain_view s X d :
  wf pm s → check_domain s X d =
  Ok (if decide (is_Some (view pm s !! d)) then {[d]} ∪ X else X).
Proof.
  intros Hwf. unfold check_domain. rewrite local_entry_log.
  row_cases s d Hwf; rewrite Hview; [by destruct (operation op)|done|done|].
  by destruct row as [[ts c]|].
Qed.

Lemma check_domains_view s ds :
  wf pm s → check_domains ds s = Ok (dom (view pm s) ∩ list_to_set ds).
Proof.
  intros Hwf. unfold check_domains.
  assert (∀ X, fold_res (check_domain s) X ds = Ok (X ∪ (dom (view pm s) ∩ list_to_set ds)))
    as Hall.
  { induction ds as [|d ds IH]; intros X; simpl; [f_equal; set_solver|].
    rewrite check_domain_view by done. rewrite IH. f_equal. apply set_eq. intros d'.
    case_decide as Hd; rewrite <- elem_of_dom in Hd; set_solver. }
  rewrite Hall. f_equal. set_solver.
Qed.

Lemma bulk_get_one_view s R d :
  wf pm s → bulk_get_one s R d =
  Ok (match view pm s !! d with Some v => <[d := v]> R | None => R end).
Proof.
  intros Hwf. unfold bulk_get_one. rewrite local_entry_log.
  row_cases s d Hwf; rewrite Hview; [by destruct (operation op)| |done|].
  - by rewrite (proj2 (Z.leb_le _ _)).
  - by destruct row as [[ts c]|].
Qed.

Lemma bulk_get_view s ds :
  wf pm s → bulk_get ds s = Ok (filter (λ x, x.1 ∈ ds) (view pm s)).
Proof.
  intros Hwf. unfold bulk_get.
  assert (∀ R, ∃ R', fold_res (bulk_get_one s) R ds = Ok R' ∧
    ∀ d, R' !! d = if decide (d ∈ ds) then
      match view pm s !! d with Some v => Some v | None => R !! d end else R !! d)
    as Hall.
  { induction ds as [|d ds IH]; intros R; cbn [fold_res].
    - exists R. split; [done|]. intros d. case_decide; [set_solver|done].
    - rewrite bulk_get_one_view by done. destruct (IH
        match view pm s !! d with Some v => <[d := v]> R | None => R end) as (R' & -> & HR').
      exists R'. split; [done|]. intros d'. rewrite HR'.
      destruct (decide (d' = d)) as [->|Hne].
      + rewrite (decide_True (P := d ∈ d :: ds)) by set_solver.
        destruct (view pm s !! d); case_decide; rewrite ?lookup_insert_eq; done.
      + assert (d' ∈ d :: ds ↔ d' ∈ ds) as Hiff by set_solver.
        rewrite (decide_ext _ _ _ _ Hiff).
        destruct (view pm s !! d) eqn:Hd; rewrite ?lookup_insert_ne by done; done. }
  destruct (Hall ∅) as (R' & -> & HR'). f_equal. apply map_eq. intros d.
  rewrite HR', map_lookup_filter, lookup_empty.
  destruct (view pm s !! d); simpl; case_decide; simpl; rewrite ?option_guard_True, ?option_guard_False by done; done.
Qed.

Lemma overlay_results_lookup keep s R d :
  overlay_results keep s R !! d =
  match log s !! d with
  | Some op => match op_value (operation op) with
               | Some v => if keep d v then Some v else R !! d
               | None => None
               end
  | None => R !! d
  end.
Proof.
  unfold overlay_results. fold (log s).
  rewrite (keyed_loop_lookup _ (λ d op old,
    match op_value (operation op) with
    | Some v => if keep d v : bool then Some v else old | None => None end)); [done| |].
  - intros R' d' op. destruct (op_value _); [destruct (keep _ _)|];
      by rewrite ?lookup_insert_eq, ?lookup_delete_eq.
  - intros R' d' op d'' Hne. destruct (op_value _); [destruct (keep _ _)|];
      by rewrite ?lookup_insert_ne, ?lookup_delete_ne.
Qed.

Lemma collect_master_lookup keep s R d :
  collect_master keep s R !! d =
  match idx_entries (master s) !! d with
  | Some e => if (entry_ts e <=? visible_ts s) && keep d (entry_value e)
              then Some (entry_value e) else R !! d
  | None => R !! d
  end.
Proof.
  unfold collect_master. rewrite law_iter.
  rewrite (keyed_loop_lookup _ (λ d e old,
    if (entry_ts e <=? visible_ts s) && keep d (entry_value e)
    then Some (entry_value e) else old)); [done| |].
  - intros R' d' e. destruct (_ && _); by rewrite ?lookup_insert_eq.
  - intros R' d' e d'' Hne. destruct (_ && _); by rewrite ?lookup_insert_ne.
Qed.

(** While the index is not authoritative, a scan reads the store's rows. *)
Lemma backing_scan_rows s f :
  wf pm s → provider_fully_loaded s = false →
  ∃ rows, backing_scan s f = Ok rows ∧
    NoDup (map (λ r : Timestamp * D * C, r.1.2) rows) ∧
    ∀ t d c, (t, d, c) ∈ rows ↔ pm !! d = Some (t, c) ∧ f d c = true.
Proof.
  intros Hwf Hload. destruct (pm_scan _ _ (wf_provider _ _ Hwf) f) as (rows & Hs & Hnd & Hrows).
  exists rows. split; [|done]. unfold backing_scan. rewrite Hs.
  match goal with |- context [List.find ?g rows] =>
    destruct (List.find g rows) as [[[t d] c]|] eqn:Hfind end; [|done].
  apply find_some in Hfind as [Hin%list_elem_of_In Hbad]. exfalso.
  apply andb_true_iff in Hbad as [Hlt Hnone]. apply Z.ltb_lt in Hlt.
  apply Hrows in Hin as [Hpm _]. destruct (find_row s d Hwf) as [e Hi| |row Hi _ Hg Hb].
  - by rewrite Hi in Hnone.
  - congruence.
  - unfold backing_get in Hg. rewrite (pm_get _ _ (wf_provider _ _ Hwf)), Hpm in Hg.
    by rewrite (proj2 (Z.ltb_lt _ _)) in Hg.
Qed.

(** The rows of the store the index misses, collected by a scan. *)
Lemma scan_rows_lookup s f rows d :
  NoDup (map (λ r : Timestamp * D * C, r.1.2) rows) →
  (∀ t d c, (t, d, c) ∈ rows ↔ pm !! d = Some (t, c) ∧ f d c = true) →
  fold_left (λ (R : gmap D C) '(_, domain, value),
      if match index_lookup (master s) domain with None => true | Some _ => false end
         && f domain value
      then <[domain := value]> R else R) rows ∅ !! d =
  match index_lookup (master s) d, pm !! d with
  | None, Some (_, c) => if f d c then Some c else None
  | _, _ => None
  end.
Proof.
  intros Hnd Hrows.
  set (h := λ r : Timestamp * D * C, (r.1.2, (r.1.1, r.2))).
  set (step := λ (R : gmap D C) (x : D * (Timestamp * C)),
    if match index_lookup (master s) x.1 with None => true | Some _ => false end
       && f x.1 x.2.2 then <[x.1 := x.2.2]> R else R).
  replace (fold_left _ rows ∅) with (fold_left step (h <$> rows) ∅)
    by (rewrite fold_left_fmap; clear; generalize (∅ : gmap D C);
        induction rows as [|[[t0 d0] c0] rows IH]; intros R; simpl; [done|apply IH]).
  assert ((h <$> rows).*1 = map (λ r : Timestamp * D * C, r.1.2) rows) as Hkeys
    by (rewrite <- list_fmap_compose; done).
  set (g := λ (d : D) (x : Timestamp * C) (old : option C),
    if match index_lookup (master s) d with None => true | Some _ => false end
       && f d x.2 then Some x.2 else old).
  assert (∀ R d x, step R (d, x) !! d = g d x (R !! d)) as Hsame.
  { intros R d0 [t0 c0]. unfold step, g; simpl. destruct (_ && _); by rewrite ?lookup_insert_eq. }
  assert (∀ R d x d', d ≠ d' → step R (d, x) !! d' = R !! d') as Hother.
  { intros R d0 [t0 c0] d' Hne. unfold step; simpl.
    destruct (_ && _); by rewrite ?lookup_insert_ne. }
  destruct (pm !! d) as [[t c]|] eqn:Hpm; [destruct (f d c) eqn:Hf|].
  - rewrite (keyed_loop_some step g Hsame Hother _ _ d (t, c)).
    + unfold g; simpl. rewrite Hf, lookup_empty. by destruct (index_lookup _ _).
    + by rewrite Hkeys.
    + apply list_elem_of_fmap. exists (t, d, c). split; [done|by apply Hrows].
  - rewrite (keyed_loop_none step Hother), lookup_empty; [by destruct (index_lookup _ _)|].
    rewrite Hkeys. intros ([[t' d'] c'] & -> & Hin)%list_elem_of_fmap. apply Hrows in Hin as [Hp Hfc].
    simpl in *. congruence.
  - rewrite (keyed_loop_none step Hother), lookup_empty; [by destruct (index_lookup _ _)|].
    rewrite Hkeys. intros ([[t' d'] c'] & -> & Hin)%list_elem_of_fmap. apply Hrows in Hin as [Hp Hfc].
    simpl in *. congruence.
Qed.

(** What a scan returns: the snapshot rows the predicate accepts, then the
    log, where a logged value the predicate refuses leaves the snapshot row. *)
Definition scan_row (f : D → C → bool) s d : option C :=
  let kept := match base_rows pm s !! d with
              | Some e => if f d (entry_value e) then Some (entry_value e) else None
              | None => None
              end in
  match log s !! d with
  | Some op => match op_value (operation op) with
               | Some v => if f d v then Some v else kept
               | None => None
               end
  | None => kept
  end.

Lemma scan_lookup s f :
  wf pm s → ∃ R, scan f s = Ok R ∧ ∀ d, R !! d = scan_row f s d.
Proof.
  intros Hwf. unfold scan. destruct (provider_fully_loaded s) eqn:Hload.
  - eexists; split; [done|]. intros d. unfold scan_row.
    rewrite overlay_results_lookup, collect_master_lookup, lookup_empty.
    unfold base_rows; rewrite Hload.
    destruct (idx_entries (master s) !! d) as [e|] eqn:He; [|done].
    rewrite (proj2 (Z.leb_le _ _)); [done|]. apply (wf_settled _ _ Hwf d).
    unfold base_rows. by rewrite Hload.
  - destruct (backing_scan_rows s f Hwf Hload) as (rows & -> & Hnd & Hrows).
    eexists; split; [done|]. intros d. unfold scan_row.
    rewrite overlay_results_lookup, collect_master_lookup.
    rewrite (scan_rows_lookup s f rows d Hnd Hrows), law_lookup.
    pose proof (wf_settled _ _ Hwf d) as Hset. unfold base_rows in *. rewrite Hload in *.
    destruct (idx_entries (master s) !! d) as [e|] eqn:He.
    + assert (((idx_entries (master s) ∪ (row_entry <$> pm) : gmap D (Entry C)) !! d) = Some e)
        as Hu by (by apply lookup_union_Some_l).
      rewrite Hu. by rewrite (proj2 (Z.leb_le _ _)) by (by apply Hset).
    + rewrite lookup_union_r, lookup_fmap by done. by destruct (pm !! d) as [[t c]|].
Qed.

(** On keys alone a scan is exact. *)
Lemma scan_keys_view s f :
  wf pm s → scan (λ d _, f d) s = Ok (filter (λ x, f x.1 = true) (view pm s)).
Proof.
  intros Hwf. destruct (scan_lookup s (λ d _, f d) Hwf) as (R & -> & HR). f_equal.
  apply map_eq. intros d. rewrite HR, map_lookup_filter. unfold scan_row. rewrite view_lookup.
  destruct (log s !! d) as [op|]; [destruct (op_value _)|destruct (base_rows pm s !! d)];
    simpl; try done; destruct (f d) eqn:Hf; simpl; try done.
  all: by destruct (base_rows pm s !! d).
Qed.

(** ** Loading everything *)

Definition load_row (m : TransactionIndex I) (r : Timestamp * D * C) : TransactionIndex I :=
  let '(ts, domain, codomain) := r in
  match index_lookup (ti_deref m) domain with
  | None => ti_update (λ i, (insert_entry ts domain codomain i).1) m
  | Some _ => m
  end.

Lemma load_rows_spec rows m :
  NoDup (map (λ r : Timestamp * D * C, r.1.2) rows) →
  let m' := fold_left load_row rows m in
  (∀ t d c, (t, d, c) ∈ rows → idx_entries (ti_deref m) !! d = None →
     idx_entries (ti_deref m') !! d = Some (mkEntry t c)) ∧
  (∀ d, is_Some (idx_entries (ti_deref m) !! d) ∨ d ∉ map (λ r : Timestamp * D * C, r.1.2) rows →
     idx_entries (ti_deref m') !! d = idx_entries (ti_deref m) !! d) ∧
  (idx_inv (ti_deref m) → idx_inv (ti_deref m')) ∧
  has_secondary_index (ti_deref m') = has_secondary_index (ti_deref m).
Proof.
  revert m. induction rows as [|[[t0 d0] c0] rows IH]; intros m Hnd; cbn zeta; cbn [fold_left].
  { split_and!; [set_solver|done|done|done]. }
  simpl in Hnd. apply NoDup_cons in Hnd as [Hn Hnd].
  destruct (IH (load_row m (t0, d0, c0)) Hnd) as (Hin & Hout & Hinv & Hsec). clear IH.
  set (m' := fold_left load_row rows (load_row m (t0, d0, c0))) in *.
  unfold load_row in *. rewrite law_lookup in *.
  destruct (idx_entries (ti_deref m) !! d0) as [e0|] eqn:He0; simpl in *.
  - split_and!; [|intros d Hd; apply Hout; set_solver|done|done].
    intros t d c [?|Hr]%elem_of_cons Hnone; simplify_eq; by apply Hin.
  - rewrite law_insert in *. rewrite law_secondary_insert in Hsec. split_and!.
    + intros t d c [?|Hr]%elem_of_cons Hnone; simplify_eq.
      * rewrite Hout by (by right). by rewrite lookup_insert_eq.
      * apply Hin; [done|]. rewrite lookup_insert_ne; [done|]. intros ->.
        apply Hn, list_elem_of_fmap. by exists (t, d, c).
    + intros d Hd. assert (d0 ≠ d) as Hne by (intros ->; destruct Hd as [[]|]; set_solver).
      rewrite Hout; [|rewrite lookup_insert_ne by done; set_solver].
      by rewrite lookup_insert_ne.
    + intros Hi. by apply Hinv, law_inv_insert.
    + done.
Qed.

(** The state [get_all] leaves behind. *)
Lemma loaded_state s :
  wf pm s → provider_fully_loaded s = false →
  ∃ s', (get_all s).1 = s' ∧ wf pm s' ∧ log s' = log s ∧ same_snapshot s s' ∧
    provider_fully_loaded s' = true ∧
    (get_all s).2 = Ok (overlay_results (λ _ _, true) s' (collect_master (λ _ _, true) s' ∅)).
Proof.
  intros Hwf Hload. unfold get_all, fully_load_from_provider. rewrite Hload.
  destruct (backing_scan_rows s (λ _ _, true) Hwf Hload) as (rows & -> & Hnd & Hrows).
  simpl. change (fold_left _ rows (master_entries s)) with
    (fold_left load_row rows (master_entries s)).
  destruct (load_rows_spec rows (master_entries s) Hnd) as (Hin & Hout & Hinv & Hsec).
  set (m' := fold_left load_row rows (master_entries s)) in *.
  assert (idx_entries (ti_deref m') = base_rows pm s) as Hbase.
  { apply map_eq. intros d. unfold base_rows. rewrite Hload.
    fold (master s) in *. destruct (idx_entries (master s) !! d) as [e|] eqn:He.
    - rewrite Hout by (left; by rewrite He). rewrite He. symmetry. by apply lookup_union_Some_l.
    - rewrite lookup_union_r, lookup_fmap by done. destruct (pm !! d) as [[t c]|] eqn:Hpm.
      + apply Hin; [by apply Hrows|done].
      + rewrite Hout; [done|right].
        intros ([[t' d'] c'] & -> & Hr)%list_elem_of_fmap. apply Hrows in Hr. simpl in *.
        destruct Hr. congruence. }
  eexists; split; [done|].
  set (s' := mk _ _ _ _ true _).
  assert (base_rows pm s' = base_rows pm s) as Hb'.
  { unfold s', base_rows at 1, master; simpl. by rewrite law_set_loaded. }
  split_and!; try done.
  - destruct Hwf as [Hts Hp Hset Hops Hc Hi]. split; try done.
    + intros d e. rewrite Hb'. apply Hset.
    + intros d op Hop. rewrite Hb'. by apply Hops.
    + unfold master, s'; simpl. by apply law_inv_loaded, Hinv.
  - unfold same_snapshot. split_and!; [done|done|]. unfold master, s'; simpl.
    by rewrite law_secondary_loaded.
Qed.

Lemma loaded_results_view s :
  wf pm s → provider_fully_loaded s = true →
  overlay_results (λ _ _, true) s (collect_master (λ _ _, true) s ∅) = view pm s.
Proof.
  intros Hwf Hload. apply map_eq. intros d.
  rewrite overlay_results_lookup, collect_master_lookup, lookup_empty, view_lookup.
  pose proof (wf_settled _ _ Hwf d) as Hset. unfold base_rows in *. rewrite Hload in *.
  destruct (log s !! d) as [op|]; [by destruct (op_value _)|].
  destruct (idx_entries (master s) !! d) as [e|]; [|done]. simpl.
  by rewrite (proj2 (Z.leb_le _ _)) by (by apply Hset).
Qed.

Lemma get_all_refines s : wf pm s → refines CGetAll s.
Proof.
  intros Hwf. unfold refines, exec. rewrite (surjective_pairing (get_all s)). cbn [fst snd].
  exists (view pm s). destruct (provider_fully_loaded s) eqn:Hload.
  - unfold get_all. rewrite Hload. simpl. split; [by apply steps_same|].
    by rewrite loaded_results_view.
  - destruct (loaded_state s Hwf Hload) as (s' & -> & Hwf' & Hlog & Hsame & Hload' & ->).
    assert (view pm s' = view pm s) as Hv.
    { unfold view. by rewrite Hlog, (proj1 Hsame). }
    split; [done|]. simpl. by rewrite loaded_results_view, Hv.
Qed.

(** ** Reverse lookups *)

Lemma find_add_bucket (c v : C) d (b : list (C * list D)) :
  LocalOperations.find_bucket c (LocalOperations.add_bucket v d b) =
  LocalOperations.find_bucket c b ++ (if cod_eqb v c then [d] else []).
Proof.
  induction b as [|[c0 ds] b IH]; simpl; [by destruct (cod_eqb v c)|].
  destruct (cod_eqb c0 v) eqn:B1; simpl; destruct (cod_eqb c0 c) eqn:B2;
    destruct (cod_eqb v c) eqn:B3; simpl; rewrite ?IH, ?app_nil_r; try done; exfalso.
  all: unfold cod_eqb in *; repeat match goal with
       | H : bool_decide _ = true |- _ => apply bool_decide_eq_true in H
       | H : bool_decide _ = false |- _ => apply bool_decide_eq_false in H
       end; congruence.
Qed.

(** The domains of the log that now hold [c]. *)
Definition local_matches (c : C) (x : D * Op C) : option D :=
  match op_value (operation x.2) with
  | Some v => if cod_eqb v c then Some x.1 else None
  | None => None
  end.

Lemma find_build_buckets (c : C) (m : gmap D (Op C)) :
  LocalOperations.find_bucket c (LocalOperations.build_buckets m) =
  omap (local_matches c) (map_to_list m).
Proof.
  unfold LocalOperations.build_buckets.
  assert (∀ l b, LocalOperations.find_bucket c (fold_left (λ buckets '(domain, op),
      match op_value (operation op) with
      | Some value => LocalOperations.add_bucket value domain buckets
      | None => buckets
      end) l b) = LocalOperations.find_bucket c b ++ omap (local_matches c) l) as Hall.
  { induction l as [|[d op] l IH]; intros b; simpl; [by rewrite app_nil_r|].
    rewrite IH. unfold local_matches at 2; simpl. destruct (op_value (operation op)) as [v|]; [|done].
    rewrite find_add_bucket, <- app_assoc. by destruct (cod_eqb v c). }
  by rewrite Hall.
Qed.

Lemma local_matches_spec (c : C) (m : gmap D (Op C)) :
  let l := omap (local_matches c) (map_to_list m) in
  NoDup l ∧ ∀ d, d ∈ l ↔ ∃ op v, m !! d = Some op ∧ op_value (operation op) = Some v ∧
                                 cod_key v = cod_key c.
Proof.
  cbn zeta. assert (∀ d, d ∈ omap (local_matches c) (map_to_list m) ↔
    ∃ op v, m !! d = Some op ∧ op_value (operation op) = Some v ∧ cod_key v = cod_key c) as Hin.
  { intros d. rewrite list_elem_of_omap. unfold local_matches. split.
    - intros ([d' op] & Hin%elem_of_map_to_list & Hm). simpl in Hm.
      destruct (op_value (operation op)) as [v|] eqn:Hv; [|done].
      unfold cod_eqb in Hm. case_bool_decide; simplify_eq. eauto.
    - intros (op & v & Hd & Hv & Hk). exists (d, op). split; [by apply elem_of_map_to_list|].
      simpl. rewrite Hv. unfold cod_eqb. by rewrite bool_decide_eq_true_2. }
  split; [|exact Hin]. clear Hin. pose proof (NoDup_fst_map_to_list m) as Hnd. revert Hnd.
  induction (map_to_list m) as [|[d op] l IH]; simpl; intros Hnd; [constructor|].
  apply NoDup_cons in Hnd as [Hn Hnd]. destruct (local_matches c (d, op)) as [d'|] eqn:Hm;
    [|by apply IH]. constructor; [|by apply IH].
  assert (d' = d) as ->.
  { unfold local_matches in Hm; simpl in Hm. repeat case_match; by simplify_eq. }
  intros ([d2 op2] & Hin & Hm2)%list_elem_of_omap.
  assert (d2 = d) as ->.
  { unfold local_matches in Hm2; simpl in Hm2. repeat case_match; by simplify_eq. }
  apply Hn, list_elem_of_fmap. by exists (d, op2).
Qed.

Lemma local_shadows_log s d :
  local_shadows s d = false ↔ log s !! d = None.
Proof. unfold local_shadows, log. by destruct (LocalOperations.entries _ !! d). Qed.

(** A loop of visits reports each unshadowed domain once. *)
Lemma visit_loop_spec s ds out :
  NoDup out →
  let r := fold_left (visit_once s) ds (list_to_set out, out) in
  r.1 = list_to_set r.2 ∧ NoDup r.2 ∧
  ∀ d, d ∈ r.2 ↔ d ∈ out ∨ (d ∈ ds ∧ log s !! d = None).
Proof.
  revert out. induction ds as [|d0 ds IH]; intros out Hnd; cbn zeta; cbn [fold_left].
  { split_and!; [done|done|set_solver]. }
  assert (visit_once s (list_to_set out, out) d0 =
    (list_to_set (if negb (local_shadows s d0) && negb (bool_decide (d0 ∈ out))
                  then out ++ [d0] else out),
     if negb (local_shadows s d0) && negb (bool_decide (d0 ∈ out)) then out ++ [d0] else out))
    as ->.
  { unfold visit_once. assert (bool_decide (d0 ∈ (list_to_set out : gset D)) =
      bool_decide (d0 ∈ out)) as -> by (apply bool_decide_ext; set_solver).
    destruct (negb (local_shadows s d0) && _); [|done]. f_equal. set_solver. }
  pose proof (local_shadows_log s d0) as Hsh.
  destruct (local_shadows s d0); simpl; [|case_bool_decide as Hd0; simpl].
  - destruct (IH out Hnd) as (H1' & H2' & H3'). split_and!; [done|done|].
    intros d. rewrite H3'. setoid_rewrite elem_of_cons. naive_solver congruence.
  - destruct (IH out Hnd) as (H1' & H2' & H3'). split_and!; [done|done|].
    intros d. rewrite H3'. set_solver.
  - destruct (IH (out ++ [d0])) as (H1' & H2' & H3').
    { apply NoDup_app; split_and!; [done|set_solver|apply NoDup_singleton]. }
    split_and!; [done|done|]. intros d. rewrite H3', elem_of_app, list_elem_of_singleton, elem_of_cons.
    naive_solver.
Qed.

Lemma visit_rows_filter s (c : C) rows acc :
  fold_left (λ acc '(_, domain, _),
    if superseded s c domain then acc else visit_once s acc domain)
    (rows : list (Timestamp * D * C)) acc =
  fold_left (visit_once s)
    (filter (λ d, superseded s c d = false) (map (λ r : Timestamp * D * C, r.1.2) rows)) acc.
Proof.
  revert acc. induction rows as [|[[t d] c0] rows IH]; intros acc; [done|].
  cbn [fold_left map fst snd]. rewrite filter_cons.
  destruct (superseded s c d); [rewrite decide_False by done|rewrite decide_True by done];
    by rewrite IH.
Qed.

(** The base half of a reverse lookup, on either path. *)
Lemma base_half_spec s (c : C) :
  wf pm s → has_secondary_index (master s) = true →
  ∃ l, (if provider_fully_loaded s
        then Ok (filter (λ domain, local_shadows s domain = false)
                   (RelIndex.for_each_by_codomain (master s) c))
        else for_each_unloaded_by_codomain c s) = Ok l ∧ NoDup l ∧
    ∀ d, d ∈ l ↔ log s !! d = None ∧
      ∃ e, base_rows pm s !! d = Some e ∧ cod_key (entry_value e) = cod_key c.
Proof.
  intros Hwf Hsec. destruct (law_by_codomain (master s) c (wf_index _ _ Hwf) Hsec) as [Hnd Hby].
  destruct (provider_fully_loaded s) eqn:Hload.
  - eexists; split; [done|]. rewrite law_for_each. split; [by apply NoDup_filter|].
    intros d. rewrite list_elem_of_filter, local_shadows_log, Hby.
    unfold base_rows. by rewrite Hload.
  - unfold for_each_unloaded_by_codomain.
    destruct (backing_scan_rows s (λ _ v, cod_eqb v c) Hwf Hload) as (rows & -> & Hndr & Hrows).
    rewrite visit_rows_filter, law_for_each.
    destruct (visit_loop_spec s (filter (λ d, superseded s c d = false)
      (map (λ r : Timestamp * D * C, r.1.2) rows)) [] ltac:(constructor)) as (E1 & N1 & M1).
    set (acc := fold_left (visit_once s) _ (∅, [])) in *.
    change (fold_left (visit_once s) _ (list_to_set [], [])) with acc in E1, N1, M1.
    destruct (visit_loop_spec s (RelIndex.get_by_codomain (master s) c) acc.2 N1) as (_ & N2 & M2).
    rewrite <- E1 in N2, M2. rewrite <- (surjective_pairing acc) in N2, M2.
    eexists; split; [done|]. split; [exact N2|]. intros d. rewrite M2, M1, list_elem_of_filter, Hby.
    unfold superseded, base_rows. rewrite Hload, law_lookup.
    assert (d ∈ map (λ r : Timestamp * D * C, r.1.2) rows ↔
      ∃ t c', pm !! d = Some (t, c') ∧ cod_key c' = cod_key c) as ->.
    { rewrite list_elem_of_fmap. split.
      - intros ([[t d'] c'] & -> & Hin). apply Hrows in Hin as [Hp Hk%bool_decide_eq_true]. eauto.
      - intros (t & c' & Hp & Hk). exists (t, d, c'). split; [done|]. apply Hrows.
        split; [done|]. by apply bool_decide_eq_true. }
    destruct (idx_entries (master s) !! d) as [e|] eqn:He.
    + rewrite (lookup_union_Some_l _ _ _ _ He), elem_of_nil. unfold cod_eqb.
      clear -He. case_bool_decide as Hk; simpl; split; firstorder congruence.
    + rewrite lookup_union_r, lookup_fmap, elem_of_nil by done. unfold row_entry. clear -He.
      destruct (pm !! d) as [[t c']|]; simpl; split; firstorder (try congruence).
      all: simplify_eq/=; eauto 8.
Qed.

Lemma by_codomain_refines s c :
  wf pm s → has_secondary_index (master s) = true → refines (CByCodomain c) s.
Proof.
  intros Hwf Hsec. unfold refines, exec, get_by_codomain.
  rewrite (surjective_pairing (for_each_by_codomain c s)). cbn [fst snd].
  exists (view pm s). unfold for_each_by_codomain.
  destruct (base_half_spec s c Hwf Hsec) as (l & -> & Hnd & Hl).
  destruct (LocalOperations.is_empty _) eqn:He.
  - simpl. split; [by apply steps_same|]. split; [done|]. exists l. split_and!; [done|done|].
    intros d. rewrite Hl, view_lookup, (log_is_empty s d He). destruct (base_rows pm s !! d);
      simpl; naive_solver.
  - unfold LocalOperations.for_each_by_codomain. simpl.
    assert (match LocalOperations.codomains (local_operations s) with
            | Some cache => cache
            | None => LocalOperations.build_buckets (LocalOperations.entries (local_operations s))
            end = LocalOperations.build_buckets (log s)) as ->.
    { destruct (LocalOperations.codomains _) eqn:Hc; [|done]. by apply (wf_cache _ _ Hwf). }
    split; [|split; [done|]].
    + split_and!; [|done|done]. destruct Hwf as [Hts Hp Hset Hops Hc Hi]. split; try done.
      simpl. by intros cache [= <-].
    + rewrite find_build_buckets. destruct (local_matches_spec c (log s)) as [Hndl Hm].
      eexists; split; [done|]. split.
      * apply NoDup_app. split_and!; [done| |done]. intros d Hd%Hl Hd'%Hm.
        destruct Hd as [Hn _], Hd' as (op & v & Hs & _). congruence.
      * intros d. rewrite elem_of_app, Hl, Hm, view_lookup.
        destruct (log s !! d); [naive_solver|]. destruct (base_rows pm s !! d); simpl; naive_solver.
Qed.

(** ** The refinement *)

Lemma exec_refines c s : wf pm s → allowed pm c s → refines c s.
Proof.
  intros Hwf Ha. destruct c; simpl in Ha.
  - by apply insert_refines.
  - by apply insert_unique_refines.
  - by apply update_refines.
  - by apply upsert_refines.
  - by apply upsert_with_refines.
  - by apply update_with_refines.
  - by apply delete_refines.
  - exists (view pm s). split; [by apply steps_same|]. simpl. by rewrite get_view.
  - exists (view pm s). split; [by apply steps_same|]. simpl. by rewrite with_domain_value_view.
  - exists (view pm s). split; [by apply steps_same|]. simpl. by rewrite has_domain_view.
  - exists (view pm s). split; [by apply steps_same|]. simpl. by rewrite scan_keys_view.
  - by apply get_all_refines.
  - exists (view pm s). split; [by apply steps_same|]. simpl. by rewrite bulk_get_view.
  - exists (view pm s). split; [by apply steps_same|]. simpl. by rewrite check_domains_view.
  - by apply by_codomain_refines.
Qed.

Lemma allowed_same_snapshot c s s' : same_snapshot s s' → allowed pm c s → allowed pm c s'.
Proof. intros (Hb & _ & Hsec). destruct c; simpl; rewrite ?Hb, ?Hsec; done. Qed.

Lemma same_snapshot_trans s1 s2 s3 :
  same_snapshot s1 s2 → same_snapshot s2 s3 → same_snapshot s1 s3.
Proof. intros (?&?&?) (?&?&?). split_and!; congruence. Qed.

Lemma exec_all_refines cs s :
  wf pm s → Forall (λ c, allowed pm c s) cs →
  wf pm (exec_all cs s).1 ∧ same_snapshot s (exec_all cs s).1 ∧
  spec_all cs (view pm s) (exec_all cs s).2 (view pm (exec_all cs s).1).
Proof.
  revert s. induction cs as [|c cs IH]; intros s Hwf Hall; simpl.
  { split_and!; [done|done|constructor]. }
  apply Forall_cons in Hall as [Hc Hcs].
  destruct (exec_refines c s Hwf Hc) as (M' & (Hwf1 & Hv1 & Hsame1) & Hspec).
  destruct (exec c s) as [s1 o]; simpl in *.
  destruct (IH s1 Hwf1) as (Hwf2 & Hsame2 & Hspec2).
  { eapply Forall_impl; [exact Hcs|]. intros c' Ha. by eapply allowed_same_snapshot. }
  destruct (exec_all cs s1) as [s2 os]; simpl in *. subst M'.
  split_and!; [done|by eapply same_snapshot_trans|]. by econstructor.
Qed.
End proofs.

#[export] Hint Resolve steps_same steps_drop_cache : moor.
