(* ===== verification/RelTxMain.v ===== *)
(** The results on one relation inside a transaction: it is a private map over
    its snapshot, its log carries exactly what the commit check needs, stale
    rows of the store are refused, and scans are exact on the predicates for
    which they can be. *)
From S2P Require Import Prelude TxTypes RelIndex RelTx RelTxSpec RelTxProofs.
From stdpp Require Import base gmap sets list strings fin_maps.

Open Scope Z_scope.

Section main.
Context {D C I P : Type} `{RelationDomain D} `{RelationCodomain C}
  `{!RelationIndex I D C} `{!RelationIndexLaws I D C} `{!Provider P D C}.
Import RelationTransaction.

(** What a transaction may start from: rows that are all visible to it. *)
Record startable (tx : Tx) (canonical : I) (source : P) (pm : gmap D (Timestamp * C))
  : Prop := {
  start_ts : tx_visible_ts tx < tx_ts tx;
  start_source : ProviderModel source pm;
  start_visible d e : snapshot_rows canonical pm !! d = Some e → entry_ts e ≤ tx_visible_ts tx;
  start_index : idx_inv canonical;
}.

Lemma new_shared_wf tx name canonical (source : P) pm :
  startable tx canonical source pm → wf pm (new_shared tx name canonical source).
Proof. intros [Hts Hp Hv Hi]. split; try done. Qed.

Lemma new_borrowed_wf tx name canonical (source : P) pm :
  startable tx canonical source pm → wf pm (new_borrowed tx name canonical source).
Proof. intros [Hts Hp Hv Hi]. split; try done. Qed.

Lemma new_shared_view tx name canonical (source : P) pm :
  view pm (new_shared tx name canonical source) = entry_value <$> snapshot_rows canonical pm.
Proof.
  apply map_eq. intros d. rewrite view_lookup, lookup_fmap. unfold log; simpl.
  by rewrite lookup_empty.
Qed.

(** C3: a transaction's relation, started on a snapshot, answers every sequence
    of operations (inserts, updates, upserts, deletes, point reads, bulk reads,
    reverse lookups, full reads) as a private map initially holding the
    snapshot's rows would; no operation fails other than as the map says. *)
Theorem transaction_refines_map tx name canonical (source : P) pm (cs : list (cmd D C)) :
  let s := new_shared tx name canonical source in
  startable tx canonical source pm →
  Forall (λ c, allowed pm c s) cs →
  spec_all cs (entry_value <$> snapshot_rows canonical pm) (exec_all cs s).2
    (view pm (exec_all cs s).1).
Proof.
  intros s Hs Hall. rewrite <- (new_shared_view tx name canonical source).
  by apply exec_all_refines; [apply new_shared_wf|].
Qed.

(** C35: the working set a transaction hands to commit records, for every key it
    touched, the write timestamp of the transaction and the timestamp of the
    snapshot row it replaces: inserts only for keys the snapshot lacked,
    updates only for keys it had, so a delete followed by a re-insert stays an
    update. The base index it carries still has the snapshot's rows. *)
Theorem working_set_provenance tx name canonical (source : P) pm (cs : list (cmd D C)) d op :
  let s := new_shared tx name canonical source in
  startable tx canonical source pm →
  Forall (λ c, allowed pm c s) cs →
  let w := working_set (exec_all cs s).1 in
  WorkingSet.tuples w !! d = Some op →
  op_provenance (tx_ts tx) (snapshot_rows canonical pm !! d) op ∧
  (WorkingSet.provider_fully_loaded w = true →
   idx_entries (WorkingSet.base_index w) = snapshot_rows canonical pm).
Proof.
  intros s Hs Hall w Hd.
  destruct (exec_all_refines pm cs s) as (Hwf & (Hb & Ht & _) & _);
    [by apply new_shared_wf|done|].
  split.
  - pose proof (wf_ops _ _ Hwf d op Hd) as Hop. rewrite Hb in Hop.
    unfold RelationTransaction.write_ts in Hop. by rewrite Ht in Hop.
  - intros Hl. unfold base_rows in Hb at 1. simpl in Hl. rewrite Hl in Hb. exact Hb.
Qed.

(** a key that neither the log nor the snapshot index holds, and whose
    stored row is newer than the snapshot, is never read or written blindly:
    every point operation fails with a concurrent-write conflict on that key
    and leaves the transaction as it was. *)
Theorem newer_stored_row_conflicts (s : t D C I P) pm d v (ts : Timestamp) stored
    (f : option C → option C) (g : C → C) :
  ProviderModel (backing_source s) pm →
  log s !! d = None → index_lookup (master s) d = None →
  provider_fully_loaded s = false →
  pm !! d = Some (ts, stored) → visible_ts s < ts →
  let e := Conflict (conflict_info s d ConcurrentWrite) in
  (∀ c, c ∈ [CInsert d v; CUpdate d v; CUpsert d v; CUpsertWith d f; CDelete d;
             CGet d; CWithValue d g; CHasDomain d; CBulkGet [d]; CCheckDomains [d]] →
   exec c s = (s, OutErr e)).
Proof.
  intros Hp Hlog Hi Hl Hd Hts e.
  assert (backing_get s d = Err e) as Hget.
  { unfold backing_get. rewrite (pm_get _ _ Hp), Hd. by rewrite (proj2 (Z.ltb_lt _ _) Hts). }
  apply Forall_forall. repeat constructor; unfold exec; simpl.
  - unfold insert, insert_fresh, LocalOperations.get_mut. rewrite Hi, Hl, Hget. simpl.
    unfold log in Hlog. rewrite Hlog. by destruct (LocalOperations.is_empty _).
  - unfold update. by rewrite local_entry_mut_log, Hlog, Hi, Hl, Hget.
  - unfold upsert. by rewrite local_entry_mut_log, Hlog, Hi, Hl, Hget.
  - unfold upsert_with. by rewrite local_entry_mut_log, Hlog, Hi, Hl, Hget.
  - unfold delete. by rewrite local_entry_mut_log, Hlog, Hi, Hl, Hget.
  - unfold get. unfold log in Hlog. rewrite Hlog, Hi, Hl, Hget.
    by destruct (LocalOperations.is_empty _).
  - unfold with_domain_value. unfold log in Hlog. rewrite Hlog, Hi, Hl, Hget.
    by destruct (LocalOperations.is_empty _).
  - unfold has_domain. by rewrite local_entry_log, Hlog, Hi, Hl, Hget.
  - unfold bulk_get; simpl. unfold bulk_get_one.
    by rewrite local_entry_log, Hlog, Hi, Hl, Hget.
  - unfold check_domains; simpl. unfold check_domain.
    by rewrite local_entry_log, Hlog, Hi, Hl, Hget.
Qed.

(** a scan returns the rows of the transaction's view that satisfy the
    predicate exactly when no local write turns a matching snapshot row into a
    non-matching one; otherwise the replaced snapshot row is still reported. *)
Theorem scan_exact_iff (s : t D C I P) pm (f : D → C → bool) :
  wf pm s →
  scan f s = Ok (filter (λ x, f x.1 x.2 = true) (view pm s)) ↔
  (∀ d op v e, log s !! d = Some op → op_value (operation op) = Some v →
     base_rows pm s !! d = Some e → f d (entry_value e) = true → f d v = true).
Proof.
  intros Hwf. destruct (scan_lookup pm s f Hwf) as (R & -> & HR).
  transitivity (∀ d, scan_row pm f s d =
    (filter (λ x, f x.1 x.2 = true) (view pm s) : gmap D C) !! d).
  { split; [intros [= ->]; intros d; by rewrite HR|].
    intros Hall. f_equal. apply map_eq. intros d. by rewrite HR. }
  assert (∀ d v, (filter (λ x, f x.1 x.2 = true) (view pm s) : gmap D C) !! d = Some v ↔
    view pm s !! d = Some v ∧ f d v = true) as Hfilter.
  { intros d v. by rewrite map_lookup_filter_Some. }
  split.
  - intros Hall d op v e Hl Hv Hb He. destruct (f d v) eqn:Hf; [done|].
    specialize (Hall d). unfold scan_row in Hall. rewrite Hl, Hv, Hf, Hb, He in Hall.
    symmetry in Hall. apply Hfilter in Hall as [Hview _].
    rewrite view_lookup, Hl, Hv in Hview. congruence.
  - intros Hst d. apply option_eq. intros v. rewrite Hfilter, view_lookup. unfold scan_row.
    destruct (log s !! d) as [op|] eqn:Hl; [|destruct (base_rows pm s !! d) as [e|] eqn:Hb].
    + destruct (op_value (operation op)) as [v'|] eqn:Hv; [|naive_solver].
      specialize (Hst d op v'). destruct (f d v') eqn:Hf; [naive_solver congruence|].
      destruct (base_rows pm s !! d) as [e|] eqn:Hb; [|naive_solver congruence].
      destruct (f d (entry_value e)) eqn:He; [|naive_solver congruence].
      by specialize (Hst e Hl Hv eq_refl He).
    + simpl. destruct (f d (entry_value e)) eqn:He; naive_solver congruence.
    + naive_solver.
Qed.
End main.

(** ** A concrete relation: integer keys and values, a store of rows *)

Module Concrete.
Import RelationTransaction.

Definition z_display (z : Z) : list Ascii.ascii := [].

#[export] Instance z_domain : RelationDomain Z := {
  domain_display := z_display; target := λ _, None; double_hash := λ z, (z, z + 1);
}.

#[export] Instance z_codomain : RelationCodomain Z := {
  cod_rep := Z; cod_key := λ x, x; clone_for_commit := λ x, x;
  clone_for_commit_key := λ _, eq_refl;
}.

Definition tx0 : Tx := mkTx 10 5 1.
Definition name0 : Symbol := mkSymbol "object_location".

(** The index holds rows 1 and 2; the store also has row 3. *)
Definition index0 : SecondaryIndexRelation.t Z Z :=
  (insert_entry 4 2 200 (insert_entry 3 1 100 SecondaryIndexRelation.new).1).1.
Definition store0 : gmap Z (Timestamp * Z) := {[3 := (2, 300)]}.

Definition start0 : t Z Z (SecondaryIndexRelation.t Z Z) (gmap Z (Timestamp * Z)) :=
  new_shared tx0 name0 index0 store0.

Lemma index0_inv : sec_inv index0.
Proof. apply (sec_insert_entry 4 2 200), (sec_insert_entry 3 1 100), sec_inv_new. Qed.

Lemma start0_ok : startable tx0 index0 store0 store0.
Proof.
  split; [done|apply rows_provider_model| |exact index0_inv].
  intros d e Hd. assert (map_Forall (λ _ e, entry_ts e ≤ 5) (snapshot_rows index0 store0)) as Hall.
  { apply (bool_decide_unpack _). vm_compute. exact I. }
  exact (Hall d e Hd).
Qed.

Lemma transaction_refines_map_witness :
  startable tx0 index0 store0 store0 ∧
  (exec_all [CDelete 1; CInsert 1 300; CInsert 2 0; CByCodomain 300; CGet 3; CGetAll] start0).2 =
    [OutVal (Some 100); OutUnit; OutErr Duplicate; OutList [3; 1]; OutVal (Some 300);
     OutMap {[1 := 300; 2 := 200; 3 := 300]}] ∧
  spec_all [CDelete 1; CInsert 1 300; CInsert 2 0; CByCodomain 300; CGet 3; CGetAll]
    (entry_value <$> snapshot_rows index0 store0)
    (exec_all [CDelete 1; CInsert 1 300; CInsert 2 0; CByCodomain 300; CGet 3; CGetAll] start0).2
    (view store0
      (exec_all [CDelete 1; CInsert 1 300; CInsert 2 0; CByCodomain 300; CGet 3; CGetAll] start0).1).
Proof.
  split; [exact start0_ok|]. split; [vm_compute; reflexivity|].
  apply (transaction_refines_map tx0 name0 index0 store0 store0); [exact start0_ok|].
  repeat constructor.
Defined.

Lemma working_set_provenance_witness :
  startable tx0 index0 store0 store0 ∧
  op_provenance 10 (snapshot_rows index0 store0 !! 1) (mkOp 3 10 (OpUpdate 300) false).
Proof.
  split; [exact start0_ok|].
  apply (working_set_provenance tx0 name0 index0 store0 store0 [CDelete 1; CInsert 1 300] 1).
  - exact start0_ok.
  - repeat constructor.
  - vm_compute. reflexivity.
Defined.

Definition stale0 : t Z Z (SecondaryIndexRelation.t Z Z) (gmap Z (Timestamp * Z)) :=
  new_shared tx0 name0 index0 {[3 := (7, 300)]}.

Lemma newer_stored_row_conflicts_witness :
  exec (CUpsert 3 1) stale0 =
  (stale0, OutErr (Conflict (conflict_info stale0 3 ConcurrentWrite))).
Proof.
  apply (newer_stored_row_conflicts stale0 {[3 := (7, 300)]} 3 1 7 300 (λ o, o) (λ c, c)).
  - apply rows_provider_model.
  - vm_compute. reflexivity.
  - vm_compute. reflexivity.
  - vm_compute. reflexivity.
  - vm_compute. reflexivity.
  - vm_compute. reflexivity.
  - apply list_elem_of_lookup. exists 2%nat. reflexivity.
Defined.

Lemma scan_exact_iff_witness :
  scan (λ _ v, v =? 100) start0 =
  Ok (filter (λ x : Z * Z, (x.2 =? 100) = true) (view store0 start0)).
Proof.
  apply (scan_exact_iff start0 store0 (λ _ v, v =? 100)).
  - apply new_shared_wf, start0_ok.
  - intros d op v e Hd. vm_compute in Hd. discriminate.
Defined.

(** the scan of a transaction that has updated a row so that it no longer
    satisfies the predicate still returns the row, with the value it had in
    the snapshot, although a read of the same key returns the new value. *)
Theorem scan_reports_replaced_row :
  let s := (exec (CUpdate 1 101) start0).1 in
  wf store0 s ∧ get 1 s = Ok (Some 101) ∧
  scan (λ _ v, v =? 100) s = Ok {[1 := 100]}.
Proof.
  split; [|vm_compute; by split].
  destruct (exec_refines store0 (CUpdate 1 101) start0) as (M & (Hwf & _) & _); [|done|exact Hwf].
  apply new_shared_wf, start0_ok.
Qed.
End Concrete.
