(* ===== verification/CheckApply.v ===== *)
(** Commit, one relation at a time: conflict resolution strategies
    (crates/db/src/tx/resolve.rs), the conflict check (tx/check.rs), building
    the committed index (tx/apply.rs), and the relation that hands out
    transactions and checkers (tx/relation.rs).

    A [check] consumes the checker and the working set and returns both, or the
    error: its callers drop both when it fails. The timing warnings of the loop
    have no effect on the result and are left out. *)
From S2P Require Import Prelude TxTypes RelIndex RelTx RelTxSpec.
From stdpp Require Import base gmap sets list strings fin_maps.

Open Scope Z_scope.

(** ** Conflicts and resolvers *)

Inductive ProposedOp (C : Type) :=
| ProposedInsert (c : C)
| ProposedUpdate (c : C)
| ProposedDelete.
Arguments ProposedInsert {C} c.
Arguments ProposedUpdate {C} c.
Arguments ProposedDelete {C}.

Definition proposed_value {C} (p : ProposedOp C) : option C :=
  match p with ProposedInsert v | ProposedUpdate v => Some v | ProposedDelete => None end.

Record PotentialConflict (D C : Type) := mkPotentialConflict {
  pc_info : ConflictInfo;
  pc_domain : D;
  pc_base : option (Timestamp * C);
  pc_theirs : option (Timestamp * C);
  pc_mine : ProposedOp C;
  pc_read_ts : Timestamp;
  pc_write_ts : Timestamp;
}.
Arguments mkPotentialConflict {D C} _ _ _ _ _ _ _.
Arguments pc_info {D C} _.
Arguments pc_domain {D C} _.
Arguments pc_base {D C} _.
Arguments pc_theirs {D C} _.
Arguments pc_mine {D C} _.
Arguments pc_read_ts {D C} _.
Arguments pc_write_ts {D C} _.

Inductive Resolution (C : Type) :=
| Accept
| Rewrite (c : C).
Arguments Accept {C}.
Arguments Rewrite {C} c.

(** [resolve] takes [&mut self]; a resolver that fails is not used again. *)
Class ConflictResolver (R D C : Type) := {
  resolve : R → PotentialConflict D C → result (R * Resolution C) Error;
}.

Inductive FailOnConflict := mkFailOnConflict.

#[export] Instance fail_on_conflict {D C} : ConflictResolver FailOnConflict D C := {
  resolve r conflict := Err (Conflict (pc_info conflict));
}.

(** Closures without state of their own are resolvers. *)
Record FnResolver (D C : Type) := mkFnResolver {
  call : PotentialConflict D C → result (Resolution C) Error;
}.
Arguments mkFnResolver {D C} call.
Arguments call {D C} _ _.

#[export] Instance fn_resolver {D C} : ConflictResolver (FnResolver D C) D C := {
  resolve f conflict := let? r := call f conflict in Ok (f, r);
}.

(** ** Checkers *)

Module CheckRelation.
Section defs.
Context {D C I P : Type} `{RelationDomain D} `{RelationCodomain C}
  `{!RelationIndex I D C} `{!Provider P D C}.

Record t := mk {
  index : I;
  relation_name : Symbol;
  source : P;
  dirty : bool;
}.

Definition num_entries (c : t) : nat := idx_len (index c).

Definition with_index (i : I) (c : t) : t := mk i (relation_name c) (source c) (dirty c).
Definition with_dirty (b : bool) (c : t) : t := mk (index c) (relation_name c) (source c) b.

Definition make_potential_conflict (c : t) (domain : D) (conflict_type : ConflictType)
    (base theirs : option (Timestamp * C)) (op : Op C) : PotentialConflict D C :=
  let mine := match operation op with
              | OpInsert v => ProposedInsert v
              | OpUpdate v => ProposedUpdate v
              | OpDelete => ProposedDelete
              end in
  mkPotentialConflict (make_conflict_info (relation_name c) domain conflict_type)
    domain base theirs mine (read_ts op) (write_ts op).

Definition with_operation (o : OpType C) (op : Op C) : Op C :=
  mkOp (read_ts op) (write_ts op) o (guaranteed_unique op).

Definition base_of (base_index : I) (domain : D) : option (Timestamp * C) :=
  (λ e, (entry_ts e, entry_value e)) <$> index_lookup base_index domain.

(** One conflict handed to the resolver: keep the operation, or rewrite it. *)
Definition resolve_conflict {R} `{!ConflictResolver R D C} (c : t) (r : R) (base_index : I)
    (domain : D) (op : Op C) (conflict_type : ConflictType) (theirs : option (Timestamp * C))
    (rewritten : C → OpType C) : result (t * R * Op C) Error :=
  let conflict := make_potential_conflict c domain conflict_type
                    (base_of base_index domain) theirs op in
  let? (r', resolution) := resolve r conflict in
  match resolution with
  | Accept => Ok (c, r', op)
  | Rewrite new_val => Ok (c, r', with_operation (rewritten new_val) op)
  end.

(** The body of the check loop for one operation. *)
Definition check_op {R} `{!ConflictResolver R D C} (base_index : I) (c : t) (r : R)
    (domain : D) (op : Op C) : result (t * R * Op C) Error :=
  if guaranteed_unique op then Ok (c, r, op)
  else
    match index_lookup (index c) domain with
    | Some local_entry =>
        let theirs := Some (entry_ts local_entry, entry_value local_entry) in
        if is_insert (operation op)
        then resolve_conflict c r base_index domain op InsertDuplicate theirs OpInsert
        else if negb (entry_ts local_entry =? read_ts op)
        then resolve_conflict c r base_index domain op ConcurrentWrite theirs OpUpdate
        else if write_ts op <? read_ts op
        then resolve_conflict c r base_index domain op StaleRead theirs OpUpdate
        else Ok (c, r, op)
    | None =>
        let? upstream := if is_provider_fully_loaded (index c) then Ok None
                         else provider_get (source c) domain in
        match upstream with
        | Some (ts, codomain) =>
            let c := with_index (insert_entry ts domain codomain (index c)).1 c in
            let theirs := Some (ts, codomain) in
            if is_insert (operation op)
            then resolve_conflict c r base_index domain op InsertDuplicate theirs OpInsert
            else if negb (ts =? read_ts op)
            then resolve_conflict c r base_index domain op ConcurrentWrite theirs OpUpdate
            else Ok (c, r, op)
        | None =>
            if is_update (operation op)
               || (is_delete (operation op) && negb (read_ts op =? write_ts op))
            then resolve_conflict c r base_index domain op UpdateNonExistent None OpInsert
            else Ok (c, r, op)
        end
    end.

(** One iteration: the operation is mutated in place in the working set. *)
Definition check_step {R} `{!ConflictResolver R D C} (base_index : I)
    (st : t * R * gmap D (Op C)) (x : D * Op C) : result (t * R * gmap D (Op C)) Error :=
  let '(c, r, tuples) := st in
  let '(domain, op) := x in
  let? (c', r', op') := check_op base_index c r domain op in
  Ok (c', r', <[domain := op']> tuples).

Definition check_with_resolver {R} `{!ConflictResolver R D C}
    (ws : WorkingSet.t D C I) (resolver : R) (c : t)
  : result (t * WorkingSet.t D C I) Error :=
  let c := with_dirty (negb (WorkingSet.is_empty ws)) c in
  let? (c', _, tuples) := fold_res (check_step (WorkingSet.base_index ws))
                            (c, resolver, WorkingSet.tuples ws)
                            (map_to_list (WorkingSet.tuples ws)) in
  Ok (c', WorkingSet.with_tuples tuples ws).

Definition check (ws : WorkingSet.t D C I) (c : t) : result (t * WorkingSet.t D C I) Error :=
  check_with_resolver ws mkFailOnConflict c.

(** *** Building the committed index *)

Definition collect_step (acc : list (Timestamp * D * C) * list (Timestamp * D))
    (x : D * Op C) : list (Timestamp * D * C) * list (Timestamp * D) :=
  let '(inserts, tombstones) := acc in
  let '(domain, op) := x in
  match op_value (operation op) with
  | Some codomain => (inserts ++ [(write_ts op, domain, clone_for_commit codomain)], tombstones)
  | None => (inserts, tombstones ++ [(write_ts op, domain)])
  end.

Definition collect_index_ops (ws : WorkingSet.t D C I)
  : list (Timestamp * D * C) * list (Timestamp * D) :=
  fold_left collect_step (map_to_list (WorkingSet.tuples ws)) ([], []).

Definition apply_batch_instrumented (inserts : list (Timestamp * D * C))
    (tombstones : list (Timestamp * D)) (i : I) : I :=
  if (0 <? length inserts + length tombstones)%nat
  then apply_batch inserts tombstones i else i.

Definition load_flag (ws : WorkingSet.t D C I) (i : I) : I :=
  if WorkingSet.provider_fully_loaded ws then set_provider_fully_loaded true i else i.

Definition prepare_indexes (ws : WorkingSet.t D C I) (c : t) : t :=
  let c := with_index (load_flag ws (index c)) c in
  if WorkingSet.is_empty ws then c
  else
    let c := with_dirty true c in
    let '(inserts, tombstones) := collect_index_ops ws in
    with_index (apply_batch_instrumented inserts tombstones (index c)) c.

Definition snapshot_index_or (c : t) (existing : I) : I :=
  if dirty c then index c else existing.

Definition rebased_snapshot_index (c : t) (existing : I) (ws : WorkingSet.t D C I) : I :=
  if negb (dirty c) then existing
  else
    let rebased := load_flag ws existing in
    let '(inserts, tombstones) := collect_index_ops ws in
    apply_batch inserts tombstones rebased.

Definition committed_index_or (c : t) (existing : I) : I :=
  if dirty c then index c else existing.

(** [apply] also writes the store; a failed [put] is ignored, a failed [del]
    panics ([None]). *)
Definition apply_store_step (acc : option P) (x : D * Op C) : option P :=
  p ← acc;
  let '(domain, op) := x in
  match op_value (operation op) with
  | Some codomain =>
      match provider_put p (write_ts op) domain (clone_for_commit codomain) with
      | Ok p' => Some p'
      | Err _ => Some p
      end
  | None =>
      match provider_del p (write_ts op) domain with
      | Ok p' => Some p'
      | Err _ => None
      end
  end.

Definition apply (ws : WorkingSet.t D C I) (c : t) : option t :=
  let i := load_flag ws (index c) in
  let dirty' := if WorkingSet.is_empty ws then dirty c else true in
  source' ← fold_left apply_store_step (map_to_list (WorkingSet.tuples ws)) (Some (source c));
  let '(inserts, tombstones) := collect_index_ops ws in
  Some (mk (apply_batch_instrumented inserts tombstones i) (relation_name c) source' dirty').
End defs.
Arguments t I P : clear implicits.
End CheckRelation.

(** ** Relations *)

(** [Provider::seed]: load every stored row, remembering the newest timestamp. *)
Definition seed_step {D C I} `{!RelationIndex I D C} (st : I * Timestamp)
    (row : Timestamp * D * C) : I * Timestamp :=
  let '(index, max_timestamp) := st in
  let '(timestamp, domain, codomain) := row in
  ((insert_entry timestamp domain codomain index).1, Z.max max_timestamp timestamp).

Definition seed {P D C I} `{!Provider P D C} `{!RelationIndex I D C} (p : P) (index : I)
  : result (I * Timestamp) Error :=
  let? rows := provider_scan p (λ _ _, true) in
  Ok (fold_left seed_step rows (index, 0)).

Module Relation.
Section defs.
Context {D C P : Type} `{RelationDomain D} `{RelationCodomain C} `{!Provider P D C}.

Record t := mk {
  relation_name : Symbol;
  source : P;
  index_factory : unit → DynIndex D C;
}.

Definition primary_index_factory (_ : unit) : DynIndex D C := DynHash HashRelationIndex.new.
Definition secondary_index_factory (_ : unit) : DynIndex D C :=
  DynSecondary SecondaryIndexRelation.new.

Definition new (relation_name : Symbol) (source : P) : t :=
  mk relation_name source primary_index_factory.
Definition new_with_secondary (relation_name : Symbol) (source : P) : t :=
  mk relation_name source secondary_index_factory.

Definition seeded_index_with_max_timestamp (r : t) : result (DynIndex D C * Timestamp) Error :=
  let? (index, max_timestamp) := seed (source r) (index_factory r tt) in
  Ok (set_provider_fully_loaded true index, max_timestamp).

Definition seeded_index (r : t) : result (DynIndex D C) Error :=
  let? (index, _) := seeded_index_with_max_timestamp r in Ok index.

Definition start_from_index (r : t) (tx : Tx) (index : DynIndex D C)
  : RelationTransaction.t D C (DynIndex D C) P :=
  RelationTransaction.new_shared tx (relation_name r) index (source r).

Definition start_borrowed (r : t) (tx : Tx) (index : DynIndex D C) (source : P)
  : RelationTransaction.t D C (DynIndex D C) P :=
  RelationTransaction.new_borrowed tx (relation_name r) index source.

Definition begin_check_from_index (r : t) (index : DynIndex D C)
  : CheckRelation.t (DynIndex D C) P :=
  CheckRelation.mk index (relation_name r) (source r) false.
End defs.
Arguments t D C P {_ _ _}.
End Relation.
