(* ===== verification/CheckApplyProofs.v ===== *)
(** The commit of one relation: the check accepts a working set exactly when
    no written key has moved since the transaction's snapshot, and the index it
    prepares (or rebuilds on a later snapshot) is the old one with the logged
    operations applied. *)
From S2P Require Import Prelude TxTypes RelIndex RelTx RelTxSpec RelTxProofs RelTxMain CheckApply.
From stdpp Require Import base gmap sets list strings fin_maps.

Open Scope Z_scope.

(** ** When an operation conflicts with a row *)

Definition conflict_of {C} (row : option (Entry C)) (op : Op C) : option ConflictType :=
  if guaranteed_unique op then None
  else match row with
  | Some e =>
      if is_insert (operation op) then Some InsertDuplicate
      else if negb (entry_ts e =? read_ts op) then Some ConcurrentWrite
      else None
  | None =>
      if is_update (operation op)
         || (is_delete (operation op) && negb (read_ts op =? write_ts op))
      then Some UpdateNonExistent else None
  end.

(** Given where the operation came from, it conflicts exactly when the row is
    not the version the transaction saw. *)
Lemma conflict_of_provenance {C} own (base row : option (Entry C)) op :
  op_provenance own base op → guaranteed_unique op = false →
  (∀ e, base = Some e → entry_ts e ≠ own) → (∀ e, row = Some e → entry_ts e ≠ own) →
  conflict_of row op = None ↔ entry_ts <$> row = entry_ts <$> base.
Proof.
  intros [Hw Hp] Hu Hb Hr. unfold conflict_of. rewrite Hu.
  destruct (operation op) as [v|v|], base as [e|], row as [e'|]; simpl in *; try done.
  all: try (specialize (Hb _ eq_refl)); try (specialize (Hr _ eq_refl)).
  all: rewrite ?Hp, ?Hw, ?Z.eqb_refl; simpl; try done.
  - destruct (Z.eqb_spec (entry_ts e') (entry_ts e)) as [->|]; naive_solver.
  - destruct (Z.eqb_spec (entry_ts e') (entry_ts e)) as [->|]; naive_solver.
  - destruct (Z.eqb_spec (entry_ts e) own); naive_solver.
  - destruct (Z.eqb_spec (entry_ts e') own); naive_solver.
Qed.

(** ** The check loop *)

Section check.
Context {D C I P : Type} `{RelationDomain D} `{RelationCodomain C}
  `{!RelationIndex I D C} `{!RelationIndexLaws I D C} `{!Provider P D C}.
Context {R : Type} `{!ConflictResolver R D C}.
Context (pm : gmap D (Timestamp * C)).
Import CheckRelation.
Implicit Types c : t I P.

Definition rows c : gmap D (Entry C) := snapshot_rows (index c) pm.

(** What a step may do to the checker: cache stored rows, nothing else. *)
Record caches_rows c c' : Prop := {
  cr_source : source c' = source c;
  cr_name : CheckRelation.relation_name c' = CheckRelation.relation_name c;
  cr_dirty : dirty c' = dirty c;
  cr_rows : rows c' = rows c;
  cr_inv : idx_inv (index c) → idx_inv (index c');
  cr_flag : is_provider_fully_loaded (index c') = is_provider_fully_loaded (index c);
  cr_loaded : is_provider_fully_loaded (index c) = true → index c' = index c;
}.

Lemma caches_rows_refl c : caches_rows c c.
Proof. by split. Qed.

Lemma caches_rows_trans c1 c2 c3 : caches_rows c1 c2 → caches_rows c2 c3 → caches_rows c1 c3.
Proof.
  intros [] []. split; try congruence; [auto|].
  intros Hl. transitivity (index c2); [|auto]. apply cr_loaded1. congruence.
Qed.

Lemma cache_row c d ts v :
  index_lookup (index c) d = None → is_provider_fully_loaded (index c) = false →
  pm !! d = Some (ts, v) →
  caches_rows c (with_index (insert_entry ts d v (index c)).1 c).
Proof.
  intros Hi Hl Hd. split; try done; simpl.
  - unfold rows, snapshot_rows; simpl. rewrite law_loaded_insert, Hl, law_insert.
    apply map_eq. intros d'. destruct (decide (d = d')) as [<-|Hne].
    + rewrite (lookup_union_Some_l _ _ _ (mkEntry ts v)) by apply lookup_insert_eq.
      rewrite lookup_union_r by (by rewrite <- law_lookup).
      by rewrite lookup_fmap, Hd.
    + by rewrite !lookup_union, lookup_insert_ne.
  - apply law_inv_insert.
  - apply law_loaded_insert.
  - congruence.
Qed.

(** The resolver refuses conflicts except on the keys [accepted]. *)
Context (accepted : D → bool) (rsv : R).
Hypothesis resolve_accepted : ∀ pc,
  resolve rsv pc =
  if accepted (pc_domain pc) then Ok (rsv, Accept) else Err (Conflict (pc_info pc)).

Definition blocked (m : gmap D (Entry C)) (d : D) (op : Op C) : option ConflictType :=
  if accepted d then None else conflict_of (m !! d) op.

Lemma resolve_conflict_spec c base_index d op ct theirs rw :
  resolve_conflict c rsv base_index d op ct theirs rw =
  if accepted d then Ok (c, rsv, op)
  else Err (Conflict (make_conflict_info (CheckRelation.relation_name c) d ct)).
Proof. unfold resolve_conflict. rewrite resolve_accepted. simpl. by destruct (accepted d). Qed.

Lemma check_op_spec c base_index d op :
  ProviderModel (source c) pm → read_ts op ≤ write_ts op →
  match blocked (rows c) d op with
  | Some ct => check_op base_index c rsv d op =
      Err (Conflict (make_conflict_info (CheckRelation.relation_name c) d ct))
  | None => ∃ c', check_op base_index c rsv d op = Ok (c', rsv, op) ∧ caches_rows c c'
  end.
Proof.
  intros Hp Hle. unfold blocked, conflict_of, check_op, rows, snapshot_rows.
  pose proof (caches_rows_refl c) as Hrefl.
  destruct (guaranteed_unique op); [by destruct (accepted d); eauto|].
  destruct (index_lookup (index c) d) as [e|] eqn:Hi.
  - assert ((if is_provider_fully_loaded (index c) then idx_entries (index c)
             else idx_entries (index c) ∪ (row_entry <$> pm)) !! d = Some e) as ->.
    { rewrite law_lookup in Hi. destruct (is_provider_fully_loaded _); [done|].
      by apply lookup_union_Some_l. }
    rewrite (proj2 (Z.ltb_ge _ _) Hle), !resolve_conflict_spec.
    destruct (accepted d), (is_insert (operation op)), (entry_ts e =? read_ts op); simpl; eauto.
  - pose proof Hi as Hi'. rewrite law_lookup in Hi'.
    destruct (is_provider_fully_loaded (index c)) eqn:Hl.
    + rewrite Hi', resolve_conflict_spec.
      destruct (accepted d), (is_update (operation op) || _); eauto.
    + rewrite lookup_union_r, lookup_fmap by done. rewrite (pm_get _ _ Hp).
      destruct (pm !! d) as [[ts v]|] eqn:Hd; simpl.
      * pose proof (cache_row c d ts v Hi Hl Hd) as Hc. rewrite !resolve_conflict_spec.
        destruct (accepted d), (is_insert (operation op)), (ts =? read_ts op); simpl; eauto.
      * rewrite resolve_conflict_spec. destruct (accepted d), (is_update (operation op) || _); eauto.
Qed.

Lemma check_loop_spec base_index (l : list (D * Op C)) c (tuples : gmap D (Op C)) :
  ProviderModel (source c) pm →
  (∀ d op, (d, op) ∈ l → read_ts op ≤ write_ts op ∧ tuples !! d = Some op) →
  (∃ c', fold_res (check_step base_index) (c, rsv, tuples) l = Ok (c', rsv, tuples) ∧
     caches_rows c c' ∧ ∀ d op, (d, op) ∈ l → blocked (rows c) d op = None) ∨
  (∃ d op ct, (d, op) ∈ l ∧ blocked (rows c) d op = Some ct ∧
     fold_res (check_step base_index) (c, rsv, tuples) l =
     Err (Conflict (make_conflict_info (CheckRelation.relation_name c) d ct))).
Proof.
  revert c. induction l as [|[d op] l IH]; intros c Hp Hl; simpl.
  { left. exists c. split_and!; [done|apply caches_rows_refl|set_solver]. }
  destruct (Hl d op) as [Hle Ht]; [constructor|].
  pose proof (check_op_spec c base_index d op Hp Hle) as Hop.
  destruct (blocked (rows c) d op) as [ct|] eqn:Hb.
  { right. exists d, op, ct. split_and!; [constructor|done|by rewrite Hop]. }
  destruct Hop as (c1 & -> & Hc1). rewrite (insert_id tuples d op Ht).
  destruct (IH c1) as [(c2 & Hf & Hc2 & Hall)|(d' & op' & ct & Hin & Hb' & Hf)].
  - by rewrite (cr_source _ _ Hc1).
  - intros d' op' Hin. apply Hl. by constructor.
  - left. exists c2. split_and!; [done|by eapply caches_rows_trans|].
    intros d' op' [?|Hin]%elem_of_cons; simplify_eq; [done|].
    rewrite <- (cr_rows _ _ Hc1). by apply Hall.
  - right. exists d', op', ct. rewrite <- (cr_rows _ _ Hc1), <- (cr_name _ _ Hc1).
    split_and!; [by constructor|done|done].
Qed.

Definition ops_ordered (ws : WorkingSet.t D C I) : Prop :=
  ∀ d op, WorkingSet.tuples ws !! d = Some op → read_ts op ≤ write_ts op.

Lemma with_tuples_id (ws : WorkingSet.t D C I) :
  WorkingSet.with_tuples (WorkingSet.tuples ws) ws = ws.
Proof. by destruct ws. Qed.

Lemma check_with_resolver_spec ws c :
  ProviderModel (source c) pm → ops_ordered ws →
  (∃ c', check_with_resolver ws rsv c = Ok (c', ws) ∧
     caches_rows (with_dirty (negb (WorkingSet.is_empty ws)) c) c' ∧
     ∀ d op, WorkingSet.tuples ws !! d = Some op → blocked (rows c) d op = None) ∨
  (∃ d op ct, WorkingSet.tuples ws !! d = Some op ∧ blocked (rows c) d op = Some ct ∧
     check_with_resolver ws rsv c =
     Err (Conflict (make_conflict_info (CheckRelation.relation_name c) d ct))).
Proof.
  intros Hp Hord. unfold check_with_resolver.
  destruct (check_loop_spec (WorkingSet.base_index ws) (map_to_list (WorkingSet.tuples ws))
    (with_dirty (negb (WorkingSet.is_empty ws)) c) (WorkingSet.tuples ws))
    as [(c' & -> & Hc & Hall)|(d & op & ct & Hin & Hb & ->)].
  - exact Hp.
  - intros d op Hin%elem_of_map_to_list. split; [by eapply Hord|done].
  - left. exists c'. rewrite with_tuples_id. split_and!; [done|done|].
    intros d op Hd. apply (Hall d op). by apply elem_of_map_to_list.
  - right. exists d, op, ct. split_and!; [by apply elem_of_map_to_list|done|done].
Qed.
End check.

(** ** Committed indexes *)

(** The committed entries: each logged operation replaces the entry of its key. *)
Definition commit_overlay {D C} `{Countable D} `{RelationCodomain C}
    (ops : gmap D (Op C)) (m : gmap D (Entry C)) : gmap D (Entry C) :=
  merge (λ op e, match op with
    | Some op => (λ v, mkEntry (write_ts op) (clone_for_commit v)) <$> op_value (operation op)
    | None => e
    end) ops m.

Lemma commit_overlay_lookup {D C} `{Countable D} `{RelationCodomain C}
    (ops : gmap D (Op C)) (m : gmap D (Entry C)) d :
  commit_overlay ops m !! d =
  match ops !! d with
  | Some op => (λ v, mkEntry (write_ts op) (clone_for_commit v)) <$> op_value (operation op)
  | None => m !! d
  end.
Proof. unfold commit_overlay. rewrite lookup_merge. by destruct (ops !! d), (m !! d). Qed.

Section apply.
Context {D C I P : Type} `{RelationDomain D} `{RelationCodomain C}
  `{!RelationIndex I D C} `{!RelationIndexLaws I D C} `{!Provider P D C}.
Import CheckRelation.
Implicit Types c : t I P.
Implicit Types ws : WorkingSet.t D C I.

Definition put_of (x : D * Op C) : option (Timestamp * D * C) :=
  (λ v, (write_ts x.2, x.1, clone_for_commit v)) <$> op_value (operation x.2).
Definition del_of (x : D * Op C) : option (Timestamp * D) :=
  match op_value (operation x.2) with Some _ => None | None => Some (write_ts x.2, x.1) end.

Lemma collect_index_ops_omap ws :
  collect_index_ops ws =
  (omap put_of (map_to_list (WorkingSet.tuples ws)),
   omap del_of (map_to_list (WorkingSet.tuples ws))).
Proof.
  unfold collect_index_ops.
  assert (∀ l a b, fold_left collect_step l (a, b) = (a ++ omap put_of l, b ++ omap del_of l))
    as Hall; [|by rewrite Hall].
  induction l as [|[d op] l IH]; intros a b; [by rewrite !app_nil_r|].
  cbn [fold_left]. unfold collect_step at 2.
  destruct (op_value (operation op)) as [v|] eqn:Hv; rewrite IH; simpl;
    unfold put_of at 2, del_of at 2; simpl; rewrite Hv; simpl; by rewrite <- app_assoc.
Qed.

Lemma collected_domains (l : list (D * Op C)) d :
  d ∈ batch_domains (omap put_of l) (omap del_of l) ↔ d ∈ l.*1.
Proof.
  unfold batch_domains. rewrite elem_of_app, !list_elem_of_fmap. split.
  - intros [([[ts d'] v] & -> & Hin)|([ts d'] & -> & Hin)];
      apply list_elem_of_omap in Hin as ([d0 op] & Hin & Hop);
      unfold put_of, del_of in Hop; simpl in Hop; destruct (op_value (operation op));
      simplify_eq/=; by exists (d', op).
  - intros ([d' op] & -> & Hin). simpl. destruct (op_value (operation op)) as [v|] eqn:Hv.
    + left. exists (write_ts op, d', clone_for_commit v). split; [done|].
      apply list_elem_of_omap. exists (d', op). unfold put_of. simpl. by rewrite Hv.
    + right. exists (write_ts op, d'). split; [done|].
      apply list_elem_of_omap. exists (d', op). unfold del_of. simpl. by rewrite Hv.
Qed.

Lemma collected_domains_NoDup (l : list (D * Op C)) :
  NoDup l.*1 → NoDup (batch_domains (omap put_of l) (omap del_of l)).
Proof.
  induction l as [|[d op] l IH]; simpl; intros Hnd; [constructor|].
  apply NoDup_cons in Hnd as [Hn Hnd]. specialize (IH Hnd).
  rewrite <- collected_domains in Hn.
  unfold put_of at 1, del_of at 1; simpl. destruct (op_value (operation op)) as [v|]; simpl.
  - unfold batch_domains in *; simpl. by constructor.
  - unfold batch_domains in *; simpl. rewrite <- Permutation_middle. by constructor.
Qed.

Lemma elem_of_puts (m : gmap D (Op C)) ts d v :
  (ts, d, v) ∈ omap put_of (map_to_list m) ↔
  ∃ op v0, m !! d = Some op ∧ op_value (operation op) = Some v0 ∧
           ts = write_ts op ∧ v = clone_for_commit v0.
Proof.
  rewrite list_elem_of_omap. unfold put_of. split.
  - intros ([d' op] & Hin%elem_of_map_to_list & Hop). simpl in Hop.
    destruct (op_value (operation op)) as [v0|] eqn:Hv; simplify_eq/=. eauto 6.
  - intros (op & v0 & Hd & Hv & -> & ->). exists (d, op). simpl. rewrite Hv.
    split; [by apply elem_of_map_to_list|done].
Qed.

Lemma elem_of_dels (m : gmap D (Op C)) ts d :
  (ts, d) ∈ omap del_of (map_to_list m) ↔
  ∃ op, m !! d = Some op ∧ op_value (operation op) = None ∧ ts = write_ts op.
Proof.
  rewrite list_elem_of_omap. unfold del_of. split.
  - intros ([d' op] & Hin%elem_of_map_to_list & Hop). simpl in Hop.
    destruct (op_value (operation op)) eqn:Hv; simplify_eq/=. eauto.
  - intros (op & Hd & Hv & ->). exists (d, op). simpl. rewrite Hv.
    split; [by apply elem_of_map_to_list|done].
Qed.

Lemma batch_overlay ws (m : gmap D (Entry C)) :
  let b := collect_index_ops ws in
  NoDup (batch_domains b.1 b.2) ∧
  delete_all b.2 (insert_all b.1 m) = commit_overlay (WorkingSet.tuples ws) m.
Proof.
  rewrite collect_index_ops_omap. cbn zeta; cbn [fst snd].
  pose proof (NoDup_fst_map_to_list (WorkingSet.tuples ws)) as Hnd.
  pose proof (collected_domains_NoDup _ Hnd) as Hnd'. split; [done|].
  apply map_eq. intros d. rewrite commit_overlay_lookup.
  destruct (WorkingSet.tuples ws !! d) as [op|] eqn:Hd;
    [destruct (op_value (operation op)) as [v|] eqn:Hv|];
    destruct (batch_cases _ _ m d Hnd') as [(Hm & (ts & Ht) & Hi)
      |[(ts & v' & Hm & Hi & _ & Ht)|(Hm & Hi & Ht)]];
    rewrite Hm; simpl; try done.
  all: repeat match goal with
    | H : (_, _, _) ∈ omap put_of _ |- _ => apply elem_of_puts in H as (?&?&?&?&?&?)
    | H : (_, _) ∈ omap del_of _ |- _ => apply elem_of_dels in H as (?&?&?&?)
    end; simplify_eq/=; try done.
  - destruct (Hi (write_ts op) (clone_for_commit v)). apply elem_of_puts. eauto 6.
  - destruct (Ht (write_ts op)). apply elem_of_dels. eauto.
Qed.

Lemma load_flag_entries ws (i : I) : idx_entries (load_flag ws i) = idx_entries i.
Proof. unfold load_flag. by destruct (WorkingSet.provider_fully_loaded ws); rewrite ?law_set_loaded. Qed.

Lemma load_flag_inv ws (i : I) : idx_inv i → idx_inv (load_flag ws i).
Proof. unfold load_flag. destruct (WorkingSet.provider_fully_loaded ws); auto using law_inv_loaded. Qed.

Lemma load_flag_loaded ws (i : I) :
  is_provider_fully_loaded (load_flag ws i) =
  WorkingSet.provider_fully_loaded ws || is_provider_fully_loaded i.
Proof.
  unfold load_flag. by destruct (WorkingSet.provider_fully_loaded ws); rewrite ?law_loaded_set.
Qed.

Lemma commit_overlay_empty (m : gmap D (Entry C)) : commit_overlay ∅ m = m.
Proof. apply map_eq. intros d. by rewrite commit_overlay_lookup, lookup_empty. Qed.

(** A batch applied to an index, whether or not the empty batch is skipped. *)
Lemma batch_index ws (i : I) :
  let b := collect_index_ops ws in
  idx_entries (apply_batch b.1 b.2 i) = commit_overlay (WorkingSet.tuples ws) (idx_entries i) ∧
  (idx_inv i → idx_inv (apply_batch b.1 b.2 i)) ∧
  idx_entries (apply_batch_instrumented b.1 b.2 i) =
    commit_overlay (WorkingSet.tuples ws) (idx_entries i) ∧
  (idx_inv i → idx_inv (apply_batch_instrumented b.1 b.2 i)) ∧
  is_provider_fully_loaded (apply_batch b.1 b.2 i) = is_provider_fully_loaded i ∧
  is_provider_fully_loaded (apply_batch_instrumented b.1 b.2 i) = is_provider_fully_loaded i.
Proof.
  cbn zeta. destruct (batch_overlay ws (idx_entries i)) as [Hnd He]. cbn zeta in *.
  assert (idx_inv i → idx_inv (apply_batch (collect_index_ops ws).1 (collect_index_ops ws).2 i))
    as Hinv by (by apply law_inv_batch).
  unfold apply_batch_instrumented. rewrite <- He, law_batch.
  destruct (Nat.ltb_spec 0 (length (collect_index_ops ws).1 + length (collect_index_ops ws).2)).
  - rewrite !law_batch, !law_loaded_batch. by split_and!.
  - destruct (collect_index_ops ws) as [[|] [|]]; simpl in *; try lia.
    rewrite law_loaded_batch. by split_and!.
Qed.

Lemma prepare_indexes_spec ws c :
  let c' := prepare_indexes ws c in
  idx_entries (index c') = commit_overlay (WorkingSet.tuples ws) (idx_entries (index c)) ∧
  dirty c' = (dirty c || negb (WorkingSet.is_empty ws)) ∧
  CheckRelation.relation_name c' = CheckRelation.relation_name c ∧
  source c' = source c ∧
  (idx_inv (index c) → idx_inv (index c')) ∧
  is_provider_fully_loaded (index c') =
    (WorkingSet.provider_fully_loaded ws || is_provider_fully_loaded (index c)).
Proof.
  cbn zeta. unfold prepare_indexes. destruct (WorkingSet.is_empty ws) eqn:He; simpl.
  - apply bool_decide_eq_true in He.
    rewrite He, commit_overlay_empty, load_flag_entries, load_flag_loaded, orb_false_r.
    split_and!; try done. apply load_flag_inv.
  - rewrite (surjective_pairing (collect_index_ops ws)). simpl.
    destruct (batch_index ws (load_flag ws (index c))) as (_ & _ & -> & Hi & _ & ->).
    rewrite load_flag_entries, load_flag_loaded, orb_true_r.
    split_and!; try done. intros Hinv. by apply Hi, load_flag_inv.
Qed.

Lemma rebased_snapshot_index_spec ws c (existing : I) :
  dirty c = true →
  let i := rebased_snapshot_index c existing ws in
  idx_entries i = commit_overlay (WorkingSet.tuples ws) (idx_entries existing) ∧
  (idx_inv existing → idx_inv i) ∧
  is_provider_fully_loaded i =
    (WorkingSet.provider_fully_loaded ws || is_provider_fully_loaded existing).
Proof.
  intros Hd. cbn zeta. unfold rebased_snapshot_index. rewrite Hd. simpl.
  rewrite (surjective_pairing (collect_index_ops ws)).
  destruct (batch_index ws (load_flag ws existing)) as (-> & Hi & _ & _ & -> & _).
  rewrite load_flag_entries, load_flag_loaded. split_and!; [done| |done].
  intros Hinv. by apply Hi, load_flag_inv.
Qed.

(** [apply] leaves the index [prepare_indexes] leaves. *)
Lemma apply_index ws c c' :
  apply ws c = Some c' → index c' = index (prepare_indexes ws c) ∧
  dirty c' = dirty (prepare_indexes ws c).
Proof.
  unfold apply, prepare_indexes. intros Ha.
  destruct (fold_left apply_store_step _ _) as [p|]; [|done]. simpl in Ha.
  rewrite (surjective_pairing (collect_index_ops ws)) in *. simplify_eq/=.
  destruct (WorkingSet.is_empty ws) eqn:He; simpl; [|done].
  apply bool_decide_eq_true in He. rewrite collect_index_ops_omap, He.
  by rewrite map_to_list_empty.
Qed.
End apply.

(** ** The results on committing one relation, from a transaction's working set
    to the committed index, and on seeding a relation from its store. *)

Section main.
Context {D C I P : Type} `{RelationDomain D} `{RelationCodomain C}
  `{!RelationIndex I D C} `{!RelationIndexLaws I D C} `{!Provider P D C}.
Import CheckRelation.

(** The state of a key in two sets of rows: its version is the same. *)
Definition same_version (m1 m2 : gmap D (Entry C)) (d : D) : Prop :=
  entry_ts <$> m1 !! d = entry_ts <$> m2 !! d.

Lemma fail_resolves (pc : PotentialConflict D C) :
  resolve mkFailOnConflict pc =
  if (λ _ : D, false) (pc_domain pc) then Ok (mkFailOnConflict, Accept)
  else Err (Conflict (pc_info pc)).
Proof. done. Qed.

(** C33: the strict conflict check is first-committer-wins. A transaction's
    working set passes the check against a later state of the relation exactly
    when every key it wrote (guaranteed-unique inserts aside) still has the
    version its snapshot had, also when the key was absent; the check then
    changes neither the working set nor the relation's rows. Otherwise it fails
    with a conflict that names a written key that moved. *)
Theorem check_first_committer_wins tx name canonical (src : P) pm (cs : list (cmd D C))
    (c : t I P) (current : gmap D (Timestamp * C)) :
  let s := RelationTransaction.new_shared tx name canonical src in
  startable tx canonical src pm →
  Forall (λ c, allowed pm c s) cs →
  ProviderModel (source c) current →
  (∀ d e, rows current c !! d = Some e → entry_ts e ≠ tx_ts tx) →
  let w := RelationTransaction.working_set (exec_all cs s).1 in
  let base := snapshot_rows canonical pm in
  (∃ c', check w c = Ok (c', w) ∧ rows current c' = rows current c ∧
     ∀ d op, WorkingSet.tuples w !! d = Some op → guaranteed_unique op = false →
       same_version (rows current c) base d) ∨
  (∃ d op ct, WorkingSet.tuples w !! d = Some op ∧ guaranteed_unique op = false ∧
     ~ same_version (rows current c) base d ∧
     check w c = Err (Conflict (make_conflict_info (relation_name c) d ct))).
Proof.
  intros s Hs Hall Hp Hown w base.
  destruct (exec_all_refines pm cs s) as (Hwf & (Hb & Ht & _) & _);
    [by apply new_shared_wf|done|].
  assert (∀ d op, WorkingSet.tuples w !! d = Some op →
    op_provenance (tx_ts tx) (base !! d) op) as Hprov.
  { intros d op Hd. pose proof (wf_ops _ _ Hwf d op Hd) as Hop. rewrite Hb in Hop.
    unfold RelationTransaction.write_ts in Hop. by rewrite Ht in Hop. }
  assert (∀ d e, base !! d = Some e → entry_ts e < tx_ts tx) as Hbase.
  { intros d e He. pose proof (start_visible _ _ _ _ Hs d e He).
    pose proof (start_ts _ _ _ _ Hs). lia. }
  assert (ops_ordered w) as Hord.
  { intros d op Hd. destruct (Hprov d op Hd) as [-> Hop].
    destruct (operation op), (base !! d) as [e|] eqn:He; try done; rewrite Hop;
      try lia; apply Hbase in He; lia. }
  assert (∀ d op, WorkingSet.tuples w !! d = Some op → guaranteed_unique op = false →
    blocked (λ _, false) (rows current c) d op = None ↔ same_version (rows current c) base d)
    as Hiff.
  { intros d op Hd Hu. apply (conflict_of_provenance (tx_ts tx)); [by apply Hprov|done| |].
    - intros e He. apply Hbase in He. lia.
    - intros e He. by apply (Hown d). }
  destruct (check_with_resolver_spec current (λ _, false) mkFailOnConflict fail_resolves w c Hp Hord)
    as [(c' & Hc & Hrows & Hok)|(d & op & ct & Hd & Hbl & Hc)].
  - left. exists c'. split_and!; [done|exact (cr_rows _ _ _ Hrows)|].
    intros d op Hd Hu. by apply (Hiff d op Hd Hu), Hok.
  - right. exists d, op, ct.
    assert (guaranteed_unique op = false) as Hu.
    { unfold blocked, conflict_of in Hbl. by destruct (guaranteed_unique op). }
    split_and!; [done|done| |done]. rewrite <- (Hiff d op Hd Hu). by rewrite Hbl.
Qed.

(** C34: both ways of building the committed index apply exactly the log. The
    index prepared on the checked snapshot, and the index rebuilt on any later
    one after a lost publication, hold for every written key the logged value
    (cleared for commit) under the transaction's timestamp or nothing if it was
    deleted, keep every other entry, and keep the reverse index correct. *)
Theorem commit_applies_log (ws : WorkingSet.t D C I) (c : t I P) (existing winner : I) :
  WorkingSet.tuples ws ≠ ∅ →
  idx_entries (index c) = idx_entries existing →
  idx_inv (index c) → idx_inv winner →
  let prepared := snapshot_index_or (prepare_indexes ws c) existing in
  let rebased := rebased_snapshot_index (prepare_indexes ws c) winner ws in
  (∀ d, idx_entries prepared !! d =
     match WorkingSet.tuples ws !! d with
     | Some op => (λ v, mkEntry (write_ts op) (clone_for_commit v)) <$> op_value (operation op)
     | None => idx_entries existing !! d
     end) ∧
  (∀ d, idx_entries rebased !! d =
     match WorkingSet.tuples ws !! d with
     | Some op => (λ v, mkEntry (write_ts op) (clone_for_commit v)) <$> op_value (operation op)
     | None => idx_entries winner !! d
     end) ∧
  idx_inv prepared ∧ idx_inv rebased.
Proof.
  intros Hne He Hic Hiw. cbn zeta.
  destruct (prepare_indexes_spec ws c) as (Hp & Hd & _ & _ & Hi & _). cbn zeta in *.
  assert (dirty (prepare_indexes ws c) = true) as Hdirty.
  { rewrite Hd. unfold WorkingSet.is_empty. rewrite bool_decide_eq_false_2 by done.
    apply orb_true_r. }
  destruct (rebased_snapshot_index_spec ws (prepare_indexes ws c) winner Hdirty) as (Hr & Hri & _).
  cbn zeta in *. unfold snapshot_index_or. rewrite Hdirty, Hp, Hr, He.
  split_and!; [intros d; apply commit_overlay_lookup..|by apply Hi|by apply Hri].
Qed.
End main.

(** ** Seeding from the store *)

Section seeding.
Context {D C P : Type} `{RelationDomain D} `{RelationCodomain C} `{!Provider P D C}.

Lemma seed_loop (rows : list (Timestamp * D * C)) (i : DynIndex D C) (mx : Timestamp) :
  let r := fold_left seed_step rows (i, mx) in
  idx_entries r.1 = insert_all rows (idx_entries i) ∧ (idx_inv i → idx_inv r.1) ∧
  mx ≤ r.2 ∧ (∀ t d c, (t, d, c) ∈ rows → t ≤ r.2) ∧
  (r.2 = mx ∨ ∃ t d c, (t, d, c) ∈ rows ∧ r.2 = t).
Proof.
  revert i mx. induction rows as [|[[t d] c] rows IH]; intros i mx.
  { simpl. split_and!; [done|done|lia|set_solver|by left]. }
  cbn [fold_left].
  change (seed_step (i, mx) (t, d, c)) with ((insert_entry t d c i).1, (Z.max mx t : Timestamp)).
  destruct (IH (insert_entry t d c i).1 (Z.max mx t)) as (He & Hi & Hle & Hall & Hmax).
  cbn zeta in *. split_and!.
  - rewrite He, law_insert. done.
  - intros Hinv. by apply Hi, law_inv_insert.
  - lia.
  - intros t' d' c' [?|Hin]%elem_of_cons; simplify_eq; [lia|by eapply Hall].
  - destruct Hmax as [Hm|(t' & d' & c' & Hin & Hm)].
    + rewrite Hm. destruct (Z.max_spec mx t) as [[_ ->]|[_ ->]]; [|by left].
      right. exists t, d, c. split; [constructor|done].
    + right. exists t', d', c'. split; [by constructor|done].
Qed.

Lemma insert_all_rows (pm : gmap D (Timestamp * C)) (rows : list (Timestamp * D * C)) :
  NoDup (map (λ r : Timestamp * D * C, r.1.2) rows) →
  (∀ t d c, (t, d, c) ∈ rows ↔ pm !! d = Some (t, c)) →
  insert_all rows ∅ = row_entry <$> pm.
Proof.
  intros Hnd Hrows. apply map_eq. intros d. rewrite lookup_fmap.
  destruct (pm !! d) as [[t c]|] eqn:Hd.
  - apply insert_all_lookup_in; [done|]. by apply Hrows.
  - rewrite insert_all_lookup_ne, lookup_empty; [done|].
    intros ([[t d'] c] & -> & Hin)%list_elem_of_fmap. apply Hrows in Hin. simpl in Hd. congruence.
Qed.

Lemma seeded_index_spec (r : Relation.t D C P) (pm : gmap D (Timestamp * C)) :
  ProviderModel (Relation.source r) pm →
  idx_entries (Relation.index_factory r tt) = ∅ → idx_inv (Relation.index_factory r tt) →
  ∃ i mx, Relation.seeded_index_with_max_timestamp r = Ok (i, mx) ∧
    idx_entries i = row_entry <$> pm ∧ idx_inv i ∧ is_provider_fully_loaded i = true ∧
    (∀ d t c, pm !! d = Some (t, c) → t ≤ mx) ∧
    (mx = 0 ∨ ∃ d c, pm !! d = Some (mx, c)).
Proof.
  intros Hp He Hi. unfold Relation.seeded_index_with_max_timestamp, seed.
  destruct (pm_scan _ _ Hp (λ _ _, true)) as (rows & -> & Hnd & Hrows).
  destruct (seed_loop rows (Relation.index_factory r tt) 0) as (Hr & Hinv & _ & Hle & Hmax).
  cbn zeta in *.
  destruct (fold_left seed_step rows _) as [i mx]; cbn [fst snd] in *.
  exists (set_provider_fully_loaded true i), mx. split; [done|].
  rewrite law_set_loaded, law_loaded_set, Hr, He.
  assert (∀ t d c, (t, d, c) ∈ rows ↔ pm !! d = Some (t, c)) as Hrows'.
  { intros t d c. rewrite Hrows. naive_solver. }
  split_and!; [by apply insert_all_rows|by apply law_inv_loaded, Hinv|done| |].
  - intros d t c Hd. by apply (Hle t d c), Hrows'.
  - destruct Hmax as [->|(t & d & c & Hin & ->)]; [by left|right].
    exists d, c. by apply Hrows'.
Qed.

(** opening a relation, with or without a reverse index, loads its store
    exactly: the seeded index has one entry per stored row with its timestamp,
    is authoritative, has a correct reverse index, and the timestamp reported
    is the newest of the stored ones (0 for an empty store). *)
Theorem seeding_loads_store (name : Symbol) (source : P) (pm : gmap D (Timestamp * C))
    (secondary : bool) :
  ProviderModel source pm →
  let r := if secondary then Relation.new_with_secondary name source
           else Relation.new name source in
  ∃ i mx, Relation.seeded_index_with_max_timestamp r = Ok (i, mx) ∧
    idx_entries i = row_entry <$> pm ∧ idx_inv i ∧ is_provider_fully_loaded i = true ∧
    (∀ d t c, pm !! d = Some (t, c) → t ≤ mx) ∧
    (mx = 0 ∨ ∃ d c, pm !! d = Some (mx, c)).
Proof.
  intros Hp r. apply seeded_index_spec; subst r; destruct secondary; try done.
  exact sec_inv_new.
Qed.
End seeding.

(** ** Concrete runs *)

Module CheckConcrete.
Import Concrete CheckRelation.

(** A later state of the relation: key 2 moved to timestamp 8. *)
Definition later0 : t (SecondaryIndexRelation.t Z Z) (gmap Z (Timestamp * Z)) :=
  CheckRelation.mk (insert_entry 8 2 222 index0).1 name0 store0 false.

Lemma later0_fresh d e : rows store0 later0 !! d = Some e → entry_ts e ≠ 10.
Proof.
  assert (map_Forall (λ _ e, entry_ts e ≠ 10) (rows store0 later0)) as Hall.
  { apply (bool_decide_unpack _). vm_compute. exact I. }
  intros Hd. exact (Hall d e Hd).
Qed.

Lemma check_first_committer_wins_witness :
  let w := RelationTransaction.working_set (exec_all [CUpdate 1 5; CInsert 7 9] start0).1 in
  startable tx0 index0 store0 store0 ∧
  ((∃ c', check w later0 = Ok (c', w) ∧ rows store0 c' = rows store0 later0 ∧
     ∀ d op, WorkingSet.tuples w !! d = Some op → guaranteed_unique op = false →
       same_version (rows store0 later0) (snapshot_rows index0 store0) d) ∨
   (∃ d op ct, WorkingSet.tuples w !! d = Some op ∧ guaranteed_unique op = false ∧
     ~ same_version (rows store0 later0) (snapshot_rows index0 store0) d ∧
     check w later0 = Err (Conflict (make_conflict_info name0 d ct)))).
Proof.
  split; [exact start0_ok|].
  apply (check_first_committer_wins tx0 name0 index0 store0 store0 [CUpdate 1 5; CInsert 7 9]
    later0 store0).
  - exact start0_ok.
  - repeat constructor.
  - apply rows_provider_model.
  - exact later0_fresh.
Defined.

Example later0_accepts_disjoint :
  is_ok (check (RelationTransaction.working_set (exec_all [CUpdate 1 5; CInsert 7 9] start0).1)
    later0) = true.
Proof. vm_compute. reflexivity. Qed.

Example later0_refuses_moved_key :
  is_ok (check (RelationTransaction.working_set (exec_all [CUpdate 1 5; CDelete 2] start0).1)
    later0) = false.
Proof. vm_compute. reflexivity. Qed.

Lemma commit_applies_log_witness :
  let ws := RelationTransaction.working_set (exec_all [CUpdate 1 5; CDelete 2] start0).1 in
  let c := CheckRelation.mk index0 name0 store0 false in
  idx_inv (snapshot_index_or (prepare_indexes ws c) index0).
Proof.
  apply (commit_applies_log
    (RelationTransaction.working_set (exec_all [CUpdate 1 5; CDelete 2] start0).1)
    (CheckRelation.mk index0 name0 store0 false) index0 index0).
  - vm_compute. discriminate.
  - reflexivity.
  - exact index0_inv.
  - exact index0_inv.
Defined.

Lemma seeding_loads_store_witness :
  ∃ i mx, Relation.seeded_index_with_max_timestamp
      (Relation.new_with_secondary name0 store0) = Ok (i, mx) ∧
    idx_entries i = row_entry <$> store0 ∧ idx_inv i ∧ is_provider_fully_loaded i = true ∧
    (∀ d t c, store0 !! d = Some (t, c) → t ≤ mx) ∧
    (mx = 0 ∨ ∃ d c, store0 !! d = Some (mx, c)).
Proof. apply (seeding_loads_store name0 store0 store0 true). apply rows_provider_model. Defined.
End CheckConcrete.
