(* ===== verification/Bloom.v ===== *)
(** The commit filter (crates/db/src/tx/commit_bloom.rs): a Bloom filter of
    2048 bits in 256 bytes with two probes per key. The probes are the [ahash]
    values of the key, a parameter of the key type ([double_hash]). *)
From S2P Require Import Prelude TxTypes.
From stdpp Require Import base gmap sets list fin_maps.

Open Scope Z_scope.

Definition BLOOM_BITS : Z := 2048.
Definition BLOOM_BYTES : nat := 256.

Module CommitBloom.

Record t := mk { bits : list Z }.

Definition new : t := mk (replicate BLOOM_BYTES 0).

(** Indexing the byte array; every index used is below [BLOOM_BYTES]. *)
Definition byte (b : t) (i : nat) : Z := bits b !!! i.

Definition set_bit (bit : Z) (b : t) : t :=
  let i := Z.to_nat (bit `div` 8) in
  mk (<[i := Z.lor (byte b i) (Z.shiftl 1 (bit `mod` 8))]> (bits b)).

Definition get_bit (bit : Z) (b : t) : bool :=
  negb (Z.land (byte b (Z.to_nat (bit `div` 8))) (Z.shiftl 1 (bit `mod` 8)) =? 0).

Definition insert {K} `{RelationDomain K} (key : K) (b : t) : t :=
  let '(h1, h2) := double_hash key in
  set_bit (h2 `mod` BLOOM_BITS) (set_bit (h1 `mod` BLOOM_BITS) b).

Definition might_contain {K} `{RelationDomain K} (key : K) (b : t) : bool :=
  let '(h1, h2) := double_hash key in
  get_bit (h1 `mod` BLOOM_BITS) b && get_bit (h2 `mod` BLOOM_BITS) b.

Definition is_empty (b : t) : bool := forallb (λ x, x =? 0) (bits b).

Definition might_intersect (self other : t) : bool :=
  existsb (λ i, negb (Z.land (byte self i) (byte other i) =? 0)) (seq 0 BLOOM_BYTES).

Definition merge_byte (other : t) (self : t) (i : nat) : t :=
  mk (<[i := Z.lor (byte self i) (byte other i)]> (bits self)).

Definition merge (other self : t) : t :=
  fold_left (merge_byte other) (seq 0 BLOOM_BYTES) self.

(** [for key in keys { bloom.insert(key) }]. *)
Definition insert_keys {K} `{RelationDomain K} (keys : list K) (b : t) : t :=
  fold_left (λ b key, insert key b) keys b.

(** ** Filters as sets of bits *)

Definition wf (b : t) : Prop := length (bits b) = BLOOM_BYTES.

Definition in_range (n : Z) : Prop := 0 ≤ n < BLOOM_BITS.

Lemma mod_in_range h : in_range (h `mod` BLOOM_BITS).
Proof. unfold in_range, BLOOM_BITS. apply Z.mod_pos_bound. lia. Qed.

Lemma byte_index n : in_range n → (Z.to_nat (n `div` 8) < BLOOM_BYTES)%nat.
Proof. unfold in_range, BLOOM_BITS, BLOOM_BYTES. intros Hn.
  pose proof (Z.div_mod n 8). pose proof (Z.mod_pos_bound n 8). lia. Qed.

Lemma land_pow2 x k : 0 ≤ k → negb (Z.land x (Z.shiftl 1 k) =? 0) = Z.testbit x k.
Proof.
  intros Hk. rewrite Z.shiftl_1_l.
  destruct (Z.testbit x k) eqn:Ht; destruct (Z.eqb_spec (Z.land x (2 ^ k)) 0) as [He|He]; try done.
  - apply (f_equal (λ z, Z.testbit z k)) in He.
    by rewrite Z.land_spec, Ht, Z.pow2_bits_true, Z.bits_0 in He.
  - destruct He. apply Z.bits_inj'. intros i Hi. rewrite Z.land_spec, Z.bits_0.
    destruct (decide (i = k)) as [->|Hne]; [by rewrite Ht|].
    rewrite Z.pow2_bits_false by lia. apply andb_false_r.
Qed.

Lemma get_bit_testbit n b :
  get_bit n b = Z.testbit (byte b (Z.to_nat (n `div` 8))) (n `mod` 8).
Proof. unfold get_bit. apply land_pow2, Z.mod_pos_bound. lia. Qed.

Lemma byte_insert b i v j :
  (i < length (bits b))%nat →
  byte (mk (<[i := v]> (bits b))) j = if decide (i = j) then v else byte b j.
Proof.
  intros Hi. unfold byte; simpl. case_decide as Hij; subst.
  - by apply list_lookup_total_insert_eq.
  - by apply list_lookup_total_insert_ne.
Qed.

Lemma set_bit_wf n b : wf b → wf (set_bit n b).
Proof. unfold wf, set_bit; simpl. by rewrite length_insert. Qed.

Lemma get_set_bit n m b :
  wf b → in_range m → in_range n →
  get_bit n (set_bit m b) = bool_decide (n = m) || get_bit n b.
Proof.
  intros Hb Hm Hn. pose proof (byte_index m Hm) as Hi. rewrite <- Hb in Hi.
  rewrite !get_bit_testbit. unfold set_bit. rewrite byte_insert by done.
  unfold in_range in *. pose proof (Z.mod_pos_bound n 8). pose proof (Z.mod_pos_bound m 8).
  pose proof (Z.div_mod n 8). pose proof (Z.div_mod m 8).
  pose proof (Z.div_pos n 8). pose proof (Z.div_pos m 8).
  case_decide as Hd.
  - assert (n `div` 8 = m `div` 8) as Hq by lia. rewrite Hq.
    rewrite Z.lor_spec, Z.shiftl_1_l, orb_comm. f_equal.
    case_bool_decide as Hnm; [subst; apply Z.pow2_bits_true; lia|].
    apply Z.pow2_bits_false. lia.
  - rewrite bool_decide_eq_false_2; [done|]. intros ->. done.
Qed.

Lemma merge_loop other l b :
  wf b → NoDup l → (∀ i, i ∈ l → (i < BLOOM_BYTES)%nat) →
  let b' := fold_left (merge_byte other) l b in
  wf b' ∧ ∀ j, byte b' j = if decide (j ∈ l) then Z.lor (byte b j) (byte other j) else byte b j.
Proof.
  revert b. induction l as [|i l IH]; intros b Hb Hnd Hr; cbn zeta; cbn [fold_left].
  { split; [done|]. intros j. by rewrite decide_False by apply not_elem_of_nil. }
  apply NoDup_cons in Hnd as [Hn Hnd].
  assert (wf (merge_byte other b i)) as Hb1 by (unfold wf in *; simpl; by rewrite length_insert).
  destruct (IH (merge_byte other b i) Hb1 Hnd) as [Hwf Hby];
    [intros j Hj; apply Hr; by constructor|].
  split; [done|]. intros j. rewrite Hby. unfold merge_byte.
  rewrite byte_insert by (rewrite Hb; apply Hr; by constructor).
  destruct (decide (j ∈ i :: l)) as [Hj|Hj]; rewrite elem_of_cons in Hj;
    destruct (decide (j ∈ l)), (decide (i = j)); subst; try done; try tauto.
  all: destruct Hj; congruence.
Qed.

Lemma get_merge_bit n other b :
  wf b → in_range n → get_bit n (merge other b) = get_bit n b || get_bit n other.
Proof.
  intros Hb Hn. unfold merge.
  destruct (merge_loop other (seq 0 BLOOM_BYTES) b Hb) as [_ Hby].
  - apply NoDup_ListNoDup, seq_NoDup.
  - intros i Hi%list_elem_of_In%in_seq. lia.
  - cbn zeta in Hby. rewrite !get_bit_testbit, Hby, decide_True, Z.lor_spec; [done|].
    apply list_elem_of_In, in_seq. pose proof (byte_index n Hn). lia.
Qed.

Lemma merge_wf other b : wf b → wf (merge other b).
Proof.
  intros Hb. apply merge_loop; [done|apply NoDup_ListNoDup, seq_NoDup|].
  intros i Hi%list_elem_of_In%in_seq. lia.
Qed.

Lemma disjoint_bits b1 b2 n :
  might_intersect b1 b2 = false → in_range n → get_bit n b1 = true → get_bit n b2 = false.
Proof.
  intros Hm Hn H1. destruct (get_bit n b2) eqn:H2; [|done]. exfalso.
  pose proof (byte_index n Hn) as Hi. rewrite get_bit_testbit in H1, H2.
  set (i := Z.to_nat (n `div` 8)) in *.
  assert (might_intersect b1 b2 = true) as Ht; [|congruence].
  apply existsb_exists. exists i. split; [apply in_seq; lia|].
  apply negb_true_iff, Z.eqb_neq. intros He.
  apply (f_equal (λ z, Z.testbit z (n `mod` 8))) in He.
  by rewrite Z.land_spec, H1, H2, Z.bits_0 in He.
Qed.

Lemma insert_wf {K} `{RelationDomain K} (key : K) b : wf b → wf (insert key b).
Proof. unfold insert. destruct (double_hash key). auto using set_bit_wf. Qed.

Lemma new_wf : wf new.
Proof. done. Qed.
#[export] Hint Resolve set_bit_wf merge_wf insert_wf new_wf : moor.

(** The bits a key owns. *)
Definition probes {K} `{RelationDomain K} (key : K) : list Z :=
  [(double_hash key).1 `mod` BLOOM_BITS; (double_hash key).2 `mod` BLOOM_BITS].

Lemma probes_in_range {K} `{RelationDomain K} (key : K) n : n ∈ probes key → in_range n.
Proof. unfold probes. intros Hn. apply elem_of_cons in Hn as [->|Hn]; [apply mod_in_range|].
  apply list_elem_of_singleton in Hn as ->. apply mod_in_range. Qed.

Lemma get_insert_bit {K} `{RelationDomain K} (key : K) n b :
  wf b → in_range n → get_bit n (insert key b) = bool_decide (n ∈ probes key) || get_bit n b.
Proof.
  intros Hb Hn. unfold insert, probes. destruct (double_hash key) as [h1 h2]; simpl.
  rewrite !get_set_bit by auto using set_bit_wf, mod_in_range.
  rewrite orb_assoc. f_equal. rewrite <- bool_decide_or. apply bool_decide_ext. set_solver.
Qed.

Lemma might_contain_probes {K} `{RelationDomain K} (key : K) b :
  might_contain key b = true ↔ ∀ n, n ∈ probes key → get_bit n b = true.
Proof.
  unfold might_contain, probes. destruct (double_hash key) as [h1 h2]; simpl.
  rewrite andb_true_iff. set_solver.
Qed.

Lemma get_insert_keys_bit {K} `{RelationDomain K} (keys : list K) n b :
  wf b → in_range n →
  wf (insert_keys keys b) ∧
  (get_bit n (insert_keys keys b) = true ↔
   (∃ k, k ∈ keys ∧ n ∈ probes k) ∨ get_bit n b = true).
Proof.
  unfold insert_keys. revert b. induction keys as [|k keys IH]; intros b Hb Hn; simpl.
  { split; [done|]. set_solver. }
  destruct (IH (insert k b)) as [Hwf Hg]; [by apply insert_wf|done|]. split; [done|].
  rewrite Hg, get_insert_bit by done. rewrite orb_true_iff, bool_decide_eq_true. set_solver.
Qed.

Lemma insert_keys_wf {K} `{RelationDomain K} (keys : list K) b : wf b → wf (insert_keys keys b).
Proof. intros Hb. by apply (get_insert_keys_bit keys 0 b). Qed.
#[export] Hint Resolve insert_keys_wf : moor.

(** A filter covers a key when its probes are set. *)
Lemma insert_keys_covers {K} `{RelationDomain K} (keys : list K) k b :
  wf b → k ∈ keys → might_contain k (insert_keys keys b) = true.
Proof.
  intros Hb Hk. apply might_contain_probes. intros n Hn.
  apply get_insert_keys_bit; [done|exact (probes_in_range k n Hn)|]. left. eauto.
Qed.

Lemma insert_keys_mono {K L} `{RelationDomain K} `{RelationDomain L} (keys : list L) (k : K) b :
  wf b → might_contain k b = true → might_contain k (insert_keys keys b) = true.
Proof.
  rewrite !might_contain_probes. intros Hb Hk n Hn.
  apply get_insert_keys_bit; [done|exact (probes_in_range k n Hn)|]. right. by apply Hk.
Qed.

Lemma merge_covers {K} `{RelationDomain K} (k : K) other b :
  wf b → might_contain k b = true ∨ might_contain k other = true →
  might_contain k (merge other b) = true.
Proof.
  rewrite !might_contain_probes. intros Hb Hk n Hn.
  rewrite get_merge_bit by (exact Hb || exact (probes_in_range k n Hn)).
  apply orb_true_iff. destruct Hk as [Hk|Hk]; auto.
Qed.

Lemma disjoint_filters {K} `{RelationDomain K} (k : K) b1 b2 :
  might_intersect b1 b2 = false → might_contain k b1 = true → might_contain k b2 = false.
Proof.
  intros Hd H1. destruct (might_contain k b2) eqn:H2; [|done].
  rewrite might_contain_probes in H1, H2.
  pose proof (disjoint_bits b1 b2 ((double_hash k).1 `mod` BLOOM_BITS) Hd (mod_in_range _)) as Hx.
  rewrite H1, H2 in Hx by constructor. by specialize (Hx eq_refl).
Qed.
End CommitBloom.

(** The filter has no false negatives and no other inaccuracy than shared
    probe bits: after inserting a list of keys into a filter and merging
    another one in, a key is reported exactly when each of its two probe bits
    is a probe bit of an inserted key or was set in one of the two filters; in
    particular every inserted key is reported. *)
Theorem bloom_contains_exactly {K} `{RelationDomain K} (keys : list K) (b other : CommitBloom.t)
    (k : K) :
  CommitBloom.wf b →
  let b' := CommitBloom.merge other (CommitBloom.insert_keys keys b) in
  (CommitBloom.might_contain k b' = true ↔
   ∀ n, n ∈ CommitBloom.probes k →
     (∃ k', k' ∈ keys ∧ n ∈ CommitBloom.probes k') ∨ CommitBloom.get_bit n b = true ∨
     CommitBloom.get_bit n other = true) ∧
  (k ∈ keys → CommitBloom.might_contain k b' = true).
Proof.
  intros Hb. cbn zeta. assert (∀ n, n ∈ CommitBloom.probes k →
    CommitBloom.get_bit n (CommitBloom.merge other (CommitBloom.insert_keys keys b)) = true ↔
    ((∃ k', k' ∈ keys ∧ n ∈ CommitBloom.probes k') ∨ CommitBloom.get_bit n b = true ∨
     CommitBloom.get_bit n other = true)) as Hbit.
  { intros n Hn%CommitBloom.probes_in_range.
    destruct (CommitBloom.get_insert_keys_bit keys n b Hb Hn) as [Hw Hg].
    rewrite CommitBloom.get_merge_bit, orb_true_iff, Hg by done. tauto. }
  split.
  - rewrite CommitBloom.might_contain_probes. split; intros Hall n Hn; by apply Hbit, Hall.
  - intros Hk. apply CommitBloom.merge_covers; [by apply CommitBloom.insert_keys_wf|].
    left. by apply CommitBloom.insert_keys_covers.
Qed.

(** C37: if the filter of a transaction's keys does not intersect a published
    filter, into which other keys were inserted and other filters merged, no
    key of the transaction is among the published ones. *)
Theorem bloom_disjoint_sound {K} `{RelationDomain K} (mine theirs : list K)
    (earlier : CommitBloom.t) (k : K) :
  let tx_bloom := CommitBloom.insert_keys mine CommitBloom.new in
  let published := CommitBloom.merge earlier (CommitBloom.insert_keys theirs CommitBloom.new) in
  CommitBloom.might_intersect tx_bloom published = false →
  k ∈ mine → k ∉ theirs ∧ CommitBloom.might_contain k earlier = false.
Proof.
  intros tx_bloom published Hd Hk.
  assert (CommitBloom.might_contain k tx_bloom = true) as H1
    by (by apply CommitBloom.insert_keys_covers).
  assert (CommitBloom.might_contain k published = false) as Hp
    by (by eapply CommitBloom.disjoint_filters).
  assert (CommitBloom.wf (CommitBloom.insert_keys theirs CommitBloom.new)) as Hw
    by (by apply CommitBloom.insert_keys_wf).
  split.
  - intros Hin. unfold published in Hp. rewrite CommitBloom.merge_covers in Hp; [done|done|].
    left. by apply CommitBloom.insert_keys_covers.
  - destruct (CommitBloom.might_contain k earlier) eqn:He; [|done].
    unfold published in Hp. rewrite CommitBloom.merge_covers in Hp; auto.
Qed.

Section witness.
#[local] Instance Zkey : RelationDomain Z := {
  domain_display := λ _, []; target := λ _, None; double_hash := λ z, (z * 37, z * 101 + 7);
}.

Lemma bloom_contains_exactly_witness :
  CommitBloom.wf CommitBloom.new ∧
  CommitBloom.might_contain 5
    (CommitBloom.merge CommitBloom.new (CommitBloom.insert_keys [4; 5] CommitBloom.new)) = true.
Proof.
  split; [reflexivity|].
  apply (bloom_contains_exactly [4; 5] CommitBloom.new CommitBloom.new 5); [reflexivity|].
  apply list_elem_of_lookup. by exists 1%nat.
Defined.

Lemma bloom_disjoint_sound_witness :
  5 ∉ [100; 200] ∧ CommitBloom.might_contain 5 CommitBloom.new = false.
Proof.
  apply (bloom_disjoint_sound [4; 5] [100; 200] CommitBloom.new 5).
  - vm_compute. reflexivity.
  - apply list_elem_of_lookup. by exists 1%nat.
Defined.
End witness.
