(* ===== verification/Model.v ===== *)
(** The data the relations hold: flag sets (crates/common/src/util/bitenum.rs),
    object and property flags and property permissions
    (crates/common/src/model/objects.rs and props.rs), definition sets and
    property definitions (model/defset.rs and propdef.rs), and the compound
    keys of the database (crates/db/src/model/mod.rs). *)
From S2P Require Import Prelude Obj TxTypes.
From Stdlib Require Import Ascii.
From stdpp Require Import base gmap sets list strings fin_maps.

Open Scope Z_scope.

(** ** Flag sets *)

Class BitFlag (T : Type) := { bit_index : T → Z }.

(** [BitEnum<T>]: sixteen bits. *)
Record BitEnum (T : Type) := mkBitEnum { be_value : Z }.
Arguments mkBitEnum {T} _.
Arguments be_value {T} _.

#[export] Instance BitEnum_eq_dec {T} : EqDecision (BitEnum T).
Proof. solve_decision. Defined.
#[export] Instance BitEnum_countable {T} : Countable (BitEnum T).
Proof. refine (inj_countable' be_value mkBitEnum _). by intros []. Defined.

Module BitEnumOps.
Section defs.
Context {T : Type} `{BitFlag T}.

Definition bit (value : T) : Z := Z.shiftl 1 (bit_index value).
Definition new : BitEnum T := mkBitEnum 0.
Definition to_u16 (b : BitEnum T) : Z := be_value b.
Definition from_u8 (value : Z) : BitEnum T := mkBitEnum value.
Definition from_u16 (value : Z) : BitEnum T := mkBitEnum value.
Definition set (value : T) (b : BitEnum T) : BitEnum T :=
  mkBitEnum (Z.lor (be_value b) (bit value)).
Definition new_with (value : T) : BitEnum T := set value (mkBitEnum 0).
Definition all_bits : BitEnum T := mkBitEnum u16_max.
Definition clear (value : T) (b : BitEnum T) : BitEnum T :=
  mkBitEnum (Z.land (be_value b) (Z.lxor u16_max (bit value))).
Definition contains (value : T) (b : BitEnum T) : bool :=
  negb (Z.land (be_value b) (bit value) =? 0).
Definition contains_all (values b : BitEnum T) : bool :=
  Z.land (be_value values) (be_value b) =? be_value values.
Definition contains_any (values b : BitEnum T) : bool :=
  negb (Z.land (be_value b) (be_value values) =? 0).
Definition bitor (b rhs : BitEnum T) : BitEnum T := mkBitEnum (Z.lor (be_value b) (be_value rhs)).
Definition bitor_flag (b : BitEnum T) (rhs : T) : BitEnum T := set rhs b.
End defs.
End BitEnumOps.

(** ** Property and object flags *)

Inductive PropFlag := PropRead | PropWrite | PropChown | PropClobber.

#[export] Instance PropFlag_eq_dec : EqDecision PropFlag.
Proof. solve_decision. Defined.

#[export] Instance prop_bit : BitFlag PropFlag := {
  bit_index f := match f with PropRead => 0 | PropWrite => 1 | PropChown => 2
                 | PropClobber => 3 end;
}.

Inductive ObjFlag :=
| ObjUser | ObjProgrammer | ObjWizard | ObjObsolete1 | ObjRead | ObjWrite | ObjObsolete2
| ObjFertile.

#[export] Instance ObjFlag_eq_dec : EqDecision ObjFlag.
Proof. solve_decision. Defined.

#[export] Instance obj_bit : BitFlag ObjFlag := {
  bit_index f := match f with ObjUser => 0 | ObjProgrammer => 1 | ObjWizard => 2
    | ObjObsolete1 => 3 | ObjRead => 4 | ObjWrite => 5 | ObjObsolete2 => 6 | ObjFertile => 7 end;
}.

Module PropFlags.
Import BitEnumOps.

Definition all_flags : BitEnum PropFlag :=
  bitor_flag (bitor_flag (new_with PropRead) PropWrite) PropChown.

Definition flag_of_char (c : ascii) : option PropFlag :=
  if ascii_dec c "r" then Some PropRead
  else if ascii_dec c "w" then Some PropWrite
  else if ascii_dec c "c" then Some PropChown
  else if ascii_dec c "o" then Some PropClobber
  else None.

Fixpoint parse_loop (flags : Z) (s : list ascii) : option (BitEnum PropFlag) :=
  match s with
  | [] => Some (from_u8 flags)
  | c :: s' =>
      match flag_of_char c with
      | Some f => parse_loop (Z.lor flags (Z.shiftl 1 (bit_index f))) s'
      | None => None
      end
  end.

Definition parse_str (s : list ascii) : option (BitEnum PropFlag) := parse_loop 0 s.

Definition rcw : BitEnum PropFlag := bitor (new_with PropRead) (new_with PropWrite).
Definition rc : BitEnum PropFlag := bitor (new_with PropRead) (new_with PropChown).
Definition rw : BitEnum PropFlag := bitor (new_with PropWrite) (new_with PropChown).
Definition r : BitEnum PropFlag := new_with PropRead.

Definition push_if (b : bool) (c : ascii) (s : list ascii) : list ascii :=
  if b then s ++ [c] else s.

Definition prop_flags_string (flags : BitEnum PropFlag) : list ascii :=
  push_if (contains PropClobber flags) "o"
    (push_if (contains PropChown flags) "c"
      (push_if (contains PropWrite flags) "w"
        (push_if (contains PropRead flags) "r" []))).
End PropFlags.

Module ObjFlags.
Import BitEnumOps.

Definition all_flags : BitEnum ObjFlag :=
  fold_left bitor_flag [ObjProgrammer; ObjWizard; ObjObsolete1; ObjRead; ObjWrite;
                        ObjObsolete2; ObjFertile] (new_with ObjUser).

Definition flag_of_char (c : ascii) : option ObjFlag :=
  if ascii_dec c "u" then Some ObjUser
  else if ascii_dec c "p" then Some ObjProgrammer
  else if ascii_dec c "w" then Some ObjWizard
  else if ascii_dec c "r" then Some ObjRead
  else if ascii_dec c "W" then Some ObjWrite
  else if ascii_dec c "f" then Some ObjFertile
  else None.

Fixpoint parse_loop (flags : Z) (s : list ascii) : option (BitEnum ObjFlag) :=
  match s with
  | [] => Some (from_u8 flags)
  | c :: s' =>
      match flag_of_char c with
      | Some f => parse_loop (Z.lor flags (Z.shiftl 1 (bit_index f))) s'
      | None => None
      end
  end.

Definition parse_str (s : list ascii) : option (BitEnum ObjFlag) := parse_loop 0 s.

Definition push_if (b : bool) (c : ascii) (s : list ascii) : list ascii :=
  if b then s ++ [c] else s.

Definition obj_flags_string (flags : BitEnum ObjFlag) : list ascii :=
  push_if (contains ObjFertile flags) "f"
    (push_if (contains ObjWrite flags) "W"
      (push_if (contains ObjRead flags) "r"
        (push_if (contains ObjWizard flags) "w"
          (push_if (contains ObjProgrammer flags) "p"
            (push_if (contains ObjUser flags) "u" []))))).
End ObjFlags.

(** ** Property permissions: a ten-byte buffer, little endian *)

Definition le_bytes (n : nat) (x : Z) : list Z :=
  map (λ i, Z.land (Z.shiftr x (8 * Z.of_nat i)) 255) (seq 0 n).

Fixpoint from_le_bytes (l : list Z) : Z :=
  match l with [] => 0 | b :: l' => Z.lor b (Z.shiftl (from_le_bytes l') 8) end.

Record PropPerms := mkPropPerms { perms_bytes : list Z }.

#[export] Instance PropPerms_eq_dec : EqDecision PropPerms.
Proof. solve_decision. Defined.
#[export] Instance PropPerms_countable : Countable PropPerms.
Proof. refine (inj_countable' perms_bytes mkPropPerms _). by intros []. Defined.

Module PropPermsOps.
Definition OWNER_OFFSET : nat := 0.
Definition FLAGS_OFFSET : nat := OWNER_OFFSET + 8.
Definition PROP_PERMS_SIZE : nat := FLAGS_OFFSET + 2.

(** [buf[offset..offset + len].copy_from_slice(bytes)] *)
Definition copy_at (offset : nat) (bytes buf : list Z) : list Z :=
  take offset buf ++ bytes ++ drop (offset + length bytes) buf.
Definition slice (offset len : nat) (buf : list Z) : list Z := take len (drop offset buf).

Definition write_owner (owner : Obj) (buf : list Z) : list Z :=
  copy_at OWNER_OFFSET (le_bytes 8 (as_u64 owner)) buf.
Definition write_flags (flags : BitEnum PropFlag) (buf : list Z) : list Z :=
  copy_at FLAGS_OFFSET (le_bytes 2 (BitEnumOps.to_u16 flags)) buf.

Definition new (owner : Obj) (flags : BitEnum PropFlag) : PropPerms :=
  mkPropPerms (write_flags flags (write_owner owner (replicate PROP_PERMS_SIZE 0))).
Definition owner (p : PropPerms) : Obj :=
  mkObj (from_le_bytes (slice OWNER_OFFSET 8 (perms_bytes p))).
Definition flags (p : PropPerms) : BitEnum PropFlag :=
  BitEnumOps.from_u16 (from_le_bytes (slice FLAGS_OFFSET 2 (perms_bytes p))).
Definition with_owner (o : Obj) (p : PropPerms) : PropPerms := new o (flags p).
Definition with_flags (f : BitEnum PropFlag) (p : PropPerms) : PropPerms := new (owner p) f.
End PropPermsOps.

(** ** Definition sets *)

Class HasUuid (T : Type) := { def_uuid : T → Uuid }.
Class Named (T : Type) := { matches_name : T → Symbol → bool; names : T → list Symbol }.

Record Defs (T : Type) := mkDefs { contents : list T }.
Arguments mkDefs {T} _.
Arguments contents {T} _.

#[export] Instance Defs_eq_dec {T} `{EqDecision T} : EqDecision (Defs T).
Proof. solve_decision. Defined.
#[export] Instance Defs_countable {T} `{Countable T} : Countable (Defs T).
Proof. refine (inj_countable' contents mkDefs _). by intros []. Defined.

Module DefsOps.
Section defs.
Context {T : Type} `{HasUuid T} `{Named T}.

Definition empty : Defs T := mkDefs [].
Definition from_items (items : list T) : Defs T := mkDefs items.
Definition len (d : Defs T) : nat := length (contents d).
Definition contains (uuid : Uuid) (d : Defs T) : bool :=
  existsb (λ p, bool_decide (def_uuid p = uuid)) (contents d).
Definition find (uuid : Uuid) (d : Defs T) : option T :=
  List.find (λ p, bool_decide (def_uuid p = uuid)) (contents d).
Definition find_named (name : Symbol) (d : Defs T) : list T :=
  List.filter (λ p, matches_name p name) (contents d).
Definition find_first_named (name : Symbol) (d : Defs T) : option T :=
  List.find (λ p, matches_name p name) (contents d).
Definition with_removed (uuid : Uuid) (d : Defs T) : option (Defs T) :=
  Some (mkDefs (List.filter (λ p, negb (bool_decide (def_uuid p = uuid))) (contents d))).
Definition with_all_removed (uuids : list Uuid) (d : Defs T) : Defs T :=
  mkDefs (fold_left (λ vec uuid,
    List.filter (λ p, negb (bool_decide (def_uuid p = uuid))) vec) uuids (contents d)).
Definition with_added (v : T) (d : Defs T) : Defs T := mkDefs (contents d ++ [v]).
Definition with_all_added (v : list T) (d : Defs T) : Defs T := mkDefs (contents d ++ v).
Definition with_updated (uuid : Uuid) (f : T → T) (d : Defs T) : option (Defs T) :=
  let did_update := existsb (λ p, bool_decide (def_uuid p = uuid)) (contents d) in
  let vec := map (λ p, if bool_decide (def_uuid p = uuid) then f p else p) (contents d) in
  if did_update then Some (mkDefs vec) else None.
End defs.
End DefsOps.

Record PropDef := mkPropDef {
  propdef_uuid : Uuid;
  propdef_definer : Obj;
  propdef_location : Obj;
  propdef_name : Symbol;
}.

#[export] Instance PropDef_eq_dec : EqDecision PropDef.
Proof. solve_decision. Defined.
#[export] Instance PropDef_countable : Countable PropDef.
Proof.
  refine (inj_countable' (λ p, (propdef_uuid p, propdef_definer p, propdef_location p,
    propdef_name p)) (λ '(u, d, l, n), mkPropDef u d l n) _). by intros [].
Defined.
#[export] Instance propdef_has_uuid : HasUuid PropDef := { def_uuid := propdef_uuid }.
#[export] Instance propdef_named : Named PropDef := {
  matches_name p name := bool_decide (propdef_name p = name);
  names p := [propdef_name p];
}.

Definition PropDefs : Type := Defs PropDef.

(** ** Keys *)

Record PropertyKey := mkPropertyKey { pk_obj : Obj; pk_uuid : Uuid }.
Record VerbKey := mkVerbKey { vk_obj : Obj; vk_uuid : Uuid }.

#[export] Instance PropertyKey_eq_dec : EqDecision PropertyKey.
Proof. solve_decision. Defined.
#[export] Instance PropertyKey_countable : Countable PropertyKey.
Proof. refine (inj_countable' (λ k, (pk_obj k, pk_uuid k)) (λ '(o, u), mkPropertyKey o u) _).
  by intros []. Defined.
#[export] Instance VerbKey_eq_dec : EqDecision VerbKey.
Proof. solve_decision. Defined.
#[export] Instance VerbKey_countable : Countable VerbKey.
Proof. refine (inj_countable' (λ k, (vk_obj k, vk_uuid k)) (λ '(o, u), mkVerbKey o u) _).
  by intros []. Defined.

Inductive MetadataTag := TagObject | TagProperty | TagVerb.

#[export] Instance MetadataTag_eq_dec : EqDecision MetadataTag.
Proof. solve_decision. Defined.
#[export] Instance MetadataTag_countable : Countable MetadataTag.
Proof.
  refine (inj_countable' (λ t, match t with TagObject => 0 | TagProperty => 1 | TagVerb => 2 end)
    (λ z, if z =? 0 then TagObject else if z =? 1 then TagProperty else TagVerb) _).
  by intros [].
Defined.

Record EntityMetadataKey := mkEntityMetadataKey {
  emk_obj : Obj;
  emk_tag : MetadataTag;
  emk_uuid : Uuid;
  emk_key : Symbol;
}.

#[export] Instance EntityMetadataKey_eq_dec : EqDecision EntityMetadataKey.
Proof. solve_decision. Defined.
#[export] Instance EntityMetadataKey_countable : Countable EntityMetadataKey.
Proof.
  refine (inj_countable' (λ k, (emk_obj k, emk_tag k, emk_uuid k, emk_key k))
    (λ '(o, t, u, k), mkEntityMetadataKey o t u k) _). by intros [].
Defined.

Module MetadataKey.
Definition object (obj : Obj) (key : Symbol) : EntityMetadataKey :=
  mkEntityMetadataKey obj TagObject (mkUuid 0) key.
Definition property (holder : Obj) (uuid : Uuid) (key : Symbol) : EntityMetadataKey :=
  mkEntityMetadataKey holder TagProperty uuid key.
Definition verb (location : Obj) (uuid : Uuid) (key : Symbol) : EntityMetadataKey :=
  mkEntityMetadataKey location TagVerb uuid key.

Definition uuid (k : EntityMetadataKey) : option Uuid :=
  match emk_tag k with TagProperty | TagVerb => Some (emk_uuid k) | TagObject => None end.
Definition is_object_key_for (obj : Obj) (k : EntityMetadataKey) : bool :=
  bool_decide (emk_tag k = TagObject) && bool_decide (emk_obj k = obj).
Definition is_property_key_for (holder : Obj) (uuid : Uuid) (k : EntityMetadataKey) : bool :=
  bool_decide (emk_tag k = TagProperty) && bool_decide (emk_obj k = holder)
  && bool_decide (emk_uuid k = uuid).
Definition is_verb_key_for (location : Obj) (uuid : Uuid) (k : EntityMetadataKey) : bool :=
  bool_decide (emk_tag k = TagVerb) && bool_decide (emk_obj k = location)
  && bool_decide (emk_uuid k = uuid).
Definition references_obj (obj : Obj) (k : EntityMetadataKey) : bool :=
  bool_decide (emk_obj k = obj).
Definition rehome_obj (old_obj new_obj : Obj) (k : EntityMetadataKey)
  : option EntityMetadataKey :=
  if negb (bool_decide (emk_obj k = old_obj)) then None
  else Some (mkEntityMetadataKey new_obj (emk_tag k) (emk_uuid k) (emk_key k)).
End MetadataKey.

(** *** Printed keys *)

(** [Display for Uuid]: lowercase hex in groups of 8-4-4-4-12. *)
Definition uuid_display (u : Uuid) : list ascii :=
  let h := pad_zeros 32 (fmt_unsigned 16 (uuid_bits u)) in
  take 8 h ++ ["-"%char] ++ take 4 (drop 8 h) ++ ["-"%char] ++ take 4 (drop 12 h)
  ++ ["-"%char] ++ take 4 (drop 16 h) ++ ["-"%char] ++ drop 20 h.

Definition str (s : string) : list ascii := String.list_ascii_of_string s.

Definition property_key_display (k : PropertyKey) : list ascii :=
  display (pk_obj k) ++ [":"%char] ++ uuid_display (pk_uuid k).
Definition verb_key_display (k : VerbKey) : list ascii :=
  display (vk_obj k) ++ [":"%char] ++ uuid_display (vk_uuid k).
Definition metadata_key_display (k : EntityMetadataKey) : list ascii :=
  let key := str (symbol_text (emk_key k)) in
  match emk_tag k with
  | TagObject => str "object:" ++ display (emk_obj k) ++ [":"%char] ++ key
  | TagProperty => str "property:" ++ display (emk_obj k) ++ [":"%char]
                   ++ uuid_display (emk_uuid k) ++ [":"%char] ++ key
  | TagVerb => str "verb:" ++ display (emk_obj k) ++ [":"%char]
               ++ uuid_display (emk_uuid k) ++ [":"%char] ++ key
  end.

(** ** Values that are plain data *)

Record StringHolder := mkStringHolder { holder_string : string }.
#[export] Instance StringHolder_eq_dec : EqDecision StringHolder.
Proof. solve_decision. Defined.
#[export] Instance StringHolder_countable : Countable StringHolder.
Proof. refine (inj_countable' holder_string mkStringHolder _). by intros []. Defined.

Record AnonymousObjectMetadata := mkAnonymousObjectMetadata {
  created_micros : Z;
  last_accessed_micros : Z;
}.
#[export] Instance AnonymousObjectMetadata_eq_dec : EqDecision AnonymousObjectMetadata.
Proof. solve_decision. Defined.
#[export] Instance AnonymousObjectMetadata_countable : Countable AnonymousObjectMetadata.
Proof.
  refine (inj_countable' (λ m, (created_micros m, last_accessed_micros m))
    (λ '(a, b), mkAnonymousObjectMetadata a b) _). by intros [].
Defined.
