(* ===== verification/Verbs.v ===== *)
(** Verbs: flags and argument specifiers (crates/common/src/model/verbs.rs and
    match.rs, matching/prepositions.rs), verb definitions (model/verbdef.rs) and
    the matching of verb names with wildcards (util/mod.rs, [verbcasecmp]).

    Verb names keep the letters they were written with; two names are equal, as
    symbols, when they agree up to case. Text is a list of bytes, as elsewhere. *)
From S2P Require Import Prelude Obj TxTypes Model.
From Stdlib Require Import Ascii.
From stdpp Require Import base gmap sets list strings fin_maps.

Open Scope Z_scope.

(** ** Flags and argument specifiers *)

Inductive VerbFlag := VerbRead | VerbWrite | VerbExec | VerbDebug.

#[export] Instance VerbFlag_eq_dec : EqDecision VerbFlag.
Proof. solve_decision. Defined.

#[export] Instance verb_bit : BitFlag VerbFlag := {
  bit_index f := match f with VerbRead => 0 | VerbWrite => 1 | VerbExec => 2 | VerbDebug => 3 end;
}.

Module VerbFlags.
Definition push_if (flag : VerbFlag) (c : ascii) (perms : BitEnum VerbFlag) (s : list ascii)
  : list ascii :=
  if BitEnumOps.contains flag perms then s ++ [c] else s.
Definition verb_perms_string (perms : BitEnum VerbFlag) : list ascii :=
  push_if VerbDebug "d" perms (push_if VerbExec "x" perms
    (push_if VerbWrite "w" perms (push_if VerbRead "r" perms []))).

Definition flag_of_char (c : ascii) : option VerbFlag :=
  if bool_decide (c = "r"%char) then Some VerbRead
  else if bool_decide (c = "w"%char) then Some VerbWrite
  else if bool_decide (c = "x"%char) then Some VerbExec
  else if bool_decide (c = "d"%char) then Some VerbDebug
  else None.
Fixpoint parse_loop (flags : Z) (s : list ascii) : option (BitEnum VerbFlag) :=
  match s with
  | [] => Some (BitEnumOps.from_u8 flags)
  | c :: s' =>
      match flag_of_char c with
      | Some f => parse_loop (Z.lor flags (BitEnumOps.bit f)) s'
      | None => None
      end
  end.
Definition parse_str (s : list ascii) : option (BitEnum VerbFlag) := parse_loop 0 s.
End VerbFlags.

Inductive ArgSpec := ArgNone | ArgAny | ArgThis.

Inductive Preposition :=
| WithUsing | AtTo | InFrontOf | IntoIn | OnTopOfOn | OutOf | Over | Through | Under | Behind
| Beside | ForAbout | Is | As | OffOf | NamedCalled.

Inductive PrepSpec := PrepAny | PrepNone | PrepOther (p : Preposition).

Record VerbArgsSpec := mkVerbArgsSpec { dobj : ArgSpec; prep : PrepSpec; iobj : ArgSpec }.

#[export] Instance ArgSpec_eq_dec : EqDecision ArgSpec.
Proof. solve_decision. Defined.
#[export] Instance Preposition_eq_dec : EqDecision Preposition.
Proof. solve_decision. Defined.
#[export] Instance PrepSpec_eq_dec : EqDecision PrepSpec.
Proof. solve_decision. Defined.
#[export] Instance VerbArgsSpec_eq_dec : EqDecision VerbArgsSpec.
Proof. solve_decision. Defined.

(** Discriminants, in the order of the declaration. *)
Definition all_prepositions : list Preposition :=
  [WithUsing; AtTo; InFrontOf; IntoIn; OnTopOfOn; OutOf; Over; Through; Under; Behind;
   Beside; ForAbout; Is; As; OffOf; NamedCalled].
Definition preposition_repr (p : Preposition) : Z :=
  match p with
  | WithUsing => 0 | AtTo => 1 | InFrontOf => 2 | IntoIn => 3 | OnTopOfOn => 4 | OutOf => 5
  | Over => 6 | Through => 7 | Under => 8 | Behind => 9 | Beside => 10 | ForAbout => 11
  | Is => 12 | As => 13 | OffOf => 14 | NamedCalled => 15
  end.
Definition preposition_from_repr (v : Z) : option Preposition :=
  List.find (λ p, preposition_repr p =? v) all_prepositions.

Inductive ArgsDecodingError :=
| InvalidArgSpecValue (v : Z)
| InvalidPrepValue (v : Z).

Module Args.
Definition arg_try_write (v : ArgSpec) : Z :=
  match v with ArgNone => 0 | ArgAny => 1 | ArgThis => 2 end.
Definition arg_try_read (v : Z) : result ArgSpec ArgsDecodingError :=
  if v =? 0 then Ok ArgNone else if v =? 1 then Ok ArgAny else if v =? 2 then Ok ArgThis
  else Err (InvalidArgSpecValue v).

Definition prep_try_write (v : PrepSpec) : Z :=
  match v with PrepAny => -2 | PrepNone => -1 | PrepOther p => preposition_repr p end.
(** [p as u16] of a 16-bit signed number. *)
Definition prep_try_read (v : Z) : result PrepSpec ArgsDecodingError :=
  if v =? -2 then Ok PrepAny
  else if v =? -1 then Ok PrepNone
  else match preposition_from_repr (wrap 16 v) with
  | Some p => Ok (PrepOther p)
  | None => Err (InvalidPrepValue v)
  end.

Definition try_read (v : Z) : result VerbArgsSpec ArgsDecodingError :=
  let dobj_value := Z.land v 0xff in
  let prep_value := to_signed 16 (Z.land (Z.shiftr v 8) 0xffff) in
  let iobj_value := Z.land (Z.shiftr v 24) 0xff in
  let? dobj := arg_try_read dobj_value in
  let? prep := prep_try_read prep_value in
  let? iobj := arg_try_read iobj_value in
  Ok (mkVerbArgsSpec dobj prep iobj).

(** The sign extension of the preposition is masked off. *)
Definition try_write (v : VerbArgsSpec) : Z :=
  Z.lor (Z.lor (arg_try_write (dobj v))
           (Z.shiftl (Z.land (wrap 32 (prep_try_write (prep v))) 0xffff) 8))
        (Z.shiftl (arg_try_write (iobj v)) 24).

Definition this_none_this : VerbArgsSpec := mkVerbArgsSpec ArgThis PrepNone ArgThis.
Definition none_none_none : VerbArgsSpec := mkVerbArgsSpec ArgNone PrepNone ArgNone.

Definition matches (self v : VerbArgsSpec) : bool :=
  (bool_decide (dobj self = ArgAny) || bool_decide (dobj self = dobj v)) &&
  (bool_decide (prep self = PrepAny) || bool_decide (prep self = prep v)) &&
  (bool_decide (iobj self = ArgAny) || bool_decide (iobj self = iobj v)).
End Args.

(** ** Verb names *)

Definition to_ascii_lowercase (c : ascii) : ascii :=
  let n := nat_of_ascii c in
  if (65 <=? n)%nat && (n <=? 90)%nat then ascii_of_nat (n + 32) else c.

Definition chars_match_case_insensitive (a b : ascii) : bool :=
  bool_decide (to_ascii_lowercase a = to_ascii_lowercase b).

Inductive StarType := StarNone | StarInner | StarEnd.

Definition star_char : ascii := "*".

(** The matching loop: what is left of the pattern and of the word, and the
    last kind of star passed. *)
Fixpoint verbcasecmp_loop (pattern word : list ascii) (star : StarType)
    (has_matched_non_star : bool) : list ascii * list ascii * StarType :=
  match pattern with
  | [] => ([], word, star)
  | p :: pattern' =>
      if bool_decide (p = star_char) then
        verbcasecmp_loop pattern' word
          (match pattern' with
           | [] => StarEnd
           | _ => if has_matched_non_star then StarInner else StarNone
           end) has_matched_non_star
      else match word with
      | [] => (pattern, [], star)
      | w :: word' =>
          if chars_match_case_insensitive p w then verbcasecmp_loop pattern' word' star true
          else (pattern, word, star)
      end
  end.

Definition verbcasecmp (pattern word : list ascii) : bool :=
  if bool_decide (pattern = word) then true
  else
    match verbcasecmp_loop pattern word StarNone false with
    | (rest, [], StarNone) => match rest with [] => true | _ => false end
    | (_, [], _) => true
    | (_, _ :: _, StarEnd) => true
    | _ => false
    end.

(** ** Verb definitions *)

Record VerbDef := mkVerbDef {
  verbdef_uuid : Uuid;
  verbdef_location : Obj;
  verbdef_owner : Obj;
  verbdef_flags : BitEnum VerbFlag;
  verbdef_args : VerbArgsSpec;
  verbdef_names : list (list ascii);
}.

Record ResolvedVerb := mkResolvedVerb {
  rv_uuid : Uuid;
  rv_location : Obj;
  rv_owner : Obj;
  rv_flags : BitEnum VerbFlag;
  rv_args : VerbArgsSpec;
}.

Module VerbDefOps.
Definition new (uuid : Uuid) (location owner : Obj) (names : list (list ascii))
    (flags : BitEnum VerbFlag) (args : VerbArgsSpec) : VerbDef :=
  mkVerbDef uuid location owner flags args names.

Definition matches_spec (flags : BitEnum VerbFlag) (args : VerbArgsSpec)
    (argspec : option VerbArgsSpec) (flagspec : option (BitEnum VerbFlag)) : bool :=
  match argspec with
  | Some argspec => if negb (Args.matches args argspec) then false
                    else match flagspec with
                         | Some flagspec => BitEnumOps.contains_all flagspec flags
                         | None => true
                         end
  | None => match flagspec with
            | Some flagspec => BitEnumOps.contains_all flagspec flags
            | None => true
            end
  end.

Definition verbdef_matches_spec (v : VerbDef) := matches_spec (verbdef_flags v) (verbdef_args v).
Definition resolved_matches_spec (v : ResolvedVerb) := matches_spec (rv_flags v) (rv_args v).

Definition as_resolved (v : VerbDef) : ResolvedVerb :=
  mkResolvedVerb (verbdef_uuid v) (verbdef_location v) (verbdef_owner v) (verbdef_flags v)
    (verbdef_args v).

Definition with_name (v : ResolvedVerb) (name : list ascii) : VerbDef :=
  new (rv_uuid v) (rv_location v) (rv_owner v) [name] (rv_flags v) (rv_args v).

Definition matches_name (v : VerbDef) (name : list ascii) : bool :=
  existsb (λ verb, verbcasecmp verb name) (verbdef_names v).
End VerbDefOps.

#[export] Instance ArgSpec_countable : Countable ArgSpec.
Proof.
  refine (inj_countable Args.arg_try_write
    (λ z, match Args.arg_try_read z with Ok a => Some a | Err _ => None end) _). by intros [].
Defined.
#[export] Instance Preposition_countable : Countable Preposition.
Proof. refine (inj_countable preposition_repr preposition_from_repr _). by intros []. Defined.
#[export] Instance PrepSpec_countable : Countable PrepSpec.
Proof.
  refine (inj_countable' (λ p, match p with
    | PrepAny => inl true | PrepNone => inl false | PrepOther p => inr p end)
    (λ s, match s with inl true => PrepAny | inl false => PrepNone | inr p => PrepOther p end) _).
  by intros [].
Defined.
#[export] Instance VerbArgsSpec_countable : Countable VerbArgsSpec.
Proof.
  refine (inj_countable' (λ a, (dobj a, prep a, iobj a)) (λ '(d, p, i), mkVerbArgsSpec d p i) _).
  by intros [].
Defined.
#[export] Instance VerbDef_eq_dec : EqDecision VerbDef.
Proof. solve_decision. Defined.
#[export] Instance VerbDef_countable : Countable VerbDef.
Proof.
  refine (inj_countable' (λ v, (verbdef_uuid v, verbdef_location v, verbdef_owner v,
    verbdef_flags v, verbdef_args v, verbdef_names v))
    (λ '(u, l, o, f, a, n), mkVerbDef u l o f a n) _). by intros [].
Defined.
#[export] Instance ResolvedVerb_eq_dec : EqDecision ResolvedVerb.
Proof. solve_decision. Defined.

#[export] Instance verbdef_has_uuid : HasUuid VerbDef := { def_uuid := verbdef_uuid }.

Definition VerbDefs : Type := Defs VerbDef.

(** Names compare as symbols: up to case. *)
Definition fold_names (v : VerbDef) : VerbDef :=
  mkVerbDef (verbdef_uuid v) (verbdef_location v) (verbdef_owner v) (verbdef_flags v)
    (verbdef_args v) (map (map to_ascii_lowercase) (verbdef_names v)).

#[export] Instance verbdefs_codomain : RelationCodomain VerbDefs := {
  cod_rep := Defs VerbDef; cod_key d := mkDefs (map fold_names (contents d));
  clone_for_commit d := d; clone_for_commit_key _ := eq_refl;
}.

(** ** Verbs: the encoding of argument specifiers loses nothing, and the matching
    loop of verb names computes the documented wildcard rule. *)

(** ** Encoding of argument specifiers *)

Lemma pack_fields a p i :
  0 ≤ a < 2 ^ 8 → 0 ≤ p < 2 ^ 16 → 0 ≤ i →
  Z.lor (Z.lor a (Z.shiftl p 8)) (Z.shiftl i 24) = a + p * 2 ^ 8 + i * 2 ^ 24.
Proof.
  intros Ha Hp Hi. rewrite (Z.lor_comm a), lor_shiftl_low by lia.
  rewrite Z.lor_comm, lor_shiftl_low by lia. lia.
Qed.

Lemma unpack_fields v :
  0 ≤ v < 2 ^ 32 →
  v = Z.land v 0xff + Z.land (Z.shiftr v 8) 0xffff * 2 ^ 8 + Z.land (Z.shiftr v 24) 0xff * 2 ^ 24.
Proof.
  intros Hv. change 0xff with (Z.ones 8). change 0xffff with (Z.ones 16).
  rewrite !Z.land_ones, !Z.shiftr_div_pow2 by lia.
  rewrite (Z.mod_small (v `div` 2 ^ 24)) by (split; [apply Z.div_pos|apply Z.div_lt_upper_bound]; lia).
  change (2 ^ 24) with (2 ^ 8 * 2 ^ 16). rewrite <-Z.div_div by lia.
  pose proof (Z.div_mod v (2 ^ 8)). pose proof (Z.div_mod (v `div` 2 ^ 8) (2 ^ 16)). lia.
Qed.

Lemma arg_read_write v a : Args.arg_try_read v = Ok a → Args.arg_try_write a = v.
Proof.
  unfold Args.arg_try_read. intros Hr.
  destruct (Z.eqb_spec v 0); [by simplify_eq|]. destruct (Z.eqb_spec v 1); [by simplify_eq|].
  destruct (Z.eqb_spec v 2); by simplify_eq.
Qed.

Lemma preposition_from_repr_Some v p : preposition_from_repr v = Some p → preposition_repr p = v.
Proof. intros Hf%List.find_some. destruct Hf as [_ Hf]. lia. Qed.

Lemma prep_read_write w p :
  0 ≤ w < 2 ^ 16 → Args.prep_try_read (to_signed 16 w) = Ok p →
  Z.land (wrap 32 (Args.prep_try_write p)) 0xffff = w.
Proof.
  intros Hw Hr. change 0xffff with (Z.ones 16). rewrite Z.land_ones by lia. unfold wrap.
  assert (Args.prep_try_write p `mod` 2 ^ 16 = w) as <-.
  { assert (to_signed 16 w `mod` 2 ^ 16 = w) as Hs.
    { unfold to_signed. case_decide; [by apply Z.mod_small|].
      replace (w - 2 ^ 16) with (w + -1 * 2 ^ 16) by lia. rewrite Z.mod_add by lia.
      by apply Z.mod_small. }
    unfold Args.prep_try_read in Hr.
    destruct (Z.eqb_spec (to_signed 16 w) (-2)) as [He|_]; [simplify_eq; by rewrite <-Hs, He|].
    destruct (Z.eqb_spec (to_signed 16 w) (-1)) as [He|_]; [simplify_eq; by rewrite <-Hs, He|].
    destruct (preposition_from_repr _) as [q|] eqn:Hq; simplify_eq. simpl.
    apply preposition_from_repr_Some in Hq. unfold wrap in Hq.
    rewrite Hs in Hq. rewrite Hq. by apply Z.mod_small. }
  by rewrite <-Znumtheory.Zmod_div_mod by (try lia; by exists (2 ^ 16)).
Qed.

Lemma args_read_written a : Args.try_read (Args.try_write a) = Ok a.
Proof. destruct a as [d p i]. destruct d, i; destruct p as [| |[]]; vm_compute; reflexivity. Qed.

(** the 32-bit encoding of verb arguments is a bijection onto the words it
    accepts: reading what was written gives the arguments back, and a word that
    can be read is what writing its arguments gives, so no two words mean the
    same arguments. *)
Theorem args_spec_roundtrip (a : VerbArgsSpec) (v : Z) :
  Args.try_read (Args.try_write a) = Ok a ∧
  (0 ≤ v < 2 ^ 32 → Args.try_read v = Ok a → Args.try_write a = v).
Proof.
  split; [apply args_read_written|].
  - intros Hv Hr. unfold Args.try_read in Hr.
    destruct (Args.arg_try_read (Z.land v 255)) as [d|] eqn:Hd; [|done].
    destruct (Args.prep_try_read _) as [p|] eqn:Hp; [|done].
    destruct (Args.arg_try_read (Z.land (Z.shiftr v 24) 255)) as [i|] eqn:Hi; simplify_eq.
    apply arg_read_write in Hd, Hi. apply prep_read_write in Hp;
      [|apply (land_ones_bound (Z.shiftr v 8) 16); lia].
    unfold Args.try_write. cbn [dobj prep iobj]. rewrite Hd, Hi, Hp.
    rewrite pack_fields; [by rewrite <-unpack_fields|apply (land_ones_bound v 8); lia
      |apply (land_ones_bound (Z.shiftr v 8) 16); lia|].
    apply (land_ones_bound (Z.shiftr v 24) 8). lia.
Qed.

(** ** Verb names *)

(** Equality and prefixes up to case. *)
Definition same_char (a b : ascii) : Prop := chars_match_case_insensitive a b = true.
Definition same_text : list ascii → list ascii → Prop := Forall2 same_char.
Definition begins_with (prefix text : list ascii) : Prop :=
  ∃ rest, same_text prefix (take (length prefix) text) ∧ text = take (length prefix) text ++ rest.

Lemma begins_nil text : begins_with [] text.
Proof. exists text. by split; [constructor|]. Qed.
Lemma begins_cons a prefix b text :
  begins_with (a :: prefix) (b :: text) ↔ same_char a b ∧ begins_with prefix text.
Proof.
  split.
  - intros (rest & Hs & Ht). cbn in Hs, Ht. inversion Hs; subst. split; [done|].
    injection Ht as Ht. by exists rest.
  - intros [Hab (rest & Hs & Ht)]. exists rest. cbn. split; [by constructor|]. by f_equal.
Qed.
Lemma begins_cons_nil a prefix : ~ begins_with (a :: prefix) [].
Proof. intros (rest & Hs & _). cbn in Hs. inversion Hs. Qed.

(** The pattern without its stars, and whether a star that follows a letter is
    at most [n] letters into it. *)
Definition letters (pattern : list ascii) : list ascii := filter (λ c, c ≠ star_char) pattern.
Definition star_within (pattern : list ascii) (matched : bool) (n : nat) : Prop :=
  ∃ pre post, pattern = pre ++ star_char :: post ∧
    (matched = true ∨ letters pre ≠ []) ∧ (length (letters pre) ≤ n)%nat.

Lemma letters_star pattern : letters (star_char :: pattern) = letters pattern.
Proof. unfold letters. by rewrite filter_cons_False by (intros H; by apply H). Qed.
Lemma letters_cons c pattern : c ≠ star_char → letters (c :: pattern) = c :: letters pattern.
Proof. intros Hc. unfold letters. by rewrite filter_cons_True. Qed.

Lemma star_within_nil matched n : ~ star_within [] matched n.
Proof. intros (pre & post & He & _). by destruct pre. Qed.
Lemma star_within_star pattern matched n :
  star_within (star_char :: pattern) matched n ↔ matched = true ∨ star_within pattern matched n.
Proof.
  split.
  - intros (pre & post & He & Hm & Hn). destruct pre as [|c pre]; simplify_eq/=.
    + by destruct Hm as [?|[]]; [left|].
    + rewrite letters_star in Hm, Hn. right. by exists pre, post.
  - intros [->|(pre & post & -> & Hm & Hn)].
    + exists [], pattern. split_and!; [done|by left|simpl; lia].
    + exists (star_char :: pre), post. by rewrite letters_star.
Qed.
Lemma star_within_cons c pattern matched n :
  c ≠ star_char →
  star_within (c :: pattern) matched (S n) ↔ star_within pattern true n.
Proof.
  intros Hc. split.
  - intros (pre & post & He & Hm & Hn). destruct pre as [|c' pre]; simplify_eq/=.
    rewrite letters_cons in Hm, Hn by done. exists pre, post.
    split_and!; [done|by left|simpl in Hn; lia].
  - intros (pre & post & -> & Hm & Hn). exists (c :: pre), post. rewrite letters_cons by done.
    split_and!; [done|by right|simpl; lia].
Qed.
Lemma star_within_zero c pattern matched : c ≠ star_char → ~ star_within (c :: pattern) matched 0.
Proof.
  intros Hc (pre & post & He & Hm & Hn). destruct pre as [|c' pre]; simplify_eq/=.
  rewrite letters_cons in Hn by done. simpl in Hn. lia.
Qed.

Definition ends_with_star (pattern : list ascii) : Prop := last pattern = Some star_char.

Definition accepts (res : list ascii * list ascii * StarType) : bool :=
  match res with
  | (rest, [], StarNone) => match rest with [] => true | _ => false end
  | (_, [], _) => true
  | (_, _ :: _, StarEnd) => true
  | _ => false
  end.

(** The loop, from any state it can be in. *)
Lemma verbcasecmp_loop_spec pattern word star matched :
  (star = StarEnd → pattern = []) → (star = StarInner → matched = true) →
  accepts (verbcasecmp_loop pattern word star matched) = true ↔
  same_text (letters pattern) word ∨
  (begins_with word (letters pattern) ∧
     (star ≠ StarNone ∨ star_within pattern matched (length word))) ∨
  (begins_with (letters pattern) word ∧
     (ends_with_star pattern ∨ (pattern = [] ∧ star = StarEnd))).
Proof.
  revert word star matched. induction pattern as [|c pattern IH]; intros word star matched He Hi.
  - simpl. destruct word as [|w word].
    + split; [intros _; left; constructor|by destruct star].
    + split.
      * destruct star; try done. intros _. right; right. split; [apply begins_nil|by right].
      * intros [Hs|[[Hb _]|[_ [Hl|[_ ->]]]]]; [inversion Hs|by apply begins_cons_nil in Hb|done|done].
  - cbn [verbcasecmp_loop]. case_bool_decide as Hc.
    + subst c. rewrite letters_star. rewrite IH by (by destruct pattern, matched).
      rewrite star_within_star. destruct pattern as [|c' pattern].
      * split; intros _; right; right; (split; [apply begins_nil|]); [by left|by right].
      * assert ((if matched then StarInner else StarNone) ≠ StarNone ↔ matched = true) as ->
          by (by destruct matched).
        assert (star ≠ StarNone ∨ matched = true ∨ star_within (c' :: pattern) matched (length word)
          ↔ matched = true ∨ star_within (c' :: pattern) matched (length word)) as ->.
        { split; [|tauto]. intros [Hs|?]; [|done]. left. destruct star; [done|by apply Hi|].
          by specialize (He eq_refl). }
        assert (ends_with_star (star_char :: c' :: pattern) ↔ ends_with_star (c' :: pattern)) as ->
          by done.
        assert (∀ x y, (c' :: pattern = [] ∧ x = y :> StarType) ↔ False) as Hf by (by split; [intros []|]).
        assert (∀ x y, (star_char :: c' :: pattern = [] ∧ x = y :> StarType) ↔ False) as Hf'
          by (by split; [intros []|]).
        by rewrite Hf, Hf'.
    + destruct word as [|w word].
      * rewrite letters_cons by done. split.
        -- intros Ha. right; left. split; [apply begins_nil|]. left. by destruct star.
        -- intros [Hs|[[_ [Hs|Hs]]|[Hb _]]]; [inversion Hs|by destruct star| |].
           ++ by apply star_within_zero in Hs.
           ++ by apply begins_cons_nil in Hb.
      * rewrite letters_cons by done. destruct (chars_match_case_insensitive c w) eqn:Hcw.
        -- rewrite IH by (try done; intros ->; by specialize (He eq_refl)).
           rewrite begins_cons, begins_cons.
           assert (same_char w c) as Hwc.
           { unfold same_char, chars_match_case_insensitive in *. apply bool_decide_eq_true in Hcw.
             by apply bool_decide_eq_true. }
           assert (same_text (c :: letters pattern) (w :: word) ↔ same_text (letters pattern) word)
             as -> by (split; [by inversion 1|by constructor]).
           cbn [length]. rewrite star_within_cons by done.
           assert (ends_with_star (c :: pattern) ∨ c :: pattern = [] ∧ star = StarEnd ↔
             ends_with_star pattern ∨ pattern = [] ∧ star = StarEnd) as ->.
           { split.
             - intros [Hl|[? _]]; [|done]. destruct pattern; [|by left].
               unfold ends_with_star in Hl. simpl in Hl. congruence.
             - intros [Hl|[-> ->]]; [|by specialize (He eq_refl)]. left. unfold ends_with_star in *.
               by destruct pattern. }
           unfold same_char in *. tauto.
        -- split; [by destruct star; [..|specialize (He eq_refl)]|].
           assert (~ same_char c w) as Hn by (unfold same_char; by rewrite Hcw).
           intros [Hs|[[Hb _]|[Hb _]]]; exfalso.
           ++ by inversion Hs.
           ++ apply begins_cons in Hb as [Hb _]. apply Hn. unfold same_char in *.
              unfold chars_match_case_insensitive in *. apply bool_decide_eq_true in Hb.
              by apply bool_decide_eq_true.
           ++ by apply begins_cons in Hb as [Hb _].
Qed.

(** C40: matching a verb name against a pattern follows the documented wildcard
    rule and nothing else. A word matches when it is the pattern itself; when
    it is the pattern's letters, up to case; when the pattern ends with a star
    and the word begins with its letters; or when a star follows at least one
    letter, the word covers the letters before it, and the word begins the
    pattern's letters. Leading stars are no wildcards. *)
Theorem verbcasecmp_wildcards (pattern word : list ascii) :
  verbcasecmp pattern word = true ↔
  word = pattern ∨ same_text (letters pattern) word ∨
  (ends_with_star pattern ∧ begins_with (letters pattern) word) ∨
  (∃ pre post, pattern = pre ++ star_char :: post ∧ letters pre ≠ [] ∧
     (length (letters pre) ≤ length word)%nat ∧ begins_with word (letters pattern)).
Proof.
  unfold verbcasecmp. case_bool_decide as He; [split; [by left|done]|].
  change (accepts (verbcasecmp_loop pattern word StarNone false) = true ↔
    word = pattern ∨ same_text (letters pattern) word ∨
    (ends_with_star pattern ∧ begins_with (letters pattern) word) ∨
    (∃ pre post, pattern = pre ++ star_char :: post ∧ letters pre ≠ [] ∧
       (length (letters pre) ≤ length word)%nat ∧ begins_with word (letters pattern))).
  rewrite verbcasecmp_loop_spec by done. unfold star_within. split.
  - intros [?|[[Hb [?|(pre & post & ? & [?|?] & ?)]]|[? [?|[_ ?]]]]]; try done; [by right; left| |].
    + right; right; right. by exists pre, post.
    + by right; right; left.
  - intros [->|[?|[[? ?]|(pre & post & ? & ? & ? & ?)]]]; [done|by left| |].
    + right; right. split; [done|by left].
    + right; left. split; [done|right]. exists pre, post. by split_and!; [|right|].
Qed.

Example wildcard_examples :
  verbcasecmp (str "foo*bar") (str "FOOb") = true ∧ verbcasecmp (str "foo*bar") (str "fo") = false ∧
  verbcasecmp (str "foo*bar") (str "foobaz") = false ∧
  verbcasecmp (str "get*") (str "getall") = true ∧ verbcasecmp (str "*foo") (str "f") = false ∧
  verbcasecmp (str "*") (str "anything") = true.
Proof. vm_compute. repeat split. Qed.
