(* ===== verification/Caches.v ===== *)
(** The resolution caches of a transaction (crates/db/src/cache/verb_cache.rs,
    prop_cache.rs and ancestry_cache.rs) and their bundle (engine/moor_db.rs,
    [Caches]).

    A cache is a value here: the copy-on-write maps of the code behave as
    values, a fork is a copy. Hit counters are left out; version counters are
    unbounded. A symbol's 32-bit [compare_id] is given by the interner of
    crates/var/src/symbol.rs, global state outside this component; that interned
    symbols with one id are equal is a hypothesis of the lemmas that need it. *)
From S2P Require Import Prelude Obj TxTypes Model Verbs.
From Stdlib Require Import Ascii.
From stdpp Require Import base gmap sets list strings fin_maps.

Open Scope Z_scope.

(** ** Ancestors *)

Module AncestryCache.
Record t := mk {
  orig_version : Z;
  version : Z;
  flushed : bool;
  entries : gmap Obj (list Obj);
}.

Definition default : t := mk 0 0 false ∅.
Definition fork (c : t) : t := mk (version c) (version c) false (entries c).
Definition lookup (obj : Obj) (c : t) : option (list Obj) := entries c !! obj.
Definition contains (obj possible_ancestor : Obj) (c : t) : option bool :=
  (λ ancestors : list Obj, bool_decide (possible_ancestor ∈ ancestors)) <$> entries c !! obj.
Definition flush (c : t) : t := mk (orig_version c) (version c + 1) true ∅.
Definition fill (obj : Obj) (ancestors : list Obj) (c : t) : t :=
  mk (orig_version c) (version c + 1) (flushed c) (<[obj := ancestors]> (entries c)).
Definition has_changed (c : t) : bool := orig_version c <? version c.
Definition invalidate_objects (objects : list Obj) (c : t) : t :=
  match objects with
  | [] => c
  | _ =>
      let kept := filter (λ x, x.1 ∉ objects) (entries c) in
      mk (orig_version c)
        (if (size (entries c) - size kept =? 0)%nat then version c else version c + 1)
        (flushed c) kept
  end.
End AncestryCache.

(** ** Properties *)

Module PropResolutionCache.
Section defs.
Context `{Interner}.

Record t := mk {
  orig_version : Z;
  version : Z;
  guard_version : Z;
  flushed : bool;
  entries : gmap Z (option PropDef);
  first_parent_with_props_cache : gmap Obj (option Obj);
}.

(** The object in the upper 64 bits, the symbol in the lower. *)
Definition make_cache_key (obj : Obj) (symbol : Symbol) : Z :=
  Z.lor (Z.shiftl (as_u64 obj) 64) (compare_id symbol).

Definition new : t := mk 0 0 0 false ∅ ∅.
Definition fork (c : t) : t :=
  mk (version c) (version c) (guard_version c) false (entries c) (first_parent_with_props_cache c).
Definition has_changed (c : t) : bool := orig_version c <? version c.
Definition lookup (obj : Obj) (prop : Symbol) (c : t) : option (option PropDef) :=
  entries c !! make_cache_key obj prop.
Definition flush (c : t) : t := mk (orig_version c) (version c + 1) (guard_version c + 1) true ∅ ∅.
Definition fill_entry (obj : Obj) (prop : Symbol) (e : option PropDef) (c : t) : t :=
  mk (orig_version c) (version c + 1) (guard_version c) (flushed c)
    (<[make_cache_key obj prop := e]> (entries c)) (first_parent_with_props_cache c).
Definition fill_hit (obj : Obj) (prop : Symbol) (propd : PropDef) (c : t) : t :=
  fill_entry obj prop (Some propd) c.
Definition fill_miss (obj : Obj) (prop : Symbol) (c : t) : t := fill_entry obj prop None c.
Definition lookup_first_parent_with_props (obj : Obj) (c : t) : option (option Obj) :=
  first_parent_with_props_cache c !! obj.
Definition fill_first_parent_with_props (obj : Obj) (parent : option Obj) (c : t) : t :=
  mk (orig_version c) (version c + 1) (guard_version c) (flushed c) (entries c)
    (<[obj := parent]> (first_parent_with_props_cache c)).

(** [(key >> 64) as u64] is the object of a key. *)
Definition remove_entries_for_objects (obj_ids : list Z) (entries : gmap Z (option PropDef))
  : gmap Z (option PropDef) :=
  filter (λ x, wrap 64 (Z.shiftr x.1 64) ∉ obj_ids) entries.

Definition invalidate_objects (objects : list Obj) (c : t) : t :=
  match objects with
  | [] => c
  | _ =>
      let obj_ids := map as_u64 objects in
      let entries' := remove_entries_for_objects obj_ids (entries c) in
      let first_parent' := filter (λ x, as_u64 x.1 ∉ obj_ids) (first_parent_with_props_cache c) in
      let changed := (0 <? size (entries c) - size entries')%nat
                     || negb (size (first_parent_with_props_cache c) =? size first_parent')%nat in
      mk (orig_version c) (if changed then version c + 1 else version c)
        (if changed then guard_version c + 1 else guard_version c) (flushed c)
        entries' first_parent'
  end.
End defs.
End PropResolutionCache.

(** ** Verbs *)

Record VerbCacheKey := mkVerbCacheKey { vck_object : Z; vck_name : Z; vck_constraints : Z }.

#[export] Instance VerbCacheKey_eq_dec : EqDecision VerbCacheKey.
Proof. solve_decision. Defined.
#[export] Instance VerbCacheKey_countable : Countable VerbCacheKey.
Proof.
  refine (inj_countable' (λ k, (vck_object k, vck_name k, vck_constraints k))
    (λ '(o, n, c), mkVerbCacheKey o n c) _). by intros [].
Defined.

(** Enough words for the 4096 identifiers of built-in functions. *)
Definition BITS_PER_WORD : nat := 64.

Module VerbResolutionCache.
Section defs.
Context `{Interner}.

Record t := mk {
  orig_version : Z;
  version : Z;
  guard_version : Z;
  flushed : bool;
  entries : gmap VerbCacheKey (option ResolvedVerb);
  first_parent_with_verbs_cache : gmap Obj (option Obj);
  builtin_proxy_absent : list Z;
}.

(** The constraints of a query in one word, with presence bits. *)
Definition make_cache_key (obj : Obj) (symbol : Symbol) (args : option VerbArgsSpec)
    (flags : option (BitEnum VerbFlag)) : VerbCacheKey :=
  let args_bits := match args with
                   | Some args => Z.lor (Z.shiftl 1 48) (Args.try_write args)
                   | None => 0
                   end in
  let flag_bits := match flags with
                   | Some flags => Z.lor (Z.shiftl 1 49) (Z.shiftl (BitEnumOps.to_u16 flags) 32)
                   | None => 0
                   end in
  mkVerbCacheKey (as_u64 obj) (compare_id symbol) (Z.lor args_bits flag_bits).

Definition new (words : nat) : t := mk 0 0 0 false ∅ ∅ (replicate words 0).
Definition fork (c : t) : t :=
  mk (version c) (version c) (guard_version c) false (entries c)
    (first_parent_with_verbs_cache c) (builtin_proxy_absent c).
Definition has_changed (c : t) : bool := orig_version c <? version c.
Definition lookup_first_parent_with_verbs (obj : Obj) (c : t) : option (option Obj) :=
  first_parent_with_verbs_cache c !! obj.
Definition fill_first_parent_with_verbs (obj : Obj) (parent : option Obj) (c : t) : t :=
  mk (orig_version c) (version c + 1) (guard_version c) (flushed c) (entries c)
    (<[obj := parent]> (first_parent_with_verbs_cache c)) (builtin_proxy_absent c).
Definition lookup_spec (obj : Obj) (verb : Symbol) (args : option VerbArgsSpec)
    (flags : option (BitEnum VerbFlag)) (c : t) : option (option ResolvedVerb) :=
  entries c !! make_cache_key obj verb args flags.
Definition lookup (obj : Obj) (verb : Symbol) (c : t) : option (option ResolvedVerb) :=
  lookup_spec obj verb None None c.

Definition mark_builtin_proxy_absent (builtin : nat) (c : t) : t :=
  let word := (builtin / BITS_PER_WORD)%nat in
  match builtin_proxy_absent c !! word with
  | None => c
  | Some bits =>
      let mask := Z.shiftl 1 (Z.of_nat (builtin mod BITS_PER_WORD)) in
      if negb (Z.land bits mask =? 0) then c
      else mk (orig_version c) (version c + 1) (guard_version c) (flushed c) (entries c)
             (first_parent_with_verbs_cache c)
             (<[word := Z.lor bits mask]> (builtin_proxy_absent c))
  end.

(** The cleared words, and whether any was set. *)
Definition clear_builtin_proxy_absences (c : t) : list Z * bool :=
  if forallb (λ word, word =? 0) (builtin_proxy_absent c) then (builtin_proxy_absent c, false)
  else (map (λ _, 0) (builtin_proxy_absent c), true).

Definition flush (c : t) : t :=
  mk (orig_version c) (version c + 1) (guard_version c + 1) true ∅ ∅
    (clear_builtin_proxy_absences c).1.
Definition fill_entry (obj : Obj) (verb : Symbol) (args : option VerbArgsSpec)
    (flags : option (BitEnum VerbFlag)) (e : option ResolvedVerb) (c : t) : t :=
  mk (orig_version c) (version c + 1) (guard_version c) (flushed c)
    (<[make_cache_key obj verb args flags := e]> (entries c))
    (first_parent_with_verbs_cache c) (builtin_proxy_absent c).
Definition fill_hit_spec obj verb args flags (verbdef : ResolvedVerb) (c : t) : t :=
  fill_entry obj verb args flags (Some verbdef) c.
Definition fill_hit obj verb (verbdef : ResolvedVerb) (c : t) : t :=
  fill_hit_spec obj verb None None verbdef c.
Definition fill_miss_spec obj verb args flags (c : t) : t := fill_entry obj verb args flags None c.
Definition fill_miss obj verb (c : t) : t := fill_miss_spec obj verb None None c.

Definition remove_entries_for_objects (obj_ids : list Z)
    (entries : gmap VerbCacheKey (option ResolvedVerb)) : gmap VerbCacheKey (option ResolvedVerb) :=
  filter (λ x, vck_object x.1 ∉ obj_ids) entries.

Definition invalidate_objects (objects : list Obj) (c : t) : t :=
  match objects with
  | [] => c
  | _ =>
      let obj_ids := map as_u64 objects in
      let entries' := remove_entries_for_objects obj_ids (entries c) in
      let first_parent' := filter (λ x, as_u64 x.1 ∉ obj_ids) (first_parent_with_verbs_cache c) in
      let '(absent', cleared) :=
        if bool_decide (SYSTEM_OBJECT ∈ objects) then clear_builtin_proxy_absences c
        else (builtin_proxy_absent c, false) in
      let changed := (0 <? size (entries c) - size entries')%nat
                     || negb (size (first_parent_with_verbs_cache c) =? size first_parent')%nat
                     || cleared in
      mk (orig_version c) (if changed then version c + 1 else version c)
        (if changed then guard_version c + 1 else guard_version c) (flushed c)
        entries' first_parent' absent'
  end.
End defs.
End VerbResolutionCache.

(** ** The bundle *)

Record Caches := mkCaches {
  verb_resolution_cache : VerbResolutionCache.t;
  prop_resolution_cache : PropResolutionCache.t;
  ancestry_cache : AncestryCache.t;
}.

Definition BUILTIN_PROXY_CACHE_WORDS : nat := 64.

Definition caches_new : Caches :=
  mkCaches (VerbResolutionCache.new BUILTIN_PROXY_CACHE_WORDS) PropResolutionCache.new
    AncestryCache.default.
Definition caches_fork (c : Caches) : Caches :=
  mkCaches (VerbResolutionCache.fork (verb_resolution_cache c))
    (PropResolutionCache.fork (prop_resolution_cache c)) (AncestryCache.fork (ancestry_cache c)).
Definition has_changed (c : Caches) : bool :=
  VerbResolutionCache.has_changed (verb_resolution_cache c)
  || PropResolutionCache.has_changed (prop_resolution_cache c)
  || AncestryCache.has_changed (ancestry_cache c).

(** ** The caches as maps: packed keys do not collide, filling an entry changes
    that entry only, invalidating objects removes theirs and keeps the others;
    and when a cache says that it has changed. *)

Definition u64_obj (o : Obj) : Prop := 0 ≤ obj_bits o < 2 ^ 64.

Lemma as_u64_inj o o' : as_u64 o = as_u64 o' → o = o'.
Proof. destruct o, o'. by intros [= ->]. Qed.

Lemma elem_of_ids o (objects : list Obj) : as_u64 o ∈ map as_u64 objects ↔ o ∈ objects.
Proof.
  rewrite list_elem_of_fmap. split.
  - intros (o' & He & Hin). by apply as_u64_inj in He as ->.
  - intros Hin. by exists o.
Qed.

(** Two symbols the interner has told apart. *)
Definition interned `{Interner} (s s' : Symbol) : Prop :=
  0 ≤ compare_id s < 2 ^ 32 ∧ 0 ≤ compare_id s' < 2 ^ 32 ∧ (compare_id s = compare_id s' → s = s').

Lemma filter_lookup {K A} `{Countable K} (P : K * A → Prop) `{∀ x, Decision (P x)}
    (m : gmap K A) k :
  (∀ a, m !! k = Some a → P (k, a)) → filter P m !! k = m !! k.
Proof.
  intros HP. destruct (m !! k) as [a|] eqn:Hk.
  - apply map_lookup_filter_Some. split; [done|by apply HP].
  - apply map_lookup_filter_None. by left.
Qed.

Lemma filter_lookup_None {K A} `{Countable K} (P : K * A → Prop) `{∀ x, Decision (P x)}
    (m : gmap K A) k :
  (∀ a, ~ P (k, a)) → filter P m !! k = None.
Proof. intros HP. apply map_lookup_filter_None. right. intros a _. apply HP. Qed.

(** ** Forks and changes *)

(** A fork has not changed: only what is done to it afterwards counts. *)
Lemma fork_unchanged c : has_changed (caches_fork c) = false.
Proof.
  unfold has_changed, VerbResolutionCache.has_changed, PropResolutionCache.has_changed,
    AncestryCache.has_changed. simpl. by rewrite !Z.ltb_irrefl.
Qed.

(** ** Ancestors *)

Lemma ancestry_invalidate objects c o :
  AncestryCache.entries (AncestryCache.invalidate_objects objects c) !! o =
  if decide (o ∈ objects) then None else AncestryCache.entries c !! o.
Proof.
  unfold AncestryCache.invalidate_objects. destruct objects as [|x objects].
  { by rewrite decide_False by (apply not_elem_of_nil). }
  cbn [AncestryCache.entries]. case_decide as Hin.
  - apply filter_lookup_None. intros a Ha. by apply Ha.
  - apply filter_lookup. by intros a _.
Qed.

(** ** Properties *)

Section prop_cache.
Context `{Interner}.
Import PropResolutionCache.

Lemma prop_key_value o s :
  u64_obj o → 0 ≤ compare_id s < 2 ^ 32 → make_cache_key o s = as_u64 o * 2 ^ 64 + compare_id s.
Proof. intros Ho Hs. unfold make_cache_key. apply lor_shiftl_low; lia. Qed.

Lemma prop_key_inj o s o' s' :
  u64_obj o → u64_obj o' → interned s s' →
  make_cache_key o s = make_cache_key o' s' → o = o' ∧ s = s'.
Proof.
  intros Ho Ho' (Hs & Hs' & Hinj) Hk. rewrite !prop_key_value in Hk by done.
  assert (as_u64 o = as_u64 o') by nia. split; [by apply as_u64_inj|]. apply Hinj. lia.
Qed.

Lemma prop_key_object o s :
  u64_obj o → 0 ≤ compare_id s < 2 ^ 32 → wrap 64 (Z.shiftr (make_cache_key o s) 64) = as_u64 o.
Proof.
  intros Ho Hs. rewrite prop_key_value by done. rewrite shiftr_high by lia. unfold wrap.
  by apply Z.mod_small.
Qed.

Lemma prop_fill o s o' s' e c :
  u64_obj o → u64_obj o' → interned s s' →
  lookup o s (fill_entry o' s' e c) =
  if decide ((o, s) = (o', s')) then Some e else lookup o s c.
Proof.
  intros Ho Ho' Hs. unfold lookup, fill_entry. cbn [entries]. case_decide as He.
  - simplify_eq. by rewrite lookup_insert_eq.
  - rewrite lookup_insert_ne; [done|]. intros Hk. symmetry in Hk.
    by apply prop_key_inj in Hk as [-> ->].
Qed.

Lemma prop_invalidate o s objects c :
  u64_obj o → 0 ≤ compare_id s < 2 ^ 32 →
  lookup o s (invalidate_objects objects c) =
    (if decide (o ∈ objects) then None else lookup o s c) ∧
  lookup_first_parent_with_props o (invalidate_objects objects c) =
    (if decide (o ∈ objects) then None else lookup_first_parent_with_props o c).
Proof.
  intros Ho Hs. unfold lookup, lookup_first_parent_with_props, invalidate_objects.
  destruct objects as [|x objects]; [by rewrite !decide_False by (apply not_elem_of_nil)|].
  cbn [entries first_parent_with_props_cache]. unfold remove_entries_for_objects.
  assert (as_u64 o ∈ map as_u64 (x :: objects) ↔ o ∈ x :: objects) as Hids by apply elem_of_ids.
  case_decide as Hin; split.
  - apply filter_lookup_None. intros a Ha. apply Ha. cbn [fst].
    rewrite prop_key_object by done. by apply Hids.
  - apply filter_lookup_None. intros a Ha. by apply Ha, Hids.
  - apply filter_lookup. intros a _. cbn [fst]. rewrite prop_key_object by done. by rewrite Hids.
  - apply filter_lookup. intros a _. cbn [fst]. by rewrite Hids.
Qed.
End prop_cache.

(** ** Verbs *)

Section verb_cache.
Context `{Interner}.
Import VerbResolutionCache.

Definition u16_flags (flags : option (BitEnum VerbFlag)) : Prop :=
  match flags with Some f => 0 ≤ be_value f < 2 ^ 16 | None => True end.

Lemma args_bits_range a : 0 ≤ Args.try_write a < 2 ^ 32.
Proof. destruct a as [[] p []]; destruct p as [| |[]]; vm_compute; by split. Qed.

(** The constraint word, as a sum of its fields. *)
Lemma constraints_value o s args flags :
  u16_flags flags →
  vck_constraints (make_cache_key o s args flags) =
    match args with Some a => 2 ^ 48 + Args.try_write a | None => 0 end +
    match flags with Some f => 2 ^ 49 + be_value f * 2 ^ 32 | None => 0 end.
Proof.
  intros Hf. unfold make_cache_key, BitEnumOps.to_u16. cbn [vck_constraints].
  assert (∀ a, Z.lor (Z.shiftl 1 48) (Args.try_write a) = 2 ^ 48 + Args.try_write a) as Ha.
  { intros a. pose proof (args_bits_range a). rewrite lor_shiftl_low by lia. lia. }
  assert (∀ f : BitEnum VerbFlag, 0 ≤ be_value f < 2 ^ 16 →
    Z.lor (Z.shiftl 1 49) (Z.shiftl (be_value f) 32) = 2 ^ 49 + be_value f * 2 ^ 32) as Hfl.
  { intros f Hb. rewrite (Z.shiftl_mul_pow2 _ 32) by lia. rewrite lor_shiftl_low by lia. lia. }
  destruct args as [a|], flags as [f|]; rewrite ?Z.lor_0_r, ?Z.lor_0_l; rewrite ?Ha, ?Hfl by done;
    try lia.
  pose proof (args_bits_range a). simpl in Hf.
  assert (2 ^ 49 + be_value f * 2 ^ 32 = Z.shiftl (2 ^ 17 + be_value f) 32) as Hhi
    by (rewrite Z.shiftl_mul_pow2 by lia; lia).
  assert (2 ^ 48 + Args.try_write a = Z.lor (Z.shiftl (2 ^ 16) 32) (Args.try_write a)) as Hlo
    by (rewrite lor_shiftl_low by lia; lia).
  rewrite Hhi, Hlo. rewrite (Z.lor_comm (Z.lor _ _)), Z.lor_assoc, <-Z.shiftl_lor.
  rewrite lor_shiftl_low by lia.
  replace (Z.lor (2 ^ 17 + be_value f) (2 ^ 16)) with (2 ^ 17 + 2 ^ 16 + be_value f); [lia|].
  replace (2 ^ 17 + be_value f) with (Z.lor (Z.shiftl 2 16) (be_value f))
    by (rewrite lor_shiftl_low by lia; lia).
  rewrite (Z.lor_comm (Z.shiftl 2 16)), <-Z.lor_assoc.
  change (Z.lor (Z.shiftl 2 16) (2 ^ 16)) with (Z.shiftl 3 16).
  rewrite Z.lor_comm, lor_shiftl_low by lia. lia.
Qed.

Lemma verb_key_inj o s args flags o' s' args' flags' :
  interned s s' → u16_flags flags → u16_flags flags' →
  make_cache_key o s args flags = make_cache_key o' s' args' flags' →
  o = o' ∧ s = s' ∧ args = args' ∧ flags = flags'.
Proof.
  intros (_ & _ & Hinj) Hf Hf' Hk.
  assert (vck_constraints (make_cache_key o s args flags) =
    vck_constraints (make_cache_key o' s' args' flags')) as Hc by (by rewrite Hk).
  rewrite !constraints_value in Hc by done. unfold make_cache_key in Hk. injection Hk as Ho Hs _.
  split_and!; [by apply as_u64_inj|by apply Hinj| |].
  - destruct args as [a|], args' as [a'|], flags as [f|], flags' as [f'|]; simpl in *;
      try (pose proof (args_bits_range a)); try (pose proof (args_bits_range a')); try lia; f_equal.
    all: assert (Args.try_write a = Args.try_write a') as Hw by lia.
    all: pose proof (args_read_written a) as Ha; pose proof (args_read_written a') as Ha'.
    all: rewrite Hw in Ha; congruence.
  - destruct args as [a|], args' as [a'|], flags as [f|], flags' as [f'|]; simpl in *;
      try (pose proof (args_bits_range a)); try (pose proof (args_bits_range a')); try lia; try done.
    all: f_equal; destruct f as [f], f' as [f']; simpl in *; f_equal; lia.
Qed.

Lemma verb_fill o s args flags o' s' args' flags' e c :
  interned s s' → u16_flags flags → u16_flags flags' →
  lookup_spec o s args flags (fill_entry o' s' args' flags' e c) =
    if decide ((o, s, args, be_value <$> flags) = (o', s', args', be_value <$> flags'))
    then Some e else lookup_spec o s args flags c.
Proof.
  intros Hs Hf Hf'. unfold lookup_spec, fill_entry. cbn [entries]. case_decide as He.
  - injection He as <- <- <- Hfl. assert (flags = flags') as <-.
    { destruct flags as [[]|], flags' as [[]|]; simplify_eq/=; done. }
    by rewrite lookup_insert_eq.
  - rewrite lookup_insert_ne; [done|]. intros Hk. symmetry in Hk.
    by apply verb_key_inj in Hk as (-> & -> & -> & ->).
Qed.

Lemma verb_invalidate o s args flags objects c :
  lookup_spec o s args flags (invalidate_objects objects c) =
    (if decide (o ∈ objects) then None else lookup_spec o s args flags c) ∧
  lookup_first_parent_with_verbs o (invalidate_objects objects c) =
    (if decide (o ∈ objects) then None else lookup_first_parent_with_verbs o c).
Proof.
  unfold lookup_spec, lookup_first_parent_with_verbs, invalidate_objects.
  destruct objects as [|x objects]; [by rewrite !decide_False by (apply not_elem_of_nil)|].
  assert (as_u64 o ∈ map as_u64 (x :: objects) ↔ o ∈ x :: objects) as Hids by apply elem_of_ids.
  unfold remove_entries_for_objects.
  destruct (if bool_decide (SYSTEM_OBJECT ∈ x :: objects) then _ else _) as [absent cleared].
  cbn [entries first_parent_with_verbs_cache].
  case_decide as Hin; split.
  - apply filter_lookup_None. intros a Ha. by apply Ha, Hids.
  - apply filter_lookup_None. intros a Ha. by apply Ha, Hids.
  - apply filter_lookup. intros a _. cbn [fst make_cache_key vck_object]. by rewrite Hids.
  - apply filter_lookup. intros a _. cbn [fst]. by rewrite Hids.
Qed.

(** the verb cache is a map from the query (object, name, argument and flag
    constraints) to its answer although the constraints are packed into one
    word: an answer is found for exactly the query it was stored for, storing
    one changes no other, and invalidating objects forgets every answer and
    shortcut of these objects and no other. *)
Theorem verb_cache_lookup o s args flags o' s' args' flags' e objects c :
  interned s s' → u16_flags flags → u16_flags flags' →
  lookup_spec o s args flags (fill_entry o' s' args' flags' e c) =
    (if decide ((o, s, args, be_value <$> flags) = (o', s', args', be_value <$> flags'))
     then Some e else lookup_spec o s args flags c) ∧
  lookup_spec o s args flags (invalidate_objects objects c) =
    (if decide (o ∈ objects) then None else lookup_spec o s args flags c) ∧
  lookup_first_parent_with_verbs o (invalidate_objects objects c) =
    (if decide (o ∈ objects) then None else lookup_first_parent_with_verbs o c).
Proof. intros Hs Hf Hf'. split; [by apply verb_fill|apply verb_invalidate]. Qed.
End verb_cache.

#[local] Instance length_ids : Interner := { compare_id s := Z.of_nat (String.length (symbol_text s)) }.

Lemma verb_cache_lookup_witness :
  let look := mkSymbol "look" in let go := mkSymbol "go" in
  let c := VerbResolutionCache.fill_entry (mkObj 2) go None None None
             (VerbResolutionCache.new BUILTIN_PROXY_CACHE_WORDS) in
  VerbResolutionCache.lookup_spec (mkObj 2) look (Some Args.this_none_this) None
    (VerbResolutionCache.fill_entry (mkObj 2) look (Some Args.this_none_this) None None c)
  = Some None ∧
  VerbResolutionCache.lookup_spec (mkObj 2) go None None
    (VerbResolutionCache.invalidate_objects [mkObj 3] c) = Some None.
Proof.
  intros look go c. split.
  - refine (proj1 (verb_cache_lookup (mkObj 2) look (Some Args.this_none_this) None (mkObj 2) look
      (Some Args.this_none_this) None None [] c _ _ _)).
    + by split_and!.
    + done.
    + done.
  - refine (proj1 (proj2 (verb_cache_lookup (mkObj 2) go None None (mkObj 2) look None None None
      [mkObj 3] c _ _ _))).
    + by split_and!.
    + done.
    + done.
Defined.
