(* ===== verification/ModelProofs.v ===== *)
(** Results on the data of the relations: flag strings, packed property
    permissions and definition sets. *)
From S2P Require Import Prelude Obj TxTypes Model.
From Stdlib Require Import Ascii.
From stdpp Require Import base gmap sets list strings fin_maps.

Open Scope Z_scope.

(** ** Flag sets as sets of bits *)

Section bits.
Context {T : Type} `{BitFlag T}.
Import BitEnumOps.

Lemma contains_testbit (value : T) (b : BitEnum T) :
  0 ≤ bit_index value → contains value b = Z.testbit (be_value b) (bit_index value).
Proof.
  intros Hk. unfold contains, bit. rewrite Z.shiftl_1_l.
  destruct (Z.testbit (be_value b) (bit_index value)) eqn:Ht;
    destruct (Z.eqb_spec (Z.land (be_value b) (2 ^ bit_index value)) 0) as [He|He]; try done.
  - apply (f_equal (λ z, Z.testbit z (bit_index value))) in He.
    by rewrite Z.land_spec, Ht, Z.pow2_bits_true, Z.bits_0 in He.
  - destruct He. apply Z.bits_inj'. intros i Hi. rewrite Z.land_spec, Z.bits_0.
    destruct (decide (i = bit_index value)) as [->|Hne]; [by rewrite Ht|].
    rewrite Z.pow2_bits_false by lia. apply andb_false_r.
Qed.

Lemma testbit_lor_bit (flags : Z) (f : T) k :
  0 ≤ bit_index f → 0 ≤ k →
  Z.testbit (Z.lor flags (Z.shiftl 1 (bit_index f))) k =
  Z.testbit flags k || bool_decide (k = bit_index f).
Proof.
  intros Hf Hk. rewrite Z.lor_spec, Z.shiftl_1_l. f_equal.
  case_bool_decide; subst; [by apply Z.pow2_bits_true|by apply Z.pow2_bits_false; lia].
Qed.
End bits.

Lemma prop_bit_inj (f g : PropFlag) : bit_index f = bit_index g → f = g.
Proof. by destruct f, g. Qed.
Lemma prop_bit_nonneg (f : PropFlag) : 0 ≤ bit_index f.
Proof. by destruct f. Qed.

Lemma prop_parse_loop_spec (s : list ascii) flags :
  match PropFlags.parse_loop flags s with
  | Some b => (∀ c, c ∈ s → is_Some (PropFlags.flag_of_char c)) ∧
      ∀ f, BitEnumOps.contains f b = true ↔
        Z.testbit flags (bit_index f) = true ∨ ∃ c, c ∈ s ∧ PropFlags.flag_of_char c = Some f
  | None => ∃ c, c ∈ s ∧ PropFlags.flag_of_char c = None
  end.
Proof.
  revert flags. induction s as [|c s IH]; intros flags; cbn [PropFlags.parse_loop].
  { split; [set_solver|]. intros f. rewrite contains_testbit by apply prop_bit_nonneg.
    simpl. set_solver. }
  destruct (PropFlags.flag_of_char c) as [g|] eqn:Hc; [|by exists c; split; [constructor|]].
  specialize (IH (Z.lor flags (Z.shiftl 1 (bit_index g)))).
  destruct (PropFlags.parse_loop _ s) as [b|].
  - destruct IH as [Hv Hb]. split.
    + intros c' [->|Hin]%elem_of_cons; [by rewrite Hc|by apply Hv].
    + intros f. rewrite Hb, testbit_lor_bit by apply prop_bit_nonneg.
      rewrite orb_true_iff, bool_decide_eq_true. split.
      * intros [[?|Hfg]|(c' & ? & ?)]; [by left|right|right].
        -- apply prop_bit_inj in Hfg as ->. exists c. split; [constructor|done].
        -- exists c'. split; [by constructor|done].
      * intros [?|(c' & [->|?]%elem_of_cons & ?)]; [by auto|..|by right; eauto].
        left; right. by simplify_eq.
  - destruct IH as (c' & ? & ?). exists c'. split; [by constructor|done].
Qed.

(** parsing a property-flag string succeeds exactly when every character is
    one of r, w, c, o, and the result then contains a flag exactly when its
    letter occurs; printing lists the flags of any four-bit set in such a way
    that parsing gives it back. *)
Theorem prop_flags_parse_print (s : list ascii) :
  (PropFlags.parse_str s = None ↔ ∃ c, c ∈ s ∧ PropFlags.flag_of_char c = None) ∧
  (∀ b f, PropFlags.parse_str s = Some b →
     BitEnumOps.contains f b = true ↔ ∃ c, c ∈ s ∧ PropFlags.flag_of_char c = Some f) ∧
  (∀ v, 0 ≤ v < 16 →
     PropFlags.parse_str (PropFlags.prop_flags_string (mkBitEnum v)) = Some (mkBitEnum v)).
Proof.
  pose proof (prop_parse_loop_spec s 0) as Hs. unfold PropFlags.parse_str. split_and!.
  - destruct (PropFlags.parse_loop 0 s) as [b|]; [|by split].
    split; [done|]. intros (c & Hin & Hc). destruct Hs as [Hv _].
    destruct (Hv c Hin) as [g Hg]. congruence.
  - intros b f Hb. rewrite Hb in Hs. destruct Hs as [_ Hf]. rewrite Hf, Z.bits_0. naive_solver.
  - intros v Hv. assert (Forall (λ v, PropFlags.parse_loop 0
      (PropFlags.prop_flags_string (mkBitEnum v)) = Some (mkBitEnum v)) (seqZ 0 16)) as Hall.
    { apply (bool_decide_unpack _). vm_compute. exact I. }
    rewrite Forall_forall in Hall. apply Hall, elem_of_seqZ. lia.
Qed.

(** Printing and parsing object flags round-trips for every set of the six
    flags that have a letter; the two obsolete flags are not printed, so
    printing drops exactly those. *)
Theorem obj_flags_print_parse (v : Z) :
  0 ≤ v < 256 →
  ObjFlags.parse_str (ObjFlags.obj_flags_string (mkBitEnum v)) =
  Some (BitEnumOps.clear ObjObsolete1 (BitEnumOps.clear ObjObsolete2 (mkBitEnum v))).
Proof.
  intros Hv. assert (Forall (λ v, ObjFlags.parse_str (ObjFlags.obj_flags_string (mkBitEnum v)) =
    Some (BitEnumOps.clear ObjObsolete1 (BitEnumOps.clear ObjObsolete2 (mkBitEnum v))))
    (seqZ 0 256)) as Hall.
  { apply (bool_decide_unpack _). vm_compute. exact I. }
  rewrite Forall_forall in Hall. apply Hall, elem_of_seqZ. lia.
Qed.

Lemma obj_flags_print_parse_witness :
  0 ≤ 37 < 256 ∧ ObjFlags.parse_str (ObjFlags.obj_flags_string (mkBitEnum 37)) =
  Some (BitEnumOps.clear ObjObsolete1 (BitEnumOps.clear ObjObsolete2 (mkBitEnum 37))).
Proof. split; [lia|]. apply (obj_flags_print_parse 37). lia. Defined.

(** The named constructors of property flags do not all match their names:
    [rw] grants write and chown but not read, and [rcw] grants read and write
    but not chown. *)
Theorem prop_flag_constructors :
  BitEnumOps.contains PropRead PropFlags.rw = false ∧
  BitEnumOps.contains PropChown PropFlags.rw = true ∧
  BitEnumOps.contains PropChown PropFlags.rcw = false ∧
  BitEnumOps.contains PropRead PropFlags.rcw = true ∧
  BitEnumOps.contains PropWrite PropFlags.rcw = true.
Proof. repeat split. Qed.

(** ** Property permissions *)

Lemma le_bytes_S n x :
  le_bytes (S n) x = Z.land x 255 :: le_bytes n (Z.shiftr x 8).
Proof.
  unfold le_bytes. cbn [seq map]. f_equal. rewrite <- seq_shift, map_map.
  apply map_ext. intros i. rewrite Z.shiftr_shiftr by lia. f_equal. f_equal. lia.
Qed.

Lemma from_le_bytes_le_bytes n x :
  0 ≤ x < 2 ^ (8 * Z.of_nat n) → from_le_bytes (le_bytes n x) = x.
Proof.
  revert x. induction n as [|n IH]; intros x Hx.
  { change (2 ^ (8 * Z.of_nat 0)) with 1 in Hx. cbn. lia. }
  rewrite le_bytes_S. cbn [from_le_bytes].
  assert (Z.land x 255 = x `mod` 2 ^ 8) as Hlow.
  { change 255 with (Z.ones 8). by apply Z.land_ones. }
  assert (2 ^ (8 * Z.of_nat (S n)) = 2 ^ 8 * 2 ^ (8 * Z.of_nat n)) as Hp.
  { rewrite <- Z.pow_add_r by lia. f_equal. lia. }
  rewrite IH.
  - rewrite Z.lor_comm, lor_shiftl_low; [|lia|].
    + rewrite Hlow, Z.shiftr_div_pow2 by lia. pose proof (Z.div_mod x (2 ^ 8)). lia.
    + rewrite Hlow. apply Z.mod_pos_bound. lia.
  - rewrite Z.shiftr_div_pow2 by lia. split; [apply Z.div_pos; lia|].
    apply Z.div_lt_upper_bound; lia.
Qed.

Lemma le_bytes_length n x : length (le_bytes n x) = n.
Proof. unfold le_bytes. by rewrite length_map, length_seq. Qed.

Lemma new_bytes o f :
  perms_bytes (PropPermsOps.new o f) =
  le_bytes 8 (as_u64 o) ++ le_bytes 2 (BitEnumOps.to_u16 f).
Proof. reflexivity. Qed.

(** Packed permissions give back the owner and the flags they were made
    of, and replacing one of them keeps the other, for every 64-bit object
    reference and 16-bit flag word. *)
Theorem prop_perms_roundtrip (o o' : Obj) (f f' : BitEnum PropFlag) :
  0 ≤ obj_bits o < 2 ^ 64 → 0 ≤ be_value f < 2 ^ 16 →
  0 ≤ obj_bits o' < 2 ^ 64 → 0 ≤ be_value f' < 2 ^ 16 →
  let p := PropPermsOps.new o f in
  PropPermsOps.owner p = o ∧ PropPermsOps.flags p = f ∧
  length (perms_bytes p) = PropPermsOps.PROP_PERMS_SIZE ∧
  PropPermsOps.with_owner o' p = PropPermsOps.new o' f ∧
  PropPermsOps.with_flags f' p = PropPermsOps.new o f'.
Proof.
  intros Ho Hf Ho' Hf' p.
  assert (PropPermsOps.owner p = o) as Hown.
  { unfold PropPermsOps.owner, PropPermsOps.slice, p. rewrite new_bytes.
    unfold PropPermsOps.OWNER_OFFSET. rewrite drop_0.
    rewrite take_app_length' by (by rewrite le_bytes_length).
    rewrite from_le_bytes_le_bytes by exact Ho. by destruct o. }
  assert (PropPermsOps.flags p = f) as Hfl.
  { unfold PropPermsOps.flags, PropPermsOps.slice, p. rewrite new_bytes.
    rewrite drop_app_length' by (by rewrite le_bytes_length).
    rewrite take_ge by (by rewrite le_bytes_length).
    unfold BitEnumOps.to_u16, BitEnumOps.from_u16.
    rewrite from_le_bytes_le_bytes by exact Hf. by destruct f. }
  unfold PropPermsOps.with_owner, PropPermsOps.with_flags. rewrite Hown, Hfl.
  by split_and!.
Qed.

Lemma prop_perms_roundtrip_witness :
  PropPermsOps.owner (PropPermsOps.new (mkObj 77) (mkBitEnum 9)) = mkObj 77.
Proof.
  apply (prop_perms_roundtrip (mkObj 77) (mkObj 5) (mkBitEnum 9) (mkBitEnum 1)); simpl; lia.
Defined.

(** ** Definition sets *)

Section defs.
Context {T : Type} `{HasUuid T} `{Named T}.
Import DefsOps.

Lemma find_app (l1 l2 : list T) (P : T → bool) :
  List.find P (l1 ++ l2) = match List.find P l1 with Some x => Some x | None => List.find P l2 end.
Proof. induction l1 as [|a l IH]; simpl; [done|]. by destruct (P a). Qed.

Lemma find_filter_ne (l : list T) u u' :
  List.find (λ p, bool_decide (def_uuid p = u'))
    (List.filter (λ p, negb (bool_decide (def_uuid p = u))) l) =
  if bool_decide (u = u') then None else List.find (λ p, bool_decide (def_uuid p = u')) l.
Proof.
  induction l as [|a l IH]; simpl; [by destruct (bool_decide (u = u'))|].
  destruct (bool_decide_reflect (def_uuid a = u)) as [Ha|Ha]; simpl.
  - rewrite IH. destruct (bool_decide_reflect (u = u')) as [Hu|Hu]; [done|].
    by rewrite bool_decide_eq_false_2 by congruence.
  - destruct (bool_decide_reflect (def_uuid a = u')) as [Ha'|Ha']; [|exact IH].
    by rewrite bool_decide_eq_false_2 by congruence.
Qed.

Lemma find_map_update (l : list T) u u' (f : T → T) :
  (∀ p, def_uuid (f p) = def_uuid p) →
  List.find (λ p, bool_decide (def_uuid p = u'))
    (map (λ p, if bool_decide (def_uuid p = u) then f p else p) l) =
  if bool_decide (u = u') then f <$> List.find (λ p, bool_decide (def_uuid p = u')) l
  else List.find (λ p, bool_decide (def_uuid p = u')) l.
Proof.
  intros Hf. induction l as [|a l IH]; simpl; [by destruct (bool_decide (u = u'))|].
  destruct (bool_decide_reflect (def_uuid a = u)) as [Ha|Ha]; rewrite ?Hf.
  - destruct (bool_decide_reflect (def_uuid a = u')) as [Ha'|Ha']; [|exact IH].
    by rewrite bool_decide_eq_true_2 by congruence.
  - destruct (bool_decide_reflect (def_uuid a = u')) as [Ha'|Ha']; [|exact IH].
    by rewrite bool_decide_eq_false_2 by congruence.
Qed.

(** a definition set behaves as a finite map by uuid: looking up after
    adding, removing or updating a definition gives what the change says for
    that uuid and what was there for any other; updating fails exactly when no
    definition has the uuid. *)
Theorem defs_lookup (d : Defs T) (u : Uuid) (v : T) (f : T → T) (u' : Uuid) :
  (∀ p, def_uuid (f p) = def_uuid p) →
  find u' (with_added v d) =
    (match find u' d with Some p => Some p
     | None => if bool_decide (def_uuid v = u') then Some v else None end) ∧
  (∃ d', with_removed u d = Some d' ∧
     find u' d' = if bool_decide (u = u') then None else find u' d) ∧
  (match with_updated u f d with
   | Some d' => find u' d' = if bool_decide (u = u') then f <$> find u' d else find u' d
   | None => find u d = None
   end) ∧
  contains u d = (match find u d with Some _ => true | None => false end).
Proof.
  intros Hf. assert (contains u d = match find u d with Some _ => true | None => false end) as Hc.
  { unfold contains, find. induction (contents d) as [|a l IH]; simpl; [done|].
    by destruct (bool_decide (def_uuid a = u)). }
  split_and!.
  - unfold find, with_added; simpl. rewrite find_app. simpl. by destruct (List.find _ _).
  - eexists; split; [done|]. apply find_filter_ne.
  - unfold with_updated. change (existsb _ (contents d)) with (contains u d). rewrite Hc.
    destruct (find u d) eqn:Hu; [by apply find_map_update|done].
  - exact Hc.
Qed.
End defs.

Lemma defs_lookup_witness :
  let p := mkPropDef (mkUuid 7) SYSTEM_OBJECT SYSTEM_OBJECT (mkSymbol "name") in
  DefsOps.find (mkUuid 7) (DefsOps.with_added p DefsOps.empty) = Some p.
Proof.
  cbn zeta.
  destruct (defs_lookup DefsOps.empty (mkUuid 7)
    (mkPropDef (mkUuid 7) SYSTEM_OBJECT SYSTEM_OBJECT (mkSymbol "name")) (λ p, p) (mkUuid 7)
    (λ _, eq_refl)) as [Hfind _].
  rewrite Hfind. reflexivity.
Defined.
