(* ===== verification/Relations.v ===== *)
(** The thirteen relations of the database, as one family: what the
    [define_relations!] macro (crates/db/src/engine/relation_defs.rs) generates
    from the list in crates/db/src/engine/moor_db.rs. A struct with one field
    per relation is a function of [DatabaseRelation]; a macro repetition over
    the fields is a loop over [ALL], in the order of the declaration.

    Values of properties ([Var]) and programs are carried, not inspected, by
    this layer: [Payload] names their types and the operations it calls on them.
    The hash functions of the [ahash] package are the parameters [Hashes]. *)
From S2P Require Import Prelude Obj TxTypes RelIndex RelTx RelTxSpec CheckApply Bloom Model.
From S2P Require Import Verbs Caches.
From Stdlib Require Import Ascii.
From stdpp Require Import base gmap sets list strings fin_maps.

Open Scope Z_scope.

(** ** Parameters *)

Class Hashes := {
  hash_obj : Obj → Z * Z;
  hash_property : PropertyKey → Z * Z;
  hash_verb : VerbKey → Z * Z;
  hash_metadata : EntityMetadataKey → Z * Z;
}.

(** [with_cleared_hint] is [clone_for_commit] of [Var]. *)
Class Payload := {
  Var : Type;
  var_codomain :: RelationCodomain Var;
  op_hint : Var → Z;
  ProgramType : Type;
  program_codomain :: RelationCodomain ProgramType;
}.

Definition OP_HINT_NONE : Z := 0.
Definition with_cleared_hint `{Payload} (v : Var) : Var := clone_for_commit v.

(** ** Keys and values of the relations *)

#[export] Instance obj_domain `{Hashes} : RelationDomain Obj := {
  domain_display := display; target o := Some (TargetObject o); double_hash := hash_obj;
}.
#[export] Instance property_domain `{Hashes} : RelationDomain PropertyKey := {
  domain_display := property_key_display;
  target k := Some (TargetProperty (pk_obj k) (pk_uuid k) None);
  double_hash := hash_property;
}.
#[export] Instance verb_domain `{Hashes} : RelationDomain VerbKey := {
  domain_display := verb_key_display; target _ := None; double_hash := hash_verb;
}.
#[export] Instance metadata_domain `{Hashes} : RelationDomain EntityMetadataKey := {
  domain_display := metadata_key_display; target _ := None; double_hash := hash_metadata;
}.

(** Values without hints are compared structurally and committed as they are. *)
Definition plain_codomain (C : Type) `{Countable C} : RelationCodomain C := {|
  cod_rep := C; cod_key := λ c, c; clone_for_commit := λ c, c;
  clone_for_commit_key := λ _, eq_refl;
|}.

#[export] Instance obj_codomain : RelationCodomain Obj := plain_codomain Obj.
#[export] Instance flags_codomain : RelationCodomain (BitEnum ObjFlag) := plain_codomain _.
#[export] Instance holder_codomain : RelationCodomain StringHolder := plain_codomain _.
#[export] Instance propdefs_codomain : RelationCodomain PropDefs := plain_codomain _.
#[export] Instance perms_codomain : RelationCodomain PropPerms := plain_codomain _.
#[export] Instance anonymous_codomain : RelationCodomain AnonymousObjectMetadata :=
  plain_codomain _.

Inductive DatabaseRelation :=
| ObjectLocation | ObjectParent | ObjectFlags | ObjectOwner | ObjectName | ObjectVerbdefs
| ObjectVerbs | ObjectPropdefs | ObjectPropvalues | ObjectPropflags | EntityMetadata
| ObjectLastMove | AnonymousObjectMeta.

#[export] Instance DatabaseRelation_eq_dec : EqDecision DatabaseRelation.
Proof. solve_decision. Defined.

Definition ALL : list DatabaseRelation :=
  [ObjectLocation; ObjectParent; ObjectFlags; ObjectOwner; ObjectName; ObjectVerbdefs;
   ObjectVerbs; ObjectPropdefs; ObjectPropvalues; ObjectPropflags; EntityMetadata;
   ObjectLastMove; AnonymousObjectMeta].

Definition as_str (r : DatabaseRelation) : string :=
  match r with
  | ObjectLocation => "object_location" | ObjectParent => "object_parent"
  | ObjectFlags => "object_flags" | ObjectOwner => "object_owner"
  | ObjectName => "object_name" | ObjectVerbdefs => "object_verbdefs"
  | ObjectVerbs => "object_verbs" | ObjectPropdefs => "object_propdefs"
  | ObjectPropvalues => "object_propvalues" | ObjectPropflags => "object_propflags"
  | EntityMetadata => "entity_metadata" | ObjectLastMove => "object_last_move"
  | AnonymousObjectMeta => "anonymous_object_metadata"
  end.

Definition named (name : string) : option DatabaseRelation :=
  List.find (λ r, bool_decide (as_str r = name)) ALL.

(** The arrow of the declaration: [==] relations have a reverse index. *)
Definition is_secondary (r : DatabaseRelation) : bool :=
  match r with
  | ObjectLocation | ObjectParent | ObjectOwner | EntityMetadata => true
  | _ => false
  end.

Definition DomainOf (r : DatabaseRelation) : Type :=
  match r with
  | ObjectVerbs => VerbKey
  | ObjectPropvalues | ObjectPropflags => PropertyKey
  | EntityMetadata => EntityMetadataKey
  | _ => Obj
  end.

Definition CodomainOf `{Payload} (r : DatabaseRelation) : Type :=
  match r with
  | ObjectLocation | ObjectParent | ObjectOwner => Obj
  | ObjectFlags => BitEnum ObjFlag
  | ObjectName => StringHolder
  | ObjectVerbdefs => VerbDefs
  | ObjectVerbs => ProgramType
  | ObjectPropdefs => PropDefs
  | ObjectPropvalues | EntityMetadata | ObjectLastMove => Var
  | ObjectPropflags => PropPerms
  | AnonymousObjectMeta => AnonymousObjectMetadata
  end.

#[export] Instance DomainOf_eq_dec r : EqDecision (DomainOf r).
Proof. destruct r; apply _. Defined.
#[export] Instance DomainOf_countable r : Countable (DomainOf r).
Proof. destruct r; apply _. Defined.
#[export] Instance DomainOf_domain `{Hashes} r : RelationDomain (DomainOf r).
Proof. destruct r; apply _. Defined.
#[export] Instance CodomainOf_codomain `{Payload} r : RelationCodomain (CodomainOf r).
Proof. destruct r; apply _. Defined.

(** ** Snapshots and working sets *)

Section relations.
Context `{Hashes} `{Payload}.

Definition Index (r : DatabaseRelation) : Type := DynIndex (DomainOf r) (CodomainOf r).
Definition Working (r : DatabaseRelation) : Type := WorkingSet.t (DomainOf r) (CodomainOf r) (Index r).

Record WorldStateSnapshot := mkSnapshot {
  version : Z;
  committed_ts : Timestamp;
  snap_caches : Caches;
  snap_index : ∀ r, Index r;
  commit_bloom : option CommitBloom.t;
  bloom_since_version : Z;
}.

Record RelationWorkingSets := mkRelationWorkingSets {
  owner_change_reads : gset Obj;
  inherited_policy_reads : gset PropertyKey;
  rws : ∀ r, Working r;
}.

(** [RelationWorkingSets] with one field replaced. *)
Definition with_working (r : DatabaseRelation) (w : Working r) (ws : RelationWorkingSets)
  : RelationWorkingSets :=
  mkRelationWorkingSets (owner_change_reads ws) (inherited_policy_reads ws)
    (dupd (P := Working) r w (rws ws)).

Record WorkingSets := mkWorkingSets {
  ws_owner_change_reads : gset Obj;
  ws_inherited_policy_reads : gset PropertyKey;
  ws_tx : Tx;
  ws_relations : ∀ r, Working r;
  ws_caches : Caches;
  ws_has_mutations : bool;
  tx_bloom : CommitBloom.t;
}.

Definition total_tuples (ws : WorkingSets) : nat :=
  fold_left (λ n r, n + WorkingSet.len (ws_relations ws r))%nat ALL 0%nat.

Definition extract_relation_working_sets (ws : WorkingSets) : RelationWorkingSets * Caches :=
  (mkRelationWorkingSets (ws_owner_change_reads ws) (ws_inherited_policy_reads ws)
     (ws_relations ws), ws_caches ws).

Definition keys {r} (w : Working r) : list (DomainOf r) := (map_to_list (WorkingSet.tuples w)).*1.

(** Whether a key has the same authoritative state in two indexes. *)
Definition relation_key_unchanged {D C} `{Countable D} `{RelationCodomain C}
    (checked winner : DynIndex D C) (key : D) : bool :=
  if negb (is_provider_fully_loaded checked) || negb (is_provider_fully_loaded winner)
  then false
  else bool_decide ((entry_ts <$> index_lookup checked key) =
                    (entry_ts <$> index_lookup winner key)).

(** [WorldStateSnapshot::property_name]: at most 256 steps up the parents. *)
Fixpoint property_name_loop (s : WorldStateSnapshot) (steps : nat) (current : Obj) (uuid : Uuid)
  : option Symbol :=
  match steps with
  | O => None
  | S steps' =>
      match (entry ← index_lookup (snap_index s ObjectPropdefs) current;
             DefsOps.find uuid (entry_value entry)) with
      | Some definition => Some (propdef_name definition)
      | None =>
          match index_lookup (snap_index s ObjectParent) current with
          | None => None
          | Some entry =>
              let parent := entry_value entry in
              if bool_decide (parent = NOTHING) || bool_decide (parent = current) then None
              else property_name_loop s steps' parent uuid
          end
      end
  end.

Definition property_name (s : WorldStateSnapshot) (object : Obj) (uuid : Uuid) : option Symbol :=
  property_name_loop s 256 object uuid.

(** ** The relations of an open database *)

Context {P : DatabaseRelation → Type} `{∀ r, Provider (P r) (DomainOf r) (CodomainOf r)}.

Definition Relations : Type := ∀ r, Relation.t (DomainOf r) (CodomainOf r) (P r).

(** [Relations::init] on providers already opened. *)
Definition init (sources : ∀ r, P r) : Relations := λ r,
  if is_secondary r then Relation.new_with_secondary (mkSymbol (as_str r)) (sources r)
  else Relation.new (mkSymbol (as_str r)) (sources r).

(** Seed every relation in turn; the first failure names its relation. *)
Definition snapshot_step (rels : Relations) (st : (∀ r, Index r) * Timestamp)
    (r : DatabaseRelation)
  : result ((∀ r, Index r) * Timestamp) (DatabaseRelation * Error) :=
  match Relation.seeded_index_with_max_timestamp (rels r) with
  | Err e => Err (r, e)
  | Ok (index, max_timestamp) => Ok (dupd r index st.1, Z.max st.2 max_timestamp)
  end.

Definition empty_indexes : ∀ r, Index r := λ r, DynHash HashRelationIndex.new.

Definition snapshot (rels : Relations) (ver : Z) (ts : Timestamp) (caches : Caches)
  : result WorldStateSnapshot (DatabaseRelation * Error) :=
  let? (indexes, ts) := fold_res (snapshot_step rels) (empty_indexes, ts) ALL in
  Ok (mkSnapshot ver ts caches indexes None 0).

Definition snapshot_with_all_fully_loaded (root : WorldStateSnapshot) : WorldStateSnapshot :=
  mkSnapshot (version root) (committed_ts root) (snap_caches root)
    (λ r, set_provider_fully_loaded true (snap_index root r)) None 0.

(** ** Transactions over all relations *)

Definition TxRelation (r : DatabaseRelation) : Type :=
  RelationTransaction.t (DomainOf r) (CodomainOf r) (Index r) (P r).

Record WorldStateTransaction := mkWorldStateTransaction {
  wtx : Tx;
  wtx_relations : ∀ r, TxRelation r;
  wtx_caches : Caches;
  wtx_owner_change_reads : gset Obj;
  wtx_inherited_policy_reads : gset PropertyKey;
}.

Definition start_transaction (rels : Relations) (tx : Tx) (snap : WorldStateSnapshot)
    (caches : Caches) : WorldStateTransaction :=
  mkWorldStateTransaction tx
    (λ r, Relation.start_borrowed (rels r) tx (snap_index snap r) (Relation.source (rels r)))
    (caches_fork caches) ∅ ∅.

Definition has_mutations (t : WorldStateTransaction) : bool :=
  existsb (λ r, RelationTransaction.has_mutations (wtx_relations t r)) ALL.

(** A filter of the keys of every relation. *)
Definition bloom_of_keys (w : ∀ r, Working r) : CommitBloom.t :=
  fold_left (λ bloom r, CommitBloom.insert_keys (keys (w r)) bloom) ALL CommitBloom.new.

Definition into_working_sets (t : WorldStateTransaction) : WorkingSets :=
  let w := λ r, RelationTransaction.working_set (wtx_relations t r) in
  mkWorkingSets (wtx_owner_change_reads t) (wtx_inherited_policy_reads t) (wtx t) w
    (wtx_caches t) (has_mutations t) (bloom_of_keys w).
End relations.
Arguments WorldStateSnapshot {_}.
Arguments RelationWorkingSets {_}.
Arguments WorkingSets {_}.

(** ** The sequence counters of the database (crates/db/src/engine/moor_db.rs,
    [SequenceState]): sixty-four bit counters shared by all transactions, with a mask
    of those changed since the last commit took it. Each operation is one atomic
    access; the retry loop of [update_max] ends at the value read last, so it is one
    atomic maximum. *)

Definition SEQUENCE_COUNT : nat := 15.
Definition SEQUENCE_MAX_OBJECT : nat := 0.

Module Sequences.
Record t := mk { values : list Z; dirty : Z }.

Definition new : t := mk (replicate SEQUENCE_COUNT (-1)) 0.

(** Indexing outside the array is a panic in the code; every sequence used is a
    constant below [SEQUENCE_COUNT]. *)
Definition load (sequence : nat) (s : t) : Z := nth sequence (values s) 0.
Definition set_initial (sequence : nat) (value : Z) (s : t) : t :=
  mk (<[sequence := value]> (values s)) (dirty s).
Definition mark_dirty (sequence : nat) (s : t) : t :=
  mk (values s) (Z.lor (dirty s) (wrap 16 (Z.shiftl 1 (Z.of_nat sequence)))).

(** [fetch_add] wraps, and so does the addition to the value it returns. *)
Definition increment (sequence : nat) (s : t) : t * Z :=
  let value := to_signed 64 (wrap 64 (load sequence s + 1)) in
  (mark_dirty sequence (mk (<[sequence := value]> (values s)) (dirty s)), value).

Definition update_max (sequence : nat) (value : Z) (s : t) : t * Z :=
  let current := load sequence s in
  if value <=? current then (s, current)
  else (mark_dirty sequence (mk (<[sequence := value]> (values s)) (dirty s)), current).

Definition claim_dirty (s : t) : t * Z := (mk (values s) 0, dirty s).
End Sequences.
