(* ===== verification/PropertyPolicy.v ===== *)
(** Property-local exceptions to the write-conflict rule
    (crates/db/src/engine/moor_db/property_policy.rs): which property values
    may be overwritten without a conflict, and the revalidation of the policies
    and definitions a transaction relied on.

    The walk up the parents is a [while] loop; it is modelled with fuel, and
    [Diverged] is the outcome of a walk that does not end. *)
From S2P Require Import Prelude Obj TxTypes RelIndex RelTx CheckApply Model Relations.
From S2P Require Import Verbs Caches.
From stdpp Require Import base gmap sets list strings fin_maps.

Open Scope Z_scope.

(** How an operation of the commit code stops early: with a conflict report,
    by a failed [expect], or not at all. *)
Inductive abort :=
| Failed (info : ConflictInfo)
| Panicked
| Diverged.

Section policy.
Context `{Hashes} `{Payload}.

(** What a key will hold once the working set is committed. *)
Definition final_value {r} (w : Working r) (key : DomainOf r) : option (CodomainOf r) :=
  match WorkingSet.tuples w !! key with
  | Some op => op_value (operation op)
  | None => entry_value <$> index_lookup (WorkingSet.base_index w) key
  end.

Definition property_can_clobber (flags : Working ObjectPropflags) (key : PropertyKey) : bool :=
  let perms : option PropPerms :=
    match WorkingSet.tuples flags !! key with
    | Some op => match operation op with
                 | OpInsert perms | OpUpdate perms => Some perms
                 | OpDelete => None
                 end
    | None => entry_value <$> index_lookup (WorkingSet.base_index flags) key
    end in
  match perms with
  | Some perms => BitEnumOps.contains PropClobber (PropPermsOps.flags perms)
  | None => false
  end.

(** The [validate!] macros: the key of a relation has not moved. *)
Definition validate (ws : RelationWorkingSets) (current : WorldStateSnapshot)
    (r : DatabaseRelation) (key : DomainOf r) : result unit abort :=
  if relation_key_unchanged (WorkingSet.base_index (rws ws r)) (snap_index current r) key
  then Ok tt
  else Err (Failed (make_conflict_info (mkSymbol (as_str r)) key ConcurrentWrite)).

Definition check_owner_change (ws : RelationWorkingSets) (current : WorldStateSnapshot)
    (_ : unit) (object : Obj) : result unit abort :=
  let? _ := validate ws current ObjectFlags object in
  let? _ := validate ws current ObjectParent object in
  validate ws current ObjectPropdefs object.

Definition check_inherited_policy (ws : RelationWorkingSets) (current : WorldStateSnapshot)
    (_ : unit) (key : PropertyKey) : result unit abort :=
  let unchanged r (k : DomainOf r) :=
    relation_key_unchanged (WorkingSet.base_index (rws ws r)) (snap_index current r) k in
  if unchanged ObjectPropflags key && unchanged ObjectPropdefs (pk_obj key)
     && unchanged ObjectFlags (pk_obj key)
  then Ok tt
  else Err (Failed (make_conflict_info (mkSymbol "object_propflags") key ConcurrentWrite)).

(** The walk from the key's object to the definer of the property. *)
Fixpoint check_ancestry (fuel : nat) (ws : RelationWorkingSets) (current : WorldStateSnapshot)
    (key : PropertyKey) (local_perms : bool) (object : Obj) : result unit abort :=
  match fuel with
  | O => Err Diverged
  | S fuel' =>
      if bool_decide (object = NOTHING) then Ok tt
      else
        let? _ := validate ws current ObjectFlags object in
        let? _ := validate ws current ObjectParent object in
        let? _ := validate ws current ObjectPropdefs object in
        match (defs ← final_value (rws ws ObjectPropdefs) object;
               DefsOps.find (pk_uuid key) (defs : PropDefs)) with
        | Some def =>
            if local_perms then Ok tt
            else validate ws current ObjectPropflags
                   (mkPropertyKey (propdef_definer def) (pk_uuid key))
        | None =>
            match final_value (rws ws ObjectParent) object with
            | None => Ok tt
            | Some parent => check_ancestry fuel' ws current key local_perms parent
            end
        end
  end.

Definition check_property_key (fuel : nat) (ws : RelationWorkingSets)
    (current : WorldStateSnapshot) (_ : unit) (key : PropertyKey) : result unit abort :=
  let? _ := validate ws current ObjectPropflags key in
  let local_perms :=
    match index_lookup (WorkingSet.base_index (rws ws ObjectPropflags)) key with
    | Some _ => true | None => false end in
  if local_perms && negb (property_can_clobber (rws ws ObjectPropflags) key) then Ok tt
  else check_ancestry fuel ws current key local_perms (pk_obj key).

(** The written property values, then the written permissions without one. *)
Definition policy_keys (ws : RelationWorkingSets) : list PropertyKey :=
  keys (rws ws ObjectPropvalues) ++
  filter (λ key, WorkingSet.tuples (rws ws ObjectPropvalues) !! key = None)
    (keys (rws ws ObjectPropflags) : list PropertyKey).

Definition check_property_policies (fuel : nat) (ws : RelationWorkingSets)
    (current : WorldStateSnapshot) : result unit abort :=
  let? _ := fold_res (check_owner_change ws current) tt (elements (owner_change_reads ws)) in
  let? _ := fold_res (check_inherited_policy ws current) tt
              (elements (inherited_policy_reads ws)) in
  fold_res (check_property_key fuel ws current) tt (policy_keys ws).

(** A clobber value replaces the whole stored value: its hint is cleared. *)
Definition clear_clobber_op (flags : Working ObjectPropflags) (key : PropertyKey) (op : Op Var)
  : Op Var :=
  if negb (property_can_clobber flags key) then op
  else
    let cleared (value : Var) :=
      if op_hint value =? OP_HINT_NONE then value else with_cleared_hint value in
    match operation op with
    | OpInsert value => CheckRelation.with_operation (OpInsert (cleared value)) op
    | OpUpdate value => CheckRelation.with_operation (OpUpdate (cleared value)) op
    | OpDelete => op
    end.

Definition clear_clobber_hints (ws : RelationWorkingSets) : RelationWorkingSets :=
  let values := rws ws ObjectPropvalues in
  with_working ObjectPropvalues
    (WorkingSet.with_tuples
       (map_imap (λ key op, Some (clear_clobber_op (rws ws ObjectPropflags) key op))
          (WorkingSet.tuples values)) values) ws.
End policy.
