(* ===== verification/Commit.v ===== *)
(** Committing a transaction over all relations: the checkers the
    [define_relations!] macro generates (crates/db/src/engine/relation_defs.rs),
    the publication planes (moor_db/snapshot_planes.rs), the commit pipeline
    (moor_db/commit_pipeline.rs and commit_pipeline/state.rs), and opening the
    database and seeding transactions (moor_db.rs).

    The batch writer that persists a published commit is outside the model: its
    admission decision is an argument, and what it later writes does not change
    the published state. Timers, counters and log lines are left out. *)
From S2P Require Import Prelude Obj TxTypes RelIndex RelTx RelTxSpec CheckApply Bloom Model.
From S2P Require Import Verbs Caches.
From S2P Require Import Relations PropertyPolicy.
From stdpp Require Import base gmap sets list strings fin_maps.

Open Scope Z_scope.

Definition MAX_BLOOM_SPAN : Z := 32.
Definition MAX_REBASE_ATTEMPTS : nat := 16.

(** [u64::saturating_sub] *)
Definition saturating_sub (a b : Z) : Z := Z.max 0 (a - b).

Inductive RebaseCheck :=
| BloomDisjoint
| ExactlyDisjoint
| ActualOverlap (info : ConflictInfo).

Section commit.
Context `{Hashes} `{Payload}.
Context {P : DatabaseRelation → Type} `{∀ r, Provider (P r) (DomainOf r) (CodomainOf r)}.

(** ** Checkers *)

Definition Checker (r : DatabaseRelation) : Type := CheckRelation.t (Index r) (P r).
Definition RelationCheckers : Type := ∀ r, option (Checker r).

Definition begin_check_all (rels : Relations (P := P)) (snap : WorldStateSnapshot)
    (ws : RelationWorkingSets) : RelationCheckers := λ r,
  if WorkingSet.is_empty (rws ws r) then None
  else Some (Relation.begin_check_from_index (rels r) (snap_index snap r)).

(** Only property values can opt out of the conflict rule. *)
Definition can_clobber (ws : RelationWorkingSets) (r : DatabaseRelation) : DomainOf r → bool :=
  match r return DomainOf r → bool with
  | ObjectPropvalues => property_can_clobber (rws ws ObjectPropflags)
  | _ => λ _, false
  end.

Definition clobber_resolver (flags : Working ObjectPropflags) : FnResolver PropertyKey Var :=
  mkFnResolver (λ conflict,
    if property_can_clobber flags (pc_domain conflict) then Ok Accept
    else Err (Conflict (pc_info conflict))).

Definition check_relation (r : DatabaseRelation) (ws : RelationWorkingSets)
  : Checker r → result (Checker r * Working r) Error :=
  match r return Checker r → result (Checker r * Working r) Error with
  | ObjectPropvalues => λ checker,
      CheckRelation.check_with_resolver (rws ws ObjectPropvalues)
        (clobber_resolver (rws ws ObjectPropflags)) checker
  | r => λ checker, CheckRelation.check (rws ws r) checker
  end.

Definition check_all_step (st : RelationCheckers * RelationWorkingSets) (r : DatabaseRelation)
  : result (RelationCheckers * RelationWorkingSets) abort :=
  let '(checkers, ws) := st in
  if WorkingSet.is_empty (rws ws r) then Ok (checkers, ws)
  else match checkers r with
  | None => Err Panicked
  | Some checker =>
      match check_relation r ws checker with
      | Ok (checker', w) =>
          Ok (dupd (P := λ r, option (Checker r)) r (Some checker') checkers, with_working r w ws)
      | Err (Conflict info) => Err (Failed info)
      | Err _ => Err (Failed {| ci_relation_name := CheckRelation.relation_name checker;
                                ci_domain_key := str "<unknown>"; ci_target := None;
                                ci_conflict_type := ConcurrentWrite |})
      end
  end.

Definition check_all (checkers : RelationCheckers) (ws : RelationWorkingSets)
  : result (RelationCheckers * RelationWorkingSets) abort :=
  fold_res check_all_step (checkers, ws) ALL.

Definition prepare_apply_step (ws : RelationWorkingSets) (st : RelationCheckers * CommitBloom.t)
    (r : DatabaseRelation) : result (RelationCheckers * CommitBloom.t) abort :=
  let '(checkers, bloom) := st in
  if WorkingSet.is_empty (rws ws r) then Ok (checkers, bloom)
  else
    let bloom := CommitBloom.insert_keys (keys (rws ws r)) bloom in
    match checkers r with
    | None => Err Panicked
    | Some checker =>
        Ok (dupd (P := λ r, option (Checker r)) r
              (Some (CheckRelation.prepare_indexes (rws ws r) checker)) checkers, bloom)
    end.

Definition prepare_apply_all (checkers : RelationCheckers) (ws : RelationWorkingSets)
  : result (RelationCheckers * CommitBloom.t) abort :=
  fold_res (prepare_apply_step ws) (checkers, CommitBloom.new) ALL.

Definition build_snapshot (checkers : RelationCheckers) (current_root : WorldStateSnapshot)
    (ts : Timestamp) (combined_caches : Caches) (bloom : CommitBloom.t) : WorldStateSnapshot :=
  let '(bloom, since) :=
    match commit_bloom current_root with
    | Some prev_bloom =>
        if saturating_sub (version current_root) (bloom_since_version current_root)
             <? MAX_BLOOM_SPAN
        then (CommitBloom.merge prev_bloom bloom, bloom_since_version current_root)
        else (bloom, version current_root)
    | None => (bloom, version current_root)
    end in
  mkSnapshot (version current_root + 1) (Z.max (committed_ts current_root) ts)
    (if has_changed combined_caches then combined_caches else snap_caches current_root)
    (λ r, match checkers r with
          | None => snap_index current_root r
          | Some checker => CheckRelation.snapshot_index_or checker (snap_index current_root r)
          end)
    (Some bloom) since.

(** ** Rebasing *)

Definition rebase_key (checkers : RelationCheckers) (ws : RelationWorkingSets)
    (checked winner : WorldStateSnapshot) (r : DatabaseRelation) (_ : unit) (key : DomainOf r)
  : result unit abort :=
  if can_clobber ws r key then Ok tt
  else if relation_key_unchanged (snap_index checked r) (snap_index winner r) key then Ok tt
  else match checkers r with
  | None => Err Panicked
  | Some checker =>
      Err (Failed (make_conflict_info (CheckRelation.relation_name checker) key ConcurrentWrite))
  end.

Definition rebase_relation (checkers : RelationCheckers) (ws : RelationWorkingSets)
    (checked winner : WorldStateSnapshot) (_ : unit) (r : DatabaseRelation)
  : result unit abort :=
  fold_res (rebase_key checkers ws checked winner r) tt (keys (rws ws r)).

Definition bloom_proves_disjoint (ws : RelationWorkingSets) (checked winner : WorldStateSnapshot)
  : bool :=
  (bloom_since_version winner <=? version checked) &&
  match commit_bloom winner with
  | Some winner_bloom =>
      forallb (λ r, forallb (λ key, negb (CommitBloom.might_contain key winner_bloom))
                      (keys (rws ws r))) ALL
  | None => false
  end.

Definition rebase_check (fuel : nat) (checkers : RelationCheckers) (ws : RelationWorkingSets)
    (checked winner : WorldStateSnapshot) : result RebaseCheck abort :=
  match check_property_policies fuel ws winner with
  | Err (Failed info) => Ok (ActualOverlap info)
  | Err a => Err a
  | Ok _ =>
      if bloom_proves_disjoint ws checked winner then Ok BloomDisjoint
      else match fold_res (rebase_relation checkers ws checked winner) tt ALL with
      | Err (Failed info) => Ok (ActualOverlap info)
      | Err a => Err a
      | Ok _ => Ok ExactlyDisjoint
      end
  end.

Definition build_rebased_snapshot (checkers : RelationCheckers) (ws : RelationWorkingSets)
    (winner : WorldStateSnapshot) (ts : Timestamp) (combined_caches : Caches)
    (our_bloom : CommitBloom.t) : WorldStateSnapshot :=
  let '(merged_bloom, since) :=
    if saturating_sub (version winner) (bloom_since_version winner) <? MAX_BLOOM_SPAN
    then (match commit_bloom winner with
          | Some winner_bloom => CommitBloom.merge winner_bloom our_bloom
          | None => our_bloom
          end, bloom_since_version winner)
    else (our_bloom, version winner) in
  mkSnapshot (version winner + 1) (Z.max (committed_ts winner) ts)
    (if has_changed combined_caches then combined_caches else snap_caches winner)
    (λ r, match checkers r with
          | None => snap_index winner r
          | Some checker =>
              CheckRelation.rebased_snapshot_index checker (snap_index winner r) (rws ws r)
          end)
    (Some merged_bloom) since.

(** ** Publication planes *)

Record CachePublication := mkCachePublication { cp_version : Z; cp_caches : Caches }.

Record SnapshotPlanes := mkSnapshotPlanes {
  root_state : WorldStateSnapshot;
  cache_publication : CachePublication;
}.

Definition planes_new (initial_root : WorldStateSnapshot) : SnapshotPlanes :=
  mkSnapshotPlanes initial_root
    (mkCachePublication (version initial_root) (snap_caches initial_root)).

Definition seed_caches (p : SnapshotPlanes) : WorldStateSnapshot * Caches :=
  (root_state p,
   if cp_version (cache_publication p) =? version (root_state p)
   then cp_caches (cache_publication p) else snap_caches (root_state p)).

Definition publish_read_only_cache (snapshot_version : Z) (combined_caches : Caches)
    (p : SnapshotPlanes) : SnapshotPlanes :=
  if negb (has_changed combined_caches) then p
  else if negb (version (root_state p) =? snapshot_version) then p
  else mkSnapshotPlanes (root_state p) (mkCachePublication snapshot_version combined_caches).

(** The compare-and-swap of [rcu]: the closure runs on the root it replaces. *)
Definition try_publish_write_root (expected_version : Z) (next_root : WorldStateSnapshot)
    (p : SnapshotPlanes) : SnapshotPlanes * bool :=
  if version (root_state p) =? expected_version
  then (mkSnapshotPlanes next_root
          (mkCachePublication (version next_root) (snap_caches next_root)), true)
  else (p, false).

Definition mark_all_fully_loaded (p : SnapshotPlanes) : SnapshotPlanes :=
  mkSnapshotPlanes (snapshot_with_all_fully_loaded (root_state p)) (cache_publication p).

(** ** The commit states *)

(** What the batch writer answers to a request for a place in its queue. *)
Inductive Admission :=
| AdmissionGranted
| AdmissionTimeout (waited : Z)
| AdmissionUnavailable.

Inductive PrepareError :=
| PrepareConflict (info : ConflictInfo)
| PrepareDatabase (e : WorldStateError)
| PrepareAborted (a : abort).

Record CommitData := mkCommitData {
  cd_working_sets : RelationWorkingSets;
  cd_checkers : RelationCheckers;
  cd_caches : Caches;
  cd_bloom : CommitBloom.t;
  cd_tx_timestamp : Timestamp;
}.

Record PreparedCommit := mkPreparedCommit {
  pc_data : CommitData;
  pc_checked_root : WorldStateSnapshot;
  pc_candidate : WorldStateSnapshot;
}.

Record RebaseRequired := mkRebaseRequired {
  rr_data : CommitData;
  rr_checked_root : WorldStateSnapshot;
}.

Definition enrich_conflict_info (root : WorldStateSnapshot) (info : ConflictInfo) : ConflictInfo :=
  match ci_target info with
  | Some (TargetProperty object uuid None) =>
      mkConflictInfo (ci_relation_name info) (ci_domain_key info)
        (Some (TargetProperty object uuid (property_name root object uuid)))
        (ci_conflict_type info)
  | _ => info
  end.

Definition prepare_error (root : WorldStateSnapshot) (a : abort) : PrepareError :=
  match a with
  | Failed info => PrepareConflict (enrich_conflict_info root info)
  | a => PrepareAborted a
  end.

(** The check is skipped when nothing was committed since the snapshot, or the
    published filter covers what was and does not meet the written keys. *)
Definition skip_conflict_check (snapshot_version : Z) (bloom : CommitBloom.t)
    (root : WorldStateSnapshot) : bool :=
  (snapshot_version =? version root) ||
  ((bloom_since_version root <=? snapshot_version) &&
   match commit_bloom root with
   | Some snap_bloom => negb (CommitBloom.might_intersect bloom snap_bloom)
   | None => false
   end).

(** The apply phase: prepare the indexes, build the candidate, and ask the
    batch writer for admission. *)
Definition prepare_candidate (current_root : WorldStateSnapshot) (admission : Admission)
    (tx_timestamp : Timestamp) (caches : Caches) (checkers : RelationCheckers)
    (relation_ws : RelationWorkingSets) : result PreparedCommit PrepareError :=
  match prepare_apply_all checkers relation_ws with
  | Err a => Err (PrepareAborted a)
  | Ok (checkers, bloom) =>
      let next_root := build_snapshot checkers current_root tx_timestamp
                         (caches_fork caches) bloom in
      match admission with
      | AdmissionTimeout waited => Err (PrepareDatabase (DatabaseOverloaded waited))
      | AdmissionUnavailable => Err (PrepareDatabase
          (DatabaseError "Database commit queue admission is unavailable"))
      | AdmissionGranted =>
          Ok (mkPreparedCommit (mkCommitData relation_ws checkers caches bloom tx_timestamp)
                current_root next_root)
      end
  end.

Definition prepare (rels : Relations (P := P)) (fuel : nat) (current_root : WorldStateSnapshot)
    (admission : Admission) (ws : WorkingSets) : result PreparedCommit PrepareError :=
  let tx_timestamp := tx_ts (ws_tx ws) in
  let snapshot_version := tx_snapshot_version (ws_tx ws) in
  let '(relation_ws, caches) := extract_relation_working_sets ws in
  let policies :=
    if negb (snapshot_version =? version current_root)
    then check_property_policies fuel relation_ws current_root else Ok tt in
  match policies with
  | Err a => Err (prepare_error current_root a)
  | Ok _ =>
      let relation_ws := clear_clobber_hints relation_ws in
      let checkers := begin_check_all rels current_root relation_ws in
      let checked :=
        if negb (skip_conflict_check snapshot_version (tx_bloom ws) current_root)
        then check_all checkers relation_ws else Ok (checkers, relation_ws) in
      match checked with
      | Err a => Err (prepare_error current_root a)
      | Ok (checkers, relation_ws) =>
          prepare_candidate current_root admission tx_timestamp caches checkers relation_ws
      end
  end.

(** [Ok] carries the published commit's data. *)
Definition try_publish (prepared : PreparedCommit) (p : SnapshotPlanes)
  : SnapshotPlanes * result CommitData RebaseRequired :=
  let '(p', success) :=
    try_publish_write_root (version (pc_checked_root prepared)) (pc_candidate prepared) p in
  (p', if success then Ok (pc_data prepared)
       else Err (mkRebaseRequired (pc_data prepared) (pc_checked_root prepared))).

Definition rebase (fuel : nat) (winner : WorldStateSnapshot) (retry : RebaseRequired)
  : result PreparedCommit PrepareError :=
  let data := rr_data retry in
  match rebase_check fuel (cd_checkers data) (cd_working_sets data)
          (rr_checked_root retry) winner with
  | Err a => Err (PrepareAborted a)
  | Ok (ActualOverlap info) => Err (PrepareConflict (enrich_conflict_info winner info))
  | Ok _ =>
      Ok (mkPreparedCommit data winner
            (build_rebased_snapshot (cd_checkers data) (cd_working_sets data) winner
               (cd_tx_timestamp data) (caches_fork (cd_caches data)) (cd_bloom data)))
  end.

(** ** The commit loop *)

Inductive CommitResult :=
| CommitSuccess (mutations_made : bool) (timestamp : Timestamp)
| ConflictRetry (info : option ConflictInfo).

Inductive CommitOutcome :=
| Committed (r : CommitResult)
| CommitFailed (e : WorldStateError)
| CommitAborted (a : abort).

Definition outcome_of_error (e : PrepareError) : CommitOutcome :=
  match e with
  | PrepareConflict info => Committed (ConflictRetry (Some info))
  | PrepareDatabase e => CommitFailed e
  | PrepareAborted a => CommitAborted a
  end.

(** [attempts] rebases are left. [others n] is what the other threads do to the
    planes before this thread's next access to them: before the rebase loads
    the root (odd [n]) and before each attempt to publish (even [n]). *)
Fixpoint publish_loop (fuel attempts : nat) (others : nat → SnapshotPlanes → SnapshotPlanes)
    (prepared : PreparedCommit) (p : SnapshotPlanes) : SnapshotPlanes * CommitOutcome :=
  match try_publish prepared p with
  | (p', Ok data) => (p', Committed (CommitSuccess true (cd_tx_timestamp data)))
  | (p', Err retry) =>
      match attempts with
      | O => (p', Committed (ConflictRetry None))
      | S attempts' =>
          let p1 := others (2 * attempts' + 1)%nat p' in
          match rebase fuel (root_state p1) retry with
          | Err e => (p1, outcome_of_error e)
          | Ok prepared' =>
              publish_loop fuel attempts' others prepared' (others (2 * attempts')%nat p1)
          end
      end
  end.

Definition commit_writes (rels : Relations (P := P)) (fuel : nat) (admission : Admission)
    (others : nat → SnapshotPlanes → SnapshotPlanes) (ws : WorkingSets) (p : SnapshotPlanes)
  : SnapshotPlanes * CommitOutcome :=
  if negb (ws_has_mutations ws)
  then (publish_read_only_cache (tx_snapshot_version (ws_tx ws)) (ws_caches ws) p,
        Committed (CommitSuccess false (tx_ts (ws_tx ws))))
  else match prepare rels fuel (root_state p) admission ws with
  | Err e => (p, outcome_of_error e)
  | Ok prepared =>
      publish_loop fuel MAX_REBASE_ATTEMPTS others prepared
        (others (2 * MAX_REBASE_ATTEMPTS)%nat p)
  end.

(** ** The database *)

Record MoorDB := mkMoorDB {
  monotonic : Z;
  relations : Relations (P := P);
  snapshot_planes : SnapshotPlanes;
}.

Inductive DatabaseOpenError :=
| SeedRelation (r : DatabaseRelation) (e : Error)
| TransactionTimestampExhausted.

Definition try_open (sources : ∀ r, P r) : result MoorDB DatabaseOpenError :=
  let rels := init sources in
  match snapshot rels 0 0 caches_new with
  | Err (r, e) => Err (SeedRelation r e)
  | Ok initial_root =>
      if committed_ts initial_root =? u64_max then Err TransactionTimestampExhausted
      else Ok (mkMoorDB (Z.max (committed_ts initial_root + 1) 1) rels
                 (planes_new initial_root))
  end.

(** [fetch_add] wraps at 64 bits. *)
Definition acquire_tx_seed (db : MoorDB) : MoorDB * (Tx * WorldStateSnapshot * Caches) :=
  let '(snap, caches) := seed_caches (snapshot_planes db) in
  (mkMoorDB (wrap 64 (monotonic db + 1)) (relations db) (snapshot_planes db),
   (mkTx (monotonic db) (committed_ts snap) (version snap), snap, caches)).

Definition db_start_transaction (db : MoorDB) : MoorDB * WorldStateTransaction :=
  let '(db', (tx, snap, caches)) := acquire_tx_seed db in
  (db', Relations.start_transaction (relations db) tx snap caches).
End commit.
Arguments MoorDB {_} P.
Arguments SnapshotPlanes {_}.
