(* ===== verification/Publication.v ===== *)
(** The publication of a root by concurrent writers, one access to shared
    memory at a time (crates/db/src/engine/moor_db/snapshot_planes.rs,
    [try_publish_write_root]).

    [ArcSwap::rcu] loads the root pointer, runs the closure on what it points
    to, and swaps the pointer if it has not changed, or starts over. The closure
    tests the version and stores the cache publication before the swap. Roots
    are immutable once allocated, so a pointer stands for its snapshot: pointer
    0 is the root at the start, pointer [S i] the candidate of writer [i]. *)
From S2P Require Import Prelude Obj TxTypes RelIndex RelTx RelTxSpec CheckApply Bloom Model.
From S2P Require Import Verbs Caches.
From S2P Require Import Relations PropertyPolicy Commit.
From stdpp Require Import base gmap sets list strings fin_maps.

Open Scope Z_scope.

Section publication.
Context `{Hashes} `{Payload}.

(** A call of [try_publish_write_root]. *)
Record writer := mkWriter { expected_version : Z; next_root : WorldStateSnapshot }.

(** Where a writer is: about to load, about to run the closure on the pointer
    it loaded, about to swap that pointer for another, or finished. *)
Inductive wstate :=
| AtLoad
| AtClosure (current : nat)
| AtSwap (current new : nat) (success : bool)
| Finished (success : bool).

Record shared := mkShared {
  root_ptr : nat;
  cache_plane : CachePublication;
  wstates : list wstate;
  winners : list nat;
}.

Context (initial : WorldStateSnapshot) (writers : list writer).

Definition deref (ptr : nat) : WorldStateSnapshot :=
  match ptr with
  | O => initial
  | S i => match writers !! i with Some w => next_root w | None => initial end
  end.

Definition planes_of_shared (sh : shared) : SnapshotPlanes :=
  mkSnapshotPlanes (deref (root_ptr sh)) (cache_plane sh).

(** The next access of writer [i]. *)
Definition writer_access (i : nat) (w : writer) (st : wstate) (sh : shared) : shared :=
  let at_ st := <[i := st]> (wstates sh) in
  match st with
  | AtLoad => mkShared (root_ptr sh) (cache_plane sh) (at_ (AtClosure (root_ptr sh))) (winners sh)
  | AtClosure current =>
      if version (deref current) =? expected_version w
      then mkShared (root_ptr sh)
             (mkCachePublication (version (next_root w)) (snap_caches (next_root w)))
             (at_ (AtSwap current (S i) true)) (winners sh)
      else mkShared (root_ptr sh) (cache_plane sh) (at_ (AtSwap current current false)) (winners sh)
  | AtSwap current new success =>
      if bool_decide (root_ptr sh = current)
      then mkShared new (cache_plane sh) (at_ (Finished success))
             (if success then winners sh ++ [i] else winners sh)
      else mkShared (root_ptr sh) (cache_plane sh) (at_ AtLoad) (winners sh)
  | Finished _ => sh
  end.

Definition access (sh : shared) (i : nat) : shared :=
  match writers !! i, wstates sh !! i with
  | Some w, Some st => writer_access i w st sh
  | _, _ => sh
  end.

(** Any interleaving: each element of the schedule is a writer's next access. *)
Definition run (schedule : list nat) (sh : shared) : shared := fold_left access schedule sh.

Definition at_start (cache : CachePublication) : shared :=
  mkShared 0 cache (replicate (length writers) AtLoad) [].

(** ** The root plane *)

Record pub_inv (sh : shared) : Prop := {
  pi_length : length (wstates sh) = length writers;
  pi_writers i : i ∈ winners sh → ∃ w, writers !! i = Some w ∧ wstates sh !! i = Some (Finished true);
  pi_finished i : wstates sh !! i = Some (Finished true) → i ∈ winners sh;
  pi_root : root_ptr sh = from_option S 0%nat (last (winners sh));
  pi_chain : (λ i, expected_version <$> writers !! i) <$> winners sh =
    Some <$> seqZ (version initial) (Z.of_nat (length (winners sh)));
  pi_version : version (deref (root_ptr sh)) = version initial + Z.of_nat (length (winners sh));
  pi_swap i current new : wstates sh !! i = Some (AtSwap current new true) →
    new = S i ∧ ∃ w, writers !! i = Some w ∧ version (deref current) = expected_version w;
  pi_same i current new : wstates sh !! i = Some (AtSwap current new false) → new = current;
}.

(** Every candidate is one version above the root it was built on. *)
Context (Hnext : ∀ i w, writers !! i = Some w → version (next_root w) = expected_version w + 1).

Lemma pub_inv_start cache : pub_inv (at_start cache).
Proof.
  assert (∀ i st, replicate (length writers) AtLoad !! i = Some st → st = AtLoad) as Hload.
  { intros i st Hi. by apply lookup_replicate in Hi as [-> _]. }
  split; cbn [at_start wstates winners root_ptr cache_plane length]; try done.
  - by rewrite length_replicate.
  - intros i Hi. by apply elem_of_nil in Hi.
  - intros i Hi. by apply Hload in Hi.
  - simpl. lia.
  - intros i c n Hi. by apply Hload in Hi.
  - intros i c n Hi. by apply Hload in Hi.
Qed.

(** A writer moves to a state that publishes nothing. *)
Lemma pub_inv_move sh i w st cache :
  pub_inv sh → writers !! i = Some w →
  (∀ b, wstates sh !! i ≠ Some (Finished b)) →
  (∀ current new, st = AtSwap current new true →
     new = S i ∧ version (deref current) = expected_version w) →
  (∀ current new, st = AtSwap current new false → new = current) →
  st ≠ Finished true →
  pub_inv (mkShared (root_ptr sh) cache (<[i := st]> (wstates sh)) (winners sh)).
Proof.
  intros [Hl Hw Hf Hr Hc Hv Hs He] Hi Hrun Hswap Hsame Hfin.
  split; cbn [wstates winners root_ptr cache_plane]; try done.
  - by rewrite length_insert.
  - intros j Hj. destruct (Hw j Hj) as (w' & Hw' & Hst). exists w'. split; [done|].
    rewrite list_lookup_insert_ne; [done|]. intros ->. by apply (Hrun true).
  - intros j Hj. apply list_lookup_insert_Some in Hj as [(-> & -> & _)|[_ Hj]]; [done|by apply Hf].
  - intros j c n Hj. apply list_lookup_insert_Some in Hj as [(-> & -> & _)|[_ Hj]]; [|by apply Hs].
    destruct (Hswap c n eq_refl) as [-> Hver]. split; [done|]. by exists w.
  - intros j c n Hj. apply list_lookup_insert_Some in Hj as [(-> & -> & _)|[_ Hj]];
      [by apply Hsame|by apply (He j)].
Qed.

Lemma pub_inv_win sh i w current :
  pub_inv sh → writers !! i = Some w →
  wstates sh !! i = Some (AtSwap current (S i) true) → root_ptr sh = current →
  pub_inv (mkShared (S i) (cache_plane sh) (<[i := Finished true]> (wstates sh))
             (winners sh ++ [i])).
Proof.
  intros Hinv Hi Hst <-. destruct (pi_swap _ Hinv _ _ _ Hst) as (_ & w' & Hw' & Hver).
  assert (w' = w) as -> by congruence. destruct Hinv as [Hl Hw Hf Hr Hc Hv Hs He].
  assert (i < length (wstates sh))%nat as Hlt by (by eapply lookup_lt_Some).
  split; cbn [wstates winners root_ptr cache_plane].
  - by rewrite length_insert.
  - intros j [Hj|Hj]%elem_of_app; [|apply list_elem_of_singleton in Hj as ->].
    + destruct (decide (j = i)) as [->|Hne]; [|by rewrite list_lookup_insert_ne by done; apply Hw].
      exists w. by rewrite list_lookup_insert_eq.
    + exists w. by rewrite list_lookup_insert_eq.
  - intros j Hj. apply list_lookup_insert_Some in Hj as [(-> & _ & _)|[_ Hj]]; apply elem_of_app;
      [right; by constructor|left; by apply Hf].
  - by rewrite last_snoc.
  - rewrite fmap_app, Hc, length_app. cbn [length fmap list_fmap]. rewrite Hi. cbn [fmap option_fmap option_map].
    rewrite Nat2Z.inj_add, seqZ_app by lia. rewrite fmap_app. do 2 f_equal.
    cbn. rewrite <-Hver, Hv. done.
  - simpl. rewrite Hi, (Hnext i w Hi), <-Hver, Hv, length_app. simpl. lia.
  - intros j c n Hj. apply list_lookup_insert_Some in Hj as [(-> & [=] & _)|[_ Hj]]. by apply Hs.
  - intros j c n Hj. apply list_lookup_insert_Some in Hj as [(-> & [=] & _)|[_ Hj]]. by apply (He j).
Qed.

Lemma pub_inv_access sh i : pub_inv sh → pub_inv (access sh i).
Proof.
  intros Hinv. unfold access. destruct (writers !! i) as [w|] eqn:Hi; [|done].
  destruct (wstates sh !! i) as [st|] eqn:Hst; [|done].
  destruct st as [|current|current new success|]; cbn [writer_access]; [| | |done].
  - apply (pub_inv_move _ _ w); try done. by rewrite Hst.
  - destruct (Z.eqb_spec (version (deref current)) (expected_version w)) as [He|_];
      (apply (pub_inv_move _ _ w); try done; [by rewrite Hst|..]); intros c n [= <- <-]; done.
  - case_bool_decide as Hptr.
    + destruct success.
      * destruct (pi_swap _ Hinv _ _ _ Hst) as [-> _]. by eapply pub_inv_win.
      * rewrite (pi_same _ Hinv _ _ _ Hst), <-Hptr. apply (pub_inv_move _ _ w); try done.
        by rewrite Hst.
    + apply (pub_inv_move _ _ w); try done. by rewrite Hst.
Qed.

Lemma pub_inv_run schedule sh : pub_inv sh → pub_inv (run schedule sh).
Proof.
  revert sh. induction schedule as [|i schedule IH]; intros sh Hinv; [done|].
  apply IH. by apply pub_inv_access.
Qed.

(** C38: publication by any number of writers, under every interleaving of their
    accesses, is serial on the root plane: the writers that report success are
    those that replaced the root, each replaced the root of exactly the version
    it expected, one after the other without a gap or a repetition, and the
    root is the candidate of the last. *)
Theorem publication_root_serial (schedule : list nat) (cache : CachePublication) :
  let sh := run schedule (at_start cache) in
  (∀ i, i ∈ winners sh ↔ wstates sh !! i = Some (Finished true)) ∧
  (λ i, expected_version <$> writers !! i) <$> winners sh =
    Some <$> seqZ (version initial) (Z.of_nat (length (winners sh))) ∧
  NoDup (winners sh) ∧
  root_state (planes_of_shared sh) =
    match last (winners sh) with
    | Some i => from_option next_root initial (writers !! i)
    | None => initial
    end.
Proof.
  intros sh. assert (pub_inv sh) as Hinv by apply pub_inv_run, pub_inv_start.
  destruct Hinv as [Hl Hw Hf Hr Hc Hv Hs He]. split_and!; [|done| |].
  - intros i. split; [|apply Hf]. intros Hi. by destruct (Hw i Hi) as (w & _ & ?).
  - apply (NoDup_fmap_1 (λ i, expected_version <$> writers !! i)). rewrite Hc.
    apply NoDup_fmap_2; [by intros ?? [=]|apply NoDup_seqZ].
  - unfold planes_of_shared. cbn [root_state]. rewrite Hr.
    destruct (last (winners sh)) as [i|]; [|done]. simpl. by destruct (writers !! i).
Qed.

(** A writer whose accesses are not interleaved with others' is one atomic
    [try_publish_write_root]. *)
Lemma publication_alone sh i w :
  writers !! i = Some w → wstates sh !! i = Some AtLoad →
  let sh' := run [i; i; i] sh in
  let '(p, success) := try_publish_write_root (expected_version w) (next_root w)
                         (planes_of_shared sh) in
  planes_of_shared sh' = p ∧ wstates sh' !! i = Some (Finished success).
Proof.
  intros Hi Hst. assert (i < length (wstates sh))%nat as Hlt by (by eapply lookup_lt_Some).
  cbn [run fold_left]. unfold access. rewrite Hi, Hst. cbn [writer_access wstates].
  rewrite list_lookup_insert_eq by done. cbn [writer_access root_ptr].
  unfold try_publish_write_root. cbn [planes_of_shared root_state].
  destruct (version (deref (root_ptr sh)) =? expected_version w); cbn [wstates];
    rewrite list_lookup_insert_eq by (by rewrite length_insert);
    cbn [writer_access root_ptr winners cache_plane wstates];
    rewrite bool_decide_eq_true_2 by done; unfold planes_of_shared;
    cbn [root_ptr cache_plane wstates];
    rewrite list_lookup_insert_eq by (by rewrite !length_insert).
  - split; [|done]. unfold deref at 1. by rewrite Hi.
  - done.
Qed.
End publication.
