(* ===== verification/CommitProofs.v ===== *)
(** What preparing, publishing and rebasing a commit do: which conditions a
    prepared commit has passed, and the contents of the snapshot it offers. *)
From S2P Require Import Prelude Obj TxTypes RelIndex RelTx RelTxSpec CheckApply CheckApplyProofs.
From S2P Require Import Verbs Caches.
From S2P Require Import Bloom Model Relations PropertyPolicy Commit.
From Stdlib Require Import FunctionalExtensionality.
From stdpp Require Import base gmap sets list strings fin_maps.

Open Scope Z_scope.

#[local] Arguments is_provider_fully_loaded : simpl never.
#[local] Arguments set_provider_fully_loaded : simpl never.
#[local] Arguments idx_entries : simpl never.
#[local] Arguments idx_inv : simpl never.
#[local] Arguments index_lookup : simpl never.

(** ** Families *)

Lemma dupd_id {R} `{EqDecision R} {P : R → Type} (r : R) (f : ∀ r, P r) : dupd r (f r) f = f.
Proof.
  apply functional_extensionality_dep. intros r'.
  destruct (decide (r = r')) as [<-|Hne]; [apply dupd_eq|by apply dupd_ne].
Qed.

Lemma ALL_complete r : r ∈ ALL.
Proof. apply list_elem_of_In. destruct r; simpl; tauto. Qed.

Lemma ALL_NoDup : NoDup ALL.
Proof. apply (bool_decide_unpack _). vm_compute. exact I. Qed.

Section proofs.
Context `{Hashes} `{Payload}.
Context {P : DatabaseRelation → Type} `{∀ r, Provider (P r) (DomainOf r) (CodomainOf r)}.
Implicit Types ws : RelationWorkingSets.
Implicit Types s root winner : WorldStateSnapshot.

Definition ops ws r : gmap (DomainOf r) (Op (CodomainOf r)) := WorkingSet.tuples (rws ws r).
Definition rows_of s r : gmap (DomainOf r) (Entry (CodomainOf r)) := idx_entries (snap_index s r).

Lemma with_working_id r ws : with_working r (rws ws r) ws = ws.
Proof. unfold with_working. rewrite dupd_id. by destruct ws. Qed.

Lemma elem_of_keys {r} (w : Working r) d :
  d ∈ keys w ↔ is_Some (WorkingSet.tuples w !! d).
Proof.
  unfold keys. rewrite list_elem_of_fmap. split.
  - intros ([d' op] & -> & Hin%elem_of_map_to_list). by eexists.
  - intros [op Hop]. exists (d, op). split; [done|by apply elem_of_map_to_list].
Qed.

(** ** Clearing hints *)

Definition same_kind {C} (o o' : OpType C) : Prop :=
  match o, o' with
  | OpInsert _, OpInsert _ | OpUpdate _, OpUpdate _ | OpDelete, OpDelete => True
  | _, _ => False
  end.

(** Two operations that differ in the value they write only. *)
Definition same_shape {C} (op op' : Op C) : Prop :=
  read_ts op = read_ts op' ∧ write_ts op = write_ts op' ∧
  guaranteed_unique op = guaranteed_unique op' ∧ same_kind (operation op) (operation op').

Lemma same_shape_refl {C} (op : Op C) : same_shape op op.
Proof. unfold same_shape, same_kind. by destruct (operation op). Qed.

Lemma same_shape_option {C} (f : Op C → Op C) (o : option (Op C)) :
  (∀ op, same_shape (f op) op) →
  match o ≫= λ op, Some (f op), o with
  | Some op', Some op => same_shape op' op
  | None, None => True
  | _, _ => False
  end.
Proof. intros Hf. destruct o; simpl; [apply Hf|done]. Qed.

Lemma clear_hints_flags ws :
  rws (clear_clobber_hints ws) ObjectPropflags = rws ws ObjectPropflags.
Proof. unfold clear_clobber_hints, with_working; simpl. by apply dupd_ne. Qed.

Lemma clear_hints_can_clobber ws r : can_clobber (clear_clobber_hints ws) r = can_clobber ws r.
Proof. by destruct r; simpl; rewrite ?clear_hints_flags. Qed.

Lemma clear_clobber_op_shape flags key op : same_shape (clear_clobber_op flags key op) op.
Proof.
  unfold clear_clobber_op. destruct (negb _); [apply same_shape_refl|].
  destruct (operation op) eqn:Hop; unfold same_shape; simpl; rewrite ?Hop; by split_and!.
Qed.

Lemma clear_hints_ops ws r d :
  match ops (clear_clobber_hints ws) r !! d, ops ws r !! d with
  | Some op', Some op => same_shape op' op
  | None, None => True
  | _, _ => False
  end.
Proof.
  unfold ops, clear_clobber_hints, with_working; simpl.
  destruct (decide (ObjectPropvalues = r)) as [<-|Hne].
  - rewrite dupd_eq. simpl. rewrite map_lookup_imap.
    exact (same_shape_option (clear_clobber_op (rws ws ObjectPropflags) d)
      (WorkingSet.tuples (rws ws ObjectPropvalues) !! d)
      (clear_clobber_op_shape (rws ws ObjectPropflags) d)).
  - rewrite dupd_ne by done. destruct (WorkingSet.tuples (rws ws r) !! d); [|done].
    apply same_shape_refl.
Qed.

Lemma same_shape_provenance {C} own (row : option (Entry C)) op op' :
  same_shape op' op → op_provenance own row op → op_provenance own row op'.
Proof.
  intros (Hr & Hw & _ & Hk) [Hw' Hp]. unfold op_provenance. rewrite Hr, Hw.
  split; [done|]. unfold same_kind in Hk. destruct (operation op'), (operation op); try done.
Qed.

(** ** The checkers *)

(** A checker at work on a loaded index, with a store that answers. *)
Record checker_ok {r} (c : Checker (P := P) r) : Prop := {
  co_loaded : is_provider_fully_loaded (CheckRelation.index c) = true;
  co_source : ∃ pm, ProviderModel (CheckRelation.source c) pm;
}.

Definition blocked_op ws r (m : gmap (DomainOf r) (Entry (CodomainOf r))) d op
  : option ConflictType := if can_clobber ws r d then None else conflict_of (m !! d) op.

(** The outcome of checking relation [r]: everything passed and nothing moved,
    or a conflict. *)
Definition check_outcome r ws (c : Checker (P := P) r)
    (res : result (Checker (P := P) r * Working r) Error) : Prop :=
  (∃ c', res = Ok (c', rws ws r) ∧
     CheckRelation.index c' = CheckRelation.index c ∧
     CheckRelation.source c' = CheckRelation.source c ∧
     CheckRelation.relation_name c' = CheckRelation.relation_name c ∧
     ∀ d op, ops ws r !! d = Some op →
       blocked_op ws r (idx_entries (CheckRelation.index c)) d op = None) ∨
  (∃ info, res = Err (Conflict info)).

Lemma check_with_outcome r ws (c : Checker (P := P) r) (R : Type)
    (HR : ConflictResolver R (DomainOf r) (CodomainOf r)) (rsv : R) :
  checker_ok c → ops_ordered (rws ws r) →
  (∀ pc, resolve rsv pc = if can_clobber ws r (pc_domain pc) then Ok (rsv, Accept)
                          else Err (Conflict (pc_info pc))) →
  check_outcome r ws c (CheckRelation.check_with_resolver (rws ws r) rsv c).
Proof.
  intros [Hl [pm Hp]] Hord Hres.
  destruct (check_with_resolver_spec pm (can_clobber ws r) rsv Hres (rws ws r) c Hp Hord)
    as [(c' & Hc & Hcr & Hall)|(d & op & ct & _ & _ & Hc)]; [left|right; eauto].
  exists c'. split; [done|]. destruct Hcr as [Hs Hn _ _ _ _ Hi].
  split_and!; [exact (Hi Hl)|exact Hs|exact Hn|].
  intros d op Hop. specialize (Hall d op Hop). unfold blocked, rows, snapshot_rows in Hall.
  by rewrite Hl in Hall.
Qed.

Lemma if_result {A B E} (b : bool) (a : A) (e : E) (f : A → B) :
  (let? x := (if b then Ok a else Err e) in Ok (f x)) = if b then Ok (f a) else Err e.
Proof. by destruct b. Qed.

Lemma check_relation_spec r ws (c : Checker (P := P) r) :
  checker_ok c → ops_ordered (rws ws r) → check_outcome r ws c (check_relation r ws c).
Proof.
  intros Hc Hord.
  destruct r; try (apply (check_with_outcome _ ws c FailOnConflict _ mkFailOnConflict); done).
  apply (check_with_outcome ObjectPropvalues ws c _ _ (clobber_resolver (rws ws ObjectPropflags)));
    [done|done|].
  intros pc. exact (if_result (property_can_clobber (rws ws ObjectPropflags) (pc_domain pc))
    Accept (Conflict (pc_info pc)) (pair (clobber_resolver (rws ws ObjectPropflags)))).
Qed.

(** ** All relations *)

(** The checkers present are exactly those of the written relations. *)
Definition checkers_present (cs : RelationCheckers (P := P)) ws : Prop :=
  ∀ r, match cs r with
       | Some c => ops ws r ≠ ∅ ∧ checker_ok c
       | None => ops ws r = ∅
       end.

Lemma is_empty_ops ws r : WorkingSet.is_empty (rws ws r) = bool_decide (ops ws r = ∅).
Proof. done. Qed.

Definition set_checker r (c : Checker r) (cs : RelationCheckers (P := P)) : RelationCheckers :=
  dupd (P := λ r, option (Checker r)) r (Some c) cs.

Lemma set_checker_eq r c cs : set_checker r c cs r = Some c.
Proof. exact (dupd_eq (P := λ r, option (Checker r)) r (Some c) cs). Qed.
Lemma set_checker_ne r r' c cs : r ≠ r' → set_checker r c cs r' = cs r'.
Proof. exact (dupd_ne (P := λ r, option (Checker r)) r r' (Some c) cs). Qed.

Lemma set_checker_present r c c' cs ws :
  checkers_present cs ws → cs r = Some c → checker_ok c' →
  checkers_present (set_checker r c' cs) ws.
Proof.
  intros Hcs Hc Hok r'. destruct (decide (r = r')) as [<-|Hne].
  - rewrite set_checker_eq. specialize (Hcs r). rewrite Hc in Hcs. naive_solver.
  - rewrite set_checker_ne by done. apply Hcs.
Qed.

Lemma check_all_step_cases ws cs r :
  checkers_present cs ws → ops_ordered (rws ws r) →
  (ops ws r = ∅ ∧ check_all_step (cs, ws) r = Ok (cs, ws)) ∨
  (∃ c c', cs r = Some c ∧ check_all_step (cs, ws) r = Ok (set_checker r c' cs, ws) ∧
     CheckRelation.index c' = CheckRelation.index c ∧ checker_ok c' ∧
     ∀ d op, ops ws r !! d = Some op →
       blocked_op ws r (idx_entries (CheckRelation.index c)) d op = None) ∨
  (∃ info, check_all_step (cs, ws) r = Err (Failed info)).
Proof.
  intros Hcs Hord. pose proof (Hcs r) as Hr. unfold check_all_step. rewrite is_empty_ops.
  case_bool_decide as He; [by left|right].
  destruct (cs r) as [c|] eqn:Hc; [|done]. destruct Hr as [_ Hok].
  destruct (check_relation_spec r ws c Hok Hord)
    as [(c' & -> & Hi & Hs & _ & Hb)|[info ->]]; [left|right; eauto].
  exists c, c'. rewrite with_working_id. split_and!; try done.
  destruct Hok as [Hl Hsrc]. split; [by rewrite Hi|by rewrite Hs].
Qed.

Lemma check_all_loop ws l cs :
  checkers_present cs ws → (∀ r, ops_ordered (rws ws r)) → NoDup l →
  (∃ cs', fold_res check_all_step (cs, ws) l = Ok (cs', ws) ∧ checkers_present cs' ws ∧
     (∀ r c', cs' r = Some c' → ∃ c, cs r = Some c ∧
        CheckRelation.index c' = CheckRelation.index c) ∧
     ∀ r c d op, r ∈ l → cs r = Some c → ops ws r !! d = Some op →
       blocked_op ws r (idx_entries (CheckRelation.index c)) d op = None) ∨
  (∃ info, fold_res check_all_step (cs, ws) l = Err (Failed info)).
Proof.
  revert cs. induction l as [|r l IH]; intros cs Hcs Hord Hnd; cbn [fold_res].
  { left. exists cs. split_and!; [done|done|eauto|]. by intros ???? Hin%elem_of_nil. }
  apply NoDup_cons in Hnd as [Hn Hnd].
  destruct (check_all_step_cases ws cs r Hcs (Hord r))
    as [[He ->]|[(c & c' & Hc & -> & Hi & Hok & Hb)|[info ->]]]; [| |right; eauto].
  { destruct (IH cs Hcs Hord Hnd) as [(cs' & Hf & Hp & Hi & Hall)|Hf]; [left|by right].
    exists cs'. split_and!; [done|done|done|].
    intros r' c d op [->|Hin]%elem_of_cons Hc Hop; [|by eapply Hall].
    by rewrite He, lookup_empty in Hop. }
  destruct (IH (set_checker r c' cs)) as [(cs' & Hf & Hp & Hi' & Hall)|Hf];
    [by eapply set_checker_present|done|done| |by right].
  left. exists cs'. split_and!; [done|done| |].
  - intros r' c1 Hc1. destruct (Hi' r' c1 Hc1) as (c2 & Hc2 & Heq).
    destruct (decide (r = r')) as [<-|Hne']; [|rewrite set_checker_ne in Hc2 by done; eauto].
    rewrite set_checker_eq in Hc2. simplify_eq. exists c. split; [done|]. by rewrite Heq.
  - intros r' c1 d op [->|Hin]%elem_of_cons Hc1 Hop; [simplify_eq; by apply Hb|].
    apply (Hall r' c1 d op Hin); [|done]. rewrite set_checker_ne; [done|]. by intros ->.
Qed.

(** Preparing the indexes of every written relation, and the filter of the keys. *)
Lemma prepare_apply_loop ws l cs b :
  checkers_present cs ws → NoDup l →
  ∃ cs', fold_res (prepare_apply_step ws) (cs, b) l =
    Ok (cs', fold_left (λ bloom r, CommitBloom.insert_keys (keys (rws ws r)) bloom) l b) ∧
    ∀ r, cs' r = if decide (r ∈ l) then CheckRelation.prepare_indexes (rws ws r) <$> cs r
                 else cs r.
Proof.
  revert cs b. induction l as [|r l IH]; intros cs b Hcs Hnd; cbn [fold_res fold_left].
  { exists cs. split; [done|]. intros r. by rewrite decide_False by apply not_elem_of_nil. }
  apply NoDup_cons in Hnd as [Hn Hnd]. pose proof (Hcs r) as Hr.
  assert (prepare_apply_step ws (cs, b) r =
    Ok (match cs r with
        | Some c => set_checker r (CheckRelation.prepare_indexes (rws ws r) c) cs
        | None => cs
        end, CommitBloom.insert_keys (keys (rws ws r)) b)) as ->.
  { unfold prepare_apply_step. rewrite is_empty_ops. case_bool_decide as He.
    - destruct (cs r); [naive_solver|]. unfold keys. fold (ops ws r). by rewrite He.
    - by destruct (cs r). }
  destruct (IH (match cs r with
        | Some c => set_checker r (CheckRelation.prepare_indexes (rws ws r) c) cs
        | None => cs
        end) (CommitBloom.insert_keys (keys (rws ws r)) b)) as (cs' & Hf & Hcs'); [|done|].
  { destruct (cs r) as [c|] eqn:Hc; [|done]. eapply set_checker_present; [done|done|].
    destruct Hr as [_ [Hl Hs]]. pose proof (prepare_indexes_spec (rws ws r) c) as Hp.
    cbn zeta in Hp. destruct Hp as (_ & _ & _ & Hsrc & _ & Hload).
    split; [rewrite Hload, Hl; apply orb_true_r|by rewrite Hsrc]. }
  exists cs'. split; [exact Hf|]. intros r'. rewrite Hcs'.
  destruct (decide (r = r')) as [<-|Hne].
  - rewrite decide_False, decide_True by (done || constructor).
    destruct (cs r) eqn:Hc; [by rewrite set_checker_eq|by rewrite Hc].
  - assert ((match cs r with
        | Some c => set_checker r (CheckRelation.prepare_indexes (rws ws r) c) cs
        | None => cs
        end) r' = cs r') as ->.
    { destruct (cs r); [by apply set_checker_ne|done]. }
    destruct (decide (r' ∈ l)).
    + by rewrite decide_True by (by constructor).
    + rewrite decide_False; [done|]. by intros [->|?]%elem_of_cons.
Qed.

(** ** Filters of the written keys *)

Definition bloom_covers (b : CommitBloom.t) (w : ∀ r, Working r) : Prop :=
  CommitBloom.wf b ∧
  ∀ r d, is_Some (WorkingSet.tuples (w r) !! d) → CommitBloom.might_contain d b = true.

Lemma bloom_of_keys_covers (w : ∀ r, Working r) : bloom_covers (bloom_of_keys w) w.
Proof.
  unfold bloom_of_keys.
  assert (∀ l b, CommitBloom.wf b →
    let b' := fold_left (λ bloom r, CommitBloom.insert_keys (keys (w r)) bloom) l b in
    CommitBloom.wf b' ∧
    (∀ r d, r ∈ l → is_Some (WorkingSet.tuples (w r) !! d) →
       CommitBloom.might_contain d b' = true) ∧
    (∀ r (d : DomainOf r), CommitBloom.might_contain d b = true →
       CommitBloom.might_contain d b' = true)) as Hall.
  { induction l as [|r l IH]; intros b Hb; cbn zeta; cbn [fold_left].
    { split_and!; [done| |done]. by intros r d Hr%elem_of_nil. }
    assert (CommitBloom.wf (CommitBloom.insert_keys (keys (w r)) b)) as Hb1
      by (by apply CommitBloom.insert_keys_wf).
    destruct (IH _ Hb1) as (Hwf & Hin & Hmono). split_and!; [done| |].
    - intros r' d [->|Hr]%elem_of_cons Hd; [|by apply Hin].
      apply Hmono, CommitBloom.insert_keys_covers; [done|]. by apply elem_of_keys.
    - intros r' d Hd. apply Hmono. by apply CommitBloom.insert_keys_mono. }
  destruct (Hall ALL CommitBloom.new CommitBloom.new_wf) as (Hwf & Hin & _).
  split; [exact Hwf|]. intros r d. apply Hin, ALL_complete.
Qed.

(** ** Candidates *)

(** [cand] is the snapshot that follows [root] when [ws] is committed. *)
Record candidate_of ws (ts : Timestamp) root (cand : WorldStateSnapshot) : Prop := {
  cand_version : version cand = version root + 1;
  cand_ts : committed_ts cand = Z.max (committed_ts root) ts;
  cand_rows r : rows_of cand r = commit_overlay (ops ws r) (rows_of root r);
  cand_loaded r : is_provider_fully_loaded (snap_index root r) = true →
    is_provider_fully_loaded (snap_index cand r) = true;
  cand_inv r : idx_inv (snap_index root r) → idx_inv (snap_index cand r);
  cand_bloom : ∃ b, commit_bloom cand = Some b ∧ bloom_covers b (rws ws) ∧
    (bloom_since_version cand = version root ∨
     (bloom_since_version cand = bloom_since_version root ∧
      ∃ b0, commit_bloom root = Some b0 ∧
        ∀ r (d : DomainOf r), CommitBloom.might_contain d b0 = true →
          CommitBloom.might_contain d b = true));
}.

(** Checkers that carry the prepared indexes of the written relations. *)
Definition rebase_ready (cs : RelationCheckers (P := P)) ws : Prop :=
  ∀ r, match cs r with
       | Some c => ops ws r ≠ ∅ ∧ CheckRelation.dirty c = true
       | None => ops ws r = ∅
       end.

Lemma merge_bloom_covers b b0 (w : ∀ r, Working r) :
  bloom_covers b w →
  bloom_covers (CommitBloom.merge b0 b) w ∧
  ∀ r (d : DomainOf r), CommitBloom.might_contain d b0 = true →
    CommitBloom.might_contain d (CommitBloom.merge b0 b) = true.
Proof.
  intros [Hwf Hin]. split; [split|].
  - by apply CommitBloom.merge_wf.
  - intros r d Hd. apply CommitBloom.merge_covers; auto.
  - intros r d Hd. apply CommitBloom.merge_covers; auto.
Qed.

Lemma build_snapshot_candidate ws (cs0 cs : RelationCheckers (P := P)) root ts caches b :
  checkers_present cs0 ws →
  (∀ r c, cs0 r = Some c → CheckRelation.index c = snap_index root r) →
  (∀ r, cs r = CheckRelation.prepare_indexes (rws ws r) <$> cs0 r) →
  bloom_covers b (rws ws) →
  candidate_of ws ts root (build_snapshot cs root ts caches b) ∧ rebase_ready cs ws.
Proof.
  intros Hp Hi Hcs Hb.
  assert (∀ r, match cs r with
    | Some c => ops ws r ≠ ∅ ∧ CheckRelation.dirty c = true ∧
        idx_entries (CheckRelation.index c) = commit_overlay (ops ws r) (rows_of root r) ∧
        (idx_inv (snap_index root r) → idx_inv (CheckRelation.index c)) ∧
        (is_provider_fully_loaded (snap_index root r) = true →
         is_provider_fully_loaded (CheckRelation.index c) = true)
    | None => ops ws r = ∅ end) as Hall.
  { intros r. specialize (Hp r). rewrite Hcs. destruct (cs0 r) as [c|] eqn:Hc; simpl; [|done].
    destruct Hp as [Hne _]. pose proof (prepare_indexes_spec (rws ws r) c) as Hps.
    cbn zeta in Hps. destruct Hps as (He & Hd & _ & _ & Hinv & Hl).
    rewrite (Hi r c Hc) in *. split; [done|]. rewrite Hd, is_empty_ops, bool_decide_eq_false_2
      by done. split; [apply orb_true_r|]. split_and!; [done|done|].
    intros Hlr. rewrite Hl, Hlr. apply orb_true_r. }
  split; [|intros r; specialize (Hall r); by destruct (cs r); naive_solver].
  unfold build_snapshot. destruct (merge_bloom_covers b (default b (commit_bloom root)) _ Hb)
    as [Hm1 Hm2].
  set (bs := match commit_bloom root with Some _ => _ | None => _ end).
  destruct bs as [b' since] eqn:Hbs. subst bs. split; simpl.
  - done.
  - done.
  - intros r. specialize (Hall r). unfold rows_of in *. simpl. destruct (cs r) as [c|].
    + unfold CheckRelation.snapshot_index_or. destruct Hall as (_ & -> & He & _). exact He.
    + by rewrite Hall, commit_overlay_empty.
  - intros r. specialize (Hall r). destruct (cs r) as [c|]; [|done].
    unfold CheckRelation.snapshot_index_or. destruct Hall as (_ & -> & _ & _ & Hl). exact Hl.
  - intros r. specialize (Hall r). destruct (cs r) as [c|]; [|done].
    unfold CheckRelation.snapshot_index_or. destruct Hall as (_ & -> & _ & Hinv & _). exact Hinv.
  - exists b'. split; [done|]. destruct (commit_bloom root) as [b0|] eqn:Hb0;
      [destruct (_ <? _)|]; simplify_eq/=; [|by auto..]. split; [done|]. right. eauto.
Qed.

Lemma build_rebased_candidate ws (cs : RelationCheckers (P := P)) winner ts caches b :
  rebase_ready cs ws → bloom_covers b (rws ws) → is_Some (commit_bloom winner) →
  candidate_of ws ts winner (build_rebased_snapshot cs ws winner ts caches b).
Proof.
  intros Hcs Hb [b0 Hb0]. unfold build_rebased_snapshot. rewrite Hb0.
  destruct (merge_bloom_covers b b0 _ Hb) as [Hm1 Hm2].
  set (bs := if _ : bool then _ else _). destruct bs as [b' since] eqn:Hbs. subst bs.
  assert (∀ r c, cs r = Some c →
    let i := CheckRelation.rebased_snapshot_index c (snap_index winner r) (rws ws r) in
    idx_entries i = commit_overlay (ops ws r) (rows_of winner r) ∧
    (idx_inv (snap_index winner r) → idx_inv i) ∧
    (is_provider_fully_loaded (snap_index winner r) = true →
     is_provider_fully_loaded i = true)) as Hall.
  { intros r c Hc. specialize (Hcs r). rewrite Hc in Hcs. destruct Hcs as [_ Hd].
    pose proof (rebased_snapshot_index_spec (rws ws r) c (snap_index winner r) Hd) as Hr.
    cbn zeta in *. destruct Hr as (He & Hinv & Hl). split_and!; [done|done|].
    intros Hlr. rewrite Hl, Hlr. apply orb_true_r. }
  split; simpl.
  - done.
  - done.
  - intros r. specialize (Hcs r). specialize (Hall r). unfold rows_of in *. simpl.
    destruct (cs r) as [c|]; [apply (Hall c eq_refl)|by rewrite Hcs, commit_overlay_empty].
  - intros r. specialize (Hall r). destruct (cs r) as [c|]; [apply (Hall c eq_refl)|done].
  - intros r. specialize (Hall r). destruct (cs r) as [c|]; [apply (Hall c eq_refl)|done].
  - exists b'. split; [done|]. destruct (_ <? _); simplify_eq/=; [|by auto].
    split; [done|]. right. eauto.
Qed.

(** ** Policies never panic *)

Lemma fold_res_error {A S E} (f : S → A → result S E) (Q : E → Prop) l st e :
  (∀ st a e, f st a = Err e → Q e) → fold_res f st l = Err e → Q e.
Proof.
  intros Hf. revert st. induction l as [|a l IH]; intros st Hl; simplify_eq/=.
  destruct (f st a) as [st'|e'] eqn:Hfa; simplify_eq/=; [by eapply IH|by eapply Hf].
Qed.

Lemma validate_error ws s r key a : validate ws s r key = Err a → a ≠ Panicked.
Proof. unfold validate. destruct (relation_key_unchanged _ _ _); naive_solver. Qed.

Lemma check_ancestry_error fuel ws s key local object a :
  check_ancestry fuel ws s key local object = Err a → a ≠ Panicked.
Proof.
  revert object. induction fuel as [|fuel IH]; intros object; cbn [check_ancestry];
    [naive_solver|]. case_bool_decide; [naive_solver|].
  repeat (let He := fresh in destruct (validate _ _ _ _) as [[]|?] eqn:He at 1;
    [clear He|intros [= ->]; by eapply validate_error]).
  destruct (_ ≫= _); [destruct local; [naive_solver|apply validate_error]|].
  destruct (final_value _ _); [apply IH|naive_solver].
Qed.

Lemma policies_error fuel ws s a : check_property_policies fuel ws s = Err a → a ≠ Panicked.
Proof.
  unfold check_property_policies.
  destruct (fold_res (check_owner_change ws s) _ _) as [[]|a1] eqn:H1'; cycle 1.
  { intros [= ->]. revert H1'. apply (fold_res_error _ (λ a, a ≠ Panicked)).
    intros st o e. unfold check_owner_change.
    repeat (let He := fresh in destruct (validate _ _ _ _) as [[]|?] eqn:He at 1;
      [clear He|intros [= ->]; by eapply validate_error]). done. }
  destruct (fold_res (check_inherited_policy ws s) _ _) as [[]|a2] eqn:H2'; cycle 1.
  { intros [= ->]. revert H2'. apply (fold_res_error _ (λ a, a ≠ Panicked)).
    intros st o e. unfold check_inherited_policy. destruct (_ && _); naive_solver. }
  apply (fold_res_error _ (λ a, a ≠ Panicked)). intros st o e. unfold check_property_key.
  destruct (validate _ _ _ _) as [[]|?] eqn:He; [clear He|intros [= ->]; by eapply validate_error].
  destruct (_ && _); [done|]. apply check_ancestry_error.
Qed.

(** ** Preparing *)

Definition relations_ok (rels : Relations (P := P)) : Prop :=
  ∀ r, ∃ pm, ProviderModel (Relation.source (rels r)) pm.

Definition all_loaded s : Prop := ∀ r, is_provider_fully_loaded (snap_index s r) = true.

Lemma begin_check_present rels s ws :
  relations_ok rels → all_loaded s →
  checkers_present (begin_check_all rels s ws) ws ∧
  ∀ r c, begin_check_all rels s ws r = Some c → CheckRelation.index c = snap_index s r.
Proof.
  intros Hrels Hl. split.
  - intros r. unfold begin_check_all. rewrite is_empty_ops. case_bool_decide; [done|].
    split; [done|]. split; [apply Hl|apply Hrels].
  - intros r c. unfold begin_check_all. destruct (WorkingSet.is_empty _); [done|].
    by intros [= <-].
Qed.

(** What a commit that was prepared on [root] has established. *)
Record prepared_ok (ws0 : WorkingSets) root (pc : PreparedCommit (P := P)) : Prop := {
  po_root : pc_checked_root pc = root;
  po_ws : cd_working_sets (pc_data pc) =
          clear_clobber_hints (extract_relation_working_sets ws0).1;
  po_ts : cd_tx_timestamp (pc_data pc) = tx_ts (ws_tx ws0);
  po_bloom : bloom_covers (cd_bloom (pc_data pc)) (rws (cd_working_sets (pc_data pc)));
  po_ready : rebase_ready (cd_checkers (pc_data pc)) (cd_working_sets (pc_data pc));
  po_candidate : candidate_of (cd_working_sets (pc_data pc)) (tx_ts (ws_tx ws0)) root
                   (pc_candidate pc);
  po_checked : skip_conflict_check (tx_snapshot_version (ws_tx ws0)) (tx_bloom ws0) root = true ∨
    ∀ r d op, ops (cd_working_sets (pc_data pc)) r !! d = Some op →
      blocked_op (cd_working_sets (pc_data pc)) r (rows_of root r) d op = None;
}.

Lemma prepare_candidate_spec (ws0 : WorkingSets) root adm cs :
  let ws := clear_clobber_hints (extract_relation_working_sets ws0).1 in
  checkers_present cs ws →
  (∀ r c, cs r = Some c → CheckRelation.index c = snap_index root r) →
  skip_conflict_check (tx_snapshot_version (ws_tx ws0)) (tx_bloom ws0) root = true ∨
   (∀ r d op, ops ws r !! d = Some op → blocked_op ws r (rows_of root r) d op = None) →
  match prepare_candidate root adm (tx_ts (ws_tx ws0)) (ws_caches ws0) cs ws with
  | Ok pc => prepared_ok ws0 root pc
  | Err e => e ≠ PrepareAborted Panicked
  end.
Proof.
  intros ws Hp Hi Hchk. unfold prepare_candidate, prepare_apply_all.
  destruct (prepare_apply_loop ws ALL cs CommitBloom.new Hp ALL_NoDup) as (cs2 & -> & Hcs2).
  destruct (build_snapshot_candidate ws cs cs2 root (tx_ts (ws_tx ws0))
    (caches_fork (ws_caches ws0)) (bloom_of_keys (rws ws)) Hp Hi) as [Hcand Hready].
  - intros r. rewrite Hcs2. by rewrite decide_True by apply ALL_complete.
  - apply bloom_of_keys_covers.
  - destruct adm; [|done|done]. split; try done. apply bloom_of_keys_covers.
Qed.

Lemma prepare_spec rels fuel root adm (ws0 : WorkingSets) :
  relations_ok rels → all_loaded root →
  (∀ r, ops_ordered (rws (clear_clobber_hints (extract_relation_working_sets ws0).1) r)) →
  match prepare rels fuel root adm ws0 with
  | Ok pc => prepared_ok ws0 root pc
  | Err e => e ≠ PrepareAborted Panicked
  end.
Proof.
  intros Hrels Hl Hord. unfold prepare.
  rewrite (surjective_pairing (extract_relation_working_sets ws0)).
  destruct (if negb _ then check_property_policies _ _ _ else Ok tt) as [[]|a] eqn:Hpol; cycle 1.
  { destruct (negb _); [|done]. apply policies_error in Hpol. by destruct a. }
  clear Hpol. change (extract_relation_working_sets ws0).2 with (ws_caches ws0).
  pose proof (prepare_candidate_spec ws0 root adm) as Hcand. cbn zeta in Hcand.
  set (ws := clear_clobber_hints _) in *.
  destruct (begin_check_present rels root ws Hrels Hl) as [Hpres Hidx].
  set (cs0 := begin_check_all rels root ws) in *.
  destruct (skip_conflict_check _ _ _) eqn:Hskip; cbn [negb]; [by apply Hcand; auto|].
  destruct (check_all_loop ws ALL cs0 Hpres Hord ALL_NoDup)
    as [(cs' & Hf & Hp & Hi & Hall)|[info Hf]]; unfold check_all; rewrite Hf; [|done].
  apply Hcand; [done| |].
  - intros r c Hc. destruct (Hi r c Hc) as (c0 & Hc0 & ->). by apply Hidx.
  - right. intros r d op Hop. specialize (Hpres r). destruct (cs0 r) as [c|] eqn:Hc.
    + unfold rows_of. rewrite <- (Hidx r c Hc). by apply (Hall r c d op (ALL_complete r)).
    + by rewrite Hpres, lookup_empty in Hop.
Qed.

(** ** Rebasing *)

Lemma rebase_keys_loop cs ws checked winner r l :
  is_Some (cs r) ∨ l = [] →
  match fold_res (rebase_key (P := P) cs ws checked winner r) tt l with
  | Ok _ => ∀ d, d ∈ l → can_clobber ws r d = false →
      relation_key_unchanged (snap_index checked r) (snap_index winner r) d = true
  | Err a => ∃ info, a = Failed info
  end.
Proof.
  induction l as [|d l IH]; intros Hs; cbn [fold_res]; [by intros d Hd%elem_of_nil|].
  destruct Hs as [[c Hc]|?]; [|done]. specialize (IH ltac:(left; eauto)).
  unfold rebase_key at 1. rewrite Hc.
  destruct (can_clobber ws r d) eqn:Hcl;
    [|destruct (relation_key_unchanged _ _ d) eqn:Hu; [|by eauto]].
  all: destruct (fold_res _ tt l) as [[]|a]; [|exact IH].
  all: intros d' [->|Hd']%elem_of_cons Hcl'; [congruence|by apply IH].
Qed.

Lemma rebase_relations_loop cs ws checked winner l :
  rebase_ready cs ws →
  match fold_res (rebase_relation (P := P) cs ws checked winner) tt l with
  | Ok _ => ∀ r d, r ∈ l → is_Some (ops ws r !! d) → can_clobber ws r d = false →
      relation_key_unchanged (snap_index checked r) (snap_index winner r) d = true
  | Err a => ∃ info, a = Failed info
  end.
Proof.
  intros Hcs. induction l as [|r l IH]; cbn [fold_res]; [by intros r d Hd%elem_of_nil|].
  unfold rebase_relation at 1.
  pose proof (rebase_keys_loop cs ws checked winner r (keys (rws ws r))) as Hk.
  destruct (fold_res (rebase_key cs ws checked winner r) tt _) as [[]|a]; cycle 1.
  { apply Hk. specialize (Hcs r). destruct (cs r); [by left|right].
    unfold keys. fold (ops ws r). by rewrite Hcs. }
  destruct (fold_res _ tt l) as [[]|a]; [|exact IH].
  intros r' d [->|Hin]%elem_of_cons Hd Hcl; [|by apply IH].
  apply Hk; [|by apply elem_of_keys|done]. specialize (Hcs r). destruct (cs r); [by left|].
  rewrite Hcs, lookup_empty in Hd. by destruct Hd.
Qed.

(** What a rebase onto [winner] has established. *)
Record rebased_ok (rr : RebaseRequired (P := P)) winner (pc : PreparedCommit (P := P)) : Prop := {
  ro_root : pc_checked_root pc = winner;
  ro_data : pc_data pc = rr_data rr;
  ro_candidate : candidate_of (cd_working_sets (rr_data rr)) (cd_tx_timestamp (rr_data rr)) winner
                   (pc_candidate pc);
  ro_checked :
    bloom_proves_disjoint (cd_working_sets (rr_data rr)) (rr_checked_root rr) winner = true ∨
    ∀ r d, is_Some (ops (cd_working_sets (rr_data rr)) r !! d) →
      can_clobber (cd_working_sets (rr_data rr)) r d = false →
      relation_key_unchanged (snap_index (rr_checked_root rr) r) (snap_index winner r) d = true;
}.

Lemma rebase_spec fuel winner rr :
  rebase_ready (cd_checkers (rr_data rr)) (cd_working_sets (rr_data rr)) →
  bloom_covers (cd_bloom (rr_data rr)) (rws (cd_working_sets (rr_data rr))) →
  is_Some (commit_bloom winner) →
  match rebase fuel winner rr with
  | Ok pc => rebased_ok rr winner pc
  | Err e => e ≠ PrepareAborted Panicked
  end.
Proof.
  intros Hr Hb Hw. unfold rebase, rebase_check.
  set (ws := cd_working_sets (rr_data rr)) in *. set (cs := cd_checkers (rr_data rr)) in *.
  pose proof (build_rebased_candidate ws cs winner (cd_tx_timestamp (rr_data rr))
    (caches_fork (cd_caches (rr_data rr))) (cd_bloom (rr_data rr)) Hr Hb Hw) as Hcand.
  destruct (check_property_policies _ _ _) as [[]|a] eqn:Hpol; cycle 1.
  { apply policies_error in Hpol. destruct a; naive_solver. }
  destruct (bloom_proves_disjoint _ _ _) eqn:Hd.
  { split; try done. by left. }
  pose proof (rebase_relations_loop cs ws (rr_checked_root rr) winner ALL Hr) as Hl.
  destruct (fold_res _ tt ALL) as [[]|a]; [|by destruct Hl as [info ->]].
  split; try done. right. intros r d. apply Hl, ALL_complete.
Qed.
End proofs.
