(* ===== verification/System.v ===== *)
(** The database with concurrent transactions: a step relation whose steps are
    the operations of the commit layer, and the invariant that ties the
    published snapshot to the history of commits.

    A step is one access to shared state: taking a seed, an operation of a
    running transaction on its private log, loading the root to prepare or to
    rebase, the compare-and-swap that publishes, publishing read-only caches.
    [sys_history] is the list of published commits, oldest first; it is not a
    part of the program, only of the statements. *)
From S2P Require Import Prelude Obj TxTypes RelIndex RelTx RelTxSpec RelTxProofs CheckApply.
From S2P Require Import Verbs Caches.
From S2P Require Import CheckApplyProofs Bloom Model Relations PropertyPolicy Commit CommitProofs.
From stdpp Require Import base gmap sets list strings fin_maps.

Open Scope Z_scope.

#[local] Arguments is_provider_fully_loaded : simpl never.
#[local] Arguments idx_entries : simpl never.
#[local] Arguments idx_inv : simpl never.
#[local] Arguments index_lookup : simpl never.

Section system.
Context `{Hashes} `{Payload}.
Context {P : DatabaseRelation → Type} `{∀ r, Provider (P r) (DomainOf r) (CodomainOf r)}.
(** The stores of the relations, and the rows they hold when opened. *)
Context (sources : ∀ r, P r) (pms : ∀ r, gmap (DomainOf r) (Timestamp * CodomainOf r)).

(** ** States and steps *)

Record commit := mkCommit { c_ts : Timestamp; c_ws : RelationWorkingSets }.

(** The phases of a transaction; [base] is the snapshot it started from. *)
Inductive phase :=
| Running (base : WorldStateSnapshot) (t : WorldStateTransaction (P := P))
| Prepared (base : WorldStateSnapshot) (tx : Tx) (pc : PreparedCommit (P := P))
| Retrying (base : WorldStateSnapshot) (tx : Tx) (rr : RebaseRequired (P := P)).

Record sys := mkSys {
  sys_db : MoorDB P;
  sys_txs : gmap nat phase;
  sys_history : list commit;
}.

Definition root (s : sys) : WorldStateSnapshot := root_state (snapshot_planes (sys_db s)).

Definition with_planes (p : SnapshotPlanes) (db : MoorDB P) : MoorDB P :=
  mkMoorDB (monotonic db) (relations db) p.

Definition with_relation (r : DatabaseRelation) (x : TxRelation r)
    (t : WorldStateTransaction (P := P)) : WorldStateTransaction :=
  mkWorldStateTransaction (wtx t) (dupd (P := TxRelation) r x (wtx_relations t))
    (wtx_caches t) (wtx_owner_change_reads t) (wtx_inherited_policy_reads t).

Inductive step : sys → sys → Prop :=
| step_start s i db' t :
    sys_txs s !! i = None → monotonic (sys_db s) < u64_max →
    db_start_transaction (sys_db s) = (db', t) →
    step s (mkSys db' (<[i := Running (root s) t]> (sys_txs s)) (sys_history s))
| step_op s i base t r c :
    sys_txs s !! i = Some (Running base t) →
    allowed (pms r) c (wtx_relations t r) →
    step s (mkSys (sys_db s)
      (<[i := Running base (with_relation r (exec c (wtx_relations t r)).1 t)]> (sys_txs s))
      (sys_history s))
| step_note s i base t caches owners policies :
    sys_txs s !! i = Some (Running base t) →
    step s (mkSys (sys_db s)
      (<[i := Running base (mkWorldStateTransaction (wtx t) (wtx_relations t) caches owners
                              policies)]> (sys_txs s)) (sys_history s))
| step_rollback s i :
    step s (mkSys (sys_db s) (delete i (sys_txs s)) (sys_history s))
| step_read_only s i base t :
    sys_txs s !! i = Some (Running base t) → has_mutations t = false →
    step s (mkSys (with_planes (publish_read_only_cache (tx_snapshot_version (wtx t))
                                  (wtx_caches t) (snapshot_planes (sys_db s))) (sys_db s))
      (delete i (sys_txs s)) (sys_history s))
| step_prepare s i base t fuel adm pc :
    sys_txs s !! i = Some (Running base t) → has_mutations t = true →
    prepare (relations (sys_db s)) fuel (root s) adm (into_working_sets t) = Ok pc →
    step s (mkSys (sys_db s) (<[i := Prepared base (wtx t) pc]> (sys_txs s)) (sys_history s))
| step_publish s i base tx pc p data :
    sys_txs s !! i = Some (Prepared base tx pc) →
    try_publish pc (snapshot_planes (sys_db s)) = (p, Ok data) →
    step s (mkSys (with_planes p (sys_db s)) (delete i (sys_txs s))
      (sys_history s ++ [mkCommit (cd_tx_timestamp data) (cd_working_sets data)]))
| step_lost s i base tx pc p rr :
    sys_txs s !! i = Some (Prepared base tx pc) →
    try_publish pc (snapshot_planes (sys_db s)) = (p, Err rr) →
    step s (mkSys (with_planes p (sys_db s)) (<[i := Retrying base tx rr]> (sys_txs s))
      (sys_history s))
| step_rebase s i base tx rr fuel pc :
    sys_txs s !! i = Some (Retrying base tx rr) →
    rebase fuel (root s) rr = Ok pc →
    step s (mkSys (sys_db s) (<[i := Prepared base tx pc]> (sys_txs s)) (sys_history s)).

Inductive reachable : sys → Prop :=
| reach_open db :
    try_open sources = Ok db → reachable (mkSys db ∅ [])
| reach_step s s' : reachable s → step s s' → reachable s'.

(** ** Histories *)

Definition Rows : Type := ∀ r, gmap (DomainOf r) (Entry (CodomainOf r)).

Definition apply_commit (m : Rows) (c : commit) : Rows :=
  λ r, commit_overlay (ops (c_ws c) r) (m r).

(** The stored rows, and the state after a history of commits. *)
Definition stored_rows : Rows := λ r, row_entry <$> pms r.
Definition state_after (h : list commit) : Rows := fold_left apply_commit h stored_rows.

Lemma state_after_snoc h c r :
  state_after (h ++ [c]) r = commit_overlay (ops (c_ws c) r) (state_after h r).
Proof. unfold state_after. by rewrite fold_left_app. Qed.

Definition writes (c : commit) r (d : DomainOf r) : Prop := is_Some (ops (c_ws c) r !! d).

Lemma state_after_unwritten h h' r d :
  (∀ c, c ∈ h' → ~ writes c r d) → state_after (h ++ h') r !! d = state_after h r !! d.
Proof.
  revert h. induction h' as [|c h' IH]; intros h Hw; [by rewrite app_nil_r|].
  rewrite cons_middle, app_assoc, IH by (intros c' Hc'; apply Hw; by constructor).
  rewrite state_after_snoc, commit_overlay_lookup.
  destruct (ops (c_ws c) r !! d) eqn:Hop; [|done].
  destruct (Hw c); [constructor|]. by eexists.
Qed.

(** Timestamps: the stored rows are older than every commit, every commit has
    its own timestamp, below the counter. *)
Context (c0 : Timestamp).

Record hist_ok (mono : Z) (h : list commit) : Prop := {
  ho_stored r d e : stored_rows r !! d = Some e → entry_ts e ≤ c0;
  ho_range c : c ∈ h → c0 < c_ts c < mono;
  ho_write c r d op : c ∈ h → ops (c_ws c) r !! d = Some op → write_ts op = c_ts c;
  ho_unique : NoDup (c_ts <$> h);
}.

(** Where an entry comes from. *)
Lemma state_entry mono h r d e :
  hist_ok mono h → state_after h r !! d = Some e →
  stored_rows r !! d = Some e ∨
  ∃ j c op v, h !! j = Some c ∧ ops (c_ws c) r !! d = Some op ∧
    op_value (operation op) = Some v ∧ e = mkEntry (c_ts c) (clone_for_commit v).
Proof.
  induction h as [|c h IH] using rev_ind; intros Hh He; [by left|].
  assert (hist_ok mono h) as Hh'.
  { destruct Hh as [Hs Hr Hw Hu]. rewrite fmap_app in Hu. apply NoDup_app in Hu as (Hu & _ & _).
    split; [done|..|done].
    - intros c' Hc'. apply Hr. set_solver.
    - intros c' r' d' op' Hc'. apply Hw. set_solver. }
  rewrite state_after_snoc, commit_overlay_lookup in He.
  destruct (ops (c_ws c) r !! d) as [op|] eqn:Hop.
  - destruct (op_value (operation op)) as [v|] eqn:Hv; simplify_eq/=. right.
    exists (length h), c, op, v. split_and!; [|done|done|].
    + by rewrite lookup_app_r, Nat.sub_diag by lia.
    + f_equal. apply (ho_write _ _ Hh c r d op); [set_solver|done].
  - destruct (IH Hh' He) as [?|(j & c' & op' & v & Hj & Hrest)]; [by left|right].
    exists j, c', op', v. split; [|done]. by apply lookup_app_l_Some.
Qed.

Lemma state_entry_ts mono h r d e :
  hist_ok mono h → state_after h r !! d = Some e →
  entry_ts e ≤ c0 ∨ ∃ c, c ∈ h ∧ entry_ts e = c_ts c.
Proof.
  intros Hh He. destruct (state_entry _ _ _ _ _ Hh He) as [Hs|(j & c & op & v & Hj & _ & _ & ->)].
  - left. by apply (ho_stored _ _ Hh r d).
  - right. exists c. split; [by eapply list_elem_of_lookup_2|done].
Qed.

Lemma hist_unique mono h i j ci cj :
  hist_ok mono h → h !! i = Some ci → h !! j = Some cj → c_ts ci = c_ts cj → ci = cj.
Proof.
  intros Hh Hi Hj He. assert (i = j) as ->; [|congruence].
  apply (NoDup_lookup (c_ts <$> h) i j (c_ts ci)).
  - apply (ho_unique _ _ Hh).
  - by rewrite list_lookup_fmap, Hi.
  - by rewrite list_lookup_fmap, Hj, He.
Qed.

(** A key with the same version at two points of a history has the same entry. *)
Lemma same_version_same_entry mono h h' r d :
  hist_ok mono h → h' `prefix_of` h →
  entry_ts <$> state_after h' r !! d = entry_ts <$> state_after h r !! d →
  state_after h' r !! d = state_after h r !! d.
Proof.
  intros Hh [h2 ->] Hts.
  assert (hist_ok mono h') as Hh'.
  { destruct Hh as [Hs Hr Hw Hu]. rewrite fmap_app in Hu. apply NoDup_app in Hu as (Hu & _ & _).
    split; [done|..|done].
    - intros c' Hc'. apply Hr. set_solver.
    - intros c' r' d' op' Hc'. apply Hw. set_solver. }
  destruct (state_after h' r !! d) as [e'|] eqn:He', (state_after (h' ++ h2) r !! d) as [e|] eqn:He;
    simplify_eq/=; [|done]. f_equal.
  destruct (state_entry _ _ _ _ _ Hh' He') as [Hs'|(j' & c' & op' & v' & Hj' & Hop' & Hv' & ->)],
    (state_entry _ _ _ _ _ Hh He) as [Hs|(j & c & op & v & Hj & Hop & Hv & ->)].
  - congruence.
  - apply (ho_stored _ _ Hh) in Hs'. simpl in Hts.
    destruct (ho_range _ _ Hh c); [by eapply list_elem_of_lookup_2|]. lia.
  - apply (ho_stored _ _ Hh) in Hs. simpl in Hts.
    destruct (ho_range _ _ Hh' c'); [by eapply list_elem_of_lookup_2|]. lia.
  - simpl in Hts. assert (c' = c) as ->.
    { eapply (hist_unique mono (h' ++ h2) j' j); [done| |done|done]. by apply lookup_app_l_Some. }
    congruence.
Qed.
End system.
