(* ===== verification/SystemProofs.v ===== *)
(** The invariant of the concurrent database: the published snapshot is the
    stored state with the committed logs applied in order, every running
    transaction stands on a prefix of that history, and every prepared commit
    has kept the rule that no written key moved since its snapshot. *)
From S2P Require Import Prelude Obj TxTypes RelIndex RelTx RelTxSpec RelTxProofs RelTxMain.
From S2P Require Import Verbs Caches.
From S2P Require Import CheckApply CheckApplyProofs Bloom Model Relations.
From S2P Require Import PropertyPolicy Commit CommitProofs System.
From stdpp Require Import base gmap sets list strings fin_maps.

Open Scope Z_scope.

#[local] Arguments is_provider_fully_loaded : simpl never.
#[local] Arguments set_provider_fully_loaded : simpl never.
#[local] Arguments idx_entries : simpl never.
#[local] Arguments idx_inv : simpl never.
#[local] Arguments index_lookup : simpl never.

Section invariant.
Context `{Hashes} `{Payload}.
Context {P : DatabaseRelation → Type} `{∀ r, Provider (P r) (DomainOf r) (CodomainOf r)}.
Context (sources : ∀ r, P r) (pms : ∀ r, gmap (DomainOf r) (Timestamp * CodomainOf r)).
Hypothesis sources_model : ∀ r, ProviderModel (sources r) (pms r).
Context (c0 : Timestamp).
Implicit Types h : list commit.
Implicit Types s : WorldStateSnapshot.

(** ** Snapshots of a history *)

Definition last_ts h : Timestamp := fold_left (λ t c, Z.max t (c_ts c)) h c0.

Record snap_ok h s : Prop := {
  so_version : version s = Z.of_nat (length h);
  so_rows r : rows_of s r = state_after pms h r;
  so_loaded : all_loaded s;
  so_inv r : idx_inv (snap_index s r);
  so_ts : committed_ts s = last_ts h;
  so_since : 0 ≤ bloom_since_version s ≤ version s;
  so_bloom : match commit_bloom s with
    | Some b => ∀ j c r d, bloom_since_version s ≤ Z.of_nat j → h !! j = Some c →
        writes c r d → CommitBloom.might_contain d b = true
    | None => h = []
    end;
}.

Lemma candidate_snap_ok h s ws ts cand :
  snap_ok h s → candidate_of ws ts s cand → snap_ok (h ++ [mkCommit ts ws]) cand.
Proof.
  intros [Hv Hr Hl Hi Ht Hs Hb] [Cv Ct Cr Cl Ci (b & Cb & [_ Ccov] & Csince)].
  split.
  - rewrite Cv, Hv, length_app. simpl. lia.
  - intros r. by rewrite Cr, Hr, state_after_snoc.
  - intros r. by apply Cl, Hl.
  - intros r. by apply Ci, Hi.
  - rewrite Ct, Ht. unfold last_ts. by rewrite fold_left_app.
  - destruct Csince as [->|[-> _]]; lia.
  - rewrite Cb. intros j c r d Hj Hc Hw.
    apply lookup_app_Some in Hc as [Hc|[Hge Hc]].
    + destruct Csince as [Hsince|(Hsince & b0 & Hb0 & Hmono)].
      * apply lookup_lt_Some in Hc. lia.
      * apply Hmono. rewrite Hb0 in Hb. apply (Hb j c r d); [lia|done|done].
    + apply list_lookup_singleton_Some in Hc as [_ <-]. by apply Ccov.
Qed.

Lemma last_ts_bounds h c : c ∈ h → c_ts c ≤ last_ts h.
Proof.
  unfold last_ts. induction h as [|c' h IH] using rev_ind; intros Hc; [by apply elem_of_nil in Hc|].
  rewrite fold_left_app. simpl. apply elem_of_app in Hc as [Hc|Hc%list_elem_of_singleton];
    [apply IH in Hc; lia|subst; lia].
Qed.

Lemma last_ts_c0 h : c0 ≤ last_ts h.
Proof.
  unfold last_ts. induction h as [|c' h IH] using rev_ind; [done|].
  rewrite fold_left_app. simpl. lia.
Qed.

Lemma last_ts_mono mono h : hist_ok pms c0 mono h → c0 < mono → last_ts h < mono.
Proof.
  intros Hh Hc. unfold last_ts.
  assert (∀ l, (∀ c, c ∈ l → c_ts c < mono) → fold_left (λ t c, Z.max t (c_ts c)) l c0 < mono)
    as Hall.
  { induction l as [|c l IH] using rev_ind; intros Hl; [done|]. rewrite fold_left_app. simpl.
    apply Z.max_lub_lt; [apply IH; intros c' Hc'; apply Hl; set_solver|apply Hl; set_solver]. }
  apply Hall. intros c Hc'. by apply (ho_range _ _ _ _ Hh).
Qed.

(** Two prefixes of one history of the same length are the same. *)
Lemma prefix_length_eq h h1 h2 :
  h1 `prefix_of` h → h2 `prefix_of` h → length h1 = length h2 → h1 = h2.
Proof.
  intros [k1 ->] [k2 He] Hl. by apply app_inj_1 in He as [-> _].
Qed.

(** ** Transactions *)

Record tx_ok mono h (tx : Tx) (base : WorldStateSnapshot) hb : Prop := {
  to_prefix : hb `prefix_of` h;
  to_base : snap_ok hb base;
  to_visible : tx_visible_ts tx = committed_ts base;
  to_version : tx_snapshot_version tx = version base;
  to_range : c0 < tx_ts tx < mono;
  to_later : committed_ts base < tx_ts tx;
  to_fresh : tx_ts tx ∉ c_ts <$> h;
}.

(** No key written by [ws] (unique inserts and clobber values aside) has moved
    between two snapshots. *)
Definition unmoved (ws : RelationWorkingSets) base s : Prop :=
  ∀ r d op, ops ws r !! d = Some op → guaranteed_unique op = false →
    can_clobber ws r d = false → rows_of s r !! d = rows_of base r !! d.

Record data_ok (tx : Tx) (data : CommitData (P := P)) : Prop := {
  do_ready : rebase_ready (cd_checkers data) (cd_working_sets data);
  do_bloom : bloom_covers (cd_bloom data) (rws (cd_working_sets data));
  do_ts : cd_tx_timestamp data = tx_ts tx;
  do_write r d op : ops (cd_working_sets data) r !! d = Some op → write_ts op = tx_ts tx;
}.

Definition running_ok (base : WorldStateSnapshot) (t : WorldStateTransaction (P := P)) : Prop :=
  ∀ r, wf (pms r) (wtx_relations t r) ∧
    base_rows (pms r) (wtx_relations t r) = rows_of base r ∧
    RelationTransaction.tx (wtx_relations t r) = wtx t.

Definition phase_ok mono h (ph : phase (P := P)) : Prop :=
  match ph with
  | Running base t => (∃ hb, tx_ok mono h (wtx t) base hb) ∧ running_ok base t
  | Prepared base tx pc =>
      ∃ hb hc, tx_ok mono h tx base hb ∧ hb `prefix_of` hc ∧ hc `prefix_of` h ∧
        snap_ok hc (pc_checked_root pc) ∧ data_ok tx (pc_data pc) ∧
        unmoved (cd_working_sets (pc_data pc)) base (pc_checked_root pc) ∧
        candidate_of (cd_working_sets (pc_data pc)) (tx_ts tx) (pc_checked_root pc)
          (pc_candidate pc)
  | Retrying base tx rr =>
      ∃ hb hc, tx_ok mono h tx base hb ∧ hb `prefix_of` hc ∧ hc `prefix_of` h ∧ hc ≠ h ∧
        snap_ok hc (rr_checked_root rr) ∧ data_ok tx (rr_data rr) ∧
        unmoved (cd_working_sets (rr_data rr)) base (rr_checked_root rr)
  end.

Definition phase_ts (ph : phase (P := P)) : Timestamp :=
  match ph with
  | Running _ t => tx_ts (wtx t)
  | Prepared _ tx _ | Retrying _ tx _ => tx_ts tx
  end.

Record inv (x : sys (P := P)) : Prop := {
  inv_relations : relations (sys_db x) = init sources;
  inv_mono : 0 ≤ c0 < monotonic (sys_db x);
  inv_hist : hist_ok pms c0 (monotonic (sys_db x)) (sys_history x);
  inv_root : snap_ok (sys_history x) (root x);
  inv_txs i ph : sys_txs x !! i = Some ph →
    phase_ok (monotonic (sys_db x)) (sys_history x) ph;
  inv_distinct i j phi phj : sys_txs x !! i = Some phi → sys_txs x !! j = Some phj →
    phase_ts phi = phase_ts phj → i = j;
}.

Lemma phase_ok_ts mono h ph :
  phase_ok mono h ph → phase_ts ph < mono ∧ phase_ts ph ∉ c_ts <$> h.
Proof.
  destruct ph; simpl.
  - intros [[hb []] _]. by split; [lia|].
  - intros (hb & hc & [] & _). by split; [lia|].
  - intros (hb & hc & [] & _). by split; [lia|].
Qed.

(** *** Monotonicity of the phases *)

Lemma tx_ok_mono mono mono' h h' tx base hb :
  mono ≤ mono' → h `prefix_of` h' → tx_ts tx ∉ c_ts <$> h' →
  tx_ok mono h tx base hb → tx_ok mono' h' tx base hb.
Proof.
  intros Hm Hp Hf [T1 T2 T3 T4 T5 T6 T7]. split; [by trans h|done|done|done|lia|done|done].
Qed.

Lemma phase_ok_mono mono mono' h h' ph :
  mono ≤ mono' → h `prefix_of` h' → phase_ts ph ∉ c_ts <$> h' →
  phase_ok mono h ph → phase_ok mono' h' ph.
Proof.
  intros Hm Hp Hf. destruct ph as [base t|base tx pc|base tx rr]; simpl in *.
  - intros [[hb Htx] Hr]. split; [|done]. exists hb. by eapply tx_ok_mono.
  - intros (hb & hc & Htx & H1' & H2' & Hrest). exists hb, hc.
    split; [by eapply tx_ok_mono|]. split; [done|]. split; [by trans h|done].
  - intros (hb & hc & Htx & H1' & H2' & Hne & Hrest). exists hb, hc.
    split; [by eapply tx_ok_mono|]. split; [done|]. split; [by trans h|].
    split; [|done]. intros ->. apply Hne. by apply (anti_symm prefix).
Qed.

Lemma hist_ok_mono mono mono' h : mono ≤ mono' → hist_ok pms c0 mono h → hist_ok pms c0 mono' h.
Proof.
  intros Hm [Hs Hr Hw Hu]. split; try done. intros c Hc. apply Hr in Hc. lia.
Qed.

(** ** Preparing a commit *)

(** The working sets of a running transaction, hints cleared. *)
Definition final_ws (t : WorldStateTransaction (P := P)) : RelationWorkingSets :=
  clear_clobber_hints (extract_relation_working_sets (into_working_sets t)).1.

Lemma final_ws_provenance base t r d op :
  running_ok base t → ops (final_ws t) r !! d = Some op →
  op_provenance (tx_ts (wtx t)) (rows_of base r !! d) op ∧
  is_Some (RelTxSpec.log (wtx_relations t r) !! d) ∧
  ∀ e, rows_of base r !! d = Some e → entry_ts e < tx_ts (wtx t).
Proof.
  intros Hrun Hop. destruct (Hrun r) as (Hwf & Hb & Htx).
  pose proof (clear_hints_ops (extract_relation_working_sets (into_working_sets t)).1 r d) as Hc.
  fold (final_ws t) in Hc. rewrite Hop in Hc.
  destruct (ops (extract_relation_working_sets (into_working_sets t)).1 r !! d) as [op0|] eqn:Hop0;
    [|done].
  change (RelTxSpec.log (wtx_relations t r) !! d = Some op0) in Hop0.
  pose proof (wf_ops _ _ Hwf d op0 Hop0) as Hprov. rewrite Hb in Hprov.
  unfold RelationTransaction.write_ts in Hprov. rewrite Htx in Hprov. split_and!.
  - by eapply same_shape_provenance.
  - by eexists.
  - intros e He. pose proof (wf_settled _ _ Hwf d e) as Hle. rewrite Hb in Hle.
    specialize (Hle He). pose proof (wf_ts _ _ Hwf) as Hts.
    unfold RelationTransaction.visible_ts, RelationTransaction.write_ts in *.
    rewrite Htx in *. lia.
Qed.

Lemma final_ws_ordered base t r : running_ok base t → ops_ordered (rws (final_ws t) r).
Proof.
  intros Hrun d op Hop. destruct (final_ws_provenance base t r d op Hrun Hop) as ([Hw Hp] & _ & Hlt).
  rewrite Hw. destruct (operation op), (rows_of base r !! d) as [e|]; try done;
    rewrite Hp; try lia; specialize (Hlt e eq_refl); lia.
Qed.

Lemma unmoved_prefix mono h hb base s ws :
  hist_ok pms c0 mono h → hb `prefix_of` h → snap_ok hb base → snap_ok h s →
  (∀ r d op, ops ws r !! d = Some op → guaranteed_unique op = false →
     can_clobber ws r d = false →
     (∀ j c, (length hb ≤ j)%nat → h !! j = Some c → ~ writes c r d) ∨
     entry_ts <$> rows_of s r !! d = entry_ts <$> rows_of base r !! d) →
  unmoved ws base s.
Proof.
  intros Hh Hp Hb Hs Hall r d op Hop Hu Hcl.
  rewrite (so_rows _ _ Hs r), (so_rows _ _ Hb r).
  destruct (Hall r d op Hop Hu Hcl) as [Hw|Hts].
  - destruct Hp as [h2 ->]. apply state_after_unwritten. intros c Hc.
    apply list_elem_of_lookup in Hc as [j Hj]. apply (Hw (length hb + j)%nat c); [lia|].
    by rewrite lookup_app_r, Nat.add_comm, Nat.add_sub by lia.
  - symmetry. eapply same_version_same_entry; [done|done|].
    by rewrite (so_rows _ _ Hs r), (so_rows _ _ Hb r) in Hts.
Qed.

Lemma prepare_unmoved mono h base t hb s (pc : PreparedCommit (P := P)) :
  hist_ok pms c0 mono h → snap_ok h s → tx_ok mono h (wtx t) base hb → running_ok base t →
  prepared_ok (into_working_sets t) s pc →
  unmoved (final_ws t) base s.
Proof.
  intros Hh Hs Htx Hrun Hpo. destruct Htx as [Hp Hb Hvis Hver Hrng Hlat Hfr].
  eapply unmoved_prefix; [done|done|done|done|]. intros r d op Hop Hu Hcl.
  destruct (final_ws_provenance base t r d op Hrun Hop) as (Hprov & [op0 Hop0] & Hlt).
  destruct (po_checked _ _ _ Hpo) as [Hskip|Hchk].
  - left. unfold skip_conflict_check in Hskip. change (ws_tx (into_working_sets t)) with (wtx t) in *.
    apply orb_true_iff in Hskip as [Hv%Z.eqb_eq|[Hsince%Z.leb_le Hbl]%andb_true_iff].
    + intros j c Hj Hc. apply lookup_lt_Some in Hc.
      rewrite Hver, (so_version _ _ Hb), (so_version _ _ Hs) in Hv. lia.
    + pose proof (so_bloom _ _ Hs) as Hcov. destruct (commit_bloom s) as [b|]; [|done].
      apply negb_true_iff in Hbl. intros j c Hj Hc Hw.
      assert (CommitBloom.might_contain d (tx_bloom (into_working_sets t)) = true) as Hmine.
      { apply (bloom_of_keys_covers (ws_relations (into_working_sets t)) ).
        by exists op0. }
      apply (CommitBloom.disjoint_filters d _ _ Hbl) in Hmine.
      rewrite (Hcov j c r d) in Hmine; [done| |done|done].
      rewrite Hver, (so_version _ _ Hb) in Hsince. lia.
  - right. rewrite (po_ws _ _ _ Hpo) in Hchk. specialize (Hchk r d op Hop).
    unfold blocked_op in Hchk. fold (final_ws t) in Hchk. rewrite Hcl in Hchk.
    refine (proj1 (conflict_of_provenance (tx_ts (wtx t)) (rows_of base r !! d)
      (rows_of s r !! d) op Hprov Hu _ _) Hchk).
    + intros e He. specialize (Hlt e He). lia.
    + intros e He Heq. rewrite (so_rows _ _ Hs r) in He.
      destruct (state_entry_ts _ _ _ _ _ _ _ Hh He) as [Hle|(c & Hc & Hts)]; [lia|].
      apply Hfr. rewrite <- Heq, Hts. by apply list_elem_of_fmap_2.
Qed.

Lemma prepare_phase mono h base (t : WorldStateTransaction (P := P)) s fuel adm pc :
  hist_ok pms c0 mono h → snap_ok h s → phase_ok mono h (Running base t) →
  prepare (init sources) fuel s adm (into_working_sets t) = Ok pc →
  phase_ok mono h (Prepared base (wtx t) pc).
Proof.
  intros Hh Hs [[hb Htx] Hrun] Hprep.
  pose proof (prepare_spec (init sources) fuel s adm (into_working_sets t)) as Hspec.
  rewrite Hprep in Hspec.
  assert (prepared_ok (into_working_sets t) s pc) as Hpo.
  { apply Hspec; [|apply (so_loaded _ _ Hs)|intros r; by eapply final_ws_ordered].
    intros r. exists (pms r). unfold init. by destruct (is_secondary r). }
  clear Hspec. exists hb, h. pose proof (po_ws _ _ _ Hpo) as Hws. fold (final_ws t) in Hws.
  rewrite (po_root _ _ _ Hpo), Hws. split_and!; [done|apply (to_prefix _ _ _ _ _ Htx)|done|done|..].
  - destruct Hpo as [_ _ Pts Pb Pr _ _]. split; [done|done|done|]. rewrite Hws.
    intros r d op Hop. by destruct (final_ws_provenance base t r d op Hrun Hop) as ([-> _] & _).
  - by eapply prepare_unmoved.
  - rewrite <- Hws. apply (po_candidate _ _ _ Hpo).
Qed.

(** ** Publishing and rebasing *)

Lemma unmoved_trans ws s1 s2 s3 : unmoved ws s1 s2 → unmoved ws s2 s3 → unmoved ws s1 s3.
Proof. intros H12 H23 r d op Hop Hu Hc. rewrite (H23 r d op Hop Hu Hc). by eapply H12. Qed.

Lemma key_unchanged_rows s s' r d :
  all_loaded s → all_loaded s' →
  relation_key_unchanged (snap_index s r) (snap_index s' r) d =
  bool_decide (entry_ts <$> rows_of s r !! d = entry_ts <$> rows_of s' r !! d).
Proof.
  intros Hl Hl'. unfold relation_key_unchanged.
  assert (∀ i : DynIndex (DomainOf r) (CodomainOf r), i = snap_index s r ∨ i = snap_index s' r →
    is_provider_fully_loaded i = true) as Hload by (intros i [->| ->]; [apply Hl|apply Hl']).
  rewrite !Hload by auto. simpl. by rewrite !law_lookup.
Qed.

Lemma rebase_phase mono h base tx rr s fuel pc :
  hist_ok pms c0 mono h → snap_ok h s → phase_ok mono h (Retrying base tx rr) →
  rebase fuel s rr = Ok pc → phase_ok mono h (Prepared base tx pc).
Proof.
  intros Hh Hs (hb & hc & Htx & Hbc & Hch & Hne & Hchk & [Dr Db Dt Dw] & Hun) Hreb.
  pose proof (rebase_spec fuel s rr Dr Db) as Hspec. rewrite Hreb in Hspec.
  assert (rebased_ok rr s pc) as [Rr Rd Rc Rchk].
  { apply Hspec. pose proof (so_bloom _ _ Hs) as Hbl. destruct (commit_bloom s); [by eexists|].
    subst h. destruct Hne. by apply prefix_nil_inv in Hch. }
  clear Hspec. exists hb, h. rewrite Rr, Rd.
  split_and!; [done|by trans hc|done|done|by split| |by rewrite <- Dt].
  eapply unmoved_trans; [exact Hun|].
  eapply (unmoved_prefix mono h hc); [done|done|done|done|]. intros r d op Hop Hu Hcl.
  destruct Rchk as [Hbl|Hkeys].
  - left. unfold bloom_proves_disjoint in Hbl.
    apply andb_true_iff in Hbl as [Hsince%Z.leb_le Hbl].
    pose proof (so_bloom _ _ Hs) as Hcov. destruct (commit_bloom s) as [b|]; [|done].
    intros j c Hj Hc Hw. rewrite forallb_forall in Hbl.
    specialize (Hbl r (proj1 (list_elem_of_In _ _) (ALL_complete r))).
    rewrite forallb_forall in Hbl.
    assert (In d (keys (rws (cd_working_sets (rr_data rr)) r))) as Hin.
    { apply list_elem_of_In, elem_of_keys. by exists op. }
    specialize (Hbl d Hin). apply negb_true_iff in Hbl.
    rewrite (Hcov j c r d) in Hbl; [done| |done|done].
    rewrite (so_version _ _ Hchk) in Hsince. lia.
  - right. specialize (Hkeys r d (ex_intro _ op Hop) Hcl). rewrite key_unchanged_rows in Hkeys
      by (apply (so_loaded _ _ Hchk) || apply (so_loaded _ _ Hs)).
    apply bool_decide_eq_true in Hkeys. by symmetry.
Qed.

(** A publication that succeeds was prepared on the current root. *)
Lemma publish_checked h hc s (pc : PreparedCommit (P := P)) planes p data :
  snap_ok h (root_state planes) → hc `prefix_of` h → snap_ok hc (pc_checked_root pc) →
  try_publish pc planes = (p, Ok data) →
  hc = h ∧ data = pc_data pc ∧ root_state p = pc_candidate pc.
Proof.
  intros Hs Hp Hc Hpub. unfold try_publish, try_publish_write_root in Hpub.
  destruct (Z.eqb_spec (version (root_state planes)) (version (pc_checked_root pc))) as [He|He];
    [|done]. simplify_eq/=. split; [|done].
  rewrite (so_version _ _ Hs), (so_version _ _ Hc) in He.
  apply (prefix_length_eq h); [done|done|lia].
Qed.

Lemma lost_checked h hc (pc : PreparedCommit (P := P)) planes p rr :
  snap_ok h (root_state planes) → snap_ok hc (pc_checked_root pc) →
  try_publish pc planes = (p, Err rr) →
  hc ≠ h ∧ rr = mkRebaseRequired (pc_data pc) (pc_checked_root pc) ∧ p = planes.
Proof.
  intros Hs Hc Hpub. unfold try_publish, try_publish_write_root in Hpub.
  destruct (Z.eqb_spec (version (root_state planes)) (version (pc_checked_root pc))) as [He|He];
    [done|]. simplify_eq/=. split; [|done]. intros ->. apply He.
  by rewrite (so_version _ _ Hs), (so_version _ _ Hc).
Qed.

(** ** Running transactions *)

Lemma start_running h s tx caches :
  snap_ok h s → committed_ts s < tx_ts tx → tx_visible_ts tx = committed_ts s →
  (∀ r d e, rows_of s r !! d = Some e → entry_ts e ≤ committed_ts s) →
  running_ok s (start_transaction (init sources) tx s caches).
Proof.
  intros Hs Hlt Hvis Hle r. unfold start_transaction; simpl.
  assert (Relation.source (init sources r) = sources r) as Hsrc.
  { unfold init. by destruct (is_secondary r). }
  assert (base_rows (pms r) (Relation.start_borrowed (init sources r) tx (snap_index s r)
    (Relation.source (init sources r))) = rows_of s r) as Hbase.
  { unfold base_rows.
    change (RelationTransaction.provider_fully_loaded _)
      with (is_provider_fully_loaded (snap_index s r)). by rewrite (so_loaded _ _ Hs r). }
  split_and!; [|exact Hbase|done]. split.
  - unfold RelationTransaction.visible_ts, RelationTransaction.write_ts; simpl. lia.
  - simpl. rewrite Hsrc. apply sources_model.
  - intros d e He. unfold RelationTransaction.visible_ts; simpl. rewrite Hvis.
    apply (Hle r d). rewrite <- Hbase. exact He.
  - intros d op. unfold RelTxSpec.log; simpl. by rewrite lookup_empty.
  - done.
  - simpl. apply (so_inv _ _ Hs).
Qed.

Lemma exec_running base t r c :
  running_ok base t → allowed (pms r) c (wtx_relations t r) →
  running_ok base (with_relation r (exec c (wtx_relations t r)).1 t).
Proof.
  intros Hrun Ha r'. unfold with_relation; simpl.
  destruct (decide (r = r')) as [<-|Hne]; [|rewrite dupd_ne by done; apply Hrun].
  rewrite dupd_eq. destruct (Hrun r) as (Hwf & Hb & Htx).
  destruct (exec_refines (pms r) c (wtx_relations t r) Hwf Ha)
    as (M' & (Hwf' & _ & Hsame & Htx' & _) & _).
  split_and!; [done|congruence|congruence].
Qed.

Lemma snap_rows_visible mono h s r d e :
  hist_ok pms c0 mono h → snap_ok h s → rows_of s r !! d = Some e → entry_ts e ≤ committed_ts s.
Proof.
  intros Hh Hs He. rewrite (so_rows _ _ Hs r) in He. rewrite (so_ts _ _ Hs).
  pose proof (last_ts_c0 h).
  destruct (state_entry_ts _ _ _ _ _ _ _ Hh He) as [Hle|(c & Hc & ->)]; [lia|].
  by apply last_ts_bounds.
Qed.

(** ** Opening *)

(** What seeding relation [r] gives. *)
Definition seeds (rels : Relations (P := P)) r : Prop :=
  ∃ i mx, Relation.seeded_index_with_max_timestamp (rels r) = Ok (i, mx) ∧
    idx_entries i = row_entry <$> pms r ∧ idx_inv i ∧ is_provider_fully_loaded i = true ∧
    (∀ d t c, pms r !! d = Some (t, c) → t ≤ mx) ∧
    (mx = 0 ∨ ∃ d c, pms r !! d = Some (mx, c)).

Lemma snapshot_loop_keeps (rels : Relations (P := P)) l idx ts idx' ts' r :
  r ∉ l → fold_res (snapshot_step rels) (idx, ts) l = Ok (idx', ts') → idx' r = idx r.
Proof.
  revert idx ts. induction l as [|r0 l IH]; intros idx ts Hr Hf; simplify_eq/=; [done|].
  apply not_elem_of_cons in Hr as [Hne Hr]. unfold snapshot_step at 1 in Hf.
  destruct (Relation.seeded_index_with_max_timestamp (rels r0)) as [[i mx]|e]; simplify_eq/=.
  rewrite (IH _ _ Hr Hf). by apply dupd_ne.
Qed.

Lemma snapshot_loop (rels : Relations (P := P)) l idx (ts : Timestamp) :
  (∀ r, seeds rels r) → NoDup l → 0 ≤ ts →
  ∃ idx' ts', fold_res (snapshot_step rels) (idx, ts) l = Ok (idx', ts') ∧ ts ≤ ts' ∧
    (ts' = ts ∨ ∃ r d c, pms r !! d = Some (ts', c)) ∧
    ∀ r, r ∈ l → idx_entries (idx' r) = row_entry <$> pms r ∧ idx_inv (idx' r) ∧
      is_provider_fully_loaded (idx' r) = true ∧
      ∀ d t c, pms r !! d = Some (t, c) → t ≤ ts'.
Proof.
  intros Hseed. revert idx ts. induction l as [|r l IH]; intros idx ts Hnd Hts; cbn [fold_res].
  { exists idx, ts. split_and!; [done|done|by left|]. by intros r Hr%elem_of_nil. }
  apply NoDup_cons in Hnd as [Hn Hnd].
  destruct (Hseed r) as (i & mx & Hr & He & Hi & Hl & Hmx & Hatt).
  unfold snapshot_step at 1. rewrite Hr. cbn [fst snd].
  destruct (IH (dupd r i idx) (Z.max ts mx) Hnd ltac:(lia))
    as (idx' & ts' & Hf & Hle & Hts' & Hall).
  exists idx', ts'. split_and!; [done|lia| |].
  - destruct Hts' as [->|?]; [|by right].
    destruct (Z.max_spec ts mx) as [[Hlt ->]|[_ ->]]; [|by left].
    destruct Hatt as [->|(d & c & Hd)]; [lia|]. right. eauto.
  - intros r' [->|Hin]%elem_of_cons; [|by apply Hall].
    rewrite (snapshot_loop_keeps _ _ _ _ _ _ r Hn Hf), dupd_eq. split_and!; [done|done|done|].
    intros d t c Hd. specialize (Hmx d t c Hd). lia.
Qed.

Lemma seeded_relations r : seeds (init sources) r.
Proof.
  apply (seeded_index_spec (init sources r) (pms r)).
  - unfold init. destruct (is_secondary r); apply sources_model.
  - unfold init. by destruct (is_secondary r).
  - unfold init. destruct (is_secondary r); [exact sec_inv_new|done].
Qed.

(** The snapshot an open database starts from. *)
Record opened (db : MoorDB P) (s : WorldStateSnapshot) : Prop := {
  op_relations : relations db = init sources;
  op_planes : snapshot_planes db = planes_new s;
  op_version : version s = 0;
  op_bloom : commit_bloom s = None;
  op_since : bloom_since_version s = 0;
  op_ts : 0 ≤ committed_ts s;
  op_mono : monotonic db = Z.max (committed_ts s + 1) 1;
  op_rows r : rows_of s r = stored_rows pms r;
  op_inv r : idx_inv (snap_index s r);
  op_loaded : all_loaded s;
  op_newest r d t c : pms r !! d = Some (t, c) → t ≤ committed_ts s;
}.

Lemma try_open_spec :
  ∃ s, (committed_ts s = 0 ∨ ∃ r d c, pms r !! d = Some (committed_ts s, c)) ∧
    if committed_ts s =? u64_max then try_open sources = Err TransactionTimestampExhausted
    else ∃ db, try_open sources = Ok db ∧ opened db s.
Proof.
  unfold try_open, snapshot.
  destruct (snapshot_loop (init sources) ALL empty_indexes 0 seeded_relations ALL_NoDup ltac:(lia))
    as (idx & ts & -> & Hle & Hatt & Hall). cbn [committed_ts].
  exists (mkSnapshot 0 ts caches_new idx None 0). cbn [committed_ts]. split; [done|].
  destruct (ts =? u64_max) eqn:He; [done|]. eexists; split; [done|].
  split; simpl; try done.
  - intros r. by destruct (Hall r (ALL_complete r)) as (Hr & _).
  - intros r. by destruct (Hall r (ALL_complete r)) as (_ & Hi & _).
  - intros r. by destruct (Hall r (ALL_complete r)) as (_ & _ & Hl & _).
  - intros r. by destruct (Hall r (ALL_complete r)) as (_ & _ & _ & Ht).
Qed.

(** ** Every step keeps the invariant *)

Lemma inv_open db :
  try_open sources = Ok db → c0 = committed_ts (root_state (snapshot_planes db)) →
  inv (mkSys db ∅ []).
Proof.
  intros Hopen Hc0. destruct try_open_spec as (s & _ & Hs).
  destruct (_ =? u64_max); [congruence|]. destruct Hs as (db' & Hopen' & Ho).
  assert (db' = db) as -> by congruence. clear Hopen Hopen'.
  destruct Ho as [Hrel Hpl Hv Hb Hsince Hts Hm Hrows Hi Hl Hle].
  rewrite Hpl in Hc0. cbn [planes_new root_state] in Hc0. rewrite <- Hc0 in *.
  split; simpl.
  - done.
  - lia.
  - split; [|by intros c Hc%elem_of_nil|by intros c r d op Hc%elem_of_nil|constructor].
    intros r d e. unfold stored_rows. rewrite lookup_fmap.
    destruct (pms r !! d) as [[t v]|] eqn:Hd; simpl; [|done]. intros [= <-]. simpl. eauto.
  - unfold root; simpl. rewrite Hpl. cbn [planes_new root_state]. split; try done.
    + rewrite Hv, Hsince. done.
    + by rewrite Hb.
  - intros i ph Hph. by rewrite lookup_empty in Hph.
  - intros i j phi phj Hph. by rewrite lookup_empty in Hph.
Qed.

(** Replacing a transaction's phase by one with the same timestamp. *)
Lemma inv_set_phase x i ph ph' db' :
  inv x → sys_txs x !! i = Some ph → phase_ts ph' = phase_ts ph →
  relations db' = relations (sys_db x) → monotonic db' = monotonic (sys_db x) →
  root_state (snapshot_planes db') = root x →
  phase_ok (monotonic (sys_db x)) (sys_history x) ph' →
  inv (mkSys db' (<[i := ph']> (sys_txs x)) (sys_history x)).
Proof.
  intros [Ir Im Ih Iroot Itx Id] Hi Hts Hrel Hmono Hroot Hok. split; simpl.
  - by rewrite Hrel.
  - by rewrite Hmono.
  - by rewrite Hmono.
  - unfold root; simpl. by rewrite Hroot.
  - rewrite Hmono. intros j phj. rewrite lookup_insert_Some. intros [[<- <-]|[_ Hj]]; eauto.
  - intros j k phj phk. rewrite !lookup_insert_Some.
    intros [[<- <-]|[Hj Hj']] [[<- <-]|[Hk Hk']]; [done|..|by eauto].
    + rewrite Hts. eauto.
    + rewrite Hts. eauto.
Qed.

Lemma inv_delete x i db' :
  inv x → relations db' = relations (sys_db x) → monotonic db' = monotonic (sys_db x) →
  root_state (snapshot_planes db') = root x →
  inv (mkSys db' (delete i (sys_txs x)) (sys_history x)).
Proof.
  intros [Ir Im Ih Iroot Itx Id] Hrel Hmono Hroot. split; simpl.
  - by rewrite Hrel.
  - by rewrite Hmono.
  - by rewrite Hmono.
  - unfold root; simpl. by rewrite Hroot.
  - rewrite Hmono. intros j phj [_ Hj]%lookup_delete_Some. eauto.
  - intros j k phj phk [_ Hj]%lookup_delete_Some [_ Hk]%lookup_delete_Some. eauto.
Qed.

Lemma inv_start x i db' t :
  inv x → sys_txs x !! i = None → monotonic (sys_db x) < u64_max →
  db_start_transaction (sys_db x) = (db', t) →
  inv (mkSys db' (<[i := Running (root x) t]> (sys_txs x)) (sys_history x)).
Proof.
  intros [Ir Im Ih Iroot Itx Id] Hi Hmax Hstart.
  unfold db_start_transaction, acquire_tx_seed, seed_caches in Hstart. simplify_eq/=.
  assert (wrap 64 (monotonic (sys_db x) + 1) = monotonic (sys_db x) + 1) as Hwrap.
  { unfold wrap. apply Z.mod_small. unfold u64_max in Hmax. lia. }
  set (m := monotonic (sys_db x)) in *.
  assert (last_ts (sys_history x) < m) as Hlast by (by eapply last_ts_mono; [|lia]).
  assert (∀ j ph, sys_txs x !! j = Some ph → phase_ts ph < m) as Holder.
  { intros j ph Hj%Itx. by apply phase_ok_ts in Hj as [Hj _]. }
  split; simpl.
  - done.
  - rewrite Hwrap. lia.
  - rewrite Hwrap. eapply hist_ok_mono; [|exact Ih]. lia.
  - done.
  - rewrite Hwrap. intros j ph. rewrite lookup_insert_Some. intros [[<- <-]|[_ Hj]].
    + split.
      * exists (sys_history x). split; simpl; try done.
        -- split; [lia|]. fold m. lia.
        -- fold (root x). by rewrite (so_ts _ _ Iroot).
        -- fold m. intros Hin. apply list_elem_of_fmap in Hin as (c & Heq & Hc).
           apply (ho_range _ _ _ _ Ih) in Hc. lia.
      * rewrite Ir. eapply start_running; [exact Iroot| |done|].
        -- simpl. fold (root x). by rewrite (so_ts _ _ Iroot).
        -- intros r d e. by eapply snap_rows_visible.
    + apply (phase_ok_mono m _ (sys_history x)); [lia|done| |by apply Itx in Hj].
      apply Itx in Hj. by apply phase_ok_ts in Hj as [_ Hj].
  - intros j k phj phk. rewrite !lookup_insert_Some.
    intros [[<- <-]|[Hj Hj']] [[<- <-]|[Hk Hk']]; [done|..|by eauto]; simpl; fold m.
    + intros Heq. apply Holder in Hk'. lia.
    + intros Heq. apply Holder in Hj'. lia.
Qed.

Lemma inv_publish x i base tx pc p data :
  inv x → sys_txs x !! i = Some (Prepared base tx pc) →
  try_publish pc (snapshot_planes (sys_db x)) = (p, Ok data) →
  inv (mkSys (with_planes p (sys_db x)) (delete i (sys_txs x))
         (sys_history x ++ [mkCommit (cd_tx_timestamp data) (cd_working_sets data)])).
Proof.
  intros [Ir Im Ih Iroot Itx Id] Hi Hpub. pose proof (Itx i _ Hi) as Hph.
  pose proof Hph as (hb & hc & Htx & Hbc & Hch & Hchk & [Dr Db Dt Dw] & Hun & Hcand).
  destruct (publish_checked _ _ (root x) pc _ p data Iroot Hch Hchk Hpub) as (-> & -> & Hroot).
  set (c := mkCommit _ _).
  assert (c_ts c = tx_ts tx) as Hc by exact Dt.
  assert (∀ j ph, j ≠ i → sys_txs x !! j = Some ph →
    phase_ts ph ∉ c_ts <$> (sys_history x ++ [c])) as Hfresh.
  { intros j ph Hne Hj. rewrite fmap_app, elem_of_app. simpl. rewrite list_elem_of_singleton.
    intros [Hin|Heq]; [by eapply phase_ok_ts; [by eapply Itx|]|].
    apply Hne. apply (Id j i ph (Prepared base tx pc) Hj Hi). simpl. by rewrite Heq. }
  split; simpl.
  - done.
  - done.
  - destruct Ih as [Hs Hr Hw Hu]. split; [done|..].
    + intros c' [Hc'|Hc'%list_elem_of_singleton]%elem_of_app; [by apply Hr|subst c'].
      rewrite Hc. apply (to_range _ _ _ _ _ Htx).
    + intros c' r d op [Hc'|Hc'%list_elem_of_singleton]%elem_of_app Hop; [by eapply Hw|subst c'].
      rewrite Hc. by eapply Dw.
    + rewrite fmap_app. apply NoDup_app. split_and!; [done| |apply NoDup_singleton].
      intros t Ht Ht'%list_elem_of_singleton. apply (to_fresh _ _ _ _ _ Htx).
      rewrite <- Hc, <- Ht'. exact Ht.
  - unfold root; simpl. rewrite Hroot. eapply candidate_snap_ok; [exact Hchk|]. by rewrite Dt.
  - intros j ph [Hne Hj]%lookup_delete_Some.
    apply (phase_ok_mono (monotonic (sys_db x)) _ (sys_history x));
      [done|by apply prefix_app_r|by eapply Hfresh|by eapply Itx].
  - intros j k phj phk [_ Hj]%lookup_delete_Some [_ Hk]%lookup_delete_Some. eauto.
Qed.

Lemma inv_step x x' : inv x → step pms x x' → inv x'.
Proof.
  intros Hinv Hstep. destruct Hstep as
    [x i db' t Hi Hmax Hst|x i base t r c Hi Ha|x i base t caches owners policies Hi|x i
    |x i base t Hi Hm|x i base t fuel adm pc Hi Hm Hprep|x i base tx pc p data Hi Hpub
    |x i base tx pc p rr Hi Hpub|x i base tx rr fuel pc Hi Hreb].
  - by apply inv_start.
  - eapply inv_set_phase; try done. destruct (inv_txs _ Hinv i _ Hi) as [Htx Hrun].
    split; [exact Htx|by apply exec_running].
  - eapply inv_set_phase; try done. destruct (inv_txs _ Hinv i _ Hi) as [Htx Hrun].
    split; [exact Htx|exact Hrun].
  - by apply inv_delete.
  - apply inv_delete; [done|done|done|]. unfold root, publish_read_only_cache; simpl.
    by repeat case_match.
  - eapply inv_set_phase; try done. destruct Hinv as [Ir Im Ih Iroot Itx Id].
    rewrite Ir in Hprep. eapply prepare_phase; [done|exact Iroot|by eapply Itx|done].
  - by eapply inv_publish.
  - pose proof (inv_txs _ Hinv i _ Hi) as (hb & hc & Htx & Hbc & Hch & Hchk & Hd & Hun & Hcand).
    destruct (lost_checked _ _ pc _ p rr (inv_root _ Hinv) Hchk Hpub) as (Hne & -> & ->).
    eapply inv_set_phase; try done. exists hb, hc. by split_and!.
  - eapply inv_set_phase; try done. destruct Hinv as [Ir Im Ih Iroot Itx Id].
    eapply rebase_phase; [done|exact Iroot|by eapply Itx|done].
Qed.
End invariant.

Section reach.
Context `{Hashes} `{Payload}.
Context {P : DatabaseRelation → Type} `{∀ r, Provider (P r) (DomainOf r) (CodomainOf r)}.
Context (sources : ∀ r, P r) (pms : ∀ r, gmap (DomainOf r) (Timestamp * CodomainOf r)).
Hypothesis sources_model : ∀ r, ProviderModel (sources r) (pms r).

Lemma reachable_inv x : reachable sources pms x → ∃ c0, inv sources pms c0 x.
Proof.
  induction 1 as [db Hopen|x x' _ [c0 IH] Hstep].
  - eexists. by apply inv_open.
  - exists c0. by eapply inv_step.
Qed.
End reach.
