(* ===== verification/SystemMain.v ===== *)
(** The results on the whole database: snapshot isolation with
    first-committer-wins over the thirteen relations, the commit pipeline's
    outcomes, and reopening. *)
From S2P Require Import Prelude Obj TxTypes RelIndex RelTx RelTxSpec RelTxProofs RelTxMain.
From S2P Require Import Verbs Caches.
From S2P Require Import CheckApply CheckApplyProofs Bloom Model Relations.
From S2P Require Import PropertyPolicy Commit CommitProofs System SystemProofs.
From stdpp Require Import base gmap sets list strings fin_maps.

Open Scope Z_scope.

#[local] Arguments is_provider_fully_loaded : simpl never.
#[local] Arguments idx_entries : simpl never.
#[local] Arguments idx_inv : simpl never.
#[local] Arguments index_lookup : simpl never.

Section main.
Context `{Hashes} `{Payload}.
Context {P : DatabaseRelation → Type} `{∀ r, Provider (P r) (DomainOf r) (CodomainOf r)}.
Context (sources : ∀ r, P r) (pms : ∀ r, gmap (DomainOf r) (Timestamp * CodomainOf r)).

(** C1: in every reachable state, under any interleaving of transactions, the
    published snapshot holds exactly the stored rows with the logs of the
    published commits applied one after the other in version order, its version
    is the number of commits, and no two commits share a timestamp. *)
Theorem published_state_is_serial (x : sys (P := P)) :
  (∀ r, ProviderModel (sources r) (pms r)) →
  reachable sources pms x →
  version (root x) = Z.of_nat (length (sys_history x)) ∧
  (∀ r, rows_of (root x) r = state_after pms (sys_history x) r) ∧
  (∀ r, idx_inv (snap_index (root x) r)) ∧
  NoDup (c_ts <$> sys_history x).
Proof.
  intros Hsrc [c0 [Ir Im Ih Iroot Itx Id]]%reachable_inv; [|done].
  split_and!; [apply (so_version _ _ _ _ Iroot)|apply (so_rows _ _ _ _ Iroot)
    |apply (so_inv _ _ _ _ Iroot)|apply (ho_unique _ _ _ _ Ih)].
Qed.

(** C2: no lost update. When the compare-and-swap of a commit succeeds, every
    key the transaction wrote (guaranteed-unique inserts and property values
    with the overwrite flag aside) still has, in the root being replaced,
    exactly the entry it had in the snapshot the transaction started from,
    which is the state after some earlier prefix of the commits; and the new
    root is the old one with the transaction's log applied. *)
Theorem first_committer_wins (x : sys (P := P)) i base tx pc p data :
  (∀ r, ProviderModel (sources r) (pms r)) →
  reachable sources pms x →
  sys_txs x !! i = Some (Prepared base tx pc) →
  try_publish pc (snapshot_planes (sys_db x)) = (p, Ok data) →
  (∃ h, h `prefix_of` sys_history x ∧ version base = Z.of_nat (length h) ∧
     ∀ r, rows_of base r = state_after pms h r) ∧
  (∀ r d op, ops (cd_working_sets data) r !! d = Some op → guaranteed_unique op = false →
     can_clobber (cd_working_sets data) r d = false →
     rows_of (root x) r !! d = rows_of base r !! d) ∧
  (∀ r, rows_of (root_state p) r =
     commit_overlay (ops (cd_working_sets data) r) (rows_of (root x) r)).
Proof.
  intros Hsrc [c0 Hinv]%reachable_inv Hi Hpub; [|done].
  pose proof (inv_txs _ _ _ _ Hinv i _ Hi) as (hb & hc & Htx & Hbc & Hch & Hchk & Hd & Hun & Hcand).
  destruct (publish_checked pms c0 _ _ (root x) pc _ p data (inv_root _ _ _ _ Hinv) Hch Hchk Hpub)
    as (-> & -> & Hroot).
  assert (∀ r, rows_of (root x) r = rows_of (pc_checked_root pc) r) as Hsame.
  { intros r. by rewrite (so_rows _ _ _ _ (inv_root _ _ _ _ Hinv)), (so_rows _ _ _ _ Hchk). }
  split_and!.
  - exists hb. destruct Htx as [Hp Hb _ _ _ _ _]. split_and!; [done|apply (so_version _ _ _ _ Hb)|].
    apply (so_rows _ _ _ _ Hb).
  - intros r d op Hop Hu Hcl. rewrite Hsame. by apply (Hun r d op).
  - intros r. rewrite Hroot, Hsame. apply (cand_rows _ _ _ _ Hcand).
Qed.

(** C8: a running transaction reads its own writes over one fixed snapshot: the
    committed state after a prefix of the commits, whatever has been published
    since it started. *)
Theorem running_transaction_reads_snapshot (x : sys (P := P)) i base t :
  (∀ r, ProviderModel (sources r) (pms r)) →
  reachable sources pms x →
  sys_txs x !! i = Some (Running base t) →
  ∃ h, h `prefix_of` sys_history x ∧ tx_snapshot_version (wtx t) = Z.of_nat (length h) ∧
    ∀ r d, RelationTransaction.get d (wtx_relations t r) =
      Ok (overlay (RelTxSpec.log (wtx_relations t r)) (state_after pms h r) !! d).
Proof.
  intros Hsrc [c0 Hinv]%reachable_inv Hi; [|done].
  destruct (inv_txs _ _ _ _ Hinv i _ Hi) as [[hb [Hp Hb _ Hver _ _ _]] Hrun].
  exists hb. split_and!; [done|by rewrite Hver, (so_version _ _ _ _ Hb)|].
  intros r d. destruct (Hrun r) as (Hwf & Hbase & _).
  rewrite (get_view (pms r)) by done. unfold view. by rewrite Hbase, (so_rows _ _ _ _ Hb).
Qed.

(** a transaction one of whose strictly checked written keys has changed
    since its snapshot cannot be prepared for publication: preparing it reports
    an error whatever the admission. *)
Theorem moved_key_refuses_commit (x : sys (P := P)) i base t r d op fuel adm :
  (∀ r, ProviderModel (sources r) (pms r)) →
  reachable sources pms x →
  sys_txs x !! i = Some (Running base t) →
  ops (final_ws t) r !! d = Some op → guaranteed_unique op = false →
  can_clobber (final_ws t) r d = false →
  rows_of (root x) r !! d ≠ rows_of base r !! d →
  is_ok (prepare (relations (sys_db x)) fuel (root x) adm (into_working_sets t)) = false.
Proof.
  intros Hsrc [c0 Hinv]%reachable_inv Hi Hop Hu Hcl Hmoved; [|done].
  destruct (prepare _ fuel (root x) adm _) as [pc|e] eqn:Hprep; [|done].
  rewrite (inv_relations _ _ _ _ Hinv) in Hprep.
  pose proof (prepare_spec (init sources) fuel (root x) adm (into_working_sets t)) as Hspec.
  rewrite Hprep in Hspec. destruct (inv_txs _ _ _ _ Hinv i _ Hi) as [[hb Htx] Hrun].
  destruct Hmoved. apply (prepare_unmoved pms c0 _ _ base t hb (root x) pc
    (inv_hist _ _ _ _ Hinv) (inv_root _ _ _ _ Hinv) Htx Hrun) with (op := op); [|done..].
  apply Hspec; [|apply (so_loaded _ _ _ _ (inv_root _ _ _ _ Hinv))
    |intros r'; by eapply final_ws_ordered].
  intros r'. exists (pms r'). unfold init. by destruct (is_secondary r').
Qed.

(** C32: the commit code never fails its internal assertions: neither preparing
    a running transaction nor rebasing one that lost its publication reaches an
    [expect] that does not hold. *)
Theorem commit_never_panics (x : sys (P := P)) i ph fuel adm :
  (∀ r, ProviderModel (sources r) (pms r)) →
  reachable sources pms x →
  sys_txs x !! i = Some ph →
  match ph with
  | Running _ t => prepare (relations (sys_db x)) fuel (root x) adm (into_working_sets t)
                   ≠ Err (PrepareAborted Panicked)
  | Retrying _ _ rr => rebase fuel (root x) rr ≠ Err (PrepareAborted Panicked)
  | Prepared _ _ _ => True
  end.
Proof.
  intros Hsrc [c0 Hinv]%reachable_inv Hi; [|done].
  pose proof (inv_txs _ _ _ _ Hinv i _ Hi) as Hph.
  destruct ph as [base t|base tx pc|base tx rr]; [|done|].
  - destruct Hph as [[hb Htx] Hrun]. rewrite (inv_relations _ _ _ _ Hinv).
    pose proof (prepare_spec (init sources) fuel (root x) adm (into_working_sets t)) as Hspec.
    destruct (prepare _ _ _ _ _) as [pc|e]; [done|]. intros [= ->].
    apply Hspec; [|apply (so_loaded _ _ _ _ (inv_root _ _ _ _ Hinv))
      |intros r'; by eapply final_ws_ordered|done].
    intros r'. exists (pms r'). unfold init. by destruct (is_secondary r').
  - destruct Hph as (hb & hc & Htx & Hbc & Hch & Hne & Hchk & [Dr Db Dt Dw] & Hun).
    pose proof (rebase_spec fuel (root x) rr Dr Db) as Hspec.
    destruct (rebase _ _ _) as [pc|e]; [done|]. intros [= ->]. apply Hspec; [|done].
    pose proof (so_bloom _ _ _ _ (inv_root _ _ _ _ Hinv)) as Hbl.
    destruct (commit_bloom (root x)); [by eexists|]. rewrite Hbl in *.
    destruct Hne. by apply prefix_nil_inv in Hch.
Qed.

(** C9: an uncontended commit succeeds: when nothing was published since the
    transaction's snapshot and the batch writer admits it, the commit returns
    success with the transaction's timestamp at the first attempt, and the new
    root is the old one with its log applied, one version later. *)
Theorem uncontended_commit_succeeds (x : sys (P := P)) i base t fuel :
  (∀ r, ProviderModel (sources r) (pms r)) →
  reachable sources pms x →
  sys_txs x !! i = Some (Running base t) →
  has_mutations t = true → version base = version (root x) →
  ∃ p, commit_writes (relations (sys_db x)) fuel AdmissionGranted (λ _ p, p)
         (into_working_sets t) (snapshot_planes (sys_db x)) =
       (p, Committed (CommitSuccess true (tx_ts (wtx t)))) ∧
    version (root_state p) = version (root x) + 1 ∧
    ∀ r, rows_of (root_state p) r = commit_overlay (ops (final_ws t) r) (rows_of (root x) r).
Proof.
  intros Hsrc [c0 Hinv]%reachable_inv Hi Hmut Hver; [|done].
  destruct (inv_txs _ _ _ _ Hinv i _ Hi) as [[hb Htx] Hrun].
  assert (tx_snapshot_version (wtx t) = version (root x)) as Hv
    by (by rewrite (to_version _ _ _ _ _ _ _ Htx)).
  assert (relations_ok (init sources)) as Hrels.
  { intros r. exists (pms r). unfold init. by destruct (is_secondary r). }
  unfold commit_writes. change (ws_has_mutations (into_working_sets t)) with (has_mutations t).
  rewrite Hmut, (inv_relations _ _ _ _ Hinv). cbn [negb].
  pose proof (prepare_spec (init sources) fuel (root x) AdmissionGranted (into_working_sets t) Hrels
    (so_loaded _ _ _ _ (inv_root _ _ _ _ Hinv))
    (λ r, final_ws_ordered pms base t r Hrun)) as Hspec.
  fold (root x).
  assert (∃ pc, prepare (init sources) fuel (root x) AdmissionGranted (into_working_sets t) = Ok pc)
    as [pc Hprep].
  { unfold prepare. cbn [extract_relation_working_sets].
    change (ws_tx (into_working_sets t)) with (wtx t). unfold skip_conflict_check.
    rewrite Hv, Z.eqb_refl. cbn [negb orb]. unfold prepare_candidate, prepare_apply_all.
    edestruct (prepare_apply_loop (final_ws t) ALL (begin_check_all (init sources) (root x) (final_ws t))
      CommitBloom.new) as (cs2 & Hf & _);
      [by apply begin_check_present; [|apply (so_loaded _ _ _ _ (inv_root _ _ _ _ Hinv))]
      |exact ALL_NoDup|].
    unfold final_ws in Hf. cbn [extract_relation_working_sets fst] in Hf.
    rewrite Hf. eauto. }
  rewrite Hprep in Hspec |- *. destruct Hspec as [Pr Pw Pt Pb Pre Pc _].
  cbn [publish_loop MAX_REBASE_ATTEMPTS]. unfold try_publish, try_publish_write_root.
  fold (root x). rewrite Pr, Z.eqb_refl. rewrite Pt.
  eexists. split; [reflexivity|]. cbn [root_state]. split.
  - apply (cand_version _ _ _ _ Pc).
  - intros r. rewrite (cand_rows _ _ _ _ Pc), Pw. done.
Qed.



(** C31: opening a database recovers the stored state: when every stored
    timestamp is below the 64-bit maximum, opening succeeds, the first root is
    version 0 and holds exactly the stored rows, and the first transaction sees
    all of them and gets a timestamp above every stored one. *)
Theorem reopen_recovers_state :
  (∀ r, ProviderModel (sources r) (pms r)) →
  (∀ r d t c, pms r !! d = Some (t, c) → 0 ≤ t < u64_max) →
  ∃ db, try_open sources = Ok db ∧
    let s := root_state (snapshot_planes db) in
    let tx := (acquire_tx_seed db).2.1.1 in
    version s = 0 ∧ (∀ r, rows_of s r = stored_rows pms r) ∧
    tx_visible_ts tx < tx_ts tx ∧
    ∀ r d t c, pms r !! d = Some (t, c) → t ≤ tx_visible_ts tx.
Proof.
  intros Hsrc Hts. destruct (try_open_spec sources pms Hsrc) as (s & Hatt & Hs).
  destruct (Z.eqb_spec (committed_ts s) u64_max) as [He|He].
  { exfalso. destruct Hatt as [H0'|(r & d & c & Hd)]; [by rewrite H0' in He|].
    apply Hts in Hd. lia. }
  destruct Hs as (db & Hopen & Ho). exists db. split; [done|]. cbn zeta.
  unfold acquire_tx_seed, seed_caches. rewrite (op_planes _ _ _ _ Ho).
  cbn [planes_new root_state fst snd tx_ts tx_visible_ts].
  destruct Ho as [_ _ Hv _ _ Hc Hm Hrows _ _ Hnew]. split_and!; [done|done|lia|exact Hnew].
Qed.

(** a store that holds the largest timestamp is refused instead of wrapping
    the transaction counter around. *)
Theorem open_refuses_exhausted_timestamps r d c :
  (∀ r, ProviderModel (sources r) (pms r)) →
  (∀ r d t c, pms r !! d = Some (t, c) → 0 ≤ t ≤ u64_max) →
  pms r !! d = Some (u64_max, c) →
  try_open sources = Err TransactionTimestampExhausted.
Proof.
  intros Hsrc Hts Hd. destruct (try_open_spec sources pms Hsrc) as (s & Hatt & Hs).
  destruct (Z.eqb_spec (committed_ts s) u64_max) as [He|He]; [done|].
  destruct Hs as (db & Hopen & Ho). pose proof (op_newest _ _ _ _ Ho r d _ c Hd) as Hle.
  destruct Hatt as [H0'|(r' & d' & c' & Hd')]; [|apply Hts in Hd'; lia].
  rewrite H0' in Hle. by destruct Hle.
Qed.
End main.
