(* ===== verification/CacheCoherence.v ===== *)
(** Caches and snapshots: which caches a transaction is given, and that they
    speak of the snapshot it reads.

    A write commit tests [has_changed] on a fork of its caches, which has never
    changed, so it publishes the caches of the root it replaces. Caches travel
    only through the cache plane, which a read-only commit writes and the next
    transaction reads, both on a test of the version. *)
From S2P Require Import Prelude Obj TxTypes RelIndex RelTx RelTxSpec RelTxProofs CheckApply.
From S2P Require Import Verbs Caches.
From S2P Require Import CheckApplyProofs Bloom Model Relations PropertyPolicy Commit CommitProofs.
From S2P Require Import System SystemProofs.
From stdpp Require Import base gmap sets list strings fin_maps.

Open Scope Z_scope.

#[local] Arguments is_provider_fully_loaded : simpl never.
#[local] Arguments idx_entries : simpl never.
#[local] Arguments idx_inv : simpl never.
#[local] Arguments index_lookup : simpl never.

Section coherence.
Context `{Hashes} `{Payload}.
Context {P : DatabaseRelation → Type} `{∀ r, Provider (P r) (DomainOf r) (CodomainOf r)}.
Context (sources : ∀ r, P r) (pms : ∀ r, gmap (DomainOf r) (Timestamp * CodomainOf r)).

(** ** The caches of the roots *)

Lemma build_snapshot_caches checkers (s : WorldStateSnapshot) ts c bloom :
  snap_caches (build_snapshot (P := P) checkers s ts (caches_fork c) bloom) = snap_caches s.
Proof.
  unfold build_snapshot. destruct (match commit_bloom s with Some _ => _ | None => _ end).
  cbn [snap_caches]. by rewrite fork_unchanged.
Qed.

Lemma build_rebased_snapshot_caches checkers ws (s : WorldStateSnapshot) ts c bloom :
  snap_caches (build_rebased_snapshot (P := P) checkers ws s ts (caches_fork c) bloom) =
  snap_caches s.
Proof.
  unfold build_rebased_snapshot. destruct (if _ <? _ then _ else _).
  cbn [snap_caches]. by rewrite fork_unchanged.
Qed.

Lemma prepare_caches rels fuel s adm ws (pc : PreparedCommit (P := P)) :
  prepare rels fuel s adm ws = Ok pc → snap_caches (pc_candidate pc) = snap_caches s.
Proof.
  unfold prepare, prepare_candidate. intros Hp. repeat case_match; simplify_eq/=.
  all: apply build_snapshot_caches.
Qed.

Lemma rebase_caches fuel s rr (pc : PreparedCommit (P := P)) :
  rebase fuel s rr = Ok pc → snap_caches (pc_candidate pc) = snap_caches s.
Proof.
  unfold rebase. intros Hp. repeat case_match; simplify_eq/=.
  all: apply build_rebased_snapshot_caches.
Qed.

Definition empty_caches (x : sys (P := P)) : Prop :=
  snap_caches (root x) = caches_new ∧
  ∀ i base tx pc, sys_txs x !! i = Some (Prepared base tx pc) →
    snap_caches (pc_candidate pc) = caches_new.

(** A step that changes one transaction, into a phase with such a candidate. *)
Lemma empty_caches_set x i ph db' hist :
  empty_caches x → snap_caches (root_state (snapshot_planes db')) = caches_new →
  (∀ base tx pc, ph = Prepared base tx pc → snap_caches (pc_candidate pc) = caches_new) →
  empty_caches (mkSys db' (<[i := ph]> (sys_txs x)) hist).
Proof.
  intros [Hr Hp] Hroot Hph. split; [done|]. simpl. intros j base tx pc.
  rewrite lookup_insert_Some. intros [[<- Heq]|[_ Hj]]; eauto.
Qed.

Lemma empty_caches_delete x i db' hist :
  empty_caches x → snap_caches (root_state (snapshot_planes db')) = caches_new →
  empty_caches (mkSys db' (delete i (sys_txs x)) hist).
Proof.
  intros [Hr Hp] Hroot. split; [done|]. simpl. intros j base tx pc [_ Hj]%lookup_delete_Some. eauto.
Qed.

Lemma try_publish_caches (pc : PreparedCommit (P := P)) p p' out :
  try_publish pc p = (p', out) → snap_caches (root_state p) = caches_new →
  snap_caches (pc_candidate pc) = caches_new → snap_caches (root_state p') = caches_new.
Proof. unfold try_publish, try_publish_write_root. intros. repeat case_match; by simplify_eq/=. Qed.

Lemma publish_read_only_root v c p : root_state (publish_read_only_cache v c p) = root_state p.
Proof. unfold publish_read_only_cache. by repeat case_match. Qed.

Lemma empty_caches_step x x' : empty_caches x → step pms x x' → empty_caches x'.
Proof.
  intros Hx Hstep. pose proof Hx as [Hr Hp]. destruct Hstep as
    [x i db' t Hi Hmax Hst|x i base t r c Hi Ha|x i base t caches owners policies Hi|x i
    |x i base t Hi Hm|x i base t fuel adm pc Hi Hm Hprep|x i base tx pc p data Hi Hpub
    |x i base tx pc p rr Hi Hpub|x i base tx rr fuel pc Hi Hreb].
  - unfold db_start_transaction, acquire_tx_seed, seed_caches in Hst. simplify_eq/=.
    by apply empty_caches_set.
  - by apply empty_caches_set.
  - by apply empty_caches_set.
  - by apply empty_caches_delete.
  - apply empty_caches_delete; [done|]. simpl. by rewrite publish_read_only_root.
  - apply empty_caches_set; [done|done|]. intros ??? [= <- <- <-]. by rewrite (prepare_caches _ _ _ _ _ _ Hprep).
  - apply empty_caches_delete; [done|]. simpl. by eapply try_publish_caches; eauto.
  - apply empty_caches_set; [done| |done]. simpl. by eapply try_publish_caches; eauto.
  - apply empty_caches_set; [done|done|]. intros ??? [= <- <- <-]. by rewrite (rebase_caches _ _ _ _ Hreb).
Qed.

Lemma try_open_caches db :
  try_open sources = Ok db →
  snapshot_planes db = planes_new (root_state (snapshot_planes db)) ∧
  snap_caches (root_state (snapshot_planes db)) = caches_new.
Proof. unfold try_open, snapshot. intros Ho. repeat case_match; by simplify_eq/=. Qed.

Lemma empty_caches_reachable x : reachable sources pms x → empty_caches x.
Proof.
  induction 1 as [db Hopen|x x' _ IH Hstep]; [|by eapply empty_caches_step].
  split; [by apply try_open_caches in Hopen as [_ ?]|]. by intros.
Qed.

(** no write commit publishes the caches it filled: whatever transactions ran
    and committed, the published root carries the empty caches the database was
    opened with, and so does every candidate waiting to be published. *)
Theorem write_commits_discard_caches (x : sys (P := P)) :
  reachable sources pms x →
  snap_caches (root x) = caches_new ∧
  ∀ i base tx pc, sys_txs x !! i = Some (Prepared base tx pc) →
    snap_caches (pc_candidate pc) = caches_new.
Proof. apply empty_caches_reachable. Qed.

(** ** Coherence *)

(** What the caches are meant to say of the rows: any statement that the empty
    caches satisfy and forking keeps. *)
Class Coherence (coherent : Rows → Caches → Prop) : Prop := {
  coherent_rows m m' c : (∀ r, m r = m' r) → coherent m c → coherent m' c;
  coherent_new m : coherent m caches_new;
  coherent_fork m c : coherent m c → coherent m (caches_fork c);
}.

Section protocol.
Context (coherent : Rows → Caches → Prop) `{!Coherence coherent}.
Hypothesis sources_model : ∀ r, ProviderModel (sources r) (pms r).

Definition caches_ok (base : WorldStateSnapshot) (t : WorldStateTransaction (P := P)) : Prop :=
  has_mutations t = false → coherent (rows_of base) (wtx_caches t).

(** A transaction that has written nothing keeps its caches coherent with the
    snapshot it reads: what the operations on the world state promise. *)
Definition keeps_caches (x x' : sys (P := P)) : Prop :=
  ∀ i base t t', sys_txs x !! i = Some (Running base t) →
    sys_txs x' !! i = Some (Running base t') → caches_ok base t → caches_ok base t'.

Inductive reachable_coherently : sys (P := P) → Prop :=
| rc_open db : try_open sources = Ok db → reachable_coherently (mkSys db ∅ [])
| rc_step x x' : reachable_coherently x → step pms x x' → keeps_caches x x' →
    reachable_coherently x'.

Lemma coherently_reachable x : reachable_coherently x → reachable sources pms x.
Proof. induction 1; [by apply reach_open|by eapply reach_step]. Qed.

Record caches_inv (x : sys (P := P)) : Prop := {
  ci_running i base t : sys_txs x !! i = Some (Running base t) → caches_ok base t;
  ci_plane : let p := snapshot_planes (sys_db x) in
    cp_version (cache_publication p) = version (root_state p) →
    coherent (rows_of (root_state p)) (cp_caches (cache_publication p));
}.

(** The caches a transaction starts with. *)
Lemma seed_coherent x :
  caches_inv x → snap_caches (root x) = caches_new →
  coherent (rows_of (root x)) (seed_caches (snapshot_planes (sys_db x))).2.
Proof.
  intros [_ Hp] Hr. unfold seed_caches. cbn [snd].
  destruct (Z.eqb_spec (cp_version (cache_publication (snapshot_planes (sys_db x))))
    (version (root_state (snapshot_planes (sys_db x))))) as [He|_]; [by apply Hp|].
  fold (root x). rewrite Hr. apply coherent_new.
Qed.

(** A snapshot as new as the root has the root's rows. *)
Lemma same_version_rows c0 x i base t :
  inv sources pms c0 x → sys_txs x !! i = Some (Running base t) →
  version (root x) = tx_snapshot_version (wtx t) → ∀ r, rows_of base r = rows_of (root x) r.
Proof.
  intros Hinv Hi Hv r. destruct (inv_txs _ _ _ _ Hinv i _ Hi) as [[hb [Hp Hb _ Hver _ _ _]] _].
  pose proof (inv_root _ _ _ _ Hinv) as Hroot.
  assert (hb = sys_history x) as ->.
  { apply (SystemProofs.prefix_length_eq (sys_history x)); [done|done|]. rewrite Hver in Hv.
    rewrite (so_version _ _ _ _ Hb), (so_version _ _ _ _ Hroot) in Hv. lia. }
  by rewrite (so_rows _ _ _ _ Hb), (so_rows _ _ _ _ Hroot).
Qed.

Lemma read_only_plane c0 x i base t :
  inv sources pms c0 x → caches_inv x → sys_txs x !! i = Some (Running base t) →
  has_mutations t = false →
  let p := publish_read_only_cache (tx_snapshot_version (wtx t)) (wtx_caches t)
             (snapshot_planes (sys_db x)) in
  cp_version (cache_publication p) = version (root_state p) →
  coherent (rows_of (root_state p)) (cp_caches (cache_publication p)).
Proof.
  intros Hinv [Hrun Hp] Hi Hm p. unfold p, publish_read_only_cache.
  destruct (negb (Caches.has_changed _)); [done|].
  destruct (Z.eqb_spec (version (root_state (snapshot_planes (sys_db x))))
    (tx_snapshot_version (wtx t))) as [He|_]; [|done]. cbn [negb]. intros _. simpl.
  apply (coherent_rows (rows_of base)); [by eapply same_version_rows|by eapply Hrun].
Qed.

Lemma publish_plane x (pc : PreparedCommit (P := P)) p out :
  caches_inv x → try_publish pc (snapshot_planes (sys_db x)) = (p, out) →
  snap_caches (pc_candidate pc) = caches_new →
  cp_version (cache_publication p) = version (root_state p) →
  coherent (rows_of (root_state p)) (cp_caches (cache_publication p)).
Proof.
  intros [_ Hp] Hpub Hc. unfold try_publish, try_publish_write_root in Hpub.
  destruct (_ =? _); simplify_eq/=; [|done]. rewrite Hc. intros _. apply coherent_new.
Qed.

(** The running transactions of the next state are running now, or start. *)
Lemma caches_inv_step x x' :
  reachable sources pms x → caches_inv x → step pms x x' → keeps_caches x x' → caches_inv x'.
Proof.
  intros Hx Hinv Hstep Hkeep. destruct (reachable_inv sources pms sources_model x Hx) as [c0 Hi0].
  destruct (empty_caches_reachable x Hx) as [Hr Hpc].
  assert (∀ i base t, (∃ t0, sys_txs x !! i = Some (Running base t0)) →
    sys_txs x' !! i = Some (Running base t) → caches_ok base t) as Hold.
  { intros i base t [t1 Hi] Hi'. eapply Hkeep; [done..|]. by eapply ci_running. }
  destruct Hstep as
    [x i db' t Hi Hmax Hst|x i base t r c Hi Ha|x i base t caches owners policies Hi|x i
    |x i base t Hi Hm|x i base t fuel adm pc Hi Hm Hprep|x i base tx pc p data Hi Hpub
    |x i base tx pc p rr Hi Hpub|x i base tx rr fuel pc Hi Hreb]; split; cbn [sys_txs sys_db] in *.
  - intros j b t'. rewrite lookup_insert_Some. intros [[<- [= <- <-]]|[Hne Hj]].
    + intros _. unfold db_start_transaction, acquire_tx_seed in Hst.
      pose proof (seed_coherent x Hinv Hr) as Hseed. unfold seed_caches in *. simplify_eq/=.
      by apply coherent_fork.
    + apply (Hold j); [by exists t'|]. by rewrite lookup_insert_ne.
  - unfold db_start_transaction, acquire_tx_seed, seed_caches in Hst. simplify_eq/=. apply Hinv.
  - intros j b t' Hj. apply (Hold j); [|done].
    apply lookup_insert_Some in Hj as [[<- [= <- <-]]|[_ Hj]]; by eexists.
  - apply Hinv.
  - intros j b t' Hj. apply (Hold j); [|done].
    apply lookup_insert_Some in Hj as [[<- [= <- <-]]|[_ Hj]]; by eexists.
  - apply Hinv.
  - intros j b t' [_ Hj]%lookup_delete_Some. by eapply ci_running.
  - apply Hinv.
  - intros j b t' [_ Hj]%lookup_delete_Some. by eapply ci_running.
  - by eapply read_only_plane.
  - intros j b t' [[_ [=]]|[_ Hj]]%lookup_insert_Some. by eapply ci_running.
  - apply Hinv.
  - intros j b t' [_ Hj]%lookup_delete_Some. by eapply ci_running.
  - by eapply publish_plane; eauto.
  - intros j b t' [[_ [=]]|[_ Hj]]%lookup_insert_Some. by eapply ci_running.
  - by eapply publish_plane; eauto.
  - intros j b t' [[_ [=]]|[_ Hj]]%lookup_insert_Some. by eapply ci_running.
  - apply Hinv.
Qed.

Lemma caches_inv_reachable x : reachable_coherently x → caches_inv x.
Proof.
  induction 1 as [db Hopen|x x' Hx IH Hstep Hkeep].
  - apply try_open_caches in Hopen as [Hp Hc]. split; [by intros|]. simpl. intros _.
    rewrite Hp. cbn [planes_new cache_publication cp_caches]. rewrite Hc. apply coherent_new.
  - eapply caches_inv_step; [by apply coherently_reachable|done..].
Qed.
End protocol.

(** C39: caches never speak of another snapshot. If transactions that have written
    nothing keep their own caches coherent with the snapshot they read, then
    under every interleaving every such transaction, from its start on, has
    caches coherent with its snapshot, and the caches the next transaction will
    be given are coherent with the published root: neither a cache published
    late by a read-only commit nor the cache plane left by an older root is
    ever taken for a newer one. *)
Theorem caches_follow_snapshot (coherent : Rows → Caches → Prop) (x : sys (P := P)) :
  Coherence coherent →
  (∀ r, ProviderModel (sources r) (pms r)) →
  reachable_coherently coherent x →
  (∀ i base t, sys_txs x !! i = Some (Running base t) → has_mutations t = false →
     coherent (rows_of base) (wtx_caches t)) ∧
  coherent (rows_of (seed_caches (snapshot_planes (sys_db x))).1)
    (seed_caches (snapshot_planes (sys_db x))).2.
Proof.
  intros Hcoh Hsrc Hx. pose proof (caches_inv_reachable coherent Hsrc x Hx) as Hinv.
  split; [apply Hinv|]. refine (seed_coherent coherent x Hinv _).
  by eapply empty_caches_reachable, coherently_reachable.
Qed.
End coherence.
