(* ===== verification/IndexKinds.v ===== *)
(** The relations that keep a reverse index keep it: from opening through every
    commit, publication and rebase, a relation seeded with a reverse index has
    one in the published root, in every candidate and in every transaction. *)
From S2P Require Import Prelude Obj TxTypes RelIndex RelTx RelTxSpec RelTxProofs CheckApply.
From S2P Require Import Verbs Caches CheckApplyProofs Bloom Model Relations PropertyPolicy Commit.
From S2P Require Import CommitProofs System SystemProofs.
From stdpp Require Import base gmap sets list strings fin_maps.

Open Scope Z_scope.

Section kind.
Context {D C : Type} `{Countable D} `{RelationCodomain C}.
Implicit Types i : DynIndex D C.

Definition reverse_kind i : bool :=
  match i with DynSecondary _ => true | DynHash _ => false end.

Lemma reverse_kind_secondary i : reverse_kind i = true → has_secondary_index i = true.
Proof. by destruct i. Qed.
Lemma reverse_insert ts d c i : reverse_kind (insert_entry ts d c i).1 = reverse_kind i.
Proof. destruct i as [i|s]; simpl; [done|]. by destruct (SecondaryIndexRelation.insert_entry ts d c s). Qed.
Lemma reverse_batch ins tombs i : reverse_kind (apply_batch ins tombs i) = reverse_kind i.
Proof. by destruct i. Qed.
Lemma reverse_loaded b i : reverse_kind (set_provider_fully_loaded b i) = reverse_kind i.
Proof. by destruct i. Qed.
End kind.

#[local] Arguments insert_entry : simpl never.
#[local] Arguments apply_batch : simpl never.
#[local] Arguments set_provider_fully_loaded : simpl never.

Section checkers.
Context {D C P : Type} `{RelationDomain D} `{RelationCodomain C} `{!Provider P D C}.
Import CheckRelation.
Implicit Types c : CheckRelation.t (DynIndex D C) P.

Lemma check_op_kind {R} `{!ConflictResolver R D C} bi c (r : R) d op c' r' op' :
  check_op bi c r d op = Ok (c', r', op') → reverse_kind (index c') = reverse_kind (index c).
Proof.
  unfold check_op, resolve_conflict. intros Hc.
  repeat (case_match; simplify_eq/=; try done); by rewrite reverse_insert.
Qed.

Lemma check_kind {R} `{!ConflictResolver R D C} ws (r : R) c c' ws' :
  check_with_resolver ws r c = Ok (c', ws') → reverse_kind (index c') = reverse_kind (index c).
Proof.
  unfold check_with_resolver. intros Hc. destruct (fold_res _ _ _) as [[[c1 r1] t1]|] eqn:Hf; [|done].
  simplify_eq/=. revert Hf. apply (fold_res_inv _ (λ st, reverse_kind (index st.1.1) = reverse_kind (index c))).
  - done.
  - intros [[c2 r2] t2] [d op] st' _ Hst Hs. unfold check_step in Hs.
    destruct (check_op _ _ _ _ _) as [[[c3 r3] op3]|] eqn:Ho; [|done]. simplify_eq/=.
    by rewrite (check_op_kind _ _ _ _ _ _ _ _ Ho).
Qed.

Lemma prepare_indexes_kind ws c :
  reverse_kind (index (prepare_indexes ws c)) = reverse_kind (index c).
Proof.
  unfold prepare_indexes, load_flag, apply_batch_instrumented.
  destruct (WorkingSet.provider_fully_loaded ws), (WorkingSet.is_empty ws), (collect_index_ops ws);
    simpl; repeat case_match; by rewrite ?reverse_batch, ?reverse_loaded.
Qed.

Lemma rebased_kind ws c i :
  reverse_kind (rebased_snapshot_index c i ws) = reverse_kind i.
Proof.
  unfold rebased_snapshot_index, load_flag. destruct (negb _); [done|].
  destruct (WorkingSet.provider_fully_loaded ws), (collect_index_ops ws);
    by rewrite reverse_batch, ?reverse_loaded.
Qed.
End checkers.

Section system.
Context `{Hashes} `{Payload}.
Context {P : DatabaseRelation → Type} `{∀ r, Provider (P r) (DomainOf r) (CodomainOf r)}.
Context (sources : ∀ r, P r) (pms : ∀ r, gmap (DomainOf r) (Timestamp * CodomainOf r)).
Hypothesis sources_model : ∀ r, ProviderModel (sources r) (pms r).

Definition kinds_ok (s : WorldStateSnapshot) : Prop :=
  ∀ r, is_secondary r = true → reverse_kind (snap_index s r) = true.
Definition checkers_ok (c : RelationCheckers (P := P)) : Prop :=
  ∀ r k, c r = Some k → is_secondary r = true → reverse_kind (CheckRelation.index k) = true.

Lemma check_relation_kind r ws (k k' : Checker r) w :
  check_relation (P := P) r ws k = Ok (k', w) →
  reverse_kind (CheckRelation.index k') = reverse_kind (CheckRelation.index k).
Proof. destruct r; apply check_kind. Qed.

Lemma checkers_ok_set c r k :
  checkers_ok c → (is_secondary r = true → reverse_kind (CheckRelation.index k) = true) →
  checkers_ok (dupd (P := λ r, option (Checker r)) r (Some k) c).
Proof.
  intros Hc Hk r' k'. destruct (decide (r = r')) as [<-|Hne].
  - rewrite dupd_eq. by intros [= <-].
  - rewrite dupd_ne by done. apply Hc.
Qed.

Lemma check_all_kinds c ws c' ws' :
  checkers_ok c → check_all (P := P) c ws = Ok (c', ws') → checkers_ok c'.
Proof.
  intros Hc. unfold check_all. intros Hf.
  refine (fold_res_inv _ (λ st, checkers_ok st.1) _ _ _ _ _ Hf); [done|].
  intros [c1 ws1] r [c2 ws2] _ Hc1 Hs. unfold check_all_step in Hs.
  destruct (WorkingSet.is_empty _); [by simplify_eq|]. destruct (c1 r) as [k|] eqn:Hk; [|done].
  destruct (check_relation r ws1 k) as [[k' w]|[]] eqn:Hch; simplify_eq/=.
  apply checkers_ok_set; [done|]. intros Hr. etrans; [exact (check_relation_kind _ _ _ _ _ Hch)|].
  by apply (Hc1 r).
Qed.

Lemma prepare_apply_kinds c ws c' bloom :
  checkers_ok c → prepare_apply_all (P := P) c ws = Ok (c', bloom) → checkers_ok c'.
Proof.
  intros Hc. unfold prepare_apply_all. intros Hf.
  refine (fold_res_inv _ (λ st, checkers_ok st.1) _ _ _ _ _ Hf); [done|].
  intros [c1 b1] r [c2 b2] _ Hc1 Hs. unfold prepare_apply_step in Hs.
  destruct (WorkingSet.is_empty _); [by simplify_eq|]. destruct (c1 r) as [k|] eqn:Hk; [|done].
  simplify_eq/=. apply checkers_ok_set; [done|]. intros Hr. etrans; [apply prepare_indexes_kind|].
  by apply (Hc1 r).
Qed.

Lemma begin_check_kinds rels s ws : kinds_ok s → checkers_ok (begin_check_all (P := P) rels s ws).
Proof.
  intros Hs r k. unfold begin_check_all. destruct (WorkingSet.is_empty _); [done|].
  intros [= <-]. apply Hs.
Qed.

Lemma build_snapshot_kinds c s ts caches bloom :
  checkers_ok c → kinds_ok s → kinds_ok (build_snapshot (P := P) c s ts caches bloom).
Proof.
  intros Hc Hs r Hr. unfold build_snapshot. destruct (match commit_bloom s with Some _ => _ | None => _ end).
  cbn [snap_index]. destruct (c r) as [k|] eqn:Hk; [|by apply Hs].
  unfold CheckRelation.snapshot_index_or. destruct (CheckRelation.dirty k); [by apply (Hc r)|by apply Hs].
Qed.

Lemma prepare_kinds rels fuel s adm ws (pc : PreparedCommit (P := P)) :
  kinds_ok s → prepare rels fuel s adm ws = Ok pc → kinds_ok (pc_candidate pc).
Proof.
  intros Hs. unfold prepare, prepare_candidate.
  destruct (extract_relation_working_sets ws) as [rws caches]. cbn zeta.
  destruct (if negb _ then check_property_policies _ _ _ else _); [|done].
  pose proof (begin_check_kinds rels s (clear_clobber_hints rws) Hs) as Hb.
  destruct (if negb _ then check_all _ _ else _) as [[c' w']|] eqn:Hch; [|done].
  assert (checkers_ok c') as Hc'.
  { destruct (negb _); [by eapply check_all_kinds|by simplify_eq]. }
  destruct (prepare_apply_all c' w') as [[c2 bloom]|] eqn:Hp; [|done].
  destruct adm; [|done..]. intros [= <-]. cbn [pc_candidate].
  apply build_snapshot_kinds; [by eapply prepare_apply_kinds|done].
Qed.

Lemma rebase_kinds fuel s rr (pc : PreparedCommit (P := P)) :
  kinds_ok s → rebase fuel s rr = Ok pc → kinds_ok (pc_candidate pc).
Proof.
  intros Hs. unfold rebase. intros Hp r Hr. repeat case_match; simplify_eq/=;
    unfold build_rebased_snapshot; destruct (if _ <? _ then _ else _); cbn [snap_index];
    (case_match; [etrans; [apply rebased_kind|]|]); by apply Hs.
Qed.

(** ** Opening *)

Lemma seed_kind {D C Q} `{RelationDomain D} `{RelationCodomain C} `{!Provider Q D C}
    (src : Q) (i i' : DynIndex D C) mx :
  seed src i = Ok (i', mx) → reverse_kind i' = reverse_kind i.
Proof.
  unfold seed. destruct (provider_scan src _) as [rows|]; [|done]. intros [= Hf].
  assert (∀ rows (i : DynIndex D C) mx,
    reverse_kind (fold_left seed_step rows (i, mx)).1 = reverse_kind i) as Hall.
  { clear. intros rows. induction rows as [|[[ts d] c] rows IH]; intros i mx; [done|].
    cbn [fold_left seed_step]. by rewrite IH, reverse_insert. }
  etrans; [|exact (Hall rows i 0)]. f_equal. exact (eq_sym (f_equal fst Hf)).
Qed.

Lemma seeded_kind r i mx :
  Relation.seeded_index_with_max_timestamp (init sources r) = Ok (i, mx) → is_secondary r = true →
  reverse_kind i = true.
Proof.
  unfold Relation.seeded_index_with_max_timestamp. intros Hs Hr.
  destruct (seed _ _) as [[i' mx']|] eqn:Hseed; [|done]. injection Hs as <- <-.
  etrans; [apply reverse_loaded|]. etrans; [exact (seed_kind _ _ _ _ Hseed)|].
  unfold init. by rewrite Hr.
Qed.

Lemma open_kinds db : try_open sources = Ok db → kinds_ok (root_state (snapshot_planes db)).
Proof.
  unfold try_open, snapshot. intros Ho.
  destruct (fold_res _ _ ALL) as [[idx ts]|] eqn:Hf; [|by destruct e].
  simpl in Ho. case_match; [done|]. simplify_eq/=. intros r Hr. cbn.
  assert (∀ l st st', fold_res (snapshot_step (init sources)) st l = Ok st' →
    (r ∈ l ∨ reverse_kind (st.1 r) = true) → reverse_kind (st'.1 r) = true) as Hall.
  { clear Hf. intros l. induction l as [|r' l IH]; intros st st' Hf Hin; simpl in Hf.
    { simplify_eq. destruct Hin as [Hin|?]; [by apply elem_of_nil in Hin|done]. }
    destruct (snapshot_step _ st r') as [st1|] eqn:Hs; [|done]. apply (IH _ _ Hf).
    unfold snapshot_step in Hs.
    destruct (Relation.seeded_index_with_max_timestamp (init sources r')) as [[i mx]|] eqn:Hi; [|done].
    simplify_eq/=. destruct (decide (r' = r)) as [<-|Hne].
    - right. rewrite dupd_eq. by eapply seeded_kind.
    - destruct Hin as [[->|Hin]%elem_of_cons|Hin]; [done|by left|]. right. by rewrite dupd_ne. }
  apply (Hall ALL (empty_indexes, 0) (idx, ts) Hf). left. apply list_elem_of_In. destruct r; simpl; tauto.
Qed.

Record kinds_inv (x : sys (P := P)) : Prop := {
  ki_root : kinds_ok (root x);
  ki_running i base t r : sys_txs x !! i = Some (Running base t) → is_secondary r = true →
    has_secondary_index (RelationTransaction.master (wtx_relations t r)) = true;
  ki_prepared i base tx pc : sys_txs x !! i = Some (Prepared base tx pc) →
    kinds_ok (pc_candidate pc);
}.

Lemma kinds_set x i ph db' hist :
  kinds_inv x → kinds_ok (root_state (snapshot_planes db')) →
  (∀ base t r, ph = Running base t → is_secondary r = true →
     has_secondary_index (RelationTransaction.master (wtx_relations t r)) = true) →
  (∀ base tx pc, ph = Prepared base tx pc → kinds_ok (pc_candidate pc)) →
  kinds_inv (mkSys db' (<[i := ph]> (sys_txs x)) hist).
Proof.
  intros [Hr Hrun Hp] Hroot Hph Hph'. split; [done|..]; simpl.
  - intros j base t r. rewrite lookup_insert_Some. intros [[<- Heq]|[_ Hj]];
      [by eapply Hph|by eapply Hrun].
  - intros j base tx pc. rewrite lookup_insert_Some. intros [[<- Heq]|[_ Hj]]; eauto.
Qed.

Lemma kinds_delete x i db' hist :
  kinds_inv x → kinds_ok (root_state (snapshot_planes db')) →
  kinds_inv (mkSys db' (delete i (sys_txs x)) hist).
Proof.
  intros [Hr Hrun Hp] Hroot. split; [done|..]; simpl.
  - intros j base t r [_ Hj]%lookup_delete_Some. by eapply Hrun.
  - intros j base tx pc [_ Hj]%lookup_delete_Some. eauto.
Qed.

Lemma try_publish_kinds (pc : PreparedCommit (P := P)) p p' out :
  try_publish pc p = (p', out) → kinds_ok (root_state p) → kinds_ok (pc_candidate pc) →
  kinds_ok (root_state p').
Proof. unfold try_publish, try_publish_write_root. intros. repeat case_match; by simplify_eq/=. Qed.

Lemma kinds_step x x' : reachable sources pms x → kinds_inv x → step pms x x' → kinds_inv x'.
Proof.
  intros Hx Hk Hstep. destruct (reachable_inv sources pms sources_model x Hx) as [c0 Hinv].
  pose proof Hk as [Hr Hrun Hp]. destruct Hstep as
    [x i db' t Hi Hmax Hst|x i base t r c Hi Ha|x i base t caches owners policies Hi|x i
    |x i base t Hi Hm|x i base t fuel adm pc Hi Hm Hprep|x i base tx pc p data Hi Hpub
    |x i base tx pc p rr Hi Hpub|x i base tx rr fuel pc Hi Hreb].
  - unfold db_start_transaction, acquire_tx_seed, seed_caches in Hst. simplify_eq/=.
    apply kinds_set; [done..| |done]. intros base t r [= <- <-] Hsec.
    apply reverse_kind_secondary. by apply Hr.
  - apply kinds_set; [done..| |done]. intros base' t' r' [= <- <-] Hsec. simpl.
    destruct (inv_txs _ _ _ _ Hinv i _ Hi) as [_ Hok].
    destruct (decide (r = r')) as [<-|Hne]; [|rewrite dupd_ne by done; by eapply Hrun].
    rewrite dupd_eq. destruct (Hok r) as (Hwf & _).
    destruct (exec_refines (pms r) c (wtx_relations t r) Hwf Ha) as (M' & (_ & _ & _ & _ & Hsame) & _).
    etrans; [exact Hsame|]. by eapply Hrun.
  - apply kinds_set; [done..| |done]. intros base' t' r' [= <- <-] Hsec. exact (Hrun i base t r' Hi Hsec).
  - by apply kinds_delete.
  - apply kinds_delete; [done|]. simpl. unfold publish_read_only_cache. by repeat case_match.
  - apply kinds_set; [done..|]. intros ??? [= <- <- <-]. by eapply prepare_kinds.
  - apply kinds_delete; [done|]. simpl. eapply try_publish_kinds; eauto.
  - apply kinds_set; [done| |done..]. simpl. eapply try_publish_kinds; eauto.
  - apply kinds_set; [done..|]. intros ??? [= <- <- <-]. by eapply rebase_kinds.
Qed.

Lemma kinds_reachable x : reachable sources pms x → kinds_inv x.
Proof.
  induction 1 as [db Hopen|x x' Hx IH Hstep]; [|by eapply kinds_step].
  split; [by apply open_kinds|done..].
Qed.
End system.
