(* ===== verification/SystemRuns.v ===== *)
(** A concrete run of the whole database: four stored rows, three concurrent
    transactions, one publication, one lost publication and its rebase. The run
    shows that the hypotheses of the results on the database can hold, and
    evaluates the model on the way. *)
From S2P Require Import Prelude Obj TxTypes RelIndex RelTx RelTxSpec RelTxProofs CheckApply.
From S2P Require Import Verbs Caches.
From S2P Require Import CheckApplyProofs Bloom Model Relations PropertyPolicy Commit CommitProofs.
From S2P Require Import System SystemProofs SystemMain Publication CacheCoherence.
From stdpp Require Import base gmap sets list strings fin_maps.

Open Scope Z_scope.

Module Run.

(** ** The parameters *)

#[export] Instance run_hashes : Hashes := {
  hash_obj o := (obj_bits o, obj_bits o + 7);
  hash_property k := (obj_bits (pk_obj k) + uuid_bits (pk_uuid k), uuid_bits (pk_uuid k) + 3);
  hash_verb k := (obj_bits (vk_obj k) + uuid_bits (vk_uuid k), uuid_bits (vk_uuid k) + 5);
  hash_metadata k := (obj_bits (emk_obj k), uuid_bits (emk_uuid k) + 9);
}.

(** Values are a number and a hint; equality does not see the hint. *)
#[export] Instance value_codomain : RelationCodomain (Z * Z) := {
  cod_rep := Z; cod_key := fst; clone_for_commit v := (v.1, 0);
  clone_for_commit_key _ := eq_refl;
}.

#[export] Instance run_payload : Payload := {
  Var := Z * Z; var_codomain := value_codomain; op_hint := snd;
  ProgramType := Z; program_codomain := plain_codomain Z;
}.

Definition store (r : DatabaseRelation) : Type := gmap (DomainOf r) (Timestamp * CodomainOf r).

#[export] Instance store_provider r : Provider (store r) (DomainOf r) (CodomainOf r) :=
  rows_provider.

Definition sources : ∀ r, store r := λ r,
  match r return store r with
  | ObjectParent => list_to_map [(mkObj 1, (3, mkObj 0)); (mkObj 2, (4, mkObj 1))]
  | ObjectOwner => list_to_map [(mkObj 1, (3, mkObj 2))]
  | ObjectPropvalues => list_to_map [(mkPropertyKey (mkObj 1) (mkUuid 77), (5, (10, 0)))]
  | _ => ∅
  end.

Lemma sources_model r : ProviderModel (sources r) (sources r).
Proof. apply rows_provider_model. Qed.

(** ** Results known to be good *)

Definition get_ok {A E} (r : result A E) : is_ok r = true → A :=
  match r with
  | Ok a => λ _, a
  | Err _ => λ H, False_rect A (eq_ind false (λ b, if b then False else True) I true H)
  end.

Definition get_err {A E} (r : result A E) : is_ok r = false → E :=
  match r with
  | Ok _ => λ H, False_rect E (eq_ind true (λ b, if b then True else False) I false H)
  | Err e => λ _, e
  end.

Lemma get_ok_eq {A E} (r : result A E) H : r = Ok (get_ok r H).
Proof. by destruct r. Qed.
Lemma get_err_eq {A E} (r : result A E) H : r = Err (get_err r H).
Proof. by destruct r. Qed.

(** ** Opening, and three transactions on the first snapshot *)

Lemma opens : is_ok (try_open sources) = true.
Proof. vm_compute. reflexivity. Qed.

Definition db0 : MoorDB store := get_ok _ opens.
Definition db1 : MoorDB store := (db_start_transaction db0).1.
Definition db2 : MoorDB store := (db_start_transaction db1).1.
Definition db3 : MoorDB store := (db_start_transaction db2).1.
Definition root0 : WorldStateSnapshot := root_state (snapshot_planes db0).

Definition start (db : MoorDB store) : WorldStateTransaction := (db_start_transaction db).2.
Definition do_op (r : DatabaseRelation) (c : cmd (DomainOf r) (CodomainOf r))
    (t : WorldStateTransaction (P := store)) : WorldStateTransaction :=
  with_relation r (exec c (wtx_relations t r)).1 t.

(** Transaction 0 moves object 2 under object 0, transaction 1 gives object 1
    the owner 1, transaction 2 removes object 2's parent. *)
Definition t0 : WorldStateTransaction (P := store) :=
  do_op ObjectParent (CUpdate (mkObj 2) (mkObj 0)) (start db0).
Definition t1 : WorldStateTransaction (P := store) :=
  do_op ObjectOwner (CUpsert (mkObj 1) (mkObj 1)) (start db1).
Definition t2 : WorldStateTransaction (P := store) :=
  do_op ObjectParent (CDelete (mkObj 2)) (start db2).

Definition x0 : sys (P := store) := mkSys db0 ∅ [].

(** A state with a transaction's phase changed. *)
Definition with_phase (i : nat) (ph : phase (P := store)) (x : sys (P := store)) : sys :=
  mkSys (sys_db x) (<[i := ph]> (sys_txs x)) (sys_history x).
Definition started (i : nat) (x : sys (P := store)) : sys :=
  mkSys (db_start_transaction (sys_db x)).1
    (<[i := Running (root x) (start (sys_db x))]> (sys_txs x)) (sys_history x).

Definition x1 : sys := started 2 (started 1 (started 0 x0)).
Definition x2 : sys :=
  with_phase 2 (Running root0 t2) (with_phase 1 (Running root0 t1)
    (with_phase 0 (Running root0 t0) x1)).

Lemma reach_started (src : ∀ r, store r) i x :
  reachable src src x → sys_txs x !! i = None → monotonic (sys_db x) < u64_max →
  reachable src src (started i x).
Proof.
  intros Hx Hi Hm. apply (reach_step _ _ x); [done|]. apply step_start; [done..|].
  apply surjective_pairing.
Qed.

Lemma reach_op (src : ∀ r, store r) i base t r c x :
  reachable src src x → sys_txs x !! i = Some (Running base t) →
  allowed (src r) c (wtx_relations t r) →
  reachable src src (with_phase i (Running base (do_op r c t)) x).
Proof. intros Hx Hi Hc. by apply (reach_step _ _ x); [|apply step_op]. Qed.

Lemma reach_x0 : reachable sources sources x0.
Proof. apply reach_open. apply get_ok_eq. Qed.

Lemma reach_x1 : reachable sources sources x1.
Proof. unfold x1. repeat apply reach_started; [apply reach_x0|vm_compute; reflexivity..]. Qed.

Lemma reach_x2 : reachable sources sources x2.
Proof.
  unfold x2. apply reach_op; [|reflexivity|done]. apply reach_op; [|reflexivity|done].
  apply reach_op; [|reflexivity|done]. apply reach_x1.
Qed.

(** ** Transactions 0 and 1 prepare; 0 publishes, 1 loses the race *)

Definition prepare_on (x : sys (P := store)) (t : WorldStateTransaction (P := store)) :=
  prepare (relations (sys_db x)) 10 (root x) AdmissionGranted (into_working_sets t).

Lemma prepares0 : is_ok (prepare_on x2 t0) = true.
Proof. vm_compute. reflexivity. Qed.
Lemma prepares1 : is_ok (prepare_on x2 t1) = true.
Proof. vm_compute. reflexivity. Qed.

Definition pc0 : PreparedCommit (P := store) := get_ok _ prepares0.
Definition pc1 : PreparedCommit (P := store) := get_ok _ prepares1.

Definition x3 : sys :=
  with_phase 1 (Prepared root0 (wtx t1) pc1) (with_phase 0 (Prepared root0 (wtx t0) pc0) x2).

Definition planes_of (x : sys (P := store)) : SnapshotPlanes := snapshot_planes (sys_db x).

Lemma publishes0 : is_ok (try_publish pc0 (planes_of x3)).2 = true.
Proof. vm_compute. reflexivity. Qed.
Definition data0 : CommitData (P := store) := get_ok _ publishes0.

Definition published (i : nat) (pc : PreparedCommit (P := store)) (data : CommitData (P := store))
    (x : sys) : sys :=
  mkSys (with_planes (try_publish pc (planes_of x)).1 (sys_db x)) (delete i (sys_txs x))
    (sys_history x ++ [mkCommit (cd_tx_timestamp data) (cd_working_sets data)]).

Definition x4 : sys := published 0 pc0 data0 x3.

Lemma loses1 : is_ok (try_publish pc1 (planes_of x4)).2 = false.
Proof. vm_compute. reflexivity. Qed.
Definition rr1 : RebaseRequired (P := store) := get_err _ loses1.

Definition x5 : sys :=
  mkSys (with_planes (try_publish pc1 (planes_of x4)).1 (sys_db x4))
    (<[1%nat := Retrying root0 (wtx t1) rr1]> (sys_txs x4)) (sys_history x4).

Lemma rebases1 : is_ok (rebase 10 (root x5) rr1) = true.
Proof. vm_compute. reflexivity. Qed.
Definition pc1' : PreparedCommit (P := store) := get_ok _ rebases1.

Definition x6 : sys := with_phase 1 (Prepared root0 (wtx t1) pc1') x5.

Lemma publishes1 : is_ok (try_publish pc1' (planes_of x6)).2 = true.
Proof. vm_compute. reflexivity. Qed.
Definition data1 : CommitData (P := store) := get_ok _ publishes1.

Definition x7 : sys := published 1 pc1' data1 x6.

Lemma reach_prepare (src : ∀ r, store r) i base t x pc :
  reachable src src x → sys_txs x !! i = Some (Running base t) →
  has_mutations t = true → prepare_on x t = Ok pc →
  reachable src src (with_phase i (Prepared base (wtx t) pc) x).
Proof. intros Hx Hi Hm Hp. apply (reach_step _ _ x); [done|]. by eapply step_prepare. Qed.

Lemma reach_published (src : ∀ r, store r) i base tx pc data x :
  reachable src src x → sys_txs x !! i = Some (Prepared base tx pc) →
  (try_publish pc (planes_of x)).2 = Ok data →
  reachable src src (published i pc data x).
Proof.
  intros Hx Hi Hp. apply (reach_step _ _ x); [done|]. eapply step_publish; [done|].
  rewrite <-Hp. apply surjective_pairing.
Qed.

Lemma reach_x3 : reachable sources sources x3.
Proof.
  unfold x3. apply reach_prepare; [|reflexivity|vm_compute; reflexivity|apply get_ok_eq].
  apply reach_prepare; [|reflexivity|vm_compute; reflexivity|apply get_ok_eq]. apply reach_x2.
Qed.

Lemma reach_x4 : reachable sources sources x4.
Proof. unfold x4. eapply reach_published; [apply reach_x3|reflexivity|apply get_ok_eq]. Qed.

Lemma reach_x5 : reachable sources sources x5.
Proof.
  apply (reach_step _ _ x4); [apply reach_x4|]. eapply step_lost; [reflexivity|].
  unfold rr1. rewrite <-get_err_eq. apply surjective_pairing.
Qed.

Lemma reach_x6 : reachable sources sources x6.
Proof.
  apply (reach_step _ _ x5); [apply reach_x5|].
  apply step_rebase with (rr := rr1) (fuel := 10%nat); [reflexivity|apply get_ok_eq].
Qed.

Lemma reach_x7 : reachable sources sources x7.
Proof. unfold x7. eapply reach_published; [apply reach_x6|reflexivity|apply get_ok_eq]. Qed.

(** ** The results at the states of the run *)

Lemma published_state_is_serial_witness :
  version (root x7) = 2 ∧
  rows_of (root x7) ObjectParent = state_after sources (sys_history x7) ObjectParent ∧
  entry_value <$> rows_of (root x7) ObjectParent !! mkObj 2 = Some (mkObj 0) ∧
  entry_value <$> rows_of (root x7) ObjectOwner !! mkObj 1 = Some (mkObj 1).
Proof.
  destruct (published_state_is_serial sources sources x7 sources_model reach_x7)
    as (Hver & Hrows & _ & _).
  split_and!; [exact Hver|apply Hrows|vm_compute; reflexivity..].
Defined.

Lemma first_committer_wins_witness :
  rows_of (root x6) ObjectOwner !! mkObj 1 = rows_of root0 ObjectOwner !! mkObj 1 ∧
  rows_of (root_state (try_publish pc1' (planes_of x6)).1) ObjectOwner =
    commit_overlay (ops (cd_working_sets data1) ObjectOwner) (rows_of (root x6) ObjectOwner).
Proof.
  destruct (first_committer_wins sources sources x6 1 root0 (wtx t1) pc1'
    (try_publish pc1' (planes_of x6)).1 data1 sources_model reach_x6) as (_ & Hkey & Hrows).
  - reflexivity.
  - unfold data1. rewrite <-get_ok_eq. apply surjective_pairing.
  - split; [|apply Hrows]. eapply (Hkey ObjectOwner); vm_compute; reflexivity.
Defined.

Lemma running_transaction_reads_snapshot_witness :
  length (sys_history x4) = 1%nat ∧
  ∃ h, h `prefix_of` sys_history x4 ∧ tx_snapshot_version (wtx t2) = Z.of_nat (length h) ∧
    ∀ r d, RelationTransaction.get d (wtx_relations t2 r) =
      Ok (overlay (RelTxSpec.log (wtx_relations t2 r)) (state_after sources h r) !! d).
Proof.
  split; [reflexivity|].
  apply (running_transaction_reads_snapshot sources sources x4 2 root0 t2 sources_model reach_x4).
  reflexivity.
Defined.

Lemma moved_key_refuses_commit_witness :
  is_ok (prepare (relations (sys_db x4)) 10 (root x4) AdmissionGranted (into_working_sets t2))
  = false.
Proof.
  apply (moved_key_refuses_commit sources sources x4 2 root0 t2 ObjectParent (mkObj 2)
    (mkOp 4 8 OpDelete false) 10 AdmissionGranted sources_model reach_x4).
  - reflexivity.
  - vm_compute. reflexivity.
  - reflexivity.
  - reflexivity.
  - vm_compute. discriminate.
Defined.

Lemma commit_never_panics_witness :
  prepare (relations (sys_db x4)) 10 (root x4) AdmissionGranted (into_working_sets t2)
    ≠ Err (PrepareAborted Panicked) ∧
  rebase 10 (root x5) rr1 ≠ Err (PrepareAborted Panicked).
Proof.
  split.
  - apply (commit_never_panics sources sources x4 2 (Running root0 t2) 10 AdmissionGranted
      sources_model reach_x4). reflexivity.
  - apply (commit_never_panics sources sources x5 1 (Retrying root0 (wtx t1) rr1) 10
      AdmissionGranted sources_model reach_x5). reflexivity.
Defined.

Lemma uncontended_commit_succeeds_witness :
  ∃ p, commit_writes (relations (sys_db x2)) 10 AdmissionGranted (λ _ p, p)
         (into_working_sets t0) (snapshot_planes (sys_db x2)) =
       (p, Committed (CommitSuccess true (tx_ts (wtx t0)))) ∧
    version (root_state p) = version (root x2) + 1 ∧
    ∀ r, rows_of (root_state p) r = commit_overlay (ops (final_ws t0) r) (rows_of (root x2) r).
Proof.
  refine (uncontended_commit_succeeds sources sources x2 0 root0 t0 10 sources_model reach_x2 _ _ _).
  - reflexivity.
  - vm_compute. reflexivity.
  - vm_compute. reflexivity.
Defined.


Lemma rows_below {D C} `{Countable D} (bound : Z) (m : gmap D (Timestamp * C)) :
  forallb (λ x, (0 <=? x.2.1) && (x.2.1 <? bound)) (map_to_list m) = true →
  ∀ d t c, m !! d = Some (t, c) → 0 ≤ t < bound.
Proof.
  intros Hall d t c Hd%elem_of_map_to_list%list_elem_of_In.
  rewrite forallb_forall in Hall. apply Hall in Hd. simpl in Hd. lia.
Qed.

Lemma reopen_recovers_state_witness :
  ∃ db, try_open sources = Ok db ∧
    let s := root_state (snapshot_planes db) in
    let tx := (acquire_tx_seed db).2.1.1 in
    version s = 0 ∧ (∀ r, rows_of s r = stored_rows sources r) ∧
    tx_visible_ts tx < tx_ts tx ∧
    ∀ r d t c, sources r !! d = Some (t, c) → t ≤ tx_visible_ts tx.
Proof.
  apply (reopen_recovers_state sources sources sources_model). intros r d t c.
  apply (rows_below u64_max (sources r)). destruct r; reflexivity.
Defined.

(** A store written up to the last timestamp. *)
Definition full_sources : ∀ r, store r := λ r,
  match r return store r with
  | ObjectOwner => list_to_map [(mkObj 1, (u64_max, mkObj 2))]
  | _ => ∅
  end.

Lemma open_refuses_exhausted_timestamps_witness :
  try_open full_sources = Err TransactionTimestampExhausted.
Proof.
  apply (open_refuses_exhausted_timestamps full_sources full_sources ObjectOwner (mkObj 1) (mkObj 2)).
  - intros r. apply rows_provider_model.
  - intros r d t c Hd. apply (rows_below (u64_max + 1) (full_sources r)) in Hd; [lia|].
    destruct r; reflexivity.
  - reflexivity.
Defined.

Lemma write_commits_discard_caches_witness :
  sys_history x7 ≠ [] ∧ snap_caches (root x7) = caches_new.
Proof.
  split; [discriminate|].
  apply (write_commits_discard_caches sources sources x7 reach_x7).
Defined.

(** ** Two writers race for the root *)

Definition racers : list writer :=
  [mkWriter (version root0) (pc_candidate pc0); mkWriter (version root0) (pc_candidate pc1)].

(** Both load the root; the second swaps first, the first has to reload. *)
Definition race : list nat := [0; 1; 1; 0; 1; 0; 0; 0; 0]%nat.

Lemma publication_root_serial_witness :
  let sh := run root0 racers race (at_start racers (mkCachePublication 0 caches_new)) in
  winners sh = [1%nat] ∧ wstates sh = [Finished false; Finished true] ∧
  root_state (planes_of_shared root0 racers sh) = pc_candidate pc1.
Proof.
  intros sh. destruct (publication_root_serial root0 racers) with (schedule := race)
    (cache := mkCachePublication 0 caches_new) as (_ & _ & _ & Hroot).
  - intros [|[|i]] w; simpl; intros [= <-]; vm_compute; reflexivity.
  - split_and!; [vm_compute; reflexivity|vm_compute; reflexivity|exact Hroot].
Defined.

(** ** A read-only transaction fills the ancestry cache for the next *)

(** [l] is [o]'s parent, its parent's parent and so on. *)
Fixpoint parent_chain (m : Rows) (o : Obj) (l : list Obj) : Prop :=
  match l with
  | [] => True
  | p :: l' => entry_value <$> (m ObjectParent !! o) = Some p ∧ parent_chain m p l'
  end.

Definition ancestors_coherent (m : Rows) (c : Caches) : Prop :=
  ∀ o l, AncestryCache.lookup o (ancestry_cache c) = Some l → parent_chain m o l.

#[export] Instance ancestors_coherence : Coherence ancestors_coherent.
Proof.
  split.
  - intros m m' c Hm Hc o l Hl. specialize (Hc o l Hl). clear Hl. revert o Hc.
    induction l as [|p l IH]; intros o; simpl; [done|]. rewrite <-(Hm ObjectParent).
    intros [? ?]. auto.
  - intros m o l Hl. change (AncestryCache.lookup o _) with ((∅ : gmap Obj (list Obj)) !! o) in Hl.
    by rewrite lookup_empty in Hl.
  - intros m c Hc o l Hl. by apply Hc.
Qed.

Definition filled (c : Caches) : Caches :=
  mkCaches (verb_resolution_cache c) (prop_resolution_cache c)
    (AncestryCache.fill (mkObj 2) [mkObj 1; mkObj 0] (ancestry_cache c)).

Definition t3 : WorldStateTransaction (P := store) := start db0.
Definition t3' : WorldStateTransaction (P := store) :=
  mkWorldStateTransaction (wtx t3) (wtx_relations t3) (filled (wtx_caches t3))
    (wtx_owner_change_reads t3) (wtx_inherited_policy_reads t3).

Definition y1 : sys := started 0 x0.
Definition y2 : sys := with_phase 0 (Running root0 t3') y1.
Definition y3 : sys :=
  mkSys (with_planes (publish_read_only_cache (tx_snapshot_version (wtx t3')) (wtx_caches t3')
                        (planes_of y2)) (sys_db y2)) (delete 0%nat (sys_txs y2)) (sys_history y2).
Definition y4 : sys := started 1 y3.

Lemma coherently_started i x :
  reachable_coherently sources sources ancestors_coherent x → sys_txs x = ∅ →
  monotonic (sys_db x) < u64_max →
  reachable_coherently sources sources ancestors_coherent (started i x).
Proof.
  intros Hx He Hm. eapply rc_step; [exact Hx| |].
  - apply step_start; [by rewrite He|done|]. apply surjective_pairing.
  - intros j b t t'. by rewrite He, lookup_empty.
Qed.

Lemma coherently_y2 : reachable_coherently sources sources ancestors_coherent y2.
Proof.
  apply (rc_step _ _ _ y1).
  - apply coherently_started; [apply rc_open, get_ok_eq|done|vm_compute; reflexivity].
  - by apply step_note with (t := t3).
  - intros j b t t'. unfold y2, with_phase, y1, started. cbn [sys_txs x0].
    rewrite !lookup_insert_Some, !lookup_empty.
    intros [[<- [= <- <-]]|[_ [=]]] [[_ [= <-]]|[Hne _]] _ _ o l; [|done]. unfold AncestryCache.lookup, t3', filled. simpl.
    rewrite lookup_insert_Some. intros [[<- <-]|[_ Hl]].
    + simpl. split_and!; [vm_compute; reflexivity..|done].
    + change ((∅ : gmap Obj (list Obj)) !! o = Some l) in Hl. by rewrite lookup_empty in Hl.
Qed.

Lemma coherently_y4 : reachable_coherently sources sources ancestors_coherent y4.
Proof.
  apply coherently_started; [|reflexivity|vm_compute; reflexivity].
  apply (rc_step _ _ _ y2); [apply coherently_y2| |].
  - by apply step_read_only with (base := root0).
  - intros j b t t' _ Hj. change (sys_txs y3) with (∅ : gmap nat (phase (P := store))) in Hj.
    by rewrite lookup_empty in Hj.
Qed.

Lemma caches_follow_snapshot_witness :
  AncestryCache.lookup (mkObj 2) (ancestry_cache (wtx_caches (start (sys_db y3)))) =
    Some [mkObj 1; mkObj 0] ∧
  parent_chain (rows_of root0) (mkObj 2) [mkObj 1; mkObj 0].
Proof.
  assert (AncestryCache.lookup (mkObj 2) (ancestry_cache (wtx_caches (start (sys_db y3)))) =
    Some [mkObj 1; mkObj 0]) as Hl by (vm_compute; reflexivity).
  split; [exact Hl|].
  destruct (caches_follow_snapshot sources sources ancestors_coherent y4 ancestors_coherence
    sources_model coherently_y4) as [Hrun _].
  apply (Hrun 1%nat (root y3) (start (sys_db y3)) eq_refl eq_refl (mkObj 2)). exact Hl.
Defined.
End Run.
