(* ===== verification/Forest.v ===== *)
(** Walks up a map from objects to objects: the parents of the hierarchy and the
    locations of containment are such maps. A walk ends at an object with no row
    or with a row that says [NOTHING]. *)
From S2P Require Import Prelude Obj.
From stdpp Require Import base gmap sets list fin_maps.

#[local] Opaque is_nothing.

Implicit Types m : gmap Obj Obj.
Implicit Types o p x y : Obj.
Implicit Types l : list Obj.

Definition up m o : option Obj := m !! o ≫= λ p, if is_nothing p then None else Some p.

(** [l] is the whole walk from [o], without [o]. *)
Inductive chain m : Obj → list Obj → Prop :=
| chain_end o : up m o = None → chain m o []
| chain_step o p l : up m o = Some p → chain m p l → chain m o (p :: l).

Definition acyclic m : Prop := ∀ o, ∃ l, chain m o l.

(** No row is keyed by [NOTHING]. *)
Definition named m : Prop := ∀ x, is_Some (m !! x) → is_nothing x = false.

(** [r] is on the walk from [x], strictly above it. *)
Definition sbelow m r x : Prop := ∃ l, chain m x l ∧ r ∈ l.
Definition below m r x : Prop := x = r ∨ sbelow m r x.

Lemma up_some m o p : up m o = Some p ↔ m !! o = Some p ∧ is_nothing p = false.
Proof.
  unfold up. destruct (m !! o) as [p'|]; cbn [mbind option_bind]; [|by split; [|intros [? _]]].
  destruct (is_nothing p') eqn:Hn; split.
  - done.
  - intros [[= ->] Hp]. congruence.
  - intros [= <-]. done.
  - by intros [[= <-] _].
Qed.

Lemma up_agree m m' o : m' !! o = m !! o → up m' o = up m o.
Proof. unfold up. by intros ->. Qed.

Lemma chain_inv m o l :
  chain m o l → match l with [] => up m o = None | p :: l' => up m o = Some p ∧ chain m p l' end.
Proof. by destruct 1. Qed.

Lemma chain_det m o l l' : chain m o l → chain m o l' → l = l'.
Proof.
  intros Hc. revert l'. induction Hc as [o Hu|o p l Hu _ IH]; inversion 1; simplify_eq; [done|].
  f_equal. by apply IH.
Qed.

Lemma chain_from m o l x : chain m o l → x ∈ l → ∃ l1 l2, l = l1 ++ x :: l2 ∧ chain m x l2.
Proof.
  induction 1 as [o Hu|o p l Hu Hc IH]; [by intros ?%elem_of_nil|].
  intros [->|Hx]%elem_of_cons; [by exists [], l|].
  destruct (IH Hx) as (l1 & l2 & -> & Hc'). by exists (p :: l1), l2.
Qed.

Lemma chain_not_nothing m o l x : chain m o l → x ∈ l → is_nothing x = false.
Proof.
  induction 1 as [o Hu|o p l Hu Hc IH]; [by intros ?%elem_of_nil|].
  intros [->|Hx]%elem_of_cons; [|auto]. by apply up_some in Hu as [_ ?].
Qed.

(** A walk that ends meets no object twice. *)
Lemma chain_irrefl m o l : chain m o l → o ∉ l.
Proof.
  intros Hc Hin. destruct (chain_from _ _ _ _ Hc Hin) as (l1 & l2 & -> & Hc2).
  pose proof (chain_det _ _ _ _ Hc Hc2) as He. apply (f_equal length) in He.
  rewrite length_app in He. simpl in He. lia.
Qed.

Lemma chain_nodup m o l : chain m o l → NoDup (o :: l).
Proof.
  intros Hc. pose proof (chain_irrefl _ _ _ Hc) as Hi. revert Hi.
  induction Hc as [o Hu|o p l Hu Hc IH]; intros Hi; [apply NoDup_singleton|].
  constructor; [done|]. apply IH. by apply chain_irrefl in Hc.
Qed.

Lemma chain_rows m o l x : chain m o l → x ∈ removelast (o :: l) → is_Some (m !! x).
Proof.
  induction 1 as [o Hu|o p l Hu Hc IH]; [by intros ?%elem_of_nil|].
  change (removelast (o :: p :: l)) with (o :: removelast (p :: l)).
  intros [->|Hx]%elem_of_cons; [|auto]. apply up_some in Hu as [Hu _]. by exists p.
Qed.

Lemma nodup_dom_length m l : NoDup l → (∀ x, x ∈ l → is_Some (m !! x)) → length l ≤ size m.
Proof.
  intros Hn Hl. rewrite <-size_dom, <-(size_list_to_set (C := gset Obj) l) by done.
  apply subseteq_size. intros x Hx%elem_of_list_to_set. by apply elem_of_dom, Hl.
Qed.

(** The walk is no longer than the map has rows. *)
Lemma chain_length m o l : chain m o l → length l ≤ size m.
Proof.
  intros Hc. pose proof (chain_nodup _ _ _ Hc) as Hn.
  assert (length (removelast (o :: l)) = length l) as <-.
  { assert (o :: l ≠ []) as Hne by done. apply (app_removelast_last o) in Hne.
    apply (f_equal length) in Hne. rewrite length_app in Hne. cbn [length] in Hne.
    change (length (o :: l)) with (S (length l)) in Hne. lia. }
  apply nodup_dom_length; [|intros x; by apply chain_rows].
  rewrite (app_removelast_last o (l := o :: l)) in Hn by done. by apply NoDup_app in Hn as [? _].
Qed.

(** Walks through unchanged rows are unchanged. *)
Lemma chain_agree m m' o l :
  chain m o l → (∀ x, x ∈ o :: l → m' !! x = m !! x) → chain m' o l.
Proof.
  induction 1 as [o Hu|o p l Hu Hc IH]; intros Hag.
  - constructor. rewrite <-Hu. apply up_agree, Hag. by constructor.
  - econstructor; [|apply IH; intros x Hx; apply Hag; by constructor].
    rewrite <-Hu. apply up_agree, Hag. by constructor.
Qed.


(** *** Changing one row *)

Lemma acyclic_agree m m' o :
  acyclic m → (∀ x, x ≠ o → m' !! x = m !! x) → (∃ l, chain m' o l) → acyclic m'.
Proof.
  intros Ha Hag [lo Hlo] x. destruct (Ha x) as [l Hl].
  induction Hl as [x Hu|x p l Hu Hc IH].
  - destruct (decide (x = o)) as [->|Hne]; [by exists lo|].
    exists []. constructor. rewrite <-Hu. by apply up_agree, Hag.
  - destruct (decide (x = o)) as [->|Hne]; [by exists lo|].
    destruct IH as [l' Hl']. exists (p :: l'). econstructor; [|done].
    rewrite <-Hu. by apply up_agree, Hag.
Qed.

Lemma acyclic_delete m o : acyclic m → acyclic (delete o m).
Proof.
  intros Ha. apply (acyclic_agree m _ o Ha).
  - intros x Hx. by rewrite lookup_delete_ne.
  - exists []. constructor. unfold up. by rewrite lookup_delete_eq.
Qed.

(** Pointing [o] to [p] closes no cycle when [o] is not on the walk from [p]. *)
Lemma acyclic_insert m o p :
  acyclic m → (is_nothing p = false → ~ below m o p) → acyclic (<[o := p]> m).
Proof.
  intros Ha Hp. apply (acyclic_agree m _ o Ha).
  { intros x Hx. by rewrite lookup_insert_ne. }
  destruct (is_nothing p) eqn:Hn.
  { exists []. constructor. unfold up. rewrite lookup_insert_eq. simpl. by rewrite Hn. }
  destruct (Ha p) as [l Hl]. exists (p :: l). apply chain_step.
  - apply up_some. by rewrite lookup_insert_eq.
  - apply (chain_agree m); [done|]. intros x Hx. rewrite lookup_insert_ne; [done|].
    intros ->. apply Hp; [done|]. apply elem_of_cons in Hx as [->|Hx]; [by left|].
    right. by exists l.
Qed.

(** And only then. *)
Lemma cyclic_insert m o p :
  is_nothing p = false → below m o p → ~ acyclic (<[o := p]> m).
Proof.
  intros Hn Hb Ha. destruct (Ha o) as [l Hl]. apply (chain_irrefl _ _ _ Hl).
  apply chain_inv in Hl. unfold up in Hl. rewrite lookup_insert_eq in Hl. simpl in Hl.
  rewrite Hn in Hl. destruct l as [|p' l']; [done|]. destruct Hl as [[= <-] Hc].
  destruct Hb as [->|(lp & Hlp & Hin)]; [by constructor|]. right.
  assert (∀ x, x ≠ o → <[o:=p]> m !! x = m !! x) as Hag by (intros; by rewrite lookup_insert_ne).
  clear Ha Hn. revert l' Hc Hin Hag. generalize (<[o:=p]> m). intros m'.
  induction Hlp as [x Hu|x q lx Hu Hlx IH]; intros l' Hc Hin Hag;
    [by apply elem_of_nil in Hin|].
  assert (x ≠ o) as Hne.
  { intros ->. destruct (chain_irrefl m o (q :: lx)); [by econstructor|done]. }
  apply chain_inv in Hc. rewrite (up_agree m) in Hc by (by apply Hag).
  rewrite Hu in Hc. destruct l' as [|q' l2]; [done|]. destruct Hc as [[= <-] Hc].
  apply elem_of_cons in Hin as [<-|Hin]; [by constructor|]. right. by apply IH.
Qed.

(** A chain is found, or there is none, by walking as far as there are rows. *)
Fixpoint walk m (n : nat) o : option (list Obj) :=
  match n with
  | O => None
  | S n => match up m o with None => Some [] | Some p => cons p <$> walk m n p end
  end.

Lemma walk_chain m n o l : walk m n o = Some l → chain m o l.
Proof.
  revert o l. induction n as [|n IH]; intros o l Hw; cbn [walk] in Hw; [done|].
  destruct (up m o) as [p|] eqn:Hu; [|simplify_eq; by constructor].
  apply fmap_Some in Hw as (l' & Hl' & ->). econstructor; [done|]. by apply IH.
Qed.
Lemma chain_walk m n o l : chain m o l → length l < n → walk m n o = Some l.
Proof.
  intros Hc. revert n. induction Hc as [o Hu|o p l Hu _ IH]; intros [|n] Hn; simpl in *; try lia;
    rewrite Hu; [done|]. by rewrite IH by lia.
Qed.

Lemma chain_or_endless m o : (∃ l, chain m o l) ∨ ~ ∃ l, chain m o l.
Proof.
  destruct (walk m (S (size m)) o) as [l|] eqn:Hw; [left; exists l; by eapply walk_chain|].
  right. intros [l Hl]. pose proof (chain_length _ _ _ Hl) as Hlen.
  rewrite (chain_walk _ (S (size m)) _ _ Hl) in Hw; [done|lia].
Qed.

(** Walking from every row decides whether there is a cycle. *)
Lemma acyclic_walks m n :
  forallb (λ r : Obj * Obj, bool_decide (is_Some (walk m n r.1))) (map_to_list m) = true → acyclic m.
Proof.
  intros Hw o. destruct (m !! o) as [p|] eqn:Ho.
  - rewrite forallb_forall in Hw. specialize (Hw (o, p)).
    apply elem_of_map_to_list in Ho. apply base.list_elem_of_In in Ho.
    apply Hw in Ho. apply bool_decide_eq_true in Ho as [l Hl].
    exists l. by eapply walk_chain.
  - exists []. constructor. unfold up. by rewrite Ho.
Qed.

Lemma walk_not_below m n o p l :
  walk m n p = Some l → bool_decide (o ∈ p :: l) = false → ~ below m o p.
Proof.
  intros Hl%walk_chain Ho%bool_decide_eq_false Hb. apply Ho.
  destruct Hb as [->|(l' & Hl' & Hin)]; [by constructor|].
  rewrite (chain_det _ _ _ _ Hl Hl'). by constructor.
Qed.

(** *** Sets closed downwards *)

(** A set that holds an object with everything below it. *)
Definition closed m (X : Obj → Prop) : Prop := ∀ x y, up m x = Some y → X y → X x.

Lemma closed_chain m X o l x : closed m X → chain m o l → x ∈ o :: l → X x → X o.
Proof.
  intros Hcl. induction 1 as [o Hu|o p l Hu Hc IH].
  - by intros ->%list_elem_of_singleton.
  - intros [->|Hx]%elem_of_cons; [done|]. intros HX. eapply Hcl; [done|]. by apply IH.
Qed.

Lemma closed_below m r : acyclic m → closed m (below m r).
Proof.
  intros Ha x y Hu Hb. destruct (Ha y) as [l Hl]. right. exists (y :: l). split; [by econstructor|].
  destruct Hb as [->|(l' & Hl' & Hin)]; [by constructor|].
  rewrite (chain_det _ _ _ _ Hl' Hl) in Hin. by constructor.
Qed.

(** Outside such a set, walks keep out of it, and do not change with its rows. *)
Lemma chain_outside m m' X o l :
  closed m X → (∀ x, ~ X x → m' !! x = m !! x) → ~ X o → chain m o l →
  chain m' o l ∧ ∀ x, x ∈ o :: l → ~ X x.
Proof.
  intros Hcl Hag Ho Hc.
  assert (∀ x, x ∈ o :: l → ~ X x) as Hout.
  { intros x Hx HX. apply Ho. by eapply closed_chain. }
  split; [|done]. apply (chain_agree m); [done|]. intros x Hx. by apply Hag, Hout.
Qed.
