(* ===== verification/Auth.v ===== *)
(** Authority: the grants and permissions of a task
    (crates/common/src/model/task_permissions.rs) and the rules the database
    checks against them (crates/db/src/api/auth.rs). *)
From S2P Require Import Prelude Obj TxTypes Model Verbs.
From stdpp Require Import base list.

Inductive CapabilityGrant :=
| GrantObjectRead (o : Obj)
| GrantObjectWrite (o : Obj)
| GrantObjectRename (o : Obj)
| GrantObjectMove (o : Obj)
| GrantObjectRecycle (o : Obj)
| GrantObjectChparent (o : Obj)
| GrantPropertyRead (obj : Obj) (prop : Symbol)
| GrantPropertyWrite (obj : Obj) (prop : Symbol)
| GrantPropertyDefine (o : Obj)
| GrantPropertyDelete (obj : Obj) (prop : Symbol)
| GrantVerbRead (obj : Obj) (verb : Uuid)
| GrantVerbWrite (obj : Obj) (verb : Uuid)
| GrantVerbProgram (obj : Obj) (verb : Uuid)
| GrantVerbAdd (o : Obj)
| GrantVerbCall (obj : Obj) (verb : Uuid)
| GrantObjectList
| GrantBuiltinCall (name : Symbol).

#[export] Instance CapabilityGrant_eq_dec : EqDecision CapabilityGrant.
Proof. solve_decision. Defined.

Record CapabilityGrants := mkGrants { grants_slice : option (list CapabilityGrant) }.

Module Grants.
Definition empty : CapabilityGrants := mkGrants None.
Definition from_vec (grants : list CapabilityGrant) : CapabilityGrants :=
  match grants with [] => empty | _ => mkGrants (Some grants) end.
Definition iter (g : CapabilityGrants) : list CapabilityGrant := default [] (grants_slice g).
Definition is_empty (g : CapabilityGrants) : bool :=
  match grants_slice g with None => true | Some l => bool_decide (l = []) end.
End Grants.

Record TaskPermissions := mkPermissions {
  tp_principal : Obj;
  tp_principal_flags : BitEnum ObjFlag;
  tp_grants : CapabilityGrants;
}.

Module Permissions.
Definition new (principal : Obj) (flags : BitEnum ObjFlag) : TaskPermissions :=
  mkPermissions principal flags Grants.empty.
Definition with_principal_flags (flags : BitEnum ObjFlag) (p : TaskPermissions) : TaskPermissions :=
  mkPermissions (tp_principal p) flags (tp_grants p).
Definition can_call_builtin (builtin : Symbol) (p : TaskPermissions) : bool :=
  existsb (λ g, match g with GrantBuiltinCall g => bool_decide (g = builtin) | _ => false end)
    (Grants.iter (tp_grants p)).
Definition can_list_objects (p : TaskPermissions) : bool :=
  existsb (λ g, match g with GrantObjectList => true | _ => false end) (Grants.iter (tp_grants p)).
Definition is_wizard (p : TaskPermissions) : bool :=
  BitEnumOps.contains ObjWizard (tp_principal_flags p).
Definition is_programmer (p : TaskPermissions) : bool :=
  BitEnumOps.contains ObjProgrammer (tp_principal_flags p).
Definition controls (owner : Obj) (p : TaskPermissions) : bool :=
  is_wizard p || bool_decide (tp_principal p = owner).
Definition require (b : bool) : result unit WorldStateError :=
  if b then Ok tt else Err ObjectPermissionDenied.
Definition require_wizard (p : TaskPermissions) : result unit WorldStateError :=
  require (is_wizard p).
Definition require_programmer (p : TaskPermissions) : result unit WorldStateError :=
  require (is_programmer p).
Definition require_controls (owner : Obj) (p : TaskPermissions) : result unit WorldStateError :=
  require (controls owner p).
End Permissions.

(** ** Rules *)

Inductive AuthRule :=
| RuleObjectWizard
| RuleObjectOwnerOrWizard (owner : Obj)
| RuleObjectRename (obj owner : Obj)
| RuleObjectMove (obj owner : Obj)
| RuleObjectRecycle (obj owner : Obj)
| RuleObjectChparent (obj owner : Obj)
| RuleObjectAllows (obj owner : Obj) (flags required : BitEnum ObjFlag)
| RulePropertyAllows (obj : Obj) (prop : Symbol) (perms : PropPerms) (required : PropFlag)
| RulePropertyDefine (obj owner : Obj) (flags : BitEnum ObjFlag)
| RulePropertyDelete (obj : Obj) (prop : Symbol) (owner : Obj) (flags : BitEnum ObjFlag)
| RulePropertyWizard
| RulePropertyOwnerOrWizard (owner : Obj)
| RulePropertyOwnerUnchangedOrWizard (current_owner requested_owner : Obj)
| RuleVerbAllows (obj : Obj) (verb : Uuid) (owner : Obj) (flags : BitEnum VerbFlag)
    (required : VerbFlag)
| RuleVerbAdd (obj owner : Obj) (flags : BitEnum ObjFlag)
| RuleVerbOwnerOrWizard (owner : Obj)
| RuleVerbOwnerUnchangedOrWizard (current_owner requested_owner : Obj)
| RuleVerbProgram (obj : Obj) (verb : Uuid).

Definition denial (rule : AuthRule) : WorldStateError :=
  match rule with
  | RulePropertyAllows _ _ _ _ | RulePropertyDefine _ _ _ | RulePropertyDelete _ _ _ _
  | RulePropertyWizard | RulePropertyOwnerOrWizard _ | RulePropertyOwnerUnchangedOrWizard _ _ =>
      PropertyPermissionDenied
  | RuleVerbAllows _ _ _ _ _ | RuleVerbAdd _ _ _ | RuleVerbOwnerOrWizard _
  | RuleVerbOwnerUnchangedOrWizard _ _ | RuleVerbProgram _ _ => VerbPermissionDenied
  | RuleObjectWizard | RuleObjectOwnerOrWizard _ | RuleObjectRename _ _ | RuleObjectMove _ _
  | RuleObjectRecycle _ _ | RuleObjectChparent _ _ | RuleObjectAllows _ _ _ _ =>
      ObjectPermissionDenied
  end.

Record AuthContext := mkAuth {
  auth_who : Obj;
  auth_flags : BitEnum ObjFlag;
  auth_grants : CapabilityGrants;
}.

Module Auth.
Definition new (principal : Obj) (flags : BitEnum ObjFlag) : AuthContext :=
  mkAuth principal flags Grants.empty.
Definition is_wizard (a : AuthContext) : bool := BitEnumOps.contains ObjWizard (auth_flags a).
Definition controls_owner (owner : Obj) (a : AuthContext) : bool :=
  is_wizard a || bool_decide (auth_who a = owner).
Definition has_grant (expected : CapabilityGrant) (a : AuthContext) : bool :=
  existsb (λ g, bool_decide (g = expected)) (Grants.iter (auth_grants a)).
Definition has_object_grant (obj : Obj) (required : BitEnum ObjFlag) (a : AuthContext) : bool :=
  existsb (λ g, match g with
    | GrantObjectRead o => bool_decide (o = obj) &&
        bool_decide (required = BitEnumOps.new_with ObjRead)
    | GrantObjectWrite o => bool_decide (o = obj) &&
        bool_decide (required = BitEnumOps.new_with ObjWrite)
    | _ => false end) (Grants.iter (auth_grants a)).
Definition has_property_grant (obj : Obj) (prop : Symbol) (required : PropFlag) (a : AuthContext)
  : bool :=
  existsb (λ g, match g with
    | GrantPropertyRead o p => bool_decide (o = obj) && bool_decide (p = prop) &&
        bool_decide (required = PropRead)
    | GrantPropertyWrite o p => bool_decide (o = obj) && bool_decide (p = prop) &&
        bool_decide (required = PropWrite)
    | _ => false end) (Grants.iter (auth_grants a)).
Definition has_verb_grant (obj : Obj) (verb : Uuid) (required : VerbFlag) (a : AuthContext) : bool :=
  existsb (λ g, match g with
    | GrantVerbRead o v => bool_decide (o = obj) && bool_decide (v = verb) &&
        bool_decide (required = VerbRead)
    | GrantVerbWrite o v => bool_decide (o = obj) && bool_decide (v = verb) &&
        bool_decide (required = VerbWrite)
    | GrantVerbCall o v => bool_decide (o = obj) && bool_decide (v = verb) &&
        bool_decide (required = VerbExec)
    | _ => false end) (Grants.iter (auth_grants a)).
Definition has_verb_call_grant (obj : Obj) (verb : Uuid) (a : AuthContext) : bool :=
  has_grant (GrantVerbCall obj verb) a.
Definition has_any_verb_grant (obj : Obj) (verb : Uuid) (a : AuthContext) : bool :=
  existsb (λ g, match g with
    | GrantVerbRead o v | GrantVerbWrite o v | GrantVerbProgram o v | GrantVerbCall o v =>
        bool_decide (o = obj) && bool_decide (v = verb)
    | _ => false end) (Grants.iter (auth_grants a)).

Definition allows (rule : AuthRule) (a : AuthContext) : bool :=
  let writable obj flags :=
    BitEnumOps.contains ObjWrite flags || has_object_grant obj (BitEnumOps.new_with ObjWrite) a in
  match rule with
  | RuleObjectWizard | RulePropertyWizard => is_wizard a
  | RuleObjectOwnerOrWizard owner | RulePropertyOwnerOrWizard owner | RuleVerbOwnerOrWizard owner =>
      controls_owner owner a
  | RuleObjectRename obj owner => controls_owner owner a || has_grant (GrantObjectRename obj) a
  | RuleObjectMove obj owner => controls_owner owner a || has_grant (GrantObjectMove obj) a
  | RuleObjectRecycle obj owner => controls_owner owner a || has_grant (GrantObjectRecycle obj) a
  | RuleObjectChparent obj owner => controls_owner owner a || has_grant (GrantObjectChparent obj) a
  | RuleObjectAllows obj owner flags required =>
      controls_owner owner a || BitEnumOps.contains_all required flags
      || has_object_grant obj required a
  | RulePropertyDefine obj owner flags =>
      controls_owner owner a || writable obj flags || has_grant (GrantPropertyDefine obj) a
  | RulePropertyDelete obj prop owner flags =>
      controls_owner owner a || writable obj flags || has_grant (GrantPropertyDelete obj prop) a
  | RulePropertyAllows obj prop perms required =>
      is_wizard a || bool_decide (auth_who a = PropPermsOps.owner perms)
      || BitEnumOps.contains required (PropPermsOps.flags perms)
      || has_property_grant obj prop required a
  | RulePropertyOwnerUnchangedOrWizard current_owner requested_owner
  | RuleVerbOwnerUnchangedOrWizard current_owner requested_owner =>
      is_wizard a || bool_decide (requested_owner = current_owner)
  | RuleVerbAllows obj verb owner flags required =>
      bool_decide (auth_who a = owner) || is_wizard a || BitEnumOps.contains required flags
      || has_verb_grant obj verb required a
  | RuleVerbAdd obj owner flags =>
      controls_owner owner a || writable obj flags || has_grant (GrantVerbAdd obj) a
  | RuleVerbProgram obj verb =>
      is_wizard a || BitEnumOps.contains ObjProgrammer (auth_flags a)
      || has_grant (GrantVerbProgram obj verb) a
  end.
End Auth.
