(* ===== verification/Environment.v ===== *)
(** The variables of a stack frame (crates/vm/src/environment.rs): the values of
    all scopes in one vector, with the offset and the width of each scope.

    An index out of range is [None], the panic of [values[i]]. A slot that was
    never assigned holds [VNone]. *)
From S2P Require Import Prelude Obj TxTypes Float64 Opcodes Values.
From stdpp Require Import base gmap list strings.

Open Scope Z_scope.

Record ScopeLayout := mkLayout { sl_offset : Z; sl_width : Z }.

(** Scopes from the outermost. *)
Record Environment := mkEnvironment { env_values : list Var; env_scopes : list ScopeLayout }.

Module Env.

Definition new : Environment := mkEnvironment [] [].

Definition nones (n : nat) : list Var := replicate n VNone.

Definition with_initial_scope (width : nat) : Environment :=
  mkEnvironment (nones width) [mkLayout 0 (as_u16 (Z.of_nat width))].

(** Six values are written whatever the width; the callers reserve at least eleven. *)
Definition with_call_globals (player this caller verb args argstr : Var) (total_width : nat)
  : Environment :=
  mkEnvironment ([player; this; caller; verb; args; argstr] ++ nones (total_width - 6))
    [mkLayout 0 (as_u16 (Z.of_nat total_width))].

(** The parsing globals (argstr, dobj, ...) of the calling frame are copied. *)
Definition with_call_globals_copy_parsing (player this caller verb args : Var)
    (source : Environment) (total_width : nat) : option Environment :=
  match env_scopes source with
  | [] => None
  | sc :: _ =>
      let src g := env_values source !! Z.to_nat (sl_offset sc + global_index g) in
      match src gargstr, src gdobj, src gdobjstr, src gprepstr, src giobj, src giobjstr with
      | Some a, Some d, Some ds, Some p, Some i, Some is_ =>
          Some (mkEnvironment
                  ([player; this; caller; verb; args; a; d; ds; p; i; is_]
                     ++ nones (total_width - 11))
                  [mkLayout 0 (as_u16 (Z.of_nat total_width))])
      | _, _, _, _, _, _ => None
      end
  end.

Definition push_scope (width : nat) (e : Environment) : Environment :=
  mkEnvironment (env_values e ++ nones width)
    (env_scopes e ++ [mkLayout (as_u16 (Z.of_nat (length (env_values e))))
                        (as_u16 (Z.of_nat width))]).

Definition pop_scope (e : Environment) : Environment :=
  match last (env_scopes e) with
  | None => e
  | Some sc =>
      mkEnvironment
        (if sl_width sc =? 0 then env_values e else take (Z.to_nat (sl_offset sc)) (env_values e))
        (removelast (env_scopes e))
  end.

Definition len (e : Environment) : nat := length (env_scopes e).

Definition absolute_index (scope_index var_index : Z) (e : Environment) : option nat :=
  (λ sc, Z.to_nat (sl_offset sc + var_index)) <$> env_scopes e !! Z.to_nat scope_index.

Definition set_index (i : nat) (v : Var) (e : Environment) : option Environment :=
  match env_values e !! i with
  | Some _ => Some (mkEnvironment (<[i := v]> (env_values e)) (env_scopes e))
  | None => None
  end.

Definition set (scope_index var_index : Z) (v : Var) (e : Environment) : option Environment :=
  match absolute_index scope_index var_index e with
  | Some i => set_index i v e
  | None => None
  end.

Definition set_scope0 (var_index : Z) (v : Var) (e : Environment) : option Environment :=
  set_index (Z.to_nat var_index) v e.

(** [Some None] is a slot that was never assigned. *)
Definition get_index (i : nat) (e : Environment) : option (option Var) :=
  (λ v, match v with VNone => None | _ => Some v end) <$> env_values e !! i.

Definition get (scope_index var_index : Z) (e : Environment) : option (option Var) :=
  match absolute_index scope_index var_index e with
  | Some i => get_index i e
  | None => None
  end.

Definition get_scope0 (var_index : Z) (e : Environment) : option (option Var) :=
  get_index (Z.to_nat var_index) e.

(** [iter_scopes]: the values of each scope; a slice out of range panics. *)
Definition slice (sc : ScopeLayout) (e : Environment) : list Var :=
  take (Z.to_nat (sl_width sc)) (drop (Z.to_nat (sl_offset sc)) (env_values e)).

Definition scopes_of (e : Environment) : list (list Var) :=
  map (λ sc, slice sc e) (env_scopes e).
End Env.

(** ** Refinement: a list of scopes *)

Fixpoint layouts (off : Z) (ss : list (list Var)) : list ScopeLayout :=
  match ss with
  | [] => []
  | s :: ss => mkLayout off (Z.of_nat (length s)) :: layouts (off + Z.of_nat (length s)) ss
  end.

(** [e] stores the scopes [ss], the outermost first. *)
Definition represents (e : Environment) (ss : list (list Var)) : Prop :=
  env_values e = concat ss ∧ env_scopes e = layouts 0 ss ∧ Z.of_nat (length (concat ss)) ≤ 65535.

Definition assigned_value (v : Var) : option Var := match v with VNone => None | _ => Some v end.

Section refinement.
Implicit Types (e : Environment) (ss : list (list Var)).

Lemma layouts_app off ss ss' :
  layouts off (ss ++ ss') = layouts off ss ++ layouts (off + Z.of_nat (length (concat ss))) ss'.
Proof.
  revert off. induction ss as [|s ss IH]; intros off; cbn.
  - by rewrite Z.add_0_r.
  - rewrite IH, length_app. do 3 f_equal. lia.
Qed.

Lemma length_layouts off ss : length (layouts off ss) = length ss.
Proof. revert off. induction ss as [|s ss IH]; intros off; cbn; [done|]. by rewrite IH. Qed.

Lemma layouts_lookup ss i s : ∀ off,
  ss !! i = Some s →
  layouts off ss !! i =
  Some (mkLayout (off + Z.of_nat (length (concat (take i ss)))) (Z.of_nat (length s))).
Proof.
  revert i. induction ss as [|s' ss IH]; intros [|i] off Hs; cbn in *; try done.
  - injection Hs as ->. by rewrite Z.add_0_r.
  - rewrite (IH i _ Hs), length_app. do 2 f_equal. lia.
Qed.

Lemma concat_lookup ss i s j :
  ss !! i = Some s → (j < length s)%nat →
  concat ss !! (length (concat (take i ss)) + j)%nat = s !! j.
Proof.
  revert i. induction ss as [|s' ss IH]; intros [|i] Hs Hj; cbn in *; try done.
  - injection Hs as ->. by rewrite lookup_app_l.
  - rewrite length_app, lookup_app_r by lia.
    rewrite <- (IH i Hs Hj). f_equal. lia.
Qed.

Lemma concat_insert ss i s j v :
  ss !! i = Some s → (j < length s)%nat →
  <[(length (concat (take i ss)) + j)%nat := v]> (concat ss) = concat (<[i := <[j := v]> s]> ss).
Proof.
  revert i. induction ss as [|s' ss IH]; intros [|i] Hs Hj; cbn in *; try done.
  - injection Hs as ->. by rewrite insert_app_l.
  - rewrite length_app, <- Nat.add_assoc, insert_app_r. f_equal. by apply IH.
Qed.

Lemma layouts_insert ss i s s' : ∀ off,
  ss !! i = Some s → length s' = length s → layouts off (<[i := s']> ss) = layouts off ss.
Proof.
  revert i. induction ss as [|t ss IH]; intros [|i] off Hs Hl; cbn in *; try done.
  - injection Hs as ->. by rewrite Hl.
  - f_equal. by apply IH.
Qed.

Lemma total_insert ss i s s' :
  ss !! i = Some s → length s' = length s → length (concat (<[i := s']> ss)) = length (concat ss).
Proof.
  revert i. induction ss as [|t ss IH]; intros [|i] Hs Hl; cbn in *; try done.
  - injection Hs as ->. rewrite !length_app. lia.
  - rewrite !length_app. f_equal. by apply IH.
Qed.

Lemma as_u16_small n : Z.of_nat n ≤ 65535 → as_u16 (Z.of_nat n) = Z.of_nat n.
Proof. intros Hn. apply Z.mod_small. cbv -[Z.le Z.lt Z.of_nat]. lia. Qed.

Lemma represents_new width :
  Z.of_nat width ≤ 65535 → represents (Env.with_initial_scope width) [replicate width VNone].
Proof.
  intros Hw. unfold represents, Env.with_initial_scope. cbn.
  rewrite app_nil_r, length_replicate, as_u16_small by done. done.
Qed.

Lemma represents_push e ss w :
  represents e ss → Z.of_nat (length (concat ss) + w) ≤ 65535 →
  represents (Env.push_scope w e) (ss ++ [replicate w VNone]).
Proof.
  intros (Hv & Hs & _) Hw. unfold represents, Env.push_scope. cbn.
  rewrite concat_app, layouts_app, Hv, Hs. cbn.
  rewrite !as_u16_small, app_nil_r, !length_app, length_replicate, Z.add_0_l by lia.
  done.
Qed.

Lemma represents_pop e ss s :
  represents e (ss ++ [s]) → represents (Env.pop_scope e) ss.
Proof.
  intros (Hv & Hs & Hl). unfold represents, Env.pop_scope.
  rewrite Hs, layouts_app. cbn [layouts]. rewrite last_snoc. cbn.
  rewrite concat_app, length_app in Hl. rewrite removelast_last, Hv, concat_app. cbn in *.
  rewrite app_nil_r in *. split_and!; [|done|lia].
  destruct (Z.eqb_spec (Z.of_nat (length s)) 0) as [H0|_].
  - rewrite (nil_length_inv s) by lia. by rewrite app_nil_r.
  - rewrite Z.add_0_l, Nat2Z.id. by rewrite take_app_length.
Qed.

Lemma represents_index e ss i j s :
  represents e ss → ss !! Z.to_nat i = Some s → 0 ≤ j →
  Env.absolute_index i j e = Some (length (concat (take (Z.to_nat i) ss)) + Z.to_nat j)%nat.
Proof.
  intros (_ & Hs & _) Hi Hj. unfold Env.absolute_index.
  rewrite Hs, (layouts_lookup _ _ _ 0 Hi). cbn. f_equal. lia.
Qed.

Lemma represents_set e ss i j s v :
  represents e ss → ss !! Z.to_nat i = Some s → 0 ≤ j < Z.of_nat (length s) →
  ∃ e', Env.set i j v e = Some e' ∧
        represents e' (<[Z.to_nat i := <[Z.to_nat j := v]> s]> ss).
Proof.
  intros Hr Hi Hj. unfold Env.set. rewrite (represents_index _ _ _ _ _ Hr Hi) by lia.
  destruct Hr as (Hv & Hs & Hl). unfold Env.set_index.
  rewrite Hv, (concat_lookup _ _ _ _ Hi) by lia.
  destruct (lookup_lt_is_Some_2 s (Z.to_nat j)) as [x ->]; [lia|]. eexists. split; [done|].
  split_and!; cbn.
  - apply concat_insert; [done|lia].
  - rewrite Hs. symmetry. eapply layouts_insert; [done|]. by rewrite length_insert.
  - pose proof (total_insert ss (Z.to_nat i) s (<[Z.to_nat j:=v]> s) Hi (length_insert _ _ _)).
    lia.
Qed.

Lemma represents_get e ss i j s :
  represents e ss → ss !! Z.to_nat i = Some s → 0 ≤ j < Z.of_nat (length s) →
  Env.get i j e = assigned_value <$> s !! Z.to_nat j.
Proof.
  intros Hr Hi Hj. unfold Env.get. rewrite (represents_index _ _ _ _ _ Hr Hi) by lia.
  destruct Hr as (Hv & Hs & Hl). unfold Env.get_index.
  by rewrite Hv, (concat_lookup _ _ _ _ Hi) by lia.
Qed.

Lemma layouts_slices ss : ∀ pre : list Var,
  map (λ sc, take (Z.to_nat (sl_width sc)) (drop (Z.to_nat (sl_offset sc)) (pre ++ concat ss)))
    (layouts (Z.of_nat (length pre)) ss) = ss.
Proof.
  induction ss as [|s ss IH]; intros pre; cbn; [done|]. f_equal.
  - by rewrite !Nat2Z.id, drop_app_length, take_app_length.
  - specialize (IH (pre ++ s)). rewrite length_app, Nat2Z.inj_add in IH.
    by rewrite <- app_assoc in IH.
Qed.

Lemma represents_scopes e ss : represents e ss → Env.scopes_of e = ss.
Proof.
  intros (Hv & Hs & _). unfold Env.scopes_of, Env.slice. rewrite Hv, Hs.
  apply (layouts_slices ss []).
Qed.
End refinement.

(** C23: The contiguous environment implements a list of scopes: opening a scope adds
    one of unassigned variables, closing removes the innermost, assigning and
    reading a variable within the width of its scope touch that variable alone,
    and the scopes read back are the ones written, as long as a frame holds at
    most 65535 variables, the range of its 16-bit offsets. *)
Theorem environment_refines_scopes (e : Environment) (ss : list (list Var))
    (Hr : represents e ss) :
  (∀ w, Z.of_nat (length (concat ss) + w) ≤ 65535 →
     represents (Env.push_scope w e) (ss ++ [replicate w VNone])) ∧
  (∀ ss' s, ss = ss' ++ [s] → represents (Env.pop_scope e) ss') ∧
  (∀ i j s v, ss !! Z.to_nat i = Some s → 0 ≤ j < Z.of_nat (length s) →
     ∃ e', Env.set i j v e = Some e'
           ∧ represents e' (<[Z.to_nat i := <[Z.to_nat j := v]> s]> ss)) ∧
  (∀ i j s, ss !! Z.to_nat i = Some s → 0 ≤ j < Z.of_nat (length s) →
     Env.get i j e = assigned_value <$> s !! Z.to_nat j) ∧
  Env.scopes_of e = ss.
Proof.
  split_and!; intros; subst; eauto using represents_push, represents_pop, represents_set,
    represents_get, represents_scopes.
Qed.

(** Outside of its scope a variable is the neighbour's: only the generator's
    widths keep scopes apart. *)
Example environment_refines_scopes_witness :
  represents (Env.push_scope 2 (Env.with_initial_scope 3))
    ([replicate 3 VNone] ++ [replicate 2 VNone])
  ∧ Env.scopes_of (Env.pop_scope (Env.push_scope 2 (Env.with_initial_scope 3)))
    = [[VNone; VNone; VNone]].
Proof.
  assert (represents (Env.with_initial_scope 3) [replicate 3 VNone]) as Hr
    by (apply represents_new; lia).
  split; [|reflexivity].
  apply (environment_refines_scopes _ _ Hr). cbn. lia.
Defined.
