(* ===== verification/Frame.v ===== *)
(** The stack frame of a verb (crates/vm/src/moo_frame.rs): the program counter,
    the value stack, the variables, the scopes in effect and their payloads; and
    scatter assignment (scatter_assign.rs).

    The value stack and the stack of scopes have their top first; payloads have
    the oldest first, as scopes refer to them by index. A failed [expect], an
    index out of range and a [panic!] are [inr] of what went wrong. Arithmetic on
    16-bit positions wraps, as in release builds. *)
From S2P Require Import Prelude Obj TxTypes Float64 Opcodes Values Environment.
From stdpp Require Import base gmap list strings.

Open Scope Z_scope.

(** What went wrong when the machine panics. *)
Inductive vm_panic :=
| StackUnderflow
| NoVariable          (** a scope or a variable the frame does not have *)
| NoOperand           (** a label, a literal or an operand the program does not have *)
| BadPayload          (** the payload of a scope is missing or of another kind *)
| NoHandler           (** the end of a [try] without its scope or its reason *)
| BadCatchCodes
| RangePanic          (** the range of a binary *)
| DelayPanic          (** a delay that is no [Duration] *)
| HostPanic           (** an error of the world state the machine does not expect *)
| FetchPastEnd.       (** no instruction at the program counter: undefined in the code *)

Definition may (A : Type) : Type := A + vm_panic.

Definition or_panic {A} (w : vm_panic) (o : option A) : may A :=
  match o with Some a => inl a | None => inr w end.

Notation "'let!' x := m 'in' k" :=
  (match m with inl x => k | inr w => inr w end)
  (at level 200, x pattern, m at level 100, k at level 200) : frame_scope.
Open Scope frame_scope.

(** [Exception] (common/src/tasks/errors.rs) *)
Record Exception := mkException {
  exn_error : Error;
  exn_stack : list Var;
  exn_backtrace : list Var;
}.

Inductive FinallyReason :=
| Fallthrough
| Raise (e : Exception)
| ReasonReturn (v : Var)
| ReasonAbort
| ReasonExit (stack : Offset) (label : Label).

Inductive PcType := PcMain | PcForkVector (o : Offset) | PcLambda (o : Offset).

Inductive CatchType := CatchAny | CatchErrors (codes : list Error).

Record ForSequenceScope := mkForSequence {
  fs_sequence : Var;
  fs_current_index : Z;
  fs_current_key : option Var;
  fs_value_bind : Name;
  fs_key_bind : option Name;
  fs_end_label : Label;
}.

Inductive ForRangeScope :=
| RangeInt (current last : Z) (loop_variable : Name) (end_label : Label)
| RangeFloat (current last : f64) (loop_variable : Name) (end_label : Label)
| RangeObj (current last : Z) (loop_variable : Name) (end_label : Label).

(** [ScopeType]: a scope with its data. *)
Inductive ScopeType :=
| TyTryFinally (l : Label)
| TyTryCatch (catches : list (CatchType * Label))
| TyIf | TyEif | TyWhile | TyFor
| TyForSequence (s : ForSequenceScope)
| TyForRange (r : ForRangeScope)
| TyBlock | TyComprehension.

Inductive ScopePayload :=
| PayTryCatch (catches : list (CatchType * Label))
| PayForSequence (s : ForSequenceScope)
| PayForRange (r : ForRangeScope).

Inductive ScopeKind :=
| KTryFinally | KTryCatch | KIf | KEif | KWhile | KFor | KForSequence | KForRange | KBlock
| KComprehension.

#[export] Instance ScopeKind_eq_dec : EqDecision ScopeKind.
Proof. solve_decision. Defined.

Record Scope := mkScope {
  sc_kind : ScopeKind;
  sc_payload : Z;
  valstack_pos : Z;
  start_pos : Z;
  end_pos : Z;
  sc_environment : bool;
}.

(** The stacks of [FrameScratch] belong to the frame; [None] there is three empty
    stacks here. A program is the one a frame owns or the one its pointer leads
    to. *)
Record MooStackFrame := mkFrame {
  fr_program : PrgInner;
  fr_pc : Z;
  fr_pc_type : PcType;
  fr_env : Environment;
  valstack : list Var;
  scope_stack : list Scope;
  scope_payloads : list ScopePayload;
  fr_temp : Var;
  catch_stack : list (CatchType * Label);
  finally_stack : list FinallyReason;
  capture_stack : list (Name * Var);
}.

Module Frame.
(** ** Updates *)

Definition set_pc (pc : Z) f : MooStackFrame :=
  mkFrame (fr_program f) pc (fr_pc_type f) (fr_env f) (valstack f) (scope_stack f)
    (scope_payloads f) (fr_temp f) (catch_stack f) (finally_stack f) (capture_stack f).

Definition set_pc_type (t : PcType) f : MooStackFrame :=
  mkFrame (fr_program f) (fr_pc f) t (fr_env f) (valstack f) (scope_stack f)
    (scope_payloads f) (fr_temp f) (catch_stack f) (finally_stack f) (capture_stack f).

Definition set_env (e : Environment) f : MooStackFrame :=
  mkFrame (fr_program f) (fr_pc f) (fr_pc_type f) e (valstack f) (scope_stack f)
    (scope_payloads f) (fr_temp f) (catch_stack f) (finally_stack f) (capture_stack f).

Definition set_valstack (vs : list Var) f : MooStackFrame :=
  mkFrame (fr_program f) (fr_pc f) (fr_pc_type f) (fr_env f) vs (scope_stack f)
    (scope_payloads f) (fr_temp f) (catch_stack f) (finally_stack f) (capture_stack f).

Definition set_scopes (scs : list Scope) (ps : list ScopePayload) f : MooStackFrame :=
  mkFrame (fr_program f) (fr_pc f) (fr_pc_type f) (fr_env f) (valstack f) scs ps
    (fr_temp f) (catch_stack f) (finally_stack f) (capture_stack f).

Definition set_temp (v : Var) f : MooStackFrame :=
  mkFrame (fr_program f) (fr_pc f) (fr_pc_type f) (fr_env f) (valstack f) (scope_stack f)
    (scope_payloads f) v (catch_stack f) (finally_stack f) (capture_stack f).

Definition set_scratch (cs : list (CatchType * Label)) (fs : list FinallyReason)
    (ps : list (Name * Var)) f : MooStackFrame :=
  mkFrame (fr_program f) (fr_pc f) (fr_pc_type f) (fr_env f) (valstack f) (scope_stack f)
    (scope_payloads f) (fr_temp f) cs fs ps.

(** ** Construction *)

Definition width_of (p : PrgInner) : nat :=
  Z.to_nat (Z.max (global_width (var_names p)) global_count).

Definition with_env (p : PrgInner) (e : Environment) : MooStackFrame :=
  mkFrame p 0 PcMain e [] [] [] VNone [] [] [].

Definition new (p : PrgInner) : MooStackFrame :=
  with_env p (Env.with_initial_scope (width_of p)).

Definition new_with_all_globals (p : PrgInner) (player this caller verb args argstr : Var)
  : MooStackFrame :=
  with_env p (Env.with_call_globals player this caller verb args argstr (width_of p)).

Definition new_with_globals_from_source (p : PrgInner) (player this caller verb args : Var)
    (source_frame : MooStackFrame) : may MooStackFrame :=
  let! e := or_panic NoVariable
    (Env.with_call_globals_copy_parsing player this caller verb args (fr_env source_frame)
       (width_of p)) in
  inl (with_env p e).

(** The scopes a lambda was made with, the first widened for the globals. *)
Fixpoint fill_scope (depth : Z) (i : Z) (scope : list Var) (e : Environment) : may Environment :=
  match scope with
  | [] => inl e
  | v :: scope =>
      let! e := (if is_none v then inl e else or_panic NoVariable (Env.set depth i v e)) in
      fill_scope depth (i + 1) scope e
  end.

Fixpoint push_captured (global_width idx : nat) (scopes : list (list Var)) (e : Environment)
  : may Environment :=
  match scopes with
  | [] => inl e
  | scope :: scopes =>
      let width := if (idx =? 0)%nat then Nat.max (length scope) global_width
                   else length scope in
      let e := Env.push_scope width e in
      let! e := fill_scope (Z.of_nat (Env.len e) - 1) 0 scope e in
      push_captured global_width (S idx) scopes e
  end.

Definition with_environment (p : PrgInner) (environment : list (list Var)) : may MooStackFrame :=
  let! e := match environment with
            | [] => inl (Env.with_initial_scope (width_of p))
            | _ => push_captured (width_of p) 0 environment Env.new
            end in
  inl (with_env p e).

(** ** The program *)

Definition opcodes f : may (list Op.t) :=
  match fr_pc_type f with
  | PcMain => inl (main_vector (fr_program f))
  | PcForkVector o => or_panic NoOperand (fork_vector (fr_program f) o)
  | PcLambda o => or_panic NoOperand (main_vector <$> lambda_program (fr_program f) o)
  end.

(** [None] is the panic of a fork or lambda the program does not have. *)
Definition find_line_no (pc : Z) f : option Z :=
  match fr_pc_type f with
  | PcMain => Some (line_num_for_position (fr_program f) pc 0)
  | PcForkVector o => fork_line_num_for_position (fr_program f) o pc
  | PcLambda o => (λ p, line_num_for_position p pc 0) <$> lambda_program (fr_program f) o
  end.

Definition switch_to_fork_vector (o : Offset) f : MooStackFrame :=
  set_pc 0 (set_pc_type (PcForkVector o) f).

Definition lookahead_ref f : may (option Op.t) :=
  let! ops := opcodes f in inl (ops !! Z.to_nat (fr_pc f)).

Definition skip f : MooStackFrame := set_pc (as_u16 (fr_pc f + 1)) f.

Definition label_position (l : Label) f : may Z :=
  or_panic NoOperand (jl_position <$> jump_label (fr_program f) l).

(** ** Variables *)

Definition parsing_default (i : Z) : option Var :=
  match global_from_repr i with
  | Some gdobj | Some giobj => Some v_nothing
  | Some gargstr | Some gdobjstr | Some gprepstr | Some giobjstr => Some (VStr [])
  | _ => None
  end.

Definition set_gvar (g : GlobalName) (v : Var) f : may MooStackFrame :=
  let! e := or_panic NoVariable (Env.set_scope0 (global_index g) v (fr_env f)) in
  inl (set_env e f).

Definition get_gvar (g : GlobalName) f : may (option Var) :=
  let! o := or_panic NoVariable (Env.get_scope0 (global_index g) (fr_env f)) in
  match o with
  | Some v => inl (Some v)
  | None => inl (parsing_default (global_index g))
  end.

Definition set_variable (n : Name) (v : Var) f : may MooStackFrame :=
  let! e := or_panic NoVariable
              (if name_depth n =? 0 then Env.set_scope0 (name_offset n) v (fr_env f)
               else Env.set (name_depth n) (name_offset n) v (fr_env f)) in
  inl (set_env e f).

Definition get_env (n : Name) f : may (option Var) :=
  if name_depth n =? 0 then
    let! o := or_panic NoVariable (Env.get_scope0 (name_offset n) (fr_env f)) in
    match o with
    | Some v => inl (Some v)
    | None => inl (parsing_default (name_offset n))
    end
  else or_panic NoVariable (Env.get (name_depth n) (name_offset n) (fr_env f)).

(** ** The value stack *)

Definition pop f : may (Var * MooStackFrame) :=
  match valstack f with
  | v :: vs => inl (v, set_valstack vs f)
  | [] => inr StackUnderflow
  end.

Definition push (v : Var) f : MooStackFrame := set_valstack (v :: valstack f) f.

Definition peek_top f : may Var := or_panic StackUnderflow (head (valstack f)).

(** [valstack[amt]] counts from the bottom. *)
Definition peek_abs (amt : Z) f : may Var :=
  or_panic StackUnderflow (rev (valstack f) !! Z.to_nat amt).

Definition peek2 f : may (Var * Var) :=
  match valstack f with
  | a :: b :: _ => inl (a, b)
  | _ => inr StackUnderflow
  end.

(** [valstack[len - amt - 1] = v] *)
Definition poke (amt : nat) (v : Var) f : may MooStackFrame :=
  match valstack f !! amt with
  | Some _ => inl (set_valstack (<[amt := v]> (valstack f)) f)
  | None => inr StackUnderflow
  end.

(** [Vec::truncate] *)
Definition truncate (len : Z) (vs : list Var) : list Var :=
  drop (length vs - Z.to_nat len) vs.

(** ** Scratch stacks *)

Definition push_catch (c : CatchType) (l : Label) f : MooStackFrame :=
  set_scratch (catch_stack f ++ [(c, l)]) (finally_stack f) (capture_stack f) f.

Definition take_catch_stack f : list (CatchType * Label) * MooStackFrame :=
  (catch_stack f, set_scratch [] (finally_stack f) (capture_stack f) f).

Definition push_finally_reason (why : FinallyReason) f : MooStackFrame :=
  set_scratch (catch_stack f) (finally_stack f ++ [why]) (capture_stack f) f.

Definition pop_finally_reason f : option FinallyReason * MooStackFrame :=
  (last (finally_stack f),
   set_scratch (catch_stack f) (removelast (finally_stack f)) (capture_stack f) f).

Definition push_capture (n : Name) (v : Var) f : MooStackFrame :=
  set_scratch (catch_stack f) (finally_stack f) (capture_stack f ++ [(n, v)]) f.

Definition drain_captures_from (start : nat) f : list (Name * Var) * MooStackFrame :=
  (drop start (capture_stack f),
   set_scratch (catch_stack f) (finally_stack f) (take start (capture_stack f)) f).

(** ** Scopes *)

Definition kind_of (t : ScopeType) : ScopeKind :=
  match t with
  | TyTryFinally _ => KTryFinally | TyTryCatch _ => KTryCatch | TyIf => KIf | TyEif => KEif
  | TyWhile => KWhile | TyFor => KFor | TyForSequence _ => KForSequence
  | TyForRange _ => KForRange | TyBlock => KBlock | TyComprehension => KComprehension
  end.

Definition payload_of (t : ScopeType) : option ScopePayload :=
  match t with
  | TyTryCatch c => Some (PayTryCatch c)
  | TyForSequence s => Some (PayForSequence s)
  | TyForRange r => Some (PayForRange r)
  | _ => None
  end.

Definition payload_field (t : ScopeType) f : Z :=
  match t with
  | TyTryFinally l => l
  | TyTryCatch _ | TyForSequence _ | TyForRange _ =>
      as_u16 (Z.of_nat (length (scope_payloads f)))
  | _ => 0
  end.

Definition push_scope_type_record (t : ScopeType) (valstack_pos start_pos end_pos : Z)
    (environment : bool) f : MooStackFrame :=
  set_scopes
    (mkScope (kind_of t) (payload_field t f) valstack_pos start_pos end_pos environment
       :: scope_stack f)
    (scope_payloads f ++ option_list (payload_of t)) f.

(** The data of a scope that has been taken off the stack. *)
Definition take_scope_type (sc : Scope) f : may (ScopeType * MooStackFrame) :=
  let popped := set_scopes (scope_stack f) (removelast (scope_payloads f)) f in
  match sc_kind sc, last (scope_payloads f) with
  | KTryFinally, _ => inl (TyTryFinally (sc_payload sc), f)
  | KIf, _ => inl (TyIf, f)
  | KEif, _ => inl (TyEif, f)
  | KWhile, _ => inl (TyWhile, f)
  | KFor, _ => inl (TyFor, f)
  | KBlock, _ => inl (TyBlock, f)
  | KComprehension, _ => inl (TyComprehension, f)
  | KTryCatch, Some (PayTryCatch c) => inl (TyTryCatch c, popped)
  | KForSequence, Some (PayForSequence s) => inl (TyForSequence s, popped)
  | KForRange, Some (PayForRange r) => inl (TyForRange r, popped)
  | _, _ => inr BadPayload
  end.

Definition try_catches_for_scope (sc : Scope) f : may (option (list (CatchType * Label))) :=
  match sc_kind sc with
  | KTryCatch =>
      match scope_payloads f !! Z.to_nat (sc_payload sc) with
      | Some (PayTryCatch c) => inl (Some c)
      | _ => inr BadPayload
      end
  | _ => inl None
  end.

Definition push_typed (t : ScopeType) (end_label : Label) (environment : bool) f
  : may MooStackFrame :=
  let! end_pos := label_position end_label f in
  inl (push_scope_type_record t (as_u16 (Z.of_nat (length (valstack f)))) (fr_pc f) end_pos
         environment f).

Definition push_scope (t : ScopeType) (scope_width : Z) (end_label : Label) f
  : may MooStackFrame :=
  let! f := push_typed t end_label true f in
  inl (set_env (Env.push_scope (Z.to_nat scope_width) (fr_env f)) f).

Definition push_non_var_scope (t : ScopeType) (end_label : Label) f : may MooStackFrame :=
  push_typed t end_label false f.

(** [None] is an empty stack of scopes. *)
Definition pop_scope f : may (option ScopeType * MooStackFrame) :=
  match scope_stack f with
  | [] => inl (None, f)
  | sc :: scs =>
      let f := set_scopes scs (scope_payloads f) f in
      let f := if sc_environment sc then set_env (Env.pop_scope (fr_env f)) f else f in
      let f := set_valstack (truncate (valstack_pos sc) (valstack f)) f in
      let! (t, f) := take_scope_type sc f in
      inl (Some t, f)
  end.

Definition encloses (pc : Z) (sc : Scope) : bool := (start_pos sc <=? pc) && (pc <? end_pos sc).

(** Scopes that the target of a jump is outside of are left; [scs] is the stack of
    scopes. *)
Fixpoint leave_scopes (scs : list Scope) f : may MooStackFrame :=
  match scs with
  | [] => inl f
  | sc :: scs =>
      if encloses (fr_pc f) sc then inl f
      else let! (_, f) := pop_scope f in leave_scopes scs f
  end.

Definition jump (l : Label) f : may MooStackFrame :=
  let! position := label_position l f in
  leave_scopes (scope_stack f) (set_pc position f).

(** [push_for_sequence_scope], [push_for_range_scope] *)
Definition push_for_scope (t : ScopeType) (end_label : Label) (environment_width : Z) f
  : may MooStackFrame := push_scope t environment_width end_label f.

(** The innermost scope of the kind, its payload and where it is; [inl None]: no
    such scope. *)
Definition innermost (k : ScopeKind) f : may (option (nat * ScopePayload)) :=
  match list_find (λ sc, sc_kind sc = k) (scope_stack f) with
  | None => inl None
  | Some (_, sc) =>
      let i := Z.to_nat (sc_payload sc) in
      match scope_payloads f !! i with
      | None => inl None
      | Some p => inl (Some (i, p))
      end
  end.

Definition get_for_sequence_scope f : may (option (nat * ForSequenceScope)) :=
  let! o := innermost KForSequence f in
  match o with
  | None => inl None
  | Some (i, PayForSequence s) => inl (Some (i, s))
  | Some _ => inr BadPayload
  end.

Definition get_for_range_scope f : may (option (nat * ForRangeScope)) :=
  let! o := innermost KForRange f in
  match o with
  | None => inl None
  | Some (i, PayForRange r) => inl (Some (i, r))
  | Some _ => inr BadPayload
  end.

Definition set_payload (i : nat) (p : ScopePayload) f : MooStackFrame :=
  set_scopes (scope_stack f) (<[i := p]> (scope_payloads f)) f.
End Frame.

(** ** Scatter assignment (crates/vm/src/scatter_assign.rs), shared by the instruction
    and by the binding of a lambda's parameters. *)

Record ScatterResult := mkScatterResult {
  scr_result : option Error;
  scr_needs_defaults : bool;
  scr_first_default_label : option Label;
  scr_first_default_index : option nat;
}.

Definition scatter_failed : ScatterResult :=
  mkScatterResult (Some (from_code E_ARGS)) false None None.

Definition is_rest (l : ScatterLabel) : bool := match l with SRest _ => true | _ => false end.
Definition is_required (l : ScatterLabel) : bool :=
  match l with SRequired _ => true | _ => false end.

Section scatter.
Context {S : Type} (set_var : Name → Var → S → may S).

(** The second loop; [args] are the values the iterator has left. *)
Fixpoint scatter_loop (labels : list ScatterLabel) (idx : nat) (args : list Var)
    (nopt_avail nrest : nat) (r : ScatterResult) (s : S) : may (ScatterResult * S) :=
  match labels with
  | [] => inl (r, s)
  | SRest id :: labels =>
      let! s := set_var id (VList (take nrest args)) s in
      scatter_loop labels (idx + 1) (drop nrest args) nopt_avail nrest r s
  | SRequired id :: labels =>
      match args with
      | arg :: args =>
          let! s := set_var id arg s in scatter_loop labels (idx + 1) args nopt_avail nrest r s
      | [] => inl (scatter_failed, s)
      end
  | SOptional id jump_to :: labels =>
      match nopt_avail with
      | Datatypes.S n =>
          match args with
          | arg :: args =>
              let! s := set_var id arg s in scatter_loop labels (idx + 1) args n nrest r s
          | [] => inl (scatter_failed, s)
          end
      | O =>
          let r := match scr_first_default_label r, scr_first_default_index r with
                   | None, None => mkScatterResult (scr_result r) true jump_to (Some idx)
                   | _, _ => r
                   end in
          scatter_loop labels (idx + 1) args 0 nrest r s
      end
  end.

Definition scatter_assign (table : ScatterArgs) (args : list Var) (s : S)
  : may (ScatterResult * S) :=
  let labels := sa_labels table in
  let nargs := length labels in
  let rest := length (List.filter is_rest labels) in
  let nreq := length (List.filter is_required labels) in
  let have_rest := (0 <? rest)%nat in
  let len := length args in
  if (len <? nreq)%nat || (negb have_rest && (nargs <? len)%nat)
  then inl (scatter_failed, s)
  else
    let nrest := if have_rest && (nargs <=? len)%nat then (len - nargs + 1)%nat else O in
    scatter_loop labels 0 args (len - nreq) nrest (mkScatterResult None false None None) s.
End scatter.
