(* ===== verification/WsBase.v ===== *)
(** The state of a world-state transaction and the steps its operations are made
    of (crates/db/src/engine/ws_transaction.rs and ws_transaction/edit.rs).

    An operation is a function from the transaction to the transaction and a
    result: an error leaves the writes made before it, as in the code. A failed
    [expect] is [Panicked]. Loops the code does not bound take fuel, and
    [Diverged] is running out of it. The caches are [RefCell]s in the code, so
    reading operations change them too. The text of a database error is kept
    without the cause the code appends to it. *)
From S2P Require Import Prelude Obj TxTypes RelIndex RelTx Model Verbs Caches Relations.
From stdpp Require Import base gmap sets list strings fin_maps.

Open Scope Z_scope.

(** ** Values the world state makes or looks into *)

(** What is used of [moor_var::Var] beside storing it, and of
    [extract_anonymous_refs]. *)
Class Values `{Payload} := {
  v_none : Var;
  is_none : Var → bool;
  v_empty_map : Var;
  v_last_move : Z → Obj → Var;
  var_anonymous_refs : Var → gset Obj;
}.

(** ** The memo of property permissions *)

Module Memo.
Record t := mk { known_propflags : gset PropertyKey; perms_by_holder : gmap PropertyKey PropPerms }.

Definition new : t := mk ∅ ∅.
Definition has_known_propflags (holder : PropertyKey) (m : t) : bool :=
  bool_decide (holder ∈ known_propflags m).
Definition mark_known_propflags (holder : PropertyKey) (m : t) : t :=
  mk ({[holder]} ∪ known_propflags m) (perms_by_holder m).
Definition invalidate_known_for_obj (obj : Obj) (m : t) : t :=
  mk (filter (λ holder, pk_obj holder ≠ obj) (known_propflags m)) (perms_by_holder m).
Definition invalidate_known_for_holder (holder : PropertyKey) (m : t) : t :=
  mk (known_propflags m ∖ {[holder]}) (perms_by_holder m).
Definition cached_perms (holder : PropertyKey) (m : t) : option PropPerms :=
  perms_by_holder m !! holder.
Definition cache_perms (holder : PropertyKey) (perms : PropPerms) (m : t) : t :=
  mk (known_propflags m) (<[holder := perms]> (perms_by_holder m)).
Definition invalidate_cached_for_obj (obj : Obj) (m : t) : t :=
  mk (known_propflags m) (filter (λ x, pk_obj x.1 ≠ obj) (perms_by_holder m)).
Definition invalidate_cached_for_holder (holder : PropertyKey) (m : t) : t :=
  mk (known_propflags m) (delete holder (perms_by_holder m)).
Definition clear_cached (m : t) : t := mk (known_propflags m) ∅.
End Memo.

(** ** Edits, and what each makes stale *)

Inductive EditScope :=
| ScopeVerbs (objects : list Obj)
| ScopeProperties (objects : list Obj) (removed : option Uuid)
| ScopePropertyValue (object : Obj)
| ScopePermissions (holder : PropertyKey)
| ScopeOwner (object : Obj)
| ScopeHierarchy (objects : list Obj)
| ScopeRemove (objects removed : list Obj)
| ScopeRenumber (objects : list Obj) (old new : Obj).

Definition hierarchy_caches (objects : list Obj) (c : Caches) : Caches :=
  mkCaches (VerbResolutionCache.invalidate_objects objects (verb_resolution_cache c))
    (PropResolutionCache.invalidate_objects objects (prop_resolution_cache c))
    (AncestryCache.invalidate_objects objects (ancestry_cache c)).

Definition verb_caches (objects : list Obj) (c : Caches) : Caches :=
  mkCaches (VerbResolutionCache.invalidate_objects objects (verb_resolution_cache c))
    (prop_resolution_cache c) (ancestry_cache c).
Definition prop_caches (objects : list Obj) (c : Caches) : Caches :=
  mkCaches (verb_resolution_cache c)
    (PropResolutionCache.invalidate_objects objects (prop_resolution_cache c)) (ancestry_cache c).

Definition forget_cached (objects : list Obj) (m : Memo.t) : Memo.t :=
  fold_left (λ m object, Memo.invalidate_cached_for_obj object m) objects m.
Definition forget_known (objects : list Obj) (m : Memo.t) : Memo.t :=
  fold_left (λ m object, Memo.invalidate_known_for_obj object m) objects m.

(** [drop] of an edit. *)
Definition invalidate_caches (scope : EditScope) (c : Caches) : Caches :=
  match scope with
  | ScopeVerbs objects => verb_caches objects c
  | ScopeProperties objects _ => prop_caches objects c
  | ScopePropertyValue object => prop_caches [object] c
  | ScopePermissions _ | ScopeOwner _ => c
  | ScopeHierarchy objects | ScopeRemove objects _ | ScopeRenumber objects _ _ =>
      hierarchy_caches objects c
  end.

Definition forget_property (removed : option Uuid) (m : Memo.t) (object : Obj) : Memo.t :=
  let m := Memo.invalidate_cached_for_obj object m in
  match removed with
  | Some uuid => Memo.invalidate_known_for_holder (mkPropertyKey object uuid) m
  | None => m
  end.

Definition invalidate_memo (scope : EditScope) (m : Memo.t) : Memo.t :=
  match scope with
  | ScopeVerbs _ | ScopePropertyValue _ => m
  | ScopeProperties objects removed => fold_left (forget_property removed) objects m
  | ScopePermissions holder => Memo.invalidate_cached_for_holder holder m
  | ScopeOwner object => Memo.invalidate_cached_for_obj object m
  | ScopeHierarchy objects => forget_cached objects m
  | ScopeRemove objects removed => forget_known removed (forget_cached objects m)
  | ScopeRenumber objects old new =>
      Memo.clear_cached (Memo.invalidate_known_for_obj new
        (Memo.invalidate_known_for_obj old (forget_cached objects m)))
  end.

Definition bumps_revision (scope : EditScope) : bool :=
  match scope with ScopeVerbs _ | ScopeRemove _ _ | ScopeRenumber _ _ _ => true | _ => false end.

(** ** The transaction *)

Inductive fault :=
| WsErr (e : WorldStateError)
| Panicked
| Diverged.

(** A conflict makes the task retry. *)
Definition database_error (e : Error) (msg : string) : fault :=
  WsErr (match e with Conflict _ => RollbackRetry | _ => DatabaseError msg end).

Section ws.
Context `{Hashes} `{Payload} `{Interner}.
Context {P : DatabaseRelation → Type} `{∀ r, Provider (P r) (DomainOf r) (CodomainOf r)}.

Record ws := mkWs {
  w_tx : WorldStateTransaction (P := P);
  w_memo : Memo.t;
  w_revision : Z;
  w_sequences : Sequences.t;
}.

Definition rel (s : ws) (r : DatabaseRelation) : TxRelation r := wtx_relations (w_tx s) r.
Definition ws_caches_of (s : ws) : Caches := wtx_caches (w_tx s).

Definition set_rel (r : DatabaseRelation) (x : TxRelation r) (s : ws) : ws :=
  let t := w_tx s in
  mkWs (mkWorldStateTransaction (wtx t) (dupd (P := TxRelation) r x (wtx_relations t))
          (wtx_caches t) (wtx_owner_change_reads t) (wtx_inherited_policy_reads t))
    (w_memo s) (w_revision s) (w_sequences s).
Definition set_caches (c : Caches) (s : ws) : ws :=
  let t := w_tx s in
  mkWs (mkWorldStateTransaction (wtx t) (wtx_relations t) c
          (wtx_owner_change_reads t) (wtx_inherited_policy_reads t))
    (w_memo s) (w_revision s) (w_sequences s).
Definition set_memo (m : Memo.t) (s : ws) : ws :=
  mkWs (w_tx s) m (w_revision s) (w_sequences s).
Definition set_sequences (q : Sequences.t) (s : ws) : ws :=
  mkWs (w_tx s) (w_memo s) (w_revision s) q.
Definition set_reads (owners : gset Obj) (policies : gset PropertyKey) (s : ws) : ws :=
  let t := w_tx s in
  mkWs (mkWorldStateTransaction (wtx t) (wtx_relations t) (wtx_caches t) owners policies)
    (w_memo s) (w_revision s) (w_sequences s).

(** ** The monad *)

Definition M (A : Type) : Type := ws → ws * result A fault.

Definition ret {A} (a : A) : M A := λ s, (s, Ok a).
Definition fail {A} (f : fault) : M A := λ s, (s, Err f).
Definition throw {A} (e : WorldStateError) : M A := fail (WsErr e).
Definition bind {A B} (m : M A) (k : A → M B) : M B :=
  λ s, match m s with (s', Ok a) => k a s' | (s', Err f) => (s', Err f) end.
Definition modify (f : ws → ws) : M unit := λ s, (f s, Ok tt).
Definition gets {A} (f : ws → A) : M A := λ s, (s, Ok (f s)).

(** [m.expect(..)] *)
Definition expect {A} (m : M A) : M A :=
  λ s, match m s with (s', Err (WsErr _)) => (s', Err Panicked) | r => r end.
(** [m.ok()] followed by [?] in a function that returns an option. *)
Definition try_ok {A B} (m : M A) (k : A → M (option B)) : M (option B) :=
  λ s, match m s with
       | (s', Ok a) => k a s'
       | (s', Err (WsErr _)) => (s', Ok None)
       | (s', Err f) => (s', Err f)
       end.
(** [m.ok()], or [if let Ok(..) = m]. *)
Definition attempt {A} (m : M A) : M (option A) :=
  λ s, match m s with
       | (s', Ok a) => (s', Ok (Some a))
       | (s', Err (WsErr _)) => (s', Ok None)
       | (s', Err f) => (s', Err f)
       end.

(** A relation read or written, its error mapped by [database_error]. *)
Definition map_err {A} (msg : string) (r : result A Error) : result A fault :=
  match r with Ok a => Ok a | Err e => Err (database_error e msg) end.
Definition reads {A} (r : DatabaseRelation) (f : TxRelation r → result A Error) (msg : string)
  : M A := λ s, (s, map_err msg (f (rel s r))).
Definition runs {A} (r : DatabaseRelation) (f : TxRelation r → TxRelation r * result A Error)
    (msg : string) : M A :=
  λ s, let '(x, res) := f (rel s r) in (set_rel r x s, map_err msg res).

(** The operations of the relations. *)
Definition r_get (r : DatabaseRelation) (d : DomainOf r) (msg : string) : M (option (CodomainOf r)) :=
  reads r (RelationTransaction.get d) msg.
Definition r_has (r : DatabaseRelation) (d : DomainOf r) (msg : string) : M bool :=
  reads r (RelationTransaction.has_domain d) msg.
Definition r_with {R} (r : DatabaseRelation) (d : DomainOf r) (f : CodomainOf r → R)
    (msg : string) : M (option R) :=
  reads r (RelationTransaction.with_domain_value d f) msg.
Definition r_check (r : DatabaseRelation) (ds : list (DomainOf r)) (msg : string)
  : M (gset (DomainOf r)) := reads r (RelationTransaction.check_domains ds) msg.
Definition r_scan (r : DatabaseRelation) (f : DomainOf r → CodomainOf r → bool) (msg : string)
  : M (list (DomainOf r * CodomainOf r)) :=
  bind (reads r (RelationTransaction.scan f) msg) (λ m, ret (map_to_list m)).
Definition r_get_all (r : DatabaseRelation) (msg : string)
  : M (list (DomainOf r * CodomainOf r)) :=
  bind (runs r RelationTransaction.get_all msg) (λ m, ret (map_to_list m)).
Definition r_by_codomain (r : DatabaseRelation) (c : CodomainOf r) (msg : string)
  : M (list (DomainOf r)) := runs r (RelationTransaction.for_each_by_codomain c) msg.
Definition r_upsert (r : DatabaseRelation) (d : DomainOf r) (v : CodomainOf r) (msg : string)
  : M unit := bind (runs r (RelationTransaction.upsert d v) msg) (λ _, ret tt).
Definition r_upsert_with (r : DatabaseRelation) (d : DomainOf r)
    (f : option (CodomainOf r) → option (CodomainOf r)) (msg : string) : M unit :=
  bind (runs r (RelationTransaction.upsert_with d f) msg) (λ _, ret tt).
Definition r_update_with (r : DatabaseRelation) (d : DomainOf r)
    (f : CodomainOf r → option (CodomainOf r)) (msg : string) : M (option (CodomainOf r)) :=
  runs r (RelationTransaction.update_with d f) msg.
Definition r_delete (r : DatabaseRelation) (d : DomainOf r) (msg : string) : M unit :=
  bind (runs r (RelationTransaction.delete d) msg) (λ _, ret tt).
Definition r_insert (r : DatabaseRelation) (d : DomainOf r) (v : CodomainOf r) (msg : string)
  : M unit := runs r (RelationTransaction.insert d v) msg.
Definition r_insert_unique (r : DatabaseRelation) (d : DomainOf r) (v : CodomainOf r)
    (msg : string) : M unit := runs r (RelationTransaction.insert_guaranteed_unique d v) msg.

Fixpoint for_each {A} (l : list A) (f : A → M unit) : M unit :=
  match l with
  | [] => ret tt
  | a :: l' => bind (f a) (λ _, for_each l' f)
  end.
Fixpoint fold_m {A B} (f : B → A → M B) (b : B) (l : list A) : M B :=
  match l with
  | [] => ret b
  | a :: l' => bind (f b a) (λ b', fold_m f b' l')
  end.

(** The body of an edit runs on the relations; when it ends, in success or
    error, the scope's caches are invalidated. *)
Definition edit {A} (scope : EditScope) (body : M A) : M A := λ s,
  if bumps_revision scope && (w_revision s =? u64_max) then (s, Err Panicked)
  else
    let s := if bumps_revision scope
             then mkWs (w_tx s) (w_memo s) (w_revision s + 1) (w_sequences s) else s in
    let '(s', r) := body s in
    (set_memo (invalidate_memo scope (w_memo s'))
       (set_caches (invalidate_caches scope (ws_caches_of s')) s'), r).

Definition modify_caches (f : Caches → Caches) : M unit :=
  modify (λ s, set_caches (f (ws_caches_of s)) s).
Definition modify_memo (f : Memo.t → Memo.t) : M unit := modify (λ s, set_memo (f (w_memo s)) s).
Definition with_verb_cache (f : VerbResolutionCache.t → VerbResolutionCache.t) : M unit :=
  modify_caches (λ c, mkCaches (f (verb_resolution_cache c)) (prop_resolution_cache c)
                        (ancestry_cache c)).
Definition with_prop_cache (f : PropResolutionCache.t → PropResolutionCache.t) : M unit :=
  modify_caches (λ c, mkCaches (verb_resolution_cache c) (f (prop_resolution_cache c))
                        (ancestry_cache c)).
Definition with_ancestry_cache (f : AncestryCache.t → AncestryCache.t) : M unit :=
  modify_caches (λ c, mkCaches (verb_resolution_cache c) (prop_resolution_cache c)
                        (f (ancestry_cache c))).

Definition flush_caches : M unit :=
  modify_caches (λ c, mkCaches (VerbResolutionCache.flush (verb_resolution_cache c))
    (PropResolutionCache.flush (prop_resolution_cache c)) (AncestryCache.flush (ancestry_cache c))).

(** ** Sequences *)

Definition increment_sequence (seq : nat) : M Z := λ s,
  let '(q, v) := Sequences.increment seq (w_sequences s) in (set_sequences q s, Ok v).
Definition get_sequence (seq : nat) : M Z := gets (λ s, Sequences.load seq (w_sequences s)).
Definition update_sequence_max (seq : nat) (value : Z) : M Z := λ s,
  let '(q, v) := Sequences.update_max seq value (w_sequences s) in (set_sequences q s, Ok v).

(** A transaction at its start. *)
Definition ws_start (t : WorldStateTransaction (P := P)) (q : Sequences.t) : ws :=
  mkWs t Memo.new 0 q.
End ws.
Arguments ws {_} P.

Declare Scope ws_scope.
Delimit Scope ws_scope with ws.
Notation "'let*' x ':=' m 'in' k" := (bind m (λ x, k))
  (at level 10, x pattern, m at level 200, k at level 200) : ws_scope.
Notation "m ';;' k" := (bind m (λ _, k)) (at level 100, k at level 200, right associativity) : ws_scope.
Open Scope ws_scope.
