(* ===== verification/WsObjects.v ===== *)
(** Objects, their hierarchy, containment and metadata
    (crates/db/src/engine/ws_transaction.rs). An [ObjSet] is the sequence of
    objects it stores. The walks up the parents and locations and the
    breadth-first walk down the children take [fuel]. *)
From S2P Require Import Prelude Obj TxTypes RelIndex RelTx Model Verbs Caches Relations.
From S2P Require Import WsBase.
From stdpp Require Import base gmap sets list strings fin_maps sorting.

Open Scope Z_scope.
Open Scope ws_scope.

(** ** Arguments *)

Inductive ObjectKind :=
| KindObjid (o : Obj)
| KindNextObjid
| KindUuObjId
| KindAnonymous.

(** [ObjAttrs] packs these into bytes; an owner, parent or location of [NOTHING]
    and an empty name stand for none. *)
Record ObjAttrs := mkObjAttrs {
  attrs_owner : Obj; attrs_parent : Obj; attrs_location : Obj;
  attrs_flags : BitEnum ObjFlag; attrs_name : string;
}.

Definition unless_nothing (o : Obj) : option Obj :=
  if bool_decide (o = NOTHING) then None else Some o.

Module ObjAttrsOps.
Definition empty : ObjAttrs := mkObjAttrs NOTHING NOTHING NOTHING BitEnumOps.new "".
Definition new (owner parent location : Obj) (flags : BitEnum ObjFlag) (name : string) : ObjAttrs :=
  mkObjAttrs owner parent location flags name.
Definition owner (a : ObjAttrs) : option Obj := unless_nothing (attrs_owner a).
Definition parent (a : ObjAttrs) : option Obj := unless_nothing (attrs_parent a).
Definition location (a : ObjAttrs) : option Obj := unless_nothing (attrs_location a).
Definition flags (a : ObjAttrs) : BitEnum ObjFlag := attrs_flags a.
Definition name (a : ObjAttrs) : option string :=
  if bool_decide (attrs_name a = "") then None else Some (attrs_name a).

Definition set_owner (o : Obj) (a : ObjAttrs) : ObjAttrs :=
  mkObjAttrs o (attrs_parent a) (attrs_location a) (attrs_flags a) (attrs_name a).
Definition set_location (o : Obj) (a : ObjAttrs) : ObjAttrs :=
  mkObjAttrs (attrs_owner a) (attrs_parent a) o (attrs_flags a) (attrs_name a).
Definition set_parent (o : Obj) (a : ObjAttrs) : ObjAttrs :=
  mkObjAttrs (attrs_owner a) o (attrs_location a) (attrs_flags a) (attrs_name a).
Definition set_flags (flags : BitEnum ObjFlag) (a : ObjAttrs) : ObjAttrs :=
  mkObjAttrs (attrs_owner a) (attrs_parent a) (attrs_location a) flags (attrs_name a).
(** The name is put behind what the buffer holds. *)
Definition set_name (s : string) (a : ObjAttrs) : ObjAttrs :=
  mkObjAttrs (attrs_owner a) (attrs_parent a) (attrs_location a) (attrs_flags a)
    (attrs_name a ++ s).
End ObjAttrsOps.

(** Setting the name of attributes that have one extends it. *)
Lemma set_name_appends owner parent location flags old s :
  ObjAttrsOps.name (ObjAttrsOps.set_name s (ObjAttrsOps.new owner parent location flags old)) =
  if bool_decide (old ++ s = "")%string then None else Some (old ++ s)%string.
Proof. done. Qed.

Record ObjectQuery := mkObjectQuery {
  query_parent : option Obj;
  query_location : option Obj;
  query_owner : option Obj;
  query_flags_all : option (BitEnum ObjFlag);
  query_flags_any : option (BitEnum ObjFlag);
}.

(** [sort_unstable] and [dedup] of a vector of objects. *)
Definition obj_le (a b : Obj) : Prop := as_u64 a ≤ as_u64 b.
#[export] Instance obj_le_dec a b : Decision (obj_le a b).
Proof. unfold obj_le. apply _. Defined.

Fixpoint dedup_run (l : list Obj) : list Obj :=
  match l with
  | a :: (b :: _) as l' => if bool_decide (a = b) then dedup_run l' else a :: dedup_run l'
  | _ => l
  end.
Definition sort_dedup (l : list Obj) : list Obj := dedup_run (merge_sort obj_le l).

Section objects.
Context `{Hashes} `{Payload} `{!Values} `{Interner}.
Context {P : DatabaseRelation → Type} `{∀ r, Provider (P r) (DomainOf r) (CodomainOf r)}.
Context (fuel : nat).
#[local] Notation M := (M (P := P)).

(** ** Attributes *)

Definition object_valid (obj : Obj) : M bool :=
  r_has ObjectFlags obj "Error getting object flags".

Definition valid_objects (objs : list Obj) : M (gset Obj) :=
  r_check ObjectFlags objs "Error checking object flags".

Definition get_objects : M (list Obj) :=
  let* objects := r_scan ObjectFlags (λ _ _, true) "Error getting objects" in
  ret (map fst objects).

Definition get_object_flags (obj : Obj) : M (BitEnum ObjFlag) :=
  let* r := r_get ObjectFlags obj "Error getting object flags" in
  ret (default BitEnumOps.new r).

Definition get_players : M (list Obj) :=
  let* players := r_scan ObjectFlags (λ _ flags, BitEnumOps.contains ObjUser flags)
                    "Error getting players" in
  ret (map fst players).

Definition get_max_object : M Obj :=
  let* seq_max := get_sequence SEQUENCE_MAX_OBJECT in
  if (seq_max <? i32_min) || (i32_max <? seq_max)
  then throw (DatabaseError "Maximum object sequence number out of bounds")
  else ret (mk_id seq_max).

Definition get_object_owner (obj : Obj) : M Obj :=
  let* r := r_get ObjectOwner obj "Error getting object owner" in
  ret (default NOTHING r).

Definition set_object_flags (obj : Obj) (flags : BitEnum ObjFlag) : M unit :=
  r_upsert_with ObjectFlags obj
    (λ current, match current with
                | Some existing => if bool_decide (existing = flags) then None else Some flags
                | None => Some flags
                end) "Error setting object flags".

Definition get_object_name (obj : Obj) : M string :=
  let* r := r_get ObjectName obj "Error getting object name" in
  match r with
  | None => throw (ObjectNotFound (RefId obj))
  | Some r => ret (holder_string r)
  end.

Definition set_object_name (obj : Obj) (name : string) : M unit :=
  r_upsert_with ObjectName obj
    (λ current, match current with
                | Some existing => if bool_decide (holder_string existing = name) then None
                                   else Some (mkStringHolder name)
                | None => Some (mkStringHolder name)
                end) "Error setting object name".

Definition get_object_parent (obj : Obj) : M Obj :=
  let* r := r_get ObjectParent obj "Error getting object parent" in
  ret (default NOTHING r).

Definition get_object_children (obj : Obj) : M (list Obj) :=
  r_by_codomain ObjectParent obj "Error getting object children".

Definition get_owned_objects (owner : Obj) : M (list Obj) :=
  r_by_codomain ObjectOwner owner "Error getting owned objects".

Definition get_object_location (obj : Obj) : M Obj :=
  let* r := r_get ObjectLocation obj "Error getting object location" in
  ret (default NOTHING r).

Definition get_object_contents (obj : Obj) : M (list Obj) :=
  r_by_codomain ObjectLocation obj "Error getting object contents".

Definition get_verbs (obj : Obj) : M VerbDefs :=
  let* r := r_get ObjectVerbdefs obj "Error getting verbs" in
  ret (default DefsOps.empty r).

Definition get_properties (obj : Obj) : M PropDefs :=
  let* r := r_get ObjectPropdefs obj "Error getting properties" in
  ret (default DefsOps.empty r).

Definition get_last_move (obj : Obj) : M Var :=
  let* r := r_get ObjectLastMove obj "Error getting last_move" in
  ret (default v_empty_map r).

(** [now] is the time of the system clock in seconds. *)
Definition set_last_move (now : Z) (obj old_location : Obj) : M unit :=
  r_upsert ObjectLastMove obj (v_last_move now old_location) "Error setting last_move".

(** ** Ancestors and descendants *)

Fixpoint ancestors_loop (n : nat) (current : Obj) (ancestors : list Obj) : M (list Obj) :=
  match n with
  | O => fail Diverged
  | S n =>
      let* parent := expect (r_get ObjectParent current "Error getting parent") in
      match parent with
      | Some parent =>
          if is_nothing parent then ret ancestors
          else ancestors_loop n parent (ancestors ++ [parent])
      | None => ret ancestors
      end
  end.

Definition ancestors (obj : Obj) (include_self : bool) : M (list Obj) :=
  let* cached := gets (λ s, AncestryCache.lookup obj (ancestry_cache (ws_caches_of s))) in
  let* results_sans_self :=
    match cached with
    | Some hit => ret hit
    | None =>
        let* ancestors := ancestors_loop fuel obj [] in
        with_ancestry_cache (AncestryCache.fill obj ancestors) ;;
        ret ancestors
    end in
  ret (if include_self then obj :: results_sans_self else results_sans_self).

Fixpoint isa_loop (n : nat) (possible_ancestor current : Obj) (ancestors : list Obj)
    (is_ancestor : bool) : M (list Obj * bool) :=
  match n with
  | O => fail Diverged
  | S n =>
      let* current := get_object_parent current in
      if is_nothing current then ret (ancestors, is_ancestor)
      else isa_loop n possible_ancestor current (ancestors ++ [current])
             (is_ancestor || bool_decide (current = possible_ancestor))
  end.

Definition isa (obj possible_ancestor : Obj) : M bool :=
  let* valid := object_valid obj in
  if negb valid then ret false
  else if bool_decide (obj = possible_ancestor) then ret true
  else
    let* cached := gets (λ s, AncestryCache.contains obj possible_ancestor
                                (ancestry_cache (ws_caches_of s))) in
    match cached with
    | Some is_ancestor => ret is_ancestor
    | None =>
        let* r := isa_loop fuel possible_ancestor obj [] false in
        with_ancestry_cache (AncestryCache.fill obj r.1) ;;
        ret r.2
    end.

(** One element of the queue is popped at each step. *)
Fixpoint descendants_loop (n : nat) (queue results : list Obj) : M (list Obj) :=
  match n, queue with
  | _, [] => ret results
  | O, _ => fail Diverged
  | S n, o :: queue =>
      let* children := get_object_children o in
      descendants_loop n (queue ++ children) (results ++ [o])
  end.

Definition descendants (obj : Obj) (include_self : bool) : M (list Obj) :=
  let* children := get_object_children obj in
  let* results_sans_self := descendants_loop fuel children [] in
  ret (if include_self then obj :: results_sans_self else results_sans_self).

Definition branch_objects (root : Obj) : M (list Obj) := descendants root true.

(** ** Moving in the hierarchy and between locations *)

Definition set_object_parent (o new_parent : Obj) : M unit :=
  let* current := r_get ObjectParent o "Unable to update parent relation" in
  if bool_decide (current = Some new_parent) then ret tt
  else
    let* objects := branch_objects o in
    edit (ScopeHierarchy objects)
      (r_upsert ObjectParent o new_parent "Unable to update parent relation").

Definition set_initial_object_parent (o parent : Obj) : M unit :=
  edit (ScopeHierarchy [o])
    (if is_anonymous o || is_uuobjid o
     then expect (r_insert_unique ObjectParent o parent "Unable to set parent")
     else expect (r_insert ObjectParent o parent "Unable to set parent")).

Fixpoint recursive_move_loop (n : nat) (what new_location oid : Obj) : M unit :=
  match n with
  | O => fail Diverged
  | S n =>
      if is_nothing oid then ret tt
      else if bool_decide (oid = what) then throw (RecursiveMove what new_location)
      else
        let* location := r_get ObjectLocation oid "Error getting object location" in
        match location with
        | None => ret tt
        | Some location => recursive_move_loop n what new_location location
        end
  end.

Definition set_object_location (what new_location : Obj) : M unit :=
  recursive_move_loop fuel what new_location new_location ;;
  let* old_location := r_get ObjectLocation what "Error getting object location" in
  if bool_decide (old_location = Some new_location) then ret tt
  else r_upsert ObjectLocation what new_location "Error setting object location".

Definition set_initial_object_location (what new_location : Obj) : M unit :=
  r_upsert ObjectLocation what new_location "Error setting initial object location".

(** ** Creating objects *)

(** [generated] is the identifier drawn for a UUID or anonymous object. *)
Definition new_object_id (id_kind : ObjectKind) (generated : Obj) : M Obj :=
  match id_kind with
  | KindObjid id => ret id
  | KindNextObjid =>
      let* max := increment_sequence SEQUENCE_MAX_OBJECT in
      if (max <? i32_min) || (i32_max <? max)
      then throw (DatabaseError "Maximum object sequence number out of bounds")
      else ret (mk_id max)
  | KindUuObjId | KindAnonymous => ret generated
  end.

Definition create_object (id_kind : ObjectKind) (generated : Obj) (attrs : ObjAttrs) : M Obj :=
  let* id := new_object_id id_kind generated in
  let owner := default id (ObjAttrsOps.owner attrs) in
  expect (r_insert_unique ObjectOwner id owner "Unable to insert initial owner") ;;
  let name := default "" (ObjAttrsOps.name attrs) in
  expect (r_insert_unique ObjectName id (mkStringHolder name) "Unable to insert initial name") ;;
  match ObjAttrsOps.parent attrs with
  | Some parent => expect (set_initial_object_parent id parent)
  | None => ret tt
  end ;;
  match ObjAttrsOps.location attrs with
  | Some location => expect (set_initial_object_location id location)
  | None => ret tt
  end ;;
  expect (r_insert_unique ObjectFlags id (ObjAttrsOps.flags attrs)
            "Unable to insert initial flags") ;;
  (if negb (is_uuobjid id) && negb (is_anonymous id)
   then match Obj.id id with
        | None => fail Panicked
        | Some n => update_sequence_max SEQUENCE_MAX_OBJECT (objid_val n) ;; ret tt
        end
   else ret tt) ;;
  ret id.

(** ** Metadata *)

Definition symbol_le (a b : Symbol * Var) : Prop :=
  String.leb (symbol_text a.1) (symbol_text b.1) = true.
#[local] Instance symbol_le_dec a b : Decision (symbol_le a b).
Proof. unfold symbol_le. apply _. Defined.

Definition metadata_scan (predicate : EntityMetadataKey → bool) : M (list (Symbol * Var)) :=
  let* values := r_scan EntityMetadata (λ metadata_key _, predicate metadata_key)
                   "Error scanning metadata" in
  ret (merge_sort symbol_le (map (λ x : EntityMetadataKey * Var, (emk_key x.1, x.2)) values)).

Definition object_metadata (obj : Obj) : M (list (Symbol * Var)) :=
  metadata_scan (MetadataKey.is_object_key_for obj).
Definition get_object_metadata (obj : Obj) (key : Symbol) : M (option Var) :=
  r_get EntityMetadata (MetadataKey.object obj key) "Error getting metadata".
Definition set_object_metadata (obj : Obj) (key : Symbol) (value : Var) : M unit :=
  r_upsert EntityMetadata (MetadataKey.object obj key) value "Error setting metadata".
Definition clear_object_metadata (obj : Obj) (key : Symbol) : M unit :=
  r_delete EntityMetadata (MetadataKey.object obj key) "Error clearing metadata".

Definition is_object_key (k : EntityMetadataKey) : bool := bool_decide (emk_tag k = TagObject).

Definition objects_with_metadata (key : Symbol) (value : option Var) : M (list Obj) :=
  let wanted := λ k : EntityMetadataKey, is_object_key k && bool_decide (emk_key k = key) in
  let* objects :=
    match value with
    | Some value =>
        let* keys := r_by_codomain EntityMetadata value "Error finding objects by metadata" in
        ret (map emk_obj (List.filter wanted keys))
    | None =>
        let* rows := r_scan EntityMetadata (λ k _, wanted k) "Error scanning metadata" in
        ret (map (λ x : EntityMetadataKey * Var, emk_obj x.1) rows)
    end in
  ret (sort_dedup objects).

Definition property_metadata (holder : Obj) (uuid : Uuid) : M (list (Symbol * Var)) :=
  metadata_scan (MetadataKey.is_property_key_for holder uuid).
Definition get_property_metadata (holder : Obj) (uuid : Uuid) (key : Symbol) : M (option Var) :=
  r_get EntityMetadata (MetadataKey.property holder uuid key) "Error getting metadata".
Definition set_property_metadata (holder : Obj) (uuid : Uuid) (key : Symbol) (value : Var)
  : M unit :=
  r_upsert EntityMetadata (MetadataKey.property holder uuid key) value "Error setting metadata".
Definition clear_property_metadata (holder : Obj) (uuid : Uuid) (key : Symbol) : M unit :=
  r_delete EntityMetadata (MetadataKey.property holder uuid key) "Error clearing metadata".

Definition verb_metadata (location : Obj) (uuid : Uuid) : M (list (Symbol * Var)) :=
  metadata_scan (MetadataKey.is_verb_key_for location uuid).
Definition get_verb_metadata (location : Obj) (uuid : Uuid) (key : Symbol) : M (option Var) :=
  r_get EntityMetadata (MetadataKey.verb location uuid key) "Error getting metadata".
Definition set_verb_metadata (location : Obj) (uuid : Uuid) (key : Symbol) (value : Var) : M unit :=
  r_upsert EntityMetadata (MetadataKey.verb location uuid key) value "Error setting metadata".
Definition clear_verb_metadata (location : Obj) (uuid : Uuid) (key : Symbol) : M unit :=
  r_delete EntityMetadata (MetadataKey.verb location uuid key) "Error clearing metadata".

(** The three deletions of metadata by key. *)
Definition delete_metadata_where (predicate : EntityMetadataKey → bool) : M unit :=
  let* rows := r_scan EntityMetadata (λ k _, predicate k) "Error scanning metadata" in
  for_each (map fst rows) (λ key : EntityMetadataKey,
    r_delete EntityMetadata key "Error deleting metadata").
Definition delete_metadata_for_obj (obj : Obj) : M unit :=
  delete_metadata_where (MetadataKey.references_obj obj).
Definition delete_property_metadata_for_holder (holder : Obj) (uuid : Uuid) : M unit :=
  delete_metadata_where (MetadataKey.is_property_key_for holder uuid).
Definition delete_verb_metadata_for_holder (holder : Obj) (uuid : Uuid) : M unit :=
  delete_metadata_where (MetadataKey.is_verb_key_for holder uuid).

(** ** Recycling *)

(** The body of the edit that removes one object. *)
Definition remove_object_rows (obj : Obj) (propdefs : PropDefs) : M unit :=
  r_delete ObjectParent obj "Error removing parent relationship" ;;
  r_delete ObjectLocation obj "Error removing location relationship" ;;
  r_delete ObjectFlags obj "Error deleting object flags" ;;
  r_delete ObjectName obj "Error deleting object name" ;;
  r_delete ObjectOwner obj "Error deleting object owner" ;;
  r_delete ObjectParent obj "Error deleting object parent" ;;
  r_delete ObjectLocation obj "Error deleting object location" ;;
  delete_metadata_for_obj obj ;;
  r_delete ObjectVerbdefs obj "Error deleting object verbdefs" ;;
  for_each (contents propdefs) (λ p,
    r_delete ObjectPropvalues (mkPropertyKey obj (propdef_uuid p))
      "Error deleting property value") ;;
  attempt (r_delete ObjectPropdefs obj "") ;;
  ret tt.

Definition recycle_object (obj : Obj) : M unit :=
  let* contents := get_object_contents obj in
  let* parent := get_object_parent obj in
  let* children := get_object_children obj in
  for_each contents (λ c, set_object_location c NOTHING) ;;
  for_each children (λ c, set_object_parent c parent) ;;
  let* propdefs := get_properties obj in
  edit (ScopeRemove [obj] [obj]) (remove_object_rows obj propdefs).

(** What is collected of one object before a batch is recycled: its contents,
    its children with their new parent, its property values. *)
Record collected := mkCollected {
  contents_to_move : list Obj;
  children_to_reparent : list (Obj * Obj);
  properties_to_delete : list (Obj * Uuid);
}.

Definition collect_object (acc : collected) (obj : Obj) : M collected :=
  let* contents := get_object_contents obj in
  let* parent := get_object_parent obj in
  let* children := get_object_children obj in
  let* propdefs := get_properties obj in
  ret (mkCollected (contents_to_move acc ++ contents)
         (children_to_reparent acc ++ map (λ c, (c, parent)) children)
         (properties_to_delete acc ++
            map (λ p, (obj, propdef_uuid p)) (Model.contents propdefs))).

Definition remove_batch_rows (obj : Obj) : M unit :=
  r_delete ObjectParent obj "Error removing parent relationship" ;;
  r_delete ObjectLocation obj "Error removing location relationship" ;;
  r_delete ObjectFlags obj "Error deleting object flags" ;;
  r_delete ObjectName obj "Error deleting object name" ;;
  r_delete ObjectOwner obj "Error deleting object owner" ;;
  delete_metadata_for_obj obj ;;
  r_delete ObjectVerbdefs obj "Error deleting object verbdefs" ;;
  attempt (r_delete ObjectPropdefs obj "") ;;
  ret tt.

Definition recycle_objects (objects : gset Obj) : M unit :=
  if bool_decide (objects = ∅) then ret tt
  else
    let removed := elements objects in
    let* acc := fold_m collect_object (mkCollected [] [] []) removed in
    let* affected := fold_m (λ affected child,
        let* branch := branch_objects child in ret (affected ++ branch))
        removed (map fst (children_to_reparent acc)) in
    edit (ScopeRemove (sort_dedup affected) removed)
      (for_each (contents_to_move acc) (λ content,
         r_upsert ObjectLocation content NOTHING "Error updating object location") ;;
       for_each (children_to_reparent acc) (λ x,
         r_upsert ObjectParent x.1 x.2 "Error updating object parent") ;;
       for_each removed remove_batch_rows ;;
       for_each (properties_to_delete acc) (λ x,
         r_delete ObjectPropvalues (mkPropertyKey x.1 x.2) "Error deleting property value")).

(** ** Queries *)

Definition query_candidates (query : ObjectQuery) : M (list Obj) :=
  match query_location query, query_parent query, query_owner query with
  | Some location, _, _ =>
      r_by_codomain ObjectLocation location "Error querying objects by location"
  | None, Some parent, _ =>
      r_by_codomain ObjectParent parent "Error querying objects by parent"
  | None, None, Some owner =>
      r_by_codomain ObjectOwner owner "Error querying objects by owner"
  | None, None, None =>
      let* objects := r_scan ObjectFlags (λ _ _, true) "Error scanning objects" in
      ret (map fst objects)
  end.

Definition or_nothing (m : M Obj) : M Obj := let* r := attempt m in ret (default NOTHING r).

(** One filter of the query: [Some wanted] compares, unless it is not [needed]. *)
Definition passes (needed : bool) (wanted : option Obj) (m : M Obj) : M bool :=
  match wanted with
  | Some wanted =>
      if needed then let* o := or_nothing m in ret (bool_decide (o = wanted)) else ret true
  | None => ret true
  end.

Definition passes_flags (query : ObjectQuery) (obj : Obj) : M bool :=
  match query_flags_all query, query_flags_any query with
  | None, None => ret true
  | _, _ =>
      let* flags := attempt (get_object_flags obj) in
      match flags with
      | None => ret false
      | Some flags =>
          ret (match query_flags_all query with
               | Some required => BitEnumOps.contains_all required flags
               | None => true
               end &&
               match query_flags_any query with
               | Some any_of => BitEnumOps.contains_any any_of flags
               | None => true
               end)
      end
  end.

Definition query_one (query : ObjectQuery) (results : list Obj) (obj : Obj) : M (list Obj) :=
  let some {A} (o : option A) := match o with Some _ => true | None => false end in
  let* ok := passes (some (query_location query) || some (query_owner query))
               (query_parent query) (get_object_parent obj) in
  if negb ok then ret results else
  let* ok := passes (some (query_parent query) || some (query_owner query))
               (query_location query) (get_object_location obj) in
  if negb ok then ret results else
  let* ok := passes (some (query_location query) || some (query_parent query))
               (query_owner query) (get_object_owner obj) in
  if negb ok then ret results else
  let* ok := passes_flags query obj in
  if negb ok then ret results else ret (results ++ [obj]).

Definition query_objects (query : ObjectQuery) : M (list Obj) :=
  let* candidates := query_candidates query in
  fold_m (query_one query) [] candidates.
End objects.
