(* ===== verification/WsVerbs.v ===== *)
(** Verbs: definitions, programs and resolution through the verb cache
    (crates/db/src/engine/ws_transaction.rs). A verb name is the case-folded text
    of its symbol; the code compares the text as written, which gives another
    answer only for a name that contains a star. *)
From S2P Require Import Prelude Obj TxTypes RelIndex RelTx Model Verbs Caches Relations.
From S2P Require Import WsBase WsObjects.
From stdpp Require Import base gmap sets list strings fin_maps.

Open Scope Z_scope.
Open Scope ws_scope.

Definition verb_matches_name (verb : VerbDef) (name : Symbol) : bool :=
  VerbDefOps.matches_name verb (str (symbol_text name)).

#[export] Instance verbdef_named : Named VerbDef := {
  matches_name := verb_matches_name;
  names v := map (λ n, mkSymbol (String.string_of_list_ascii n)) (verbdef_names v);
}.

Record VerbAttrs `{Payload} := mkVerbAttrs {
  va_definer : option Obj;
  va_owner : option Obj;
  va_names : option (list (list Ascii.ascii));
  va_flags : option (BitEnum VerbFlag);
  va_args_spec : option VerbArgsSpec;
  va_program : option ProgramType;
}.

Section verbs.
Context `{Hashes} `{Payload} `{!Values} `{Interner}.
Context {P : DatabaseRelation → Type} `{∀ r, Provider (P r) (DomainOf r) (CodomainOf r)}.
Context (fuel : nat).
#[local] Notation M := (M (P := P)).

Definition get_verb_program (obj : Obj) (uuid : Uuid) : M ProgramType :=
  let* r := r_get ObjectVerbs (mkVerbKey obj uuid) "Error getting verb binary" in
  match r with
  | None => throw (VerbNotFound obj (PUuid uuid))
  | Some program => ret program
  end.

Definition lookup_resolved_verbdef (receiver : Obj) (verb_name : Symbol) (resolved : ResolvedVerb)
  : M VerbDef :=
  let* verbdef := r_with ObjectVerbdefs (rv_location resolved)
                    (λ verbdefs : VerbDefs, DefsOps.find (rv_uuid resolved) verbdefs)
                    "Error getting verbs" in
  match mjoin verbdef with
  | None => throw (VerbNotFound receiver (PSymbol verb_name))
  | Some verbdef => ret verbdef
  end.

(** The verb named so on the object itself; found, it is cached. *)
Definition find_verb_on (obj : Obj) (name : Symbol) : M VerbDef :=
  let* verb := r_with ObjectVerbdefs obj
                 (λ verbdefs : VerbDefs, DefsOps.find_first_named name verbdefs)
                 "Error getting verbs" in
  match mjoin verb with
  | None => throw (VerbNotFound obj (PSymbol name))
  | Some verb =>
      with_verb_cache (VerbResolutionCache.fill_hit obj name (VerbDefOps.as_resolved verb)) ;;
      ret verb
  end.

Definition get_verb_by_name (obj : Obj) (name : Symbol) : M VerbDef :=
  let* cached := gets (λ s, VerbResolutionCache.lookup obj name
                              (verb_resolution_cache (ws_caches_of s))) in
  match cached with
  | Some (Some verbdef) =>
      if bool_decide (rv_location verbdef = obj) then lookup_resolved_verbdef obj name verbdef
      else find_verb_on obj name
  | Some None => throw (VerbNotFound obj (PSymbol name))
  | None => find_verb_on obj name
  end.

Definition get_verb_by_index (obj : Obj) (index : nat) : M VerbDef :=
  let* len := r_with ObjectVerbdefs obj (λ verbs : VerbDefs, DefsOps.len verbs)
                "Error getting verbs" in
  if (default 0%nat len <=? index)%nat then throw (VerbNotFound obj (PIndex index))
  else
    let* verb := r_with ObjectVerbdefs obj (λ verbs : VerbDefs, contents verbs !! index)
                   "Error getting verbs" in
    match mjoin verb with
    | None => throw (VerbNotFound obj (PIndex index))
    | Some verb => ret verb
    end.

Definition builtin_proxy_cache_snapshot : M (list Z) :=
  gets (λ s, VerbResolutionCache.builtin_proxy_absent (verb_resolution_cache (ws_caches_of s))).
Definition builtin_proxy_cache_guard_version : M Z :=
  gets (λ s, VerbResolutionCache.guard_version (verb_resolution_cache (ws_caches_of s))).
Definition mark_builtin_proxy_absent (builtin : nat) : M unit :=
  with_verb_cache (VerbResolutionCache.mark_builtin_proxy_absent builtin).
Definition verb_resolution_cache_version : M Z :=
  gets (λ s, VerbResolutionCache.guard_version (verb_resolution_cache (ws_caches_of s))).

(** ** Resolution *)

(** The verbs of one object on the way: [first_parent_hit] is set once the first
    object with verbs is known or found. *)
Definition visit_verbs (obj : Obj) (name : Symbol) (argspec : option VerbArgsSpec)
    (flagspec : option (BitEnum VerbFlag)) (first_parent_hit : bool) (search_o : Obj)
  : M (bool * option ResolvedVerb) :=
  let* verbdefs := r_with ObjectVerbdefs search_o (λ v : VerbDefs, v) "Error getting verbs" in
  match verbdefs with
  | None => ret (first_parent_hit, None)
  | Some verbdefs =>
      (if negb first_parent_hit
       then with_verb_cache (VerbResolutionCache.fill_first_parent_with_verbs obj (Some search_o))
       else ret tt) ;;
      match List.find (λ verb, verb_matches_name verb name &&
                         VerbDefOps.verbdef_matches_spec verb argspec flagspec)
              (contents verbdefs) with
      | Some verb =>
          let resolved := VerbDefOps.as_resolved verb in
          with_verb_cache (VerbResolutionCache.fill_hit_spec obj name argspec flagspec resolved) ;;
          ret (true, Some resolved)
      | None => ret (true, None)
      end
  end.

(** The search up the parents from [search_o]. *)
Fixpoint resolve_verb_loop (n : nat) (obj : Obj) (name : Symbol) (argspec : option VerbArgsSpec)
    (flagspec : option (BitEnum VerbFlag)) (first_parent_hit : bool) (search_o : Obj)
  : M (option ResolvedVerb) :=
  match n with
  | O => fail Diverged
  | S n =>
      let* found := visit_verbs obj name argspec flagspec first_parent_hit search_o in
      match found with
      | (_, Some resolved) => ret (Some resolved)
      | (first_parent_hit, None) =>
          let* search_o := get_object_parent search_o in
          if is_nothing search_o then ret None
          else resolve_verb_loop n obj name argspec flagspec first_parent_hit search_o
      end
  end.

Definition resolve_verb_handle (obj : Obj) (name : Symbol) (argspec : option VerbArgsSpec)
    (flagspec : option (BitEnum VerbFlag)) : M ResolvedVerb :=
  let not_found := throw (VerbNotFound obj (PSymbol name)) in
  let search :=
    let* first_parent := gets (λ s, VerbResolutionCache.lookup_first_parent_with_verbs obj
                                      (verb_resolution_cache (ws_caches_of s))) in
    match first_parent with
    | Some None => not_found
    | _ =>
        let '(hit, search_o) := match first_parent with
                                | Some (Some o) => (true, o)
                                | _ => (false, obj)
                                end in
        let* found := resolve_verb_loop fuel obj name argspec flagspec hit search_o in
        match found with
        | Some resolved => ret resolved
        | None =>
            with_verb_cache (VerbResolutionCache.fill_miss_spec obj name argspec flagspec) ;;
            not_found
        end
    end in
  let* cached := gets (λ s, VerbResolutionCache.lookup_spec obj name argspec flagspec
                              (verb_resolution_cache (ws_caches_of s))) in
  match cached with
  | Some None => not_found
  | Some (Some verbdef) =>
      if VerbDefOps.resolved_matches_spec verbdef argspec flagspec then ret verbdef else search
  | None => search
  end.

Definition resolve_verb (obj : Obj) (name : Symbol) (argspec : option VerbArgsSpec)
    (flagspec : option (BitEnum VerbFlag)) : M VerbDef :=
  let* resolved := resolve_verb_handle obj name argspec flagspec in
  lookup_resolved_verbdef obj name resolved.

Definition resolve_verb_cached (obj : Obj) (name : Symbol) (argspec : option VerbArgsSpec)
    (flagspec : option (BitEnum VerbFlag)) : M VerbDef :=
  let* cached := gets (λ s, VerbResolutionCache.lookup_spec obj name argspec flagspec
                              (verb_resolution_cache (ws_caches_of s))) in
  match cached with
  | Some (Some resolved) =>
      if negb (VerbDefOps.resolved_matches_spec resolved argspec flagspec)
      then throw (VerbNotFound obj (PSymbol name))
      else lookup_resolved_verbdef obj name resolved
  | _ => throw (VerbNotFound obj (PSymbol name))
  end.

Definition resolve_verb_by_uuid_handle (receiver definer : Obj) (uuid : Uuid)
    (argspec : option VerbArgsSpec) (flagspec : option (BitEnum VerbFlag)) : M ResolvedVerb :=
  let* verbs := get_verbs definer in
  match DefsOps.find uuid verbs with
  | None => throw (VerbNotFound receiver (PUuid uuid))
  | Some verbdef =>
      let resolved := VerbDefOps.as_resolved verbdef in
      if negb (VerbDefOps.resolved_matches_spec resolved argspec flagspec)
      then throw (VerbNotFound receiver (PUuid uuid)) else ret resolved
  end.

Definition resolve_verb_by_uuid (receiver definer : Obj) (uuid : Uuid)
    (argspec : option VerbArgsSpec) (flagspec : option (BitEnum VerbFlag)) : M VerbDef :=
  let* verbs := get_verbs definer in
  match DefsOps.find uuid verbs with
  | None => throw (VerbNotFound receiver (PUuid uuid))
  | Some verbdef =>
      if negb (VerbDefOps.verbdef_matches_spec verbdef argspec flagspec)
      then throw (VerbNotFound receiver (PUuid uuid)) else ret verbdef
  end.

(** ** Changing verbs *)

Definition updated_verb (attrs : VerbAttrs) (ov : VerbDef) : VerbDef :=
  VerbDefOps.new (verbdef_uuid ov) (verbdef_location ov)
    (default (verbdef_owner ov) (va_owner attrs))
    (default (verbdef_names ov) (va_names attrs))
    (default (verbdef_flags ov) (va_flags attrs))
    (default (verbdef_args ov) (va_args_spec attrs)).

Definition update_verb (obj : Obj) (uuid : Uuid) (attrs : VerbAttrs) : M unit :=
  let* objects := branch_objects fuel obj in
  edit (ScopeVerbs objects)
    (let* updated := r_update_with ObjectVerbdefs obj
                       (λ verbdefs : VerbDefs, DefsOps.with_updated uuid (updated_verb attrs) verbdefs)
                       "Error setting verb definition" in
     match updated with
     | None => throw (VerbNotFound obj (PUuid uuid))
     | Some verbdefs =>
         match DefsOps.find uuid (verbdefs : VerbDefs) with
         | None => throw (VerbNotFound obj (PUuid uuid))
         | Some _ =>
             match va_program attrs with
             | Some program =>
                 r_upsert ObjectVerbs (mkVerbKey obj uuid) program "Error setting verb binary"
             | None => ret tt
             end
         end
     end).

(** [uuid] is the random identifier drawn for the verb. *)
Definition add_object_verb (uuid : Uuid) (oid owner : Obj) (names : list (list Ascii.ascii))
    (program : ProgramType) (flags : BitEnum VerbFlag) (args : VerbArgsSpec) : M unit :=
  let* verbdefs := get_verbs oid in
  let verbdef := VerbDefOps.new uuid oid owner names flags args in
  let verbdefs := DefsOps.with_added verbdef verbdefs in
  let* objects := branch_objects fuel oid in
  edit (ScopeVerbs objects)
    (r_upsert ObjectVerbdefs oid verbdefs "Error setting verb definition" ;;
     r_upsert ObjectVerbs (mkVerbKey oid uuid) program "Error setting verb binary").

Definition delete_verb (location : Obj) (uuid : Uuid) : M unit :=
  let* verbdefs := get_verbs location in
  match DefsOps.with_removed uuid verbdefs with
  | None => throw (VerbNotFound location (PUuid uuid))
  | Some verbdefs =>
      let* objects := branch_objects fuel location in
      edit (ScopeVerbs objects)
        (r_upsert ObjectVerbdefs location verbdefs "Error setting verb definition" ;;
         r_delete ObjectVerbs (mkVerbKey location uuid) "Error deleting verb binary" ;;
         delete_verb_metadata_for_holder location uuid)
  end.
End verbs.
