(* ===== verification/WsProps.v ===== *)
(** Properties: definitions, values, permissions and resolution through the
    property cache and the permission memo, and changing an object's owner
    (crates/db/src/engine/ws_transaction.rs). *)
From S2P Require Import Prelude Obj TxTypes RelIndex RelTx Model Verbs Caches Relations.
From S2P Require Import WsBase WsObjects.
From stdpp Require Import base gmap sets list strings fin_maps.

Open Scope Z_scope.
Open Scope ws_scope.

Record PropertySnapshot `{Payload} := mkPropertySnapshot {
  ps_definition : PropDef;
  ps_value : option Var;
  ps_permissions : option PropPerms;
  ps_metadata : list (Symbol * Var);
}.

Section props.
Context `{Hashes} `{Payload} `{!Values} `{Interner}.
Context {P : DatabaseRelation → Type} `{∀ r, Provider (P r) (DomainOf r) (CodomainOf r)}.
Context (fuel : nat).
#[local] Notation M := (M (P := P)).

(** ** Definitions *)

Fixpoint find_uuid_in (uuid : Uuid) (ancestors : list Obj) : M (option PropDef) :=
  match ancestors with
  | [] => ret None
  | ancestor :: ancestors =>
      let* found := r_with ObjectPropdefs ancestor (λ props : PropDefs, DefsOps.find uuid props)
                      "Error getting properties" in
      match mjoin found with
      | Some prop => ret (Some prop)
      | None => find_uuid_in uuid ancestors
      end
  end.

Definition find_property_by_uuid (obj : Obj) (uuid : Uuid) : M PropDef :=
  let* ancestors := ancestors fuel obj true in
  let* found := find_uuid_in uuid ancestors in
  match found with
  | Some prop => ret prop
  | None => throw (PropertyNotFound obj (PUuidTagged uuid))
  end.

(** The first object with property definitions, from [search_o] upwards. *)
Fixpoint first_with_props_loop (n : nat) (obj search_o : Obj) : M (option Obj) :=
  match n with
  | O => fail Diverged
  | S n =>
      try_ok (r_with ObjectPropdefs search_o
                (λ propdefs : PropDefs, negb (bool_decide (contents propdefs = []))) "")
        (λ has_props,
           if default false has_props
           then with_prop_cache
                  (PropResolutionCache.fill_first_parent_with_props obj (Some search_o)) ;;
                ret (Some search_o)
           else try_ok (get_object_parent search_o) (λ search_o,
             if is_nothing search_o then ret None else first_with_props_loop n obj search_o))
  end.

(** [Some r]: the search ended with [r]; [None]: an error ended it. *)
Fixpoint find_named_loop (n : nat) (name : Symbol) (search_o : Obj)
  : M (option (option PropDef)) :=
  match n with
  | O => fail Diverged
  | S n =>
      try_ok (r_with ObjectPropdefs search_o
                (λ propdefs : PropDefs, DefsOps.find_first_named name propdefs) "")
        (λ propdef,
           match mjoin propdef with
           | Some propdef => ret (Some (Some propdef))
           | None =>
               try_ok (get_object_parent search_o) (λ search_o,
                 if is_nothing search_o then ret (Some None)
                 else find_named_loop n name search_o)
           end)
  end.

Definition find_property_by_name (obj : Obj) (name : Symbol) : M (option PropDef) :=
  let* cached := gets (λ s, PropResolutionCache.lookup obj name
                              (prop_resolution_cache (ws_caches_of s))) in
  match cached with
  | Some cache_result => ret cache_result
  | None =>
      let* first_parent := gets (λ s, PropResolutionCache.lookup_first_parent_with_props obj
                                        (prop_resolution_cache (ws_caches_of s))) in
      let* search_o :=
        match first_parent with
        | Some o => ret o
        | None => first_with_props_loop fuel obj obj
        end in
      match search_o with
      | None => ret None
      | Some search_o =>
          let* found := find_named_loop fuel name search_o in
          match found with
          | None => ret None
          | Some None =>
              with_prop_cache (PropResolutionCache.fill_miss obj name) ;; ret None
          | Some (Some propdef) =>
              with_prop_cache (PropResolutionCache.fill_hit obj name propdef) ;;
              ret (Some propdef)
          end
      end
  end.

(** ** Permissions *)

Definition retrieve_property_permissions (obj : Obj) (uuid : Uuid) : M PropPerms :=
  let holder := mkPropertyKey obj uuid in
  let* cached := gets (λ s, Memo.cached_perms holder (w_memo s)) in
  match cached with
  | Some perms => ret perms
  | None =>
      let* local := r_with ObjectPropflags holder (λ perms : PropPerms, perms)
                      "Error getting property flags" in
      match local with
      | Some perms => modify_memo (Memo.cache_perms holder perms) ;; ret perms
      | None =>
          let* propdef := find_property_by_uuid obj uuid in
          let defining_obj := propdef_definer propdef in
          let* canonical := r_with ObjectPropflags (mkPropertyKey defining_obj uuid)
                              (λ perms : PropPerms, perms)
                              "Error getting canonical property flags" in
          match canonical with
          | None => throw (DatabaseError "Canonical property permissions not found on definer")
          | Some canonical_perms =>
              let* final_perms :=
                if BitEnumOps.contains PropChown (PropPermsOps.flags canonical_perms)
                   && negb (bool_decide (obj = defining_obj))
                then let* obj_owner := get_object_owner obj in
                     ret (PropPermsOps.with_owner obj_owner canonical_perms)
                else ret canonical_perms in
              modify_memo (Memo.cache_perms holder final_perms) ;;
              ret final_perms
          end
      end
  end.

Definition note_policy_read (key : PropertyKey) : M unit :=
  modify (λ s, set_reads (wtx_owner_change_reads (w_tx s))
                 ({[key]} ∪ wtx_inherited_policy_reads (w_tx s)) s).
Definition note_owner_reads (objects : list Obj) : M unit :=
  modify (λ s, set_reads (list_to_set objects ∪ wtx_owner_change_reads (w_tx s))
                 (wtx_inherited_policy_reads (w_tx s)) s).

Definition record_inherited_policy_dependency (obj : Obj) (uuid : Uuid) : M unit :=
  let* has := r_has ObjectPropflags (mkPropertyKey obj uuid) "Error reading property flags" in
  if (has : bool) then ret tt
  else
    let* propdef := find_property_by_uuid obj uuid in
    note_policy_read (mkPropertyKey (propdef_definer propdef) uuid).

(** ** Values *)

Definition retrieve_property (obj : Obj) (uuid : Uuid) : M (option Var * PropPerms) :=
  let* value := r_get ObjectPropvalues (mkPropertyKey obj uuid) "Error getting property value" in
  let* perms := retrieve_property_permissions obj uuid in
  ret (value, perms).

Fixpoint inherited_value (uuid : Uuid) (ancestors : list Obj) : M (option Var) :=
  match ancestors with
  | [] => ret None
  | search_obj :: ancestors =>
      let* value := r_get ObjectPropvalues (mkPropertyKey search_obj uuid)
                      "Error getting property value" in
      match value with
      | Some value => ret (Some value)
      | None => inherited_value uuid ancestors
      end
  end.

(** The value, the permissions and whether the property is clear. *)
Definition resolve_property_by_uuid (obj : Obj) (uuid : Uuid) : M (Var * PropPerms * bool) :=
  let* r := retrieve_property obj uuid in
  match r with
  | (Some value, perms) => ret (value, perms, false)
  | (None, perms) =>
      let* ancestors := ancestors fuel obj false in
      let* value := inherited_value uuid ancestors in
      ret (default v_none value, perms, true)
  end.

Definition resolve_property (obj : Obj) (name : Symbol) : M (PropDef * Var * PropPerms * bool) :=
  let* propdef := find_property_by_name obj name in
  match propdef with
  | None => throw (PropertyNotFound obj (PSymbol name))
  | Some propdef =>
      let prop_uuid := propdef_uuid propdef in
      let* r := retrieve_property obj prop_uuid in
      match r with
      | (Some value, perms) => ret (propdef, value, perms, false)
      | (None, perms) =>
          let* ancestors := ancestors fuel obj false in
          let* value := inherited_value prop_uuid ancestors in
          ret (propdef, default v_none value, perms, true)
      end
  end.

Definition prop_resolution_cache_version : M Z :=
  gets (λ s, PropResolutionCache.guard_version (prop_resolution_cache (ws_caches_of s))).

Definition snapshot_property (obj : Obj) (definition : PropDef) : M PropertySnapshot :=
  let holder := mkPropertyKey obj (propdef_uuid definition) in
  let* value := r_get ObjectPropvalues holder "Error reading local property value" in
  let* permissions := r_get ObjectPropflags holder "Error reading local property permissions" in
  let* metadata := property_metadata obj (propdef_uuid definition) in
  ret (mkPropertySnapshot _ definition value permissions metadata).

(** ** Changes *)

Definition set_property (obj : Obj) (uuid : Uuid) (value : Var) : M unit :=
  if is_none value then throw PropertyTypeMismatch
  else
    let holder := mkPropertyKey obj uuid in
    r_upsert ObjectPropvalues holder value "Error setting property value" ;;
    let* known := gets (λ s, Memo.has_known_propflags holder (w_memo s)) in
    if (known : bool) then ret tt
    else
      let* has := r_has ObjectPropflags holder "Error checking property flags" in
      (if (has : bool) then ret tt
       else
         let* inherited_perms := retrieve_property_permissions obj uuid in
         record_inherited_policy_dependency obj uuid ;;
         edit (ScopePermissions holder)
           (r_upsert ObjectPropflags holder inherited_perms "Error setting property flags")) ;;
      modify_memo (Memo.mark_known_propflags holder).

(** Fails when one of the objects defines the property. *)
Fixpoint no_duplicate (name : Symbol) (objects : list Obj) : M unit :=
  match objects with
  | [] => ret tt
  | object :: objects =>
      let* props := get_properties object in
      match DefsOps.find_first_named name props with
      | Some _ => throw (DuplicatePropertyDefinition object (PSymbol name))
      | None => no_duplicate name objects
      end
  end.

(** [u] is the random identifier drawn for the property. *)
Definition define_property (u : Uuid) (definer location : Obj) (name : Symbol) (owner : Obj)
    (perms : BitEnum PropFlag) (value : option Var) : M Uuid :=
  let* props := get_properties location in
  match DefsOps.find_first_named name props with
  | Some _ => throw (DuplicatePropertyDefinition location (PSymbol name))
  | None =>
      let* ancestors := ancestors fuel location false in
      no_duplicate name ancestors ;;
      let* descendants := descendants fuel location false in
      no_duplicate name descendants ;;
      let prop := mkPropDef u definer location name in
      edit (ScopeProperties (descendants ++ [location]) None)
        (r_upsert ObjectPropdefs location (DefsOps.with_added prop props)
           "Error setting property definition" ;;
         r_upsert ObjectPropflags (mkPropertyKey location u) (PropPermsOps.new owner perms)
           "Error setting property owner") ;;
      modify_memo (Memo.mark_known_propflags (mkPropertyKey location u)) ;;
      match value with
      | Some value => set_property location u value
      | None => ret tt
      end ;;
      ret u
  end.

Definition rename_property (objects : list Obj) (obj : Obj) (uuid : Uuid) (new_name : Symbol)
  : M unit :=
  edit (ScopeProperties objects None)
    (let* updated := r_update_with ObjectPropdefs obj
        (λ props : PropDefs, DefsOps.with_updated uuid (λ p,
           mkPropDef (propdef_uuid p) (propdef_definer p) (propdef_location p) new_name) props)
        "Error updating property" in
     match updated with
     | None => throw (PropertyNotFound obj (PUuid uuid))
     | Some props =>
         match DefsOps.find uuid (props : PropDefs) with
         | None => throw (PropertyNotFound obj (PUuid uuid))
         | Some _ => ret tt
         end
     end).

Definition update_property_info (obj : Obj) (uuid : Uuid) (new_owner : option Obj)
    (new_flags : option (BitEnum PropFlag)) (new_name : option Symbol) : M unit :=
  match new_owner, new_flags, new_name with
  | None, None, None => ret tt
  | _, _, _ =>
      let* objects := branch_objects fuel obj in
      match new_name with
      | Some new_name => rename_property objects obj uuid new_name
      | None => ret tt
      end ;;
      match new_flags, new_owner with
      | None, None => ret tt
      | _, _ =>
          record_inherited_policy_dependency obj uuid ;;
          let* perms := retrieve_property_permissions obj uuid in
          let perms := match new_flags with
                       | Some new_flags => PropPermsOps.with_flags new_flags perms
                       | None => perms
                       end in
          let perms := match new_owner with
                       | Some new_owner => PropPermsOps.with_owner new_owner perms
                       | None => perms
                       end in
          edit (ScopeProperties objects None)
            (r_upsert ObjectPropflags (mkPropertyKey obj uuid) perms "Error updating property") ;;
          modify_memo (Memo.mark_known_propflags (mkPropertyKey obj uuid))
      end
  end.

Definition clear_property (obj : Obj) (uuid : Uuid) : M unit :=
  edit (ScopePropertyValue obj)
    (r_delete ObjectPropvalues (mkPropertyKey obj uuid) "Error clearing property value").

Definition clear_local_property_permissions (obj : Obj) (uuid : Uuid) : M unit :=
  let holder := mkPropertyKey obj uuid in
  edit (ScopePermissions holder)
    (r_delete ObjectPropflags holder "Error clearing local property permissions") ;;
  modify_memo (Memo.invalidate_known_for_holder holder).

Definition delete_property (obj : Obj) (uuid : Uuid) : M unit :=
  let* descendants := descendants fuel obj false in
  let locations := [obj] ++ descendants in
  edit (ScopeProperties locations (Some uuid))
    (for_each locations (λ location,
       r_update_with ObjectPropdefs location
         (λ props : PropDefs, DefsOps.with_removed uuid props) "Error deleting property" ;;
       delete_property_metadata_for_holder location uuid)).

(** ** Owners *)

(** The permissions of one inherited property to keep when the owner changes. *)
Definition preserve_property (obj : Obj) (preserved : list (PropertyKey * PropPerms))
    (property : PropDef) : M (list (PropertyKey * PropPerms)) :=
  let uuid := propdef_uuid property in
  let holder := mkPropertyKey obj uuid in
  note_policy_read holder ;;
  let* has := r_has ObjectPropflags holder "Error checking property flags" in
  if (has : bool) then ret preserved
  else
    record_inherited_policy_dependency obj uuid ;;
    let* perms := retrieve_property_permissions obj uuid in
    ret (if BitEnumOps.contains PropChown (PropPermsOps.flags perms)
         then preserved ++ [(holder, perms)] else preserved).

Definition preserve_ancestor (obj : Obj) (preserved : list (PropertyKey * PropPerms))
    (ancestor : Obj) : M (list (PropertyKey * PropPerms)) :=
  let* props := get_properties ancestor in
  fold_m (preserve_property obj) preserved (contents props).

Definition set_object_owner (obj owner : Obj) : M unit :=
  let* current := r_get ObjectOwner obj "Error setting object owner" in
  if bool_decide (current = Some owner) then ret tt
  else
    let* ancestors := ancestors fuel obj true in
    note_owner_reads ancestors ;;
    let* preserved := fold_m (preserve_ancestor obj) []
                        (List.filter (λ a, negb (bool_decide (a = obj))) ancestors) in
    for_each preserved (λ x : PropertyKey * PropPerms,
      edit (ScopePermissions x.1)
        (r_upsert ObjectPropflags x.1 x.2 "Error preserving property flags") ;;
      modify_memo (Memo.mark_known_propflags x.1)) ;;
    edit (ScopeOwner obj)
      (r_upsert ObjectOwner obj owner "Error setting object owner").
End props.
