(* ===== verification/WsRenumber.v ===== *)
(** Renumbering an object, and the collection of anonymous objects
    (crates/db/src/engine/ws_transaction.rs). *)
From S2P Require Import Prelude Obj TxTypes RelIndex RelTx Model Verbs Caches Relations.
From S2P Require Import WsBase WsObjects WsVerbs.
From stdpp Require Import base gmap sets list strings fin_maps.

Open Scope Z_scope.
Open Scope ws_scope.

Section renumber.
Context `{Hashes} `{Payload} `{!Values} `{Interner}.
Context {P : DatabaseRelation → Type} `{∀ r, Provider (P r) (DomainOf r) (CodomainOf r)}.
Context (fuel : nat).
#[local] Notation M := (M (P := P)).

(** ** The new number *)

(** [o.id().0], which asserts that the object is numbered. *)
Definition id_of (o : Obj) : M Z :=
  match Obj.id o with Some n => ret (objid_val n) | None => fail Panicked end.

(** Arithmetic on 32-bit numbers wraps in the release profile. *)
Definition wrap_i32 (n : Z) : Z := to_signed 32 (wrap 32 n).

Fixpoint next_free_loop (n : nat) (candidate_id : Z) : M Obj :=
  match n with
  | O => fail Diverged
  | S n =>
      let* used := object_valid (mk_id candidate_id) in
      if (used : bool) then next_free_loop n (wrap_i32 (candidate_id + 1))
      else ret (mk_id candidate_id)
  end.

(** Downwards from the largest number to zero. *)
Fixpoint scan_down_loop (n : nat) (max_id candidate_id : Z) : M Obj :=
  match n with
  | O => fail Diverged
  | S n =>
      let* used := object_valid (mk_id candidate_id) in
      if negb used then ret (mk_id candidate_id)
      else if candidate_id =? 0 then ret (mk_id (wrap_i32 (max_id + 1)))
      else scan_down_loop n max_id (wrap_i32 (candidate_id - 1))
  end.

(** Upwards from zero, below the old number. *)
Fixpoint scan_up_loop (n : nat) (old_id candidate_id : Z) : M (option Obj) :=
  match n with
  | O => fail Diverged
  | S n =>
      if candidate_id <? old_id then
        let* used := object_valid (mk_id candidate_id) in
        if negb used then ret (Some (mk_id candidate_id))
        else scan_up_loop n old_id (candidate_id + 1)
      else ret None
  end.

(** [generated] is the identifier drawn for a UUID object. *)
Definition renumber_target (generated old_obj : Obj) (target : option ObjectKind) : M Obj :=
  match target with
  | Some target =>
      let* target_obj :=
        match target with
        | KindObjid obj => ret obj
        | KindNextObjid =>
            let* max_obj := get_max_object in
            let* max_id := id_of max_obj in
            next_free_loop fuel (wrap_i32 (max_id + 1))
        | KindUuObjId => ret generated
        | KindAnonymous => throw (InvalidRenumber "Cannot renumber to anonymous object")
        end in
      let* used := object_valid target_obj in
      if (used : bool) then throw (InvalidRenumber "Target object already exists")
      else ret target_obj
  | None =>
      if is_uuobjid old_obj then
        let* max_obj := get_max_object in
        let* max_id := id_of max_obj in
        scan_down_loop fuel max_id max_id
      else
        let* old_id := id_of old_obj in
        let* found := scan_up_loop fuel old_id 0 in
        ret (default old_obj found)
  end.

(** ** Moving the rows *)

(** Rows that point to the old object are pointed to the new one. *)
Definition repoint (r : DatabaseRelation) (points : CodomainOf r → bool) (new : CodomainOf r)
    (msg msg' : string) : M unit :=
  let* refs := r_scan r (λ _ codomain, points codomain) msg in
  for_each (map fst refs) (λ d,
    r_update_with r d (λ _, Some new) msg' ;; ret tt).

(** A row keyed by the object is moved; [k] continues with its value. *)
Definition move_row_with (r : DatabaseRelation) (old new : DomainOf r)
    (f : CodomainOf r → CodomainOf r) (k : CodomainOf r → M unit) : M unit :=
  let* row := attempt (r_get r old "") in
  match mjoin row with
  | None => ret tt
  | Some v =>
      r_delete r old "Error deleting old object" ;;
      r_upsert r new (f v) "Error setting new object" ;;
      k v
  end.
Definition move_row (r : DatabaseRelation) (old new : DomainOf r) : M unit :=
  move_row_with r old new (λ v, v) (λ _, ret tt).

Definition relocate_verb (new_obj : Obj) (verb : VerbDef) : VerbDef :=
  VerbDefOps.new (verbdef_uuid verb) new_obj (verbdef_owner verb) (verbdef_names verb)
    (verbdef_flags verb) (verbdef_args verb).

Definition move_verbs (old_obj new_obj : Obj) : M unit :=
  move_row_with ObjectVerbdefs old_obj new_obj
    (λ verbdefs : VerbDefs, DefsOps.from_items (map (relocate_verb new_obj) (contents verbdefs)))
    (λ verbdefs : VerbDefs, for_each (contents verbdefs) (λ verb,
       move_row ObjectVerbs (mkVerbKey old_obj (verbdef_uuid verb))
         (mkVerbKey new_obj (verbdef_uuid verb)))).

Definition redefine (old_obj new_obj : Obj) (prop : PropDef) : PropDef :=
  if bool_decide (propdef_definer prop = old_obj)
  then mkPropDef (propdef_uuid prop) new_obj (propdef_location prop) (propdef_name prop)
  else prop.

Definition move_propdefs (old_obj new_obj : Obj) : M unit :=
  move_row_with ObjectPropdefs old_obj new_obj (λ v, v) (λ _,
    let* all_propdefs := r_get_all ObjectPropdefs "Error scanning property definitions" in
    for_each all_propdefs (λ x : Obj * PropDefs,
      if existsb (λ prop, bool_decide (propdef_definer prop = old_obj)) (contents x.2)
      then r_upsert ObjectPropdefs x.1
             (DefsOps.from_items (map (redefine old_obj new_obj) (contents x.2)))
             "Error updating property definer references"
      else ret tt)).

(** The rows keyed by a property of the object. *)
Definition move_property_rows (r : DatabaseRelation) (obj_of : DomainOf r → Obj)
    (rekey : DomainOf r → option (DomainOf r)) (old_obj : Obj) : M unit :=
  let* rows := r_scan r (λ holder _, bool_decide (obj_of holder = old_obj)) "Error scanning" in
  for_each rows (λ x,
    match rekey x.1 with
    | None => ret tt
    | Some new_key =>
        r_delete r x.1 "Error deleting old" ;;
        r_upsert r new_key x.2 "Error setting new"
    end).

Definition rename_holder (new_obj : Obj) (holder : PropertyKey) : option PropertyKey :=
  Some (mkPropertyKey new_obj (pk_uuid holder)).

Definition renumber_rows (old_obj new_obj : Obj) : M unit :=
  let to_old := λ o : Obj, bool_decide (o = old_obj) in
  repoint ObjectParent to_old new_obj "Error scanning parent relations"
    "Error updating parent relation" ;;
  repoint ObjectLocation to_old new_obj "Error scanning location relations"
    "Error updating location relation" ;;
  repoint ObjectOwner to_old new_obj "Error scanning owner relations"
    "Error updating owner relation" ;;
  move_row ObjectParent old_obj new_obj ;;
  move_row ObjectLocation old_obj new_obj ;;
  move_row ObjectOwner old_obj new_obj ;;
  move_row ObjectFlags old_obj new_obj ;;
  move_row ObjectName old_obj new_obj ;;
  move_verbs old_obj new_obj ;;
  move_propdefs old_obj new_obj ;;
  move_property_rows ObjectPropvalues pk_obj (rename_holder new_obj) old_obj ;;
  move_property_rows ObjectPropflags pk_obj (rename_holder new_obj) old_obj ;;
  move_property_rows EntityMetadata emk_obj (MetadataKey.rehome_obj old_obj new_obj) old_obj.

Definition renumber_object (generated old_obj : Obj) (target : option ObjectKind) : M Obj :=
  let* valid := object_valid old_obj in
  if negb valid then throw (ObjectNotFound (RefId old_obj))
  else
    let* new_obj := renumber_target generated old_obj target in
    if bool_decide (new_obj = old_obj) then ret new_obj
    else
      let* objects := branch_objects fuel old_obj in
      edit (ScopeRenumber (objects ++ [new_obj]) old_obj new_obj)
        (renumber_rows old_obj new_obj) ;;
      (if negb (is_uuobjid new_obj)
       then
         let* current_max := get_max_object in
         let* new_id := id_of new_obj in
         let* max_id := id_of current_max in
         if max_id <? new_id
         then update_sequence_max SEQUENCE_MAX_OBJECT new_id ;; ret tt
         else ret tt
       else ret tt) ;;
      ret new_obj.

(** ** Anonymous objects *)

Definition add_refs (obj : Obj) (refs : gset Obj) (m : gmap Obj (gset Obj)) : gmap Obj (gset Obj) :=
  <[obj := refs ∪ default ∅ (m !! obj)]> m.

Definition only_anonymous (l : list Obj) : gset Obj :=
  list_to_set (List.filter is_anonymous l).

(** The structural references of one object; a failed read adds none. *)
Definition structural_refs (obj : Obj) : M (gset Obj) :=
  let* parent := attempt (get_object_parent obj) in
  let* location := attempt (get_object_location obj) in
  let* inside := attempt (get_object_contents obj) in
  let* verbdefs := attempt (get_verbs obj) in
  let* propdefs := attempt (get_properties obj) in
  ret (only_anonymous (option_list parent ++ option_list location ++ default [] inside
         ++ flat_map (λ v : VerbDef, [verbdef_location v; verbdef_owner v])
              (from_option contents [] verbdefs)
         ++ flat_map (λ p : PropDef, [propdef_definer p; propdef_location p])
              (from_option contents [] propdefs))).

(** Every error is reported as a database error, a conflict too. *)
Definition as_database_error {A} (m : M A) : M A :=
  λ s, match m s with
       | (s', Err (WsErr _)) => (s', Err (WsErr (DatabaseError "")))
       | r => r
       end.

Definition scan_anonymous_object_references : M (list (Obj * gset Obj)) :=
  let* values := as_database_error (r_get_all ObjectPropvalues "") in
  let* metadata := as_database_error (r_get_all EntityMetadata "") in
  let* objects := as_database_error (r_get_all ObjectFlags "") in
  let m := fold_left (λ m (x : PropertyKey * Var), add_refs (pk_obj x.1) (var_anonymous_refs x.2) m)
             values ∅ in
  let m := fold_left (λ m (x : EntityMetadataKey * Var),
               add_refs (emk_obj x.1) (var_anonymous_refs x.2) m) metadata m in
  let* m := fold_m (λ m (x : Obj * BitEnum ObjFlag),
                let* refs := structural_refs x.1 in ret (add_refs x.1 refs m)) m objects in
  ret (List.filter (λ x : Obj * gset Obj, negb (bool_decide (x.2 = ∅))) (map_to_list m)).

Definition get_anonymous_objects : M (gset Obj) :=
  let* all_objects := get_objects in
  ret (only_anonymous all_objects).

Definition collect_unreachable_anonymous_objects (unreachable_objects : gset Obj) : M nat :=
  let* objects_to_recycle :=
    valid_objects (List.filter is_anonymous (elements unreachable_objects)) in
  (if negb (bool_decide (objects_to_recycle = ∅))
   then recycle_objects fuel objects_to_recycle else ret tt) ;;
  ret (size objects_to_recycle).
End renumber.
