(* ===== verification/WorldState.v ===== *)
(** The world state as tasks see it (crates/db/src/api/world_state.rs): every
    operation of the transaction behind its permission checks. Timers and the
    thin wrappers around commit, rollback and disk usage are left out. *)
From S2P Require Import Prelude Obj TxTypes RelIndex RelTx Model Verbs Caches Relations.
From S2P Require Import Auth WsBase WsObjects WsVerbs WsProps WsRenumber.
From stdpp Require Import base gmap sets list strings fin_maps pretty.

Open Scope Z_scope.
Open Scope ws_scope.

(** How [moor_var::Var] is looked into and made by these operations. *)
Inductive VerbRef := RefIndex (n : Z) | RefName (name : Symbol) | RefOther (debug : string).

Class ValueForms `{Payload} := {
  as_string : Var → option string;
  as_object : Var → option Obj;
  as_integer : Var → option Z;
  as_verb_ref : Var → VerbRef;
  as_list : Var → option (list Var);
  is_true : Var → bool;
  v_str : string → Var;
  v_obj : Obj → Var;
  v_list : list Var → Var;
  v_bool_int : bool → Var;
}.

(** The names with a meaning of their own. *)
Definition NAME_SYM : Symbol := mkSymbol "name".
Definition LOCATION_SYM : Symbol := mkSymbol "location".
Definition CONTENTS_SYM : Symbol := mkSymbol "contents".
Definition OWNER_SYM : Symbol := mkSymbol "owner".
Definition CHILDREN_SYM : Symbol := mkSymbol "children".
Definition PARENT_SYM : Symbol := mkSymbol "parent".
Definition PROGRAMMER_SYM : Symbol := mkSymbol "programmer".
Definition WIZARD_SYM : Symbol := mkSymbol "wizard".
Definition R_SYM : Symbol := mkSymbol "r".
Definition W_SYM : Symbol := mkSymbol "w".
Definition F_SYM : Symbol := mkSymbol "f".
Definition ALIASES_SYM : Symbol := mkSymbol "aliases".
Definition LAST_MOVE_SYM : Symbol := mkSymbol "last_move".

Definition symbol_in (s : Symbol) (l : list Symbol) : bool := existsb (λ x, bool_decide (s = x)) l.

Record PropAttrs `{Payload} := mkPropAttrs {
  pa_name : option Symbol;
  pa_value : option Var;
  pa_location : option Obj;
  pa_owner : option Obj;
  pa_flags : option (BitEnum PropFlag);
}.

Record VerbLookup := mkVerbLookup {
  lookup_object : Obj;
  lookup_verb_name : Symbol;
  lookup_argspec : option VerbArgsSpec;
  lookup_flagspec : option (BitEnum VerbFlag);
}.
Module VerbLookupOps.
Definition method (object : Obj) (verb_name : Symbol) : VerbLookup :=
  mkVerbLookup object verb_name None (Some (BitEnumOps.new_with VerbExec)).
Definition command (object : Obj) (verb_name : Symbol) (argspec : VerbArgsSpec) : VerbLookup :=
  mkVerbLookup object verb_name (Some argspec) None.
End VerbLookupOps.

(** The argument specification of a command as the receiver sees it. *)
Definition spec_for_target (receiver target : Obj) : ArgSpec :=
  if bool_decide (target = receiver) then ArgThis
  else if is_nothing target then ArgNone else ArgAny.
Definition command_verb_argspec (receiver dobj : Obj) (prep : PrepSpec) (iobj : Obj)
  : VerbArgsSpec :=
  mkVerbArgsSpec (spec_for_target receiver dobj) prep (spec_for_target receiver iobj).

Inductive DispatchFlagsSource := FlagsOfPermissions | FlagsOfVerbOwner.
Record VerbDispatch := mkVerbDispatch {
  dispatch_lookup : VerbLookup;
  dispatch_flags_source : DispatchFlagsSource;
}.
Record VerbProgramKey := mkVerbProgramKey { key_verb_definer : Obj; key_verb_uuid : Uuid }.
Record VerbDispatchResult := mkVerbDispatchResult {
  dr_program_key : VerbProgramKey;
  dr_verbdef : ResolvedVerb;
  dr_permissions_flags : BitEnum ObjFlag;
}.
Record VerbProgramCacheToken := mkCacheToken { token_transaction : Z; token_revision : Z }.

Module DbWorldState.
Section api.
Context `{Hashes} `{Payload} `{!Values} `{!ValueForms} `{Interner}.
Context {P : DatabaseRelation → Type} `{∀ r, Provider (P r) (DomainOf r) (CodomainOf r)}.
Context (fuel : nat).
#[local] Notation M := (M (P := P)).

(** ** Authority *)

Definition require (rule : AuthRule) (auth : AuthContext) : M unit :=
  if Auth.allows rule auth then ret tt else throw (denial rule).

Definition flags_of (obj : Obj) : M (BitEnum ObjFlag) := get_object_flags obj.
Definition owner_of (obj : Obj) : M Obj := get_object_owner obj.
Definition valid (obj : Obj) : M bool := object_valid obj.

Definition auth_context (permissions : TaskPermissions) : M AuthContext :=
  let principal := tp_principal permissions in
  let* flags := flags_of principal in
  ret (mkAuth principal flags (tp_grants permissions)).
Definition cached_auth_context (permissions : TaskPermissions) : AuthContext :=
  mkAuth (tp_principal permissions) (tp_principal_flags permissions) (tp_grants permissions).
Definition auth_context_for_principal (who : Obj) : M AuthContext :=
  let* flags := flags_of who in ret (Auth.new who flags).

Definition controls (who what : Obj) : M bool :=
  let* owner := owner_of what in
  let* auth := auth_context_for_principal who in
  ret (Auth.allows (RuleObjectOwnerOrWizard owner) auth).

(** The flags and the owner of an object are read together before many checks. *)
Definition flags_and_owner (obj : Obj) : M (BitEnum ObjFlag * Obj) :=
  let* flags := flags_of obj in let* owner := owner_of obj in ret (flags, owner).

Definition must_be_valid (obj : Obj) : M unit :=
  let* ok := valid obj in
  if negb ok then throw (ObjectNotFound (RefId obj)) else ret tt.

Definition require_object_allows (permissions : TaskPermissions) (obj : Obj) (flag : ObjFlag)
  : M unit :=
  let* fo := flags_and_owner obj in
  let* auth := auth_context permissions in
  require (RuleObjectAllows obj fo.2 fo.1 (BitEnumOps.new_with flag)) auth.
Definition require_owner_or_wizard (permissions : TaskPermissions) (obj : Obj) : M unit :=
  let* owner := owner_of obj in
  let* auth := auth_context permissions in
  require (RuleObjectOwnerOrWizard owner) auth.

(** ** Objects *)

Definition all_objects : M (list Obj) := get_objects.
Definition players : M (list Obj) := get_players.

Definition set_flags_of (permissions : TaskPermissions) (obj : Obj) (new_flags : BitEnum ObjFlag)
  : M unit :=
  require_owner_or_wizard permissions obj ;;
  set_object_flags obj new_flags.

Definition location_of (permissions : TaskPermissions) (obj : Obj) : M Obj :=
  get_object_location obj.

Definition check_parent (permissions : TaskPermissions) (parent owner : Obj) : M unit :=
  let* fo := flags_and_owner parent in
  let* auth := auth_context permissions in
  let* ok := valid parent in
  if (ok : bool)
  then require (RuleObjectAllows parent fo.2 fo.1 (BitEnumOps.new_with ObjFertile)) auth
  else if negb (bool_decide (parent = NOTHING)) then throw ObjectPermissionDenied
  else require (RuleObjectOwnerOrWizard owner) auth.

(** [generated] is the identifier drawn for a UUID or anonymous object. *)
Definition create_object (permissions : TaskPermissions) (parent owner : Obj)
    (flags : BitEnum ObjFlag) (id_kind : ObjectKind) (generated : Obj) : M Obj :=
  let* auth := auth_context permissions in
  let* parent_valid := valid parent in
  if negb parent_valid && negb (is_nothing parent) then throw ObjectPermissionDenied
  else
    require (RuleObjectOwnerOrWizard owner) auth ;;
    match id_kind with
    | KindObjid obj_id =>
        let* used := valid obj_id in
        if (used : bool) then throw (ObjectAlreadyExists obj_id) else ret tt
    | _ => ret tt
    end ;;
    check_parent permissions parent owner ;;
    WsObjects.create_object id_kind generated (ObjAttrsOps.new owner parent NOTHING flags "").

Definition check_recycle_object (permissions : TaskPermissions) (obj : Obj) : M unit :=
  let* owner := owner_of obj in
  let* auth := auth_context permissions in
  require (RuleObjectRecycle obj owner) auth.
Definition recycle_object (permissions : TaskPermissions) (obj : Obj) : M unit :=
  check_recycle_object permissions obj ;;
  WsObjects.recycle_object fuel obj.

Definition max_object (permissions : TaskPermissions) : M Obj := get_max_object.

(** [now] is the time of the system clock. *)
Definition move_object (now : Z) (permissions : TaskPermissions) (obj new_loc : Obj) : M unit :=
  let* owner := owner_of obj in
  let* auth := auth_context permissions in
  require (RuleObjectMove obj owner) auth ;;
  let* old_loc := get_object_location obj in
  set_object_location fuel obj new_loc ;;
  set_last_move now obj old_loc.

Definition contents_of (permissions : TaskPermissions) (obj : Obj) : M (list Obj) :=
  get_object_contents obj.
Definition verbs (permissions : TaskPermissions) (obj : Obj) : M VerbDefs :=
  require_object_allows permissions obj ObjRead ;; get_verbs obj.
Definition properties (permissions : TaskPermissions) (obj : Obj) : M PropDefs :=
  require_object_allows permissions obj ObjRead ;; get_properties obj.
Definition name_of (permissions : TaskPermissions) (obj : Obj) : M string := get_object_name obj.
Definition parent_of (permissions : TaskPermissions) (obj : Obj) : M Obj := get_object_parent obj.
Definition children_of (permissions : TaskPermissions) (obj : Obj) : M (list Obj) :=
  get_object_children obj.
Definition owned_objects (permissions : TaskPermissions) (owner : Obj) : M (list Obj) :=
  get_owned_objects owner.
Definition query_objects (query : ObjectQuery) : M (list Obj) := WsObjects.query_objects query.
Definition descendants_of (permissions : TaskPermissions) (obj : Obj) (include_self : bool)
  : M (list Obj) := descendants fuel obj include_self.
Definition ancestors_of (permissions : TaskPermissions) (obj : Obj) (include_self : bool)
  : M (list Obj) := ancestors fuel obj include_self.
Definition isa (obj possible_ancestor : Obj) : M bool := WsObjects.isa fuel obj possible_ancestor.

(** *** Changing the parent *)

Fixpoint change_parent_loop (n : nat) (permissions : TaskPermissions) (obj new_parent curr : Obj)
  : M unit :=
  match n with
  | O => fail Diverged
  | S n =>
      if is_nothing curr then ret tt
      else if bool_decide (curr = obj) then throw (RecursiveMove obj new_parent)
      else
        let* curr := parent_of permissions curr in
        change_parent_loop n permissions obj new_parent curr
  end.

Definition property_names (objects : list Obj) : M (list Symbol) :=
  fold_m (λ names o, let* props := get_properties o in
            ret (names ++ map propdef_name (contents props))) [] objects.

Definition check_chparent_property_conflict (permissions : TaskPermissions) (obj new_parent : Obj)
  : M unit :=
  let* below := descendants_of permissions obj true in
  let* obj_or_descendant_props := property_names below in
  let* above := ancestors_of permissions new_parent true in
  let* new_parent_or_ancestors_property_names := property_names above in
  match List.find (λ n, symbol_in n new_parent_or_ancestors_property_names)
          obj_or_descendant_props with
  | Some name => throw (ChparentPropertyNameConflict obj new_parent (PSymbol name))
  | None => ret tt
  end.

Definition change_parent (permissions : TaskPermissions) (obj new_parent : Obj) : M unit :=
  change_parent_loop fuel permissions obj new_parent new_parent ;;
  let* owner := owner_of obj in
  check_parent permissions new_parent owner ;;
  let* auth := auth_context permissions in
  require (RuleObjectChparent obj owner) auth ;;
  check_chparent_property_conflict permissions obj new_parent ;;
  set_object_parent fuel obj new_parent.

Definition renumber_object (permissions : TaskPermissions) (generated obj : Obj)
    (target : option ObjectKind) : M Obj :=
  let* auth := auth_context permissions in
  require RuleObjectWizard auth ;;
  must_be_valid obj ;;
  WsRenumber.renumber_object fuel generated obj target.

Definition increment_sequence (seq : nat) : M Z := WsBase.increment_sequence seq.
Definition flush_caches : M unit := WsBase.flush_caches.

(** ** Properties *)

Definition require_property (permissions : TaskPermissions) (obj : Obj) (pname : Symbol)
    (perms : PropPerms) (flag : PropFlag) : M unit :=
  let* auth := auth_context permissions in
  require (RulePropertyAllows obj pname perms flag) auth.

Definition get_last_move_property (obj : Obj) : M Var := get_last_move obj.

Definition retrieve_property (permissions : TaskPermissions) (obj : Obj) (pname : Symbol) : M Var :=
  let flag f := let* flags := flags_of obj in ret (v_bool_int (BitEnumOps.contains f flags)) in
  (if bool_decide (obj = NOTHING) then throw (ObjectNotFound (RefId obj)) else must_be_valid obj) ;;
  if bool_decide (pname = NAME_SYM) then let* n := name_of permissions obj in ret (v_str n)
  else if bool_decide (pname = LOCATION_SYM)
  then let* l := location_of permissions obj in ret (v_obj l)
  else if bool_decide (pname = CONTENTS_SYM)
  then let* l := contents_of permissions obj in ret (v_list (map v_obj l))
  else if bool_decide (pname = OWNER_SYM) then let* o := owner_of obj in ret (v_obj o)
  else if bool_decide (pname = PROGRAMMER_SYM) then flag ObjProgrammer
  else if bool_decide (pname = WIZARD_SYM) then flag ObjWizard
  else if bool_decide (pname = R_SYM) then flag ObjRead
  else if bool_decide (pname = W_SYM) then flag ObjWrite
  else if bool_decide (pname = F_SYM) then flag ObjFertile
  else if bool_decide (pname = LAST_MOVE_SYM) then get_last_move_property obj
  else
    let* r := resolve_property fuel obj pname in
    let '(_, value, perms, _) := r in
    require_property permissions obj pname perms PropRead ;;
    ret value.

Definition get_property_info (permissions : TaskPermissions) (obj : Obj) (pname : Symbol)
  : M (PropDef * PropPerms) :=
  let* r := resolve_property fuel obj pname in
  let '(pdef, _, perms, _) := r in
  require_property permissions obj pname perms PropRead ;;
  ret (pdef, perms).

Definition snapshot_property (permissions : TaskPermissions) (obj : Obj) (uuid : Uuid)
  : M PropertySnapshot :=
  must_be_valid obj ;;
  let* definition := find_property_by_uuid fuel obj uuid in
  let* perms := retrieve_property_permissions fuel obj uuid in
  require_property permissions obj (propdef_name definition) perms PropRead ;;
  WsProps.snapshot_property obj definition.

Definition set_property_info (permissions : TaskPermissions) (obj : Obj) (pname : Symbol)
    (attrs : PropAttrs) : M unit :=
  let* auth := auth_context permissions in
  let* r := resolve_property fuel obj pname in
  let '(pdef, _, perms, _) := r in
  require (RulePropertyAllows obj pname perms PropWrite) auth ;;
  match pa_flags attrs with
  | Some flags =>
      if negb (bool_decide (BitEnumOps.contains PropClobber flags =
                            BitEnumOps.contains PropClobber (PropPermsOps.flags perms)))
      then require RulePropertyWizard auth else ret tt
  | None => ret tt
  end ;;
  match pa_owner attrs with
  | Some new_owner =>
      require (RulePropertyOwnerUnchangedOrWizard (PropPermsOps.owner perms) new_owner) auth
  | None => ret tt
  end ;;
  update_property_info fuel obj (propdef_uuid pdef) (pa_owner attrs) (pa_flags attrs)
    (pa_name attrs).

(** Setting a flag of an object through its property. *)
Definition with_flag (f : ObjFlag) (on : bool) (flags : BitEnum ObjFlag) : BitEnum ObjFlag :=
  if on then BitEnumOps.set f flags else BitEnumOps.clear f flags.

Definition update_attribute_of (auth : AuthContext) (obj : Obj) (pname : Symbol) (value : Var)
    (flags : BitEnum ObjFlag) (objowner : Obj) : M unit :=
  let flag f :=
    match as_integer value with
    | None => throw PropertyTypeMismatch
    | Some v => set_object_flags obj (with_flag f (v =? 1) flags)
    end in
  if bool_decide (pname = NAME_SYM) then
    match as_string value with
    | None => throw PropertyTypeMismatch
    | Some name =>
        (if BitEnumOps.contains ObjUser flags then require RulePropertyWizard auth else ret tt) ;;
        require (RuleObjectRename obj objowner) auth ;;
        set_object_name obj name
    end
  else if bool_decide (pname = OWNER_SYM) then
    match as_object value with
    | None => throw PropertyTypeMismatch
    | Some owner => require RulePropertyWizard auth ;; set_object_owner fuel obj owner
    end
  else
    require (RuleObjectOwnerOrWizard objowner) auth ;;
    if bool_decide (pname = R_SYM) then flag ObjRead
    else if bool_decide (pname = W_SYM) then flag ObjWrite
    else flag ObjFertile.
Definition update_attribute (auth : AuthContext) (obj : Obj) (pname : Symbol) (value : Var)
  : M unit :=
  let* fo := flags_and_owner obj in update_attribute_of auth obj pname value fo.1 fo.2.

Definition update_property (permissions : TaskPermissions) (obj : Obj) (pname : Symbol)
    (value : Var) : M unit :=
  let* auth := auth_context permissions in
  if symbol_in pname [LOCATION_SYM; CONTENTS_SYM; PARENT_SYM; CHILDREN_SYM]
  then throw PropertyPermissionDenied
  else if symbol_in pname [NAME_SYM; OWNER_SYM; R_SYM; W_SYM; F_SYM]
  then update_attribute auth obj pname value
  else if symbol_in pname [PROGRAMMER_SYM; WIZARD_SYM] then
    require RulePropertyWizard auth ;;
    let* flags := flags_of obj in
    set_object_flags obj
      (with_flag (if bool_decide (pname = PROGRAMMER_SYM) then ObjProgrammer else ObjWizard)
         (is_true value) flags)
  else if is_none value then throw PropertyTypeMismatch
  else
    let* r := resolve_property fuel obj pname in
    let '(pdef, _, perms, _) := r in
    require (RulePropertyAllows obj pname perms PropWrite) auth ;;
    set_property fuel obj (propdef_uuid pdef) value.

Definition is_property_clear (permissions : TaskPermissions) (obj : Obj) (pname : Symbol) : M bool :=
  let* r := resolve_property fuel obj pname in
  let '(_, _, perms, clear) := r in
  require_property permissions obj pname perms PropRead ;;
  ret clear.

Definition clear_property (permissions : TaskPermissions) (obj : Obj) (pname : Symbol) : M unit :=
  let* r := resolve_property fuel obj pname in
  let '(pdef, _, perms, _) := r in
  require_property permissions obj pname perms PropWrite ;;
  if bool_decide (propdef_location pdef = obj)
  then throw (CannotClearPropertyOnDefiner obj (PSymbol pname))
  else WsProps.clear_property obj (propdef_uuid pdef).

(** [u] is the random identifier drawn for the property. *)
Definition define_property (u : Uuid) (permissions : TaskPermissions) (definer location : Obj)
    (pname : Symbol) (propowner : Obj) (prop_flags : BitEnum PropFlag) (initial_value : option Var)
  : M unit :=
  if symbol_in pname [NAME_SYM; LOCATION_SYM; CONTENTS_SYM; OWNER_SYM; PROGRAMMER_SYM; WIZARD_SYM;
                      R_SYM; W_SYM; F_SYM; PARENT_SYM; CHILDREN_SYM]
  then throw PropertyPermissionDenied
  else
    let* fo := flags_and_owner location in
    let* auth := auth_context permissions in
    require (RulePropertyDefine location fo.2 fo.1) auth ;;
    require (RulePropertyOwnerOrWizard propowner) auth ;;
    (if BitEnumOps.contains PropClobber prop_flags then require RulePropertyWizard auth
     else ret tt) ;;
    if match initial_value with Some v => is_none v | None => false end
    then throw PropertyTypeMismatch
    else
      WsProps.define_property fuel u definer location pname propowner prop_flags initial_value ;;
      ret tt.

Definition delete_property (permissions : TaskPermissions) (obj : Obj) (pname : Symbol) : M unit :=
  let* props := get_properties obj in
  match DefsOps.find_first_named pname props with
  | None => throw (PropertyNotFound obj (PSymbol pname))
  | Some pdef =>
      let* fo := flags_and_owner obj in
      let* auth := auth_context permissions in
      require (RulePropertyDelete obj pname fo.2 fo.1) auth ;;
      WsProps.delete_property fuel obj (propdef_uuid pdef)
  end.

(** The name and the strings of the aliases. *)
Definition names_of (permissions : TaskPermissions) (obj : Obj) : M (string * list string) :=
  let* name := get_object_name obj in
  let* aliases := attempt (retrieve_property permissions obj ALIASES_SYM) in
  ret (name, match aliases ≫= as_list with
             | Some l => map (λ v, default "" (as_string v)) l
             | None => []
             end).

(** *** Metadata of objects and properties *)

Definition object_metadata (permissions : TaskPermissions) (obj : Obj) : M (list (Symbol * Var)) :=
  must_be_valid obj ;;
  require_object_allows permissions obj ObjRead ;;
  WsObjects.object_metadata obj.
Definition get_object_metadata (permissions : TaskPermissions) (obj : Obj) (key : Symbol)
  : M (option Var) :=
  must_be_valid obj ;;
  require_object_allows permissions obj ObjRead ;;
  WsObjects.get_object_metadata obj key.
Definition set_object_metadata (permissions : TaskPermissions) (obj : Obj) (key : Symbol)
    (value : Var) : M unit :=
  must_be_valid obj ;;
  require_owner_or_wizard permissions obj ;;
  WsObjects.set_object_metadata obj key value.
Definition clear_object_metadata (permissions : TaskPermissions) (obj : Obj) (key : Symbol)
  : M unit :=
  must_be_valid obj ;;
  require_owner_or_wizard permissions obj ;;
  WsObjects.clear_object_metadata obj key.

Definition readable_object (auth : AuthContext) (readable : list Obj) (obj : Obj) : M (list Obj) :=
  let* ok := valid obj in
  if negb ok then ret readable
  else
    let* fo := flags_and_owner obj in
    ret (if Auth.allows (RuleObjectAllows obj fo.2 fo.1 (BitEnumOps.new_with ObjRead)) auth
         then readable ++ [obj] else readable).
Definition objects_with_metadata (permissions : TaskPermissions) (key : Symbol) (value : option Var)
  : M (list Obj) :=
  let* auth := auth_context permissions in
  let* objects := WsObjects.objects_with_metadata key value in
  fold_m (readable_object auth) [] objects.

Definition property_metadata (permissions : TaskPermissions) (obj : Obj) (pname : Symbol)
  : M (list (Symbol * Var)) :=
  let* info := get_property_info permissions obj pname in
  WsObjects.property_metadata obj (propdef_uuid info.1).
Definition get_property_metadata (permissions : TaskPermissions) (obj : Obj) (pname key : Symbol)
  : M (option Var) :=
  let* info := get_property_info permissions obj pname in
  WsObjects.get_property_metadata obj (propdef_uuid info.1) key.
Definition set_property_metadata (permissions : TaskPermissions) (obj : Obj) (pname key : Symbol)
    (value : Var) : M unit :=
  let* info := get_property_info permissions obj pname in
  require_property permissions obj pname info.2 PropWrite ;;
  WsObjects.set_property_metadata obj (propdef_uuid info.1) key value.
Definition clear_property_metadata (permissions : TaskPermissions) (obj : Obj) (pname key : Symbol)
  : M unit :=
  let* info := get_property_info permissions obj pname in
  require_property permissions obj pname info.2 PropWrite ;;
  WsObjects.clear_property_metadata obj (propdef_uuid info.1) key.

(** ** Verbs *)

Definition require_verb (permissions : TaskPermissions) (obj : Obj) (vh : VerbDef)
    (flag : VerbFlag) : M unit :=
  let* auth := auth_context permissions in
  require (RuleVerbAllows obj (verbdef_uuid vh) (verbdef_owner vh) (verbdef_flags vh) flag) auth.

(** The verb of the object itself with the identifier. *)
Definition own_verb_by_uuid (obj : Obj) (uuid : Uuid) : M VerbDef :=
  let* verbs := get_verbs obj in
  match DefsOps.find uuid verbs with
  | None => throw (VerbNotFound obj (PUuid uuid))
  | Some vh => ret vh
  end.

(** [uuid] is the random identifier drawn for the verb. *)
Definition add_verb (uuid : Uuid) (permissions : TaskPermissions) (obj : Obj)
    (names : list (list Ascii.ascii)) (owner : Obj) (flags : BitEnum VerbFlag)
    (args : VerbArgsSpec) (program : ProgramType) : M unit :=
  let* fo := flags_and_owner obj in
  let* auth := auth_context permissions in
  require (RuleVerbAdd obj fo.2 fo.1) auth ;;
  require (RuleVerbOwnerOrWizard owner) auth ;;
  add_object_verb fuel uuid obj owner names program flags args.

Definition remove_verb (permissions : TaskPermissions) (obj : Obj) (verb : Var) : M unit :=
  require_object_allows permissions obj ObjWrite ;;
  let* vh :=
    match as_verb_ref verb with
    | RefIndex verb_index =>
        if verb_index <? 1 then throw (VerbNotFound obj (PText (pretty verb_index)))
        else get_verb_by_index obj (Z.to_nat verb_index - 1)
    | RefName name => get_verb_by_name obj name
    | RefOther debug => throw (VerbNotFound obj (PText debug))
    end in
  delete_verb fuel obj (verbdef_uuid vh).

Definition do_update_verb (obj : Obj) (permissions : TaskPermissions) (verbdef : VerbDef)
    (verb_attrs : VerbAttrs) : M unit :=
  let* auth := auth_context permissions in
  require (RuleVerbAllows obj (verbdef_uuid verbdef) (verbdef_owner verbdef) (verbdef_flags verbdef)
             VerbWrite) auth ;;
  match va_owner verb_attrs with
  | Some new_owner =>
      require (RuleVerbOwnerUnchangedOrWizard (verbdef_owner verbdef) new_owner) auth
  | None => ret tt
  end ;;
  match va_program verb_attrs with
  | Some _ => require (RuleVerbProgram obj (verbdef_uuid verbdef)) auth
  | None => ret tt
  end ;;
  WsVerbs.update_verb fuel obj (verbdef_uuid verbdef) verb_attrs.

Definition update_verb (permissions : TaskPermissions) (obj : Obj) (vname : Symbol)
    (verb_attrs : VerbAttrs) : M unit :=
  let* vh := get_verb_by_name obj vname in
  do_update_verb obj permissions vh verb_attrs.
Definition update_verb_at_index (permissions : TaskPermissions) (obj : Obj) (vidx : nat)
    (verb_attrs : VerbAttrs) : M unit :=
  let* vh := get_verb_by_index obj vidx in
  do_update_verb obj permissions vh verb_attrs.
Definition update_verb_with_id (permissions : TaskPermissions) (obj : Obj) (uuid : Uuid)
    (verb_attrs : VerbAttrs) : M unit :=
  let* vh := own_verb_by_uuid obj uuid in
  do_update_verb obj permissions vh verb_attrs.

Definition get_verb (permissions : TaskPermissions) (obj : Obj) (vname : Symbol) : M VerbDef :=
  must_be_valid obj ;;
  let* vh := get_verb_by_name obj vname in
  require_verb permissions obj vh VerbRead ;;
  ret vh.
Definition get_verb_at_index (permissions : TaskPermissions) (obj : Obj) (vidx : nat) : M VerbDef :=
  let* vh := get_verb_by_index obj vidx in
  require_verb permissions obj vh VerbRead ;;
  ret vh.

Fixpoint find_verb_uuid (uuid : Uuid) (ancestors : list Obj) : M (option VerbDef) :=
  match ancestors with
  | [] => ret None
  | ancestor :: ancestors =>
      let* verbs := get_verbs ancestor in
      match DefsOps.find uuid verbs with
      | Some verb => ret (Some verb)
      | None => find_verb_uuid uuid ancestors
      end
  end.
Definition get_verb_by_id (permissions : TaskPermissions) (obj : Obj) (uuid : Uuid) : M VerbDef :=
  let* ancestors := ancestors fuel obj true in
  let* found := find_verb_uuid uuid ancestors in
  match found with
  | None => throw (VerbNotFound obj (PUuid uuid))
  | Some vh =>
      let* auth := auth_context permissions in
      if Auth.allows (RuleVerbAllows obj (verbdef_uuid vh) (verbdef_owner vh) (verbdef_flags vh)
                        VerbRead) auth
         || Auth.has_any_verb_grant obj (verbdef_uuid vh) auth
      then ret vh else throw VerbPermissionDenied
  end.

Definition verb_metadata (permissions : TaskPermissions) (obj : Obj) (uuid : Uuid)
  : M (list (Symbol * Var)) :=
  get_verb_by_id permissions obj uuid ;; WsObjects.verb_metadata obj uuid.
Definition get_verb_metadata (permissions : TaskPermissions) (obj : Obj) (uuid : Uuid)
    (key : Symbol) : M (option Var) :=
  get_verb_by_id permissions obj uuid ;; WsObjects.get_verb_metadata obj uuid key.
Definition set_verb_metadata (permissions : TaskPermissions) (obj : Obj) (uuid : Uuid)
    (key : Symbol) (value : Var) : M unit :=
  let* vh := own_verb_by_uuid obj uuid in
  require_verb permissions obj vh VerbWrite ;;
  WsObjects.set_verb_metadata obj uuid key value.
Definition clear_verb_metadata (permissions : TaskPermissions) (obj : Obj) (uuid : Uuid)
    (key : Symbol) : M unit :=
  let* vh := own_verb_by_uuid obj uuid in
  require_verb permissions obj vh VerbWrite ;;
  WsObjects.clear_verb_metadata obj uuid key.

Definition retrieve_verb (permissions : TaskPermissions) (obj : Obj) (uuid : Uuid)
  : M (ProgramType * VerbDef) :=
  let* vh := own_verb_by_uuid obj uuid in
  require_verb permissions obj vh VerbRead ;;
  let* binary := get_verb_program (verbdef_location vh) (verbdef_uuid vh) in
  ret (binary, vh).
Definition retrieve_verb_for_execution (permissions : TaskPermissions) (authorization_obj obj : Obj)
    (uuid : Uuid) : M (ProgramType * VerbDef) :=
  let* vh := own_verb_by_uuid obj uuid in
  require_verb permissions authorization_obj vh VerbExec ;;
  let* binary := get_verb_program (verbdef_location vh) (verbdef_uuid vh) in
  ret (binary, vh).

Definition verb_program_cache_token : M VerbProgramCacheToken :=
  gets (λ s, mkCacheToken (tx_ts (wtx (w_tx s))) (w_revision s)).

(** A verb that is not found is no error. *)
Definition or_not_found {A} (m : M A) : M (option A) :=
  λ s, match m s with
       | (s', Ok a) => (s', Ok (Some a))
       | (s', Err (WsErr (VerbNotFound _ _))) => (s', Ok None)
       | (s', Err e) => (s', Err e)
       end.

Definition lookup_verb (permissions : TaskPermissions) (lookup : VerbLookup) : M (option VerbDef) :=
  let* ok := valid (lookup_object lookup) in
  if negb ok then ret None
  else
    let* found := or_not_found (resolve_verb fuel (lookup_object lookup) (lookup_verb_name lookup)
                                  (lookup_argspec lookup) (lookup_flagspec lookup)) in
    match found with
    | None => ret None
    | Some vh => require_verb permissions (lookup_object lookup) vh VerbRead ;; ret (Some vh)
    end.

(** The verb a dispatch runs: with a grant to call it, also one whose flags do
    not match. *)
Definition dispatch_target (permissions : TaskPermissions) (auth : AuthContext)
    (lookup : VerbLookup) : M (option ResolvedVerb) :=
  let* found := or_not_found (resolve_verb_handle fuel (lookup_object lookup)
                  (lookup_verb_name lookup) (lookup_argspec lookup) (lookup_flagspec lookup)) in
  match found with
  | Some vh => ret (Some vh)
  | None =>
      if Grants.is_empty (tp_grants permissions) then ret None
      else
        let* candidate := or_not_found (resolve_verb_handle fuel (lookup_object lookup)
                            (lookup_verb_name lookup) (lookup_argspec lookup) None) in
        match candidate with
        | None => ret None
        | Some vh =>
            ret (if Auth.has_verb_call_grant (lookup_object lookup) (rv_uuid vh) auth
                 then Some vh else None)
        end
  end.

Definition dispatch_verb (permissions : TaskPermissions) (dispatch : VerbDispatch)
  : M (option VerbDispatchResult) :=
  let lookup := dispatch_lookup dispatch in
  let* ok := valid (lookup_object lookup) in
  if negb ok then ret None
  else
    let auth := cached_auth_context permissions in
    let* target := dispatch_target permissions auth lookup in
    match target with
    | None => ret None
    | Some vh =>
        match lookup_argspec lookup with
        | None => require (RuleVerbAllows (lookup_object lookup) (rv_uuid vh) (rv_owner vh)
                             (rv_flags vh) VerbExec) auth
        | Some _ => ret tt
        end ;;
        let* permissions_flags :=
          match dispatch_flags_source dispatch with
          | FlagsOfPermissions => ret (auth_flags auth)
          | FlagsOfVerbOwner =>
              if bool_decide (rv_owner vh = auth_who auth) then ret (auth_flags auth)
              else let* flags := attempt (flags_of (rv_owner vh)) in
                   ret (default BitEnumOps.new flags)
          end in
        ret (Some (mkVerbDispatchResult (mkVerbProgramKey (rv_location vh) (rv_uuid vh)) vh
                     permissions_flags))
    end.

(** ** Built-in functions and anonymous objects *)

Definition builtin_proxy_cache_snapshot : M (list Z) := WsVerbs.builtin_proxy_cache_snapshot.
Definition builtin_proxy_cache_guard_version : M Z := WsVerbs.builtin_proxy_cache_guard_version.
Definition mark_builtin_proxy_absent (builtin : nat) : M unit :=
  WsVerbs.mark_builtin_proxy_absent builtin.

Definition scan_anonymous_object_references : M (list (Obj * gset Obj)) :=
  WsRenumber.scan_anonymous_object_references.
Definition get_anonymous_objects : M (gset Obj) := WsRenumber.get_anonymous_objects.
Definition collect_unreachable_anonymous_objects (unreachable_objects : gset Obj) : M nat :=
  WsRenumber.collect_unreachable_anonymous_objects fuel unreachable_objects.
End api.
End DbWorldState.
