(* ===== verification/Machine.v ===== *)
(** What the interpreter asks of its host and what it answers
    (crates/vm/src/lib.rs, moo_execute.rs), the monad of its instructions, and
    the preparation of verb calls.

    The host is the world state of the task; here any type with the operations of
    [VmHost]. The text of a world-state error is a parameter. *)
From S2P Require Import Prelude TxTypes Model Verbs Auth WorldState.
From S2P Require Import Obj Float64 Opcodes Values ValueOrder Scalars Containers VarOps.
From S2P Require Import Environment Frame.
From stdpp Require Import base gmap list strings.

Open Scope Z_scope.
Open Scope frame_scope.

(** ** The host *)

Class VmHost (H : Type) := {
  retrieve_property : TaskPermissions → Obj → Symbol → H → result Var WorldStateError * H;
  update_property : TaskPermissions → Obj → Symbol → Var → H → result unit WorldStateError * H;
  flags_of : Obj → H → result (BitEnum ObjFlag) WorldStateError * H;
  valid : Obj → H → result bool WorldStateError * H;
  dispatch_verb :
    TaskPermissions → VerbDispatch → H → result (option VerbDispatchResult) WorldStateError * H;
  parent_of : TaskPermissions → Obj → H → result Obj WorldStateError * H;
}.

Class ErrorText := { world_state_message : WorldStateError → Str }.

(** [WorldStateError::to_error]; [None] is the panic on the errors it does not
    translate. *)
Definition to_error `{ErrorText} (e : WorldStateError) : option Error :=
  let code c := Some (with_msg c (world_state_message e)) in
  match e with
  | ObjectNotFound _ => code E_INVIND
  | ObjectAlreadyExists _ | ObjectPermissionDenied | VerbPermissionDenied
  | PropertyPermissionDenied => code E_PERM
  | RecursiveMove _ _ => code E_RECMOVE
  | VerbNotFound _ _ | InvalidVerb _ | VerbDecodeError _ _ => code E_VERBNF
  | DuplicateVerb _ _ | DuplicatePropertyDefinition _ _ | ChparentPropertyNameConflict _ _ _
  | CannotClearPropertyOnDefiner _ _ | FailedMatch _ | AmbiguousMatch _ | InvalidRenumber _ =>
      code E_INVARG
  | PropertyNotFound _ _ | PropertyDefinitionNotFound _ _ => code E_PROPNF
  | PropertyTypeMismatch => code E_TYPE
  | DatabaseOverloaded _ => code E_QUOTA
  | DatabaseError _ | RollbackRetry => None
  end.

Record FeaturesConfig := mkFeatures {
  type_dispatch : bool;
  use_boolean_returns : bool;
  use_symbols_in_builtins : bool;
}.

(** ** Requests *)

Record VerbExecutionRequest := mkVerbRequest {
  lookup_permissions : TaskPermissions;
  program_authorization_object : Obj;
  activation_authority_flags : BitEnum ObjFlag;
  req_resolved_verb : ResolvedVerb;
  req_verb_name : Symbol;
  req_this : Var;
  req_player : Obj;
  req_args : list Var;
  req_caller : Var;
  req_argstr : Var;
  req_program_key : VerbProgramKey;
}.

(** The results of [ExecutionResult] that instructions and unwinding give; the
    others come from builtins. A delay is in seconds. *)
Inductive ExecutionResult :=
| More
| Complete (v : Var)
| PushError (e : Error)
| RaiseError (e : Error)
| Unwind (why : FinallyReason)
| ReturnValue (v : Var)
| ExceptionResult (why : FinallyReason)
| DispatchVerb (request : VerbExecutionRequest)
| DispatchBuiltin (builtin : Z) (arguments : list Var)
| DispatchLambda (lambda : Lambda) (arguments : list Var)
| TaskStartFork (delay : option f64) (id : option Name) (fv_offset : Offset)
| TaskRollbackRestart.

Record FrameExecutionContext := mkContext {
  ctx_authority : TaskPermissions;
  activation_player : Obj;
  ctx_this : Var;
  ctx_verb_name : Symbol;
  ctx_verb_definer : Obj;
}.

(** ** The monad *)

(** An instruction completes, ends the run of the frame with a result, or panics. *)
Inductive vm_out (H A : Type) :=
| VmOk (a : A) (h : H) (f : MooStackFrame)
| VmStop (r : ExecutionResult) (h : H) (f : MooStackFrame)
| VmPanic (w : vm_panic).
Arguments VmOk {H A}. Arguments VmStop {H A}. Arguments VmPanic {H A}.

Section monad.
Context {H : Type}.

Definition VM (A : Type) : Type := H → MooStackFrame → vm_out H A.

Definition vret {A} (a : A) : VM A := λ h f, VmOk a h f.
Definition vbind {A B} (m : VM A) (k : A → VM B) : VM B := λ h f,
  match m h f with
  | VmOk a h f => k a h f
  | VmStop r h f => VmStop r h f
  | VmPanic w => VmPanic w
  end.
Definition stop {A} (r : ExecutionResult) : VM A := λ h f, VmStop r h f.
Definition vpanic {A} (w : vm_panic) : VM A := λ _ _, VmPanic w.

(** Frame operations as instructions. *)
Definition asks {A} (m : MooStackFrame → may A) : VM A := λ h f,
  match m f with inl a => VmOk a h f | inr w => VmPanic w end.
Definition does (m : MooStackFrame → may MooStackFrame) : VM unit := λ h f,
  match m f with inl f => VmOk tt h f | inr w => VmPanic w end.
Definition runs {A} (m : MooStackFrame → may (A * MooStackFrame)) : VM A := λ h f,
  match m f with inl (a, f) => VmOk a h f | inr w => VmPanic w end.
Definition modify (g : MooStackFrame → MooStackFrame) : VM unit := λ h f, VmOk tt h (g f).
Definition reads {A} (g : MooStackFrame → A) : VM A := λ h f, VmOk (g f) h f.

(** Calls of the host. *)
Definition asks_host {A} (m : H → A * H) : VM A := λ h f, let '(a, h) := m h in VmOk a h f.
End monad.

Arguments VM : clear implicits.

Declare Scope vm_scope.
Notation "'let*' x := m 'in' k" := (vbind m (λ x, k))
  (at level 100, x pattern, m at level 200, k at level 200, right associativity) : vm_scope.
Notation "m ;; k" := (vbind m (λ _, k)) (at level 100, k at level 200, right associativity)
  : vm_scope.
Open Scope vm_scope.

Section dispatch.
Context {H : Type} `{!VmHost H}.
Context `{Text} `{Interner} `{Addresses} `{OrdMap} `{Printing} `{ErrorText}.
#[local] Notation VM := (VM H).

Definition or_default {A} (d : A) (r : result A WorldStateError) : A :=
  match r with Ok a => a | Err _ => d end.

(** [map_err(|e| e.to_error())] *)
Definition host_result {A} (r : result A WorldStateError) : VM (result A Error) :=
  match r with
  | Ok a => vret (Ok a)
  | Err e => match to_error e with Some e => vret (Err e) | None => vpanic HostPanic end
  end.

Definition player_for_frame (context : FrameExecutionContext) : VM Obj :=
  let* v := asks (Frame.get_gvar gplayer) in
  vret match v ≫= as_object with
       | Some fp =>
           if bool_decide (fp = activation_player context) then activation_player context
           else if Permissions.is_wizard (ctx_authority context) then fp
           else activation_player context
       | None => activation_player context
       end.

Definition verb_request (context : FrameExecutionContext) (location : Obj) (this : Var)
    (player : Obj) (verb_name : Symbol) (args : list Var) (vi : VerbDispatchResult)
  : ExecutionResult :=
  DispatchVerb (mkVerbRequest (ctx_authority context) location (dr_permissions_flags vi)
    (dr_verbdef vi) verb_name this player args (ctx_this context) (VStr [])
    (dr_program_key vi)).

Definition prepare_call_verb (context : FrameExecutionContext) (location : Obj) (this : Var)
    (verb_name : Symbol) (args : list Var) : VM ExecutionResult :=
  let* player := player_for_frame context in
  let* ok := asks_host (valid location) in
  if negb (or_default false ok) then
    vret (PushError (with_msg E_INVIND
      (lit "Invalid object (" ++ (Ascii.N_of_ascii <$> display location)
         ++ lit ") for verb dispatch")))
  else
    let* r := asks_host (dispatch_verb (ctx_authority context)
                (mkVerbDispatch (VerbLookupOps.method location verb_name) FlagsOfVerbOwner)) in
    match r with
    | Ok (Some vi) => vret (verb_request context location this player verb_name args vi)
    | Ok None =>
        vret (PushError (with_msg E_VERBNF
          (lit "Verb " ++ to_literal (VObj location) ++ lit ":" ++ as_arc_str verb_name
             ++ lit " not found")))
    | Err ObjectPermissionDenied | Err VerbPermissionDenied =>
        vret (PushError (from_code E_PERM))
    | Err RollbackRetry => vret TaskRollbackRestart
    | Err _ => vpanic HostPanic
    end.

Definition prepare_pass_verb (context : FrameExecutionContext) (args : list Var)
  : VM ExecutionResult :=
  let raise e := match to_error e with
                 | Some e => vret (RaiseError e)
                 | None => vpanic HostPanic
                 end in
  let* p := asks_host (parent_of (ctx_authority context) (ctx_verb_definer context)) in
  match p with
  | Err RollbackRetry => vret TaskRollbackRestart
  | Err e => raise e
  | Ok parent =>
      let* ok := asks_host (valid parent) in
      if negb (or_default false ok) then
        vret (PushError (with_msg E_INVIND (lit "Invalid object for pass() verb dispatch")))
      else
        let* r := asks_host (dispatch_verb (ctx_authority context)
                    (mkVerbDispatch (VerbLookupOps.method parent (ctx_verb_name context))
                       FlagsOfPermissions)) in
        match r with
        | Ok (Some vi) =>
            vret (verb_request context parent (ctx_this context) (activation_player context)
                    (ctx_verb_name context) args vi)
        | Ok None =>
            vret (PushError (with_msg E_VERBNF (lit "Verb not found for pass() dispatch")))
        | Err RollbackRetry => vret TaskRollbackRestart
        | Err e => raise e
        end
  end.

(** The property of the system object that stands for the values of a type. *)
Definition proto_symbol (target : Var) : option Symbol :=
  option_map (λ s, mk_symbol (lit s))
  match target with
  | VInt _ => Some "int_proto"%string
  | VStr _ => Some "str_proto"%string
  | VFloat _ => Some "float_proto"%string
  | VList _ => Some "list_proto"%string
  | VMap _ => Some "map_proto"%string
  | VErr _ => Some "err_proto"%string
  | VSym _ => Some "sym_proto"%string
  | VBool _ => Some "bool_proto"%string
  | _ => None
  end.

(** [format!("{:?}", type_code)] *)
Definition type_debug (t : VarType) : Str :=
  match t with
  | TYPE_SYMBOL => lit "TYPE_SYMBOL"
  | TYPE_CLEAR => lit "_TYPE_CLEAR" | TYPE_NONE => lit "TYPE_NONE"
  | TYPE_LABEL => lit "TYPE_LABEL" | TYPE_FINALLY => lit "_TYPE_FINALLY"
  | TOAST_TYPE_ITER => lit "_TOAST_TYPE_ITER" | TOAST_TYPE_ANON => lit "_TOAST_TYPE_ANON"
  | TOAST_TYPE_WAIF => lit "_TOAST_TYPE_WAIF"
  | t => type_literal t
  end.

Definition invalid_target (what : Str) : Error :=
  with_msg E_TYPE (lit "Invalid target for verb dispatch: " ++ what).

Definition prepare_verb_dispatch (context : FrameExecutionContext) (type_dispatch : bool)
    (target : Var) (verb : Symbol) (args : list Var) : VM (result ExecutionResult Error) :=
  let call location this args :=
    let* r := prepare_call_verb context location this verb args in vret (Ok r) in
  match target with
  | VObj o => call o target args
  | VFlyweight f => call (fw_delegate f) target args
  | _ =>
      if negb type_dispatch then
        vret (Err (with_msg E_TYPE (lit "Invalid target " ++ type_debug (type_code target)
                                      ++ lit " for verb dispatch")))
      else
        match proto_symbol target with
        | None => vret (Err (invalid_target (ty target)))
        | Some sysprop_sym =>
            let* r := asks_host (retrieve_property (ctx_authority context) SYSTEM_OBJECT
                                   sysprop_sym) in
            let* r := host_result r in
            match r with
            | Err e => vret (Err e)
            | Ok (VObj o) => call o (VObj o) (target :: args)
            | Ok v => vret (Err (invalid_target (ty v)))
            end
        end
  end.

(** [get_property] *)
Definition get_property (permissions : TaskPermissions) (obj : Var) (propname : Symbol)
    (features : FeaturesConfig) : VM (result Var Error) :=
  let host_property o :=
    let* r := asks_host (retrieve_property permissions o propname) in host_result r in
  match obj with
  | VObj o => host_property o
  | VFlyweight f =>
      if bool_decide (propname = mk_symbol (lit "delegate")) then vret (Ok (VObj (fw_delegate f)))
      else if bool_decide (propname = mk_symbol (lit "slots")) then
        vret (Ok (map_build
          (map (λ kv, (if use_symbols_in_builtins features then VSym kv.1
                       else VStr (as_arc_str kv.1), kv.2)) (fw_slots f))))
      else match get_slot f propname with
           | Some v => vret (Ok v)
           | None => host_property (fw_delegate f)
           end
  | _ =>
      vret (Err (with_msg E_INVIND
        (lit "Invalid value for property access: " ++ to_literal obj)))
  end.
End dispatch.
