(* ===== verification/Vm.v ===== *)
(** The interpreter (crates/vm/src/moo_execute.rs): one instruction
    ([execute_op]), fetching ([vm_step]) and the loop of a time slice
    ([moo_frame_execute]). *)
From S2P Require Import Prelude TxTypes Model Verbs Auth WorldState.
From S2P Require Import Obj Float64 Opcodes Values ValueOrder Scalars Containers VarOps.
From S2P Require Import Environment Frame Machine.
From stdpp Require Import base gmap list strings.

Open Scope Z_scope.
Open Scope frame_scope.
Open Scope vm_scope.

(** ** Helpers *)

(** [build_captured_environment]: the captured variables by depth and offset. *)
Definition captured_scope (width : nat) (vars : list (Name * Var)) : list Var :=
  let max_offset := foldr (λ nv m, Nat.max (Z.to_nat (name_offset nv.1)) m) 0%nat vars in
  let width := match vars with
               | [] => width
               | _ => if (width <=? max_offset)%nat then S max_offset else width
               end in
  fold_left (λ sc nv, <[Z.to_nat (name_offset nv.1) := nv.2]> sc) vars (replicate width VNone).

Definition build_captured_environment (captured_vars : list (Name * Var))
    (lambda_program : PrgInner) : list (list Var) :=
  match captured_vars with
  | [] => []
  | _ =>
      let max_scope_depth :=
        foldr (λ nv m, Nat.max (Z.to_nat (name_depth nv.1)) m) 0%nat captured_vars in
      map (λ d,
        captured_scope
          (if (d =? 0)%nat then Z.to_nat (global_width (var_names lambda_program)) else 16%nat)
          (List.filter (λ nv, (Z.to_nat (name_depth nv.1) =? d)%nat) captured_vars))
        (seq 0 (S max_scope_depth))
  end.

(** [remove_stack_indices], on distinct indices from the top. *)
Definition remove_stack_indices (indices : list nat) (vs : list Var) : list Var :=
  omap (λ iv, if bool_decide (iv.1 ∈ indices) then None else Some iv.2) (imap pair vs).

Definition i32_max_v : Z := 2 ^ 31 - 1.
Definition i32_min_v : Z := - 2 ^ 31.

(** The next value of a range, or its end. *)
Inductive RangeAction := RangeJump (l : Label) | RangeBind (n : Name) (v : Var).

Definition advance_range (r : ForRangeScope) : RangeAction * ForRangeScope :=
  match r with
  | RangeInt current last x l =>
      if last <? current then (RangeJump l, r)
      else
        (RangeBind x (VInt current),
         if current =? i64_max
         then RangeInt current (if i64_min <? last then last - 1 else last) x l
         else RangeInt (current + 1) last x l)
  | RangeFloat current last x l =>
      match total_cmp current last with
      | Datatypes.Gt => (RangeJump l, r)
      | _ => (RangeBind x (VFloat current), RangeFloat (f64_add current f64_one) last x l)
      end
  | RangeObj current last x l =>
      if last <? current then (RangeJump l, r)
      else
        (RangeBind x (VObj (mk_id current)),
         if current =? i32_max_v
         then RangeObj current (if i32_min_v <? last then last - 1 else last) x l
         else RangeObj (current + 1) last x l)
  end.

(** The scope of a range, [inl None] when it is empty. *)
Definition begin_range (start_val end_val : Var) (x : Name) (l : Label)
  : option ForRangeScope + Error :=
  if negb (same_numeric_type start_val end_val) then
    inr (with_msg E_TYPE
      (lit "for-range requires matching types (both INT, both FLOAT, or both OBJ)"))
  else
    match start_val, end_val with
    | VInt s, VInt e => inl (if e <? s then None else Some (RangeInt s e x l))
    | VFloat s, VFloat e =>
        inl (match total_cmp s e with Datatypes.Gt => None | _ => Some (RangeFloat s e x l) end)
    | VObj s, VObj e =>
        match id s, id e with
        | Some s, Some e =>
            let s := objid_val s in let e := objid_val e in
            inl (if e <? s then None else Some (RangeObj s e x l))
        | _, _ =>
            inr (with_msg E_TYPE (lit "for-range requires numeric object IDs, not UUIDs"))
        end
    | _, _ => inr (with_msg E_TYPE (lit "invalid type in for-range iteration"))
    end.

(** [Duration::from_secs_f64] panics from 2^64 seconds on. *)
Definition is_duration (time : f64) : bool := f64_ltb time (f64_of_int (2 ^ 64)).

(** The error codes of a [catch] or [except]. *)
Definition catch_codes (v : Var) : may CatchType :=
  match v with
  | VList codes =>
      match mapM as_error codes with
      | Some es => inl (CatchErrors es)
      | None => inr BadCatchCodes
      end
  | VInt 0 => inl CatchAny
  | _ => inr BadCatchCodes
  end.

Section execute.
Context {H : Type} `{!VmHost H}.
Context `{Text} `{Interner} `{Addresses} `{OrdMap} `{Printing} `{ErrorText} `{Libm}.
Variable context : FrameExecutionContext.
Variable features : FeaturesConfig.
#[local] Notation VM := (VM H).

Definition vpop : VM Var := runs Frame.pop.
Definition vpush (v : Var) : VM unit := modify (Frame.push v).
Definition peek : VM Var := asks Frame.peek_top.
Definition vpoke (v : Var) : VM unit := does (Frame.poke 0 v).
Definition vjump (l : Label) : VM unit := does (Frame.jump l).
Definition push_error {A} (e : Error) : VM A := stop (PushError e).
Definition pop_error {A} (e : Error) : VM A := vpop ;; push_error e.
Definition program : VM PrgInner := reads fr_program.
Definition operand {A} (g : PrgInner → option A) : VM A :=
  asks (λ f, or_panic NoOperand (g (fr_program f))).
Definition vset (n : Name) (v : Var) : VM unit := does (Frame.set_variable n v).

Definition truth (b : bool) : Var :=
  if use_boolean_returns features then VBool b else v_bool_int b.

(** The result of an operation on the top of the stack. *)
Definition on_top (r : result Var Error) : VM unit :=
  match r with Ok v => vpoke v | Err e => pop_error e end.

Definition binary_bool_op (op : Var → Var → bool) : VM unit :=
  let* rhs := vpop in let* lhs := peek in vpoke (truth (op lhs rhs)).

Definition binary_cmp_op (op : comparison → bool) : VM unit :=
  let* rhs := vpop in
  let* lhs := peek in
  match compare lhs rhs with
  | Ok ordering => vpoke (truth (op ordering))
  | Err e => pop_error e
  end.

Definition binary_var_op (op : Var → Var → result Var Error) : VM unit :=
  let* rhs := vpop in let* lhs := peek in on_top (op lhs rhs).

(** [std::mem::replace(peek_top_mut(), v_none())] *)
Definition take_top : VM Var := let* v := peek in vpoke VNone ;; vret v.

(** [is_sequence], strings left out. *)
Definition is_list_like (v : Var) : bool :=
  is_sequence v && negb (bool_decide (type_code v = TYPE_STR)).

Definition condition_jump (t : ScopeType) (label : Label) (environment_width : Z) : VM unit :=
  does (Frame.push_scope t environment_width label) ;;
  let* cond := vpop in
  if is_true cond then vret tt else vjump label.

(** [None] is the code's [unreachable!]. *)
Definition sequence_index (v : Var) (i : Z) : option (result Var Error) :=
  match v with
  | VList l => Some (List_.index l i)
  | VBinary b => Some (Binary.index b i)
  | VStr s => Some (Str_.index s i)
  | _ => None
  end.

Definition begin_for_sequence (operand : ForSequenceOperand) : VM unit :=
  let* sequence := vpop in
  if bool_decide (type_code sequence = TYPE_STR) then
    stop (RaiseError (with_msg E_TYPE
      (lit "strings are not iterable; convert to list first")))
  else if negb (is_sequence sequence) && negb (is_associative sequence) then
    stop (RaiseError (with_msg E_TYPE
      (lit "for-loop requires list or map (was " ++ ty sequence ++ lit ")")))
  else
    match len sequence with
    | Err _ => stop (RaiseError (with_msg E_TYPE (lit "invalid sequence length in for loop")))
    | Ok list_len =>
        if list_len =? 0 then vjump (fso_end_label operand)
        else
          does (Frame.push_for_scope
            (TyForSequence (mkForSequence sequence 0 None (fso_value_bind operand)
               (fso_key_bind operand) (fso_end_label operand)))
            (fso_end_label operand) (fso_environment_width operand))
    end.

Definition set_opt (n : option Name) (v : Var) : VM unit :=
  match n with Some n => vset n v | None => vret tt end.

Definition iterate_for_sequence : VM unit :=
  let* o := asks Frame.get_for_sequence_scope in
  match o with
  | None =>
      stop (RaiseError (with_msg E_ARGS (lit "IterateForSequence without ForSequence scope")))
  | Some (i, sc) =>
      let seq := fs_sequence sc in
      let advance key :=
        modify (Frame.set_payload i (PayForSequence
          (mkForSequence seq (fs_current_index sc + 1) key (fs_value_bind sc)
             (fs_key_bind sc) (fs_end_label sc)))) in
      match len seq with
      | Err _ => vpanic BadPayload
      | Ok n =>
          if n <=? fs_current_index sc then vjump (fs_end_label sc)
          else
            match seq with
            | VMap m =>
                match (match fs_current_key sc with
                       | Some k => map_next_after m k false
                       | None => map_first m
                       end) with
                | Err e => stop (RaiseError e)
                | Ok (key, value) =>
                    advance (Some key) ;; vset (fs_value_bind sc) value ;;
                    set_opt (fs_key_bind sc) key
                end
            | _ =>
                match sequence_index seq (fs_current_index sc) with
                | None => vpanic BadPayload
                | Some (Err e) => stop (RaiseError e)
                | Some (Ok value) =>
                    advance (fs_current_key sc) ;; vset (fs_value_bind sc) value ;;
                    set_opt (fs_key_bind sc) (VInt (fs_current_index sc + 1))
                end
            end
      end
  end.

Definition begin_for_range (operand : ForRangeOperand) : VM unit :=
  let* end_val := vpop in
  let* start_val := vpop in
  match begin_range start_val end_val (fro_loop_variable operand) (fro_end_label operand) with
  | inr e => stop (RaiseError e)
  | inl None => vjump (fro_end_label operand)
  | inl (Some r) =>
      does (Frame.push_for_scope (TyForRange r) (fro_end_label operand)
        (fro_environment_width operand))
  end.

Definition iterate_for_range : VM unit :=
  let* o := asks Frame.get_for_range_scope in
  match o with
  | None => stop (RaiseError (with_msg E_INVARG (lit "IterateForRange without ForRange scope")))
  | Some (i, r) =>
      let '(action, r) := advance_range r in
      modify (Frame.set_payload i (PayForRange r)) ;;
      match action with
      | RangeJump l => vjump l
      | RangeBind x v => vset x v
      end
  end.

Definition variable_not_found {A} (name : option Symbol) : VM A :=
  push_error (with_msg E_VARNF
    match name with
    | Some s => lit "Variable `" ++ as_arc_str s ++ lit "` not found"
    | None => lit "Variable not found"
    end).

(** The three values of [IndexSetAt] and [PutPropAt], from the top. *)
Definition at_depth (d : nat) : VM Var :=
  asks (λ f, or_panic StackUnderflow (valstack f !! d)).

Definition update_stack (g : list Var → list Var) : VM unit :=
  modify (λ f, Frame.set_valstack (g (valstack f)) f).

(** On failure the operands, the base and the copy on top go. *)
Definition store_result (offset operands : nat) (r : result Var Error) : VM unit :=
  match r with
  | Ok v =>
      update_stack (λ vs, remove_stack_indices (seq offset operands)
                            (<[(offset + operands)%nat := v]> vs))
  | Err e =>
      update_stack (remove_stack_indices
        (seq offset (S operands) ++ (if (0 <? offset)%nat then [0%nat] else []))) ;;
      push_error e
  end.

Definition index_set_at (offset : nat) : VM unit :=
  let* rhs := at_depth offset in
  let* index := at_depth (offset + 1) in
  let* base := at_depth (offset + 2) in
  store_result offset 2 (set_owned_vars base index rhs OneBased).

Definition range_set_at (offset : nat) : VM unit :=
  let* rhs := at_depth offset in
  let* to := at_depth (offset + 1) in
  let* from := at_depth (offset + 2) in
  let* base := at_depth (offset + 3) in
  store_result offset 3 (VarOps.range_set_owned base from to rhs OneBased).

Definition invalid_property_name (v : Var) : Error :=
  with_msg E_TYPE (lit "Invalid property name: " ++ to_literal v).
Definition invalid_property_access (v : Var) : Error :=
  with_msg E_TYPE (lit "Invalid value for property access: " ++ to_literal v).
Definition invalid_verb_target (v : Var) : Error :=
  with_msg E_TYPE (lit "Invalid target for verb dispatch: " ++ to_literal v).
Definition invalid_verb_name (v : Var) : Error :=
  with_msg E_TYPE (lit "Invalid verb name: " ++ to_literal v).

Definition get_prop : VM unit :=
  let* propname := vpop in
  let* obj := take_top in
  match as_symbol propname with
  | Err _ => push_error (invalid_property_name propname)
  | Ok p =>
      let* r := get_property (ctx_authority context) obj p features in
      match r with Ok v => vpoke v | Err e => push_error e end
  end.

Definition push_get_prop : VM unit :=
  let* (propname, obj) := asks Frame.peek2 in
  match as_symbol propname with
  | Err _ => push_error (invalid_property_name propname)
  | Ok p =>
      let* r := get_property (ctx_authority context) obj p features in
      match r with Ok v => vpush v | Err e => push_error e end
  end.

Definition put_prop : VM unit :=
  let* rhs := vpop in
  let* propname := vpop in
  let* obj := peek in
  match obj with
  | VObj o =>
      match as_symbol propname with
      | Err _ => push_error (invalid_property_name propname)
      | Ok p =>
          let* r := asks_host (update_property (ctx_authority context) o p rhs) in
          let* r := host_result r in
          match r with Ok _ => vpoke rhs | Err e => push_error e end
      end
  | _ => push_error (invalid_property_access obj)
  end.

Definition put_prop_at (offset : nat) (jump_if_object : Label) : VM unit :=
  let* rhs := at_depth offset in
  let* propname := at_depth (offset + 1) in
  let* base := at_depth (offset + 2) in
  match as_symbol propname with
  | Err _ => store_result offset 2 (Err (invalid_property_name propname))
  | Ok p =>
      match base with
      | VObj o =>
          let* r := asks_host (update_property (ctx_authority context) o p rhs) in
          let* r := host_result r in
          match r with
          | Ok _ => store_result offset 2 (Ok base) ;; vjump jump_if_object
          | Err e => store_result offset 2 (Err e)
          end
      | VFlyweight f =>
          if bool_decide (p = mk_symbol (lit "delegate") ∨ p = mk_symbol (lit "slots")) then
            store_result offset 2
              (Err (with_msg E_TYPE (lit "Invalid property name: " ++ as_arc_str p)))
          else store_result offset 2 (Ok (VFlyweight (add_slot f p rhs)))
      | _ => store_result offset 2 (Err (invalid_property_access base))
      end
  end.

Fixpoint pop_slots (n : nat) (slots : list (Symbol * Var)) : VM (list (Symbol * Var)) :=
  match n with
  | O => vret slots
  | S n =>
      let* k := vpop in
      let* v := vpop in
      match as_symbol k with
      | Ok sym => pop_slots n (slots ++ [(sym, v)])
      | Err _ =>
          push_error (with_msg E_TYPE
            (lit "invalid value for flyweight slot, must be a valid symbol"))
      end
  end.

Definition make_flyweight (num_slots : nat) : VM unit :=
  let* contents := vpop in
  match contents with
  | VList contents =>
      let* slots := pop_slots num_slots [] in
      let* delegate := vpop in
      match delegate with
      | VObj o => vpush (VFlyweight (mk_flyweight o slots contents))
      | _ =>
          push_error (with_msg E_TYPE
            (lit "invalid value for flyweight delegate, must be object"))
      end
  | _ =>
      push_error (with_msg E_TYPE (lit "invalid value for flyweight contents, must be list"))
  end.

Definition fork (id : option Name) (fv_offset : Offset) : VM unit :=
  let bad c := push_error (with_msg c (lit "invalid value for delay time in fork")) in
  let* time := vpop in
  match (match time with
         | VInt i => Some (f64_of_int i)
         | VFloat t => Some t
         | _ => None
         end) with
  | None => bad E_TYPE
  | Some t =>
      if f64_ltb t f64_zero then bad E_INVARG
      else if f64_eqb t f64_zero then stop (TaskStartFork None id fv_offset)
      else if is_duration t then stop (TaskStartFork (Some t) id fv_offset)
      else vpanic DelayPanic
  end.

Definition call_verb : VM unit :=
  let* args := vpop in
  let* verb := vpop in
  let* obj := vpop in
  match args with
  | VList l =>
      match as_symbol verb with
      | Err _ => push_error (invalid_verb_name verb)
      | Ok v =>
          let* r := prepare_verb_dispatch context (type_dispatch features) obj v l in
          match r with Ok r => stop r | Err e => push_error e end
      end
  | _ => push_error (invalid_verb_target args)
  end.

Definition end_handler (label : Label) : VM unit :=
  let* t := runs Frame.pop_scope in
  match t with
  | Some (TyTryCatch _) => vjump label
  | _ => vpanic NoHandler
  end.

Definition scatter (sa : Offset) : VM unit :=
  let* table := operand (λ p, scatter_table p sa) in
  let* rhs := peek in
  match rhs with
  | VList values =>
      let* r := runs (scatter_assign Frame.set_variable table values) in
      match scr_result r with
      | Some e => pop_error e
      | None => vjump (default (sa_done table) (scr_first_default_label r))
      end
  | _ => pop_error (with_msg E_TYPE (lit "Invalid value for scatter: " ++ to_literal rhs))
  end.

(** [get_env(...).unwrap()] *)
Definition register (n : Name) : VM Var :=
  let* o := asks (Frame.get_env n) in
  match o with Some v => vret v | None => vpanic NoVariable end.

Definition comprehend_range (rc : RangeComprehend) : VM unit :=
  let* end_of_range := register (rc_end_of_range_register rc) in
  let* position := register (rc_position rc) in
  match var_cmp position end_of_range with
  | Datatypes.Gt => vjump (rc_end_label rc)
  | _ => vret tt
  end.

Definition comprehension_error (c : ErrorCode) (what : string) : Error :=
  with_msg c (lit ("invalid " ++ what ++ " in list comprehension")).

Definition comprehend_list (lc : ListComprehend) : VM unit :=
  let* list := register (lc_list_register lc) in
  let* position := register (lc_position_register lc) in
  match position with
  | VInt i =>
      match len list with
      | Err _ => vpanic NoVariable
      | Ok n =>
          if n <? i then vjump (lc_end_label lc)
          else
            match VarOps.index list (VInt i) OneBased with
            | Ok item => vset (lc_item_variable lc) item
            | Err _ => push_error (comprehension_error E_RANGE "index")
            end
      end
  | _ => push_error (comprehension_error E_TYPE "value")
  end.

Definition continue_comprehension (id : Name) : VM unit :=
  let* result := vpop in
  let* list := vpop in
  let* position := register id in
  match Scalars.add position (VInt 1), VarOps.push_owned list result with
  | Ok new_position, Ok new_list => vset id new_position ;; vpush new_list
  | _, _ => push_error (comprehension_error E_TYPE "value")
  end.

Definition make_lambda (scatter_offset program_offset : Offset) (self_var : option Name)
    (num_captured : Z) : VM unit :=
  let* scatter_spec := operand (λ p, scatter_table p scatter_offset) in
  let* body := operand (λ p, lambda_program p program_offset) in
  if num_captured =? 0 then vpush (VLambda (mkLambda scatter_spec body [] self_var))
  else
    let* captures := reads capture_stack in
    let n := Z.to_nat num_captured in
    if (length captures <? n)%nat then
      push_error (with_msg E_ARGS (lit "insufficient captured variables on stack"))
    else
      let* captured := runs (λ f, inl (Frame.drain_captures_from (length captures - n) f)) in
      vpush (VLambda (mkLambda scatter_spec body (build_captured_environment captured body)
                        self_var)).

(** One instruction; the counter is already past it. *)
Definition execute_op (op : Op.t) : VM unit :=
  match op with
  | Op.If label w => condition_jump TyIf label w
  | Op.Eif label w => condition_jump TyEif label w
  | Op.While label w => condition_jump TyWhile label w
  | Op.IfQues label =>
      let* cond := vpop in if is_true cond then vret tt else vjump label
  | Op.Jump label => vjump label
  | Op.WhileId id end_label w =>
      does (Frame.push_scope TyWhile w end_label) ;;
      let* v := vpop in
      vset id v ;; if is_true v then vret tt else vjump end_label
  | Op.BeginForSequence o =>
      let* operand := operand (λ p, for_sequence_operand p o) in begin_for_sequence operand
  | Op.IterateForSequence => iterate_for_sequence
  | Op.BeginForRange o =>
      let* operand := operand (λ p, for_range_operand p o) in begin_for_range operand
  | Op.IterateForRange => iterate_for_range
  | Op.Pop => vpop ;; vret tt
  | Op.Dup => let* v := peek in vpush v
  | Op.Swap => let* a := vpop in let* b := vpop in vpush a ;; vpush b
  | Op.ImmNone => vpush VNone
  | Op.ImmBigInt i | Op.ImmInt i => vpush (VInt i)
  | Op.ImmFloat x => vpush (VFloat x)
  | Op.ImmObjid o => vpush (VObj o)
  | Op.ImmSymbol s => vpush (VSym s)
  | Op.ImmErr c => vpush (v_err c)
  | Op.Imm slot =>
      let* next := asks Frame.lookahead_ref in
      match next with
      | Some Op.Pop => modify Frame.skip
      | _ => let* v := operand (λ p, find_literal p slot) in vpush v
      end
  | Op.ImmType t => vpush (VInt (var_type_repr t))
  | Op.ImmEmptyList => vpush (VList [])
  | Op.ListAddTail =>
      let* tail := vpop in
      let* list := take_top in
      if negb (is_list_like list) then pop_error (with_msg E_TYPE (lit "invalid value in list append"))
      else on_top (VarOps.push_owned list tail)
  | Op.ListAppend =>
      let* tail := vpop in
      let* list := take_top in
      if negb (is_list_like list) || negb (is_sequence tail) then
        pop_error (with_msg E_TYPE (lit "invalid value in list append"))
      else on_top (VarOps.append_owned list tail)
  | Op.IndexSet =>
      let* rhs := vpop in let* index := vpop in let* lhs := take_top in
      on_top (set_owned_vars lhs index rhs OneBased)
  | Op.IndexSetAt offset => index_set_at (Z.to_nat offset)
  | Op.MakeError offset =>
      let* code := operand (λ p, error_operand p offset) in
      let* err_msg := vpop in
      match err_msg with
      | VStr s => vpush (VErr (with_msg code s))
      | _ => push_error (with_msg E_TYPE (lit "invalid value for error message"))
      end
  | Op.MakeSingletonList => let* v := peek in vpoke (VList [v])
  | Op.MakeMap => vpush (VMap [])
  | Op.MapInsert =>
      let* value := vpop in let* key := vpop in let* m := take_top in
      on_top (set_owned_vars m key value OneBased)
  | Op.MakeFlyweight n => make_flyweight n
  | Op.PutTemp => let* v := peek in modify (Frame.set_temp v)
  | Op.PutTempPop => let* v := vpop in modify (Frame.set_temp v)
  | Op.PushTemp => let* v := reads fr_temp in modify (Frame.set_temp VNone) ;; vpush v
  | Op.Eq => binary_bool_op var_eqb
  | Op.Ne => binary_bool_op (λ l r, negb (var_eqb l r))
  | Op.Gt => binary_cmp_op (λ c, match c with Datatypes.Gt => true | _ => false end)
  | Op.Lt => binary_cmp_op (λ c, match c with Datatypes.Lt => true | _ => false end)
  | Op.Ge => binary_cmp_op (λ c, match c with Datatypes.Lt => false | _ => true end)
  | Op.Le => binary_cmp_op (λ c, match c with Datatypes.Gt => false | _ => true end)
  | Op.In =>
      let* lhs := vpop in let* rhs := peek in
      on_top (VarOps.index_in lhs rhs false OneBased)
  | Op.Mul => binary_var_op Scalars.mul
  | Op.Sub => binary_var_op Scalars.sub
  | Op.Div => binary_var_op Scalars.div
  | Op.Add => binary_var_op Scalars.add
  | Op.Exp => binary_var_op Scalars.pow
  | Op.Mod => binary_var_op Scalars.modulus
  | Op.And label =>
      let* v := peek in if is_true v then vpop ;; vret tt else vjump label
  | Op.Or label =>
      let* v := peek in if is_true v then vjump label else vpop ;; vret tt
  | Op.BitAnd => binary_var_op Scalars.bitand
  | Op.BitOr => binary_var_op Scalars.bitor
  | Op.BitXor => binary_var_op Scalars.bitxor
  | Op.BitShl => binary_var_op Scalars.bitshl
  | Op.BitShr => binary_var_op Scalars.bitshr
  | Op.BitLShr => binary_var_op Scalars.bitlshr
  | Op.BitNot => let* v := peek in on_top (Scalars.bitnot v)
  | Op.Not => let* v := peek in vpoke (truth (negb (is_true v)))
  | Op.UnaryMinus => let* v := peek in on_top (Scalars.negative v)
  | Op.Push n =>
      let* o := asks (Frame.get_env n) in
      match o with
      | Some v => vpush v
      | None => let* p := program in variable_not_found (ident_for_name (var_names p) n)
      end
  | Op.PushScope0Local offset =>
      let* o := asks (λ f, or_panic NoVariable (Env.get_scope0 offset (fr_env f))) in
      match o with
      | Some v => vpush v
      | None =>
          let* p := program in variable_not_found (ident_for_scope0_offset (var_names p) offset)
      end
  | Op.Put n => let* v := peek in vset n v
  | Op.PutScope0Local offset => let* v := peek in vset (mkName offset 0 0) v
  | Op.PutPop n => let* v := vpop in vset n v
  | Op.PutPopScope0Local offset => let* v := vpop in vset (mkName offset 0 0) v
  | Op.PushRef =>
      let* (key, value) := asks Frame.peek2 in
      match VarOps.get value key OneBased with
      | Ok v => vpush v
      | Err e => pop_error e
      end
  | Op.Ref => let* key := vpop in let* value := peek in on_top (VarOps.get value key OneBased)
  | Op.RangeRef =>
      let* to := vpop in let* from := vpop in let* base := peek in
      let* r := asks (λ _, or_panic RangePanic (VarOps.range base from to OneBased)) in
      on_top r
  | Op.RangeSet =>
      let* value := vpop in let* to := vpop in let* from := vpop in let* base := take_top in
      on_top (VarOps.range_set_owned base from to value OneBased)
  | Op.RangeSetAt offset => range_set_at (Z.to_nat offset)
  | Op.Length offset =>
      let* v := asks (Frame.peek_abs offset) in
      match len v with Ok l => vpush (VInt l) | Err e => push_error e end
  | Op.GetProp => get_prop
  | Op.PushGetProp => push_get_prop
  | Op.PutProp => put_prop
  | Op.PutPropAt offset jump_if_object => put_prop_at (Z.to_nat offset) jump_if_object
  | Op.Fork fv_offset id => fork id fv_offset
  | Op.Pass =>
      let* args := vpop in
      match args with
      | VList l => let* r := prepare_pass_verb context l in stop r
      | _ => push_error (invalid_verb_target args)
      end
  | Op.CallVerb => call_verb
  | Op.Return => let* v := vpop in stop (ReturnValue v)
  | Op.Return0 => stop (ReturnValue (VInt 0))
  | Op.Done => stop (ReturnValue (VBool false))
  | Op.FuncCall id =>
      let* args := vpop in
      match args with
      | VList l => stop (DispatchBuiltin id l)
      | _ => push_error (with_msg E_ARGS (lit "invalid value for function call"))
      end
  | Op.PushCatchLabel label =>
      let* codes := vpop in
      let* c := asks (λ _, catch_codes codes) in modify (Frame.push_catch c label)
  | Op.TryFinally end_label w => does (Frame.push_scope (TyTryFinally end_label) w end_label)
  | Op.TryCatch _ end_label =>
      let* catches := runs (λ f, inl (Frame.take_catch_stack f)) in
      does (Frame.push_non_var_scope (TyTryCatch catches) end_label)
  | Op.TryExcept _ w end_label =>
      let* catches := runs (λ f, inl (Frame.take_catch_stack f)) in
      does (Frame.push_scope (TyTryCatch catches) w end_label)
  | Op.EndExcept label => end_handler label
  | Op.EndCatch label => let* v := vpop in end_handler label ;; vpush v
  | Op.EndFinally =>
      let* t := runs Frame.pop_scope in
      match t with
      | Some (TyTryFinally _) => modify (Frame.push_finally_reason Fallthrough)
      | _ => vpanic NoHandler
      end
  | Op.FinallyContinue =>
      let* why := runs (λ f, inl (Frame.pop_finally_reason f)) in
      match why with
      | Some Fallthrough => vret tt
      | None | Some ReasonAbort => vpanic NoHandler
      | Some why => stop (Unwind why)
      end
  | Op.BeginScope num_bindings end_label =>
      does (Frame.push_scope TyBlock num_bindings end_label)
  | Op.EndScope _ =>
      let* t := runs Frame.pop_scope in
      match t with Some _ => vret tt | None => vpanic NoHandler end
  | Op.ExitId label => vjump label
  | Op.Exit stack label => stop (Unwind (ReasonExit stack label))
  | Op.Scatter sa => scatter sa
  | Op.CheckListForSplice =>
      let* v := peek in
      if is_sequence v then vret tt
      else pop_error (with_msg E_TYPE (lit "invalid value in list splice"))
  | Op.BeginComprehension _ end_label _ =>
      vpush (VList []) ;; does (Frame.push_scope TyComprehension 1 end_label)
  | Op.ComprehendRange o =>
      let* rc := operand (λ p, range_comprehension p o) in comprehend_range rc
  | Op.ComprehendList o =>
      let* lc := operand (λ p, list_comprehension p o) in comprehend_list lc
  | Op.FilterComprehension label =>
      let* cond := vpop in if is_true cond then vret tt else vjump label
  | Op.ContinueComprehension id => continue_comprehension id
  | Op.Capture n =>
      let* o := asks (Frame.get_env n) in modify (Frame.push_capture n (default VNone o))
  | Op.MakeLambda scatter_offset program_offset self_var num_captured =>
      make_lambda scatter_offset program_offset self_var num_captured
  | Op.CallLambda =>
      let* args := vpop in
      let* lambda := vpop in
      match lambda, args with
      | VLambda l, VList args => stop (DispatchLambda l args)
      | VLambda _, _ => push_error (with_msg E_ARGS (lit "expected argument list"))
      | _, _ => push_error (with_msg E_TYPE (lit "expected lambda value"))
      end
  end.

(** Fetching and executing. The code selects the instructions once for a slice;
    no instruction changes the program or the kind of the counter. *)
Definition vm_step : VM unit :=
  let* ops := asks Frame.opcodes in
  let* pc := reads fr_pc in
  modify Frame.skip ;;
  match ops !! Z.to_nat pc with
  | Some op => execute_op op
  | None => vpanic FetchPastEnd
  end.

(** The result of a slice, with the ticks counted. *)
Inductive slice_out :=
| SliceOk (r : ExecutionResult) (tick_count : Z) (h : H) (f : MooStackFrame)
| SlicePanic (w : vm_panic).

Fixpoint run_slice (n : nat) (tick_count : Z) (h : H) (f : MooStackFrame) : slice_out :=
  match n with
  | O => SliceOk More tick_count h f
  | S n =>
      match vm_step h f with
      | VmOk _ h f => run_slice n (tick_count + 1) h f
      | VmStop r h f => SliceOk r (tick_count + 1) h f
      | VmPanic w => SlicePanic w
      end
  end.

(** [saturating_add] bounds the slice by the largest [usize]. *)
Definition moo_frame_execute (tick_slice tick_count : Z) (h : H) (f : MooStackFrame) : slice_out :=
  match Frame.opcodes f with
  | inr w => SlicePanic w
  | inl [] =>
      SliceOk (ReturnValue (if use_boolean_returns features then VBool false else VInt 0))
        tick_count h f
  | inl _ =>
      let tick_slice_end := Z.min (tick_count + tick_slice) (2 ^ 64 - 1) in
      run_slice (Z.to_nat (tick_slice_end - tick_count)) tick_count h f
  end.
End execute.
Arguments SliceOk {H}. Arguments SlicePanic {H}.
