(* ===== verification/Eval.v ===== *)
(** What expressions mean, on the tree: an evaluator of its own, without the
    generator, a stack or a program counter. Expressions read and assign the
    variables of the scopes in effect and have errors; those with calls, property
    access, loops or assignments to parts of values are not among them
    ([simple]). ExprRun.v compares the compiled code with it. *)
From S2P Require Import Prelude Obj TxTypes Float64 Opcodes Values ValueOrder Scalars Containers VarOps.
From S2P Require Import Ast Capture CodegenState Codegen CodegenProofs Environment Frame Machine Vm.
From stdpp Require Import base gmap list strings.

Open Scope Z_scope.

(** The scopes in effect, the outermost first; a slot that was never assigned holds
    [VNone]. *)
Notation Scopes := (list (list Var)).

Inductive evaluated (A : Type) :=
| Gives (a : A) (ss : Scopes)
| Fails (e : Error) (ss : Scopes)
| Panics (w : vm_panic).
Arguments Gives {A}. Arguments Fails {A}. Arguments Panics {A}.

Definition Eval (A : Type) : Type := Scopes → evaluated A.

#[export] Instance eval_ret : MRet Eval := λ A a ss, Gives a ss.
#[export] Instance eval_bind : MBind Eval := λ A B k m ss,
  match m ss with Gives a ss => k a ss | Fails e ss => Fails e ss | Panics w => Panics w end.

Definition fails {A} (e : Error) : Eval A := λ ss, Fails e ss.
Definition panics {A} (w : vm_panic) : Eval A := λ _, Panics w.
Definition or_fails {A} (r : result A Error) : Eval A :=
  match r with Ok a => mret a | Err e => fails e end.

(** ** Variables *)

Definition slot (n : Name) (ss : Scopes) : option Var :=
  ss !! Z.to_nat (name_depth n) ≫= (λ s, s !! Z.to_nat (name_offset n)).

(** A variable that was never assigned has no value, but for the parsing globals. *)
Definition value_of (n : Name) (v : Var) : option Var :=
  match assigned_value v with
  | Some v => Some v
  | None => if name_depth n =? 0 then Frame.parsing_default (name_offset n) else None
  end.

Definition assigned (n : Name) (v : Var) (ss : Scopes) : Scopes :=
  match ss !! Z.to_nat (name_depth n) with
  | Some s => <[Z.to_nat (name_depth n) := <[Z.to_nat (name_offset n) := v]> s]> ss
  | None => ss
  end.

Definition assign (n : Name) (v : Var) : Eval Var := λ ss,
  match slot n ss with Some _ => Gives v (assigned n v ss) | None => Panics NoVariable end.

(** ** Operators *)

Section eval.
Context `{Text} `{Interner} `{Addresses} `{OrdMap} `{Printing} `{Libm}.
Variable features : FeaturesConfig.
Variable table : list (option Name).
Variable names : Names.

Definition ordered (op : comparison → bool) (a b : Var) : result Var Error :=
  match compare a b with
  | Ok c => Ok (truth features (op c))
  | Err e => Err e
  end.

Definition binary (op : BinaryOp) (a b : Var) : result Var Error :=
  match op with
  | BAdd => Scalars.add a b | BSub => Scalars.sub a b | BMul => Scalars.mul a b
  | BDiv => Scalars.div a b | BMod => Scalars.modulus a b | BExp => Scalars.pow a b
  | BBitAnd => Scalars.bitand a b | BBitOr => Scalars.bitor a b | BBitXor => Scalars.bitxor a b
  | BBitShl => Scalars.bitshl a b | BBitShr => Scalars.bitshr a b
  | BBitLShr => Scalars.bitlshr a b
  | BEq => Ok (truth features (var_eqb a b))
  | BNEq => Ok (truth features (negb (var_eqb a b)))
  | BGt => ordered (λ c, match c with Datatypes.Gt => true | _ => false end) a b
  | BLt => ordered (λ c, match c with Datatypes.Lt => true | _ => false end) a b
  | BGtE => ordered (λ c, match c with Datatypes.Lt => false | _ => true end) a b
  | BLtE => ordered (λ c, match c with Datatypes.Gt => false | _ => true end) a b
  | BIn => VarOps.index_in b a false OneBased
  end.

Definition unary (op : UnaryOp) (a : Var) : result Var Error :=
  match op with
  | UNeg => Scalars.negative a
  | UNot => Ok (truth features (negb (is_true a)))
  | UBitNot => Scalars.bitnot a
  end.

Definition range (base from to : Var) : Eval Var :=
  match VarOps.range base from to OneBased with
  | Some r => or_fails r
  | None => panics RangePanic
  end.

Definition not_found (n : Name) : Error :=
  let name := match scope0_local_offset n with
              | Some offset => ident_for_scope0_offset names offset
              | None => ident_for_name names n
              end in
  with_msg E_VARNF
    match name with
    | Some s => lit "Variable `" ++ as_arc_str s ++ lit "` not found"
    | None => lit "Variable not found"
    end.

Definition variable (n : Name) : Eval Var := λ ss,
  match slot n ss with
  | Some v => match value_of n v with Some v => Gives v ss | None => Fails (not_found n) ss end
  | None => Panics NoVariable
  end.

Definition named (v : Variable_) (k : Name → Eval Var) : Eval Var := λ ss,
  match name_of table v with Some n => k n ss | None => Panics NoVariable end.

(** ** Lists *)

Definition append_value (l v : Var) : result Var Error :=
  if negb (is_list_like l) then Err (with_msg E_TYPE (lit "invalid value in list append"))
  else VarOps.push_owned l v.

Definition append_all (l v : Var) : result Var Error :=
  if negb (is_list_like l) || negb (is_sequence v)
  then Err (with_msg E_TYPE (lit "invalid value in list append"))
  else VarOps.append_owned l v.

(** A splice in front makes the list; the code tests only that it is a sequence. *)
Definition first_element (splice : bool) (v : Var) : result Var Error :=
  if negb splice then Ok (VList [v])
  else if is_sequence v then Ok v
  else Err (with_msg E_TYPE (lit "invalid value in list splice")).

Definition next_element (splice : bool) (l v : Var) : result Var Error :=
  if splice then append_all l v else append_value l v.

Fixpoint more_elements (l : Var) (args : list (bool * Eval Var)) : Eval Var :=
  match args with
  | [] => mret l
  | (splice, m) :: args =>
      v ← m; l ← or_fails (next_element splice l v); more_elements l args
  end.

Definition list_elements (args : list (bool * Eval Var)) : Eval Var :=
  match args with
  | [] => mret (VList [])
  | (splice, m) :: args => v ← m; l ← or_fails (first_element splice v); more_elements l args
  end.

Definition element (eval : Expr → Eval Var) (a : Arg Expr) : bool * Eval Var :=
  match a with Normal e => (false, eval e) | Splice e => (true, eval e) end.

Definition error_with (c : ErrorCode) (msg : Var) : result Var Error :=
  match msg with
  | VStr s => Ok (VErr (with_msg c s))
  | _ => Err (with_msg E_TYPE (lit "invalid value for error message"))
  end.

Fixpoint entries (m : Var) (kvs : list (Eval Var * Eval Var)) : Eval Var :=
  match kvs with
  | [] => mret m
  | (k, v) :: kvs =>
      k ← k; v ← v; m ← or_fails (set_owned_vars m k v OneBased); entries m kvs
  end.

(** ** Expressions *)

(** [outer] is the value [$] is the length of. *)
Fixpoint eval (outer : option Var) (e : Expr) : Eval Var :=
  match e with
  | EValue v => mret v
  | ETypeConstant t => mret (VInt (var_type_repr t))
  | EError c None => mret (v_err c)
  | EError c (Some msg) =>
      m ← eval outer msg; or_fails (error_with c m)
  | EId v => named v variable
  | EUnary op x => a ← eval outer x; or_fails (unary op a)
  | EBinary op l r => a ← eval outer l; b ← eval outer r; or_fails (binary op a b)
  | EAnd l r => a ← eval outer l; if is_true a then eval outer r else mret a
  | EOr l r => a ← eval outer l; if is_true a then mret a else eval outer r
  | ECond c t f => a ← eval outer c; if is_true a then eval outer t else eval outer f
  | EIndex l r => a ← eval outer l; b ← eval (Some a) r; or_fails (VarOps.get a b OneBased)
  | ERange x from to =>
      a ← eval outer x; b ← eval (Some a) from; c ← eval (Some a) to; range a b c
  | ELength => match outer with
               | Some v => l ← or_fails (len v); mret (VInt l)
               | None => panics NoOperand
               end
  | EList args => list_elements (map (element (eval outer)) args)
  | EMap m => entries (VMap []) (map (λ kv, (eval outer kv.1, eval outer kv.2)) m)
  | EAssign (EId v) r => a ← eval outer r; named v (λ n, assign n a)
  | EDecl v _ None => named v (λ n, assign n (VInt 0))
  | EDecl v _ (Some r) => a ← eval outer r; named v (λ n, assign n a)
  | _ => panics NoOperand
  end.
End eval.

(** The literals of the source. *)
Definition literal (v : Var) : bool :=
  match v with
  | VNone | VInt _ | VFloat _ | VObj _ | VBool _ | VSym _ | VStr _ | VBinary _ => true
  | _ => false
  end.

Fixpoint simple (e : Expr) : bool :=
  match e with
  | EValue v => literal v
  | ETypeConstant _ | EError _ None | EId _ | ELength | EDecl _ _ None => true
  | EError _ (Some x) | EUnary _ x | EAssign (EId _) x | EDecl _ _ (Some x) => simple x
  | EBinary _ l r | EAnd l r | EOr l r | EIndex l r => simple l && simple r
  | ECond x y z | ERange x y z => simple x && simple y && simple z
  | EList args => forallb (arg_ok simple) args
  | EMap m => forallb (λ kv, simple kv.1 && simple kv.2) m
  | _ => false
  end.
