(* ===== verification/ExprRun.v ===== *)
(** The compiled code of an expression computes what the evaluator says.

    [inside s s'] says that a program holds the code emitted between two states of
    the generator, [ready s f] that a frame stands where the generator stood at
    [s]; [gives m k sem] that the code [m] emits takes ready frames to ready frames
    as [sem] says and leaves [k] more values. The rules compose such codes, and the
    proof goes through the tree once. *)
From S2P Require Import Prelude Obj TxTypes Float64 Opcodes Values ValueOrder Scalars Containers VarOps.
From S2P Require Import Ast Capture CodegenState Codegen CodegenProofs Environment Frame Machine Vm Eval.
From stdpp Require Import base gmap list strings.

Open Scope Z_scope.

(** ** The generator's side *)

Definition ops (s : CodegenState) : list Op.t := em_ops (emitter s).
Definition jumps (s : CodegenState) : list JumpLabel := em_jumps (emitter s).
Definition lits (s : CodegenState) : list Var := o_literals (operands s).
Definition errs (s : CodegenState) : list ErrorCode := o_error_operands (operands s).
Definition cur (s : CodegenState) : Z := cur_stack (stack s).
Definition top (s : CodegenState) : Z := max_stack (stack s).
Definition saved (s : CodegenState) : option Offset := saved_stack (stack s).

(** Everything but the labels; no [Pop] follows. *)
Record grows (s s' : CodegenState) : Prop := {
  g_ops : ∃ new, ops s' = ops s ++ new ∧ Forall (λ o, o ≠ Op.Pop) new;
  g_lits : lits s `prefix_of` lits s';
  g_errs : errs s `prefix_of` errs s';
  g_table : name_for_variable s' = name_for_variable s;
  g_names : cg_var_names s' = cg_var_names s;
  g_top : top s ≤ top s';
}.

Record emits (k : Z) (s s' : CodegenState) : Prop := {
  e_grows : grows s s';
  e_count : (length (jumps s) ≤ length (jumps s'))%nat;
  e_jumps : Z.of_nat (length (jumps s')) ≤ 65536 → jumps s `prefix_of` jumps s';
  e_cur : cur s' = cur s + k;
  e_saved : saved s' = saved s;
  e_top : cur s ≤ top s → cur s' ≤ top s';
}.

Section generator.
Implicit Types s : CodegenState.

Lemma grows_refl s : grows s s.
Proof. split; try done. exists []. by rewrite app_nil_r. Qed.

Lemma grows_trans s1 s2 s3 : grows s1 s2 → grows s2 s3 → grows s1 s3.
Proof.
  intros [(n1 & E1 & F1) L1 R1 T1 N1 M1] [(n2 & E2 & F2) L2 R2 T2 N2 M2].
  split; [|by etrans|by etrans|congruence|congruence|lia].
  exists (n1 ++ n2). rewrite E2, E1, app_assoc. split; [done|]. by apply Forall_app.
Qed.

Lemma emits_trans k1 k2 s1 s2 s3 : emits k1 s1 s2 → emits k2 s2 s3 → emits (k1 + k2) s1 s3.
Proof.
  intros [G1 N1 J1 C1 S1 T1] [G2 N2 J2 C2 S2 T2].
  split; [by eapply grows_trans|lia| |lia|congruence|auto].
  intros Hn. etrans; [apply J1; lia|by apply J2].
Qed.

Lemma grows_length s s' : grows s s' → (length (ops s) ≤ length (ops s'))%nat.
Proof. intros [(n & -> & _) _ _ _ _ _]. rewrite length_app. lia. Qed.

Lemma emits_length k s s' : emits k s s' → (length (ops s) ≤ length (ops s'))%nat.
Proof. intros E. apply grows_length, E. Qed.

(** ** Primitives *)

Lemma bind_ok {A B} (m : CG A) (k : A → CG B) s b s' :
  bind m k s = CgOk b s' → ∃ a s1, m s = CgOk a s1 ∧ k a s1 = CgOk b s'.
Proof. unfold bind. destruct (m s) as [a s1| |]; [|done..]. by exists a, s1. Qed.

Definition plain (op : Op.t) : Prop :=
  enters_scope op = false ∧ exits_scope op = false ∧ op ≠ Op.Pop.

(** Only the code and the labels differ. *)
Record like (s s' : CodegenState) : Prop := {
  l_operands : operands s' = operands s;
  l_table : name_for_variable s' = name_for_variable s;
  l_names : cg_var_names s' = cg_var_names s;
  l_stack : stack s' = stack s;
}.

Lemma emit_ok op s a s' :
  plain op → emit op s = CgOk a s' → like s s' ∧ jumps s' = jumps s ∧ ops s' = ops s ++ [op].
Proof.
  intros (He & Hx & Hp). unfold emit. rewrite He, Hx. cbn. intros [= _ <-].
  split_and!; [done|..]; unfold ops, jumps; cbn; by destruct op.
Qed.

Lemma label_ok n s l s' :
  make_jump_label n s = CgOk l s' →
  like s s' ∧ ops s' = ops s ∧ l = as_u16 (Z.of_nat (length (jumps s))) ∧
  ∃ j, jumps s' = jumps s ++ [j].
Proof. cbn. intros [= <- <-]. split_and!; try done. by eexists. Qed.

Lemma commit_ok l s a s' :
  commit_jump_label l s = CgOk a s' →
  like s s' ∧ ops s' = ops s ∧
  ∃ j, jumps s' = <[Z.to_nat l := j]> (jumps s) ∧
       jl_position j = as_u16 (Z.of_nat (length (ops s))).
Proof.
  unfold commit_jump_label, bind, get, bind_jump_label.
  destruct (em_jumps (emitter s) !! Z.to_nat l) as [j|]; [|done]. intros [= _ <-].
  split_and!; try done. eexists. split; reflexivity.
Qed.

Lemma push_ok n s a s' :
  push_stack n s = CgOk a s' →
  emitter s' = emitter s ∧ operands s' = operands s ∧
  name_for_variable s' = name_for_variable s ∧ cg_var_names s' = cg_var_names s ∧
  cur s' = cur s + n ∧ top s' = Z.max (cur s + n) (top s) ∧ saved s' = saved s.
Proof. intros [= _ <-]. done. Qed.

Lemma pop_ok n s a s' :
  pop_stack n s = CgOk a s' →
  emitter s' = emitter s ∧ operands s' = operands s ∧
  name_for_variable s' = name_for_variable s ∧ cg_var_names s' = cg_var_names s ∧
  cur s' = cur s - n ∧ top s' = top s ∧ saved s' = saved s.
Proof.
  unfold pop_stack, bind, get, stack_pop. destruct (_ <? n); [done|]. by intros [= _ <-].
Qed.

Lemma grows_like s s' new :
  like s s' → ops s' = ops s ++ new → Forall (λ o, o ≠ Op.Pop) new → grows s s'.
Proof.
  intros [Ho Ht Hn Hs] Hops Hnew.
  split; unfold lits, errs, top; rewrite ?Ho, ?Hs; try done. by exists new.
Qed.

Lemma emits_like s s' new :
  like s s' → jumps s' = jumps s → ops s' = ops s ++ new → Forall (λ o, o ≠ Op.Pop) new →
  emits 0 s s'.
Proof.
  intros Hl Hj Hops Hnew. split; [by eapply grows_like|by rewrite Hj|by rewrite Hj|..];
    unfold cur, saved, top; rewrite (l_stack _ _ Hl); auto; lia.
Qed.

Lemma emits_push n s a s' : 0 ≤ n → push_stack n s = CgOk a s' → emits n s s' ∧ ops s' = ops s ∧ jumps s' = jumps s.
Proof.
  intros Hn (He & Ho & Ht & Hnm & Hc & Hm & Hs)%push_ok.
  split_and!; [|unfold ops; by rewrite He|unfold jumps; by rewrite He].
  split; [|unfold jumps; by rewrite He..|done|done|lia].
  split; unfold ops, lits, errs; rewrite ?He, ?Ho; try done; [|lia].
  exists []. by rewrite app_nil_r.
Qed.

Lemma emits_pop n s a s' : 0 ≤ n → pop_stack n s = CgOk a s' → emits (- n) s s' ∧ ops s' = ops s ∧ jumps s' = jumps s.
Proof.
  intros Hn (He & Ho & Ht & Hnm & Hc & Hm & Hs)%pop_ok.
  split_and!; [|unfold ops; by rewrite He|unfold jumps; by rewrite He].
  split; [|unfold jumps; by rewrite He..|lia|done|lia].
  split; unfold ops, lits, errs; rewrite ?He, ?Ho; try done; [|lia].
  exists []. by rewrite app_nil_r.
Qed.
End generator.

(** ** The machine's side *)

(** What instructions of expressions leave alone. *)
Definition kept (f f' : MooStackFrame) : Prop :=
  f' = Frame.set_env (fr_env f') (Frame.set_valstack (valstack f') (Frame.set_pc (fr_pc f') f)).

Lemma kept_refl f : kept f f.
Proof. by destruct f. Qed.

Lemma kept_trans f1 f2 f3 : kept f1 f2 → kept f2 f3 → kept f1 f3.
Proof.
  unfold kept. intros E1 E2. rewrite E2, E1. destruct f1, f2, f3. reflexivity.
Qed.

(** The innermost scope encloses the positions from [lo] to [hi]: jumps among them
    leave no scope. *)
Definition roomy (f : MooStackFrame) (lo hi : nat) : Prop :=
  match scope_stack f with
  | [] => True
  | sc :: _ => start_pos sc ≤ Z.of_nat lo ∧ Z.of_nat hi < end_pos sc
  end.

Lemma roomy_kept f f' lo hi lo' hi' :
  kept f f' → roomy f lo hi → (lo ≤ lo')%nat → (hi' ≤ hi)%nat → roomy f' lo' hi'.
Proof.
  unfold kept, roomy. intros -> Hr ? ?. cbn. destruct (scope_stack f); [done|]. lia.
Qed.

(** Every name has its slot. *)
Definition placed (table : list (option Name)) (ss : Scopes) : Prop :=
  ∀ v n, name_of table v = Some n →
    0 ≤ name_depth n ∧ 0 ≤ name_offset n ∧ is_Some (slot n ss).

Section machine.
Context {H : Type} `{!VmHost H}.
Context `{Text} `{Interner} `{Addresses} `{OrdMap} `{Printing} `{ErrorText} `{Libm}.
Variable context : FrameExecutionContext.
Variable features : FeaturesConfig.
Implicit Types (h : H) (s : CodegenState).

(** [n] instructions, up to the first that does not continue. *)
Inductive executes : nat → H → MooStackFrame → vm_out H unit → Prop :=
| executes_none h f : executes 0 h f (VmOk tt h f)
| executes_stop h f r h' f' :
    vm_step context features h f = VmStop r h' f' → executes 1 h f (VmStop r h' f')
| executes_panic h f w : vm_step context features h f = VmPanic w → executes 1 h f (VmPanic w)
| executes_more n h f h' f' o :
    vm_step context features h f = VmOk tt h' f' → executes n h' f' o → executes (S n) h f o.

Lemma executes_trans n m h f h' f' o :
  executes n h f (VmOk tt h' f') → executes m h' f' o → executes (n + m) h f o.
Proof.
  remember (VmOk tt h' f') as o1 eqn:E. intros Hn Hm. revert E.
  induction Hn as [h f|h f r h1 f1 Hs|h f w Hs|n h f h1 f1 o1 Hs Hn IH]; intros E; try done.
  - by injection E as -> ->.
  - cbn. eapply executes_more; [done|]. by apply IH.
Qed.

Lemma executes_slice n k t h f o :
  executes n h f o →
  run_slice context features (n + k) t h f =
  match o with
  | VmOk _ h' f' => run_slice context features k (t + Z.of_nat n) h' f'
  | VmStop r h' f' => SliceOk r (t + Z.of_nat n) h' f'
  | VmPanic w => SlicePanic w
  end.
Proof.
  intros Hn. revert t. induction Hn as [h f|h f r h1 f1 Hs|h f w Hs|n h f h1 f1 o Hs Hn IH];
    intros t.
  - cbn. by rewrite Z.add_0_r.
  - cbn. by rewrite Hs.
  - cbn. by rewrite Hs.
  - cbn [Nat.add run_slice]. rewrite Hs, IH.
    destruct o; [f_equal; lia|f_equal; lia|done].
Qed.

(** A program whose tables the 16-bit offsets reach. *)
Record small (p : PrgInner) : Prop := {
  sm_ops : (Z.of_nat (length (main_vector p)) ≤ 65535);
  sm_jumps : (Z.of_nat (length (jump_labels p)) ≤ 65536);
  sm_lits : (Z.of_nat (length (literals p)) ≤ 65536);
  sm_errs : (Z.of_nat (length (error_operands p)) ≤ 65536);
}.

Variable p : PrgInner.
Hypothesis Hsmall : small p.
Variable table : list (option Name).

Record inside (s s' : CodegenState) : Prop := {
  in_ops : ops s' `prefix_of` main_vector p;
  in_next : main_vector p !! length (ops s') ≠ Some Op.Pop;
  in_jumps : ∀ i, (length (jumps s) ≤ i < length (jumps s'))%nat →
               jump_labels p !! i = jumps s' !! i;
  in_lits : lits s' `prefix_of` literals p;
  in_errs : errs s' `prefix_of` error_operands p;
  in_top : top s' ≤ 65536;
  in_count : Z.of_nat (length (jumps s')) ≤ 65536;
}.

Record ready (s : CodegenState) (outer : option Var) (base loc : list Var) (ss : Scopes)
    (f : MooStackFrame) : Prop := {
  r_program : fr_program f = p;
  r_main : fr_pc_type f = PcMain;
  r_pc : fr_pc f = Z.of_nat (length (ops s));
  r_stack : valstack f = loc ++ base;
  r_cur : cur s = Z.of_nat (length (loc ++ base));
  r_top : cur s ≤ top s;
  r_saved : match saved s, outer with
            | Some i, Some v => rev base !! Z.to_nat i = Some v
            | None, None => True
            | _, _ => False
            end;
  r_env : represents (fr_env f) ss;
  r_placed : placed table ss;
  r_table : name_for_variable s = table;
  r_names : cg_var_names s = var_names p;
}.

Lemma inside_part s s' sa sb :
  inside s s' → grows sb s' → (length (jumps s) ≤ length (jumps sa))%nat →
  (length (jumps sb) ≤ length (jumps s'))%nat →
  (∀ i, (length (jumps sa) ≤ i < length (jumps sb))%nat → jumps s' !! i = jumps sb !! i) →
  inside sa sb.
Proof.
  intros [Ho Hn Hj Hl He Ht Hc] [(new & E & F) L R T N M] Ha Hb Hi. split.
  - etrans; [|exact Ho]. rewrite E. by apply prefix_app_r.
  - destruct new as [|o new].
    { by rewrite E, app_nil_r in Hn. }
    rewrite (prefix_lookup_Some (ops s') _ (length (ops sb)) o); [|rewrite E|done].
    + inv F. congruence.
    + by rewrite lookup_app_r, Nat.sub_diag by done.
  - intros i Hi'. rewrite Hj by lia. by apply Hi.
  - by etrans.
  - by etrans.
  - lia.
  - lia.
Qed.

(** The left and the right part of code. *)
Lemma inside_left k s s1 s' : inside s s' → emits k s1 s' → inside s s1.
Proof.
  intros Hin [Hg Hn Hp _ _ _]. eapply inside_part; try done.
  specialize (Hp (in_count _ _ Hin)).
  intros i Hi. destruct (lookup_lt_is_Some_2 (jumps s1) i) as [j Hj]; [lia|].
  rewrite Hj. by eapply prefix_lookup_Some.
Qed.

Lemma inside_right k s s1 s' : inside s s' → emits k s s1 → inside s1 s'.
Proof.
  intros Hin E. eapply inside_part; try done; [apply grows_refl|apply E].
Qed.

(** Fetching. *)
Lemma step_at s outer base loc ss f op h :
  ready s outer base loc ss f → main_vector p !! length (ops s) = Some op →
  vm_step context features h f =
  execute_op context features op h (Frame.set_pc (Z.of_nat (S (length (ops s)))) f).
Proof.
  intros R Hop. unfold vm_step, asks, reads, modify, vbind, Frame.opcodes.
  rewrite (r_main _ _ _ _ _ _ R), (r_program _ _ _ _ _ _ R), (r_pc _ _ _ _ _ _ R).
  rewrite Nat2Z.id, Hop. f_equal. unfold Frame.skip. rewrite (r_pc _ _ _ _ _ _ R). f_equal.
  apply lookup_lt_Some in Hop. destruct Hsmall as [Hm _ _ _].
  unfold as_u16, wrap. rewrite Z.mod_small; lia.
Qed.

Lemma jump_at f lo hi l j pos :
  fr_program f = p → jump_labels p !! Z.to_nat l = Some j → jl_position j = Z.of_nat pos →
  roomy f lo hi → (lo ≤ pos ≤ hi)%nat → Frame.jump l f = inl (Frame.set_pc (Z.of_nat pos) f).
Proof.
  intros Hp Hj Hpos Hr Hlo. unfold Frame.jump, Frame.label_position, jump_label, at_index.
  rewrite Hp, Hj. cbn. rewrite Hpos. unfold roomy in Hr.
  destruct (scope_stack f) as [|sc scs]; [done|]. cbn. unfold Frame.encloses.
  by destruct (Z.leb_spec (start_pos sc) (Z.of_nat pos)), (Z.ltb_spec (Z.of_nat pos) (end_pos sc));
    try lia.
Qed.

(** ** Codes *)

(** What code does to the values above those it found, and to the scopes;
    [Stuck] where nothing is claimed. *)
Inductive effect :=
| Leaves (loc : list Var) (ss : Scopes)
| Raises (e : Error) (ss : Scopes)
| Dies (w : vm_panic)
| Stuck.

Definition reaches (h : H) (f : MooStackFrame) (bound : nat) (s' : CodegenState)
    (outer : option Var) (base : list Var) (r : effect) : Prop :=
  match r with
  | Leaves loc ss =>
      ∃ n f', (n ≤ bound)%nat ∧ executes n h f (VmOk tt h f') ∧ kept f f'
              ∧ ready s' outer base loc ss f'
  | Raises e ss =>
      ∃ n f', (n ≤ bound)%nat ∧ executes n h f (VmStop (PushError e) h f') ∧ kept f f'
              ∧ represents (fr_env f') ss
  | Dies w => ∃ n, (n ≤ bound)%nat ∧ executes n h f (VmPanic w)
  | Stuck => True
  end.

Definition code_effect : Type := option Var → Scopes → list Var → effect.

(** The claim on the code between two states. *)
Definition computes (s s' : CodegenState) (sem : code_effect) : Prop :=
  inside s s' → ∀ h outer base loc ss f,
  ready s outer base loc ss f → roomy f (length (ops s)) (length (ops s')) →
  reaches h f (length (ops s') - length (ops s)) s' outer base (sem outer ss loc).

Definition gives (m : CG unit) (k : Z) (sem : code_effect) : Prop := ∀ s s',
  m s = CgOk tt s' → emits k s s' ∧ computes s s' sem.

Definition then_effect (r : effect) (k : Scopes → list Var → effect) : effect :=
  match r with Leaves loc ss => k ss loc | r => r end.

(** [r] claims no more than [r']. *)
Definition weaker (r r' : effect) : Prop := r = Stuck ∨ r = r'.

Lemma reaches_weaker h f n s' outer base r r' :
  weaker r r' → reaches h f n s' outer base r' → reaches h f n s' outer base r.
Proof. by intros [-> | ->]. Qed.

Lemma reaches_bound h f n m s' outer base r :
  (n ≤ m)%nat → reaches h f n s' outer base r → reaches h f m s' outer base r.
Proof.
  intros Hm. destruct r; cbn; [| | |done].
  - intros (x & f' & ? & ?). exists x, f'. split; [lia|done].
  - intros (x & f' & ? & ?). exists x, f'. split; [lia|done].
  - intros (x & ? & ?). exists x. split; [lia|done].
Qed.

(** Running one code after another. *)
Lemma reaches_then h f n m s1 s' outer base r (k : Scopes → list Var → effect) :
  reaches h f n s1 outer base r →
  (∀ f' loc ss, kept f f' → ready s1 outer base loc ss f' →
     reaches h f' m s' outer base (k ss loc)) →
  reaches h f (n + m) s' outer base (then_effect r k).
Proof.
  destruct r as [loc ss|e ss|w|]; cbn [reaches then_effect]; [| | |done].
  - intros (x & f1 & Hx & Hr & Hk & R) Hm. specialize (Hm f1 loc ss Hk R).
    destruct (k ss loc) as [loc' ss'|e ss'|w|]; cbn [reaches] in *; [| | |done].
    + destruct Hm as (y & f2 & Hy & Hr2 & Hk2 & R2). exists (x + y)%nat, f2.
      split_and!; [lia|by eapply executes_trans|by eapply kept_trans|done].
    + destruct Hm as (y & f2 & Hy & Hr2 & Hk2 & R2). exists (x + y)%nat, f2.
      split_and!; [lia|by eapply executes_trans|by eapply kept_trans|done].
    + destruct Hm as (y & Hy & Hr2). exists (x + y)%nat. split; [lia|]. by eapply executes_trans.
  - intros (x & f1 & Hx & Hr & Hk & R) _. exists x, f1. split_and!; try done. lia.
  - intros (x & Hx & Hr) _. exists x. split; [lia|done].
Qed.

Lemma reaches_step h f f1 n s' outer base r :
  vm_step context features h f = VmOk tt h f1 → kept f f1 →
  reaches h f1 n s' outer base r → reaches h f (S n) s' outer base r.
Proof.
  intros Hs Hk Hr.
  destruct r; cbn [reaches then_effect] in *; [| | |done].
  - destruct Hr as (x & f' & ? & ? & ? & ?). exists (S x), f'.
    split_and!; [lia|by eapply executes_more|by eapply kept_trans|done].
  - destruct Hr as (x & f' & ? & ? & ? & ?). exists (S x), f'.
    split_and!; [lia|by eapply executes_more|by eapply kept_trans|done].
  - destruct Hr as (x & ? & ?). exists (S x). split; [lia|]. by eapply executes_more.
Qed.

Lemma reaches_here h f n s' outer base loc ss :
  ready s' outer base loc ss f → reaches h f n s' outer base (Leaves loc ss).
Proof.
  intros R. exists 0%nat, f. split_and!; [lia|apply executes_none|apply kept_refl|done].
Qed.

Lemma computes_trans s s1 s' k1 k2 f1 f2 :
  emits k1 s s1 → emits k2 s1 s' → computes s s1 f1 → computes s1 s' f2 →
  computes s s' (λ outer ss loc, then_effect (f1 outer ss loc) (f2 outer)).
Proof.
  intros E1 E2 C1 C2 Hin h outer base loc ss f R Hroom.
  pose proof (emits_length _ _ _ E1). pose proof (emits_length _ _ _ E2).
  eapply reaches_bound; [|eapply reaches_then].
  2: { apply C1; [by eapply inside_left|done|].
       eapply roomy_kept; [apply kept_refl|done|lia..]. }
  2: { intros f' loc' ss' Hk R'. apply C2; [by eapply inside_right|done|].
       eapply roomy_kept; [done|done|lia..]. }
  lia.
Qed.

Lemma gives_then m1 m2 k1 k2 f1 f2 :
  gives m1 k1 f1 → gives m2 k2 f2 →
  gives (bind m1 (λ _, m2)) (k1 + k2) (λ outer ss loc, then_effect (f1 outer ss loc) (f2 outer)).
Proof.
  intros G1 G2 s s' ([] & s1 & Hm1 & Hm2)%bind_ok.
  destruct (G1 _ _ Hm1) as [E1 C1]. destruct (G2 _ _ Hm2) as [E2 C2].
  split; [by eapply emits_trans|by eapply computes_trans].
Qed.

Lemma computes_weaker s s' f g :
  (∀ outer ss loc, weaker (g outer ss loc) (f outer ss loc)) → computes s s' f → computes s s' g.
Proof.
  intros Hw Hc Hin h outer base loc ss fr R Hroom. eapply reaches_weaker; [apply Hw|]. by apply Hc.
Qed.

Lemma gives_weaker m k k' f g :
  gives m k f → k' = k → (∀ outer ss loc, weaker (g outer ss loc) (f outer ss loc)) → gives m k' g.
Proof.
  intros G -> Hw s s' Hm. destruct (G _ _ Hm) as [E C]. split; [done|]. by eapply computes_weaker.
Qed.

(** One instruction. *)
Definition acts (op : Op.t) (k : Z) (h : H) (f : MooStackFrame) (base loc : list Var)
    (r : effect) : Prop :=
  match r with
  | Leaves loc' ss' =>
      ∃ f', execute_op context features op h f = VmOk tt h f' ∧ kept f f' ∧ fr_pc f' = fr_pc f
            ∧ valstack f' = loc' ++ base ∧ represents (fr_env f') ss' ∧ placed table ss'
            ∧ Z.of_nat (length loc') = Z.of_nat (length loc) + k
  | Raises e ss' =>
      ∃ f', execute_op context features op h f = VmStop (PushError e) h f' ∧ kept f f'
            ∧ represents (fr_env f') ss'
  | Dies w => execute_op context features op h f = VmPanic w
  | Stuck => True
  end.

(** The frame an instruction starts in. *)
Definition started (s' : CodegenState) (base loc : list Var) (ss : Scopes) (f : MooStackFrame)
  : Prop :=
  fr_program f = p ∧ fr_pc_type f = PcMain ∧ fr_pc f = Z.of_nat (length (ops s'))
  ∧ valstack f = loc ++ base ∧ represents (fr_env f) ss ∧ placed table ss.

Lemma computes_op s s' op k (sem : code_effect) :
  emits k s s' → ops s' = ops s ++ [op] →
  (inside s s' → ∀ h f outer base loc ss,
     started s' base loc ss f → ready s outer base loc ss (Frame.set_pc (Z.of_nat (length (ops s))) f) →
     acts op k h f base loc (sem outer ss loc)) →
  computes s s' sem.
Proof.
  intros E Hops Hacts Hin h outer base loc ss f R Hroom.
  assert (main_vector p !! length (ops s) = Some op) as Hop.
  { eapply prefix_lookup_Some; [|apply Hin]. rewrite Hops, lookup_app_r by done.
    by rewrite Nat.sub_diag. }
  pose proof (step_at _ _ _ _ _ _ _ h R Hop) as Hstep.
  assert (length (ops s') = S (length (ops s))) as Hlen by (rewrite Hops, length_app; cbn; lia).
  rewrite <- Hlen in Hstep. set (f0 := Frame.set_pc _ f) in Hstep.
  specialize (Hacts Hin h f0 outer base loc ss).
  assert (kept f f0) as Hk0 by (by destruct f).
  pose proof R as [Rp Rm Rpc Rst Rc Rt Rs Re Rpl Rtb Rn].
  destruct E as [[_ _ _ T N M] _ J C S Tp].
  specialize (Hacts ltac:(by split_and!)).
  specialize (Hacts ltac:(split; try done)).
  destruct (sem outer ss loc) as [loc' ss'|e ss'|w|]; cbn in *; [| | |done].
  - destruct Hacts as (f' & Hex & Hk & Hpc & Hv & He & Hp & Hl). exists 1%nat, f'.
    split_and!; [lia|eapply executes_more; [by rewrite Hstep|apply executes_none]|by eapply kept_trans|].
    assert (fr_program f' = p ∧ fr_pc_type f' = PcMain) as [Hp1 Hp2] by (by rewrite Hk).
    split; try done; try congruence; [|by apply Tp|by rewrite S].
    rewrite C, Rc, !length_app. lia.
  - destruct Hacts as (f' & Hex & Hk & He). exists 1%nat, f'.
    split_and!; [lia|apply executes_stop; by rewrite Hstep|by eapply kept_trans|done].
  - exists 1%nat. split; [lia|]. apply executes_panic. by rewrite Hstep.
Qed.

Lemma acts_stack op k h f s' base loc ss loc' :
  started s' base loc ss f →
  execute_op context features op h f = VmOk tt h (Frame.set_valstack (loc' ++ base) f) →
  Z.of_nat (length loc') = Z.of_nat (length loc) + k →
  acts op k h f base loc (Leaves loc' ss).
Proof.
  intros (_ & _ & _ & _ & He & Hp) Hex Hl. eexists. split; [exact Hex|]. by split_and!.
Qed.

Lemma acts_error op k h f s' base loc ss e vs :
  started s' base loc ss f →
  execute_op context features op h f = VmStop (PushError e) h (Frame.set_valstack vs f) →
  acts op k h f base loc (Raises e ss).
Proof. intros (_ & _ & _ & _ & He & _) Hex. eexists. split; [exact Hex|]. by split_and!. Qed.

(** The same in every frame. *)
Definition always (op : Op.t) (k : Z) (sem : code_effect) : Prop :=
  ∀ s' h f outer base loc ss, started s' base loc ss f → acts op k h f base loc (sem outer ss loc).

Lemma emits_emit op s a s' :
  plain op → emit op s = CgOk a s' → emits 0 s s' ∧ ops s' = ops s ++ [op] ∧ jumps s' = jumps s.
Proof.
  intros Hp He. pose proof (emit_ok _ _ _ _ Hp He) as (Hl & Hj & Ho). split_and!; try done.
  eapply emits_like; try done. constructor; [apply Hp|constructor].
Qed.

Lemma emits_push_op op n s a s' :
  plain op → 0 ≤ n → bind (emit op) (λ _, push_stack n) s = CgOk a s' →
  emits n s s' ∧ ops s' = ops s ++ [op] ∧ jumps s' = jumps s.
Proof.
  intros Hp Hn (b & s1 & (E1 & O1 & J1)%emits_emit & (E2 & O2 & J2)%emits_push)%bind_ok; [|done..].
  split_and!; [|by rewrite O2|by rewrite J2]. rewrite <- (Z.add_0_l n). by eapply emits_trans.
Qed.

Lemma emits_pop_op op n s a s' :
  plain op → 0 ≤ n → bind (emit op) (λ _, pop_stack n) s = CgOk a s' →
  emits (- n) s s' ∧ ops s' = ops s ++ [op] ∧ jumps s' = jumps s.
Proof.
  intros Hp Hn (b & s1 & (E1 & O1 & J1)%emits_emit & (E2 & O2 & J2)%emits_pop)%bind_ok; [|done..].
  split_and!; [|by rewrite O2|by rewrite J2]. rewrite <- (Z.add_0_l (- n)).
  by eapply emits_trans.
Qed.

Lemma gives_op m op k sem :
  (∀ s a s', m s = CgOk a s' → emits k s s' ∧ ops s' = ops s ++ [op] ∧ jumps s' = jumps s) →
  always op k sem → gives m k sem.
Proof.
  intros Hm Hal s s' Hs. destruct (Hm _ _ _ Hs) as (E & O & _). split; [done|].
  eapply computes_op; try done. intros _ h f outer base loc ss Hst _. by eapply Hal.
Qed.

Lemma gives_emit op sem : plain op → always op 0 sem → gives (emit op) 0 sem.
Proof. intros. eapply gives_op; [|done]. intros s a s'. by apply emits_emit. Qed.

Lemma gives_push op n sem :
  plain op → 0 ≤ n → always op n sem → gives (bind (emit op) (λ _, push_stack n)) n sem.
Proof. intros. eapply gives_op; [|done]. intros s a s'. by apply emits_push_op. Qed.

Lemma gives_pop op n sem :
  plain op → 0 ≤ n → always op (- n) sem → gives (bind (emit op) (λ _, pop_stack n)) (- n) sem.
Proof. intros. eapply gives_op; [|done]. intros s a s'. by apply emits_pop_op. Qed.

(** ** Instructions on values *)

(** From the values on top, the second argument deepest. *)
Definition of_result (loc : list Var) (ss : Scopes) (r : result Var Error) : effect :=
  match r with Ok v => Leaves (v :: loc) ss | Err e => Raises e ss end.

Definition pushes (v : Var) : code_effect := λ _ ss loc, Leaves (v :: loc) ss.
Definition unary_effect (g : Var → result Var Error) : code_effect := λ _ ss loc,
  match loc with a :: loc => of_result loc ss (g a) | _ => Stuck end.
Definition binary_effect (g : Var → Var → result Var Error) : code_effect := λ _ ss loc,
  match loc with b :: a :: loc => of_result loc ss (g a b) | _ => Stuck end.
Definition ternary_effect (g : Var → Var → Var → result Var Error) : code_effect := λ _ ss loc,
  match loc with c :: b :: a :: loc => of_result loc ss (g a b c) | _ => Stuck end.

Lemma set_valstack_twice vs vs' f :
  Frame.set_valstack vs (Frame.set_valstack vs' f) = Frame.set_valstack vs f.
Proof. done. Qed.

Lemma valstack_eta f : Frame.set_valstack (valstack f) f = f.
Proof. by destruct f. Qed.

(** The result of an operation replaces the value on top. *)
Lemma on_top_runs r v vs h f :
  valstack f = v :: vs →
  on_top r h f = match r with
                 | Ok x => VmOk tt h (Frame.set_valstack (x :: vs) f)
                 | Err e => VmStop (PushError e) h (Frame.set_valstack vs f)
                 end.
Proof.
  intros Hv. destruct r as [x|e]; unfold on_top, pop_error, vpoke, vpop, does, runs, vbind, Frame.poke,
    Frame.pop; rewrite Hv; reflexivity.
Qed.

Lemma on_top_set r v vs h f :
  on_top r h (Frame.set_valstack (v :: vs) f) =
  match r with
  | Ok x => VmOk tt h (Frame.set_valstack (x :: vs) f)
  | Err e => VmStop (PushError e) h (Frame.set_valstack vs f)
  end.
Proof. by rewrite (on_top_runs r v vs). Qed.

Lemma always_push op v :
  (∀ h f, execute_op context features op h f = VmOk tt h (Frame.push v f)) →
  always op 1 (pushes v).
Proof.
  intros Hex s' h f outer base loc ss Hst. eapply acts_stack; [done| |cbn; lia].
  rewrite Hex. unfold Frame.push. destruct Hst as (_ & _ & _ & -> & _). done.
Qed.

(** Instructions on a frame whose values are known. *)
Lemma pop_set {A} (k : Var → VM H A) v vs h f :
  vbind vpop k h (Frame.set_valstack (v :: vs) f) = k v h (Frame.set_valstack vs f).
Proof. done. Qed.

Lemma peek_set {A} (k : Var → VM H A) v vs h f :
  vbind peek k h (Frame.set_valstack (v :: vs) f) = k v h (Frame.set_valstack (v :: vs) f).
Proof. done. Qed.

Lemma take_set {A} (k : Var → VM H A) v vs h f :
  vbind take_top k h (Frame.set_valstack (v :: vs) f) = k v h (Frame.set_valstack (VNone :: vs) f).
Proof. done. Qed.

Lemma pop_error_set {A} e v vs h f :
  @pop_error H A e h (Frame.set_valstack (v :: vs) f)
  = VmStop (PushError e) h (Frame.set_valstack vs f).
Proof. done. Qed.

Ltac run_values := rewrite ?pop_set, ?take_set, ?pop_set, ?take_set, ?peek_set, ?on_top_set.

Lemma acts_result op k h f s' base loc ss loc' r :
  started s' base loc ss f →
  (∀ f, execute_op context features op h (Frame.set_valstack (loc ++ base) f) =
    match r with
    | Ok x => VmOk tt h (Frame.set_valstack (x :: loc' ++ base) f)
    | Err e => VmStop (PushError e) h (Frame.set_valstack (loc' ++ base) f)
    end) →
  Z.of_nat (S (length loc')) = Z.of_nat (length loc) + k →
  acts op k h f base loc (of_result loc' ss r).
Proof.
  intros Hst Hex Hl. pose proof Hst as (_ & _ & _ & Hv & _).
  specialize (Hex f). rewrite <- Hv, valstack_eta in Hex.
  destruct r as [x|e]; cbn [of_result].
  - eapply acts_stack; [done|exact Hex|exact Hl].
  - by eapply acts_error.
Qed.

Lemma always_unary op g :
  (∀ h f, execute_op context features op h f = vbind peek (λ v, on_top (g v)) h f) →
  always op 0 (unary_effect g).
Proof.
  intros Hex s' h f outer base loc ss Hst. destruct loc as [|a loc]; [done|].
  eapply acts_result; [done| |cbn; lia]. intros f'. rewrite Hex. cbn [app]. by run_values.
Qed.

Lemma always_binary op g :
  (∀ h f, execute_op context features op h f =
          vbind vpop (λ rhs, vbind peek (λ lhs, on_top (g lhs rhs))) h f) →
  always op (-1) (binary_effect g).
Proof.
  intros Hex s' h f outer base loc ss Hst. destruct loc as [|b [|a loc]]; [done..|].
  eapply acts_result; [done| |cbn; lia]. intros f'. rewrite Hex. cbn [app]. by run_values.
Qed.

Lemma always_ternary op g :
  (∀ h f, execute_op context features op h f =
          vbind vpop (λ c, vbind vpop (λ b, vbind take_top (λ a, on_top (g a b c)))) h f) →
  always op (-2) (ternary_effect g).
Proof.
  intros Hex s' h f outer base loc ss Hst. destruct loc as [|c [|b [|a loc]]]; [done..|].
  eapply acts_result; [done| |cbn; lia]. intros f'. rewrite Hex. cbn [app]. by run_values.
Qed.

(** An operation that takes its left operand off the stack meanwhile. *)
Lemma always_append op g :
  (∀ h f, execute_op context features op h f =
          vbind vpop (λ tail, vbind take_top (λ l, on_top (g l tail))) h f) →
  always op (-1) (binary_effect g).
Proof.
  intros Hex s' h f outer base loc ss Hst. destruct loc as [|b [|a loc]]; [done..|].
  eapply acts_result; [done| |cbn; lia]. intros f'. rewrite Hex. cbn [app]. by run_values.
Qed.

Lemma binary_acts op : always (binary_opcode op) (-1) (binary_effect (binary features op)).
Proof.
  destruct op; try (apply always_binary; intros h f; reflexivity).
  all: apply always_binary; intros h f; cbn [binary_opcode execute_op];
    unfold binary_cmp_op, vbind; destruct (vpop h f) as [b h1 f1| |]; [|done..];
    destruct (peek h1 f1) as [a h2 f2| |]; [|done..]; cbn [binary]; unfold ordered;
    by destruct (compare a b).
Qed.

Lemma unary_acts op : always (unary_opcode op) 0 (unary_effect (unary features op)).
Proof. destruct op; apply always_unary; intros h f; reflexivity. Qed.

Lemma add_tail_acts : always Op.ListAddTail (-1) (binary_effect append_value).
Proof.
  apply always_append. intros h f. cbn [execute_op]. unfold vbind.
  destruct (vpop h f) as [b h1 f1| |]; [|done..]. destruct (take_top h1 f1) as [a h2 f2| |]; [|done..].
  unfold append_value. by destruct (negb (is_list_like a)).
Qed.

Lemma append_acts : always Op.ListAppend (-1) (binary_effect append_all).
Proof.
  apply always_append. intros h f. cbn [execute_op]. unfold vbind.
  destruct (vpop h f) as [b h1 f1| |]; [|done..]. destruct (take_top h1 f1) as [a h2 f2| |]; [|done..].
  unfold append_all. by destruct (negb (is_list_like a) || negb (is_sequence b)).
Qed.

Lemma insert_acts : always Op.MapInsert (-2) (ternary_effect (λ m k v, set_owned_vars m k v OneBased)).
Proof. by apply always_ternary. Qed.

Lemma first_acts splice :
  always (if splice : bool then Op.CheckListForSplice else Op.MakeSingletonList) 0
    (unary_effect (first_element splice)).
Proof.
  destruct splice; [|apply always_unary; intros h f; reflexivity].
  intros s' h f outer base loc ss Hst. destruct loc as [|a loc]; [done|].
  eapply acts_result; [done| |cbn; lia]. intros f'. cbn [app execute_op]. rewrite peek_set.
  unfold first_element. cbn [negb]. by destruct (is_sequence a).
Qed.

Lemma range_acts :
  always Op.RangeRef (-2) (λ _ ss loc,
    match loc with
    | c :: b :: a :: loc =>
        match VarOps.range a b c OneBased with
        | Some r => of_result loc ss r
        | None => Dies RangePanic
        end
    | _ => Stuck
    end).
Proof.
  intros s' h f outer base loc ss Hst. destruct loc as [|c [|b [|a loc]]]; [done..|].
  assert (∀ f, execute_op context features Op.RangeRef h (Frame.set_valstack (c :: b :: a :: loc ++ base) f) =
    match VarOps.range a b c OneBased with
    | Some r => on_top r h (Frame.set_valstack (a :: loc ++ base) f)
    | None => VmPanic RangePanic
    end) as Hex.
  { intros f'. cbn [execute_op]. run_values. unfold vbind, asks.
    by destruct (VarOps.range a b c OneBased). }
  destruct (VarOps.range a b c OneBased) as [r|].
  - eapply acts_result; [done| |cbn; lia]. intros f'. cbn [app]. rewrite Hex. by run_values.
  - destruct Hst as (_ & _ & _ & Hv & _). specialize (Hex f). cbn [acts].
    by rewrite <- (valstack_eta f), Hv.
Qed.

(** ** Variables *)

Lemma slot_scope n ss v :
  slot n ss = Some v → 0 ≤ name_offset n →
  ∃ sc, ss !! Z.to_nat (name_depth n) = Some sc ∧ sc !! Z.to_nat (name_offset n) = Some v
       ∧ 0 ≤ name_offset n < Z.of_nat (length sc).
Proof.
  unfold slot. intros Hs Ho. destruct (ss !! _) as [sc|]; [|done]. cbn in Hs. exists sc.
  pose proof (lookup_lt_Some _ _ _ Hs). split_and!; [done|done|lia|lia].
Qed.

Lemma scope0_values e ss sc j :
  represents e ss → ss !! 0%nat = Some sc → (j < length sc)%nat → env_values e !! j = sc !! j.
Proof.
  intros (-> & _) Hs Hj. apply (concat_lookup ss 0 sc j Hs Hj).
Qed.

Lemma get_env_value n v ss f :
  represents (fr_env f) ss → slot n ss = Some v → 0 ≤ name_depth n → 0 ≤ name_offset n →
  Frame.get_env n f = inl (value_of n v).
Proof.
  intros He Hv Hd Ho. destruct (slot_scope _ _ _ Hv Ho) as (s & Hs & Hsv & Hlt).
  unfold Frame.get_env, value_of. destruct (Z.eqb_spec (name_depth n) 0) as [Hz|Hne].
  - rewrite Hz in Hs. unfold Env.get_scope0, Env.get_index.
    rewrite (scope0_values _ _ _ _ He Hs), Hsv by lia. cbn. unfold assigned_value. by destruct v.
  - rewrite (represents_get _ _ _ _ _ He Hs), Hsv by lia. cbn. unfold assigned_value. by destruct v.
Qed.

Lemma set_variable_value n v ss f :
  represents (fr_env f) ss → is_Some (slot n ss) → 0 ≤ name_depth n → 0 ≤ name_offset n →
  ∃ e, Frame.set_variable n v f = inl (Frame.set_env e f) ∧ represents e (assigned n v ss).
Proof.
  intros He [x Hv] Hd Ho. destruct (slot_scope _ _ _ Hv Ho) as (s & Hs & Hsv & Hlt).
  destruct (represents_set _ _ _ _ _ v He Hs Hlt) as (e & Hset & Hr). exists e.
  unfold assigned. rewrite Hs. split; [|done]. unfold Frame.set_variable.
  destruct (Z.eqb_spec (name_depth n) 0) as [Hz|Hne]; [|by rewrite Hset].
  rewrite Hz in Hset, Hs. unfold Env.set in Hset. rewrite (represents_index _ _ _ _ _ He Hs) in Hset by lia.
  change (length (concat (take (Z.to_nat 0) ss)) + Z.to_nat (name_offset n))%nat
    with (Z.to_nat (name_offset n)) in Hset.
  unfold Env.set_scope0. by rewrite Hset.
Qed.

Lemma slot_assigned n m v ss : is_Some (slot n ss) → is_Some (slot n (assigned m v ss)).
Proof.
  unfold slot, assigned. destruct (ss !! Z.to_nat (name_depth m)) as [s|] eqn:Hs; [|done].
  destruct (decide (Z.to_nat (name_depth n) = Z.to_nat (name_depth m))) as [->|Hne].
  - rewrite Hs, list_lookup_insert_eq by (by eapply lookup_lt_Some). cbn.
    rewrite !lookup_lt_is_Some. by rewrite length_insert.
  - by rewrite list_lookup_insert_ne.
Qed.

Lemma placed_assigned n v ss : placed table ss → placed table (assigned n v ss).
Proof.
  intros Hp x m Hm. destruct (Hp x m Hm) as (? & ? & ?). split_and!; auto using slot_assigned.
Qed.

(** Code that evaluates. *)
Definition evaluates (m : Eval Var) (ss : Scopes) (loc : list Var) : effect :=
  match m ss with
  | Gives v ss => Leaves (v :: loc) ss
  | Fails e ss => Raises e ss
  | Panics w => Dies w
  end.

Notation names := (var_names p).

Definition push_name_op (n : Name) : Op.t :=
  match scope0_local_offset n with Some o => Op.PushScope0Local o | None => Op.Push n end.
Definition put_name_op (n : Name) : Op.t :=
  match scope0_local_offset n with Some o => Op.PutScope0Local o | None => Op.Put n end.

Lemma emit_push_name_op n : emit_push_name n = emit (push_name_op n).
Proof. unfold emit_push_name, push_name_op. by destruct (scope0_local_offset n). Qed.
Lemma emit_put_name_op n : emit_put_name n = emit (put_name_op n).
Proof. unfold emit_put_name, put_name_op. by destruct (scope0_local_offset n). Qed.

Lemma push_name_plain n : plain (push_name_op n).
Proof. unfold push_name_op. by destruct (scope0_local_offset n). Qed.
Lemma put_name_plain n : plain (put_name_op n).
Proof. unfold put_name_op. by destruct (scope0_local_offset n). Qed.

Lemma scope0_local_eq n o :
  scope0_local_offset n = Some o →
  name_depth n = 0 ∧ name_offset n = o ∧ Frame.parsing_default o = None.
Proof.
  unfold scope0_local_offset, Frame.parsing_default.
  destruct (Z.eqb_spec (name_depth n) 0); cbn; [|done].
  destruct (global_from_repr (name_offset n)) eqn:Hg; [done|]. intros [= <-]. by rewrite Hg.
Qed.

Lemma push_name_acts n v s' h f base loc ss :
  name_of table v = Some n → started s' base loc ss f →
  acts (push_name_op n) 1 h f base loc (evaluates (variable names n) ss loc).
Proof.
  intros Hn Hst. pose proof Hst as (Hp & _ & _ & Hv & He & Hpl).
  destruct (Hpl _ _ Hn) as (Hd & Ho & [x Hx]).
  pose proof (get_env_value _ _ _ _ He Hx Hd Ho) as Hget.
  assert (execute_op context features (push_name_op n) h f =
    match value_of n x with
    | Some v => VmOk tt h (Frame.push v f)
    | None => VmStop (PushError (not_found names n)) h f
    end) as Hex.
  { unfold push_name_op, not_found. destruct (scope0_local_offset n) as [o|] eqn:Hso.
    - apply scope0_local_eq in Hso as (Hz & <- & Hpd). cbn [execute_op]. unfold vbind, asks.
      unfold Frame.get_env in Hget. rewrite Hz in Hget. cbn in Hget.
      destruct (Env.get_scope0 _ _) as [ov|]; [|done]. cbn in *. rewrite Hpd in Hget.
      assert (value_of n x = ov) as -> by (destruct ov; congruence).
      destruct ov; [done|]. unfold program, reads, variable_not_found, push_error, stop.
      by rewrite Hp.
    - cbn [execute_op]. unfold vbind, asks. rewrite Hget. destruct (value_of n x); [done|].
      unfold program, reads, variable_not_found, push_error, stop. by rewrite Hp. }
  unfold evaluates, variable. rewrite Hx. destruct (value_of n x) as [y|].
  - eapply acts_stack; [done| |cbn; lia]. rewrite Hex. unfold Frame.push. by rewrite Hv.
  - eapply (acts_error _ _ _ _ _ _ _ _ _ (valstack f)); [done|]. by rewrite valstack_eta.
Qed.

Lemma put_name_acts n v s' h f base a loc ss :
  name_of table v = Some n → started s' base (a :: loc) ss f →
  acts (put_name_op n) 0 h f base (a :: loc) (evaluates (assign n a) ss loc).
Proof.
  intros Hn Hst. pose proof Hst as (Hp & _ & _ & Hv & He & Hpl).
  destruct (Hpl _ _ Hn) as (Hd & Ho & Hx).
  destruct (set_variable_value n a _ _ He Hx Hd Ho) as (e & Hset & Hr).
  assert (execute_op context features (put_name_op n) h f = VmOk tt h (Frame.set_env e f)) as Hex.
  { unfold put_name_op. destruct (scope0_local_offset n) as [o|] eqn:Hso.
    - apply scope0_local_eq in Hso as (Hz & <- & Hpd). cbn [execute_op].
      unfold vbind, peek, asks, Frame.peek_top, vset, does. rewrite Hv. cbn.
      unfold Frame.set_variable in *. rewrite Hz in Hset. cbn in *. by rewrite Hset.
    - cbn [execute_op]. unfold vbind, peek, asks, Frame.peek_top, vset, does. rewrite Hv. cbn.
      by rewrite Hset. }
  destruct Hx as [x Hx]. unfold evaluates, assign. rewrite Hx. eexists.
  split; [exact Hex|]. split_and!; try done; [by apply placed_assigned|..].
  all: cbn; lia.
Qed.

(** ** Operands *)

Lemma literal_found lv v :
  match v with VBool _ | VSym _ | VStr _ | VBinary _ => True | _ => False end →
  eq_case_sensitive lv v = true → lv = v.
Proof.
  destruct v as [|b| | | |y|t| | | | |b|]; try done; intros _;
    destruct lv as [|b'| | | |x|t'| | | | |b'|]; try done; cbn.
  - by intros ->%eqb_prop.
  - by intros ->%bool_decide_eq_true.
  - by intros ->%bool_decide_eq_true.
  - intros He. f_equal. revert b He. induction b' as [|z b' IH]; intros [|z2 b]; try done. cbn.
    intros [->%Z.eqb_eq Hb]%andb_prop. f_equal. by apply IH.
Qed.

(** What [on_operands] leaves alone. *)
Record only_operands (s s' : CodegenState) : Prop := {
  oo_emitter : emitter s' = emitter s;
  oo_stack : stack s' = stack s;
  oo_table : name_for_variable s' = name_for_variable s;
  oo_names : cg_var_names s' = cg_var_names s;
  oo_lits : lits s `prefix_of` lits s';
  oo_errs : errs s `prefix_of` errs s';
}.

Lemma emits_operands s s' : only_operands s s' → emits 0 s s' ∧ ops s' = ops s ∧ jumps s' = jumps s.
Proof.
  intros [E S T N L R]. split_and!; [|unfold ops; by rewrite E|unfold jumps; by rewrite E].
  assert (grows s s') as Hg.
  { split; unfold ops, top; rewrite ?E, ?S; try done. exists []. by rewrite app_nil_r. }
  split; unfold jumps, cur, saved, top; rewrite ?E, ?S; try done. lia.
Qed.

Lemma literal_ok v s l s' :
  match v with VBool _ | VSym _ | VStr _ | VBinary _ => True | _ => False end →
  on_operands (add_literal v) s = CgOk l s' →
  only_operands s s' ∧ ∃ i, lits s' !! i = Some v ∧ l = as_u16 (Z.of_nat i).
Proof.
  intros Hv. unfold on_operands, add_literal, lits.
  destruct (list_find _ _) as [[i lv]|] eqn:Hf; cbn; intros [= <- <-].
  - apply list_find_Some in Hf as (Hi & Heq & _). apply literal_found in Heq as ->; [|done].
    split; [by split|]. by exists i.
  - split; [split; try done; cbn; by apply prefix_app_r|]. exists (length (lits s)). cbn.
    by rewrite lookup_app_r, Nat.sub_diag by done.
Qed.

Lemma error_ok c s l s' :
  on_operands (add_error_code_operand c) s = CgOk l s' →
  only_operands s s' ∧ ∃ i, errs s' !! i = Some c ∧ l = as_u16 (Z.of_nat i).
Proof.
  intros [= <- <-]. split; [split; try done; by apply prefix_app_r|]. exists (length (errs s)).
  cbn. by rewrite lookup_app_r, Nat.sub_diag by done.
Qed.

Lemma as_u16_index i n : (i < n)%nat → Z.of_nat n ≤ 65536 → Z.to_nat (as_u16 (Z.of_nat i)) = i.
Proof. intros Hi Hn. unfold as_u16, wrap. rewrite Z.mod_small; lia. Qed.

Lemma at_index_u16 {A} (l l' : list A) i a :
  l `prefix_of` l' → Z.of_nat (length l') ≤ 65536 → l !! i = Some a →
  at_index l' (as_u16 (Z.of_nat i)) = Some a.
Proof.
  intros Hp Hl Hi. unfold at_index. pose proof (prefix_lookup_Some _ _ _ _ Hi Hp) as Hi'.
  rewrite (as_u16_index i (length l')); [done|by eapply lookup_lt_Some|done].
Qed.

(** A literal of the table, unless a [Pop] follows. *)
Lemma imm_acts s s' base loc ss f i v h :
  inside s s' → started s' base loc ss f → lits s' !! i = Some v →
  acts (Op.Imm (as_u16 (Z.of_nat i))) 1 h f base loc (Leaves (v :: loc) ss).
Proof.
  intros Hin Hst Hi. pose proof Hst as (Hp & Hm & Hpc & Hv & _).
  eapply acts_stack; [done| |cbn; lia]. cbn [execute_op].
  unfold vbind at 1, asks at 1, Frame.lookahead_ref, Frame.opcodes.
  rewrite Hm, Hp, Hpc, Nat2Z.id.
  assert (operand (λ q, find_literal q (as_u16 (Z.of_nat i))) h f = VmOk v h f) as Hop.
  { unfold operand, asks, find_literal. rewrite Hp.
    by rewrite (at_index_u16 (lits s') _ i v (in_lits _ _ Hin) (sm_lits _ Hsmall) Hi). }
  pose proof (in_next _ _ Hin) as Hnext.
  destruct (main_vector p !! length (ops s')) as [[]|]; try done;
    unfold vbind; rewrite Hop; unfold vpush, modify, Frame.push; by rewrite Hv.
Qed.

Lemma make_error_acts s s' base m loc ss f i c h :
  inside s s' → started s' base (m :: loc) ss f → errs s' !! i = Some c →
  acts (Op.MakeError (as_u16 (Z.of_nat i))) 0 h f base (m :: loc) (of_result loc ss (error_with c m)).
Proof.
  intros Hin Hst Hi. pose proof Hst as (Hp & Hm & Hpc & Hv & _).
  assert (∀ vs, operand (λ q, error_operand q (as_u16 (Z.of_nat i))) h (Frame.set_valstack vs f)
          = VmOk c h (Frame.set_valstack vs f)) as Hop.
  { intros vs. unfold operand, asks, error_operand. cbn. rewrite Hp.
    by rewrite (at_index_u16 (errs s') _ i c (in_errs _ _ Hin) (sm_errs _ Hsmall) Hi). }
  assert (execute_op context features (Op.MakeError (as_u16 (Z.of_nat i))) h f =
    match error_with c m with
    | Ok x => VmOk tt h (Frame.set_valstack (x :: loc ++ base) f)
    | Err e => VmStop (PushError e) h (Frame.set_valstack (loc ++ base) f)
    end) as Hex.
  { rewrite <- (valstack_eta f) at 1. rewrite Hv. cbn [app execute_op]. unfold vbind at 1.
    rewrite Hop, pop_set. by destruct m. }
  destruct (error_with c m); cbn [of_result].
  - eapply acts_stack; [done|exact Hex|cbn; lia].
  - by eapply acts_error.
Qed.

Lemma length_acts s s' outer base loc ss f i v h :
  started s' base loc ss f → ready s outer base loc ss (Frame.set_pc (Z.of_nat (length (ops s))) f) →
  saved s = Some i → outer = Some v →
  acts (Op.Length i) 1 h f base loc
    (of_result loc ss (match len v with Ok l => Ok (VInt l) | Err e => Err e end)).
Proof.
  intros Hst R Hs ->. pose proof (r_saved _ _ _ _ _ _ R) as Hr. rewrite Hs in Hr.
  pose proof Hst as (_ & _ & _ & Hv & _).
  assert (Frame.peek_abs i f = inl v) as Hpk.
  { unfold Frame.peek_abs. rewrite Hv, rev_app_distr.
    by rewrite (lookup_app_l_Some _ _ _ _ Hr). }
  assert (execute_op context features (Op.Length i) h f =
    match len v with
    | Ok l => VmOk tt h (Frame.push (VInt l) f)
    | Err e => VmStop (PushError e) h f
    end) as Hex.
  { cbn [execute_op]. unfold vbind, asks. rewrite Hpk. by destruct (len v). }
  destruct (len v); cbn [of_result].
  - eapply acts_stack; [done| |cbn; lia]. rewrite Hex. unfold Frame.push. by rewrite Hv.
  - eapply (acts_error _ _ _ _ _ _ _ _ _ (valstack f)); [done|]. by rewrite valstack_eta.
Qed.

(** ** The value that [$] measures *)

Lemma gives_eq m m' k sem : (∀ s, m s = m' s) → gives m' k sem → gives m k sem.
Proof. intros He G s s' Hm. apply G. by rewrite <- He. Qed.

Definition above (loc : list Var) (r : effect) : effect :=
  match r with Leaves loc' ss => Leaves (loc' ++ loc) ss | r => r end.

Lemma save_ok s old s' :
  save_stack_top s = CgOk old s' →
  old = saved s ∧ grows s s' ∧ ops s' = ops s ∧ jumps s' = jumps s ∧ cur s' = cur s
  ∧ top s' = top s ∧ saved s' = Some (as_u16 (cur s - 1)).
Proof.
  intros [= <- <-]. split_and!; try done. split; try done. exists []. by rewrite app_nil_r.
Qed.

Lemma restore_ok old s a s' :
  restore_stack_top old s = CgOk a s' →
  grows s s' ∧ ops s' = ops s ∧ jumps s' = jumps s ∧ cur s' = cur s
  ∧ top s' = top s ∧ saved s' = old.
Proof.
  intros [= _ <-]. split_and!; try done. split; try done. exists []. by rewrite app_nil_r.
Qed.

(** Under the saved value nothing is below but values that stay. *)
Lemma ready_saved s s1 outer base a loc ss f :
  ready s outer base (a :: loc) ss f → grows s s1 → ops s1 = ops s → cur s1 = cur s →
  top s1 = top s → top s ≤ 65536 → saved s1 = Some (as_u16 (cur s - 1)) →
  ready s1 (Some a) (a :: loc ++ base) [] ss f.
Proof.
  intros [Rp Rm Rpc Rst Rc Rt Rs Re Rpl Rtb Rn] [_ _ _ T N _] Ho Hc Ht Hmax Hs.
  split; try done; try congruence; [by rewrite Hc, Rc|].
  rewrite Hs. cbn [app length] in Rc. rewrite Rc in *.
  replace (Z.of_nat (S (length (loc ++ base))) - 1) with (Z.of_nat (length (loc ++ base))) by lia.
  rewrite (as_u16_index _ (S (length (loc ++ base)))) by lia.
  cbn [rev]. by rewrite lookup_app_r, length_rev, Nat.sub_diag by (rewrite length_rev; lia).
Qed.

Lemma gives_saved m rest k k2 f g :
  0 ≤ k → gives m k f → gives rest k2 g →
  gives (bind save_stack_top (λ old, bind m (λ _, bind (restore_stack_top old) (λ _, rest)))) (k + k2)
    (λ outer ss loc,
       match loc with
       | a :: _ => then_effect (above loc (f (Some a) ss [])) (g outer)
       | [] => Stuck
       end).
Proof.
  intros Hk Gm Gr s s'.
  intros (old & s1 & (-> & G1 & O1 & J1 & C1 & T1 & S1)%save_ok &
          ([] & s2 & Hm & (u & s3 & (G3 & O3 & J3 & C3 & T3 & S3)%restore_ok & Hr)%bind_ok)%bind_ok)%bind_ok.
  destruct (Gm _ _ Hm) as [[G2 N2 J2 C2 S2 T2] Cm]. destruct (Gr _ _ Hr) as [Er Cr].
  assert (emits k s s3) as E3.
  { split; [|by rewrite J3, <- J1..|lia|done|lia].
    eapply grows_trans; [done|]. by eapply grows_trans. }
  split; [by eapply emits_trans|].
  intros Hin h outer base [|a loc] ss fr R Hroom; [done|].
  pose proof (emits_length _ _ _ E3). pose proof (emits_length _ _ _ Er).
  pose proof (inside_left _ _ _ _ Hin Er) as Hin3.
  eapply reaches_bound; [|eapply reaches_then].
  - instantiate (1 := (length (ops s') - length (ops s3))%nat).
    instantiate (1 := (length (ops s3) - length (ops s))%nat). lia.
  - instantiate (1 := s3).
    assert (inside s1 s2) as Hin2.
    { eapply inside_part; [exact Hin3|done|by rewrite J1|by rewrite J3|]. intros i _. by rewrite J3. }
    pose proof (in_top _ _ Hin2) as Ht. pose proof (g_top _ _ G2).
    assert (ready s1 (Some a) (a :: loc ++ base) [] ss fr) as R1.
    { eapply ready_saved; try done. lia. }
    specialize (Cm Hin2 h _ _ _ _ _ R1). rewrite O1 in Cm.
    rewrite <- O3 in Cm. specialize (Cm ltac:(eapply roomy_kept; [apply kept_refl|done|lia..])).
    destruct (f (Some a) ss []) as [loc' ss'|e ss'|w|]; cbn [above reaches] in *; try done.
    destruct Cm as (x & f' & Hx & Hex & Hkept & R2). exists x, f'. split_and!; try done.
    destruct R as [Rp Rm Rpc Rst Rc Rt Rs Re Rpl Rtb Rn].
    destruct R2 as [Rp2 Rm2 Rpc2 Rst2 Rc2 Rt2 Rs2 Re2 Rpl2 Rtb2 Rn2].
    destruct G3 as [_ _ _ GT GN _].
    split; try done; try congruence; [by rewrite Rst2, <- app_assoc|by rewrite C3, Rc2, <- app_assoc|by rewrite S3].
  - intros f' loc' ss' Hkept R3. apply Cr; [by eapply inside_right|done|].
    eapply roomy_kept; [done|done|lia..].
Qed.

(** ** Branches *)

(** A frame that stands elsewhere in the code. *)
Definition ctx s := (cg_var_names s, name_for_variable s, saved s).

Lemma emits_ctx k s s1 : emits k s s1 → ctx s1 = ctx s.
Proof. intros [[_ _ _ T N _] _ _ _ S _]. unfold ctx. congruence. Qed.

Lemma ready_elsewhere s s1 outer base loc loc' ss f pc :
  ready s outer base loc ss f → ctx s1 = ctx s → cur s1 ≤ top s1 →
  cur s1 = Z.of_nat (length (loc' ++ base)) → pc = Z.of_nat (length (ops s1)) →
  ready s1 outer base loc' ss (Frame.set_pc pc (Frame.set_valstack (loc' ++ base) f)).
Proof.
  intros [Rp Rm Rpc Rst Rc Rt Rs Re Rpl Rtb Rn] [= Hn Ht Hs] Htop Hc Hpc.
  split; try done; try congruence. by rewrite Hs.
Qed.

Lemma kept_moved pc vs f : kept f (Frame.set_pc pc (Frame.set_valstack vs f)).
Proof. by destruct f. Qed.

Lemma reaches_like h f n s1 s' outer base r :
  like s1 s' → ops s' = ops s1 → reaches h f n s1 outer base r → reaches h f n s' outer base r.
Proof.
  intros [_ LT LN LS] Ho. destruct r as [loc ss|e ss|w|]; try done.
  intros (x & f' & Hx & Hr & Hk & [Rp Rm Rpc Rst Rc Rt Rs Re Rpl Rtb Rn]).
  exists x, f'. split_and!; try done.
  split; unfold cur, top, saved in *; rewrite ?LS, ?Ho; try done; congruence.
Qed.

(** A label that the program has where it was committed. *)
Definition labelled (l : Label) (pos : nat) : Prop :=
  ∃ j, jump_labels p !! Z.to_nat l = Some j ∧ jl_position j = Z.of_nat pos.

Lemma labelled_in s s' i j pos :
  inside s s' → (length (jumps s) ≤ i)%nat → jumps s' !! i = Some j →
  jl_position j = as_u16 (Z.of_nat pos) → (pos ≤ length (ops s'))%nat →
  labelled (as_u16 (Z.of_nat i)) pos.
Proof.
  intros Hin Hi Hj Hpos Hle. pose proof (lookup_lt_Some _ _ _ Hj) as Hlt.
  pose proof (in_jumps _ _ Hin i ltac:(lia)) as Hp. rewrite Hj in Hp.
  pose proof (lookup_lt_Some _ _ _ Hp) as Hlp. exists j.
  rewrite (as_u16_index i _ Hlp (sm_jumps _ Hsmall)). split; [done|]. rewrite Hpos.
  pose proof (prefix_length _ _ (in_ops _ _ Hin)). pose proof (sm_ops _ Hsmall).
  unfold as_u16, wrap. rewrite Z.mod_small; lia.
Qed.

Lemma label_index s s' i j :
  inside s s' → (length (jumps s) ≤ i)%nat → jumps s' !! i = Some j →
  Z.to_nat (as_u16 (Z.of_nat i)) = i.
Proof.
  intros Hin Hi Hj. pose proof (lookup_lt_Some _ _ _ Hj) as Hlt.
  pose proof (in_jumps _ _ Hin i ltac:(lia)) as Hp. rewrite Hj in Hp.
  apply (as_u16_index i (length (jump_labels p))); [by eapply lookup_lt_Some|apply Hsmall].
Qed.

Lemma jump_labelled f lo hi l pos :
  fr_program f = p → labelled l pos → roomy f lo hi → (lo ≤ pos ≤ hi)%nat →
  Frame.jump l f = inl (Frame.set_pc (Z.of_nat pos) f).
Proof. intros Hp (j & Hj & Hpos) Hr Hle. by eapply jump_at. Qed.

(** [l && r] and [l || r]: the code of [r] is skipped unless [go] of the first value. *)
Definition short_circuit (gen_l gen_r : CG unit) (op : Label → Op.t) : CG unit :=
  bind gen_l (λ _, bind (make_jump_label None) (λ l,
    bind (emit (op l)) (λ _, bind (pop_stack 1) (λ _,
      bind gen_r (λ _, commit_jump_label l))))).

Definition short_effect (go : Var → bool) (f g : code_effect) : code_effect := λ outer ss loc,
  then_effect (f outer ss loc) (λ ss loc,
    match loc with
    | a :: loc => if go a then g outer ss loc else Leaves (a :: loc) ss
    | [] => Stuck
    end).

Record short_states (s s1 s3 s4 s' : CodegenState) (op : Label → Op.t) : Prop := {
  ss_left : emits 1 s s1;
  ss_test : ops s3 = ops s1 ++ [op (as_u16 (Z.of_nat (length (jumps s1))))];
  ss_label : ∃ j, jumps s3 = jumps s1 ++ [j];
  ss_between : grows s1 s3 ∧ cur s3 = cur s1 - 1 ∧ saved s3 = saved s1 ∧ top s3 = top s1;
  ss_right : emits 1 s3 s4;
  ss_end : like s4 s' ∧ ops s' = ops s4;
  ss_commit : ∃ j,
    jumps s' = <[Z.to_nat (as_u16 (Z.of_nat (length (jumps s1)))) := j]> (jumps s4)
    ∧ jl_position j = as_u16 (Z.of_nat (length (ops s4)));
}.

Lemma grows_emit s s1 op :
  plain op → like s s1 → ops s1 = ops s ++ [op] → grows s s1.
Proof. intros Hop Hl Ho. eapply grows_like; [done|exact Ho|]. constructor; [apply Hop|done]. Qed.

Lemma grows_same s s1 : like s s1 → ops s1 = ops s → grows s s1.
Proof. intros Hl Ho. apply (grows_like s s1 []); [done|by rewrite app_nil_r|done]. Qed.

Lemma grows_pop n s a s1 : pop_stack n s = CgOk a s1 → grows s s1.
Proof.
  intros (He & Ho & Ht & Hn & Hc & Hm & Hs)%pop_ok.
  split; unfold ops, lits, errs; rewrite ?He, ?Ho; try done; [|lia].
  exists []. by rewrite app_nil_r.
Qed.

Lemma short_circuit_states gen_l gen_r op f g s s' :
  (∀ l, plain (op l)) → gives gen_l 1 f → gives gen_r 1 g →
  short_circuit gen_l gen_r op s = CgOk tt s' →
  ∃ s1 s3 s4, short_states s s1 s3 s4 s' op ∧ computes s s1 f ∧ computes s3 s4 g.
Proof.
  intros Hop Gl Gr ([] & s1 & Hl & (l & s2 & (L2 & O2 & -> & j & J2)%label_ok &
    (u & s2' & (L3 & J3 & O3)%emit_ok & (u' & s3 & Hp & ([] & s4 & Hr & Hc)%bind_ok)%bind_ok)%bind_ok)%bind_ok)%bind_ok;
    [|done].
  apply commit_ok in Hc as (Lc & Oc & jc & Jc & Hjc).
  destruct (Gl _ _ Hl) as [El Cl]. destruct (Gr _ _ Hr) as [Er Cr].
  exists s1, s3, s4. split; [|done].
  pose proof (grows_pop _ _ _ _ Hp) as Gp.
  apply pop_ok in Hp as (PE & _ & _ & _ & PC & PT & PS).
  pose proof (l_stack _ _ L2) as K2. pose proof (l_stack _ _ L3) as K3.
  split; try done.
  - unfold ops in *. by rewrite PE, O3, O2.
  - exists j. unfold jumps in *. by rewrite PE, J3.
  - unfold cur, saved, top in *. rewrite K3, K2 in *. split_and!; [|lia|done|done].
    eapply grows_trans; [by apply grows_same|]. eapply grows_trans; [|done].
    by eapply grows_emit.
  - by exists jc.
Qed.

Lemma prefix_insert {A} (l l' : list A) i x :
  l `prefix_of` l' → (length l ≤ i)%nat → l `prefix_of` <[i:=x]> l'.
Proof.
  intros [k ->] Hi. exists (<[(i - length l)%nat := x]> k). rewrite insert_app_r_alt by lia. done.
Qed.

(** Committing a label made on the way. *)
Lemma emits_commit k s0 s s' i j :
  emits k s0 s → like s s' → ops s' = ops s →
  jumps s' = <[Z.to_nat (as_u16 (Z.of_nat i)) := j]> (jumps s) →
  (length (jumps s0) ≤ i < length (jumps s))%nat → emits k s0 s'.
Proof.
  intros [G N J C S T] L O Hj Hi.
  assert (length (jumps s') = length (jumps s)) as Hn by (by rewrite Hj, length_insert).
  split; [eapply grows_trans; [done|by apply grows_same]|lia| |..];
    unfold cur, saved, top; rewrite ?(l_stack _ _ L); try done.
  rewrite Hn. intros Hs. rewrite Hj. apply prefix_insert; [by apply J|].
  rewrite (as_u16_index i (length (jumps s))); lia.
Qed.

Lemma emits_label s s' n : make_jump_label n s = CgOk (as_u16 (Z.of_nat (length (jumps s)))) s' →
  emits 0 s s' ∧ ops s' = ops s ∧ length (jumps s') = S (length (jumps s)).
Proof.
  intros (L & O & _ & j & J)%label_ok. split_and!; [|done|by rewrite J, length_app, Nat.add_comm].
  split; [by apply grows_same|rewrite J, length_app; lia|intros _; rewrite J; by apply prefix_app_r|..];
    unfold cur, saved, top; rewrite (l_stack _ _ L); auto. lia.
Qed.

Lemma short_states_emits s s1 s3 s4 s' op :
  short_states s s1 s3 s4 s' op → emits 1 s s'.
Proof.
  intros [El Ot [j Jt] (Gb & Cb & Sb & Tb) Er [Le Oe] (jc & Jc & _)].
  assert (emits (-1) s1 s3) as E3.
  { split; [done|rewrite Jt, length_app; lia|intros _; rewrite Jt; by apply prefix_app_r|lia|done|lia]. }
  pose proof (e_count _ _ _ El). pose proof (e_count _ _ _ Er) as Hn.
  rewrite Jt, length_app in Hn. cbn in Hn.
  eapply (emits_commit 1 s s4); [|done|done|exact Jc|lia].
  change 1 with (1 + (-1 + 1)). eapply emits_trans; [done|]. by eapply emits_trans.
Qed.

(** Where the parts are in the program. *)
Lemma short_parts s s1 s3 s4 s' op :
  short_states s s1 s3 s4 s' op → inside s s' →
  inside s s1 ∧ inside s3 s4
  ∧ labelled (as_u16 (Z.of_nat (length (jumps s1)))) (length (ops s'))
  ∧ main_vector p !! length (ops s1) = Some (op (as_u16 (Z.of_nat (length (jumps s1))))).
Proof.
  intros [El Ot [j Jt] (Gb & Cb & Sb & Tb) Er [Le Oe] (jc & Jc & Hjc)] Hin.
  pose proof (emits_length _ _ _ El). pose proof (emits_length _ _ _ Er).
  assert (length (ops s3) = S (length (ops s1))) as Ho3 by (rewrite Ot, length_app; cbn; lia).
  pose proof (e_count _ _ _ El) as Hn1. pose proof (e_count _ _ _ Er) as Hn4.
  assert (length (jumps s3) = S (length (jumps s1))) as Hn3
    by (rewrite Jt, length_app; cbn; lia).
  assert (length (jumps s') = length (jumps s4)) as Hn' by (by rewrite Jc, length_insert).
  pose proof (in_count _ _ Hin) as Hcount.
  assert (Z.to_nat (as_u16 (Z.of_nat (length (jumps s1)))) = length (jumps s1)) as Hl
    by (apply (as_u16_index _ (length (jumps s'))); lia).
  rewrite Hl in Jc.
  pose proof (e_jumps _ _ _ Er ltac:(lia)) as Hp4. split_and!.
  - eapply inside_part; [exact Hin| |lia|lia|].
    + eapply grows_trans; [done|]. eapply grows_trans; [apply Er|]. by apply grows_same.
    + intros i Hi. rewrite Jc, list_lookup_insert_ne by lia.
      destruct (lookup_lt_is_Some_2 (jumps s1) i) as [x Hx]; [lia|]. rewrite Hx.
      eapply (prefix_lookup_Some (jumps s3)); [|done]. rewrite Jt. by apply lookup_app_l_Some.
  - eapply inside_part; [exact Hin|by apply grows_same|lia|lia|]. intros i Hi.
    by rewrite Jc, list_lookup_insert_ne by lia.
  - eapply (labelled_in s s' _ jc); [done|lia| |by rewrite Oe|lia].
    rewrite Jc. apply list_lookup_insert_eq. lia.
  - eapply prefix_lookup_Some; [|apply Hin]. rewrite Oe.
    destruct (g_ops _ _ (e_grows _ _ _ Er)) as (new & -> & _). rewrite Ot.
    by rewrite <- app_assoc, lookup_app_r, Nat.sub_diag by done.
Qed.

Lemma frame_known a vs pc f :
  valstack f = a :: vs → Frame.set_pc pc f = Frame.set_valstack (a :: vs) (Frame.set_pc pc f).
Proof. destruct f. by intros [= ->]. Qed.

Lemma short_computes s s1 s3 s4 s' op (go : Var → bool) f g :
  (∀ l h fr, execute_op context features (op l) h fr =
     vbind peek (λ v, if go v then vbind vpop (λ _, vret tt) else vjump l) h fr) →
  short_states s s1 s3 s4 s' op → computes s s1 f → computes s3 s4 g →
  computes s s' (short_effect go f g).
Proof.
  intros Hex Hs Cl Cr Hin h outer base loc ss fr R Hroom.
  destruct (short_parts _ _ _ _ _ _ Hs Hin) as (Hin1 & Hin4 & Hlab & Hopat).
  destruct Hs as [El Ot _ (Gb & Cb & Sb & Tb) Er [Le Oe] _].
  pose proof (emits_length _ _ _ El). pose proof (emits_length _ _ _ Er).
  assert (length (ops s3) = S (length (ops s1))) as Ho3 by (rewrite Ot, length_app; cbn; lia).
  eapply (reaches_bound _ _ ((length (ops s1) - length (ops s)) + S (length (ops s4) - length (ops s3))));
    [rewrite Oe; lia|].
  eapply reaches_then.
  { eapply Cl; [done|done|]. eapply roomy_kept; [apply kept_refl|done|rewrite ?Oe; lia..]. }
  intros f1 [|a loc1] ss1 Hk1 R1; [done|].
  assert (roomy f1 (length (ops s1)) (length (ops s'))) as Hroom1
    by (eapply roomy_kept; [done|done|rewrite ?Oe; lia..]).
  pose proof (step_at _ _ _ _ _ _ _ h R1 Hopat) as Hstep. rewrite Hex in Hstep.
  pose proof (r_stack _ _ _ _ _ _ R1) as Rst. pose proof (r_cur _ _ _ _ _ _ R1) as Rc.
  pose proof (r_top _ _ _ _ _ _ R1) as Rt. cbn [app length] in Rst, Rc.
  rewrite (frame_known _ _ _ _ Rst), peek_set in Hstep. destruct (go a).
  - rewrite pop_set in Hstep. eapply reaches_step; [exact Hstep|by destruct f1|].
    apply (reaches_like _ _ _ s4); [done..|]. apply Cr; [done|..].
    + rewrite <- Ho3. destruct Gb as [_ _ _ GT GN _].
      eapply (ready_elsewhere s1 s3 _ _ (a :: loc1) loc1 _ f1); try done; [|lia..].
      unfold ctx. congruence.
    + eapply roomy_kept; [|exact Hroom1|rewrite ?Oe; lia..]. by destruct f1.
  - rewrite <- (frame_known _ _ _ _ Rst) in Hstep. unfold vjump, does in Hstep.
    rewrite (jump_labelled _ (length (ops s1)) (length (ops s')) _ (length (ops s'))) in Hstep;
      [|by apply (r_program _ _ _ _ _ _ R1)|done|by destruct f1|rewrite Oe; lia].
    eapply reaches_step; [exact Hstep|by destruct f1|]. apply reaches_here.
    pose proof (l_stack _ _ Le) as Ke. destruct Gb as [_ _ _ GT GN _].
    destruct Er as [[_ _ _ ET EN _] _ _ EC ES ETop]. destruct Le as [_ LT LN _].
    assert (cur s' = cur s4 ∧ saved s' = saved s4 ∧ top s' = top s4) as (K1 & K2 & K3)
      by (unfold cur, saved, top; by rewrite Ke).
    pose proof (ready_elsewhere s1 s' _ _ (a :: loc1) (a :: loc1) _ f1 (Z.of_nat (length (ops s'))) R1) as Hr.
    cbn [app] in Hr. rewrite <- Rst, valstack_eta in Hr. apply Hr;
      [unfold ctx; congruence|rewrite ?Rst; cbn [length]; lia..].
Qed.

(** [c ? t | f] *)
Definition conditional (gen_c gen_t gen_f : CG unit) : CG unit :=
  bind gen_c (λ _, bind (make_jump_label None) (λ l1,
    bind (emit (Op.IfQues l1)) (λ _, bind (pop_stack 1) (λ _,
      bind gen_t (λ _, bind (make_jump_label None) (λ l2,
        bind (emit (Op.Jump l2)) (λ _, bind (pop_stack 1) (λ _, bind (commit_jump_label l1) (λ _,
          bind gen_f (λ _, commit_jump_label l2)))))))))).

Definition cond_effect (c t f : code_effect) : code_effect := λ outer ss loc,
  then_effect (c outer ss loc) (λ ss loc,
    match loc with
    | a :: loc => if is_true a then t outer ss loc else f outer ss loc
    | [] => Stuck
    end).

(** From [s1] the test goes to [s3] or to [s7], the code of the consequence ends in
    [s4] with a jump to the end. *)
Record cond_states (s s1 s3 s4 s7 s8 s' : CodegenState) : Prop := {
  cs_cond : emits 1 s s1;
  cs_test : ops s3 = ops s1 ++ [Op.IfQues (as_u16 (Z.of_nat (length (jumps s1))))];
  cs_label : ∃ j, jumps s3 = jumps s1 ++ [j];
  cs_tested : grows s1 s3 ∧ cur s3 = cur s1 - 1 ∧ saved s3 = saved s1 ∧ top s3 = top s1;
  cs_then : emits 1 s3 s4;
  cs_leave : ops s7 = ops s4 ++ [Op.Jump (as_u16 (Z.of_nat (length (jumps s4))))];
  cs_labels : ∃ j1 j2,
    jumps s7 = <[Z.to_nat (as_u16 (Z.of_nat (length (jumps s1)))) := j1]> (jumps s4 ++ [j2])
    ∧ jl_position j1 = as_u16 (Z.of_nat (length (ops s7)));
  cs_left : grows s4 s7 ∧ cur s7 = cur s4 - 1 ∧ saved s7 = saved s4 ∧ top s7 = top s4;
  cs_else : emits 1 s7 s8;
  cs_end : like s8 s' ∧ ops s' = ops s8;
  cs_commit : ∃ j,
    jumps s' = <[Z.to_nat (as_u16 (Z.of_nat (length (jumps s4)))) := j]> (jumps s8)
    ∧ jl_position j = as_u16 (Z.of_nat (length (ops s8)));
}.

Lemma test_ok op s s2 s2' a s3 j :
  like s s2 → ops s2 = ops s → jumps s2 = jumps s ++ [j] →
  like s2 s2' → jumps s2' = jumps s2 → ops s2' = ops s2 ++ [op] → pop_stack 1 s2' = CgOk a s3 →
  plain op →
  ops s3 = ops s ++ [op] ∧ jumps s3 = jumps s ++ [j]
  ∧ grows s s3 ∧ cur s3 = cur s - 1 ∧ saved s3 = saved s ∧ top s3 = top s.
Proof.
  intros L2 O2 J2 L3 J3 O3 Hp Hop. pose proof (grows_pop _ _ _ _ Hp) as Gp.
  apply pop_ok in Hp as (PE & _ & _ & _ & PC & PT & PS).
  pose proof (l_stack _ _ L2) as K2. pose proof (l_stack _ _ L3) as K3. split_and!.
  - unfold ops in *. by rewrite PE, O3, O2.
  - unfold jumps in *. by rewrite PE, J3.
  - eapply grows_trans; [by apply grows_same|]. eapply grows_trans; [|done]. by eapply grows_emit.
  - unfold cur, saved, top in *. rewrite K3, K2 in *. lia.
  - rewrite PS. unfold saved. by rewrite K3, K2.
  - rewrite PT. unfold top. by rewrite K3, K2.
Qed.

Lemma conditional_states gen_c gen_t gen_f c t f s s' :
  gives gen_c 1 c → gives gen_t 1 t → gives gen_f 1 f → conditional gen_c gen_t gen_f s = CgOk tt s' →
  ∃ s1 s3 s4 s7 s8, cond_states s s1 s3 s4 s7 s8 s'
    ∧ computes s s1 c ∧ computes s3 s4 t ∧ computes s7 s8 f.
Proof.
  intros Gc Gt Gf ([] & s1 & Hc & (l & s2 & (L2 & O2 & -> & j & J2)%label_ok &
    (u & s2' & (L3 & J3 & O3)%emit_ok & (u' & s3 & Hp & ([] & s4 & Ht &
    (l2 & s5 & (L5 & O5 & -> & j2 & J5)%label_ok & (u2 & s5' & (L6 & J6 & O6)%emit_ok &
    (u2' & s6 & Hp6 & (u3 & s7 & H7 & ([] & s8 & Hf & H8)%bind_ok)%bind_ok)%bind_ok)%bind_ok)%bind_ok)%bind_ok)%bind_ok)%bind_ok)%bind_ok)%bind_ok;
    [|done..].
  destruct (test_ok _ _ _ _ _ _ _ L2 O2 J2 L3 J3 O3 Hp ltac:(done)) as (A1 & A2 & A3).
  destruct (test_ok _ _ _ _ _ _ _ L5 O5 J5 L6 J6 O6 Hp6 ltac:(done)) as (B1 & B2 & B3).
  apply commit_ok in H7 as (L7 & O7 & jc & J7 & Hjc).
  apply commit_ok in H8 as (L8 & O8 & je & J8 & Hje).
  destruct (Gc _ _ Hc) as [Ec Cc]. destruct (Gt _ _ Ht) as [Et Ct]. destruct (Gf _ _ Hf) as [Ef Cf].
  exists s1, s3, s4, s7, s8. split; [|done]. split; try done.
  - by exists j.
  - by rewrite O7, B1.
  - exists jc, j2. by rewrite J7, B2, Hjc, O7.
  - destruct B3 as (G & ? & ? & ?). pose proof (l_stack _ _ L7) as K7.
    unfold cur, saved, top in *. rewrite K7. split_and!; try done.
    eapply grows_trans; [done|by apply grows_same].
  - by exists je.
Qed.

Lemma cond_counts s s1 s3 s4 s7 s8 s' :
  cond_states s s1 s3 s4 s7 s8 s' →
  (length (jumps s) ≤ length (jumps s1))%nat ∧ length (jumps s3) = S (length (jumps s1))
  ∧ (length (jumps s3) ≤ length (jumps s4))%nat ∧ length (jumps s7) = S (length (jumps s4))
  ∧ (length (jumps s7) ≤ length (jumps s8))%nat ∧ length (jumps s') = length (jumps s8)
  ∧ (length (ops s) ≤ length (ops s1))%nat ∧ length (ops s3) = S (length (ops s1))
  ∧ (length (ops s3) ≤ length (ops s4))%nat ∧ length (ops s7) = S (length (ops s4))
  ∧ (length (ops s7) ≤ length (ops s8))%nat ∧ length (ops s') = length (ops s8).
Proof.
  intros [Ec Ot [j Jt] _ Et Ol (j1 & j2 & J7 & _) _ Ef [_ Oe] (je & Je & _)].
  rewrite Ot, Ol, Oe, Jt, J7, Je, !length_insert, !length_app. cbn [length].
  pose proof (e_count _ _ _ Ec). pose proof (e_count _ _ _ Et) as Hn.
  pose proof (e_count _ _ _ Ef) as Hn2. rewrite Jt, length_app in Hn.
  rewrite J7, length_insert, length_app in Hn2. cbn [length] in *.
  pose proof (emits_length _ _ _ Ec). pose proof (emits_length _ _ _ Et) as Hm.
  pose proof (emits_length _ _ _ Ef) as Hm2. rewrite Ot, length_app in Hm.
  rewrite Ol, length_app in Hm2. cbn [length] in *. lia.
Qed.

Lemma cond_emits s s1 s3 s4 s7 s8 s' : cond_states s s1 s3 s4 s7 s8 s' → emits 1 s s'.
Proof.
  intros Hs. pose proof (cond_counts _ _ _ _ _ _ _ Hs) as Hn.
  destruct Hs as [Ec Ot [j Jt] (Gb & Cb & Sb & Tb) Et Ol (j1 & j2 & J7 & _) (Gl & Cl & Sl & Tl) Ef
                  [Le Oe] (je & Je & _)].
  assert (emits (-1) s1 s3) as E3.
  { split; [done|lia|intros _; rewrite Jt; by apply prefix_app_r|lia|done|lia]. }
  assert (emits 1 s s4) as E4.
  { change 1 with (1 + (-1 + 1)). eapply emits_trans; [done|]. by eapply emits_trans. }
  assert (emits 0 s s7) as E7.
  { destruct E4 as [G4 N4 J4 C4 S4 T4].
    split; [by eapply grows_trans|lia| |lia|congruence|lia].
    intros Hc. rewrite J7. apply prefix_insert.
    - etrans; [apply J4; lia|by apply prefix_app_r].
    - rewrite (as_u16_index _ (length (jumps s7))); lia. }
  eapply (emits_commit 1 s s8); [|done|done|exact Je|lia].
  change 1 with (0 + 1). by eapply emits_trans.
Qed.

(** The labels between two states are those of the end. *)
Lemma cond_labels s s1 s3 s4 s7 s8 s' :
  cond_states s s1 s3 s4 s7 s8 s' → Z.of_nat (length (jumps s')) ≤ 65536 →
  (∀ i, (i < length (jumps s1))%nat → jumps s' !! i = jumps s1 !! i)
  ∧ (∀ i, (length (jumps s1) < i < length (jumps s4))%nat → jumps s' !! i = jumps s4 !! i)
  ∧ (∀ i, (length (jumps s4) < i)%nat → jumps s' !! i = jumps s8 !! i)
  ∧ (∃ j, jumps s' !! length (jumps s1) = Some j
          ∧ jl_position j = as_u16 (Z.of_nat (length (ops s7))))
  ∧ (∃ j, jumps s' !! length (jumps s4) = Some j
          ∧ jl_position j = as_u16 (Z.of_nat (length (ops s8)))).
Proof.
  intros Hs Hc. pose proof (cond_counts _ _ _ _ _ _ _ Hs) as Hn.
  destruct Hs as [Ec Ot [j Jt] _ Et Ol (j1 & j2 & J7 & P7) _ Ef [Le Oe] (je & Je & Pe)].
  rewrite (as_u16_index _ (length (jumps s'))) in J7 by lia.
  rewrite (as_u16_index _ (length (jumps s'))) in Je by lia.
  pose proof (e_jumps _ _ _ Et ltac:(lia)) as Pt. pose proof (e_jumps _ _ _ Ef ltac:(lia)) as Pf.
  assert (∀ i x, (i < length (jumps s4))%nat → i ≠ length (jumps s1) →
            jumps s4 !! i = Some x → jumps s' !! i = Some x) as Hold.
  { intros i x Hi Hne Hx. rewrite Je, list_lookup_insert_ne by lia.
    eapply (prefix_lookup_Some (jumps s7)); [|done]. rewrite J7, list_lookup_insert_ne by lia.
    by apply lookup_app_l_Some. }
  split_and!.
  - intros i Hi. destruct (lookup_lt_is_Some_2 (jumps s1) i) as [x Hx]; [lia|]. rewrite Hx.
    apply Hold; [lia|lia|]. eapply (prefix_lookup_Some (jumps s3)); [|done]. rewrite Jt.
    by apply lookup_app_l_Some.
  - intros i Hi. destruct (lookup_lt_is_Some_2 (jumps s4) i) as [x Hx]; [lia|]. rewrite Hx.
    apply Hold; [lia|lia|done].
  - intros i Hi. by rewrite Je, list_lookup_insert_ne by lia.
  - exists j1. split; [|done]. rewrite Je, list_lookup_insert_ne by lia.
    eapply (prefix_lookup_Some (jumps s7)); [|done]. rewrite J7. apply list_lookup_insert_eq.
    rewrite length_app. cbn. lia.
  - exists je. split; [|done]. rewrite Je. apply list_lookup_insert_eq. lia.
Qed.

Lemma cond_parts s s1 s3 s4 s7 s8 s' :
  cond_states s s1 s3 s4 s7 s8 s' → inside s s' →
  inside s s1 ∧ inside s3 s4 ∧ inside s7 s8
  ∧ labelled (as_u16 (Z.of_nat (length (jumps s1)))) (length (ops s7))
  ∧ labelled (as_u16 (Z.of_nat (length (jumps s4)))) (length (ops s'))
  ∧ main_vector p !! length (ops s1) = Some (Op.IfQues (as_u16 (Z.of_nat (length (jumps s1)))))
  ∧ main_vector p !! length (ops s4) = Some (Op.Jump (as_u16 (Z.of_nat (length (jumps s4))))).
Proof.
  intros Hs Hin. pose proof (cond_counts _ _ _ _ _ _ _ Hs) as Hn.
  destruct (cond_labels _ _ _ _ _ _ _ Hs (in_count _ _ Hin)) as (A1 & A2 & A3 & (x & X1 & X2) & (y & Y1 & Y2)).
  destruct Hs as [Ec Ot _ (Gb & _) Et Ol _ (Gl & _) Ef [Le Oe] _].
  assert (grows s7 s') as G7 by (eapply grows_trans; [apply Ef|by apply grows_same]).
  assert (grows s4 s') as G4 by (by eapply grows_trans).
  assert (∀ sx sy op, grows sx s' → ops sx = ops sy ++ [op] →
            main_vector p !! length (ops sy) = Some op) as Hops.
  { intros sx sy op Hg Ho. eapply prefix_lookup_Some; [|apply Hin].
    destruct (g_ops _ _ Hg) as (new & -> & _). rewrite Ho.
    by rewrite <- app_assoc, lookup_app_r, Nat.sub_diag by done. }
  assert (grows s3 s') as G3 by (eapply grows_trans; [apply Et|done]).
  split_and!.
  - eapply inside_part; [exact Hin| |lia|lia|].
    + by eapply grows_trans.
    + intros i Hi. apply A1. lia.
  - eapply inside_part; [exact Hin|done|lia|lia|]. intros i Hi. apply A2. lia.
  - eapply inside_part; [exact Hin|by apply grows_same|lia|lia|]. intros i Hi. apply A3. lia.
  - eapply (labelled_in s s' _ x); [done|lia|done|done|lia].
  - eapply (labelled_in s s' _ y); [done|lia|done|by rewrite Oe|lia].
  - by eapply Hops.
  - by eapply (Hops s7).
Qed.

(** Jumping to the code of [s2]. *)
Lemma jump_ready s1 s2 s' outer base loc loc' ss f h l lo :
  ready s1 outer base loc ss f → labelled l (length (ops s2)) →
  vm_step context features h f = vjump l h (Frame.set_valstack (loc' ++ base)
    (Frame.set_pc (Z.of_nat (S (length (ops s1)))) f)) →
  roomy f lo (length (ops s')) → (lo ≤ length (ops s2) ≤ length (ops s'))%nat →
  ctx s2 = ctx s1 → cur s2 ≤ top s2 → cur s2 = Z.of_nat (length (loc' ++ base)) →
  ∃ f', vm_step context features h f = VmOk tt h f' ∧ kept f f' ∧ ready s2 outer base loc' ss f'.
Proof.
  intros R Hlab Hstep Hroom Hle Hctx Htop Hc. unfold vjump, does in Hstep.
  rewrite (jump_labelled _ lo (length (ops s')) _ (length (ops s2))) in Hstep;
    [|by apply (r_program _ _ _ _ _ _ R)|done|by destruct f|done].
  eexists. split; [exact Hstep|]. split; [by destruct f|].
  by eapply (ready_elsewhere s1 s2 _ _ loc loc' _ f (Z.of_nat (length (ops s2))) R).
Qed.

Lemma cond_books s s1 s3 s4 s7 s8 s' :
  cond_states s s1 s3 s4 s7 s8 s' →
  ctx s3 = ctx s1 ∧ ctx s7 = ctx s1 ∧ ctx s' = ctx s4 ∧ cur s3 = cur s1 - 1
  ∧ cur s7 = cur s1 - 1 ∧ cur s' = cur s4 ∧ top s1 ≤ top s3 ∧ top s3 ≤ top s7.
Proof.
  intros [Ec Ot _ (Gb & Cb & Sb & Tb) Et Ol _ (Gl & Cl & Sl & Tl) Ef [Le Oe] _].
  pose proof (emits_ctx _ _ _ Et) as Kt. pose proof (emits_ctx _ _ _ Ef) as Kf.
  assert (ctx s3 = ctx s1) as K3 by (destruct Gb as [_ _ _ T N _]; unfold ctx; congruence).
  assert (ctx s7 = ctx s4) as K7 by (destruct Gl as [_ _ _ T N _]; unfold ctx; congruence).
  assert (ctx s' = ctx s8 ∧ cur s' = cur s8) as [K' C'].
  { destruct Le as [_ T N S]. unfold ctx, saved, cur. rewrite S. split; [congruence|done]. }
  pose proof (e_cur _ _ _ Et). pose proof (e_cur _ _ _ Ef).
  pose proof (g_top _ _ (e_grows _ _ _ Et)).
  split_and!; try congruence; lia.
Qed.

Lemma then_leaves r : r = then_effect r (λ ss loc, Leaves loc ss).
Proof. by destruct r. Qed.

(** The consequence and the alternative. *)
Lemma cond_then s s1 s3 s4 s7 s8 s' t h outer base a loc ss f :
  cond_states s s1 s3 s4 s7 s8 s' → inside s s' → computes s3 s4 t → cur s' ≤ top s' →
  ready s1 outer base (a :: loc) ss f → roomy f (length (ops s1)) (length (ops s')) →
  reaches h (Frame.set_valstack (loc ++ base) (Frame.set_pc (Z.of_nat (S (length (ops s1)))) f))
    (S (length (ops s4) - length (ops s3))) s' outer base (t outer ss loc).
Proof.
  intros Hs Hin Ct Htop R1 Hroom1.
  destruct (cond_parts _ _ _ _ _ _ _ Hs Hin) as (Hin1 & Hin4 & Hin8 & Hl1 & Hl2 & Hop1 & Hop2).
  pose proof (cond_counts _ _ _ _ _ _ _ Hs) as Hn.
  destruct (cond_books _ _ _ _ _ _ _ Hs) as (K3 & _ & K' & C3 & _ & C' & T3 & _).
  pose proof (r_cur _ _ _ _ _ _ R1) as Rc. pose proof (r_top _ _ _ _ _ _ R1) as Rt.
  cbn [app length] in Rc. set (f1 := Frame.set_valstack _ _).
  assert (ready s3 outer base loc ss f1) as R3.
  { unfold f1. assert (length (ops s3) = S (length (ops s1))) as <- by lia.
    eapply (ready_elsewhere s1 s3 _ _ (a :: loc) loc _ f); try done; lia. }
  assert (kept f f1) as Hk1 by (by destruct f).
  rewrite (then_leaves (t outer ss loc)).
  eapply (reaches_bound _ _ (length (ops s4) - length (ops s3) + 1)); [lia|]. eapply reaches_then.
  { apply Ct; [done|exact R3|]. by eapply roomy_kept; [|exact Hroom1|lia..]. }
  intros f2 loc2 ss2 Hk2 R4.
  pose proof (step_at _ _ _ _ _ _ _ h R4 Hop2) as Hstep2. cbn [execute_op] in Hstep2.
  assert (roomy f2 (length (ops s1)) (length (ops s'))) as Hroom2.
  { eapply roomy_kept; [|exact Hroom1|lia..]. by eapply kept_trans. }
  pose proof (r_cur _ _ _ _ _ _ R4) as Rc4.
  destruct (jump_ready s4 s' s' outer base loc2 loc2 ss2 f2 h _ (length (ops s1)) R4 Hl2)
    as (f3 & Hs3 & Hk3 & R5); try done; try lia.
  { rewrite Hstep2. f_equal. rewrite <- (r_stack _ _ _ _ _ _ R4). by destruct f2. }
  eapply reaches_step; [exact Hs3|done|]. by apply reaches_here.
Qed.

Lemma cond_else s s1 s3 s4 s7 s8 s' e h outer base a loc ss f :
  cond_states s s1 s3 s4 s7 s8 s' → inside s s' → computes s7 s8 e →
  ready s1 outer base (a :: loc) ss f → roomy f (length (ops s1)) (length (ops s')) →
  vm_step context features h f = vjump (as_u16 (Z.of_nat (length (jumps s1)))) h
    (Frame.set_valstack (loc ++ base) (Frame.set_pc (Z.of_nat (S (length (ops s1)))) f)) →
  reaches h f (S (length (ops s8) - length (ops s7))) s' outer base (e outer ss loc).
Proof.
  intros Hs Hin Ce R1 Hroom1 Hstep.
  destruct (cond_parts _ _ _ _ _ _ _ Hs Hin) as (_ & _ & Hin8 & Hl1 & _).
  pose proof (cond_counts _ _ _ _ _ _ _ Hs) as Hn.
  destruct (cond_books _ _ _ _ _ _ _ Hs) as (_ & K7 & _ & _ & C7 & _ & T3 & T7).
  pose proof (r_cur _ _ _ _ _ _ R1) as Rc. pose proof (r_top _ _ _ _ _ _ R1) as Rt.
  cbn [app length] in Rc.
  destruct (jump_ready s1 s7 s' outer base (a :: loc) loc ss f h _ (length (ops s1)) R1 Hl1)
    as (f3 & Hs3 & Hk3 & R7); try done; try lia.
  eapply reaches_step; [exact Hs3|done|].
  destruct (cs_end _ _ _ _ _ _ _ Hs) as [Le Oe].
  apply (reaches_like _ _ _ s8); [done..|]. apply Ce; [done|exact R7|].
  by eapply roomy_kept; [|exact Hroom1|lia..].
Qed.

Lemma cond_computes s s1 s3 s4 s7 s8 s' c t e :
  cond_states s s1 s3 s4 s7 s8 s' → computes s s1 c → computes s3 s4 t → computes s7 s8 e →
  computes s s' (cond_effect c t e).
Proof.
  intros Hs Cc Ct Ce Hin h outer base loc ss fr R Hroom.
  destruct (cond_parts _ _ _ _ _ _ _ Hs Hin) as (Hin1 & _ & _ & _ & _ & Hop1 & _).
  pose proof (cond_counts _ _ _ _ _ _ _ Hs) as Hn.
  pose proof (e_top _ _ _ (cond_emits _ _ _ _ _ _ _ Hs) (r_top _ _ _ _ _ _ R)) as Htop.
  eapply (reaches_bound _ _ ((length (ops s1) - length (ops s))
            + S (S (length (ops s4) - length (ops s3)) + (length (ops s8) - length (ops s7)))));
    [lia|].
  eapply reaches_then.
  { eapply Cc; [done|done|]. eapply roomy_kept; [apply kept_refl|done|lia..]. }
  intros f1 [|a loc1] ss1 Hk1 R1; [done|].
  assert (roomy f1 (length (ops s1)) (length (ops s'))) as Hroom1
    by (eapply roomy_kept; [done|done|lia..]).
  pose proof (step_at _ _ _ _ _ _ _ h R1 Hop1) as Hstep.
  pose proof (r_stack _ _ _ _ _ _ R1) as Rst. cbn [app] in Rst.
  cbn [execute_op] in Hstep. rewrite (frame_known _ _ _ _ Rst), pop_set in Hstep.
  destruct (is_true a).
  - eapply reaches_step; [exact Hstep|by destruct f1|].
    eapply (reaches_bound _ _ (S (length (ops s4) - length (ops s3)))); [lia|].
    by eapply cond_then.
  - eapply (reaches_bound _ _ (S (length (ops s8) - length (ops s7)))); [lia|].
    by eapply cond_else.
Qed.

Lemma gives_conditional gen_c gen_t gen_f c t e :
  gives gen_c 1 c → gives gen_t 1 t → gives gen_f 1 e →
  gives (conditional gen_c gen_t gen_f) 1 (cond_effect c t e).
Proof.
  intros Gc Gt Gf s s' Hm.
  destruct (conditional_states _ _ _ _ _ _ _ _ Gc Gt Gf Hm)
    as (s1 & s3 & s4 & s7 & s8 & Hs & Cc & Ct & Ce).
  split; [by eapply cond_emits|by eapply cond_computes].
Qed.

Lemma gives_short gen_l gen_r op (go : Var → bool) f g :
  (∀ l, plain (op l)) →
  (∀ l h fr, execute_op context features (op l) h fr =
     vbind peek (λ v, if go v then vbind vpop (λ _, vret tt) else vjump l) h fr) →
  gives gen_l 1 f → gives gen_r 1 g → gives (short_circuit gen_l gen_r op) 1 (short_effect go f g).
Proof.
  intros Hop Hex Gl Gr s s' Hm.
  destruct (short_circuit_states _ _ _ _ _ _ _ Hop Gl Gr Hm) as (s1 & s3 & s4 & Hs & Cl & Cr).
  split; [by eapply short_states_emits|by eapply short_computes].
Qed.

(** ** Expressions *)

Context {functions : Builtins}.
#[local] Open Scope cg_scope.

Definition expr_sem (m : option Var → Eval Var) : code_effect := λ outer ss loc,
  evaluates (m outer) ss loc.

(** Two effects agree: by cases on what each part gives. *)
Ltac agree :=
  intros outer ss loc; right;
  unfold short_effect, cond_effect, then_effect, expr_sem, evaluates, pushes, unary_effect,
    binary_effect, ternary_effect, above, of_result, or_fails, mbind, eval_bind, mret, eval_ret, fails;
  repeat first
    [ reflexivity
    | match goal with
      | |- context [match ?x with _ => _ end] =>
          lazymatch x with context [match _ with _ => _ end] => fail | _ => destruct x end;
          cbn [app]
      end ].

Lemma gives_ret : gives (ret tt) 0 (λ _ ss loc, Leaves loc ss).
Proof.
  intros s s' [= <-]. split.
  - split; try done; [apply grows_refl|lia].
  - intros _ h outer base loc ss f R _. by apply reaches_here.
Qed.

(** Code that is none. *)
Lemma gives_silent m :
  (∀ s a s', m s = CgOk a s' → emits 0 s s' ∧ ops s' = ops s) →
  gives m 0 (λ _ ss loc, Leaves loc ss).
Proof.
  intros Hm s s' Hs. destruct (Hm _ _ _ Hs) as [E O]. split; [done|].
  intros _ h outer base loc ss f [Rp Rm Rpc Rst Rc Rt Rs Re Rpl Rtb Rn] _. apply reaches_here.
  destruct E as [[_ _ _ T N _] _ _ C S Tp].
  split; try done; rewrite ?O, ?S; try done; try congruence; [lia|auto].
Qed.

Lemma bind_assoc {A B C} (m : CG A) (k : A → CG B) (k' : B → CG C) s :
  bind (bind m k) k' s = bind m (λ a, bind (k a) k') s.
Proof. unfold bind. by destruct (m s). Qed.

Lemma gives_assoc (m1 m2 m3 : CG unit) k sem :
  gives (bind m1 (λ _, bind m2 (λ _, m3))) k sem → gives (bind (bind m1 (λ _, m2)) (λ _, m3)) k sem.
Proof. apply gives_eq. intros s. apply bind_assoc. Qed.

Lemma find_ok v n s s' :
  find_name v s = CgOk n s' → s' = s ∧ name_of (name_for_variable s) v = Some n.
Proof.
  unfold find_name, bind, get, name_of. destruct (mjoin _) as [m|]; [|done]. by intros [= -> ->].
Qed.

Lemma gives_variable v :
  gives (bind (find_name v) (λ name, bind (emit_push_name name) (λ _, push_stack 1))) 1
    (expr_sem (λ _, named table v (variable names))).
Proof.
  intros s s' (n & s1 & [-> Hn]%find_ok & Hm)%bind_ok.
  rewrite emit_push_name_op in Hm.
  apply emits_push_op in Hm as (E & O & _); [|by apply push_name_plain|done].
  split; [done|]. eapply computes_op; [done..|].
  intros _ h f outer base loc ss Hst R. unfold expr_sem, named, evaluates.
  rewrite (r_table _ _ _ _ _ _ R) in Hn. rewrite Hn. by eapply push_name_acts.
Qed.

(** Storing the value on top, which stays. *)
Definition store_effect (v : Variable_) : code_effect := λ _ ss loc,
  match loc with
  | a :: loc => evaluates (named table v (λ n, assign n a)) ss loc
  | [] => Stuck
  end.

Lemma gives_store v : gives (bind (find_name v) emit_put_name) 0 (store_effect v).
Proof.
  intros s s' (n & s1 & [-> Hn]%find_ok & Hm)%bind_ok.
  rewrite emit_put_name_op in Hm.
  apply emits_emit in Hm as (E & O & _); [|by apply put_name_plain].
  split; [done|]. eapply computes_op; [done..|].
  intros _ h f outer base [|a loc] ss Hst R; [done|]. unfold store_effect, named, evaluates.
  rewrite (r_table _ _ _ _ _ _ R) in Hn. rewrite Hn. by eapply put_name_acts.
Qed.

Lemma finish_assign_variable v s :
  finish_assign (EId v) s = bind (find_name v) emit_put_name s.
Proof.
  unfold finish_assign, bind, ret. cbn [assign_stores]. unfold bind.
  destruct (find_name v s) as [n s1| |]; [|done..]. by destruct (emit_put_name n s1) as [[] s2| |].
Qed.

Lemma gives_literal v : literal v = true → gives (generate_value v) 1 (pushes v).
Proof.
  intros Hv.
  assert (∀ w, match w with VBool _ | VSym _ | VStr _ | VBinary _ => True | _ => False end →
    gives (bind (bind (on_operands (add_literal w)) (λ l, emit (Op.Imm l))) (λ _, push_stack 1)) 1
      (pushes w)) as Htable.
  { intros w Hw s s' (u & s2 & (l & s1 & Hl & He)%bind_ok & Hp)%bind_ok.
    apply (literal_ok _ _ _ _ Hw) in Hl as (Oo & i & Hi & ->).
    destruct (emits_operands _ _ Oo) as (E1 & O1 & J1).
    destruct (emits_push_op (Op.Imm (as_u16 (Z.of_nat i))) 1 s1 tt s') as (E2 & O2 & J2); [done..| |].
    { unfold bind. by rewrite He. }
    assert (lits s' !! i = Some w) as Hi'.
    { eapply prefix_lookup_Some; [exact Hi|]. apply E2. }
    split; [change 1 with (0 + 1); by eapply emits_trans|].
    eapply computes_op; [change 1 with (0 + 1); by eapply emits_trans|by rewrite O2, O1|].
    intros Hin h f outer base loc ss Hst _. by eapply imm_acts. }
  destruct v; try done; try (by apply Htable);
    unfold generate_value; apply gives_push; try done; try (by apply always_push).
  - by destruct (in_i32 i).
  - by destruct (in_i32 i); apply always_push.
Qed.

(** Evaluating and going on with the value. *)
Definition with_value (k : option Var → Var → Scopes → list Var → effect) : code_effect :=
  λ outer ss loc, match loc with v :: loc => k outer v ss loc | [] => Stuck end.

Lemma gives_bind m1 m2 k e1 e2 :
  gives m1 1 (expr_sem e1) → gives m2 k (with_value e2) →
  gives (bind m1 (λ _, m2)) (1 + k) (λ outer ss loc,
    match e1 outer ss with
    | Gives v ss => e2 outer v ss loc
    | Fails e ss => Raises e ss
    | Panics w => Dies w
    end).
Proof.
  intros G1 G2. eapply gives_weaker; [by eapply gives_then|done|]. agree.
Qed.

(** *** Lists and maps *)

Definition arg_gives (c : bool * CG unit) (a : bool * (option Var → Eval Var)) : Prop :=
  c.1 = a.1 ∧ gives c.2 1 (expr_sem a.2).

Definition at_outer (outer : option Var) (a : bool * (option Var → Eval Var)) : bool * Eval Var :=
  (a.1, a.2 outer).

Lemma gives_more cs args :
  Forall2 arg_gives cs args →
  gives (each (λ '((splice, gen) : bool * CG unit),
            gen;; emit (if splice then Op.ListAppend else Op.ListAddTail);; pop_stack 1) cs) 0
    (with_value (λ outer l, evaluates (more_elements l (map (at_outer outer) args)))).
Proof.
  intros Hargs. induction Hargs as [|[b gen] [b' m] cs args [Hb Hg] _ IH]; cbn [each map].
  { eapply gives_weaker; [apply gives_ret|done|]. intros outer ss [|v loc]; [by left|by right]. }
  cbn in Hb, Hg. subst b'. apply gives_assoc.
  eapply (gives_weaker _ (1 + (- (1) + 0))); [|done|].
  { eapply gives_then; [exact Hg|]. eapply gives_then; [|exact IH].
    apply gives_pop; [by destruct b|lia|].
    instantiate (1 := binary_effect (next_element b)). destruct b; [apply append_acts|apply add_tail_acts]. }
  intros outer ss [|l loc]; [by left|right]. cbn [more_elements at_outer fst snd].
  unfold then_effect, expr_sem, evaluates, binary_effect, with_value, mbind, eval_bind, or_fails.
  destruct (m outer ss) as [v ss1| |]; [|done..]. by destruct (next_element b l v).
Qed.

Lemma gives_args cs args :
  Forall2 arg_gives cs args →
  gives (arg_list cs) 1 (expr_sem (λ outer, list_elements (map (at_outer outer) args))).
Proof.
  intros [|[b gen] [b' m] cs' args' [Hb Hg] Hargs]; cbn [arg_list map].
  { eapply gives_weaker;
      [apply (gives_push Op.ImmEmptyList 1 (pushes (VList []))); [done|lia|by apply always_push]
      |done|agree]. }
  cbn in Hb, Hg. subst b'.
  eapply (gives_weaker _ (1 + (- 0 + 0))); [|done|].
  { eapply gives_then; [exact Hg|]. eapply gives_eq; [intros s; symmetry; apply bind_assoc|].
    eapply gives_then; [|by apply gives_more].
    apply gives_pop; [by destruct b|lia|]. apply first_acts. }
  intros outer ss loc. right. cbn [list_elements at_outer fst snd].
  unfold then_effect, expr_sem, evaluates, unary_effect, with_value, mbind, eval_bind, or_fails.
  destruct (m outer ss) as [v ss1| |]; [|done..]. by destruct (first_element b v).
Qed.

Definition entry_gives (c : CG unit * CG unit)
    (a : (option Var → Eval Var) * (option Var → Eval Var)) : Prop :=
  gives c.1 1 (expr_sem a.1) ∧ gives c.2 1 (expr_sem a.2).

Lemma gives_entries {A} (gen : A → CG unit * CG unit) l args :
  Forall2 (λ x a, entry_gives (gen x) a) l args →
  gives (each (λ x, (gen x).1;; (gen x).2;; emit Op.MapInsert;; pop_stack 2) l) 0
    (with_value (λ outer m, evaluates
       (entries m (map (λ a, (a.1 outer, a.2 outer)) args)))).
Proof.
  intros Hargs. induction Hargs as [|x [ek ev] l args [Hk Hv] _ IH]; cbn [each map].
  { eapply gives_weaker; [apply gives_ret|done|]. intros outer ss [|v loc]; [by left|by right]. }
  cbn in Hk, Hv. apply gives_assoc.
  eapply (gives_weaker _ (1 + (1 + (- 2 + 0)))); [|done|].
  { eapply gives_then; [exact Hk|]. apply gives_assoc. eapply gives_then; [exact Hv|].
    eapply gives_then; [|exact IH]. apply gives_pop; [done|lia|]. apply insert_acts. }
  intros outer ss [|m loc]; [by left|right]. cbn [entries fst snd].
  unfold then_effect, expr_sem, evaluates, ternary_effect, with_value, mbind, eval_bind, or_fails.
  destruct (ek outer ss) as [k ss1| |]; [|done..]. destruct (ev outer ss1) as [v ss2| |]; [|done..].
  by destruct (set_owned_vars m k v OneBased).
Qed.

(** *** The tree *)

Variable src : bool.
Notation gen := (generate_expr src).
Notation meaning := (λ e outer, eval features table names outer e).

Definition expr_gives (e : Expr) : Prop :=
  simple e = true → gives (gen e) 1 (expr_sem (meaning e)).

Lemma bind_ext {A B} (m : CG A) (k k' : A → CG B) s :
  (∀ a s, k a s = k' a s) → bind m k s = bind m k' s.
Proof. intros Hk. unfold bind. by destruct (m s). Qed.

Lemma each_same {A} (f g : A → CG unit) l s : (∀ a s, f a s = g a s) → each f l s = each g l s.
Proof.
  intros Hfg. revert s. induction l as [|a l IH]; intros s; [done|]. cbn [each]. unfold bind.
  rewrite Hfg. destruct (g a s); [apply IH|done..].
Qed.

Lemma error_gives c msg : expr_gives msg → expr_gives (EError c (Some msg)).
Proof.
  intros IH Hs. cbn [simple] in Hs. specialize (IH Hs). cbn [generate_expr].
  apply gives_assoc. eapply (gives_weaker _ (1 + 0)); [eapply gives_then; [exact IH|]|done|].
  - instantiate (1 := unary_effect (error_with c)).
    intros s s' ([] & s3 & ([] & s1 & Hp & (l & s2 & (Oo & i & Hi & ->)%error_ok & He)%bind_ok)%bind_ok
      & Hq)%bind_ok.
    apply emits_pop in Hp as (E1 & O1 & J1); [|done].
    destruct (emits_operands _ _ Oo) as (E2 & O2 & J2).
    apply emits_emit in He as (E3 & O3 & J3); [|done].
    apply emits_push in Hq as (E4 & O4 & J4); [|done].
    assert (emits 0 s s') as E.
    { change 0 with (- 1 + (0 + (0 + 1))). eapply emits_trans; [done|]. eapply emits_trans; [done|].
      by eapply emits_trans. }
    assert (errs s' !! i = Some c) as Hi'.
    { eapply prefix_lookup_Some; [exact Hi|]. etrans; [apply E3|apply E4]. }
    split; [done|]. eapply computes_op; [done|by rewrite O4, O3, O2, O1|].
    intros Hin h f outer base [|m loc] ss Hst _; [done|]. by eapply make_error_acts.
  - cbn [eval]. agree.
Qed.

Lemma length_gives : expr_gives ELength.
Proof.
  intros _ s s'. cbn [generate_expr].
  intros (o & s0 & [= <- <-] & Hm)%bind_ok. fold (saved s) in Hm.
  destruct (saved s) as [i|] eqn:Hsv.
  2: { apply bind_ok in Hm as ([] & s1 & Hr & _). apply bind_ok in Hr as (lc & s2 & _ & Hr). done. }
  apply (emits_push_op (Op.Length i)) in Hm as (E & O & _); [|done..].
  split; [done|]. eapply computes_op; [done..|].
  intros Hin h f outer base loc ss Hst R. pose proof (r_saved _ _ _ _ _ _ R) as Hr.
  rewrite Hsv in Hr. destruct outer as [v|]; [|done].
  unfold expr_sem, evaluates. cbn [eval]. unfold mbind, eval_bind, or_fails.
  pose proof (length_acts s s' (Some v) base loc ss f i v h Hst R Hsv eq_refl) as Hact.
  by destruct (len v).
Qed.

Lemma index_gives l r : expr_gives l → expr_gives r → expr_gives (EIndex l r).
Proof.
  intros IHl IHr Hs. cbn [simple] in Hs. apply andb_prop in Hs as [Hl Hr].
  specialize (IHl Hl). specialize (IHr Hr). cbn [generate_expr].
  eapply (gives_weaker _ (1 + (1 + - (1)))); [eapply gives_then; [exact IHl|]|done|].
  - eapply gives_saved; [done|exact IHr|]. apply gives_pop; [done|lia|].
    apply always_binary. intros h f. reflexivity.
  - cbn [eval]. agree.
Qed.

Lemma range_gives x y z : expr_gives x → expr_gives y → expr_gives z → expr_gives (ERange x y z).
Proof.
  intros IHx IHy IHz Hs. cbn [simple] in Hs. apply andb_prop in Hs as [[Hx Hy]%andb_prop Hz].
  specialize (IHx Hx). specialize (IHy Hy). specialize (IHz Hz). cbn [generate_expr].
  eapply (gives_weaker _ (1 + ((1 + 1) + - (2)))); [eapply gives_then; [exact IHx|]|done|].
  - eapply gives_eq.
    { intros s. instantiate (1 := bind save_stack_top (λ old, bind (gen y;; gen z) (λ _,
        bind (restore_stack_top old) (λ _, emit Op.RangeRef;; pop_stack 2)))).
      unfold bind. destruct (save_stack_top s) as [o s1| |]; [|done..].
      by destruct (gen y s1) as [[] s2| |]. }
    eapply gives_saved; [done|by eapply gives_then|]. apply gives_pop; [done|lia|]. apply range_acts.
  - cbn [eval]. intros outer ss loc. right.
    unfold then_effect, expr_sem, evaluates, above, of_result, mbind, eval_bind, range, or_fails, panics.
    destruct (eval features table names outer x ss) as [a ss1| |]; [|done..].
    destruct (eval features table names (Some a) y ss1) as [b ss2| |]; [|done..].
    destruct (eval features table names (Some a) z ss2) as [c ss3| |]; [|done..]. cbn [app].
    by destruct (VarOps.range a b c OneBased) as [[]|].
Qed.

Lemma binary_gives op l r : expr_gives l → expr_gives r → expr_gives (EBinary op l r).
Proof.
  intros IHl IHr Hs. cbn [simple] in Hs. apply andb_prop in Hs as [Hl Hr].
  cbn [generate_expr]. eapply (gives_weaker _ (1 + (1 + - (1)))); [|done|].
  - eapply gives_then; [by apply IHl|]. eapply gives_then; [by apply IHr|].
    apply gives_pop; [by destruct op|lia|]. apply binary_acts.
  - cbn [eval]. agree.
Qed.

Lemma unary_gives op e : expr_gives e → expr_gives (EUnary op e).
Proof.
  intros IH Hs. cbn [simple] in Hs. cbn [generate_expr].
  eapply (gives_weaker _ (1 + 0)); [|done|].
  - eapply gives_then; [by apply IH|]. apply gives_emit; [by destruct op|]. apply unary_acts.
  - cbn [eval]. agree.
Qed.

Lemma and_gives l r : expr_gives l → expr_gives r → expr_gives (EAnd l r).
Proof.
  intros IHl IHr Hs. cbn [simple] in Hs. apply andb_prop in Hs as [Hl Hr].
  cbn [generate_expr]. eapply gives_weaker;
    [apply (gives_short _ _ Op.And is_true); [done|done|by apply IHl|by apply IHr]|done|].
  cbn [eval]. agree.
Qed.

Lemma or_gives l r : expr_gives l → expr_gives r → expr_gives (EOr l r).
Proof.
  intros IHl IHr Hs. cbn [simple] in Hs. apply andb_prop in Hs as [Hl Hr].
  cbn [generate_expr]. eapply gives_weaker;
    [apply (gives_short _ _ Op.Or (λ v, negb (is_true v))); [done| |by apply IHl|by apply IHr]|done|].
  - intros lb h fr. cbn [execute_op]. unfold vbind. destruct (peek h fr) as [v h1 f1| |]; [|done..].
    by destruct (is_true v).
  - cbn [eval]. agree.
Qed.

Lemma cond_gives c t f : expr_gives c → expr_gives t → expr_gives f → expr_gives (ECond c t f).
Proof.
  intros IHc IHt IHf Hs. cbn [simple] in Hs. apply andb_prop in Hs as [[Hc Ht]%andb_prop Hf].
  cbn [generate_expr]. eapply gives_weaker;
    [apply (gives_conditional (gen c) (gen t) (gen f)); [by apply IHc|by apply IHt|by apply IHf]|done|].
  cbn [eval]. agree.
Qed.

Lemma list_gives args :
  Forall (λ a, match a with Normal e | Splice e => expr_gives e end) args → expr_gives (EList args).
Proof.
  intros IH Hs. cbn [simple] in Hs. cbn [generate_expr].
  set (mean := λ a : Arg Expr, match a with
                | Normal e => (false, meaning e) | Splice e => (true, meaning e) end).
  eapply gives_weaker; [apply (gives_args _ (map mean args))|done|].
  - induction IH as [|a args Ha _ IHa]; cbn [map]; constructor.
    + cbn [forallb] in Hs. apply andb_prop in Hs as [Hs _].
      destruct a; (split; [done|]; by apply Ha).
    + apply IHa. cbn [forallb] in Hs. by apply andb_prop in Hs as [_ Hs].
  - intros outer ss loc. right. unfold expr_sem. cbn [eval]. rewrite map_map. do 2 f_equal.
    apply map_ext. by intros [].
Qed.

Lemma map_gives m :
  Forall (λ kv, expr_gives kv.1 ∧ expr_gives kv.2) m → expr_gives (EMap m).
Proof.
  intros IH Hs. cbn [simple] in Hs. cbn [generate_expr].
  set (mean := λ kv : Expr * Expr, (meaning kv.1, meaning kv.2)).
  set (code := λ kv : Expr * Expr, (gen kv.1, gen kv.2)).
  eapply (gives_weaker _ (1 + 0)); [|done|].
  - eapply gives_eq.
    { intros s. instantiate (1 := (emit Op.MakeMap;; push_stack 1);;
        each (λ x, (code x).1;; (code x).2;; emit Op.MapInsert;; pop_stack 2) m).
      rewrite bind_assoc. apply bind_ext. intros [] s1. apply bind_ext. intros [] s2.
      apply each_same. by intros []. }
    eapply gives_then;
      [apply (gives_push Op.MakeMap 1 (pushes (VMap []))); [done|lia|by apply always_push]|].
    apply (gives_entries code m (map mean m)).
    induction IH as [|kv m [Hk Hv] _ IHm]; cbn [map]; constructor.
    + cbn [forallb] in Hs. apply andb_prop in Hs as [[Hs1 Hs2]%andb_prop _].
      split; [by apply Hk|by apply Hv].
    + apply IHm. cbn [forallb] in Hs. by apply andb_prop in Hs as [_ Hs].
  - intros outer ss loc. right. unfold then_effect, pushes, with_value, expr_sem. cbn [eval].
    by rewrite map_map.
Qed.

Lemma assign_gives v r : expr_gives r → expr_gives (EAssign (EId v) r).
Proof.
  intros IH Hs. cbn [simple] in Hs. cbn [generate_expr push_lvalue].
  eapply (gives_weaker _ (0 + (1 + 0))); [|done|].
  - eapply gives_then; [apply gives_ret|]. eapply gives_then; [by apply IH|].
    eapply gives_eq; [intros s; apply finish_assign_variable|]. apply gives_store.
  - cbn [eval]. unfold store_effect. agree.
Qed.

Lemma declare_silent k b : gives (declare_site k b) 0 (λ _ ss loc, Leaves loc ss).
Proof.
  apply gives_silent. intros s a s' [= _ <-]. split; [|done].
  split; try done; [|unfold cur; cbn; lia]. split; try done. exists []. by rewrite app_nil_r.
Qed.

Lemma decl_gives v c r :
  (∀ e, r = Some e → expr_gives e) → expr_gives (EDecl v c r).
Proof.
  intros IH Hs. cbn [simple] in Hs. cbn [generate_expr].
  assert (∀ m sem, gives m 1 sem → gives (m;; declare_site (if c then KConst else KLet)
      (bool_decide (is_Some r));; (let* name := find_name v in emit_put_name name)) 1
      (λ outer ss loc, then_effect (sem outer ss loc) (store_effect v outer))) as Hstore.
  { intros m sem Hm. eapply (gives_weaker _ (1 + (0 + 0))); [|done|].
    - eapply gives_then; [exact Hm|]. eapply gives_then; [apply declare_silent|]. apply gives_store.
    - intros outer ss loc. by right. }
  destruct r as [e|].
  - eapply gives_weaker; [apply Hstore, (IH e eq_refl Hs)|done|]. cbn [eval]. unfold store_effect.
    agree.
  - eapply gives_weaker; [apply Hstore, (gives_literal (VInt 0) eq_refl)|done|]. cbn [eval].
    unfold store_effect. agree.
Qed.

Lemma all_gives e : expr_gives e.
Proof.
  revert e. apply (Expr_mind expr_gives (λ _, True) (λ _, True)); try done.
  - intros l _ r IHr. destruct l; try done. by apply assign_gives.
  - intros t _. apply gives_push; [done|lia|]. by apply always_push.
  - intros v Hs. by apply gives_literal.
  - intros c msg IHm. destruct msg as [msg|].
    + apply error_gives. by apply (option_all_prop _ _ msg IHm).
    + intros _. apply gives_push; [done|lia|]. by apply always_push.
  - intros v _. apply gives_variable.
  - intros op l IHl r IHr. by apply binary_gives.
  - intros l IHl r IHr. by apply and_gives.
  - intros l IHl r IHr. by apply or_gives.
  - intros op x IHx. by apply unary_gives.
  - intros x IHx y IHy z IHz. by apply range_gives.
  - intros x IHx y IHy z IHz. by apply cond_gives.
  - intros l IHl r IHr. by apply index_gives.
  - intros args IHa. apply list_gives. eapply list_all_Forall; [|exact IHa]. intros a. apply Arg_all_elim.
  - intros m IHm. apply map_gives. eapply list_all_Forall; [|exact IHm]. intros kv. apply prod_all_both.
  - apply length_gives.
  - intros v c x IHx. apply decl_gives. intros e He. by eapply option_all_prop.
Qed.
End machine.
