(* ===== verification/ExprMain.v ===== *)
(** Results on compiled expressions. *)
From S2P Require Import Prelude Obj TxTypes Model Verbs Auth WorldState.
From S2P Require Import Float64 Opcodes Values ValueOrder Scalars Containers VarOps.
From S2P Require Import Ast Capture CodegenState Codegen CodegenProofs CodegenMain Environment Frame.
From S2P Require Import Machine Vm Eval ExprRun.
From stdpp Require Import base gmap list strings.

Open Scope Z_scope.

(** [return e;] *)
Definition returning (e : Expr) (line_col : Z * Z) (tree_line : Z) (ns : Names) : Parse :=
  mkParse [mkStmt (SExpr (EReturn (Some e))) line_col tree_line] ns.

(** A frame at the start of the program, its variables the scopes [ss], in which
    every name of the program has its slot. *)
Record starts (prg : PrgInner) (ns : Names) (ss : Scopes) (f : MooStackFrame) : Prop := {
  st_program : fr_program f = prg;
  st_main : fr_pc_type f = PcMain;
  st_pc : fr_pc f = 0;
  st_stack : valstack f = [];
  st_scopes : scope_stack f = [];
  st_env : represents (fr_env f) ss;
  st_placed : placed (name_table ns) ss;
}.

(** What the 16-bit positions, labels and slots of the code can reach. *)
Definition reachable (prg : PrgInner) : Prop := small prg ∧ main_max_stack prg ≤ 65536.

Section main.
Context {H : Type} `{!VmHost H}.
Context `{Text} `{Interner} `{Addresses} `{OrdMap} `{Printing} `{ErrorText} `{Libm}.
Context {functions : Builtins}.
Variable context : FrameExecutionContext.
Variable features : FeaturesConfig.

(** The code around the expression's. *)
Lemma returning_states e lc ln ns cu prg x :
  do_compile (returning e lc ln ns) cu = CgOk prg x →
  ∃ s0 s1, generate_expr false e s0 = CgOk tt s1
    ∧ ops s0 = [] ∧ cur s0 = 0 ∧ ExprRun.top s0 = 0 ∧ saved s0 = None
    ∧ name_for_variable s0 = name_table ns ∧ cg_var_names s0 = ns
    ∧ main_vector prg = ops s1 ++ [Op.Return; Op.Pop; Op.Done]
    ∧ jump_labels prg = jumps s1 ∧ literals prg = lits s1 ∧ error_operands prg = errs s1
    ∧ main_max_stack prg = ExprRun.top s1 ∧ var_names prg = cg_var_names s1.
Proof.
  unfold do_compile, returning. cbn [parse_stmts parse_names each].
  intros ([] & s5 & ([] & s4 & Hst & [= <-])%bind_ok & ([] & s6 & Hd & (s7 & s7' & [= <- <-] & Hr)%bind_ok)%bind_ok)%bind_ok.
  destruct (at_rest s6) eqn:Hrest; [|done]. injection Hr as <- <-.
  cbn [generate_stmt] in Hst.
  apply bind_ok in Hst as (em & s & [= <- <-] & Hst).
  apply bind_ok in Hst as (sp & s & [= <- <-] & Hst).
  apply bind_ok in Hst as ([] & s0 & [= <-] & Hst). cbn [generate_node] in Hst.
  apply bind_ok in Hst as ([] & s2 & Hret & Hst). cbn [generate_expr] in Hret.
  apply bind_ok in Hret as ([] & s1 & He & Hret).
  apply emit_ok in Hret as (L2 & J2 & O2); [|done].
  apply bind_ok in Hst as ([] & s3 & Hpop & Hst).
  assert (like s2 s3 ∧ jumps s3 = jumps s2 ∧ ops s3 = ops s2 ++ [Op.Pop]) as (L3 & J3 & O3).
  { unfold emit in Hpop. cbn [enters_scope exits_scope] in Hpop. injection Hpop as <-.
    unfold ops, jumps in *. cbn [emitter emitter_emit].
    destruct (has_label_at_current_pc _); [by split_and!|]. rewrite O2, last_snoc. by split_and!. }
  apply pop_ok in Hst as (PE & PO & PT & PN & PC & PM & PS).
  apply emit_ok in Hd as (L6 & J6 & O6); [|done].
  eexists _, s1. split; [exact He|]. split_and!; try done.
  - cbn [main_vector build_program]. fold (ops s6). rewrite O6. unfold ops at 1. rewrite PE.
    fold (ops s3). by rewrite O3, O2, <- !app_assoc.
  - cbn [jump_labels build_program]. fold (jumps s6). rewrite J6. unfold jumps at 1. rewrite PE.
    fold (jumps s3). by rewrite J3, J2.
  - cbn [literals build_program]. unfold lits.
    by rewrite (l_operands _ _ L6), PO, (l_operands _ _ L3), (l_operands _ _ L2).
  - cbn [error_operands build_program]. unfold errs.
    by rewrite (l_operands _ _ L6), PO, (l_operands _ _ L3), (l_operands _ _ L2).
  - cbn [main_max_stack build_program]. rewrite (l_stack _ _ L6). fold (ExprRun.top s4). rewrite PM.
    unfold ExprRun.top. by rewrite (l_stack _ _ L3), (l_stack _ _ L2).
  - cbn [var_names build_program].
    by rewrite (l_names _ _ L6), PN, (l_names _ _ L3), (l_names _ _ L2).
Qed.

Lemma starts_ready e s0 s1 prg ns ss f :
  ops s0 = [] → cur s0 = 0 → ExprRun.top s0 = 0 → saved s0 = None →
  name_for_variable s0 = name_table ns → cg_var_names s0 = var_names prg →
  generate_expr false e s0 = CgOk tt s1 → starts prg ns ss f →
  ready prg (name_table ns) s0 None [] [] ss f.
Proof.
  intros Ho Hc Ht Hs Hn Hv _ [Sp Sm Spc Sst Ssc Se Spl].
  split; try done; rewrite ?Ho, ?Hc, ?Ht, ?Hs; done.
Qed.

Lemma returning_inside s0 s1 prg :
  ops s0 = [] → main_vector prg = ops s1 ++ [Op.Return; Op.Pop; Op.Done] →
  jump_labels prg = jumps s1 → literals prg = lits s1 → error_operands prg = errs s1 →
  main_max_stack prg = ExprRun.top s1 → reachable prg → inside prg s0 s1.
Proof.
  intros Ho Hm Hj Hl He Ht [[_ Hsj _ _] Hst]. split.
  - rewrite Hm. by apply prefix_app_r.
  - by rewrite Hm, lookup_app_r, Nat.sub_diag by done.
  - intros i _. by rewrite Hj.
  - by rewrite Hl.
  - by rewrite He.
  - lia.
  - by rewrite <- Hj.
Qed.

(** A run that ends within the slice. *)
Lemma execute_ends (prg : PrgInner) n (h : H) f o slice ticks :
  executes context features n h f o → Frame.opcodes f = inl (main_vector prg) →
  main_vector prg ≠ [] → (n ≤ length (main_vector prg))%nat →
  Z.of_nat (length (main_vector prg)) ≤ slice → 0 ≤ ticks → ticks + slice < 2 ^ 64 →
  match o with VmOk _ _ _ => False | _ => True end →
  moo_frame_execute context features slice ticks h f =
  match o with
  | VmOk _ h' f' => SliceOk More ticks h' f'
  | VmStop r h' f' => SliceOk r (ticks + Z.of_nat n) h' f'
  | VmPanic w => SlicePanic w
  end.
Proof.
  intros Hex Hops Hne Hn Hs Ht Hmax Ho. unfold moo_frame_execute. rewrite Hops.
  destruct (main_vector prg) as [|op ops'] eqn:Hmv; [done|].
  rewrite Z.min_l by lia.
  replace (Z.to_nat (ticks + slice - ticks)) with (n + (Z.to_nat slice - n))%nat by lia.
  rewrite (executes_slice _ _ _ _ _ _ _ _ Hex). by destruct o.
Qed.

(** C5: Compiling [return e;] and running the program computes [e]: for every
    expression of literals, variables, operators, [&&], [||], conditionals,
    indexing and ranges with [$], lists with splices, maps, error values,
    assignments to and declarations of variables, the slice returns the
    expression's value, pushes its error or panics exactly where the evaluation on
    the tree does, with the variables it left, in no more ticks than the program
    has instructions; provided its tables are within reach of 16-bit offsets. *)
Theorem compiled_expression_computes (e : Expr) (line_col : Z * Z) (tree_line : Z) (ns : Names)
    (call_unsupported : bool) (prg : PrgInner) (generator : CodegenState)
    (f : MooStackFrame) (ss : Scopes) (h : H) (slice ticks : Z)
    (Hcompile : do_compile (returning e line_col tree_line ns) call_unsupported
                = CgOk prg generator)
    (He : simple e = true) (Hreach : reachable prg) (Hstart : starts prg ns ss f)
    (Hslice : Z.of_nat (length (main_vector prg)) ≤ slice)
    (Hticks : 0 ≤ ticks ∧ ticks + slice < 2 ^ 64) :
  let run := moo_frame_execute context features slice ticks h f in
  let within n := (1 ≤ n ≤ length (main_vector prg))%nat in
  match eval features (name_table ns) ns None e ss with
  | Gives v ss' => ∃ n f', run = SliceOk (ReturnValue v) (ticks + Z.of_nat n) h f'
                           ∧ within n ∧ represents (fr_env f') ss'
  | Fails err ss' => ∃ n f', run = SliceOk (PushError err) (ticks + Z.of_nat n) h f'
                             ∧ within n ∧ represents (fr_env f') ss'
  | Panics w => run = SlicePanic w
  end.
Proof.
  destruct (returning_states _ _ _ _ _ _ _ Hcompile) as (s0 & s1 & Hgen & O0 & C0 & T0 & S0 & N0 &
    V0 & Hmv & Hj & Hl & Her & Hmax & Hnames).
  pose proof (returning_inside _ _ _ O0 Hmv Hj Hl Her Hmax Hreach) as Hin.
  destruct (all_gives context features prg (proj1 Hreach) (name_table ns) false e He s0 s1 Hgen)
    as [E Hc].
  assert (var_names prg = ns) as Hns.
  { rewrite Hnames. rewrite (g_names _ _ (e_grows _ _ _ E)). done. }
  rewrite Hns in Hc.
  pose proof (starts_ready e s0 s1 prg ns ss f O0 C0 T0 S0 N0 ltac:(congruence) Hgen Hstart) as Hready.
  assert (roomy f (length (ops s0)) (length (ops s1))) as Hroom
    by (unfold roomy; by rewrite (st_scopes _ _ _ _ Hstart)).
  specialize (Hc Hin h None [] [] ss f Hready Hroom). rewrite O0 in Hc. cbn [length] in Hc.
  rewrite Nat.sub_0_r in Hc.
  assert (Frame.opcodes f = inl (main_vector prg)) as Hops.
  { unfold Frame.opcodes. by rewrite (st_main _ _ _ _ Hstart), (st_program _ _ _ _ Hstart). }
  assert (main_vector prg ≠ []) as Hne by (rewrite Hmv; by destruct (ops s1)).
  assert (length (main_vector prg) = length (ops s1) + 3)%nat as Hlen
    by (rewrite Hmv, length_app; done).
  cbv zeta. unfold expr_sem, evaluates in Hc.
  destruct (eval features (name_table ns) ns None e ss) as [v ss'|err ss'|w]; cbn [reaches] in Hc.
  - destruct Hc as (n & f1 & Hn & Hex & Hk & R1).
    assert (main_vector prg !! length (ops s1) = Some Op.Return) as Hret
      by (by rewrite Hmv, lookup_app_r, Nat.sub_diag by done).
    pose proof (step_at context features prg (proj1 Hreach) _ _ _ _ _ _ _ _ h R1 Hret) as Hstep.
    cbn [execute_op] in Hstep. rewrite (frame_known _ _ _ _ (r_stack _ _ _ _ _ _ _ _ R1)), pop_set in Hstep.
    pose proof (executes_stop context features _ _ _ _ _ Hstep) as Hstop.
    pose proof (executes_trans _ _ _ _ _ _ _ _ _ Hex Hstop) as Hall.
    eexists (n + 1)%nat, _. rewrite (execute_ends prg _ _ _ _ _ _ Hall Hops Hne) by (done || lia).
    split; [reflexivity|]. split; [lia|]. exact (r_env _ _ _ _ _ _ _ _ R1).
  - destruct Hc as (n & f1 & Hn & Hex & Hk & Henv). exists n, f1.
    rewrite (execute_ends prg _ _ _ _ _ _ Hex Hops Hne) by (done || lia).
    split; [done|]. split; [|done]. split; [|lia]. by destruct n; [inv Hex|lia].
  - destruct Hc as (n & Hn & Hex).
    by rewrite (execute_ends prg _ _ _ _ _ _ Hex Hops Hne) by (done || lia).
Qed.
End main.

(** ** A program: [return (x = {1, 2}[$]) && x + 40;] *)

Module ExprDemo.
Import Demo.

#[export] Instance demo_host : VmHost unit := {
  retrieve_property _ _ _ h := (Err RollbackRetry, h);
  update_property _ _ _ _ h := (Err RollbackRetry, h);
  flags_of _ h := (Err RollbackRetry, h);
  valid _ h := (Ok false, h);
  dispatch_verb _ _ h := (Ok None, h);
  parent_of _ _ h := (Err RollbackRetry, h);
}.

#[export] Instance demo_printing : Printing := { debug_fmt _ := []; to_literal _ := [] }.
#[export] Instance demo_maps : OrdMap := { stored_key k _ := k }.
#[export] Instance demo_errors : ErrorText := { world_state_message _ := [] }.
#[export] Instance demo_libm : Libm := { powf x _ := x }.

Definition demo_context : FrameExecutionContext :=
  mkContext (Permissions.new SYSTEM_OBJECT (mkBitEnum 0)) SYSTEM_OBJECT (VObj SYSTEM_OBJECT)
    (mkSymbol "test") SYSTEM_OBJECT.
Definition demo_features : FeaturesConfig := mkFeatures false false false.

Definition assign_x : Expr :=
  EAssign (EId x) (EIndex (EList [Normal (EValue (VInt 1)); Normal (EValue (VInt 2))]) ELength).
Definition plus_40 : Expr := EBinary BAdd (EId x) (EValue (VInt 40)).
Definition sum : Expr := EAnd assign_x plus_40.

Definition compiled (e : Expr) : PrgInner :=
  match do_compile (returning e (1, 1) 1 names_x) false with
  | CgOk prg _ => prg
  | _ => program_new
  end.

Definition fresh (e : Expr) : MooStackFrame :=
  Frame.new_with_all_globals (compiled e) (VObj SYSTEM_OBJECT) (VObj SYSTEM_OBJECT)
    (VObj SYSTEM_OBJECT) (VStr []) (VList []) (VStr []).

Definition fresh_scopes : Scopes :=
  [[VObj SYSTEM_OBJECT; VObj SYSTEM_OBJECT; VObj SYSTEM_OBJECT; VStr []; VList []; VStr []]
     ++ replicate 6 VNone].

Lemma demo_starts : starts (compiled sum) names_x fresh_scopes (fresh sum).
Proof.
  split; try reflexivity; [split_and!; [reflexivity..|vm_compute; discriminate]|].
  intros v n Hn. assert (n = mkName 11 0 0) as ->; [|split_and!; [by vm_compute..|vm_compute; by eexists]].
  revert Hn. unfold name_of.
  change (name_table names_x) with [Some (mkName 11 0 0)].
  destruct (Z.to_nat (var_id v)) as [|[|i]]; cbn; congruence.
Qed.

Example compiled_expression_computes_witness :
  eval demo_features (name_table names_x) names_x None sum fresh_scopes
  = Gives (VInt 42)
      [[VObj SYSTEM_OBJECT; VObj SYSTEM_OBJECT; VObj SYSTEM_OBJECT; VStr []; VList []; VStr []]
         ++ replicate 5 VNone ++ [VInt 2]]
  ∧ ∃ n f, moo_frame_execute demo_context demo_features 1000 5 tt (fresh sum)
           = SliceOk (ReturnValue (VInt 42)) (5 + Z.of_nat n) tt f ∧ (1 ≤ n ≤ 14)%nat.
Proof.
  match goal with |- ?E ∧ _ => assert E as He by (vm_compute; reflexivity) end.
  split; [exact He|].
  destruct (do_compile (returning sum (1, 1) 1 names_x) false) as [prg g| |] eqn:Hc;
    [|vm_compute in Hc; discriminate..].
  assert (prg = compiled sum) as -> by (unfold compiled; by rewrite Hc).
  assert (reachable (compiled sum)) as Hr
    by (split; [split|]; vm_compute; discriminate).
  pose proof (compiled_expression_computes demo_context demo_features sum (1, 1) 1 names_x false
    (compiled sum) g (fresh sum) fresh_scopes tt 1000 5 Hc eq_refl Hr demo_starts
    ltac:(vm_compute; discriminate) ltac:(split; [lia|reflexivity])) as Hrun.
  assert (length (main_vector (compiled sum)) = 14%nat) as Hlen by (vm_compute; reflexivity).
  cbv zeta in Hrun. rewrite Hlen, He in Hrun.
  destruct Hrun as (n & f & Hrun & Hn & _). exists n, f. split; [exact Hrun|exact Hn].
Defined.
End ExprDemo.
