(* ===== verification/Activation.v ===== *)
(** Activations: what runs on the stack of a task (crates/vm/src/activation.rs),
    and how the calls of verbs, lambdas, native verbs and builtins and an eval
    make them. *)
From S2P Require Import Prelude TxTypes Model Verbs Auth WorldState.
From S2P Require Import Obj Float64 Opcodes Values ValueOrder Scalars Containers VarOps.
From S2P Require Import Environment Frame.
From stdpp Require Import base gmap sets list strings.

Open Scope Z_scope.
Open Scope frame_scope.

(** [BUILTINS.name_of] (common/src/builtins.rs), a table of names. *)
Class BuiltinNames := { builtin_name : Z → option Symbol }.

Record BuiltinFrame := mkBuiltinFrame {
  bf_id : Z;
  bf_args : list Var;
  bf_trampoline : option Z;
  bf_trampoline_arg : option Var;
  bf_return_value : option Var;
  caller_perms_override : option Obj;
}.

Record NativeFrame := mkNativeFrame {
  nf_library : Symbol;
  nf_function : Symbol;
  nf_caller : Var;
  nf_args : list Var;
  nf_step : Z;
  nf_state : option Var;
  nf_return_value : option Var;
  nf_parsing : list Var;
}.

(** [Frame] *)
Inductive ActFrame :=
| FrameMoo (f : MooStackFrame)
| FrameBf (b : BuiltinFrame)
| FrameNative (n : NativeFrame).

Record Activation := mkActivation {
  act_frame : ActFrame;
  act_this : Var;
  act_player : Obj;
  act_verb_name : Symbol;
  act_verbdef : ResolvedVerb;
  act_authority : TaskPermissions;
}.

Definition PARSING_GLOBALS : list GlobalName :=
  [gargstr; gdobj; gdobjstr; gprepstr; giobj; giobjstr].

Module Act.

Definition with_frame (fr : ActFrame) (a : Activation) : Activation :=
  mkActivation fr (act_this a) (act_player a) (act_verb_name a) (act_verbdef a) (act_authority a).

Definition set_authority (p : TaskPermissions) (a : Activation) : Activation :=
  mkActivation (act_frame a) (act_this a) (act_player a) (act_verb_name a) (act_verbdef a) p.

Definition authority_principal (a : Activation) : Obj := tp_principal (act_authority a).
Definition authority_flags (a : Activation) : BitEnum ObjFlag :=
  tp_principal_flags (act_authority a).

Definition is_builtin_frame (a : Activation) : bool :=
  match act_frame a with FrameBf _ => true | _ => false end.

Definition verb_definer (a : Activation) : Obj :=
  match act_frame a with FrameBf _ => NOTHING | _ => rv_location (act_verbdef a) end.

(** ** Frames *)

(** [inl None]: a frame without lines. *)
Definition find_line_no (fr : ActFrame) : may (option Z) :=
  match fr with
  | FrameMoo f => let! n := or_panic NoOperand (Frame.find_line_no (fr_pc f) f) in inl (Some n)
  | _ => inl None
  end.

Definition set_return_value (v : Var) (fr : ActFrame) : ActFrame :=
  match fr with
  | FrameMoo f => FrameMoo (Frame.push v f)
  | FrameBf b =>
      FrameBf (mkBuiltinFrame (bf_id b) (bf_args b) (bf_trampoline b) (bf_trampoline_arg b)
                 (Some v) (caller_perms_override b))
  | FrameNative n =>
      FrameNative (mkNativeFrame (nf_library n) (nf_function n) (nf_caller n) (nf_args n)
                     (nf_step n) (nf_state n) (Some v) (nf_parsing n))
  end.

(** [None] is the panic of a missing value. *)
Definition return_value (fr : ActFrame) : option Var :=
  match fr with
  | FrameMoo f => head (valstack f)
  | FrameBf b => bf_return_value b
  | FrameNative n => nf_return_value n
  end.

Fixpoint set_globals (gs : list (GlobalName * Var)) (f : MooStackFrame) : may MooStackFrame :=
  match gs with
  | [] => inl f
  | (g, v) :: gs => let! f := Frame.set_gvar g v f in set_globals gs f
  end.

Definition parsing (a : Activation) : may (option (list Var)) :=
  match act_frame a with
  | FrameMoo f =>
      let! vs := foldr (λ g r, let! vs := r in
                               let! v := Frame.get_gvar g f in inl (default VNone v :: vs))
                   (inl []) PARSING_GLOBALS in
      inl (Some vs)
  | FrameNative n => inl (Some (nf_parsing n))
  | FrameBf _ => inl None
  end.

(** ** Calls *)

Section calls.
Context `{Text}.

(** [v_symbol_str] *)
Definition v_symbol_str (s : Symbol) : Var := VStr (as_arc_str s).

Definition for_call (resolved_verb : ResolvedVerb) (permissions_flags : BitEnum ObjFlag)
    (verb_name : Symbol) (this : Var) (player : Obj) (args caller argstr : Var)
    (current_activation : option Activation) (program : PrgInner) : may Activation :=
  let! f := match act_frame <$> current_activation with
            | Some (FrameMoo source) =>
                Frame.new_with_globals_from_source program (VObj player) this caller
                  (v_symbol_str verb_name) args source
            | _ =>
                inl (Frame.new_with_all_globals program (VObj player) this caller
                       (v_symbol_str verb_name) args argstr)
            end in
  let! f := match act_frame <$> current_activation with
            | Some (FrameNative native) =>
                set_globals (zip PARSING_GLOBALS (nf_parsing native)) f
            | _ => inl f
            end in
  inl (mkActivation (FrameMoo f) this player verb_name resolved_verb
         (Permissions.new (rv_owner resolved_verb) permissions_flags)).

(** The values of a scope and the parameters that were assigned. *)
Definition bind_param (n : Name) (v : Var) (s : list Var * gset nat) : may (list Var * gset nat) :=
  let i := Z.to_nat (name_offset n) in
  if (i <? length s.1)%nat then inl (<[i := v]> s.1, {[i]} ∪ s.2) else inl s.

(** Optional parameters without an argument, from the first, get 0: the body tests
    for it and evaluates the default. *)
Definition mark_default (first_idx : nat) (assigned : gset nat) (il : nat * ScatterLabel)
    (env : list Var) : list Var :=
  match il.2 with
  | SOptional n _ =>
      let i := Z.to_nat (name_offset n) in
      if (first_idx <=? il.1)%nat && (i <? length env)%nat && negb (bool_decide (i ∈ assigned))
      then <[i := VInt 0]> env else env
  | _ => env
  end.

Definition lambda_scatter_assign (scatter_args : ScatterArgs) (args environment : list Var)
  : may (result (list Var) Error) :=
  let! (r, s) := scatter_assign bind_param scatter_args args (environment, ∅) in
  match scr_result r with
  | Some e => inl (Err e)
  | None =>
      match scr_needs_defaults r, scr_first_default_index r with
      | true, Some first_idx =>
          inl (Ok (fold_left (λ env il, mark_default first_idx s.2 il env)
                     (imap pair (sa_labels scatter_args)) s.1))
      | _, _ => inl (Ok s.1)
      end
  end.

(** [while len < n { push(vec![]) }], [resize(n, v_none())] on a shorter vector. *)
Definition pad_scopes (n : nat) (env : list (list Var)) : list (list Var) :=
  env ++ replicate (n - length env) [].
Definition pad_values (n : nat) (scope : list Var) : list Var :=
  scope ++ replicate (n - length scope) VNone.

Definition merge_scope (target captured : list Var) : list Var :=
  let target := pad_values (length captured) target in
  imap (λ i v, match captured !! i with
               | Some c => if is_none c then v else c
               | None => v
               end) target.

Definition merge_captured (env captured : list (list Var)) : list (list Var) :=
  let env := pad_scopes (length captured) env in
  imap (λ i scope, match captured !! i with
                   | Some c => merge_scope scope c
                   | None => scope
                   end) env.

Definition label_name (l : ScatterLabel) : Name :=
  match l with SOptional n _ | SRequired n | SRest n => n end.

(** The parameters of one depth, bound to all the arguments. *)
Definition bind_depth (params : ScatterArgs) (args : list Var) (depth : nat)
    (env : list (list Var)) : may (result (list (list Var)) Error) :=
  let labels := List.filter (λ l, (Z.to_nat (name_depth (label_name l)) =? depth)%nat)
                  (sa_labels params) in
  match labels with
  | [] => inl (Ok env)
  | _ =>
      let env := pad_scopes (S depth) env in
      let max_offset :=
        foldr (λ l m, Nat.max (Z.to_nat (name_offset (label_name l))) m) 0%nat labels in
      let scope := pad_values (S max_offset) (default [] (env !! depth)) in
      let! r := lambda_scatter_assign (mkScatterArgs labels (sa_done params)) args scope in
      match r with
      | Ok scope => inl (Ok (<[depth := scope]> env))
      | Err e => inl (Err e)
      end
  end.

Fixpoint bind_depths (params : ScatterArgs) (args : list Var) (depths : list nat)
    (env : list (list Var)) : may (result (list (list Var)) Error) :=
  match depths with
  | [] => inl (Ok env)
  | d :: depths =>
      let! r := bind_depth params args d env in
      match r with
      | Ok env => bind_depths params args depths env
      | Err e => inl (Err e)
      end
  end.

Definition bind_self (lambda : Lambda) (env : list (list Var)) : list (list Var) :=
  match lam_self_var lambda with
  | None => env
  | Some n =>
      let lambda_var := VLambda (mkLambda (lam_params lambda) (lam_body lambda) env
                                   (lam_self_var lambda)) in
      let depth := Z.to_nat (name_depth n) in
      let idx := Z.to_nat (name_offset n) in
      let env := pad_scopes (S depth) env in
      <[depth := <[idx := lambda_var]> (pad_values (S idx) (default [] (env !! depth)))]> env
  end.

(** The scopes a lambda's body starts in. *)
Definition lambda_environment (lambda : Lambda) (args : list Var)
  : may (result (list (list Var)) Error) :=
  let body := lam_body lambda in
  let captured := lam_captured_env lambda in
  let env := merge_captured [replicate (Frame.width_of body) VNone] captured in
  let required_scopes :=
    if lambda_entry_scope_count body =? 0 then (length captured - 1 + 2)%nat
    else Z.to_nat (lambda_entry_scope_count body) in
  let env := pad_scopes required_scopes env in
  let max_scope_depth :=
    foldr (λ l m, Nat.max (Z.to_nat (name_depth (label_name l))) m) 0%nat
      (sa_labels (lam_params lambda)) in
  let! r := bind_depths (lam_params lambda) args (seq 0 (S max_scope_depth)) env in
  match r with
  | Ok env => inl (Ok (bind_self lambda env))
  | Err e => inl (Err e)
  end.

Definition lambda_name (lambda : Lambda) (current : Activation) : Str :=
  as_arc_str (act_verb_name current) ++ lit "." ++
  match lam_self_var lambda ≫= ident_for_name (var_names (lam_body lambda)) with
  | Some s => as_arc_str s
  | None => lit "<fn>"
  end.

Definition for_lambda_call (lambda : Lambda) (current : Activation) (args : list Var)
  : may (result Activation Error) :=
  let! r := lambda_environment lambda args in
  match r with
  | Err e => inl (Err e)
  | Ok env =>
      let! f := Frame.with_environment (lam_body lambda) env in
      let! f := set_globals
        [(gthis, act_this current); (gplayer, VObj (act_player current));
         (gcaller, act_this current); (gverb, VStr (lambda_name lambda current));
         (gargs, VList args)] f in
      inl (Ok (mkActivation (FrameMoo f) (act_this current) (act_player current)
                 (mk_symbol (lambda_name lambda current)) (act_verbdef current)
                 (act_authority current)))
  end.

(** The verb of an eval has a random identifier. *)
Definition eval_verb (uuid : Uuid) : ResolvedVerb :=
  mkResolvedVerb uuid NOTHING NOTHING
    (BitEnumOps.bitor_flag (BitEnumOps.new_with VerbExec) VerbDebug) Args.this_none_this.

Definition for_eval (uuid : Uuid) (authority_principal : Obj) (flags : BitEnum ObjFlag)
    (player : Obj) (program : PrgInner) (initial_env : list (Name * Var)) : may Activation :=
  let f := Frame.new_with_all_globals program (VObj player) (VObj NOTHING) (VObj player)
             (VStr []) (VList []) (VStr []) in
  let! f := fold_left (λ r nv, let! f := r in Frame.set_variable nv.1 nv.2 f) initial_env (inl f) in
  inl (mkActivation (FrameMoo f) (VObj player) player (mk_symbol (lit "eval"))
         (eval_verb uuid) (Permissions.new authority_principal flags)).

Definition for_native_call (resolved_verb : ResolvedVerb) (permissions_flags : BitEnum ObjFlag)
    (verb_name : Symbol) (this : Var) (player : Obj) (args : list Var) (caller : Var)
    (library function : Symbol) (parsing : list Var) : Activation :=
  mkActivation (FrameNative (mkNativeFrame library function caller args 0 None None parsing))
    this player verb_name resolved_verb
    (Permissions.new (rv_owner resolved_verb) permissions_flags).

Definition for_bf_call (id : Z) (bf_name : Symbol) (args : list Var) (player : Obj) : Activation :=
  mkActivation (FrameBf (mkBuiltinFrame id args None None None None)) (VObj NOTHING) player bf_name
    (mkResolvedVerb (mkUuid (Z.lor id (Z.shiftl 1 127))) NOTHING NOTHING
       (BitEnumOps.new_with VerbExec) Args.this_none_this)
    (Permissions.new NOTHING (mkBitEnum 0)).
End calls.
End Act.
