(* ===== verification/Exec.v ===== *)
(** The stack of activations of a task: callers and authority
    (crates/vm/src/exec_state.rs), errors, returns and exits unwinding it
    (vm_unwind.rs).

    The activation on top comes first; the code indexes from the other end. *)
From S2P Require Import Prelude TxTypes Model Verbs Auth WorldState.
From S2P Require Import Obj Float64 Opcodes Values ValueOrder Scalars Containers VarOps.
From S2P Require Import Environment Frame Machine Vm Activation.
From stdpp Require Import base gmap list strings.

Open Scope Z_scope.
Open Scope frame_scope.

(** The part of [ExecState] that calls and unwinding use. *)
Record ExecState := mkExec {
  es_task_id : Z;
  es_stack : list Activation;
  root_caller_perms : Obj;
}.

Definition with_stack (stack : list Activation) (s : ExecState) : ExecState :=
  mkExec (es_task_id s) stack (root_caller_perms s).

Record Caller := mkCaller {
  caller_this : Var;
  caller_verb_name : Symbol;
  caller_programmer : Obj;
  caller_definer : Obj;
  caller_player : Obj;
  caller_line_number : Z;
}.

Module Exec.

(** ** exec_state.rs *)

Definition non_builtin (s : ExecState) : list Activation :=
  List.filter (λ a, negb (Act.is_builtin_frame a)) (es_stack s).

Definition caller (s : ExecState) : Var :=
  match non_builtin s with a :: _ => act_this a | [] => VObj NOTHING end.

Fixpoint caller_perms_loop (root : Obj) (seen : bool) (stack : list Activation) : Obj :=
  match stack with
  | [] => root
  | a :: stack =>
      match act_frame a with
      | FrameBf b =>
          match caller_perms_override b with
          | Some o => o
          | None => caller_perms_loop root seen stack
          end
      | _ => if seen then Act.authority_principal a else caller_perms_loop root true stack
      end
  end.

Definition caller_perms (s : ExecState) : Obj :=
  caller_perms_loop (root_caller_perms s) false (es_stack s).

Definition task_authority_principal (s : ExecState) : Obj :=
  match non_builtin s with a :: _ => Act.authority_principal a | [] => NOTHING end.

Definition task_permissions (s : ExecState) : TaskPermissions :=
  match non_builtin s with
  | a :: _ => act_authority a
  | [] => Permissions.new NOTHING (mkBitEnum 0)
  end.

Definition task_authority_flags (s : ExecState) : BitEnum ObjFlag :=
  match non_builtin s with a :: _ => Act.authority_flags a | [] => mkBitEnum 0 end.

Definition this (s : ExecState) : Var :=
  match non_builtin s with a :: _ => act_this a | [] => VObj NOTHING end.

(** The authority of the builtins on top and of the activation they run in. *)
Fixpoint set_authorities (p : TaskPermissions) (stack : list Activation) : list Activation :=
  match stack with
  | [] => []
  | a :: stack =>
      if Act.is_builtin_frame a then Act.set_authority p a :: set_authorities p stack
      else Act.set_authority p a :: stack
  end.

Definition set_task_perms_with_grants {H} `{!VmHost H} (authority_principal : Obj)
    (grants : CapabilityGrants) (h : H) (s : ExecState) : H * ExecState :=
  let '(r, h) := flags_of authority_principal h in
  let p := mkPermissions authority_principal (or_default (mkBitEnum 0) r) grants in
  (h, with_stack (set_authorities p (es_stack s)) s).

Definition set_task_perms {H} `{!VmHost H} (authority_principal : Obj) (h : H) (s : ExecState)
  : H * ExecState := set_task_perms_with_grants authority_principal Grants.empty h s.

(** An empty stack is the panic of [top_mut]. *)
Definition set_return_value (v : Var) (s : ExecState) : may ExecState :=
  match es_stack s with
  | [] => inr StackUnderflow
  | a :: stack =>
      inl (with_stack (Act.with_frame (Act.set_return_value v (act_frame a)) a :: stack) s)
  end.

Fixpoint may_map {A B} (g : A → may B) (l : list A) : may (list B) :=
  match l with
  | [] => inl []
  | a :: l => let! b := g a in let! bs := may_map g l in inl (b :: bs)
  end.

Definition callers (s : ExecState) : may (list Caller) :=
  may_map (λ a,
    let! n := Act.find_line_no (act_frame a) in
    inl (mkCaller (act_this a) (act_verb_name a)
           (if Act.is_builtin_frame a then NOTHING else Act.authority_principal a)
           (Act.verb_definer a) (act_player a) (default 0 n)))
    (tail (es_stack s)).

(** ** vm_unwind.rs *)

Section unwind.
Context `{Text} `{BuiltinNames}.

Definition line_var (o : option Z) : Var :=
  match o with Some l => VInt (as_i64 l) | None => VNone end.

Definition stack_entry (a : Activation) : may Var :=
  let! n := Act.find_line_no (act_frame a) in
  match act_frame a with
  | FrameMoo _ =>
      inl (VList [act_this a; VStr (as_arc_str (act_verb_name a));
                  VObj (Act.authority_principal a); VObj (Act.verb_definer a);
                  VObj (act_player a); line_var n])
  | FrameNative _ =>
      inl (VList [act_this a; VStr (as_arc_str (act_verb_name a));
                  VObj (Act.authority_principal a); VObj (Act.verb_definer a);
                  VObj (act_player a); VInt 0])
  | FrameBf b =>
      let! name := or_panic NoOperand (builtin_name (bf_id b)) in
      inl (VList [act_this a; VStr (as_arc_str name); VObj (Act.authority_principal a);
                  VObj NOTHING; VObj (act_player a); VInt 0])
  end.

(** The entries of the activations from [start_activation], counted from the first
    call, the last call first. *)
Definition make_stack_list_from (stack : list Activation) (start_activation : nat)
  : may (list Var) :=
  may_map stack_entry (take (length stack - start_activation) stack).

Definition catch_matches (c : CatchType) (e : Error) : bool :=
  match c with
  | CatchAny => true
  | CatchErrors errs => existsb (λ x, bool_decide (err_type x = err_type e)) errs
  end.

Definition catch_value (e : Error) (stack : list Var) : Var :=
  VList [v_err (err_type e); VStr (error_message e); default (VInt 0) (err_value e);
         VList stack].

Definition some_matches (catches : list (CatchType * Label)) (e : Error) : bool :=
  existsb (λ c, catch_matches c.1 e) catches.

Fixpoint scopes_catch (scs : list Scope) (f : MooStackFrame) (e : Error) : may bool :=
  match scs with
  | [] => inl false
  | sc :: scs =>
      let! o := Frame.try_catches_for_scope sc f in
      match o with
      | Some catches => if some_matches catches e then inl true else scopes_catch scs f e
      | None => scopes_catch scs f e
      end
  end.

Definition activation_has_catch_for_error (a : Activation) (e : Error) : may bool :=
  match act_frame a with
  | FrameMoo f => scopes_catch (scope_stack f) f e
  | _ => inl false
  end.

(** The index, from the first call, of the innermost activation with a catch. *)
Fixpoint handler_activation_index (stack : list Activation) (e : Error) : may (option nat) :=
  match stack with
  | [] => inl None
  | a :: stack =>
      let! b := activation_has_catch_for_error a e in
      if b then inl (Some (length stack)) else handler_activation_index stack e
  end.

(** The label of the catch, unless a [finally] comes first. *)
Fixpoint scopes_catch_label (scs : list Scope) (f : MooStackFrame) (e : Error)
  : may (option Label) :=
  match scs with
  | [] => inl None
  | sc :: scs =>
      match sc_kind sc with
      | KTryFinally => inl None
      | KTryCatch =>
          let! o := Frame.try_catches_for_scope sc f in
          match List.find (λ c, catch_matches c.1 e) (default [] o) with
          | Some c => inl (Some c.2)
          | None => scopes_catch_label scs f e
          end
      | _ => scopes_catch_label scs f e
      end
  end.

(** The verb on top under builtins and native verbs: what is above it, its frame,
    what is below. *)
Fixpoint top_moo (stack : list Activation)
  : option (list Activation * (Activation * MooStackFrame) * list Activation) :=
  match stack with
  | [] => None
  | a :: stack =>
      match act_frame a with
      | FrameMoo f => Some ([], (a, f), stack)
      | _ => (λ r, (a :: r.1.1, r.1.2, r.2)) <$> top_moo stack
      end
  end.

(** [catch_discards_value]: the handler starts with [Pop]. *)
Definition catch_discards_value (f : MooStackFrame) (l : Label) : may bool :=
  let! handler_pc := Frame.label_position l f in
  let! ops := Frame.opcodes f in
  inl match ops !! Z.to_nat handler_pc with Some Op.Pop => true | _ => false end.

(** Scopes are left up to the one with the catch; [false]: there is none. *)
Fixpoint leave_to_catch (scs : list Scope) (e : Error) (l : Label) (value : option Var)
    (f : MooStackFrame) : may (bool * MooStackFrame) :=
  match scs with
  | [] => inl (false, f)
  | _ :: scs =>
      let! (t, f) := Frame.pop_scope f in
      match t with
      | Some (TyTryCatch catches) =>
          if existsb (λ c, catch_matches c.1 e && (c.2 =? l)) catches then
            let! f := Frame.jump l f in
            inl (true, match value with
                       | None => Frame.skip f
                       | Some v => Frame.push v f
                       end)
          else leave_to_catch scs e l value f
      | _ => leave_to_catch scs e l value f
      end
  end.

Definition catch_error_in_current_activation (e : Error) (stack : list Activation)
  : may (bool * list Activation) :=
  match top_moo stack with
  | None => inl (false, stack)
  | Some (above, (a, f), below) =>
      let! o := scopes_catch_label (scope_stack f) f e in
      match o with
      | None => inl (false, stack)
      | Some label =>
          let! discards := catch_discards_value f label in
          if negb discards && negb (bool_decide (above = [])) then inl (false, stack)
          else
            let! value := (if discards then inl None
                           else let! l := make_stack_list_from stack (length below) in
                                inl (Some (catch_value e l))) in
            let! (caught, f) := leave_to_catch (scope_stack f) e label value f in
            inl (caught, Act.with_frame (FrameMoo f) a :: below)
      end
  end.

(** [inl None]: no scope handles it and the activation is popped. *)
Fixpoint unwind_scopes (scs : list Scope) (why : FinallyReason) (f : MooStackFrame)
  : may (option MooStackFrame) :=
  match scs with
  | [] => inl None
  | _ :: scs =>
      let! (t, f) := Frame.pop_scope f in
      match t with
      | Some (TyTryFinally l) =>
          let! f := Frame.jump l f in inl (Some (Frame.push_finally_reason why f))
      | Some (TyTryCatch catches) =>
          match why with
          | Raise exn =>
              match List.find (λ c, catch_matches c.1 (exn_error exn)) catches with
              | Some c =>
                  let! f := Frame.jump c.2 f in
                  inl (Some (Frame.push (catch_value (exn_error exn) (exn_stack exn)) f))
              | None => unwind_scopes scs why f
              end
          | _ => unwind_scopes scs why f
          end
      | _ => unwind_scopes scs why f
      end
  end.

Definition unwind_moo_frame (why : FinallyReason) (f : MooStackFrame)
  : may (option MooStackFrame) :=
  match why with
  | ReasonExit _ label => let! f := Frame.jump label f in inl (Some f)
  | _ => unwind_scopes (scope_stack f) why f
  end.

Definition finish_unwind (why : FinallyReason) : ExecutionResult :=
  match why with
  | ReasonReturn r => Complete r
  | Fallthrough => Complete (VBool false)
  | _ => ExceptionResult why
  end.

Fixpoint unwind_loop (why : FinallyReason) (stack : list Activation)
  : may (ExecutionResult * list Activation) :=
  match stack with
  | [] => inl (finish_unwind why, [])
  | a :: below =>
      let! handled := match act_frame a with
                      | FrameMoo f => unwind_moo_frame why f
                      | _ => inl None
                      end in
      match handled, below, why with
      | Some f, _, _ => inl (More, Act.with_frame (FrameMoo f) a :: below)
      | None, [], _ => inl (finish_unwind why, [])
      | None, b :: below, ReasonReturn v =>
          inl (More, Act.with_frame (Act.set_return_value v (act_frame b)) b :: below)
      | None, _, _ => unwind_loop why below
      end
  end.

Definition unwind_stack (why : FinallyReason) (s : ExecState)
  : may (ExecutionResult * ExecState) :=
  let! (r, stack) := unwind_loop why (es_stack s) in inl (r, with_stack stack s).

Definition throw_error (e : Error) (s : ExecState) : may (ExecutionResult * ExecState) :=
  let! (caught, stack) := catch_error_in_current_activation e (es_stack s) in
  if caught then inl (More, with_stack stack s)
  else
    let! start := handler_activation_index stack e in
    let! entries := make_stack_list_from stack (default 0%nat start) in
    unwind_stack (Raise (mkException e entries [])) (with_stack stack s).

(** The verb that runs has the [d] flag. *)
Definition debug_bit (s : ExecState) : bool :=
  match non_builtin s with
  | a :: _ => BitEnumOps.contains VerbDebug (rv_flags (act_verbdef a))
  | [] => false
  end.

Definition push_error (e : Error) (s : ExecState) : may (ExecutionResult * ExecState) :=
  let! s := set_return_value (VErr e) s in
  if debug_bit s then throw_error e s else inl (More, s).

Definition raise_error (e : Error) (s : ExecState) : may (ExecutionResult * ExecState) :=
  if debug_bit s then throw_error e s else inl (More, s).

(** ** Calls *)

Definition push_activation (a : Activation) (s : ExecState) : ExecState :=
  with_stack (a :: es_stack s) s.

Definition exec_call_request (permissions_flags : BitEnum ObjFlag) (resolved_verb : ResolvedVerb)
    (verb_name : Symbol) (this : Var) (player : Obj) (args : list Var) (caller argstr : Var)
    (program : PrgInner) (s : ExecState) : may ExecState :=
  let! a := Act.for_call resolved_verb permissions_flags verb_name this player (VList args)
              caller argstr (head (es_stack s)) program in
  inl (push_activation a s).

Definition exec_fork_vector (activation : Activation) (fork_vector_offset : Offset)
    (task_id : option Name) (s : ExecState) : may ExecState :=
  match act_frame activation with
  | FrameMoo f =>
      let f := Frame.switch_to_fork_vector fork_vector_offset f in
      let! f := match task_id with
                | Some n => Frame.set_variable n (VInt (as_i64 (es_task_id s))) f
                | None => inl f
                end in
      inl (with_stack [Act.with_frame (FrameMoo f) activation] s)
  | _ => inr NoHandler
  end.

Definition exec_lambda_request (lambda : Lambda) (args : list Var) (s : ExecState)
  : may (result ExecState Error) :=
  match es_stack s with
  | [] => inr StackUnderflow
  | current :: _ =>
      let! r := Act.for_lambda_call lambda current args in
      match r with
      | Ok a => inl (Ok (push_activation a s))
      | Err e => inl (Err e)
      end
  end.
End unwind.
End Exec.
