(* ===== verification/FrameProofs.v ===== *)
(** The scopes of a frame and what belongs to them: every instruction and the
    unwinding of the stack keep the payloads in step with the scopes that own them,
    and the environment as deep as its scopes. *)
From S2P Require Import Prelude Obj TxTypes Model Verbs Auth WorldState.
From S2P Require Import Float64 Opcodes Values ValueOrder Scalars Containers VarOps.
From S2P Require Import Environment Frame Machine Vm Activation Exec.
From stdpp Require Import base gmap list strings.

Open Scope Z_scope.
Open Scope frame_scope.

(** ** The invariant *)

Definition carries (k : ScopeKind) : bool :=
  match k with KTryCatch | KForSequence | KForRange => true | _ => false end.

(** A loop runs over a list, a binary or a map. *)
Definition iterable (v : Var) : bool :=
  negb (bool_decide (type_code v = TYPE_STR)) && (is_sequence v || is_associative v).

Definition fits (k : ScopeKind) (p : ScopePayload) : Prop :=
  match k, p with
  | KTryCatch, PayTryCatch _ | KForRange, PayForRange _ => True
  | KForSequence, PayForSequence s => iterable (fs_sequence s) = true
  | _, _ => False
  end.

(** The payloads are those of the scopes that carry one, in the same order, and each
    scope knows the index of its own. *)
Fixpoint linked (scs : list Scope) (ps : list ScopePayload) : Prop :=
  match scs with
  | [] => ps = []
  | sc :: scs =>
      if carries (sc_kind sc) then
        ∃ ps' p, ps = ps' ++ [p] ∧ sc_payload sc = Z.of_nat (length ps') ∧ fits (sc_kind sc) p
                 ∧ linked scs ps'
      else linked scs ps
  end.

Definition environments (scs : list Scope) : nat :=
  length (List.filter sc_environment scs).

(** [base] scopes of variables were there when the frame was made. *)
Record well_scoped (base : nat) (f : MooStackFrame) : Prop := {
  ws_linked : linked (scope_stack f) (scope_payloads f);
  ws_depth : Env.len (fr_env f) = (base + environments (scope_stack f))%nat;
}.

Definition payloads (f : MooStackFrame) : nat := length (scope_payloads f).

(** The same scopes. *)
Record alike (f f' : MooStackFrame) : Prop := {
  al_scopes : scope_stack f' = scope_stack f;
  al_payloads : scope_payloads f' = scope_payloads f;
  al_depth : Env.len (fr_env f') = Env.len (fr_env f);
}.

Section frames.
Implicit Types f : MooStackFrame.

Lemma alike_well base f f' : alike f f' → well_scoped base f → well_scoped base f' ∧ payloads f' = payloads f.
Proof.
  intros [Hs Hp Hd] [Hl Hw]. split; [split|]; unfold payloads; rewrite ?Hs, ?Hp, ?Hd; done.
Qed.

(** What a step on the frame may do: at most [k] more payloads, no missing one. *)
Definition frame_keeps (k : nat) (g : MooStackFrame → may MooStackFrame) : Prop := ∀ base f,
  well_scoped base f → Z.of_nat (payloads f + k) ≤ 65536 →
  match g f with
  | inl f' => well_scoped base f' ∧ (payloads f' ≤ payloads f + k)%nat
  | inr w => w ≠ BadPayload
  end.

Lemma linked_lookup scs ps k i sc :
  linked scs ps → list_find (λ s, sc_kind s = k) scs = Some (i, sc) → carries k = true →
  ∃ p, ps !! Z.to_nat (sc_payload sc) = Some p ∧ fits k p.
Proof.
  revert ps i. induction scs as [|s scs IH]; intros ps i Hl Hf Hk; cbn in Hf; [done|].
  case_decide as Hd; cbn in Hl.
  - injection Hf as <- <-. rewrite Hd, Hk in Hl. destruct Hl as (ps' & p & -> & -> & Hp & _).
    exists p. split; [|done]. rewrite Nat2Z.id, lookup_app_r, Nat.sub_diag by done. done.
  - destruct (list_find _ scs) as [[j sc']|] eqn:Hj; [|done]. cbn in Hf. injection Hf as _ <-.
    destruct (carries (sc_kind s)).
    + destruct Hl as (ps' & p & -> & _ & _ & Hl). destruct (IH _ _ Hl eq_refl Hk) as (q & Hq & ?).
      exists q. split; [|done]. by apply lookup_app_l_Some.
    + by eapply IH.
Qed.

Lemma linked_insert scs ps i p p' :
  linked scs ps → ps !! i = Some p → (∀ k, fits k p → fits k p') → linked scs (<[i := p']> ps).
Proof.
  revert ps. induction scs as [|s scs IH]; intros ps Hl Hi Hp; cbn in *.
  - by subst.
  - destruct (carries (sc_kind s)); [|by apply IH].
    destruct Hl as (ps' & q & -> & Hq & Hfit & Hl).
    destruct (decide (i < length ps')%nat) as [Hlt|Hge].
    + rewrite insert_app_l by done. rewrite lookup_app_l in Hi by done.
      exists (<[i := p']> ps'), q. rewrite length_insert. split_and!; auto.
    + rewrite lookup_app_r in Hi by lia. pose proof (lookup_lt_Some _ _ _ Hi) as Hlt. cbn in Hlt.
      assert (i = (length ps' + 0)%nat) as -> by lia. rewrite insert_app_r. cbn.
      replace (length ps' + 0 - length ps')%nat with 0%nat in Hi by lia. injection Hi as ->.
      exists ps', p'. split_and!; auto.
Qed.

(** ** Opening and closing scopes *)

Definition fitting (t : ScopeType) : Prop :=
  match Frame.payload_of t with Some p => fits (Frame.kind_of t) p | None => True end.

Lemma carries_payload t :
  carries (Frame.kind_of t) = match Frame.payload_of t with Some _ => true | None => false end.
Proof. by destruct t. Qed.

Lemma record_linked t vp sp ep env f :
  linked (scope_stack f) (scope_payloads f) → fitting t → Z.of_nat (payloads f) < 65536 →
  let f' := Frame.push_scope_type_record t vp sp ep env f in
  linked (scope_stack f') (scope_payloads f') ∧ (payloads f' ≤ payloads f + 1)%nat.
Proof.
  unfold payloads, fitting. intros Hl Hf Hn. cbn. rewrite carries_payload.
  destruct (Frame.payload_of t) as [p|] eqn:Hp; cbn.
  - split; [|rewrite length_app; cbn; lia]. exists (scope_payloads f), p. split_and!; try done.
    assert (Frame.payload_field t f = as_u16 (Z.of_nat (length (scope_payloads f)))) as ->
      by (by destruct t).
    unfold as_u16, wrap. rewrite Z.mod_small; lia.
  - rewrite app_nil_r. split; [done|lia].
Qed.

Lemma push_typed_keeps t l env base f :
  well_scoped base f → fitting t → Z.of_nat (payloads f + 1) ≤ 65536 →
  match Frame.push_typed t l env f with
  | inl f' => linked (scope_stack f') (scope_payloads f') ∧ (payloads f' ≤ payloads f + 1)%nat
              ∧ fr_env f' = fr_env f
              ∧ environments (scope_stack f') = (environments (scope_stack f) + if env then 1 else 0)%nat
  | inr w => w ≠ BadPayload
  end.
Proof.
  intros [Hl _] Hf Hn. unfold Frame.push_typed, Frame.label_position.
  destruct (jump_label (fr_program f) l) as [j|]; [|done]. cbn.
  destruct (record_linked t (as_u16 (Z.of_nat (length (valstack f)))) (fr_pc f) (jl_position j) env f
              Hl Hf ltac:(lia)) as [A B].
  split_and!; try done. unfold environments. cbn. destruct env; cbn; lia.
Qed.

Lemma push_scope_keeps t w l : fitting t → frame_keeps 1 (Frame.push_scope t w l).
Proof.
  intros Hf base f Hw Hn. unfold Frame.push_scope.
  pose proof (push_typed_keeps t l true base f Hw Hf Hn) as Hp.
  destruct (Frame.push_typed t l true f) as [f'|w']; [|done]. destruct Hp as (Hl & Hn' & He & Hc).
  split; [|done]. split; [done|].
  change (scope_stack (Frame.set_env _ f')) with (scope_stack f'). rewrite Hc.
  unfold Env.len, Env.push_scope. cbn [fr_env Frame.set_env env_scopes].
  rewrite length_app, He. pose proof (ws_depth _ _ Hw) as Hd. unfold Env.len in Hd. cbn [length]. lia.
Qed.

Lemma push_non_var_scope_keeps t l : fitting t → frame_keeps 1 (Frame.push_non_var_scope t l).
Proof.
  intros Hf base f Hw Hn. unfold Frame.push_non_var_scope.
  pose proof (push_typed_keeps t l false base f Hw Hf Hn) as Hp.
  destruct (Frame.push_typed t l false f) as [f'|w']; [|done]. destruct Hp as (Hl & Hn' & He & Hc).
  split; [|done]. split; [done|]. rewrite He, (ws_depth _ _ Hw), Hc. lia.
Qed.

(** A scope taken off: its payload goes with it. *)
Lemma take_keeps sc scs f :
  scope_stack f = scs → linked (sc :: scs) (scope_payloads f) →
  match Frame.take_scope_type sc f with
  | inl (t, f') => scope_stack f' = scs ∧ linked scs (scope_payloads f') ∧ fr_env f' = fr_env f
                   ∧ (payloads f' ≤ payloads f)%nat
  | inr w => w ≠ BadPayload
  end.
Proof.
  intros Hs Hl. unfold Frame.take_scope_type, payloads. cbn in Hl.
  destruct (sc_kind sc); cbn in Hl; try (by split_and!);
    destruct Hl as (ps' & p & Hps & _ & Hfit & Hl); rewrite Hps, last_snoc; cbn in Hfit;
    destruct p; try done; cbn; rewrite removelast_last, ?length_app; split_and!; try done; lia.
Qed.

Lemma pop_scope_keeps base f :
  well_scoped base f →
  match Frame.pop_scope f with
  | inl (_, f') => well_scoped base f' ∧ (payloads f' ≤ payloads f)%nat
                   ∧ scope_stack f' = tail (scope_stack f)
  | inr w => w ≠ BadPayload
  end.
Proof.
  intros [Hl Hd]. unfold Frame.pop_scope. destruct (scope_stack f) as [|sc scs] eqn:Hsc.
  { split_and!; [|done|by rewrite Hsc]. split; by rewrite Hsc. }
  set (f1 := Frame.set_scopes scs (scope_payloads f) f).
  set (f2 := if sc_environment sc then Frame.set_env (Env.pop_scope (fr_env f1)) f1 else f1).
  set (f3 := Frame.set_valstack (Frame.truncate (valstack_pos sc) (valstack f2)) f2).
  assert (scope_stack f3 = scs ∧ scope_payloads f3 = scope_payloads f) as [E1 E2]
    by (unfold f3, f2; by destruct (sc_environment sc)).
  assert (Env.len (fr_env f3) = base + environments scs)%nat as E3.
  { unfold f3, f2. unfold environments in *. cbn in Hd. destruct (sc_environment sc); cbn in *; [|lia].
    unfold Env.len, Env.pop_scope in *. destruct (last (env_scopes (fr_env f))) as [sl|] eqn:Hla.
    - apply last_Some in Hla as [l' Hla]. cbn. rewrite Hla, removelast_last.
      rewrite Hla, length_app in Hd. cbn in Hd. lia.
    - apply last_None in Hla. rewrite Hla in Hd. cbn in Hd. lia. }
  rewrite <- E2 in Hl. pose proof (take_keeps sc scs f3 E1 Hl) as Ht.
  destruct (Frame.take_scope_type sc f3) as [[t f4]|w]; [|done].
  destruct Ht as (A & B & C & D). split_and!; [|unfold payloads in *; by rewrite E2 in D|done].
  split; [by rewrite A|by rewrite A, C].
Qed.

Lemma leave_keeps base scs f :
  well_scoped base f →
  match Frame.leave_scopes scs f with
  | inl f' => well_scoped base f' ∧ (payloads f' ≤ payloads f)%nat
  | inr w => w ≠ BadPayload
  end.
Proof.
  revert f. induction scs as [|sc scs IH]; intros f Hw; cbn; [done|].
  destruct (Frame.encloses (fr_pc f) sc); [done|].
  pose proof (pop_scope_keeps base f Hw) as Hp. destruct (Frame.pop_scope f) as [[t f']|w]; [|done].
  destruct Hp as (Hw' & Hn & _). specialize (IH f' Hw').
  destruct (Frame.leave_scopes scs f') as [f''|w]; [|done]. destruct IH. split; [done|lia].
Qed.

Lemma jump_keeps l : frame_keeps 0 (Frame.jump l).
Proof.
  intros base f Hw Hn. unfold Frame.jump, Frame.label_position.
  destruct (jump_label (fr_program f) l) as [j|]; [|done]. cbn.
  assert (well_scoped base (Frame.set_pc (jl_position j) f)) as Hw' by (destruct Hw; by split).
  pose proof (leave_keeps base (scope_stack f) _ Hw') as Hl.
  destruct (Frame.leave_scopes _ _) as [f'|w]; [|done]. destruct Hl. split; [done|].
  unfold payloads in *. cbn in *. lia.
Qed.

Lemma set_payload_keeps base i p p' f :
  well_scoped base f → scope_payloads f !! i = Some p → (∀ k, fits k p → fits k p') →
  well_scoped base (Frame.set_payload i p' f) ∧ payloads (Frame.set_payload i p' f) = payloads f.
Proof.
  intros [Hl Hd] Hi Hp. split; [|unfold payloads; cbn; by rewrite length_insert].
  split; [|done]. cbn. by eapply linked_insert.
Qed.

Lemma innermost_keeps base k f :
  well_scoped base f → carries k = true →
  ∃ o, Frame.innermost k f = inl o ∧
       match o with
       | Some (i, p) => scope_payloads f !! i = Some p ∧ fits k p
       | None => True
       end.
Proof.
  intros [Hl _] Hk. unfold Frame.innermost.
  destruct (list_find _ _) as [[i sc]|] eqn:Hf; [|by exists None].
  destruct (linked_lookup _ _ _ _ _ Hl Hf Hk) as (p & Hp & Hfit). rewrite Hp.
  by exists (Some (Z.to_nat (sc_payload sc), p)).
Qed.
End frames.

(** ** Instructions *)

Section instructions.
Context {H : Type} `{!VmHost H}.
Context `{Text} `{Interner} `{Addresses} `{OrdMap} `{Printing} `{ErrorText} `{Libm}.
Variable context : FrameExecutionContext.
Variable features : FeaturesConfig.

Definition keeps {A} (k : nat) (m : VM H A) : Prop := ∀ base h f,
  well_scoped base f → Z.of_nat (payloads f + k) ≤ 65536 →
  match m h f with
  | VmOk _ _ f' | VmStop _ _ f' => well_scoped base f' ∧ (payloads f' ≤ payloads f + k)%nat
  | VmPanic w => w ≠ BadPayload
  end.

Lemma keeps_ret {A} (a : A) : keeps 0 (vret a).
Proof. intros base h f Hw _. split; [done|lia]. Qed.

Lemma keeps_stop {A} r : keeps 0 (@stop H A r).
Proof. intros base h f Hw _. split; [done|lia]. Qed.

Lemma keeps_panic {A} w : w ≠ BadPayload → keeps 0 (@vpanic H A w).
Proof. by intros Hw base h f _ _. Qed.

Lemma keeps_bind {A B} k k' (m : VM H A) (g : A → VM H B) :
  keeps k m → (∀ a, keeps k' (g a)) → keeps (k + k') (vbind m g).
Proof.
  intros Hm Hg base h f Hw Hn. unfold vbind. specialize (Hm base h f Hw ltac:(lia)).
  destruct (m h f) as [a h1 f1|r h1 f1|w]; [|destruct Hm; split; [done|lia]|done].
  destruct Hm as [Hw1 Hn1]. specialize (Hg a base h1 f1 Hw1 ltac:(lia)).
  destruct (g a h1 f1) as [b h2 f2|r h2 f2|w]; [| |done]; (destruct Hg; split; [done|lia]).
Qed.

Lemma keeps_calm {A B} (m : VM H A) (g : A → VM H B) k :
  keeps 0 m → (∀ a, keeps k (g a)) → keeps k (vbind m g).
Proof. exact (keeps_bind 0 k m g). Qed.

Lemma keeps_more {A} k (m : VM H A) : keeps 0 m → keeps k m.
Proof.
  intros Hm base h f Hw Hn. specialize (Hm base h f Hw ltac:(lia)).
  destruct (m h f); [| |done]; destruct Hm; (split; [done|lia]).
Qed.

(** Reading and changing what the invariant does not look at. *)
Lemma keeps_asks {A} (g : MooStackFrame → may A) : (∀ f, g f ≠ inr BadPayload) → keeps 0 (@asks H A g).
Proof.
  intros Hg base h f Hw _. unfold asks. specialize (Hg f). destruct (g f); [split; [done|lia]|congruence].
Qed.

Lemma keeps_reads {A} (g : MooStackFrame → A) : keeps 0 (@reads H A g).
Proof. intros base h f Hw _. split; [done|lia]. Qed.

Lemma keeps_host {A} (g : H → A * H) : keeps 0 (asks_host g).
Proof. intros base h f Hw _. unfold asks_host. destruct (g h). split; [done|lia]. Qed.

Lemma keeps_modify g : (∀ f, alike f (g f)) → keeps 0 (@modify H g).
Proof.
  intros Hg base h f Hw _. destruct (alike_well base f _ (Hg f) Hw) as [Hw' Hn].
  split; [done|lia].
Qed.

Lemma keeps_runs {A} (g : MooStackFrame → may (A * MooStackFrame)) :
  (∀ f, match g f with inl (_, f') => alike f f' | inr w => w ≠ BadPayload end) → keeps 0 (@runs H A g).
Proof.
  intros Hg base h f Hw _. unfold runs. specialize (Hg f). destruct (g f) as [[a f']|w]; [|done].
  destruct (alike_well base f f' Hg Hw) as [Hw' Hn]. split; [done|lia].
Qed.

Lemma keeps_does k g : frame_keeps k g → keeps k (@does H g).
Proof.
  intros Hg base h f Hw Hn. unfold does. specialize (Hg base f Hw Hn). by destruct (g f).
Qed.

Lemma frame_alike g :
  (∀ f, match g f with inl f' => alike f f' | inr w => w ≠ BadPayload end) → frame_keeps 0 g.
Proof.
  intros Hg base f Hw _. specialize (Hg f). destruct (g f) as [f'|w]; [|done].
  destruct (alike_well base f f' Hg Hw) as [Hw' Hn]. split; [done|lia].
Qed.

Lemma or_panic_not {A} (o : option A) w : w ≠ BadPayload → or_panic w o ≠ inr BadPayload.
Proof. destruct o; cbn; congruence. Qed.

(** *** Primitives *)

Lemma env_set_index_depth i v e e' : Env.set_index i v e = Some e' → Env.len e' = Env.len e.
Proof. unfold Env.set_index. destruct (env_values e !! i); [|done]. by intros [= <-]. Qed.

Lemma set_variable_alike n v f :
  match Frame.set_variable n v f with inl f' => alike f f' | inr w => w ≠ BadPayload end.
Proof.
  unfold Frame.set_variable, Env.set_scope0, Env.set, or_panic.
  destruct (name_depth n =? 0); [|destruct (Env.absolute_index _ _ _); [|done]];
    (destruct (Env.set_index _ _ _) as [e'|] eqn:He; [|done]);
    (split; [done..|]; by apply env_set_index_depth in He).
Qed.

Lemma keeps_vset n v : keeps 0 (@vset H n v).
Proof. apply keeps_does, frame_alike. intros f. apply set_variable_alike. Qed.

Lemma keeps_vpop : keeps 0 (@vpop H).
Proof.
  apply keeps_runs. intros f. unfold Frame.pop. by destruct (valstack f).
Qed.

Lemma keeps_vpush v : keeps 0 (@vpush H v).
Proof. by apply keeps_modify. Qed.

Lemma keeps_peek : keeps 0 (@peek H).
Proof. apply keeps_asks. intros f. by apply or_panic_not. Qed.

Lemma keeps_vpoke v : keeps 0 (@vpoke H v).
Proof. apply keeps_does, frame_alike. intros f. unfold Frame.poke. by destruct (valstack f !! 0%nat). Qed.

Lemma keeps_jump l : keeps 0 (@vjump H l).
Proof. apply keeps_does, jump_keeps. Qed.

Lemma keeps_operand {A} (g : PrgInner → option A) : keeps 0 (@operand H A g).
Proof. apply keeps_asks. intros f. by apply or_panic_not. Qed.

Lemma get_env_safe n f : Frame.get_env n f ≠ inr BadPayload.
Proof.
  unfold Frame.get_env, or_panic. destruct (name_depth n =? 0).
  - destruct (Env.get_scope0 _ _) as [[v|]|]; done.
  - destruct (Env.get _ _ _); done.
Qed.

Lemma keeps_get_env n : keeps 0 (@asks H _ (Frame.get_env n)).
Proof. apply keeps_asks, get_env_safe. Qed.

Lemma keeps_pop_scope : keeps 0 (@runs H _ Frame.pop_scope).
Proof.
  intros base h f Hw Hn. unfold runs. pose proof (pop_scope_keeps base f Hw) as Hp.
  destruct (Frame.pop_scope f) as [[t f']|w]; [|done]. destruct Hp as (? & ? & _).
  split; [done|lia].
Qed.
End instructions.

Create HintDb keeps.
#[export] Hint Resolve keeps_ret keeps_stop keeps_host keeps_reads keeps_vset keeps_vpop keeps_vpush
  keeps_peek keeps_vpoke keeps_jump keeps_operand keeps_get_env keeps_pop_scope : keeps.

(** Code that opens no scope, by its structure. *)
Ltac calm :=
  repeat first
    [ progress intros
    | solve [auto with keeps nocore]
    | apply keeps_calm
    | match goal with
      | |- keeps _ (match ?x with _ => _ end) => destruct x
      | |- keeps _ (if ?b then _ else _) => destruct b
      | |- keeps _ (let '(_, _) := ?x in _) => destruct x
      end
    | apply keeps_panic; discriminate
    | apply keeps_modify; intros ?; by split ].

Section operations.
Context {H : Type} `{!VmHost H}.
Context `{Text} `{Interner} `{Addresses} `{OrdMap} `{Printing} `{ErrorText} `{Libm}.
Variable context : FrameExecutionContext.
Variable features : FeaturesConfig.
Notation keeps := (@keeps H).

Lemma keeps_push_error {A} e : keeps 0 (@push_error H A e).
Proof. unfold push_error. calm. Qed.

Lemma keeps_pop_error {A} e : keeps 0 (@pop_error H A e).
Proof. unfold pop_error, push_error. calm. Qed.

Lemma keeps_update_stack g : keeps 0 (@update_stack H g).
Proof. by apply keeps_modify. Qed.

Lemma keeps_at_depth d : keeps 0 (@at_depth H d).
Proof. apply keeps_asks. intros f. by apply or_panic_not. Qed.

Lemma keeps_peek2 : keeps 0 (@asks H _ Frame.peek2).
Proof. apply keeps_asks. intros f. unfold Frame.peek2. destruct (valstack f) as [|a [|b l]]; done. Qed.

Lemma keeps_get_gvar g : keeps 0 (@asks H _ (Frame.get_gvar g)).
Proof.
  apply keeps_asks. intros f. unfold Frame.get_gvar, or_panic.
  destruct (Env.get_scope0 _ _) as [[v|]|]; done.
Qed.

Hint Resolve keeps_push_error keeps_pop_error keeps_update_stack keeps_at_depth keeps_peek2
  keeps_get_gvar : keeps.

Lemma keeps_take_top : keeps 0 (@take_top H).
Proof. unfold take_top. calm. Qed.

Lemma keeps_on_top r : keeps 0 (@on_top H r).
Proof. unfold on_top. calm. Qed.

Hint Resolve keeps_take_top keeps_on_top : keeps.

Lemma keeps_store_result offset n r : keeps 0 (@store_result H offset n r).
Proof. unfold store_result. calm. Qed.

Lemma keeps_host_result {A} (r : result A WorldStateError) : keeps 0 (@host_result H _ A r).
Proof. unfold host_result. calm. Qed.

Hint Resolve keeps_store_result keeps_host_result : keeps.

Lemma keeps_get_property permissions obj p : keeps 0 (get_property permissions obj p features).
Proof. unfold get_property. calm. Qed.

Lemma keeps_prepare_call location this verb args :
  keeps 0 (prepare_call_verb context location this verb args).
Proof. unfold prepare_call_verb, player_for_frame. calm. Qed.

Hint Resolve keeps_get_property keeps_prepare_call : keeps.

Lemma keeps_prepare_dispatch td target verb args :
  keeps 0 (prepare_verb_dispatch context td target verb args).
Proof. unfold prepare_verb_dispatch. calm. Qed.

Lemma keeps_prepare_pass args : keeps 0 (prepare_pass_verb context args).
Proof. unfold prepare_pass_verb. calm. Qed.

Hint Resolve keeps_prepare_dispatch keeps_prepare_pass : keeps.

Lemma keeps_pop_slots n slots : keeps 0 (@pop_slots H _ n slots).
Proof. revert slots. induction n as [|n IH]; intros slots; cbn [pop_slots]; calm. Qed.

Lemma keeps_register n : keeps 0 (@register H n).
Proof. unfold register. calm. Qed.

Hint Resolve keeps_pop_slots keeps_register : keeps.

Lemma keeps_scatter sa : keeps 0 (scatter sa).
Proof.
  assert (∀ table values, keeps 0 (runs (scatter_assign Frame.set_variable table values))) as Hs.
  { intros table values. apply keeps_runs. intros f. unfold scatter_assign.
    set (labels := sa_labels table). destruct (_ || _); [by split|].
    generalize (length values - length (List.filter is_required labels))%nat as navail.
    match goal with |- context [scatter_loop _ _ _ _ _ ?n _ _] => generalize n as nrest end.
    generalize (mkScatterResult None false None None) as r. generalize 0%nat as idx.
    revert values f. assert (∀ f, alike f f) as Hrefl by (by split).
    assert (∀ f f1 f2, alike f f1 → alike f1 f2 → alike f f2) as Htrans
      by (intros f f1 f2 [] []; split; congruence).
    clearbody labels. induction labels as [|l labels IH]; intros args f idx r nrest navail; cbn; [done|].
    assert (∀ n v (k : MooStackFrame → may (ScatterResult * MooStackFrame)),
      (∀ f1, match k f1 with inl (_, f') => alike f1 f' | inr w => w ≠ BadPayload end) →
      match (let! f1 := Frame.set_variable n v f in k f1) with
      | inl (_, f') => alike f f' | inr w => w ≠ BadPayload end) as Hset.
    { intros n v k Hk. pose proof (set_variable_alike n v f) as Ha.
      destruct (Frame.set_variable n v f) as [f1|w]; [|done]. specialize (Hk f1).
      destruct (k f1) as [[x f2]|w]; [by eapply Htrans|done]. }
    destruct l as [n lab|n|n].
    - destruct navail as [|m]; [apply IH|]. destruct args as [|a args]; [done|].
      apply Hset. intros f1. apply IH.
    - destruct args as [|a args]; [done|]. apply Hset. intros f1. apply IH.
    - apply Hset. intros f1. apply IH. }
  unfold scatter. calm.
Qed.

(** *** Loops *)

Lemma keeps_push_scope t w l : fitting t → keeps 1 (does (Frame.push_scope t w l)).
Proof. intros Hf. by apply keeps_does, push_scope_keeps. Qed.

Lemma keeps_condition_jump t label w : fitting t → keeps 1 (condition_jump t label w).
Proof.
  intros Hf. unfold condition_jump. apply (keeps_bind 1 0); [by apply keeps_push_scope|]. calm.
Qed.

Lemma iterable_length v : iterable v = true → ∃ n, len v = Ok n.
Proof.
  unfold iterable, len. destruct v; cbn [is_scalar is_sequence is_associative negb andb];
    try (rewrite andb_false_r; discriminate); intros _; destruct (negb _); by eexists.
Qed.

Lemma keeps_push_non_var_scope t l : fitting t → keeps 1 (does (Frame.push_non_var_scope t l)).
Proof. intros Hf. by apply keeps_does, push_non_var_scope_keeps. Qed.

Hint Resolve keeps_push_scope keeps_push_non_var_scope keeps_condition_jump : keeps.
Hint Extern 0 (fitting _) => exact Logic.I : keeps.

Lemma keeps_begin_for_sequence operand : keeps 1 (begin_for_sequence operand).
Proof.
  unfold begin_for_sequence. apply keeps_calm; [calm|]. intros sequence.
  destruct (bool_decide (type_code sequence = TYPE_STR)) eqn:Hs; [apply keeps_more; calm|].
  destruct (negb _ && negb _) eqn:Hc; [apply keeps_more; calm|].
  destruct (len sequence) as [n|e]; [|apply keeps_more; calm].
  destruct (n =? 0); [apply keeps_more; calm|].
  apply keeps_push_scope. unfold fitting. cbn. unfold iterable. rewrite Hs.
  by destruct (is_sequence sequence), (is_associative sequence).
Qed.

Lemma keeps_begin_for_range operand : keeps 1 (begin_for_range operand).
Proof.
  unfold begin_for_range. apply keeps_calm; [calm|]. intros b. apply keeps_calm; [calm|]. intros a.
  destruct (begin_range a b _ _) as [[r|]|e]; [by apply keeps_push_scope|apply keeps_more; calm..].
Qed.

(** With the scope of the loop at hand. *)
Lemma keeps_for_range : keeps 0 (@iterate_for_range H).
Proof.
  intros base h f Hw Hn. unfold iterate_for_range, vbind at 1, asks, Frame.get_for_range_scope.
  destruct (innermost_keeps base KForRange f Hw eq_refl) as ([[i p]|] & -> & Ho); [|split; [done|lia]].
  destruct Ho as [Hi Hp]. destruct p as [c|s|r]; try done.
  destruct (advance_range r) as [action r'].
  destruct (set_payload_keeps base i _ (PayForRange r') f Hw Hi) as [Hw' Hn'].
  { by intros []. }
  unfold vbind, modify. rewrite <- Hn' in Hn |- *.
  destruct action as [l|x v]; [by apply keeps_jump|by apply keeps_vset].
Qed.

Lemma keeps_for_sequence : keeps 0 (@iterate_for_sequence H _ _ _).
Proof.
  intros base h f Hw Hn. unfold iterate_for_sequence, vbind at 1, asks, Frame.get_for_sequence_scope.
  destruct (innermost_keeps base KForSequence f Hw eq_refl) as ([[i p]|] & -> & Ho); [|split; [done|lia]].
  destruct Ho as [Hi Hp]. destruct p as [c|s|r]; try done. cbn in Hp.
  destruct (iterable_length _ Hp) as [n Hlen]. rewrite Hlen.
  destruct (n <=? fs_current_index s); [by apply keeps_jump|].
  destruct s as [seq index key x y l]. cbn in *.
  assert (∀ key (k : VM H unit), keeps 0 k →
    match vbind (modify (Frame.set_payload i
      (PayForSequence (mkForSequence seq (index + 1) key x y l)))) (λ _, k) h f with
    | VmOk _ _ f' | VmStop _ _ f' => well_scoped base f' ∧ (payloads f' ≤ payloads f + 0)%nat
    | VmPanic w => w ≠ BadPayload
    end) as Hadvance.
  { intros key' k Hk.
    destruct (set_payload_keeps base i _ (PayForSequence (mkForSequence seq (index + 1) key' x y l))
      f Hw Hi) as [Hw' Hn']; [by intros []|].
    unfold vbind, modify. rewrite <- Hn' in Hn |- *. by apply Hk. }
  assert (∀ n v, keeps 0 (@set_opt H n v)) as Hopt by (intros o v; unfold set_opt; calm).
  destruct seq as [| | | | | | |elems|m| | |bytes|]; try discriminate Hp; cbn [sequence_index].
  - destruct (List_.index _ _) as [v|e]; [|split; [done|lia]]. apply Hadvance. calm.
  - destruct (match key with Some k => _ | None => _ end) as [[k v]|e]; [|split; [done|lia]].
    apply Hadvance. calm.
  - destruct (Binary.index _ _) as [v|e]; [|split; [done|lia]]. apply Hadvance. calm.
Qed.
Hint Resolve keeps_scatter keeps_for_range keeps_for_sequence keeps_begin_for_sequence
  keeps_begin_for_range : keeps.

Lemma keeps_variable_not_found {A} o : keeps 0 (@variable_not_found H _ A o).
Proof. unfold variable_not_found. calm. Qed.

Lemma keeps_get_scope0 offset :
  keeps 0 (@asks H _ (λ f, or_panic NoVariable (Env.get_scope0 offset (fr_env f)))).
Proof. apply keeps_asks. intros f. by apply or_panic_not. Qed.

Lemma keeps_peek_abs offset : keeps 0 (@asks H _ (Frame.peek_abs offset)).
Proof. apply keeps_asks. intros f. by apply or_panic_not. Qed.

Lemma opcodes_safe f : Frame.opcodes f ≠ inr BadPayload.
Proof. unfold Frame.opcodes. destruct (fr_pc_type f); [done|by apply or_panic_not..]. Qed.

Lemma keeps_opcodes : keeps 0 (@asks H _ Frame.opcodes).
Proof. apply keeps_asks, opcodes_safe. Qed.

Lemma keeps_lookahead : keeps 0 (@asks H _ Frame.lookahead_ref).
Proof.
  apply keeps_asks. intros f. unfold Frame.lookahead_ref. pose proof (opcodes_safe f) as Hs.
  destruct (Frame.opcodes f); [done|congruence].
Qed.

Lemma keeps_catch_codes v : keeps 0 (@asks H _ (λ _, catch_codes v)).
Proof.
  apply keeps_asks. intros _. unfold catch_codes.
  destruct v as [| |[]| | | | |l| | | | |]; try done. by destruct (mapM as_error l).
Qed.

(** What is taken off the lists beside the scopes. *)
Lemma keeps_taken {A} (g : MooStackFrame → A * MooStackFrame) :
  (∀ f, alike f (g f).2) → keeps 0 (@runs H A (λ f, inl (g f))).
Proof. intros Hg. apply keeps_runs. intros f. specialize (Hg f). by destruct (g f). Qed.

Lemma keeps_take_catches : keeps 0 (@runs H _ (λ f, inl (Frame.take_catch_stack f))).
Proof. by apply keeps_taken. Qed.

Lemma keeps_drain n : keeps 0 (@runs H _ (λ f, inl (Frame.drain_captures_from n f))).
Proof. by apply keeps_taken. Qed.

Lemma keeps_finally_reason : keeps 0 (@runs H _ (λ f, inl (Frame.pop_finally_reason f))).
Proof. apply keeps_taken. intros f. unfold Frame.pop_finally_reason. by destruct (finally_stack f). Qed.

Lemma keeps_range base from to :
  keeps 0 (@asks H _ (λ _, or_panic RangePanic (VarOps.range base from to OneBased))).
Proof. apply keeps_asks. intros f. by apply or_panic_not. Qed.

Hint Resolve keeps_variable_not_found keeps_get_scope0 keeps_peek_abs keeps_opcodes keeps_lookahead
  keeps_catch_codes keeps_take_catches keeps_drain keeps_finally_reason keeps_range : keeps.

Lemma keeps_operation op :
  keeps (match op with
    | Op.If _ _ | Op.Eif _ _ | Op.While _ _ | Op.WhileId _ _ _ | Op.BeginForSequence _
    | Op.BeginForRange _ | Op.TryFinally _ _ | Op.TryCatch _ _ | Op.TryExcept _ _ _
    | Op.BeginScope _ _ | Op.BeginComprehension _ _ _ => 1
    | _ => 0
    end) (execute_op context features op).
Proof.
  destruct op; cbn [execute_op];
    unfold index_set_at, range_set_at, get_prop, push_get_prop, put_prop, put_prop_at, make_flyweight,
      fork, call_verb, end_handler, comprehend_range, comprehend_list, register, continue_comprehension,
      make_lambda, binary_bool_op, binary_cmp_op, binary_var_op;
    try solve [calm].
  apply (keeps_bind 1 0); [auto with keeps|calm].
Qed.

Lemma keeps_step : keeps 1 (vm_step context features).
Proof.
  unfold vm_step. apply keeps_calm; [calm|]. intros ops. apply keeps_calm; [calm|]. intros pc.
  apply keeps_calm; [calm|]. intros _. destruct (ops !! Z.to_nat pc) as [op|]; [|apply keeps_more; calm].
  pose proof (keeps_operation op) as Hop. destruct op; try exact Hop; by apply keeps_more.
Qed.

(** As long as the [u16] that a scope keeps can name its payload. *)
Lemma slice_keeps n tick base h f :
  well_scoped base f → Z.of_nat (payloads f + n) ≤ 65536 →
  match run_slice context features n tick h f with
  | SliceOk _ _ _ f' => well_scoped base f' ∧ (payloads f' ≤ payloads f + n)%nat
  | SlicePanic w => w ≠ BadPayload
  end.
Proof.
  revert tick h f. induction n as [|n IH]; intros tick h f Hw Hn; cbn [run_slice]; [split; [done|lia]|].
  pose proof (keeps_step base h f Hw ltac:(lia)) as Hs.
  destruct (vm_step context features h f) as [u h' f'|r h' f'|w]; [|destruct Hs; split; [done|lia]|done].
  destruct Hs as [Hw' Hn']. specialize (IH (tick + 1) h' f' Hw' ltac:(lia)).
  destruct (run_slice _ _ n _ h' f'); [|done]. destruct IH. split; [done|lia].
Qed.
End operations.

(** ** Errors *)

Section unwinding.
Context `{Text} `{BuiltinNames}.

(** At the same instruction of the same program. *)
Record same_code (f f' : MooStackFrame) : Prop := {
  sm_program : fr_program f' = fr_program f;
  sm_pc_type : fr_pc_type f' = fr_pc_type f;
  sm_pc : fr_pc f' = fr_pc f;
}.

Lemma same_code_trans f g h : same_code f g → same_code g h → same_code f h.
Proof. intros [] []; split; congruence. Qed.

Lemma same_opcodes f f' : same_code f f' → Frame.opcodes f' = Frame.opcodes f.
Proof. intros [Hp Ht _]. unfold Frame.opcodes. by rewrite Hp, Ht. Qed.

Lemma same_position l f f' : same_code f f' → Frame.label_position l f' = Frame.label_position l f.
Proof. intros [Hp _ _]. unfold Frame.label_position. by rewrite Hp. Qed.

(** What leaving a scope gives. *)
Lemma pop_scope_gives base g sc scs :
  well_scoped base g → scope_stack g = sc :: scs →
  ∃ t g', Frame.pop_scope g = inl (Some t, g') ∧ well_scoped base g' ∧ scope_stack g' = scs
    ∧ Frame.kind_of t = sc_kind sc ∧ scope_payloads g' `prefix_of` scope_payloads g
    ∧ same_code g g'
    ∧ ∀ c, t = TyTryCatch c → scope_payloads g !! Z.to_nat (sc_payload sc) = Some (PayTryCatch c).
Proof.
  intros Hw Hs. pose proof (pop_scope_keeps base g Hw) as Hp. pose proof (ws_linked _ _ Hw) as Hl.
  unfold Frame.pop_scope in *. rewrite Hs in Hl, Hp |- *.
  set (f1 := if sc_environment sc then _ else _) in *.
  assert (fr_program f1 = fr_program g ∧ fr_pc_type f1 = fr_pc_type g
          ∧ fr_pc f1 = fr_pc g ∧ scope_payloads f1 = scope_payloads g) as (Ep & Et & Ec & Ey)
    by (unfold f1; by destruct (sc_environment sc)).
  unfold Frame.take_scope_type in *. cbn in Hl, Hp |- *. rewrite Ey in Hp |- *.
  destruct (sc_kind sc) eqn:Hk; cbn in Hl;
    (* the kinds with a payload *)
    try (destruct Hl as (ps' & p & Hps & Hi & Hfit & _); rewrite Hps, last_snoc in Hp |- *;
         cbn in Hfit; destruct p; try done);
    destruct Hp as (Hw' & _ & Htail); eexists _, _;
    (split; [reflexivity|]); split_and!; try done;
    try (split; cbn; by rewrite ?Et, ?Ep, ?Ec);
    try (cbn; rewrite removelast_last; by eexists); try (cbn; by rewrite Ey).
  intros c [= <-]. rewrite Hi, Nat2Z.id, lookup_app_r, Nat.sub_diag by done. done.
Qed.

Lemma leave_same_code scs base f f' :
  well_scoped base f → scope_stack f = scs → Frame.leave_scopes scs f = inl f' → same_code f f'.
Proof.
  revert f. induction scs as [|sc scs IH]; intros f Hw Hs; cbn; [by intros [= ->]|].
  destruct (Frame.encloses (fr_pc f) sc); [by intros [= ->]|].
  destruct (pop_scope_gives base f sc scs Hw Hs) as (t & f1 & -> & Hw1 & Hs1 & _ & _ & Ho & _).
  intros Hf. eapply same_code_trans; [exact Ho|]. by apply IH.
Qed.

Lemma jump_gives base l f :
  well_scoped base f →
  match Frame.jump l f with
  | inl f' => well_scoped base f' ∧ ∃ p, Frame.label_position l f = inl p ∧ same_code (Frame.set_pc p f) f'
  | inr w => w ≠ BadPayload
  end.
Proof.
  intros Hw. unfold Frame.jump. destruct (Frame.label_position l f) as [p|w] eqn:Hp.
  2:{ revert Hp. unfold Frame.label_position, or_panic. destruct (_ <$> _); congruence. }
  assert (well_scoped base (Frame.set_pc p f)) as Hw' by (destruct Hw; by split).
  pose proof (leave_keeps base (scope_stack f) _ Hw') as Hl.
  destruct (Frame.leave_scopes _ _) as [f'|w] eqn:Hf; [|done]. destruct Hl as [Hw2 _].
  split; [done|]. exists p. split; [done|]. by apply (leave_same_code (scope_stack f) base).
Qed.

(** The scopes a walk has reached: those of [g], whose payloads are the first of [f]'s. *)
Record reaches_scopes (base : nat) (f g : MooStackFrame) (scs : list Scope) : Prop := {
  rs_well : well_scoped base g;
  rs_scopes : scope_stack g = scs;
  rs_prefix : scope_payloads g `prefix_of` scope_payloads f;
  rs_program : fr_program g = fr_program f;
  rs_pc_type : fr_pc_type g = fr_pc_type f;
}.

Lemma reach_next base f g sc scs :
  reaches_scopes base f g (sc :: scs) →
  ∃ t g', Frame.pop_scope g = inl (Some t, g') ∧ reaches_scopes base f g' scs
    ∧ Frame.kind_of t = sc_kind sc
    ∧ Frame.try_catches_for_scope sc f = inl (match t with TyTryCatch c => Some c | _ => None end).
Proof.
  intros [Hw Hs Hp Hr Ht].
  destruct (pop_scope_gives base g sc scs Hw Hs) as (t & g' & Hg & Hw' & Hs' & Hk & Hp' & [C1 C2 C3] & Hc).
  exists t, g'. split; [done|]. split.
  { split; try done; [by etrans|congruence..]. }
  split; [done|]. unfold Frame.try_catches_for_scope. rewrite <- Hk.
  destruct t; cbn; try done. by rewrite (prefix_lookup_Some _ _ _ _ (Hc _ eq_refl) Hp).
Qed.

Notation matching e := (λ c : CatchType * Label, Exec.catch_matches c.1 e).

Lemma some_matches_find (catches : list (CatchType * Label)) e :
  Exec.some_matches catches e = match List.find (matching e) catches with
                                | Some _ => true | None => false end.
Proof. induction catches as [|c cs IH]; cbn; [done|]. by destruct (Exec.catch_matches c.1 e). Qed.

Lemma labelled_find (catches : list (CatchType * Label)) e l :
  match List.find (matching e) catches with Some c => c.2 = l | None => True end →
  existsb (λ c : CatchType * Label, Exec.catch_matches c.1 e && (c.2 =? l)) catches
  = match List.find (matching e) catches with Some _ => true | None => false end.
Proof.
  induction catches as [|c cs IH]; cbn; [done|]. destruct (Exec.catch_matches c.1 e); cbn; [|exact IH].
  intros ->. by rewrite Z.eqb_refl.
Qed.

(** The first [catch] the fast path finds is the one unwinding stops at. *)
Lemma label_is_where_unwinding_stops base f scs e l : ∀ g,
  reaches_scopes base f g scs → Exec.scopes_catch_label scs f e = inl (Some l) →
  Exec.scopes_catch scs f e = inl true ∧
  ∃ g1, reaches_scopes base f g1 (scope_stack g1) ∧
    (∀ exn, exn_error exn = e → Exec.unwind_scopes scs (Raise exn) g
     = (let! g2 := Frame.jump l g1 in inl (Some (Frame.push (Exec.catch_value e (exn_stack exn)) g2)))) ∧
    (∀ v, Exec.leave_to_catch scs e l v g
     = (let! g2 := Frame.jump l g1 in
        inl (true, match v with None => Frame.skip g2 | Some v => Frame.push v g2 end))).
Proof.
  induction scs as [|sc scs IH]; intros g Hg; cbn; [done|].
  destruct (reach_next base f g sc scs Hg) as (t & g1 & -> & Hg1 & Hk & Ht).
  pose proof (rs_scopes _ _ _ _ Hg1) as Hs1. rewrite Ht, <- Hk.
  destruct t as [l'|catches| | | | |s|r| |]; cbn; try exact (IH g1 Hg1); [done|].
  rewrite some_matches_find. specialize (IH g1 Hg1).
  destruct (List.find _ catches) as [c|] eqn:Hc.
  - intros [= <-]. split; [done|]. exists g1. rewrite Hs1. split_and!; [done|intros exn <-|intros v].
    + by rewrite Hc.
    + rewrite labelled_find; by rewrite Hc.
  - intros Hl. destruct (IH Hl) as (H1 & g2 & H2 & H3 & H4). split; [done|]. exists g2.
    split_and!; [done|intros exn <-|intros v].
    + rewrite Hc. by apply H3.
    + rewrite labelled_find by (by rewrite Hc). rewrite Hc. apply H4.
Qed.

(** A stack whose verbs are between two instructions. *)
Definition frame_ok (a : Activation) : Prop :=
  match act_frame a with
  | FrameMoo f => ∃ base ops, well_scoped base f ∧ Frame.opcodes f = inl ops
  | _ => True
  end.

Lemma top_moo_above stack above a f below :
  Exec.top_moo stack = Some (above, (a, f), below) →
  stack = above ++ a :: below ∧ act_frame a = FrameMoo f
  ∧ Forall (λ b, ∀ f, act_frame b ≠ FrameMoo f) above.
Proof.
  revert above. induction stack as [|b stack IH]; intros above; cbn; [done|].
  destruct (act_frame b) as [g|g|g] eqn:Hb; [intros [= <- <- <- <-]; by split_and!|..];
    destruct (Exec.top_moo stack) as [[[above' [a' f']] below']|] eqn:Ht; cbn; try done;
    intros [= <- -> -> ->]; destruct (IH _ eq_refl) as (-> & ? & ?);
    (split_and!; [done..|constructor; [intros f''; congruence|done]]).
Qed.

Lemma handler_under above a below e :
  Forall (λ b, ∀ f, act_frame b ≠ FrameMoo f) above →
  Exec.activation_has_catch_for_error a e = inl true →
  Exec.handler_activation_index (above ++ a :: below) e = inl (Some (length below)).
Proof.
  intros Ha Hc. induction Ha as [|b above Hb Ha IH]; cbn; [by rewrite Hc|].
  unfold Exec.activation_has_catch_for_error.
  destruct (act_frame b) as [g| |] eqn:Hg; [by destruct (Hb g)|done..].
Qed.

Lemma unwind_under why above a f below :
  Forall (λ b, ∀ f, act_frame b ≠ FrameMoo f) above → (∀ v, why ≠ ReasonReturn v) →
  act_frame a = FrameMoo f →
  match Exec.unwind_moo_frame why f with
  | inl (Some f') => Exec.unwind_loop why (above ++ a :: below)
                     = inl (More, Act.with_frame (FrameMoo f') a :: below)
  | inl None => True
  | inr w => Exec.unwind_loop why (above ++ a :: below) = inr w
  end.
Proof.
  intros Ha Hr Hf. induction Ha as [|b above Hb Ha IH]; cbn [app Exec.unwind_loop].
  { rewrite Hf. by destruct (Exec.unwind_moo_frame why f) as [[f'|]|]. }
  destruct (act_frame b) as [g| |] eqn:Hg; [by destruct (Hb g)|..];
    (destruct (above ++ a :: below) as [|b' l'] eqn:Hl; [by destruct above|]);
    destruct why; try exact IH; by destruct (Hr v).
Qed.

(** *** Unwinding keeps the scopes of every frame *)

Definition frames_ok (s : ExecState) : Prop := Forall frame_ok (es_stack s).

Definition leaves_ok (r : may (ExecutionResult * ExecState)) : Prop :=
  match r with inl (_, s) => frames_ok s | inr w => w ≠ BadPayload end.

Lemma frame_ok_with f g a base :
  act_frame a = FrameMoo f → frame_ok a → well_scoped base g → Frame.opcodes g = Frame.opcodes f →
  frame_ok (Act.with_frame (FrameMoo g) a).
Proof.
  unfold frame_ok. intros -> (base' & ops & _ & Ho) Hw Hg. exists base, ops. by rewrite Hg.
Qed.

Lemma jumped_ok base l f f' :
  well_scoped base f → Frame.jump l f = inl f' → well_scoped base f' ∧ Frame.opcodes f' = Frame.opcodes f.
Proof.
  intros Hw Hf. pose proof (jump_gives base l f Hw) as Hj. rewrite Hf in Hj.
  destruct Hj as (Hw' & p & _ & Hs). split; [done|]. by rewrite (same_opcodes _ _ Hs).
Qed.

Lemma jump_panics base l f w : well_scoped base f → Frame.jump l f = inr w → w ≠ BadPayload.
Proof. intros Hw Hf. pose proof (jump_gives base l f Hw) as Hj. by rewrite Hf in Hj. Qed.

Lemma reached_opcodes base f g scs : reaches_scopes base f g scs → Frame.opcodes g = Frame.opcodes f.
Proof. intros [_ _ _ Hp Ht]. unfold Frame.opcodes. by rewrite Hp, Ht. Qed.

Lemma unwind_scopes_ok base f scs why : ∀ g, reaches_scopes base f g scs →
  match Exec.unwind_scopes scs why g with
  | inl (Some g') => well_scoped base g' ∧ Frame.opcodes g' = Frame.opcodes f
  | inl None => True
  | inr w => w ≠ BadPayload
  end.
Proof.
  induction scs as [|sc scs IH]; intros g Hg; cbn [Exec.unwind_scopes]; [done|].
  destruct (reach_next base f g sc scs Hg) as (t & g1 & -> & Hg1 & _ & _).
  assert (∀ l (add : MooStackFrame → MooStackFrame),
    (∀ x, alike x (add x) ∧ Frame.opcodes (add x) = Frame.opcodes x) →
    match (let! g2 := Frame.jump l g1 in inl (Some (add g2))) with
    | inl (Some g') => well_scoped base g' ∧ Frame.opcodes g' = Frame.opcodes f
    | inl None => True
    | inr w => w ≠ BadPayload
    end) as Hjump.
  { intros l add Hadd. pose proof (rs_well _ _ _ _ Hg1) as Hw1.
    destruct (Frame.jump l g1) as [g2|w] eqn:Hj; [|by eapply jump_panics].
    destruct (jumped_ok base l g1 g2 Hw1 Hj) as [Hw2 Ho2]. destruct (Hadd g2) as [Ha Ho].
    split; [by apply (alike_well base g2)|]. by rewrite Ho, Ho2, (reached_opcodes _ _ _ _ Hg1). }
  destruct t as [l|catches| | | | |s|r| |]; try exact (IH g1 Hg1); [by apply Hjump|].
  destruct why as [|exn|v| |o l]; try exact (IH g1 Hg1).
  destruct (List.find _ catches); [by apply Hjump|exact (IH g1 Hg1)].
Qed.

Lemma start_of_walk base f : well_scoped base f → reaches_scopes base f f (scope_stack f).
Proof. by split. Qed.

Lemma unwind_frame_ok base f why :
  well_scoped base f →
  match Exec.unwind_moo_frame why f with
  | inl (Some g) => well_scoped base g ∧ Frame.opcodes g = Frame.opcodes f
  | inl None => True
  | inr w => w ≠ BadPayload
  end.
Proof.
  intros Hw. pose proof (unwind_scopes_ok base f _ why f (start_of_walk _ _ Hw)) as Hu.
  destruct why as [|exn|v| |o l]; try exact Hu. cbn.
  destruct (Frame.jump l f) as [g|w] eqn:Hj; [|by eapply jump_panics]. by eapply jumped_ok.
Qed.

Lemma return_value_ok v b : frame_ok b → frame_ok (Act.with_frame (Act.set_return_value v (act_frame b)) b).
Proof.
  unfold frame_ok. destruct (act_frame b) as [f| |]; cbn; [|done..].
  intros (base & ops & Hw & Ho). exists base, ops. split; [by apply (alike_well base f)|done].
Qed.

Lemma unwind_loop_ok why stack :
  Forall frame_ok stack →
  match Exec.unwind_loop why stack with
  | inl (_, stack') => Forall frame_ok stack'
  | inr w => w ≠ BadPayload
  end.
Proof.
  induction 1 as [|a below Ha Hb IH]; cbn [Exec.unwind_loop]; [constructor|].
  assert (∀ r : option MooStackFrame,
    match r with Some g => frame_ok (Act.with_frame (FrameMoo g) a) | None => True end →
    match match r, below, why with
      | Some f, _, _ => inl (More, Act.with_frame (FrameMoo f) a :: below)
      | None, [], _ => inl (Exec.finish_unwind why, [])
      | None, b :: below, ReasonReturn v =>
          inl (More, Act.with_frame (Act.set_return_value v (act_frame b)) b :: below)
      | None, _, _ => Exec.unwind_loop why below
      end with
    | inl (_, stack') => Forall frame_ok stack'
    | inr w => w ≠ BadPayload
    end) as Hr.
  { intros [g|] Hg; [by constructor|]. destruct below as [|b below]; [constructor|].
    apply Forall_cons in Hb as [Hb0 Hb].
    destruct why; try exact IH. constructor; [by apply return_value_ok|done]. }
  destruct (act_frame a) as [f| |] eqn:Hf; [|by apply (Hr None)..].
  pose proof Ha as Ha'. unfold frame_ok in Ha'. rewrite Hf in Ha'. destruct Ha' as (base & ops & Hw & Ho).
  pose proof (unwind_frame_ok base f why Hw) as Hu.
  destruct (Exec.unwind_moo_frame why f) as [r|w]; [|done]. apply Hr. destruct r as [g|]; [|done].
  destruct Hu as [Hwg Hog]. by eapply frame_ok_with.
Qed.

Lemma unwind_stack_ok why s : frames_ok s → leaves_ok (Exec.unwind_stack why s).
Proof.
  intros Hs. unfold Exec.unwind_stack. pose proof (unwind_loop_ok why _ Hs) as Hl.
  by destruct (Exec.unwind_loop why (es_stack s)) as [[r stack]|w].
Qed.

(** *** The error path *)

(** [throw_error] without its fast path. *)
Definition throw_by_unwinding (e : Error) (s : ExecState) : may (ExecutionResult * ExecState) :=
  let! start := Exec.handler_activation_index (es_stack s) e in
  let! entries := Exec.make_stack_list_from (es_stack s) (default 0%nat start) in
  Exec.unwind_stack (Raise (mkException e entries [])) s.

(** The frame on top once more, with its next instruction [Pop] done. *)
Inductive pops_next : ExecState → ExecState → Prop :=
| pops_next_intro s a f below ops v :
    es_stack s = Act.with_frame (FrameMoo (Frame.push v f)) a :: below →
    Frame.opcodes f = inl ops → ops !! Z.to_nat (fr_pc f) = Some Op.Pop →
    pops_next s (with_stack (Act.with_frame (FrameMoo (Frame.skip f)) a :: below) s).

Inductive caught_alike : ExecState → ExecState → Prop :=
| caught_same s : caught_alike s s
| caught_popped s s' : pops_next s s' → caught_alike s s'.

Lemma may_map_safe {A B} (g : A → may B) l :
  (∀ a, g a ≠ inr BadPayload) → Exec.may_map g l ≠ inr BadPayload.
Proof.
  intros Hg. induction l as [|a l IH]; cbn; [done|]. specialize (Hg a).
  destruct (g a); [|congruence]. destruct (Exec.may_map g l); [done|congruence].
Qed.

Lemma stack_list_safe stack i : Exec.make_stack_list_from stack i ≠ inr BadPayload.
Proof.
  apply may_map_safe. intros a. unfold Exec.stack_entry, Act.find_line_no, or_panic.
  destruct (act_frame a) as [f|b|n]; [by destruct (Frame.find_line_no _ _)|by destruct (builtin_name _)|done].
Qed.

(** Where the fast path stops: the frame [f] of [a], whose scopes inside the [catch] at
    [l] have been left in [g]. *)
Record catch_point e stack above a f below l g base : Prop := {
  cp_stack : stack = above ++ a :: below;
  cp_frame : act_frame a = FrameMoo f;
  cp_above : Forall (λ b, ∀ f, act_frame b ≠ FrameMoo f) above;
  cp_opcodes : ∃ ops, Frame.opcodes f = inl ops;
  cp_reached : reaches_scopes base f g (scope_stack g);
  cp_index : Exec.handler_activation_index stack e = inl (Some (length below));
  cp_unwind : ∀ exn, exn_error exn = e → Exec.unwind_moo_frame (Raise exn) f
    = (let! g := Frame.jump l g in inl (Some (Frame.push (Exec.catch_value e (exn_stack exn)) g)));
  cp_leave : ∀ v, Exec.leave_to_catch (scope_stack f) e l v f
    = (let! g := Frame.jump l g in
       inl (true, match v with None => Frame.skip g | Some v => Frame.push v g end));
}.

Lemma catch_point_found e stack above a f below l :
  Forall frame_ok stack → Exec.top_moo stack = Some (above, (a, f), below) →
  Exec.scopes_catch_label (scope_stack f) f e = inl (Some l) →
  ∃ g base, catch_point e stack above a f below l g base.
Proof.
  intros Hs Htop Hl. destruct (top_moo_above _ _ _ _ _ Htop) as (Hst & Hf & Habove).
  assert (frame_ok a) as Ha by (rewrite Hst in Hs; apply Forall_app in Hs as [_ Hs]; by inversion Hs).
  unfold frame_ok in Ha. rewrite Hf in Ha. destruct Ha as (base & ops & Hw & Hops).
  destruct (label_is_where_unwinding_stops base f _ e l f (start_of_walk _ _ Hw) Hl)
    as (Hc & g & Hg & Hu & Hleave).
  exists g, base. split; try done; [by exists ops|].
  rewrite Hst. apply handler_under; [done|]. unfold Exec.activation_has_catch_for_error. by rewrite Hf.
Qed.

Lemma catch_label_safe base f scs e : ∀ g,
  reaches_scopes base f g scs → ∃ o, Exec.scopes_catch_label scs f e = inl o.
Proof.
  induction scs as [|sc scs IH]; intros g Hg; cbn; [by eexists|].
  destruct (reach_next base f g sc scs Hg) as (t & g1 & _ & Hg1 & Hk & Ht). specialize (IH g1 Hg1).
  rewrite Ht, <- Hk. destruct t; cbn; try exact IH; [by eexists|].
  destruct (List.find _ _); [by eexists|exact IH].
Qed.

Lemma catch_point_jump e stack above a f below l g base :
  catch_point e stack above a f below l g base →
  match Frame.jump l g with
  | inl g' => well_scoped base g' ∧ Frame.opcodes g' = Frame.opcodes f
              ∧ Frame.label_position l f = inl (fr_pc g')
  | inr w => w ≠ BadPayload
  end.
Proof.
  intros Hp. pose proof (cp_reached _ _ _ _ _ _ _ _ _ Hp) as Hg.
  pose proof (jump_gives base l g (rs_well _ _ _ _ Hg)) as Hj.
  destruct (Frame.jump l g) as [g'|w]; [|done]. destruct Hj as (Hw & p & Hl & Hs). split_and!; [done|..].
  - rewrite (same_opcodes _ _ Hs). by apply (reached_opcodes _ _ _ _ Hg).
  - rewrite (sm_pc _ _ Hs). cbn. rewrite <- Hl. unfold Frame.label_position. by rewrite (rs_program _ _ _ _ Hg).
Qed.

(** Both ways from there. *)
Definition slow_catch (e : Error) (stack : list Activation) : may (ExecutionResult * list Activation) :=
  let! start := Exec.handler_activation_index stack e in
  let! entries := Exec.make_stack_list_from stack (default 0%nat start) in
  Exec.unwind_loop (Raise (mkException e entries [])) stack.

Lemma slow_catch_gives e stack above a f below l g base :
  catch_point e stack above a f below l g base →
  slow_catch e stack
  = (let! entries := Exec.make_stack_list_from stack (length below) in
     let! g := Frame.jump l g in
     inl (More, Act.with_frame (FrameMoo (Frame.push (Exec.catch_value e entries) g)) a :: below)).
Proof.
  intros Hp. unfold slow_catch. rewrite (cp_index _ _ _ _ _ _ _ _ _ Hp).
  change (default 0%nat (Some (length below))) with (length below).
  destruct (Exec.make_stack_list_from stack (length below)) as [entries|w]; [|done].
  pose proof (unwind_under (Raise (mkException e entries [])) above a f below
    (cp_above _ _ _ _ _ _ _ _ _ Hp) ltac:(discriminate) (cp_frame _ _ _ _ _ _ _ _ _ Hp)) as Hu.
  rewrite (cp_unwind _ _ _ _ _ _ _ _ _ Hp (mkException e entries []) eq_refl) in Hu.
  rewrite (cp_stack _ _ _ _ _ _ _ _ _ Hp). by destruct (Frame.jump l g).
Qed.

Lemma fast_catch_gives e stack above a f below l g base :
  catch_point e stack above a f below l g base → Exec.top_moo stack = Some (above, (a, f), below) →
  Exec.scopes_catch_label (scope_stack f) f e = inl (Some l) →
  Exec.catch_error_in_current_activation e stack
  = (let! discards := Exec.catch_discards_value f l in
     if negb discards && negb (bool_decide (above = [])) then inl (false, stack)
     else if discards then
       let! g := Frame.jump l g in inl (true, Act.with_frame (FrameMoo (Frame.skip g)) a :: below)
     else
       let! entries := Exec.make_stack_list_from stack (length below) in
       let! g := Frame.jump l g in
       inl (true, Act.with_frame (FrameMoo (Frame.push (Exec.catch_value e entries) g)) a :: below)).
Proof.
  intros Hp Htop Hl. unfold Exec.catch_error_in_current_activation. rewrite Htop, Hl.
  destruct (Exec.catch_discards_value f l) as [[]|w]; [| |done]; cbn [negb andb].
  - rewrite (cp_leave _ _ _ _ _ _ _ _ _ Hp). by destruct (Frame.jump l g).
  - destruct (negb (bool_decide _)); [done|].
    destruct (Exec.make_stack_list_from stack (length below)) as [entries|w]; [|done].
    rewrite (cp_leave _ _ _ _ _ _ _ _ _ Hp). by destruct (Frame.jump l g).
Qed.

(** The error path as a whole: not caught by the fast path, it is left to unwinding. *)
Definition no_fast_catch (e : Error) (stack : list Activation) : Prop :=
  Exec.catch_error_in_current_activation e stack = inl (false, stack).

Definition fast_catch (e : Error) (stack : list Activation) : Prop :=
  ∃ above a f below l g base, catch_point e stack above a f below l g base
    ∧ Exec.catch_error_in_current_activation e stack
      = (let! discards := Exec.catch_discards_value f l in
         if discards then
           let! g := Frame.jump l g in inl (true, Act.with_frame (FrameMoo (Frame.skip g)) a :: below)
         else
           let! entries := Exec.make_stack_list_from stack (length below) in
           let! g := Frame.jump l g in
           inl (true, Act.with_frame (FrameMoo (Frame.push (Exec.catch_value e entries) g)) a :: below)).

Lemma fast_catch_or_not e stack : Forall frame_ok stack → no_fast_catch e stack ∨ fast_catch e stack.
Proof.
  intros Hs. unfold no_fast_catch.
  destruct (Exec.top_moo stack) as [[[above [a f]] below]|] eqn:Htop;
    [|left; unfold Exec.catch_error_in_current_activation; by rewrite Htop].
  destruct (top_moo_above _ _ _ _ _ Htop) as (Hst & Hf & _).
  assert (frame_ok a) as Ha by (rewrite Hst in Hs; apply Forall_app in Hs as [_ Hs]; by inversion Hs).
  unfold frame_ok in Ha. rewrite Hf in Ha. destruct Ha as (base & _ & Hw & _).
  destruct (catch_label_safe base f _ e f (start_of_walk _ _ Hw)) as [[l|] Hl];
    [|left; unfold Exec.catch_error_in_current_activation; by rewrite Htop, Hl].
  destruct (catch_point_found e stack above a f below l Hs Htop Hl) as (g & base' & Hp).
  pose proof (fast_catch_gives _ _ _ _ _ _ _ _ _ Hp Htop Hl) as Hfast.
  destruct (Exec.catch_discards_value f l) as [d|w] eqn:Hd.
  - destruct (negb d && negb (bool_decide (above = []))) eqn:Hn; [by left|right].
    exists above, a, f, below, l, g, base'. split; [done|]. by rewrite Hfast, Hd.
  - right. exists above, a, f, below, l, g, base'. split; [done|]. by rewrite Hfast, Hd.
Qed.

Lemma throw_by_unwinding_loop e s :
  throw_by_unwinding e s
  = (let! (r, stack) := slow_catch e (es_stack s) in inl (r, with_stack stack s)).
Proof.
  unfold throw_by_unwinding, slow_catch, Exec.unwind_stack.
  destruct (Exec.handler_activation_index _ _) as [i|]; [|done].
  by destruct (Exec.make_stack_list_from _ _).
Qed.

(** C12: an error reaches the same handler, with the same variables, scopes and stack of
    values, whether [throw_error] takes its fast path or unwinds the stack. Whenever the
    reference [throw_by_unwinding] returns, [throw_error] returns the same result and the
    same stack of activations, or, when the handler starts by discarding what was caught,
    the stack that the machine reaches by that [Pop]. *)
Theorem fast_catch_is_unwinding e s r s' :
  frames_ok s → throw_by_unwinding e s = inl (r, s') →
  ∃ s'', Exec.throw_error e s = inl (r, s'') ∧ caught_alike s' s''.
Proof.
  intros Hs Hslow. assert (with_stack (es_stack s) s = s) as Hsame by (by destruct s).
  unfold Exec.throw_error.
  destruct (fast_catch_or_not e (es_stack s) Hs) as [->|(above & a & f & below & l & g & base & Hp & ->)].
  { exists s'. rewrite Hsame. split; [exact Hslow|constructor]. }
  pose proof (slow_catch_gives _ _ _ _ _ _ _ _ _ Hp) as Hg. unfold slow_catch in Hg.
  pose proof (catch_point_jump _ _ _ _ _ _ _ _ _ Hp) as Hj.
  destruct (cp_opcodes _ _ _ _ _ _ _ _ _ Hp) as [ops Hops].
  rewrite throw_by_unwinding_loop in Hslow. unfold slow_catch in Hslow. rewrite Hg in Hslow.
  destruct (Exec.make_stack_list_from (es_stack s) (length below)) as [entries|w]; [|done].
  unfold Exec.catch_discards_value. rewrite Hops.
  destruct (Frame.jump l g) as [g'|w]; [|done]. destruct Hj as (Hw & Ho & ->).
  injection Hslow as <- <-. destruct (ops !! Z.to_nat (fr_pc g')) as [op|] eqn:Hop;
    [destruct (decide (op = Op.Pop)) as [->|Hne]|].
  - eexists. split; [reflexivity|]. right.
    exact (pops_next_intro
      (with_stack (Act.with_frame (FrameMoo (Frame.push (Exec.catch_value e entries) g')) a :: below) s)
      a g' below ops (Exec.catch_value e entries) eq_refl (eq_trans Ho Hops) Hop).
  - assert ((match op with Op.Pop => true | _ => false end) = false) as -> by (by destruct op).
    eexists. split; [reflexivity|constructor].
  - eexists. split; [reflexivity|constructor].
Qed.

Lemma scopes_catch_safe base f scs e : ∀ g,
  reaches_scopes base f g scs → Exec.scopes_catch scs f e ≠ inr BadPayload.
Proof.
  induction scs as [|sc scs IH]; intros g Hg; cbn; [done|].
  destruct (reach_next base f g sc scs Hg) as (t & g1 & _ & Hg1 & _ & ->). specialize (IH g1 Hg1).
  destruct t; try exact IH. by destruct (Exec.some_matches _ _).
Qed.

Lemma handler_index_safe stack e :
  Forall frame_ok stack → Exec.handler_activation_index stack e ≠ inr BadPayload.
Proof.
  induction 1 as [|a stack Ha Hs IH]; cbn; [done|].
  unfold Exec.activation_has_catch_for_error. unfold frame_ok in Ha.
  destruct (act_frame a) as [f| |]; [|exact IH..]. destruct Ha as (base & ops & Hw & _).
  pose proof (scopes_catch_safe base f _ e f (start_of_walk _ _ Hw)) as Hsafe.
  destruct (Exec.scopes_catch _ _ _) as [[]|w]; [done|exact IH|congruence].
Qed.

Lemma throw_error_ok e s : frames_ok s → leaves_ok (Exec.throw_error e s).
Proof.
  intros Hs. unfold Exec.throw_error.
  destruct (fast_catch_or_not e (es_stack s) Hs) as [->|(above & a & f & below & l & g & base & Hp & ->)].
  - pose proof (handler_index_safe (es_stack s) e Hs) as Hi.
    destruct (Exec.handler_activation_index (es_stack s) e) as [i|w]; [|cbn; congruence].
    pose proof (stack_list_safe (es_stack s) (default 0%nat i)) as Hm.
    destruct (Exec.make_stack_list_from _ _) as [entries|w]; [|cbn; congruence].
    apply unwind_stack_ok. exact Hs.
  - pose proof (catch_point_jump _ _ _ _ _ _ _ _ _ Hp) as Hj.
    destruct (cp_opcodes _ _ _ _ _ _ _ _ _ Hp) as [ops Hops].
    assert (∀ g', well_scoped base g' → Frame.opcodes g' = Frame.opcodes f →
      frames_ok (with_stack (Act.with_frame (FrameMoo g') a :: below) s)) as Hok.
    { intros g' Hw Ho. unfold frames_ok in *. rewrite (cp_stack _ _ _ _ _ _ _ _ _ Hp) in Hs.
      apply Forall_app in Hs as [_ Hs]. apply Forall_cons in Hs as [Ha Hb]. constructor; [|done].
      exists base, ops. by rewrite Ho. }
    unfold Exec.catch_discards_value. rewrite Hops.
    assert (Frame.label_position l f ≠ inr BadPayload) as Hsafe by (by apply or_panic_not).
    destruct (Frame.label_position l f) as [p|w]; [|cbn; congruence].
    destruct (match ops !! _ with Some Op.Pop => true | _ => false end).
    + destruct (Frame.jump l g) as [g'|w]; [|exact Hj]. destruct Hj as (Hw & Ho & _).
      apply Hok; [|done]. by apply (alike_well base g').
    + pose proof (stack_list_safe (es_stack s) (length below)) as Hl.
      destruct (Exec.make_stack_list_from _ _) as [entries|w]; [|cbn; congruence].
      destruct (Frame.jump l g) as [g'|w]; [|exact Hj]. destruct Hj as (Hw & Ho & _).
      apply Hok; [|done]. by apply (alike_well base g').
Qed.
End unwinding.

(** C11: the interpreter always finds the data of a scope where the scope says it is: the
    payloads of loops and of [try]s stay in step with the scopes that own them, and the
    environment as deep as the scopes say, through every instruction of a slice (as long
    as the 16 bits of an index can tell the payloads apart), through the unwinding of
    the stack of activations for every reason, and through the error path. A payload
    that is missing or of the wrong kind, which panics, is never met. *)
Theorem scopes_stay_linked {H} `{!VmHost H} `{Text} `{Interner} `{Addresses} `{OrdMap} `{Printing}
    `{ErrorText} `{Libm} `{BuiltinNames} (context : FrameExecutionContext) (features : FeaturesConfig) :
  (∀ base tick_slice tick h f, well_scoped base f → 0 ≤ tick_slice →
     Z.of_nat (payloads f) + tick_slice ≤ 65536 →
     match moo_frame_execute context features tick_slice tick h f with
     | SliceOk _ _ _ f' => well_scoped base f'
     | SlicePanic w => w ≠ BadPayload
     end) ∧
  (∀ why s, frames_ok s → leaves_ok (Exec.unwind_stack why s)) ∧
  (∀ e s, frames_ok s → leaves_ok (Exec.throw_error e s)).
Proof.
  split; [|split; [exact unwind_stack_ok|exact throw_error_ok]].
  intros base tick_slice tick h f Hw Hticks Hn. unfold moo_frame_execute.
  pose proof (opcodes_safe f) as Hsafe.
  destruct (Frame.opcodes f) as [[|op ops]|w]; [done| |congruence].
  set (n := Z.to_nat _).
  pose proof (slice_keeps context features n tick base h f Hw ltac:(lia)) as Hs.
  destruct (run_slice context features n tick h f); [by destruct Hs|done].
Qed.

(** ** A run with a loop, an error and its handler *)

From S2P Require Import Ast CodegenState Codegen CodegenMain ExprMain.

Module FrameDemo.
Import Demo ExprDemo.

#[export] Instance demo_builtin_names : BuiltinNames := { builtin_name _ := None }.

(** [for x in [1..3] try x / 0; except (E_DIV) return x; endtry endfor] *)
Definition division : Parse :=
  mkParse
    [stmt_new (SForRange x (EValue (VInt 1)) (EValue (VInt 3))
       [stmt_new (STryExcept
          [stmt_new (SExpr (EBinary BDiv (EId x) (EValue (VInt 0)))) (3, 1)]
          [mkExceptArm None (Codes [Normal (EError E_DIV None)])
             [stmt_new (SExpr (EReturn (Some (EId x)))) (5, 1)]] 0) (2, 1)] 0) (1, 1)] names_x.

Definition division_program : PrgInner :=
  match do_compile division false with CgOk prg _ => prg | _ => program_new end.

Definition started : MooStackFrame :=
  Frame.new_with_all_globals division_program (VObj SYSTEM_OBJECT) (VObj SYSTEM_OBJECT)
    (VObj SYSTEM_OBJECT) (VStr []) (VList []) (VStr []).

(** In the body of the [try], after the division. *)
Definition divided : MooStackFrame :=
  match moo_frame_execute demo_context demo_features 30 0 tt started with
  | SliceOk _ _ _ f => f
  | _ => started
  end.

Definition running : ExecState :=
  mkExec 1 [mkActivation (FrameMoo divided) (VObj SYSTEM_OBJECT) SYSTEM_OBJECT (mkSymbol "test")
              (Act.eval_verb (mkUuid 0)) (Permissions.new SYSTEM_OBJECT (mkBitEnum 0))] SYSTEM_OBJECT.

Lemma started_well : well_scoped 1 started.
Proof. by split. Qed.

Lemma divided_well : well_scoped 1 divided.
Proof.
  assert (divided = ltac:(let f := eval vm_compute in divided in exact f)) as -> by (vm_compute; reflexivity).
  split; [|reflexivity]. cbn. exists [PayForRange (RangeInt 2 3 (mkName 11 0 0) 0)]. eexists.
  split_and!; [reflexivity..|exact Logic.I|]. exists []. eexists. by split_and!.
Qed.

Lemma running_ok : frames_ok running.
Proof.
  repeat constructor. exists 1%nat, (main_vector division_program).
  split; [exact divided_well|vm_compute; reflexivity].
Qed.

Definition division_error : Error := with_msg E_DIV (lit "division by zero").

Example scopes_stay_linked_witness :
  well_scoped 1 started ∧ payloads divided = 2%nat ∧
  match moo_frame_execute demo_context demo_features 30 0 tt started with
  | SliceOk r _ _ f' => r = PushError division_error ∧ well_scoped 1 f'
  | SlicePanic _ => False
  end ∧
  leaves_ok (Exec.throw_error division_error running).
Proof.
  split; [exact started_well|]. split; [vm_compute; reflexivity|].
  destruct (scopes_stay_linked demo_context demo_features) as (Hslice & _ & Hthrow).
  split; [|exact (Hthrow division_error running running_ok)].
  specialize (Hslice 1%nat 30 0 tt started started_well ltac:(lia) ltac:(vm_compute; discriminate)).
  destruct (moo_frame_execute _ _ 30 0 tt started) as [r t h f|w] eqn:Hrun.
  - split; [|exact Hslice]. vm_compute in Hrun. injection Hrun as <- _ _ _. vm_compute. reflexivity.
  - vm_compute in Hrun. discriminate.
Defined.

Example fast_catch_is_unwinding_witness :
  frames_ok running ∧
  ∃ r s' s'', throw_by_unwinding division_error running = inl (r, s') ∧ r = More
    ∧ Exec.throw_error division_error running = inl (r, s'') ∧ caught_alike s' s''
    ∧ (∃ a g, es_stack s'' = [a] ∧ act_frame a = FrameMoo g ∧ fr_pc g = 14 ∧ payloads g = 1%nat
              ∧ valstack g = []).
Proof.
  split; [exact running_ok|].
  destruct (throw_by_unwinding division_error running) as [[r s']|w] eqn:Hslow;
    [|vm_compute in Hslow; discriminate].
  destruct (fast_catch_is_unwinding division_error running r s' running_ok Hslow) as (s'' & Hfast & Ha).
  exists r, s', s''. split; [reflexivity|]. split; [vm_compute in Hslow; congruence|].
  split; [exact Hfast|]. split; [exact Ha|]. vm_compute in Hfast. injection Hfast as _ <-.
  eexists _, _. split; [reflexivity|]. split; [reflexivity|]. repeat split.
Defined.

(** [x = 0; while (1) try break; finally x = 1; endtry endwhile return x;] *)
Definition leaving : Parse :=
  mkParse
    [stmt_new (SExpr (EAssign (EId x) (EValue (VInt 0)))) (1, 1);
     stmt_new (SWhile None (EValue (VInt 1))
       [stmt_new (STryFinally [stmt_new (SBreak None) (4, 1)]
          [stmt_new (SExpr (EAssign (EId x) (EValue (VInt 1)))) (6, 1)] 0) (3, 1)] 0) (2, 1);
     stmt_new (SExpr (EReturn (Some (EId x)))) (9, 1)] names_x.

Definition start (p : Parse) : MooStackFrame :=
  match do_compile p false with
  | CgOk prg _ =>
      Frame.new_with_all_globals prg (VObj SYSTEM_OBJECT) (VObj SYSTEM_OBJECT) (VObj SYSTEM_OBJECT)
        (VStr []) (VList []) (VStr [])
  | _ => started
  end.

Definition demo_run (f : MooStackFrame) : slice_out :=
  moo_frame_execute demo_context demo_features 100 0 tt f.

(** The handler of the [finally] is not run. *)
Example break_skips_finally :
  match demo_run (start leaving) with
  | SliceOk (Unwind why) _ _ f =>
      match Exec.unwind_moo_frame why f with
      | inl (Some f) =>
          match demo_run f with SliceOk (ReturnValue v) _ _ _ => v = VInt 0 | _ => False end
      | _ => False
      end
  | _ => False
  end.
Proof. vm_compute. reflexivity. Qed.
End FrameDemo.
