(* ===== verification/Loops.v ===== *)
(** Counted loops and destructuring, as functions of their operands: the values a
    [for] over a range binds (crates/vm/src/moo_execute.rs) and where the arguments of
    a scatter go (scatter_assign.rs). *)
From S2P Require Import Prelude Obj TxTypes Float64 Opcodes Values ValueOrder Scalars.
From S2P Require Import Environment Frame Machine Vm Activation.
From stdpp Require Import base gmap list strings.

Open Scope Z_scope.
Open Scope frame_scope.

(** ** Ranges *)

(** The variables bound until the loop leaves by its label. *)
Fixpoint range_run (n : nat) (r : ForRangeScope) : option (list (Name * Var) * Label) :=
  match n with
  | O => None
  | S n =>
      match advance_range r with
      | (RangeJump l, _) => Some ([], l)
      | (RangeBind x v, r) => (λ o, ((x, v) :: o.1, o.2)) <$> range_run n r
      end
  end.

(** Counting up to the largest number there is: instead of stepping past it the loop
    lowers its end. *)
Lemma counted_run (mk : Z → Z → ForRangeScope) (v : Z → Var) lo hi x l :
  lo < hi →
  (∀ c e, advance_range (mk c e)
          = if e <? c then (RangeJump l, mk c e)
            else (RangeBind x (v c), if c =? hi then mk c (if lo <? e then e - 1 else e) else mk (c + 1) e)) →
  ∀ n a b, lo ≤ a → b ≤ hi → a ≤ b + 1 → (Z.to_nat (b - a + 1) < n)%nat →
  range_run n (mk a b) = Some ((λ i, (x, v i)) <$> seqZ a (b - a + 1), l).
Proof.
  intros Hlo Hstep. induction n as [|n IH]; intros a b Ha Hb Hab Hn; [lia|]. cbn [range_run].
  rewrite Hstep. destruct (Z.ltb_spec b a); [by rewrite seqZ_nil by lia|].
  rewrite seqZ_cons by lia. destruct (Z.eqb_spec a hi) as [->|Hne].
  - assert (b = hi) as -> by lia. destruct (Z.ltb_spec lo hi); [|lia].
    destruct n as [|n]; [lia|]. cbn [range_run]. rewrite Hstep. destruct (Z.ltb_spec (hi - 1) hi); [|lia].
    by rewrite seqZ_nil by lia.
  - rewrite IH by lia. replace (b - (a + 1) + 1) with (Z.pred (b - a + 1)) by lia. done.
Qed.

(** C13: a [for] over a range of integers or of object numbers binds its variable to every
    number from the first to the last, once each and in order, and then leaves by its end
    label, also when the last is the largest number of the type; an empty range is left
    before the scope is made, and the two ends are of one type. Over floats, a step that is
    lost in rounding is never the last. *)
Theorem for_range_counts x l :
  (∀ a b, in_i64 a = true → in_i64 b = true →
     match begin_range (VInt a) (VInt b) x l with
     | inl None => b < a
     | inl (Some r) => a ≤ b ∧ ∀ n, (Z.to_nat (b - a + 1) < n)%nat →
         range_run n r = Some ((λ i, (x, VInt i)) <$> seqZ a (b - a + 1), l)
     | inr _ => False
     end) ∧
  (∀ o p a b, id o = Some (mkObjid a) → id p = Some (mkObjid b) →
     - 2 ^ 31 ≤ a < 2 ^ 31 → - 2 ^ 31 ≤ b < 2 ^ 31 →
     match begin_range (VObj o) (VObj p) x l with
     | inl None => b < a
     | inl (Some r) => a ≤ b ∧ ∀ n, (Z.to_nat (b - a + 1) < n)%nat →
         range_run n r = Some ((λ i, (x, VObj (mk_id i))) <$> seqZ a (b - a + 1), l)
     | inr _ => False
     end) ∧
  (∀ v w, same_numeric_type v w = false → ∃ e, begin_range v w x l = inr e ∧ err_type e = E_TYPE) ∧
  (∀ c last, total_cmp c last ≠ Datatypes.Gt → f64_add c f64_one = c →
     begin_range (VFloat c) (VFloat last) x l = inl (Some (RangeFloat c last x l)) ∧
     ∀ n, range_run n (RangeFloat c last x l) = None).
Proof.
  split; [|split; [|split]].
  - intros a b Ha Hb. cbn. destruct (Z.ltb_spec b a); [done|]. split; [done|]. intros n Hn.
    unfold in_i64 in *. apply (counted_run (λ c e, RangeInt c e x l) VInt i64_min i64_max); try lia.
    + done.
    + intros c e. cbn. by destruct (e <? c), (c =? i64_max).
  - intros o p a b Ho Hp Ha Hb. cbn. rewrite Ho, Hp. cbn. destruct (Z.ltb_spec b a); [done|].
    split; [done|]. intros n Hn.
    apply (counted_run (λ c e, RangeObj c e x l) (λ i, VObj (mk_id i)) i32_min_v i32_max_v);
      unfold i32_min_v, i32_max_v; try lia.
    intros c e. cbn. unfold i32_min_v, i32_max_v. by destruct (e <? c), (c =? 2 ^ 31 - 1).
  - intros v w Hvw. unfold begin_range. rewrite Hvw. by eexists.
  - intros c last Hc Hadd. split; [cbn; by destruct (total_cmp c last)|].
    induction n as [|n IH]; cbn [range_run advance_range]; [done|].
    destruct (total_cmp c last); [| |done]; by rewrite Hadd, IH.
Qed.

Definition float_edge : f64 := f64_of_int (2 ^ 53).

Example for_range_counts_witness :
  let x := mkName 11 0 0 in
  (∃ r, begin_range (VInt (i64_max - 1)) (VInt i64_max) x 3 = inl (Some r) ∧
        range_run 3 r = Some ([(x, VInt (i64_max - 1)); (x, VInt i64_max)], 3)) ∧
  (∃ r, begin_range (VObj (mk_id 1)) (VObj (mk_id 2)) x 3 = inl (Some r) ∧
        range_run 3 r = Some ([(x, VObj (mk_id 1)); (x, VObj (mk_id 2))], 3)) ∧
  (∃ e, begin_range (VInt 1) (VFloat f64_one) x 3 = inr e ∧ err_type e = E_TYPE) ∧
  (∀ n, range_run n (RangeFloat float_edge (f64_of_int (2 ^ 53 + 2)) x 3) = None).
Proof.
  intros x. split; [|split; [|split]].
  - destruct (for_range_counts x 3) as (Hint & _). specialize (Hint (i64_max - 1) i64_max eq_refl eq_refl).
    match type of Hint with match ?m with _ => _ end => assert (m = inl (Some (RangeInt (i64_max - 1) i64_max x 3))) as Hr by (vm_compute; reflexivity) end.
    rewrite Hr in Hint. destruct Hint as [_ Hrun]. eexists. split; [exact Hr|].
    rewrite (Hrun 3%nat) by (vm_compute; repeat constructor). vm_compute. reflexivity.
  - destruct (for_range_counts x 3) as (_ & Hobj & _).
    specialize (Hobj (mk_id 1) (mk_id 2) 1 2 eq_refl eq_refl ltac:(lia) ltac:(lia)).
    match type of Hobj with match ?m with _ => _ end => assert (m = inl (Some (RangeObj 1 2 x 3))) as Hr by (vm_compute; reflexivity) end.
    rewrite Hr in Hobj. destruct Hobj as [_ Hrun]. eexists. split; [exact Hr|].
    rewrite (Hrun 3%nat) by (vm_compute; repeat constructor). vm_compute. reflexivity.
  - apply (for_range_counts x 3). reflexivity.
  - apply (for_range_counts x 3); vm_compute; [discriminate|reflexivity].
Defined.

(** ** Destructuring *)

Definition is_optional (l : ScatterLabel) : bool :=
  match l with SOptional _ _ => true | _ => false end.

Definition count (p : ScatterLabel → bool) (labels : list ScatterLabel) : nat :=
  length (List.filter p labels).

(** The variables that get a value when [k] optional ones do: the first [k]. *)
Fixpoint given (k : nat) (labels : list ScatterLabel) : list ScatterLabel :=
  match labels with
  | [] => []
  | SOptional n j :: labels =>
      match k with O => given 0 labels | S k => SOptional n j :: given k labels end
  | l :: labels => l :: given k labels
  end.

(** The optional variable after those, its index and its default. *)
Fixpoint missing (k idx : nat) (labels : list ScatterLabel) : option (nat * option Label) :=
  match labels with
  | [] => None
  | SOptional _ j :: labels =>
      match k with O => Some (idx, j) | S k => missing k (idx + 1) labels end
  | _ :: labels => missing k (idx + 1) labels
  end.

(** The arguments a value stands for. *)
Definition spread (l : ScatterLabel) (v : Var) : list Var :=
  match l, v with SRest _, VList vs => vs | _, _ => [v] end.

Section destructuring.
Context {St : Type} (set_var : Name → Var → St → may St).

Fixpoint assign_all (nvs : list (Name * Var)) (s : St) : may St :=
  match nvs with
  | [] => inl s
  | (n, v) :: nvs => let! s := set_var n v s in assign_all nvs s
  end.

(** The result when the optional variable [o] is the first without a value. *)
Definition with_missing (o : option (nat * option Label)) (r : ScatterResult) : ScatterResult :=
  match scr_first_default_index r, o with
  | None, Some (idx, j) => mkScatterResult (scr_result r) true j (Some idx)
  | _, _ => r
  end.

(** [values] for the variables that get one, all the arguments in order. *)
Record distributes (labels : list ScatterLabel) (values args : list Var) : Prop := {
  ds_length : length values = length labels;
  ds_lists : Forall2 (λ l v, match l with SRest _ => ∃ vs, v = VList vs | _ => True end) labels values;
  ds_all : concat (zip_with spread labels values) = args;
}.

Lemma distributes_one l labels v values args :
  (∀ n, l ≠ SRest n) → distributes labels values args → distributes (l :: labels) (v :: values) (v :: args).
Proof.
  intros Hl [Hn Hf Ha]. split; cbn; [by f_equal|constructor; [|done]|].
  - destruct l; [done..|by destruct (Hl id)].
  - rewrite Ha. destruct l; [done..|by destruct (Hl id)].
Qed.

Lemma distributes_rest n labels vs values args :
  distributes labels values args → distributes (SRest n :: labels) (VList vs :: values) (vs ++ args).
Proof.
  intros [Hn Hf Ha]. split; cbn; [by f_equal|constructor; [by eexists|done]|by rewrite Ha].
Qed.

Definition bindings (labels : list ScatterLabel) (values : list Var) : list (Name * Var) :=
  zip_with (λ l v, (Act.label_name l, v)) labels values.

Lemma one_more {A} l v labels args (rest : St → may A) (k : St → may A) :
  (∀ n, l ≠ SRest n) →
  (∃ values, distributes labels values args ∧
     ∀ s, rest s = (let! s := assign_all (bindings labels values) s in k s)) →
  ∃ values, distributes (l :: labels) values (v :: args) ∧
     ∀ s, (let! s := set_var (Act.label_name l) v s in rest s)
          = (let! s := assign_all (bindings (l :: labels) values) s in k s).
Proof.
  intros Hl (values & Hd & Hs). exists (v :: values). split; [by apply distributes_one|].
  intros s. cbn. destruct (set_var _ v s) as [s'|]; [apply Hs|done].
Qed.

Lemma scatter_loop_gives labels : ∀ idx args navail nrest r,
  (count is_rest labels ≤ 1)%nat →
  length args = (count is_required labels + Nat.min navail (count is_optional labels)
                 + count is_rest labels * nrest)%nat →
  (scr_first_default_index r = None → scr_first_default_label r = None) →
  ∃ values, distributes (given navail labels) values args
    ∧ ∀ s, scatter_loop set_var labels idx args navail nrest r s
           = (let! s := assign_all (bindings (given navail labels) values) s in
              inl (with_missing (missing navail idx labels) r, s)).
Proof.
  unfold count. induction labels as [|l labels IH]; intros idx args navail nrest r Hrest Hlen Hr.
  { destruct args; [|cbn in Hlen; lia]. exists []. split; [done|]. intros s. cbn. unfold with_missing.
    by destruct (scr_first_default_index r). }
  destruct l as [n j|n|n]; cbn in Hrest, Hlen |- *.
  - destruct navail as [|k].
    + set (r' := match scr_first_default_label r with Some _ => _ | None => _ end).
      destruct (IH (idx + 1)%nat args 0%nat nrest r' Hrest) as (values & Hv & Hrun); [lia|..].
      { unfold r'. clear -Hr. destruct r as [e d [lab|] [i|]]; cbn in *; done. }
      exists values. split; [done|]. intros s. rewrite Hrun. destruct (assign_all _ _); [|done].
      do 2 f_equal. unfold r', with_missing. clear -Hr.
      destruct r as [e d [lab|] [i|]]; cbn in *; try done. by specialize (Hr eq_refl).
    + destruct args as [|a args]; [cbn in Hlen; lia|]. cbn in Hlen.
      apply (one_more (SOptional n j) a); [done|]. apply IH; [done|lia|done].
  - destruct args as [|a args]; [cbn in Hlen; lia|]. cbn in Hlen.
    apply (one_more (SRequired n) a); [done|]. apply IH; [done|lia|done].
  - destruct (IH (idx + 1)%nat (drop nrest args) navail nrest r ltac:(lia)) as (values & Hv & Hrun);
      [rewrite length_drop; lia|done|].
    exists (VList (take nrest args) :: values). split.
    + rewrite <- (take_drop nrest args) at 2. by apply distributes_rest.
    + intros s. cbn. destruct (set_var n _ s); [apply Hrun|done].
Qed.

Lemma label_kinds labels :
  length labels = (count is_required labels + count is_optional labels + count is_rest labels)%nat.
Proof. unfold count. induction labels as [|[] labels IH]; cbn; lia. Qed.

(** C14: a scatter fails with [E_ARGS] and assigns nothing when there are fewer values than
    required variables, or more than variables and no rest to take them. Otherwise every
    value goes to one variable, in order: each required variable gets one, as many
    optional ones, the first, as there are values left over do, the rest variable gets a
    list of what remains; and the first optional variable without a value, if there is
    one, is where the defaults start. *)
Theorem scatter_distributes table args s :
  let labels := sa_labels table in
  let required := count is_required labels in
  (count is_rest labels ≤ 1)%nat →
  if (length args <? required)%nat
     || ((count is_rest labels =? 0)%nat && (length labels <? length args)%nat)
  then scatter_assign set_var table args s = inl (scatter_failed, s)
  else
    let extra := (length args - required)%nat in
    ∃ values, distributes (given extra labels) values args
      ∧ scatter_assign set_var table args s
        = (let! s := assign_all (bindings (given extra labels) values) s in
           inl (match missing extra 0 labels with
                | Some (idx, j) => mkScatterResult None true j (Some idx)
                | None => mkScatterResult None false None None
                end, s)).
Proof.
  intros labels required Hrest. unfold scatter_assign. fold labels.
  change (length (List.filter is_rest labels)) with (count is_rest labels).
  change (length (List.filter is_required labels)) with required.
  pose proof (label_kinds labels) as Hk. fold required in Hk.
  replace (negb (0 <? count is_rest labels)%nat) with (count is_rest labels =? 0)%nat
    by (destruct (count is_rest labels); done).
  destruct (_ || _) eqn:Hbad; [done|]. apply orb_false_iff in Hbad as [Hreq Hmany].
  apply Nat.ltb_ge in Hreq.
  set (nrest := if _ && _ then _ else _).
  destruct (scatter_loop_gives labels 0 args (length args - required) nrest
              (mkScatterResult None false None None)) as (values & Hd & Hrun); [done| |done|].
  - fold required. unfold nrest. destruct (count is_rest labels) as [|[|?]]; [|..|lia]; cbn in Hmany |- *.
    + apply Nat.ltb_ge in Hmany. lia.
    + destruct (Nat.leb_spec (length labels) (length args)); lia.
  - exists values. split; [done|]. by rewrite Hrun.
Qed.
End destructuring.

(** [{a, ?b = …, @rest, c} = {1, 2}] and with four values *)
Section demo.
Definition demo_table : ScatterArgs :=
  mkScatterArgs [SRequired (mkName 0 0 0); SOptional (mkName 1 0 0) (Some 7); SRest (mkName 2 0 0);
                 SRequired (mkName 3 0 0)] 9.

Definition record (n : Name) (v : Var) (s : list (Name * Var)) : may (list (Name * Var)) :=
  inl (s ++ [(n, v)]).

Example scatter_distributes_witness :
  (∃ values, distributes (given 0 (sa_labels demo_table)) values [VInt 1; VInt 2] ∧
     scatter_assign record demo_table [VInt 1; VInt 2] []
     = inl (mkScatterResult None true (Some 7) (Some 1%nat),
            [(mkName 0 0 0, VInt 1); (mkName 2 0 0, VList []); (mkName 3 0 0, VInt 2)])) ∧
  (∃ values, distributes (given 2 (sa_labels demo_table)) values [VInt 1; VInt 2; VInt 3; VInt 4] ∧
     scatter_assign record demo_table [VInt 1; VInt 2; VInt 3; VInt 4] []
     = inl (mkScatterResult None false None None,
            [(mkName 0 0 0, VInt 1); (mkName 1 0 0, VInt 2); (mkName 2 0 0, VList [VInt 3]);
             (mkName 3 0 0, VInt 4)])).
Proof.
  split.
  - destruct (scatter_distributes record demo_table [VInt 1; VInt 2] [] (le_n 1)) as (values & Hd & _).
    exists values. split; [exact Hd|reflexivity].
  - destruct (scatter_distributes record demo_table [VInt 1; VInt 2; VInt 3; VInt 4] [] (le_n 1))
      as (values & Hd & _).
    exists values. split; [exact Hd|reflexivity].
Defined.

(** [{a, ?b, ?c = 8, @d, ?e = 9, f} = {1, 2}]: as [b] has no default, none is taken. *)
Example later_defaults_skipped :
  match scatter_assign record
    (mkScatterArgs [SRequired (mkName 0 0 0); SOptional (mkName 1 0 0) None;
                    SOptional (mkName 2 0 0) (Some 7); SRest (mkName 3 0 0);
                    SOptional (mkName 4 0 0) (Some 8); SRequired (mkName 5 0 0)] 9)
    [VInt 1; VInt 2] [] with
  | inl (r, _) => scr_result r = None ∧ scr_first_default_label r = None
  | inr _ => False
  end.
Proof. by split. Qed.
End demo.
