(* ===== verification/Schedule.v ===== *)
(** Native schedules (crates/kernel/src/tasks/schedule_q.rs): records of what verb to
    run, when and how often, kept by the scheduler outside of the database.

    Times are nanoseconds: a [SystemTime] since the Unix epoch, an [Instant] since some
    moment, a [Duration] not negative. The timer wheel is a third-party crate and the
    class [Wheel]; random draws and the size of a value are parameters too. Metrics and
    log messages are left out; counters are unbounded where the code does not saturate. *)
From S2P Require Import Prelude Obj TxTypes Float64 Opcodes Values ValueOrder Scalars Containers VarOps.
From Stdlib Require Import Floats.SpecFloat.
From stdpp Require Import base gmap list strings sorting.

Open Scope Z_scope.

(** ** Time *)

Definition SystemTime : Type := Z.
Definition Instant : Type := Z.
Definition Duration : Type := Z.

Definition nanos_per_sec : Z := 1000000000.
Definition nanos_per_milli : Z := 1000000.

(** A [SystemTime] has signed 64-bit seconds. *)
Definition in_system_time (t : Z) : bool :=
  (- 2 ^ 63 * nanos_per_sec <=? t) && (t <? 2 ^ 63 * nanos_per_sec).

Definition checked_add (t : SystemTime) (d : Duration) : option SystemTime :=
  if in_system_time (t + d) then Some (t + d) else None.
Definition checked_sub (t : SystemTime) (d : Duration) : option SystemTime :=
  if in_system_time (t - d) then Some (t - d) else None.

(** [t.duration_since(u)]; [None] when [u] is later. *)
Definition duration_since (t u : SystemTime) : option Duration :=
  if u <=? t then Some (t - u) else None.
Definition since_or_zero (t u : SystemTime) : Duration := default 0 (duration_since t u).

(** [Duration::as_secs_f64] *)
Definition as_secs_f64 (d : Duration) : f64 :=
  f64_add (f64_of_int (d `div` nanos_per_sec))
    (f64_div (f64_of_int (d `mod` nanos_per_sec)) (f64_of_int nanos_per_sec)).

(** The nearest integer, to even when between two. *)
Definition round_half_even (num den : Z) : Z :=
  let q := num `div` den in let r := num `mod` den in
  match 2 * r ?= den with
  | Datatypes.Lt => q
  | Datatypes.Gt => q + 1
  | Datatypes.Eq => if Z.even q then q else q + 1
  end.

(** [Duration::try_from_secs_f64] *)
Definition try_from_secs_f64 (x : f64) : option Duration :=
  match x with
  | S754_zero _ => Some 0
  | S754_finite false m e =>
      let n := if 0 <=? e then Z.pos m * 2 ^ e * nanos_per_sec
               else round_half_even (Z.pos m * nanos_per_sec) (2 ^ (- e)) in
      if n <? 2 ^ 64 * nanos_per_sec then Some n else None
  | _ => None
  end.

(** The last deadline: the largest number of whole seconds in 64 bits of nanoseconds. *)
Definition MAX_DEADLINE_SECS : Z := u64_max `div` nanos_per_sec.
Definition max_deadline : SystemTime := MAX_DEADLINE_SECS * nanos_per_sec.

Definition deadline_after (base : SystemTime) (delta : Duration) : option SystemTime :=
  match checked_add base delta with
  | Some t => if t <=? max_deadline then Some t else None
  | None => None
  end.

(** The first point of the cadence after [now] and how many were stepped over. *)
Definition next_cadence_after (from : SystemTime) (interval : Duration) (now : SystemTime)
  : option (SystemTime * Z) :=
  match duration_since now from with
  | None => Some (from, 0)
  | Some gap =>
      if interval =? 0 then None
      else
        let steps := gap `div` interval + 1 in
        let advance := steps * interval in
        if 2 ^ 128 <=? advance then None
        else if u64_max <? advance `div` nanos_per_sec then None
        else
          match deadline_after from advance with
          | Some next => if steps <=? u64_max then Some (next, steps) else None
          | None => None
          end
  end.

(** ** Schedules *)

Definition ScheduleId : Type := Z.
Definition TaskId : Type := Z.
Definition MAX_STATE_BYTES : Z := 4096.
Definition DURATION_SAMPLES : nat := 32.

Inductive ScheduleKind := KindAt | KindEvery (interval : Duration).
Inductive CatchupPolicy := CatchupSkip | CatchupOnce | CatchupAll.
Inductive OverlapPolicy := OverlapSkip | OverlapQueue | OverlapConcurrent.

#[export] Instance CatchupPolicy_eq_dec : EqDecision CatchupPolicy.
Proof. solve_decision. Defined.

Record ScheduleOptions := mkOptions {
  so_adaptive : bool;
  so_catchup : CatchupPolicy;
  so_overlap : OverlapPolicy;
  so_jitter : Duration;
  so_max_faults : option Z;
  so_pass_elapsed : bool;
  so_state : option Var;
  so_persist : bool;
  so_player : option Obj;
}.

Definition for_kind (kind : ScheduleKind) : ScheduleOptions :=
  mkOptions (match kind with KindAt => true | _ => false end) CatchupSkip OverlapSkip 0 (Some 50)
    true None true None.

Inductive ScheduleError := InvalidInterval | InvalidWhen | StateTooLarge (n : Z).

Inductive RetireReason :=
| OneShotDone | ReturnedZero | NegativeReturn | MaxFaults | DeadlineOutOfRange | InvalidTarget.

Definition retire_reason_str (r : RetireReason) : string :=
  match r with
  | OneShotDone => "one_shot_done"
  | ReturnedZero => "returned_zero"
  | NegativeReturn => "negative_return"
  | MaxFaults => "max_faults"
  | DeadlineOutOfRange => "deadline_out_of_range"
  | InvalidTarget => "invalid_target"
  end.

Inductive Outcome := OutSuccess (v : Var) | OutFault (v : Var).
Inductive Completion := Rearmed (t : SystemTime) | Retired (r : RetireReason).

Inductive PendingKind := PendingAt (when : SystemTime) | PendingEvery (interval : Duration).

(** What a creation is given beside its time. *)
Record Firee := mkFiree {
  fe_target : Obj;
  fe_verb : Symbol;
  fe_args : list Var;
  fe_authority_principal : Obj;
  fe_owner : Obj;
}.

Record PendingCreate := mkPending {
  pc_id : ScheduleId;
  pc_kind : PendingKind;
  pc_firee : Firee;
  pc_options : ScheduleOptions;
}.

Record RunningFiring := mkRunning {
  rf_task : TaskId;
  rf_deadline : SystemTime;
  rf_started_at : SystemTime;
}.

Record ScheduleEntry := mkEntry {
  se_id : ScheduleId;
  se_firee : Firee;
  se_kind : ScheduleKind;
  se_options : ScheduleOptions;
  se_created_at : SystemTime;
  se_next_run : option SystemTime;
  se_scheduled_deadline : option SystemTime;
  se_last_run : option SystemTime;
  se_last_duration : option Duration;
  se_run_count : Z;
  se_fault_count : Z;
  se_consecutive_faults : Z;
  se_last_fault : option Var;
  se_missed_count : Z;
  se_overlap_count : Z;
  se_running : list RunningFiring;
  se_queued_firing : bool;
  se_interval_clamped : bool;
  se_retired : option RetireReason;
  se_durations : list Duration;
}.

Module Entry.
(** *** Updates *)

Definition set_times (next_run scheduled_deadline last_run : option SystemTime) (e : ScheduleEntry) :=
  mkEntry (se_id e) (se_firee e) (se_kind e) (se_options e) (se_created_at e) next_run
    scheduled_deadline last_run (se_last_duration e) (se_run_count e) (se_fault_count e)
    (se_consecutive_faults e) (se_last_fault e) (se_missed_count e) (se_overlap_count e)
    (se_running e) (se_queued_firing e) (se_interval_clamped e) (se_retired e) (se_durations e).

Definition set_next_run (t : SystemTime) e : ScheduleEntry :=
  set_times (Some t) (se_scheduled_deadline e) (se_last_run e) e.
Definition set_deadline (t : SystemTime) e : ScheduleEntry :=
  set_times (se_next_run e) (Some t) (se_last_run e) e.
Definition set_last_run (t : SystemTime) e : ScheduleEntry :=
  set_times (se_next_run e) (se_scheduled_deadline e) (Some t) e.

Definition set_counts (run fault consecutive : Z) (last_fault : option Var) (missed overlap : Z)
    (e : ScheduleEntry) :=
  mkEntry (se_id e) (se_firee e) (se_kind e) (se_options e) (se_created_at e) (se_next_run e)
    (se_scheduled_deadline e) (se_last_run e) (se_last_duration e) run fault consecutive last_fault
    missed overlap (se_running e) (se_queued_firing e) (se_interval_clamped e) (se_retired e)
    (se_durations e).

Definition saturating_add (a b : Z) : Z := Z.min (a + b) u64_max.

Definition succeeded e : ScheduleEntry :=
  set_counts (se_run_count e + 1) (se_fault_count e) 0 (se_last_fault e) (se_missed_count e)
    (se_overlap_count e) e.
Definition faulted (v : Var) e : ScheduleEntry :=
  set_counts (se_run_count e) (se_fault_count e + 1) (wrap 32 (se_consecutive_faults e + 1)) (Some v)
    (se_missed_count e) (se_overlap_count e) e.
Definition count_fault e : ScheduleEntry :=
  set_counts (se_run_count e) (se_fault_count e + 1) (se_consecutive_faults e) (se_last_fault e)
    (se_missed_count e) (se_overlap_count e) e.
Definition add_missed (n : Z) e : ScheduleEntry :=
  set_counts (se_run_count e) (se_fault_count e) (se_consecutive_faults e) (se_last_fault e)
    (saturating_add (se_missed_count e) n) (se_overlap_count e) e.
Definition add_overlap (n : Z) e : ScheduleEntry :=
  set_counts (se_run_count e) (se_fault_count e) (se_consecutive_faults e) (se_last_fault e)
    (se_missed_count e) (saturating_add (se_overlap_count e) n) e.

Definition set_firings (running : list RunningFiring) (queued : bool) (next_run : option SystemTime)
    (retired : option RetireReason) (e : ScheduleEntry) :=
  mkEntry (se_id e) (se_firee e) (se_kind e) (se_options e) (se_created_at e) next_run
    (se_scheduled_deadline e) (se_last_run e) (se_last_duration e) (se_run_count e) (se_fault_count e)
    (se_consecutive_faults e) (se_last_fault e) (se_missed_count e) (se_overlap_count e)
    running queued (se_interval_clamped e) retired (se_durations e).

Definition set_running (l : list RunningFiring) e : ScheduleEntry :=
  set_firings l (se_queued_firing e) (se_next_run e) (se_retired e) e.
Definition set_queued (b : bool) e : ScheduleEntry :=
  set_firings (se_running e) b (se_next_run e) (se_retired e) e.
Definition set_retired (r : RetireReason) e : ScheduleEntry := set_firings [] false None (Some r) e.

(** *** [ScheduleEntry] *)

Definition is_live (e : ScheduleEntry) : bool := bool_decide (is_Some (se_next_run e)).

Definition push_duration (d : Duration) (e : ScheduleEntry) :=
  let ds := if (length (se_durations e) =? DURATION_SAMPLES)%nat then tail (se_durations e)
            else se_durations e in
  mkEntry (se_id e) (se_firee e) (se_kind e) (se_options e) (se_created_at e) (se_next_run e)
    (se_scheduled_deadline e) (se_last_run e) (Some d) (se_run_count e) (se_fault_count e)
    (se_consecutive_faults e) (se_last_fault e) (se_missed_count e) (se_overlap_count e)
    (se_running e) (se_queued_firing e) (se_interval_clamped e) (se_retired e) (ds ++ [d]).

Definition mean_duration (e : ScheduleEntry) : option Duration :=
  match se_durations e with
  | [] => None
  | ds => Some (foldr Z.add 0 ds `div` Z.of_nat (length ds))
  end.

(** [as usize] of the least integer above a float that is not negative. *)
Definition ceil_nat (x : f64) : nat :=
  match x with
  | S754_finite false m e =>
      if 0 <=? e then Z.to_nat (Z.pos m * 2 ^ e)
      else Z.to_nat ((Z.pos m + 2 ^ (- e) - 1) `div` 2 ^ (- e))
  | _ => O
  end.

Definition p99_duration (e : ScheduleEntry) : option Duration :=
  match se_durations e with
  | [] => None
  | ds =>
      let sorted := merge_sort Z.le ds in
      let idx := ceil_nat (f64_mul (f64_of_int (Z.of_nat (length ds)))
                             (f64_div (f64_of_int 99) (f64_of_int 100))) in
      sorted !! Nat.min (idx - 1) (length ds - 1)
  end.

(** An entry that has never fired. *)
Definition fresh (id : ScheduleId) (w : Firee) (kind : ScheduleKind) (o : ScheduleOptions)
    (created_at next_run deadline : SystemTime) (clamped : bool) : ScheduleEntry :=
  mkEntry id w kind o created_at (Some next_run) (Some deadline) None None 0 0 0 None 0 0 [] false
    clamped None [].
End Entry.

Definition from_persisted (id : ScheduleId) (w : Firee) (kind : ScheduleKind) (o : ScheduleOptions)
    (created_at : SystemTime) (next_run scheduled_deadline last_run : option SystemTime)
    (run_count fault_count consecutive_faults missed_count overlap_count : Z) (clamped : bool)
  : ScheduleEntry :=
  mkEntry id w kind o created_at next_run scheduled_deadline last_run None run_count fault_count
    consecutive_faults None missed_count overlap_count [] false clamped None [].

(** ** The timer wheel *)

Record ScheduleTimerEntry := mkTimerEntry {
  te_id : ScheduleId;
  te_delay : Duration;
  te_generation : Z;
}.

Inductive Skip := SkipEmpty | SkipMillis (n : Z) | SkipNone.

(** [QuadWheelWithOverflow]; a [None] of [insert_with_delay] is its error. *)
Class Wheel (W : Type) := {
  wheel_new : W;
  insert_with_delay : ScheduleTimerEntry → Duration → W → option W;
  can_skip : W → Skip;
  wheel_skip : Z → W → W;
  wheel_tick : W → list ScheduleTimerEntry * W;
}.

(** [random_range(-j..=j)], the draws numbered. *)
Class Random := { random_range : nat → f64 → f64 }.
Class Sizes := { size_bytes : Var → Z }.

(** ** The queue *)

Record ScheduleExpiry := mkExpiry { ex_id : ScheduleId; ex_generation : Z }.

#[export] Instance ScheduleExpiry_eq_dec : EqDecision ScheduleExpiry.
Proof. solve_decision. Defined.

Record ScheduleQ (W : Type) := mkQ {
  sq_entries : gmap ScheduleId ScheduleEntry;
  sq_wheel : W;
  sq_generations : gmap ScheduleId Z;
  sq_next_generation : Z;
  sq_immediate : list ScheduleExpiry;
  sq_next_id : ScheduleId;
  sq_by_owner : gmap Obj (gset ScheduleId);
  sq_by_target : gmap Obj (gset ScheduleId);
  sq_by_task : gmap TaskId ScheduleId;
  sq_tick : Duration;
  sq_last_advance : option Instant;
  sq_retired_queue : list (SystemTime * ScheduleId);
  sq_draws : nat;
}.
Arguments mkQ {W}. Arguments sq_entries {W}. Arguments sq_wheel {W}. Arguments sq_generations {W}.
Arguments sq_next_generation {W}. Arguments sq_immediate {W}. Arguments sq_next_id {W}.
Arguments sq_by_owner {W}. Arguments sq_by_target {W}. Arguments sq_by_task {W}.
Arguments sq_tick {W}. Arguments sq_last_advance {W}. Arguments sq_retired_queue {W}.
Arguments sq_draws {W}.

Definition RETIRED_RETENTION : Duration := 60 * nanos_per_sec.

(** Sets kept per key, without empty ones. *)
Definition index_insert (k : Obj) (id : ScheduleId) (m : gmap Obj (gset ScheduleId)) :=
  <[k := {[id]} ∪ default ∅ (m !! k)]> m.
Definition index_remove (k : Obj) (id : ScheduleId) (m : gmap Obj (gset ScheduleId)) :=
  match m !! k with
  | Some s => let s := s ∖ {[id]} in if bool_decide (s = ∅) then delete k m else <[k := s]> m
  | None => m
  end.

Section queue.
Context {W : Type} `{!Wheel W} `{Random} `{Sizes}.
#[local] Notation ScheduleQ := (ScheduleQ W).
Implicit Types q : ScheduleQ.

(** *** Updates *)

Definition set_entries (m : gmap ScheduleId ScheduleEntry) q : ScheduleQ :=
  mkQ m (sq_wheel q) (sq_generations q) (sq_next_generation q) (sq_immediate q) (sq_next_id q)
    (sq_by_owner q) (sq_by_target q) (sq_by_task q) (sq_tick q) (sq_last_advance q)
    (sq_retired_queue q) (sq_draws q).
Definition set_timers (w : W) (gens : gmap ScheduleId Z) (next_gen : Z) (imm : list ScheduleExpiry) q
  : ScheduleQ :=
  mkQ (sq_entries q) w gens next_gen imm (sq_next_id q) (sq_by_owner q) (sq_by_target q) (sq_by_task q)
    (sq_tick q) (sq_last_advance q) (sq_retired_queue q) (sq_draws q).
Definition set_indexes (owners targets : gmap Obj (gset ScheduleId)) (tasks : gmap TaskId ScheduleId) q
  : ScheduleQ :=
  mkQ (sq_entries q) (sq_wheel q) (sq_generations q) (sq_next_generation q) (sq_immediate q)
    (sq_next_id q) owners targets tasks (sq_tick q) (sq_last_advance q) (sq_retired_queue q)
    (sq_draws q).
Definition set_next_id (n : ScheduleId) q : ScheduleQ :=
  mkQ (sq_entries q) (sq_wheel q) (sq_generations q) (sq_next_generation q) (sq_immediate q) n
    (sq_by_owner q) (sq_by_target q) (sq_by_task q) (sq_tick q) (sq_last_advance q)
    (sq_retired_queue q) (sq_draws q).
Definition set_clock (w : W) (last : option Instant) q : ScheduleQ :=
  mkQ (sq_entries q) w (sq_generations q) (sq_next_generation q) (sq_immediate q) (sq_next_id q)
    (sq_by_owner q) (sq_by_target q) (sq_by_task q) (sq_tick q) last (sq_retired_queue q) (sq_draws q).
Definition set_retired_queue (l : list (SystemTime * ScheduleId)) q : ScheduleQ :=
  mkQ (sq_entries q) (sq_wheel q) (sq_generations q) (sq_next_generation q) (sq_immediate q)
    (sq_next_id q) (sq_by_owner q) (sq_by_target q) (sq_by_task q) (sq_tick q) (sq_last_advance q)
    l (sq_draws q).
Definition draw q : ScheduleQ :=
  mkQ (sq_entries q) (sq_wheel q) (sq_generations q) (sq_next_generation q) (sq_immediate q)
    (sq_next_id q) (sq_by_owner q) (sq_by_target q) (sq_by_task q) (sq_tick q) (sq_last_advance q)
    (sq_retired_queue q) (S (sq_draws q)).

Definition upd_entry (id : ScheduleId) (g : ScheduleEntry → ScheduleEntry) q : ScheduleQ :=
  set_entries (alter g id (sq_entries q)) q.

Definition new (tick : Duration) : ScheduleQ :=
  mkQ ∅ wheel_new ∅ 0 [] 1 ∅ ∅ ∅ tick None [] 0.

(** *** Arming *)

(** [deadline ± jitter], not earlier than [floor + tick]. *)
Definition jittered (deadline : SystemTime) (jitter : Duration) (floor : SystemTime) q
  : SystemTime * ScheduleQ :=
  if jitter =? 0 then (deadline, q)
  else
    let offset_secs := random_range (sq_draws q) (as_secs_f64 jitter) in
    let offset := default 0 (try_from_secs_f64 (f64_abs offset_secs)) in
    let result := if SFleb f64_zero offset_secs then default deadline (deadline_after deadline offset)
                  else default deadline (checked_sub deadline offset) in
    let min := default floor (checked_add floor (sq_tick q)) in
    (if result <? min then min else result, draw q).

Definition arm (id : ScheduleId) (deadline now : SystemTime) q : ScheduleQ :=
  let generation := sq_next_generation q + 1 in
  let gens := <[id := generation]> (sq_generations q) in
  let delay := since_or_zero deadline now in
  let now_due := sq_immediate q ++ [mkExpiry id generation] in
  let q :=
    if delay <? nanos_per_milli then set_timers (sq_wheel q) gens generation now_due q
    else
      match insert_with_delay (mkTimerEntry id delay generation) delay (sq_wheel q) with
      | Some w => set_timers w gens generation (sq_immediate q) q
      | None => set_timers (sq_wheel q) gens generation now_due q
      end in
  upd_entry id (Entry.set_next_run deadline) q.

(** *** Creation *)

Definition reserve_id q : ScheduleId * ScheduleQ := (sq_next_id q, set_next_id (sq_next_id q + 1) q).
Definition restore_next_id (n : ScheduleId) q : ScheduleQ := set_next_id (Z.max (sq_next_id q) n) q.

Definition validate_state (o : ScheduleOptions) : result unit ScheduleError :=
  match so_state o with
  | Some s => if MAX_STATE_BYTES <? size_bytes s then Err (StateTooLarge (size_bytes s)) else Ok tt
  | None => Ok tt
  end.

Definition validate_every (interval : Duration) (o : ScheduleOptions) (now : SystemTime) q
  : result unit ScheduleError :=
  if interval =? 0 then Err InvalidInterval
  else
    match deadline_after now (Z.max interval (sq_tick q)) with
    | None => Err InvalidWhen
    | Some _ => validate_state o
    end.

Definition validate_at (when : SystemTime) (o : ScheduleOptions) : result unit ScheduleError :=
  if max_deadline <? when then Err InvalidWhen else validate_state o.

Definition insert_entry (e : ScheduleEntry) q : ScheduleQ :=
  set_indexes (index_insert (fe_owner (se_firee e)) (se_id e) (sq_by_owner q))
    (index_insert (fe_target (se_firee e)) (se_id e) (sq_by_target q)) (sq_by_task q)
    (set_entries (<[se_id e := e]> (sq_entries q)) q).

Definition insert_at (id : ScheduleId) (when : SystemTime) (w : Firee) (o : ScheduleOptions)
    (now : SystemTime) q : result unit ScheduleError * ScheduleQ :=
  if max_deadline <? when then (Err InvalidWhen, q)
  else
    match validate_state o with
    | Err e => (Err e, q)
    | Ok _ =>
        (Ok tt, arm id when now (insert_entry (Entry.fresh id w KindAt o now when when false) q))
    end.

Definition insert_every (id : ScheduleId) (interval : Duration) (w : Firee) (o : ScheduleOptions)
    (now : SystemTime) q : result unit ScheduleError * ScheduleQ :=
  if interval =? 0 then (Err InvalidInterval, q)
  else
    match validate_state o with
    | Err e => (Err e, q)
    | Ok _ =>
        let clamped := interval <? sq_tick q in
        let interval := if clamped then sq_tick q else interval in
        match deadline_after now interval with
        | None => (Err InvalidWhen, q)
        | Some first =>
            let '(next, q) := jittered first (so_jitter o) now q in
            (Ok tt, arm id next now
                      (insert_entry (Entry.fresh id w (KindEvery interval) o now next first clamped) q))
        end
    end.

Definition add_pending (p : PendingCreate) (now : SystemTime) q : ScheduleQ :=
  (match pc_kind p with
   | PendingAt t => insert_at (pc_id p) t (pc_firee p) (pc_options p) now q
   | PendingEvery i => insert_every (pc_id p) i (pc_firee p) (pc_options p) now q
   end).2.

Definition add_at (when : SystemTime) (w : Firee) (o : ScheduleOptions) (now : SystemTime) q
  : result ScheduleId ScheduleError * ScheduleQ :=
  match validate_state o with
  | Err e => (Err e, q)
  | Ok _ =>
      let '(id, q) := reserve_id q in
      let '(r, q) := insert_at id when w o now q in
      (match r with Ok _ => Ok id | Err e => Err e end, q)
  end.

Definition add_every (interval : Duration) (w : Firee) (o : ScheduleOptions) (now : SystemTime) q
  : result ScheduleId ScheduleError * ScheduleQ :=
  if interval =? 0 then (Err InvalidInterval, q)
  else
    match validate_state o with
    | Err e => (Err e, q)
    | Ok _ =>
        let '(id, q) := reserve_id q in
        let '(r, q) := insert_every id interval w o now q in
        (match r with Ok _ => Ok id | Err e => Err e end, q)
    end.

(** *** Queries *)

Definition is_valid (id : ScheduleId) q : bool :=
  match sq_entries q !! id with Some e => Entry.is_live e | None => false end.
Definition info (id : ScheduleId) q : option ScheduleEntry := sq_entries q !! id.

Definition sorted_ids (s : gset ScheduleId) : list ScheduleId := merge_sort Z.le (elements s).
Definition for_owner (o : Obj) q : list ScheduleId := sorted_ids (default ∅ (sq_by_owner q !! o)).
Definition for_target (o : Obj) q : list ScheduleId := sorted_ids (default ∅ (sq_by_target q !! o)).
Definition all_ids q : list ScheduleId := sorted_ids (dom (sq_entries q)).
Definition schedule_for_task (t : TaskId) q : option ScheduleId := sq_by_task q !! t.

Definition expiry (id : ScheduleId) q : option ScheduleExpiry :=
  (λ g, mkExpiry id g) <$> sq_generations q !! id.
Definition is_current_expiry (x : ScheduleExpiry) q : bool :=
  bool_decide (sq_generations q !! ex_id x = Some (ex_generation x)) && is_valid (ex_id x) q.

Definition persistable q : list ScheduleEntry :=
  List.filter (λ e, so_persist (se_options e) && Entry.is_live e)
    ((map_to_list (sq_entries q)).*2).
End queue.

Section lifecycle.
Context {W : Type} `{!Wheel W} `{Random} `{Sizes}.
#[local] Notation ScheduleQ := (ScheduleQ W).
Implicit Types q : ScheduleQ.

(** *** Ending *)

(** A schedule leaves the indexes and its timers. *)
Definition forget (id : ScheduleId) (w : Firee) (running : list RunningFiring) q : ScheduleQ :=
  let q := set_timers (sq_wheel q) (delete id (sq_generations q)) (sq_next_generation q)
             (List.filter (λ x, negb (ex_id x =? id)) (sq_immediate q)) q in
  set_indexes (index_remove (fe_owner w) id (sq_by_owner q))
    (index_remove (fe_target w) id (sq_by_target q))
    (foldl (λ m r, delete (rf_task r) m) (sq_by_task q) running) q.

Definition stop (id : ScheduleId) q : bool * ScheduleQ :=
  match sq_entries q !! id with
  | None => (false, q)
  | Some e =>
      let q := set_entries (delete id (sq_entries q)) q in
      if negb (Entry.is_live e) then (false, q)
      else (true, forget id (se_firee e) (se_running e) q)
  end.

Definition retire (id : ScheduleId) (reason : RetireReason) (now : SystemTime) q : ScheduleQ :=
  match sq_entries q !! id with
  | None => q
  | Some e =>
      match se_retired e with
      | Some _ => q
      | None =>
          let q := set_retired_queue (sq_retired_queue q ++ [(now, id)]) q in
          let q := upd_entry id (Entry.set_retired reason) q in
          forget id (se_firee e) (se_running e) q
      end
  end.

Fixpoint purge_loop (now : SystemTime) (l : list (SystemTime * ScheduleId)) q : ScheduleQ :=
  match l with
  | [] => set_retired_queue [] q
  | (retired_at, id) :: rest =>
      let due := default retired_at (checked_add retired_at RETIRED_RETENTION) in
      if now <? due then set_retired_queue l q
      else
        let gone := match sq_entries q !! id with
                    | Some e => bool_decide (is_Some (se_retired e))
                    | None => false
                    end in
        purge_loop now rest (if gone then set_entries (delete id (sq_entries q)) q else q)
  end.

Definition purge_retired (now : SystemTime) q : ScheduleQ := purge_loop now (sq_retired_queue q) q.

Definition retire_out_of_range (id : ScheduleId) (now : SystemTime) q : ScheduleQ :=
  retire id DeadlineOutOfRange now (upd_entry id Entry.count_fault q).

(** *** The next deadline *)

Definition rearm (id : ScheduleId) (next now : SystemTime) (jitter : Duration) q : ScheduleQ :=
  let '(t, q) := jittered next jitter now q in arm id t now q.

Definition skip_overlapped (id : ScheduleId) (now : SystemTime) q : ScheduleQ :=
  match sq_entries q !! id with
  | None => q
  | Some e =>
      let q := upd_entry id (Entry.add_overlap 1) q in
      match se_kind e with
      | KindAt => q
      | KindEvery interval =>
          let base := default now (se_scheduled_deadline e) in
          match (match deadline_after base interval with
                 | Some first => next_cadence_after first interval now
                 | None => None
                 end) with
          | None => retire_out_of_range id now q
          | Some (next, passed) =>
              let q := upd_entry id (λ e, Entry.set_deadline next (Entry.add_overlap passed e)) q in
              rearm id next now (so_jitter (se_options e)) q
          end
      end
  end.

Definition fire_queued (id : ScheduleId) (interval : Duration) (now : SystemTime) q : ScheduleQ :=
  match sq_entries q !! id with
  | None => q
  | Some e =>
      let q := upd_entry id (Entry.set_queued false) q in
      let queued := default now (se_scheduled_deadline e) in
      let q :=
        match (match deadline_after queued interval with
               | Some first => next_cadence_after first interval now
               | None => None
               end) with
        | Some (next, passed) =>
            if 0 <? passed then
              match checked_sub next interval with
              | Some latest => upd_entry id (λ e, Entry.set_deadline latest (Entry.add_overlap passed e)) q
              | None => q
              end
            else q
        | None => q
        end in
      arm id now now q
  end.

Definition arm_after (id : ScheduleId) (deadline : SystemTime) (interval : Duration)
    (now : SystemTime) q : ScheduleQ :=
  match sq_entries q !! id with
  | None => q
  | Some e =>
      match deadline_after deadline interval with
      | None => retire_out_of_range id now q
      | Some first =>
          let go next q :=
            rearm id next now (so_jitter (se_options e)) (upd_entry id (Entry.set_deadline next) q) in
          if now <? first then go first q
          else
            match so_catchup (se_options e) with
            | CatchupAll => go first q
            | catchup =>
                match next_cadence_after first interval now with
                | None => retire_out_of_range id now q
                | Some (next, passed) =>
                    go next (if decide (catchup = CatchupSkip)
                             then upd_entry id (Entry.add_missed passed) q else q)
                end
            end
      end
  end.

(** *** Expiry *)

(** Each round takes a millisecond or more off [remaining]. *)
Fixpoint advance_loop (fuel : nat) (remaining : Z) (w : W) (acc : list ScheduleTimerEntry)
  : list ScheduleTimerEntry * W :=
  match fuel with
  | O => (acc, w)
  | S fuel =>
      if remaining <=? 0 then (acc, w)
      else
        match can_skip w with
        | SkipEmpty => (acc, wheel_skip remaining w)
        | SkipMillis skippable =>
            let to_skip := Z.min skippable remaining in
            advance_loop fuel (remaining - to_skip) (wheel_skip to_skip w) acc
        | SkipNone => let '(l, w) := wheel_tick w in advance_loop fuel (remaining - 1) w (acc ++ l)
        end
  end.

Definition advance_wheel (now : Instant) q : list ScheduleTimerEntry * ScheduleQ :=
  let last := default now (sq_last_advance q) in
  if now <=? last then ([], set_clock (sq_wheel q) (Some now) q)
  else
    let elapsed_millis := wrap 32 ((now - last) `div` nanos_per_milli) in
    let '(l, w) := advance_loop (Z.to_nat elapsed_millis) elapsed_millis (sq_wheel q) [] in
    (l, set_clock w (Some (last + elapsed_millis * nanos_per_milli)) q).

Fixpoint dedup (seen : gset ScheduleId) (l : list ScheduleId) : list ScheduleId :=
  match l with
  | [] => []
  | x :: l => if bool_decide (x ∈ seen) then dedup seen l else x :: dedup ({[x]} ∪ seen) l
  end.

(** The overlap policy on what is due: the schedules to fire. *)
Fixpoint apply_overlap (now : SystemTime) (ids : list ScheduleId) q : list ScheduleId * ScheduleQ :=
  match ids with
  | [] => ([], q)
  | id :: ids =>
      let '(keep, q) :=
        match sq_entries q !! id with
        | None => (false, q)
        | Some e =>
            if negb (Entry.is_live e) then (false, q)
            else
              match se_running e, so_overlap (se_options e) with
              | [], _ => (true, q)
              | _, OverlapSkip => (false, skip_overlapped id now q)
              | _, OverlapQueue => (false, upd_entry id (Entry.set_queued true) q)
              | _, OverlapConcurrent => (true, q)
              end
        end in
      let '(kept, q) := apply_overlap now ids q in
      (if keep then id :: kept else kept, q)
  end.

Definition expired (now : Instant) (now_sys : SystemTime) q : list ScheduleId * ScheduleQ :=
  let q := purge_retired now_sys q in
  let immediate := sq_immediate q in
  let q := set_timers (sq_wheel q) (sq_generations q) (sq_next_generation q) [] q in
  let ids := ex_id <$> List.filter (λ x, is_current_expiry x q) immediate in
  let '(timers, q) := advance_wheel now q in
  let due := List.filter
    (λ e, bool_decide (sq_generations q !! te_id e = Some (te_generation e))) timers in
  apply_overlap now_sys (dedup ∅ (ids ++ (te_id <$> due))) q.

(** *** Firing and completion *)

Definition mark_fired (id : ScheduleId) (task : TaskId) (fired_at : SystemTime) q
  : option Duration * ScheduleQ :=
  match sq_entries q !! id with
  | None => (None, q)
  | Some e =>
      if negb (Entry.is_live e) then (None, q)
      else
        let elapsed := (λ l, since_or_zero fired_at l) <$> se_last_run e in
        let deadline := default fired_at (se_scheduled_deadline e) in
        let q := upd_entry id (λ e, Entry.set_last_run fired_at
                   (Entry.set_running (se_running e ++ [mkRunning task deadline fired_at]) e)) q in
        let q := set_indexes (sq_by_owner q) (sq_by_target q) (<[task := id]> (sq_by_task q)) q in
        let q := set_timers (sq_wheel q) (delete id (sq_generations q)) (sq_next_generation q)
                   (sq_immediate q) q in
        (elapsed, match se_kind e with
                  | KindEvery interval => arm_after id deadline interval fired_at q
                  | KindAt => q
                  end)
  end.

Definition take_firing (task : TaskId) (l : list RunningFiring)
  : option (RunningFiring * list RunningFiring) :=
  match list_find (λ r, rf_task r = task) l with
  | Some (i, r) => Some (r, take i l ++ drop (S i) l)
  | None => None
  end.

Definition as_float_numeric (v : Var) : option f64 :=
  match v with VFloat x => Some x | VInt i => Some (f64_of_int i) | _ => None end.

Definition retired_with (id : ScheduleId) (r : RetireReason) (now : SystemTime) q
  : option Completion * ScheduleQ := (Some (Retired r), retire id r now q).

(** [complete] once the outcome is recorded and the cadence decides. *)
Definition complete_cadence (id : ScheduleId) (finished_at : SystemTime) (e : ScheduleEntry) q
  : option Completion * ScheduleQ :=
  match se_kind e with
  | KindAt => retired_with id OneShotDone finished_at q
  | KindEvery interval =>
      if se_queued_firing e then (Some (Rearmed finished_at), fire_queued id interval finished_at q)
      else
        match sq_entries q !! id with
        | Some e => (Rearmed <$> se_next_run e, q)
        | None => (None, q)
        end
  end.

Definition complete_adaptive (id : ScheduleId) (base finished_at : SystemTime) (n : f64)
    (e : ScheduleEntry) q : option Completion * ScheduleQ :=
  if f64_ltb f64_zero n then
    match (match try_from_secs_f64 n with Some delta => deadline_after base delta | None => None end) with
    | None => (Some (Retired DeadlineOutOfRange), retire_out_of_range id finished_at q)
    | Some next =>
        let q := upd_entry id (λ e, Entry.set_queued false (Entry.set_deadline next e)) q in
        (Some (Rearmed next), rearm id next finished_at (so_jitter (se_options e)) q)
    end
  else if f64_eqb n f64_zero then
    match se_kind e with
    | KindAt => retired_with id ReturnedZero finished_at q
    | KindEvery _ => complete_cadence id finished_at e q
    end
  else retired_with id NegativeReturn finished_at (upd_entry id Entry.count_fault q).

Definition complete (id : ScheduleId) (task : TaskId) (outcome : Outcome) (finished_at : SystemTime) q
  : option Completion * ScheduleQ :=
  match sq_entries q !! id with
  | None => (None, q)
  | Some e =>
      match take_firing task (se_running e) with
      | None => (None, q)
      | Some (firing, running) =>
          let d := since_or_zero finished_at (rf_started_at firing) in
          let record e := match outcome with
                          | OutSuccess _ => Entry.succeeded e
                          | OutFault v => Entry.faulted v e
                          end in
          let e := record (Entry.push_duration d (Entry.set_running running e)) in
          let q := set_indexes (sq_by_owner q) (sq_by_target q) (delete task (sq_by_task q))
                     (set_entries (<[id := e]> (sq_entries q)) q) in
          match outcome with
          | OutFault _ =>
              if bool_decide (so_max_faults (se_options e) = Some (se_consecutive_faults e))
              then retired_with id MaxFaults finished_at q
              else complete_cadence id finished_at e q
          | OutSuccess v =>
              if so_adaptive (se_options e) then
                match as_float_numeric v with
                | Some n => complete_adaptive id (rf_deadline firing) finished_at n e q
                | None => complete_cadence id finished_at e q
                end
              else complete_cadence id finished_at e q
          end
      end
  end.

(** *** Restoring *)

(** The first deadline after a restart, with the catch-up policy applied; [None]: none. *)
Definition restart_deadline (deadline : SystemTime) (e : ScheduleEntry) (now : SystemTime) q
  : option (SystemTime * ScheduleEntry * ScheduleQ) :=
  if now <? deadline then Some (deadline, e, q)
  else
    match se_kind e, so_catchup (se_options e) with
    | KindEvery interval, CatchupSkip =>
        match next_cadence_after (default deadline (se_scheduled_deadline e)) interval now with
        | None => None
        | Some (d, missed) =>
            let e := Entry.set_counts (se_run_count e) (se_fault_count e) (se_consecutive_faults e)
                       (se_last_fault e) (se_missed_count e + missed) (se_overlap_count e) e in
            let '(t, q) := jittered d (so_jitter (se_options e)) now q in
            Some (t, Entry.set_deadline d e, q)
        end
    | KindEvery _, CatchupAll => Some (deadline, e, q)
    | KindEvery _, CatchupOnce | KindAt, _ => Some (now, e, q)
    end.

Definition load (e : ScheduleEntry) (restored_tasks : list TaskId) (now : SystemTime) q : ScheduleQ :=
  let id := se_id e in
  let q := if sq_next_id q <=? id then set_next_id (id + 1) q else q in
  match se_retired e, se_next_run e with
  | None, Some deadline =>
      let running := List.filter (λ r, bool_decide (rf_task r ∈ restored_tasks)) (se_running e) in
      let e := Entry.set_running running e in
      let q := set_indexes (index_insert (fe_owner (se_firee e)) id (sq_by_owner q))
                 (index_insert (fe_target (se_firee e)) id (sq_by_target q))
                 (foldl (λ m r, <[rf_task r := id]> m) (sq_by_task q) running) q in
      let insert e q := set_entries (<[id := e]> (sq_entries q)) q in
      let mid_firing := match running with [] => false | _ => true end in
      match mid_firing, se_kind e, se_queued_firing e with
      | true, KindAt, _ | true, _, true => insert e q
      | false, KindEvery interval, true => fire_queued id interval now (insert e q)
      | _, _, _ =>
          match restart_deadline deadline e now q with
          | None => retire id DeadlineOutOfRange now (insert (Entry.count_fault e) q)
          | Some (t, e, q) => arm id t now (insert e q)
          end
      end
  | _, _ => q
  end.
End lifecycle.

(** ** Storage *)

(** The row of the tasks database: times and durations in 64 bits of nanoseconds since
    the epoch, 0 for no time. Values, objects and symbols stand for their own encodings. *)
Record StoredFiring := mkStoredFiring { sf_task : Z; sf_deadline : Z; sf_started : Z }.

Record StoredSchedule := mkStored {
  st_id : ScheduleId;
  st_firee : Firee;
  st_kind : string;
  st_interval : Z;
  st_adaptive : bool;
  st_catchup : string;
  st_overlap : string;
  st_jitter : Z;
  st_max_faults : Z;
  st_pass_elapsed : bool;
  st_state : option Var;
  st_player : option Obj;
  st_created : Z;
  st_next_run : Z;
  st_scheduled_deadline : Z;
  st_last_run : Z;
  st_run_count : Z;
  st_fault_count : Z;
  st_consecutive_faults : Z;
  st_missed_count : Z;
  st_overlap_count : Z;
  st_clamped : bool;
  st_running : list StoredFiring;
  st_queued : bool;
}.

(** [as u64]; a time before the epoch is 0. *)
Definition epoch_nanos (t : option SystemTime) : Z :=
  match t with Some t => if 0 <=? t then wrap 64 t else 0 | None => 0 end.
Definition from_epoch_nanos (n : Z) : option SystemTime := if n =? 0 then None else Some n.

Definition schedule_to_flatbuffer (e : ScheduleEntry) : StoredSchedule :=
  let o := se_options e in
  let '(kind, interval) := match se_kind e with
                           | KindAt => ("at"%string, 0)
                           | KindEvery i => ("every"%string, wrap 64 i)
                           end in
  mkStored (se_id e) (se_firee e) kind interval (so_adaptive o)
    (match so_catchup o with CatchupSkip => "skip" | CatchupOnce => "once" | CatchupAll => "all" end)
    (match so_overlap o with
     | OverlapSkip => "skip" | OverlapQueue => "queue" | OverlapConcurrent => "concurrent"
     end)
    (wrap 64 (so_jitter o)) (default 0 (so_max_faults o)) (so_pass_elapsed o) (so_state o) (so_player o)
    (epoch_nanos (Some (se_created_at e))) (epoch_nanos (se_next_run e))
    (epoch_nanos (se_scheduled_deadline e)) (epoch_nanos (se_last_run e)) (se_run_count e)
    (se_fault_count e) (se_consecutive_faults e) (se_missed_count e) (se_overlap_count e)
    (se_interval_clamped e)
    ((λ r, mkStoredFiring (rf_task r) (epoch_nanos (Some (rf_deadline r)))
             (epoch_nanos (Some (rf_started_at r)))) <$> se_running e)
    (se_queued_firing e).

Definition kind_from (s : string) (interval : Z) : option ScheduleKind :=
  if String.eqb s "at" then Some KindAt
  else if String.eqb s "every" then Some (KindEvery interval) else None.
Definition catchup_from (s : string) : option CatchupPolicy :=
  if String.eqb s "skip" then Some CatchupSkip
  else if String.eqb s "once" then Some CatchupOnce
  else if String.eqb s "all" then Some CatchupAll else None.
Definition overlap_from (s : string) : option OverlapPolicy :=
  if String.eqb s "skip" then Some OverlapSkip
  else if String.eqb s "queue" then Some OverlapQueue
  else if String.eqb s "concurrent" then Some OverlapConcurrent else None.

(** [None]: a decoding error. *)
Definition schedule_from_ref (s : StoredSchedule) : option ScheduleEntry :=
  match kind_from (st_kind s) (st_interval s), catchup_from (st_catchup s), overlap_from (st_overlap s) with
  | Some kind, Some catchup, Some overlap =>
      let max_faults := if st_max_faults s =? 0 then None else Some (st_max_faults s) in
      let o := mkOptions (st_adaptive s) catchup overlap (st_jitter s) max_faults (st_pass_elapsed s)
                 (st_state s) true (st_player s) in
      let e := from_persisted (st_id s) (st_firee s) kind o
                 (default 0 (from_epoch_nanos (st_created s))) (from_epoch_nanos (st_next_run s))
                 (from_epoch_nanos (st_scheduled_deadline s)) (from_epoch_nanos (st_last_run s))
                 (st_run_count s) (st_fault_count s) (st_consecutive_faults s) (st_missed_count s)
                 (st_overlap_count s) (st_clamped s) in
      let running := (λ r, mkRunning (sf_task r) (sf_deadline r) (sf_started r)) <$> st_running s in
      Some (Entry.set_queued (st_queued s) (Entry.set_running running e))
  | _, _, _ => None
  end.

(** ** The scheduler's part *)

(** What a task has asked for and not committed, schedules only. *)
Inductive PendingScheduleOp := OpCreate (p : PendingCreate) | OpStop (id : ScheduleId).
Definition PendingTaskEffects : Type := list PendingScheduleOp.

Definition creates (id : ScheduleId) (op : PendingScheduleOp) : bool :=
  match op with OpCreate p => pc_id p =? id | OpStop _ => false end.
Definition create_schedule (p : PendingCreate) (fx : PendingTaskEffects) : PendingTaskEffects :=
  fx ++ [OpCreate p].
Definition contains_schedule (id : ScheduleId) (fx : PendingTaskEffects) : bool := existsb (creates id) fx.
Definition cancel_created_schedule (id : ScheduleId) (fx : PendingTaskEffects) : bool * PendingTaskEffects :=
  (contains_schedule id fx, List.filter (λ op, negb (creates id op)) fx).
Definition stop_schedule (id : ScheduleId) (fx : PendingTaskEffects) : PendingTaskEffects := fx ++ [OpStop id].

Section scheduler.
Context {W : Type} `{!Wheel W} `{Random} `{Sizes}.
#[local] Notation ScheduleQ := (ScheduleQ W).
Implicit Types q : ScheduleQ.

Definition publish_op (now : SystemTime) q (op : PendingScheduleOp) : ScheduleQ :=
  match op with OpCreate p => add_pending p now q | OpStop id => (stop id q).2 end.
Definition publish (fx : PendingTaskEffects) (now : SystemTime) q : ScheduleQ := foldl (publish_op now) q fx.

Definition reserve_schedule_create (kind : PendingKind) (w : Firee) (o : ScheduleOptions)
    (now : SystemTime) q : result PendingCreate ScheduleError * ScheduleQ :=
  match (match kind with
         | PendingAt when => validate_at when o
         | PendingEvery interval => validate_every interval o now q
         end) with
  | Err e => (Err e, q)
  | Ok _ => let '(id, q) := reserve_id q in (Ok (mkPending id kind w o), q)
  end.

(** [fx]: the effects of the task that asks, if it is still there. *)
Definition handle_schedule_create (fx : option PendingTaskEffects) (kind : PendingKind) (w : Firee)
    (o : ScheduleOptions) (now : SystemTime) q
  : result ScheduleId ScheduleError * option PendingTaskEffects * ScheduleQ :=
  match reserve_schedule_create kind w o now q with
  | (Err e, q) => (Err e, fx, q)
  | (Ok p, q) => (Ok (pc_id p), create_schedule p <$> fx, q)
  end.

Definition buffer_schedule_stop (fx : option PendingTaskEffects) (id : ScheduleId) (wizard : bool)
    (principal : Obj) q : result bool ErrorCode * option PendingTaskEffects :=
  let '(cancelled, fx) :=
    match fx with
    | Some fx => let '(b, fx) := cancel_created_schedule id fx in (b, Some fx)
    | None => (false, None)
    end in
  if cancelled then (Ok true, fx)
  else
    match info id q with
    | None => (Ok false, fx)
    | Some e =>
        let authorized := wizard || bool_decide (principal = fe_owner (se_firee e)) in
        let live := Entry.is_live e in
        if negb live && negb authorized then (Ok false, fx)
        else if negb authorized then (Err E_PERM, fx)
        else (Ok live, stop_schedule id <$> fx)
    end.

Definition schedule_visible_to (fx : option PendingTaskEffects) (id : ScheduleId) q : bool :=
  is_valid id q || match fx with Some fx => contains_schedule id fx | None => false end.

(** The entry stands for the map made of it. *)
Definition handle_schedule_info (id : ScheduleId) (wizard : bool) (principal : Obj) q
  : result ScheduleEntry ErrorCode :=
  match info id q with
  | None => Err E_INVARG
  | Some e => if negb wizard && negb (bool_decide (principal = fe_owner (se_firee e))) then Err E_PERM
              else Ok e
  end.

Definition handle_schedules (owner : option Obj) (wizard : bool) (principal : Obj) q : list ScheduleId :=
  let ids := match owner with
             | Some o => for_owner o q
             | None => if wizard then all_ids q else for_owner principal q
             end in
  List.filter (λ id, match info id q with
                     | Some e => Entry.is_live e && (wizard || bool_decide (fe_owner (se_firee e) = principal))
                     | None => false
                     end) ids.

Definition handle_schedules_for (target : Obj) q : list ScheduleId :=
  List.filter (λ id, is_valid id q) (for_target target q).

(** *** Firing *)

Definition collect_schedules (now : Instant) (now_sys : SystemTime) q
  : list (ScheduleExpiry * ScheduleEntry) * ScheduleQ :=
  let '(ids, q) := expired now now_sys q in
  (omap (λ id, x ← expiry id q; e ← info id q; Some (x, e)) ids, q).

(** What the scheduler finds when it fires: a session, a target with its verb, and
    whether the task could be submitted (or the error, and when). *)
Record FiringWorld := mkFiringWorld {
  fw_session : bool;
  fw_target_valid : bool;
  fw_submit_error : option (Var * SystemTime);
}.

(** The arguments of the verb. *)
Definition firing_args (e : ScheduleEntry) (elapsed : option Duration) : list Var :=
  let args := fe_args (se_firee e) in
  let args := match so_state (se_options e) with Some s => args ++ [s] | None => args end in
  if so_pass_elapsed (se_options e)
  then args ++ [VFloat (match elapsed with Some d => as_secs_f64 d | None => f64_zero end)] else args.

Record StartScheduled := mkStart {
  ss_id : ScheduleId;
  ss_player : Obj;
  ss_target : Obj;
  ss_verb : Symbol;
  ss_args : list Var;
  ss_authority_principal : Obj;
}.

(** [task] is the next task id, taken only when a task is made. *)
Definition fire_one (fw : FiringWorld) (x : ScheduleExpiry) (e : ScheduleEntry) (task : TaskId)
    (now_sys : SystemTime) q : option StartScheduled * TaskId * ScheduleQ :=
  if negb (is_current_expiry x q) then (None, task, q)
  else if negb (fw_session fw) then (None, task, q)
  else if negb (fw_target_valid fw) then (None, task, retire (ex_id x) InvalidTarget now_sys q)
  else
    let '(elapsed, q) := mark_fired (ex_id x) task now_sys q in
    let start := mkStart (ex_id x) (default (fe_target (se_firee e)) (so_player (se_options e)))
                   (fe_target (se_firee e)) (fe_verb (se_firee e)) (firing_args e elapsed)
                   (fe_authority_principal (se_firee e)) in
    match fw_submit_error fw with
    | None => (Some start, task + 1, q)
    | Some (err, at_) => (None, task + 1, (complete (ex_id x) task (OutFault err) at_ q).2)
    end.

Definition settle_one (now : SystemTime) q (r : TaskId * Outcome) : ScheduleQ :=
  match schedule_for_task r.1 q with
  | None => q
  | Some id => (complete id r.1 r.2 now q).2
  end.
Definition settle_schedule_firings (results : list (TaskId * Outcome)) (now : SystemTime) q : ScheduleQ :=
  foldl (settle_one now) q results.

(** Tasks restored that are firings, per schedule. *)
Definition load_schedules (next_id : option ScheduleId) (entries : list ScheduleEntry)
    (firings : gmap ScheduleId (list TaskId)) (now : SystemTime) q : ScheduleQ :=
  let q := match next_id with Some n => restore_next_id n q | None => q end in
  foldl (λ q e, load e (default [] (firings !! se_id e)) now q) q entries.
End scheduler.
