(* ===== verification/ScheduleProofs.v ===== *)
(** Schedules: cadence arithmetic, the advance of the wheel, and what every operation
    on the queue keeps: a live schedule is armed, handed out to be fired, or in the middle
    of a firing whose end decides about the next one. *)
From S2P Require Import Prelude Obj TxTypes Float64 Opcodes Values ValueOrder Scalars Containers VarOps.
From S2P Require Import Schedule.
From stdpp Require Import base gmap list strings sorting.

Open Scope Z_scope.

(** ** Cadence *)

(** The reference: one step after the other. *)
Fixpoint step_cadence (fuel : nat) (from : SystemTime) (interval : Duration) (now : SystemTime)
    (passed : Z) : option (SystemTime * Z) :=
  match fuel with
  | O => None
  | S fuel =>
      if now <? from then Some (from, passed)
      else step_cadence fuel (from + interval) interval now (passed + 1)
  end.

Lemma step_cadence_gives fuel from interval now passed :
  0 < interval → (Z.to_nat ((now - from) `div` interval + 1) < fuel)%nat →
  step_cadence fuel from interval now passed
  = if now <? from then Some (from, passed)
    else let k := (now - from) `div` interval + 1 in Some (from + k * interval, passed + k).
Proof.
  intros Hi. revert from passed. induction fuel as [|fuel IH]; intros from passed Hn; [lia|].
  cbn [step_cadence]. destruct (Z.ltb_spec now from) as [Hlt|Hge]; [done|].
  assert ((now - (from + interval)) `div` interval = (now - from) `div` interval - 1) as Hd.
  { replace (now - (from + interval)) with ((now - from) + (-1) * interval) by lia.
    rewrite Z.div_add by lia. lia. }
  assert (0 ≤ (now - from) `div` interval) as Hpos by (apply Z.div_pos; lia).
  rewrite IH by (rewrite Hd; lia).
  destruct (Z.ltb_spec now (from + interval)) as [Hlt|Hge'].
  - assert ((now - from) `div` interval = 0) as -> by (apply Z.div_small; lia).
    cbv zeta. f_equal. apply pair_equal_spec. split; lia.
  - rewrite Hd. cbv zeta. f_equal. apply pair_equal_spec. split; [ring|lia].
Qed.

(** What [next_cadence_after] answers. *)
Lemma next_cadence_gives from interval now next passed :
  0 ≤ interval → next_cadence_after from interval now = Some (next, passed) →
  now < next ∧ 0 ≤ passed ∧ next = from + passed * interval ∧ (0 < passed → next - interval ≤ now)
  ∧ (passed = 0 → now < from) ∧ (next = from ∨ next ≤ max_deadline).
Proof.
  intros Hi. unfold next_cadence_after, duration_since. destruct (Z.leb_spec from now) as [Hle|Hgt].
  2: { intros [= <- <-]. split_and!; lia. }
  destruct (Z.eqb_spec interval 0); [done|].
  set (k := (now - from) `div` interval + 1).
  assert (0 ≤ (now - from) `div` interval) as Hpos by (apply Z.div_pos; lia).
  pose proof (Z.div_mod (now - from) interval ltac:(lia)).
  pose proof (Z.mod_pos_bound (now - from) interval ltac:(lia)).
  destruct (2 ^ 128 <=? k * interval); [done|]. destruct (u64_max <? _); [done|].
  unfold deadline_after, checked_add. destruct (in_system_time _); [|done].
  destruct (Z.leb_spec (from + k * interval) max_deadline); [|done].
  destruct (k <=? u64_max); [|done]. intros [= <- <-]. split_and!; lia.
Qed.

(** With the range of the code's numbers, the reference and the closed form agree; the
    closed form gives up only on what cannot be a deadline. *)
Lemma cadence_of_steps from interval now :
  0 < interval → in_system_time from = true → - 2 ^ 63 * nanos_per_sec ≤ now < 2 ^ 63 * nanos_per_sec →
  ∀ fuel, (Z.to_nat ((now - from) `div` interval + 1) < fuel)%nat →
  match step_cadence fuel from interval now 0 with
  | Some (next, passed) =>
      next_cadence_after from interval now
      = if (next =? from) || ((next <=? max_deadline) && (passed <=? u64_max)) then Some (next, passed) else None
  | None => False
  end.
Proof.
  intros Hi Hfrom Hnow fuel Hfuel. rewrite step_cadence_gives by done.
  unfold next_cadence_after, duration_since.
  destruct (Z.ltb_spec now from) as [Hlt|Hge]; destruct (Z.leb_spec from now) as [Hle|Hgt]; try lia.
  { by rewrite Z.eqb_refl. }
  cbv zeta. set (k := (now - from) `div` interval + 1).
  assert (0 ≤ (now - from) `div` interval) as Hpos by (apply Z.div_pos; lia).
  assert (0 < k * interval) as Hki by nia.
  destruct (Z.eqb_spec interval 0); [lia|]. destruct (Z.eqb_spec (from + k * interval) from); [lia|].
  cbn [orb]. rewrite Z.add_0_l. unfold deadline_after, checked_add.
  assert (max_deadline = 18446744073 * nanos_per_sec) as Hmax by reflexivity.
  assert (nanos_per_sec = 1000000000) as Hnano by reflexivity.
  unfold in_system_time in Hfrom |- *.
  destruct (Z.leb_spec (from + k * interval) max_deadline) as [Hd|Hd].
  - destruct (Z.leb_spec (2 ^ 128) (k * interval)); [lia|].
    destruct (Z.ltb_spec u64_max ((k * interval) `div` nanos_per_sec)) as [Hu|Hu].
    { exfalso. assert (u64_max * nanos_per_sec < k * interval) by
        (pose proof (Z.div_mod (k * interval) nanos_per_sec ltac:(lia));
         pose proof (Z.mod_pos_bound (k * interval) nanos_per_sec ltac:(lia)); nia).
      unfold u64_max in *. lia. }
    cbn [andb].
    match goal with |- context [if ?b then Some (from + _) else None] => destruct b eqn:Hr end; [|lia].
    destruct (Z.leb_spec (from + k * interval) max_deadline); [|lia].
    by destruct (k <=? u64_max).
  - cbn [andb]. destruct (2 ^ 128 <=? _); [done|]. destruct (u64_max <? _); [done|].
    match goal with |- context [if ?b then Some (from + _) else None] => destruct b end; [|done].
    destruct (Z.leb_spec (from + k * interval) max_deadline); [lia|done].
Qed.

(** ** The wheel *)

(** What the wheel holds: entries with the milliseconds they have left. *)
Definition wheel_pending : Type := list (Z * ScheduleTimerEntry).

Definition later (n : Z) (l : wheel_pending) : wheel_pending :=
  (λ x, (x.1 - n, x.2)) <$> List.filter (λ x, n <? x.1) l.
Definition due (n : Z) (l : wheel_pending) : list ScheduleTimerEntry :=
  snd <$> List.filter (λ x, x.1 <=? n) l.

(** The documented behaviour of the crate. *)
Class WheelLaws (W : Type) `{!Wheel W} := {
  pending : W → wheel_pending;
  pending_new : pending wheel_new = [];
  pending_positive w : Forall (λ x, 0 < x.1) (pending w);
  pending_insert e d w w' : nanos_per_milli ≤ d → insert_with_delay e d w = Some w' →
    pending w' ≡ₚ (d `div` nanos_per_milli, e) :: pending w;
  skip_empty w : can_skip w = SkipEmpty → pending w = [];
  skip_millis n w : can_skip w = SkipMillis n → 0 < n ∧ Forall (λ x, n < x.1) (pending w);
  pending_skip n w : 0 ≤ n → Forall (λ x, n < x.1) (pending w) → pending (wheel_skip n w) ≡ₚ later n (pending w);
  pending_tick w : let '(l, w') := wheel_tick w in
    l ≡ₚ due 1 (pending w) ∧ pending w' ≡ₚ later 1 (pending w);
}.

Section wheel.
Context {W : Type} `{!Wheel W, !WheelLaws W}.

Lemma filter_perm {A} (p : A → bool) l l' : l ≡ₚ l' → List.filter p l ≡ₚ List.filter p l'.
Proof.
  induction 1; cbn; [done| | |by etrans].
  - destruct (p x); [by constructor|done].
  - destruct (p x), (p y); try done. by constructor.
Qed.

Lemma later_perm n l l' : l ≡ₚ l' → later n l ≡ₚ later n l'.
Proof. intros Hl. unfold later. by apply fmap_Permutation, filter_perm. Qed.

Lemma due_perm n l l' : l ≡ₚ l' → due n l ≡ₚ due n l'.
Proof. intros Hl. unfold due. by apply fmap_Permutation, filter_perm. Qed.

Lemma later_later a b l : 0 ≤ a → 0 ≤ b → later b (later a l) = later (a + b) l.
Proof.
  intros Ha Hb. induction l as [|[m e] l IH]; cbn; [done|]. unfold later in *. cbn.
  destruct (Z.ltb_spec a m); cbn.
  - destruct (Z.ltb_spec b (m - a)), (Z.ltb_spec (a + b) m); try lia; cbn; rewrite IH; [|done].
    f_equal. f_equal. lia.
  - destruct (Z.ltb_spec (a + b) m); [lia|done].
Qed.

(** Nothing is lost and nothing comes early: what is due in [a + b] is due in [a], or in
    [b] after that. *)
Lemma due_later a b l : 0 ≤ a → 0 ≤ b → due (a + b) l ≡ₚ due a l ++ due b (later a l).
Proof.
  intros Ha Hb. induction l as [|[m e] l IH]; [done|]. unfold due, later in *. cbn.
  destruct (Z.leb_spec m a), (Z.ltb_spec a m), (Z.leb_spec m (a + b)); try lia; cbn.
  - by rewrite IH.
  - destruct (Z.leb_spec (m - a) b); [|lia]. cbn. rewrite IH. by rewrite Permutation_middle.
  - destruct (Z.leb_spec (m - a) b); [lia|]. by rewrite IH.
Qed.

Lemma later_all n l : Forall (λ x, n < x.1) l → due n l = [].
Proof.
  induction 1 as [|[m e] l Hx Hl IH]; [done|]. unfold due in *. cbn in *.
  destruct (Z.leb_spec m n); [lia|done].
Qed.

Lemma later_zero l : Forall (λ x, 0 < x.1) l → later 0 l = l.
Proof.
  induction 1 as [|[m e] l Hx Hl IH]; [done|]. unfold later in *. cbn in *.
  destruct (Z.ltb_spec 0 m); [|lia]. cbn. rewrite IH. by rewrite Z.sub_0_r.
Qed.

Lemma advance_loop_steps n w acc :
  0 ≤ n →
  let '(l, w') := advance_loop (Z.to_nat n) n w acc in
  l ≡ₚ acc ++ due n (pending w) ∧ pending w' ≡ₚ later n (pending w).
Proof.
  intros Hn. assert (n ≤ Z.of_nat (Z.to_nat n)) as Hle by lia. revert Hle.
  generalize (Z.to_nat n) as fuel. intros fuel. revert n w acc Hn.
  induction fuel as [|fuel IH]; intros n w acc Hn Hle; cbn [advance_loop];
    [|destruct (Z.leb_spec n 0)].
  1,2: assert (n = 0) as -> by lia; split;
    [by rewrite later_all, app_nil_r by apply pending_positive|by rewrite later_zero by apply pending_positive].
  destruct (can_skip w) as [|k|] eqn:Hskip.
  - pose proof (skip_empty w Hskip) as Hw. split; [by rewrite Hw, app_nil_r|].
    apply pending_skip; [lia|]. by rewrite Hw.
  - destruct (skip_millis k w Hskip) as [Hk Hall].
    assert (Forall (λ x, Z.min k n < x.1) (pending w)) as Hmin
      by (eapply Forall_impl; [exact Hall|]; cbn; lia).
    pose proof (pending_skip (Z.min k n) w ltac:(lia) Hmin) as Hp.
    specialize (IH (n - Z.min k n) (wheel_skip (Z.min k n) w) acc ltac:(lia) ltac:(lia)).
    destruct (advance_loop fuel _ _ acc) as [l w']. destruct IH as [Hl Hw']. split.
    + rewrite Hl, (due_perm _ _ _ Hp).
      pose proof (due_later (Z.min k n) (n - Z.min k n) (pending w) ltac:(lia) ltac:(lia)) as Hdue.
      rewrite (later_all _ _ Hmin) in Hdue. cbn [app] in Hdue. rewrite <- Hdue.
      by replace (Z.min k n + (n - Z.min k n)) with n by lia.
    + rewrite Hw', (later_perm _ _ _ Hp), later_later by lia. by replace (Z.min k n + (n - Z.min k n)) with n by lia.
  - pose proof (pending_tick w) as Ht. destruct (wheel_tick w) as [l1 w1]. destruct Ht as [Hl1 Hw1].
    specialize (IH (n - 1) w1 (acc ++ l1) ltac:(lia) ltac:(lia)).
    destruct (advance_loop fuel _ _ _) as [l w']. destruct IH as [Hl Hw']. split.
    + rewrite Hl, Hl1, (due_perm _ _ _ Hw1), <- app_assoc, <- due_later by lia. by replace (1 + (n - 1)) with n by lia.
    + rewrite Hw', (later_perm _ _ _ Hw1), later_later by lia. by replace (1 + (n - 1)) with n by lia.
Qed.
End wheel.

(** ** The invariant *)

Section queue.
Context {W : Type} `{!Wheel W, !WheelLaws W} `{Random} `{Sizes}.
#[local] Notation ScheduleQ := (ScheduleQ W).
Implicit Types q : ScheduleQ.

(** Arm [g] of [id] is waiting for its time. *)
Definition timed q (id : ScheduleId) (g : Z) : Prop :=
  mkExpiry id g ∈ sq_immediate q ∨ ∃ ms d, (ms, mkTimerEntry id d g) ∈ pending (sq_wheel q).

(** The schedules whose time has come and whose overlap policy is still to be applied;
    none between the operations. *)
Context (T : list ScheduleId).

Definition armed q (id : ScheduleId) (g : Z) : Prop := timed q id g ∨ id ∈ T.

Definition one_at_a_time (e : ScheduleEntry) : Prop :=
  se_kind e = KindAt ∨ so_overlap (se_options e) ≠ OverlapConcurrent.

(** A schedule that is not retired has a current arm that is [ready] (waiting, or handed
    out to be fired), or the end of a firing decides about the next one. *)
Record live_ok (e : ScheduleEntry) (gen : option Z) (ready : Z → Prop) : Prop := {
  lo_next : is_Some (se_next_run e);
  lo_deadline : is_Some (se_scheduled_deadline e);
  lo_interval : ∀ i, se_kind e = KindEvery i → 0 < i;
  lo_one : one_at_a_time e → (length (se_running e) ≤ 1)%nat;
  lo_queued : se_queued_firing e = true →
    se_running e ≠ [] ∧ so_overlap (se_options e) = OverlapQueue ∧ se_kind e ≠ KindAt;
  lo_arm : match gen with
           | Some g => (ready g ∨ se_queued_firing e = true) ∧ (se_kind e = KindAt → se_running e = [])
           | None => se_running e ≠ [] ∧ (se_kind e = KindAt ∨ se_queued_firing e = true)
           end;
}.

Definition schedule_ok (e : ScheduleEntry) (gen : option Z) (ready : Z → Prop) : Prop :=
  match se_retired e with
  | Some _ => se_next_run e = None ∧ se_running e = [] ∧ gen = None
  | None => live_ok e gen ready
  end.

Definition indexed (m : gmap Obj (gset ScheduleId)) (o : Obj) (id : ScheduleId) : Prop :=
  id ∈ (default ∅ (m !! o) : gset ScheduleId).

Definition live_at q (id : ScheduleId) (P : ScheduleEntry → Prop) : Prop :=
  ∃ e, sq_entries q !! id = Some e ∧ Entry.is_live e = true ∧ P e.

(** The indexes on one schedule. *)
Record indexes_ok q (id : ScheduleId) : Prop := {
  ix_owner o : indexed (sq_by_owner q) o id ↔ live_at q id (λ e, fe_owner (se_firee e) = o);
  ix_target o : indexed (sq_by_target q) o id ↔ live_at q id (λ e, fe_target (se_firee e) = o);
  ix_task t : sq_by_task q !! t = Some id ↔ live_at q id (λ e, t ∈ rf_task <$> se_running e);
  ix_nodup e : sq_entries q !! id = Some e → NoDup (rf_task <$> se_running e);
}.

(** [F]: the arms handed out by [expired] and not yet dealt with. *)
Record slot_ok q (F : list ScheduleExpiry) (id : ScheduleId) : Prop := {
  sl_indexes : indexes_ok q id;
  sl_entry e : sq_entries q !! id = Some e →
    se_id e = id ∧ id < sq_next_id q ∧
    schedule_ok e (sq_generations q !! id) (λ g, armed q id g ∨ mkExpiry id g ∈ F);
  sl_gen g : sq_generations q !! id = Some g → g ≤ sq_next_generation q ∧ is_Some (sq_entries q !! id);
  sl_handed g : mkExpiry id g ∈ F → g ≤ sq_next_generation q ∧
    ∀ e, sq_generations q !! id = Some g → sq_entries q !! id = Some e →
         one_at_a_time e → se_running e = [];
}.

Definition no_empty (m : gmap Obj (gset ScheduleId)) : Prop := ∀ o, m !! o ≠ Some ∅.

Record queue_ok q (F : list ScheduleExpiry) : Prop := {
  qo_slots id : slot_ok q F id;
  qo_owners : no_empty (sq_by_owner q);
  qo_targets : no_empty (sq_by_target q);
}.

(** *** Working on one schedule *)

(** What a step that is about [id] does to the others: nothing. *)
Record others (id : ScheduleId) q q' : Prop := {
  ot_entry i : i ≠ id → sq_entries q' !! i = sq_entries q !! i;
  ot_gen i : i ≠ id → sq_generations q' !! i = sq_generations q !! i;
  ot_armed i g : i ≠ id → armed q i g → armed q' i g;
  ot_owner i o : i ≠ id → indexed (sq_by_owner q') o i ↔ indexed (sq_by_owner q) o i;
  ot_target i o : i ≠ id → indexed (sq_by_target q') o i ↔ indexed (sq_by_target q) o i;
  ot_task i t : i ≠ id → sq_by_task q' !! t = Some i ↔ sq_by_task q !! t = Some i;
  ot_next_gen : sq_next_generation q ≤ sq_next_generation q';
  ot_next_id : sq_next_id q ≤ sq_next_id q';
  ot_owners : no_empty (sq_by_owner q) → no_empty (sq_by_owner q');
  ot_targets : no_empty (sq_by_target q) → no_empty (sq_by_target q');
}.

Lemma others_refl id q : others id q q.
Proof. by split. Qed.

Lemma others_trans id q1 q2 q3 : others id q1 q2 → others id q2 q3 → others id q1 q3.
Proof.
  intros A B. split; intros.
  - by rewrite (ot_entry _ _ _ B), (ot_entry _ _ _ A).
  - by rewrite (ot_gen _ _ _ B), (ot_gen _ _ _ A).
  - by apply (ot_armed _ _ _ B), (ot_armed _ _ _ A).
  - by rewrite (ot_owner _ _ _ B), (ot_owner _ _ _ A).
  - by rewrite (ot_target _ _ _ B), (ot_target _ _ _ A).
  - by rewrite (ot_task _ _ _ B), (ot_task _ _ _ A).
  - etrans; [apply A|apply B].
  - etrans; [apply A|apply B].
  - by apply (ot_owners _ _ _ B), (ot_owners _ _ _ A).
  - by apply (ot_targets _ _ _ B), (ot_targets _ _ _ A).
Qed.

Lemma live_at_others id q q' i P : others id q q' → i ≠ id → live_at q' i P ↔ live_at q i P.
Proof. intros A Hi. unfold live_at. by rewrite (ot_entry _ _ _ A). Qed.

Lemma indexes_others id q q' i : others id q q' → i ≠ id → indexes_ok q i → indexes_ok q' i.
Proof.
  intros A Hi [Ho Ht Hk Hn]. split.
  - intros o. by rewrite (ot_owner _ _ _ A), Ho, (live_at_others _ _ _ _ _ A).
  - intros o. by rewrite (ot_target _ _ _ A), Ht, (live_at_others _ _ _ _ _ A).
  - intros t. by rewrite (ot_task _ _ _ A), Hk, (live_at_others _ _ _ _ _ A).
  - intros e. rewrite (ot_entry _ _ _ A) by done. apply Hn.
Qed.

Lemma schedule_ok_ready e gen (R R' : Z → Prop) :
  (∀ g, gen = Some g → R g → R' g) → schedule_ok e gen R → schedule_ok e gen R'.
Proof.
  unfold schedule_ok. destruct (se_retired e); [done|]. intros HR [A B C D E Hg]. split; try done.
  destruct gen as [g|]; [|done]. destruct Hg as [[Hg|Hg] Hk]; (split; [|done]); [left|by right]. by apply HR.
Qed.

(** The hand-outs of the others stay. *)
Definition same_handed (id : ScheduleId) (F F' : list ScheduleExpiry) : Prop :=
  ∀ x, ex_id x ≠ id → x ∈ F' ↔ x ∈ F.

Lemma slot_others id q q' F F' i :
  others id q q' → same_handed id F F' → i ≠ id → slot_ok q F i → slot_ok q' F' i.
Proof.
  intros A HF Hi [Hx He Hg Hh]. split.
  - by apply (indexes_others id q).
  - intros e. rewrite (ot_entry _ _ _ A) by done. intros Hei. destruct (He e Hei) as (H1 & H2 & H3).
    split; [done|]. split; [pose proof (ot_next_id _ _ _ A); lia|].
    rewrite (ot_gen _ _ _ A) by done. eapply schedule_ok_ready; [|exact H3].
    intros g _ [Ha|Hf]; [left; by apply (ot_armed _ _ _ A)|right; by apply HF].
  - intros g. rewrite (ot_gen _ _ _ A), (ot_entry _ _ _ A) by done. intros Hgi.
    destruct (Hg g Hgi). split; [pose proof (ot_next_gen _ _ _ A); lia|done].
  - intros g Hin. rewrite (HF (mkExpiry i g)) in Hin by done. destruct (Hh g Hin) as [H1 H2].
    split; [pose proof (ot_next_gen _ _ _ A); lia|]. intros e.
    rewrite (ot_gen _ _ _ A), (ot_entry _ _ _ A) by done. apply H2.
Qed.

Lemma queue_focus id q q' F F' :
  queue_ok q F → others id q q' → same_handed id F F' → slot_ok q' F' id → queue_ok q' F'.
Proof.
  intros [Hs Ho Ht] A HF Hid. split.
  - intros i. destruct (decide (i = id)) as [->|Hne]; [done|]. by apply (slot_others id q q' F).
  - by apply (ot_owners _ _ _ A).
  - by apply (ot_targets _ _ _ A).
Qed.

Lemma same_handed_refl id F : same_handed id F F.
Proof. done. Qed.

(** *** One schedule, its state aside *)

Record near (F : list ScheduleExpiry) (id : ScheduleId) q (e : ScheduleEntry) : Prop := {
  nr_entry : sq_entries q !! id = Some e;
  nr_id : se_id e = id;
  nr_next : id < sq_next_id q;
  nr_indexes : indexes_ok q id;
  nr_handed g : mkExpiry id g ∈ F → g ≤ sq_next_generation q;
}.

(** Fit to be armed. *)
Record armable (e : ScheduleEntry) : Prop := {
  ab_retired : se_retired e = None;
  ab_next : is_Some (se_next_run e);
  ab_deadline : is_Some (se_scheduled_deadline e);
  ab_interval : ∀ i, se_kind e = KindEvery i → 0 < i;
  ab_one : one_at_a_time e → (length (se_running e) ≤ 1)%nat;
  ab_queued : se_queued_firing e = true →
    se_running e ≠ [] ∧ so_overlap (se_options e) = OverlapQueue ∧ se_kind e ≠ KindAt;
  ab_at : se_kind e = KindAt → se_running e = [];
}.

Record leads (F : list ScheduleExpiry) (id : ScheduleId) q q' : Prop := {
  ld_others : others id q q';
  ld_slot : slot_ok q' F id;
}.

Lemma leads_after F id q1 q2 q3 : others id q1 q2 → leads F id q2 q3 → leads F id q1 q3.
Proof. intros A [B C]. split; [by eapply others_trans|done]. Qed.

Lemma is_live_true e : Entry.is_live e = true ↔ is_Some (se_next_run e).
Proof. unfold Entry.is_live. by rewrite bool_decide_eq_true. Qed.

(** A change that the indexes do not look at. *)
Definition same_index (e e' : ScheduleEntry) : Prop :=
  Entry.is_live e' = Entry.is_live e ∧ se_firee e' = se_firee e ∧ se_running e' = se_running e.

Lemma upd_others id g q : others id q (upd_entry id g q).
Proof. split; try done. intros i Hi. cbn. by rewrite lookup_alter_ne. Qed.

Lemma upd_lookup id g q e : sq_entries q !! id = Some e → sq_entries (upd_entry id g q) !! id = Some (g e).
Proof. intros He. cbn. by rewrite lookup_alter_eq, He. Qed.

Lemma live_at_one q q' id e e' (P : ScheduleEntry → Prop) :
  sq_entries q !! id = Some e → sq_entries q' !! id = Some e' → same_index e e' →
  (P e ↔ P e') → live_at q' id P ↔ live_at q id P.
Proof.
  intros He He' (Hl & _ & _) HP. unfold live_at. rewrite He, He'. split; intros (x & [= <-] & Hx & Px).
  - exists e. rewrite <- Hl. by rewrite HP.
  - exists e'. rewrite Hl. by rewrite <- HP.
Qed.

Lemma near_same F id q q' e e' :
  near F id q e → sq_entries q' !! id = Some e' → same_index e e' → se_id e' = se_id e →
  sq_by_owner q' = sq_by_owner q → sq_by_target q' = sq_by_target q → sq_by_task q' = sq_by_task q →
  sq_next_id q' = sq_next_id q → sq_next_generation q ≤ sq_next_generation q' → near F id q' e'.
Proof.
  intros [He Hi Hn [Xo Xt Xk Xn] Hh] He' Hs Hid Eo Et Ek En Hg.
  pose proof Hs as (_ & Hf & Hr). split; [done|congruence|lia| |intros g Hin; specialize (Hh g Hin); lia].
  split.
  - intros o. rewrite Eo, Xo. symmetry. apply (live_at_one q q' id e e'); try done; by rewrite Hf.
  - intros o. rewrite Et, Xt. symmetry. apply (live_at_one q q' id e e'); try done; by rewrite Hf.
  - intros t. rewrite Ek, Xk. symmetry. apply (live_at_one q q' id e e'); try done; by rewrite Hr.
  - rewrite He'. intros x [= <-]. rewrite Hr. by apply Xn.
Qed.

Lemma near_upd F id g q e :
  near F id q e → same_index e (g e) → se_id (g e) = se_id e → near F id (upd_entry id g q) (g e).
Proof.
  intros Hn Hs Hid. eapply near_same; try done. by apply upd_lookup, (nr_entry _ _ _ _ Hn).
Qed.

Lemma jittered_others id t j f q : others id q (jittered t j f q).2.
Proof. unfold jittered. destruct (j =? 0); by split. Qed.

Lemma near_jittered F id t j f q e : near F id q e → near F id (jittered t j f q).2 e.
Proof.
  intros Hn. pose proof (nr_entry _ _ _ _ Hn) as He. unfold jittered. destruct (j =? 0); [done|].
  by eapply near_same.
Qed.

(** *** Arming *)

Lemma arm_fields id t now q :
  let q' := arm id t now q in
  sq_entries q' = alter (Entry.set_next_run t) id (sq_entries q) ∧
  sq_generations q' = <[id := sq_next_generation q + 1]> (sq_generations q) ∧
  sq_next_generation q' = sq_next_generation q + 1 ∧
  sq_by_owner q' = sq_by_owner q ∧ sq_by_target q' = sq_by_target q ∧ sq_by_task q' = sq_by_task q ∧
  sq_next_id q' = sq_next_id q ∧ sq_retired_queue q' = sq_retired_queue q.
Proof.
  unfold arm. destruct (_ <? nanos_per_milli); [done|]. by destruct (insert_with_delay _ _ _).
Qed.

Lemma arm_armed id t now q :
  armed (arm id t now q) id (sq_next_generation q + 1) ∧
  ∀ i g, armed q i g → armed (arm id t now q) i g.
Proof.
  unfold arm. destruct (Z.ltb_spec (since_or_zero t now) nanos_per_milli) as [Hlt|Hge].
  - split; [left; left; cbn; apply list_elem_of_In, in_or_app; right; by left|].
    intros i g [[Hi|Hw]|Ht]; [left; left|by left; right|by right]. cbn. apply elem_of_app. by left.
  - destruct (insert_with_delay _ _ _) as [w|] eqn:Hw.
    + pose proof (pending_insert _ _ _ _ Hge Hw) as Hp. split.
      * left. right. eexists _, _. cbn. rewrite Hp. by left.
      * intros i g [[Hi|(ms & d & Hin)]|Ht]; [by left; left|left; right|by right].
        exists ms, d. cbn. rewrite Hp. by right.
    + split; [left; left; cbn; apply elem_of_app; right; by left|].
      intros i g [[Hi|Hw']|Ht]; [left; left|by left; right|by right]. cbn. apply elem_of_app. by left.
Qed.

Lemma arm_others id t now q : others id q (arm id t now q).
Proof.
  destruct (arm_fields id t now q) as (A & B & C & D & E & G & I & _). split; intros.
  - rewrite A. by rewrite lookup_alter_ne.
  - rewrite B. by rewrite lookup_insert_ne.
  - by apply (proj2 (arm_armed id t now q)).
  - by rewrite D.
  - by rewrite E.
  - by rewrite G.
  - lia.
  - lia.
  - by rewrite D.
  - by rewrite E.
Qed.

Lemma arm_leads F id t now q e : near F id q e → armable e → leads F id q (arm id t now q).
Proof.
  intros Hn Ha. destruct (arm_fields id t now q) as (A & B & C & D & E & G & I & _).
  assert (sq_entries (arm id t now q) !! id = Some (Entry.set_next_run t e)) as He
    by (rewrite A, lookup_alter_eq, (nr_entry _ _ _ _ Hn); done).
  assert (near F id (arm id t now q) (Entry.set_next_run t e)) as Hn'.
  { eapply near_same; try done; [|lia]. split; [|done]. 
    transitivity true; [done|]. symmetry. apply is_live_true, Ha. }
  split; [apply arm_others|]. destruct Ha as [H1 H2 H3 H4 H5 H6 H7]. split.
  - apply Hn'.
  - rewrite He. intros x [= <-]. split; [apply Hn'|]. split; [apply Hn'|].
    rewrite B, lookup_insert_eq. unfold schedule_ok. cbn. rewrite H1. split; try done.
    split; [|done]. left. left. exact (proj1 (arm_armed id t now q)).
  - intros g. rewrite B, lookup_insert_eq. intros [= <-]. rewrite C, He. split; [lia|by eexists].
  - intros g Hin. pose proof (nr_handed _ _ _ _ Hn g Hin). rewrite C. split; [lia|].
    intros x. rewrite B, lookup_insert_eq. intros [= <-]. lia.
Qed.

(** *** Ending *)

Lemma index_insert_spec k id m o i :
  indexed (index_insert k id m) o i ↔ (o = k ∧ i = id) ∨ indexed m o i.
Proof.
  unfold indexed, index_insert. destruct (decide (o = k)) as [->|Hne].
  - rewrite lookup_insert_eq. cbn. set_solver.
  - rewrite lookup_insert_ne by done. naive_solver.
Qed.

Lemma index_insert_no_empty k id m : no_empty m → no_empty (index_insert k id m).
Proof.
  unfold no_empty, index_insert. intros Hm o. destruct (decide (o = k)) as [->|Hne].
  - rewrite lookup_insert_eq. intros [= He]. set_solver.
  - by rewrite lookup_insert_ne.
Qed.

Lemma index_remove_spec k id m o i :
  indexed (index_remove k id m) o i ↔ indexed m o i ∧ ¬ (o = k ∧ i = id).
Proof.
  unfold indexed, index_remove. destruct (m !! k) as [s|] eqn:Hk.
  - destruct (decide (o = k)) as [->|Hne].
    + rewrite Hk. case_bool_decide as Hs.
      * rewrite lookup_delete_eq. cbn. set_solver.
      * rewrite lookup_insert_eq. cbn. set_solver.
    + assert ((if bool_decide (s ∖ {[id]} = ∅) then delete k m else <[k:=s ∖ {[id]}]> m) !! o = m !! o)
        as -> by (case_bool_decide; [by rewrite lookup_delete_ne|by rewrite lookup_insert_ne]).
      naive_solver.
  - split; [|tauto]. intros Hi. split; [done|]. intros [-> ->]. rewrite Hk in Hi. set_solver.
Qed.

Lemma index_remove_no_empty k id m : no_empty m → no_empty (index_remove k id m).
Proof.
  unfold no_empty, index_remove. intros Hm o. destruct (m !! k) as [s|] eqn:Hk; [|done].
  case_bool_decide as Hs; (destruct (decide (o = k)) as [->|Hne]).
  - by rewrite lookup_delete_eq.
  - by rewrite lookup_delete_ne.
  - rewrite lookup_insert_eq. congruence.
  - by rewrite lookup_insert_ne.
Qed.

Lemma delete_tasks (l : list RunningFiring) (m : gmap TaskId ScheduleId) t :
  foldl (λ m r, delete (rf_task r) m) m l !! t = (if decide (t ∈ rf_task <$> l) then None else m !! t).
Proof.
  revert m. induction l as [|r l IH]; intros m; cbn; [done|]. rewrite IH.
  destruct (decide (t ∈ rf_task <$> l)), (decide (t ∈ rf_task r :: (rf_task <$> l))); try done.
  - set_solver.
  - assert (t = rf_task r) as -> by set_solver. by rewrite lookup_delete_eq.
  - rewrite lookup_delete_ne; set_solver.
Qed.

(** [forget] takes a live schedule out of the indexes, whatever its entry has become. *)
Lemma forget_others F id q e q1 :
  near F id q e → Entry.is_live e = true → others id q q1 →
  sq_by_owner q1 = sq_by_owner q → sq_by_target q1 = sq_by_target q → sq_by_task q1 = sq_by_task q →
  others id q (forget id (se_firee e) (se_running e) q1).
Proof.
  intros Hn Hl A Eo Et Ek. pose proof (nr_indexes _ _ _ _ Hn) as Hx.
  split; cbn; intros.
  - by apply A.
  - rewrite lookup_delete_ne by done. by apply A.
  - destruct (ot_armed _ _ _ A i g ltac:(done) ltac:(done)) as [[Hi|Hw]|Ht];
      [left; left|by left; right|by right].
    cbn. apply list_elem_of_In, filter_In. split; [by apply list_elem_of_In|]. cbn.
    destruct (Z.eqb_spec i id); [done|done].
  - rewrite index_remove_spec, Eo. naive_solver.
  - rewrite index_remove_spec, Et. naive_solver.
  - rewrite delete_tasks, Ek. destruct (decide _) as [Hin|]; [|done]. split; [done|].
    intros Hi. assert (sq_by_task q !! t = Some id) as Hid; [|congruence].
    apply (ix_task _ _ Hx). by exists e; rewrite (nr_entry _ _ _ _ Hn).
  - apply A.
  - apply A.
  - rewrite Eo. by apply index_remove_no_empty.
  - rewrite Et. by apply index_remove_no_empty.
Qed.

Lemma retire_others F id q e r now :
  near F id q e → Entry.is_live e = true → se_retired e = None → others id q (retire id r now q).
Proof.
  intros Hn Hl Hr. unfold retire. rewrite (nr_entry _ _ _ _ Hn), Hr.
  eapply forget_others; try done. eapply others_trans; [|apply upd_others]. by split.
Qed.

Lemma forgotten_index F id q e o k :
  near F id q e → Entry.is_live e = true → k = fe_owner (se_firee e) →
  ¬ indexed (index_remove k id (sq_by_owner q)) o id.
Proof.
  intros Hn Hl -> Hi. apply index_remove_spec in Hi as [Hi Hne]. apply Hne. split; [|done].
  apply (ix_owner _ _ (nr_indexes _ _ _ _ Hn)) in Hi as (x & Hx & _ & <-).
  rewrite (nr_entry _ _ _ _ Hn) in Hx. by injection Hx as ->.
Qed.

Lemma forgotten_target F id q e o k :
  near F id q e → Entry.is_live e = true → k = fe_target (se_firee e) →
  ¬ indexed (index_remove k id (sq_by_target q)) o id.
Proof.
  intros Hn Hl -> Hi. apply index_remove_spec in Hi as [Hi Hne]. apply Hne. split; [|done].
  apply (ix_target _ _ (nr_indexes _ _ _ _ Hn)) in Hi as (x & Hx & _ & <-).
  rewrite (nr_entry _ _ _ _ Hn) in Hx. by injection Hx as ->.
Qed.

Lemma forgotten_task F id q e t :
  near F id q e → Entry.is_live e = true →
  foldl (λ m r, delete (rf_task r) m) (sq_by_task q) (se_running e) !! t ≠ Some id.
Proof.
  intros Hn Hl. rewrite delete_tasks. destruct (decide _) as [|Hne]; [done|]. intros Ht. apply Hne.
  apply (ix_task _ _ (nr_indexes _ _ _ _ Hn)) in Ht as (x & Hx & _ & Hin).
  rewrite (nr_entry _ _ _ _ Hn) in Hx. by injection Hx as ->.
Qed.

Lemma retire_leads F id q e r now :
  near F id q e → Entry.is_live e = true → se_retired e = None → leads F id q (retire id r now q).
Proof.
  intros Hn Hl Hr. split; [by eapply retire_others|].
  pose proof (retire_others F id q e r now Hn Hl Hr) as A.
  set (q' := retire id r now q) in *.
  assert (sq_entries q' !! id = Some (Entry.set_retired r e)) as He.
  { unfold q', retire. rewrite (nr_entry _ _ _ _ Hn), Hr. cbn. by rewrite lookup_alter_eq, (nr_entry _ _ _ _ Hn). }
  assert (sq_generations q' !! id = None) as Hg.
  { unfold q', retire. rewrite (nr_entry _ _ _ _ Hn), Hr. cbn. by rewrite lookup_delete_eq. }
  assert (∀ P, ¬ live_at q' id P) as Hdead.
  { intros P (x & Hx & Hlx & _). rewrite He in Hx. injection Hx as <-. by apply is_live_true in Hlx as [? [=]]. }
  split.
  - split.
    + intros o. split; [|by intros ?%Hdead]. intros Hi. exfalso. revert Hi.
      unfold q', retire. rewrite (nr_entry _ _ _ _ Hn), Hr. by apply (forgotten_index F id q e).
    + intros o. split; [|by intros ?%Hdead]. intros Hi. exfalso. revert Hi.
      unfold q', retire. rewrite (nr_entry _ _ _ _ Hn), Hr. by apply (forgotten_target F id q e).
    + intros t. split; [|by intros ?%Hdead]. intros Hi. exfalso. revert Hi.
      unfold q', retire. rewrite (nr_entry _ _ _ _ Hn), Hr. by apply (forgotten_task F id q e).
    + rewrite He. intros x [= <-]. constructor.
  - rewrite He. intros x [= <-]. split; [apply Hn|]. rewrite Hg. split; [|done].
    pose proof (ot_next_id _ _ _ A). pose proof (nr_next _ _ _ _ Hn). lia.
  - rewrite Hg. done.
  - intros g Hin. rewrite Hg. split; [|done]. pose proof (ot_next_gen _ _ _ A).
    pose proof (nr_handed _ _ _ _ Hn g Hin). lia.
Qed.

(** *** The next deadline *)

Lemma armable_live e : armable e → Entry.is_live e = true.
Proof. intros Ha. apply is_live_true, Ha. Qed.

Lemma armable_deadline t e : armable e → armable (Entry.set_deadline t e).
Proof. intros []. by split. Qed.

Lemma armable_overlap n e : armable e → armable (Entry.add_overlap n e).
Proof. by intros []. Qed.

Lemma armable_missed n e : armable e → armable (Entry.add_missed n e).
Proof. by intros []. Qed.

Lemma armable_unqueued e : armable e → armable (Entry.set_queued false e).
Proof. by intros []. Qed.

Lemma near_deadline F id t q e :
  near F id q e → near F id (upd_entry id (Entry.set_deadline t) q) (Entry.set_deadline t e).
Proof. intros Hn. by apply near_upd. Qed.

Lemma rearm_leads F id t now j q e : near F id q e → armable e → leads F id q (rearm id t now j q).
Proof.
  intros Hn Ha. unfold rearm. pose proof (near_jittered F id t j now q e Hn) as Hj.
  pose proof (jittered_others id t j now q) as A. destruct (jittered t j now q) as [t' q1].
  eapply leads_after; [exact A|]. by eapply arm_leads.
Qed.

Lemma upd_leads F id g q e q' :
  near F id q e → same_index e (g e) → se_id (g e) = se_id e →
  (near F id (upd_entry id g q) (g e) → leads F id (upd_entry id g q) q') → leads F id q q'.
Proof.
  intros Hn Hs Hid Hl. eapply leads_after; [apply upd_others|]. by apply Hl, near_upd.
Qed.

Lemma retire_out_leads F id now q e :
  near F id q e → Entry.is_live e = true → se_retired e = None → leads F id q (retire_out_of_range id now q).
Proof.
  intros Hn Hl Hr. unfold retire_out_of_range. apply (upd_leads F id Entry.count_fault q e); [done..|].
  intros Hn'. by eapply retire_leads.
Qed.

Lemma skip_overlapped_leads F id now q e interval :
  near F id q e → armable e → se_kind e = KindEvery interval → leads F id q (skip_overlapped id now q).
Proof.
  intros Hn Ha Hk. unfold skip_overlapped. rewrite (nr_entry _ _ _ _ Hn), Hk.
  apply (upd_leads F id (Entry.add_overlap 1) q e); [done..|]. intros Hn1. pose proof (armable_overlap 1 e Ha) as Ha1.
  destruct (match deadline_after _ _ with Some _ => _ | None => _ end) as [[next passed]|].
  - apply (upd_leads F id (λ e, Entry.set_deadline next (Entry.add_overlap passed e)) _ _ _ Hn1); [done..|]. intros Hn2.
    eapply rearm_leads; [exact Hn2|]. by apply armable_deadline, armable_overlap.
  - eapply retire_out_leads; [exact Hn1|by apply armable_live|apply Ha1].
Qed.

Lemma fire_queued_leads F id interval now q e :
  near F id q e → armable (Entry.set_queued false e) → leads F id q (fire_queued id interval now q).
Proof.
  intros Hn Ha. unfold fire_queued. rewrite (nr_entry _ _ _ _ Hn).
  apply (upd_leads F id (Entry.set_queued false) q e); [done..|]. intros Hn1.
  destruct (match deadline_after _ _ with Some _ => _ | None => _ end) as [[next passed]|];
    [|by eapply arm_leads].
  destruct (0 <? passed); [|by eapply arm_leads].
  destruct (checked_sub next interval) as [latest|]; [|by eapply arm_leads].
  apply (upd_leads F id (λ e, Entry.set_deadline latest (Entry.add_overlap passed e)) _ _ _ Hn1); [done..|]. intros Hn2.
  eapply arm_leads; [exact Hn2|]. by apply armable_deadline, armable_overlap.
Qed.

Lemma arm_after_leads F id deadline interval now q e :
  near F id q e → armable e → leads F id q (arm_after id deadline interval now q).
Proof.
  intros Hn Ha. unfold arm_after. rewrite (nr_entry _ _ _ _ Hn).
  destruct (deadline_after deadline interval) as [first|];
    [|eapply retire_out_leads; [exact Hn|by apply armable_live|apply Ha]].
  assert (∀ next q0 e0, near F id q0 e0 → armable e0 → others id q q0 →
    leads F id q (rearm id next now (so_jitter (se_options e)) (upd_entry id (Entry.set_deadline next) q0)))
    as Hgo.
  { intros next q0 e0 Hn0 Ha0 A. eapply leads_after; [exact A|].
    apply (upd_leads F id (Entry.set_deadline next) q0 e0); [done..|]. intros Hn1.
    eapply rearm_leads; [exact Hn1|by apply armable_deadline]. }
  destruct (now <? first); [by eapply Hgo|].
  destruct (so_catchup (se_options e)); [| |by eapply Hgo];
    (destruct (next_cadence_after first interval now) as [[next passed]|];
     [|eapply retire_out_leads; [exact Hn|by apply armable_live|apply Ha]]).
  - destruct (decide _); [|done]. eapply (Hgo next _ (Entry.add_missed passed e));
      [by apply near_upd|by apply armable_missed|apply upd_others].
  - destruct (decide _); [done|]. by eapply Hgo.
Qed.

Lemma live_ok_armable e gen R :
  se_retired e = None → live_ok e gen R → (se_kind e = KindAt → se_running e = []) → armable e.
Proof. intros Hr [] Hat. by split. Qed.

(** *** Firing *)

Lemma slot_near F id q e :
  slot_ok q F id → sq_entries q !! id = Some e → near F id q e.
Proof.
  intros [Hx He Hg Hh] Hid. destruct (He e Hid) as (H1 & H2 & _). split; try done.
  intros g Hin. by apply (Hh g).
Qed.

Lemma current_live x q : is_current_expiry x q = true →
  sq_generations q !! ex_id x = Some (ex_generation x) ∧
  ∃ e, sq_entries q !! ex_id x = Some e ∧ Entry.is_live e = true.
Proof.
  unfold is_current_expiry, is_valid. intros [Hg He]%andb_true_iff.
  apply bool_decide_eq_true in Hg. split; [done|].
  destruct (sq_entries q !! ex_id x) as [e|]; [by exists e|done].
Qed.

Lemma live_not_retired F id q e :
  slot_ok q F id → sq_entries q !! id = Some e → Entry.is_live e = true → se_retired e = None.
Proof.
  intros Hs He Hl. destruct (sl_entry _ _ _ Hs e He) as (_ & _ & Hok). unfold schedule_ok in Hok.
  destruct (se_retired e); [|done]. apply is_live_true in Hl as [t Ht]. destruct Hok as (Hn & _). congruence.
Qed.

(** Firings change [by_task] and the entry together. *)
Lemma near_firing F id q q' e e' :
  near F id q e → Entry.is_live e = true → Entry.is_live e' = true →
  sq_entries q' !! id = Some e' → se_id e' = se_id e → se_firee e' = se_firee e →
  NoDup (rf_task <$> se_running e') →
  (∀ t, sq_by_task q' !! t = Some id ↔ t ∈ rf_task <$> se_running e') →
  sq_by_owner q' = sq_by_owner q → sq_by_target q' = sq_by_target q →
  sq_next_id q' = sq_next_id q → sq_next_generation q' = sq_next_generation q → near F id q' e'.
Proof.
  intros [He Hi Hn [Xo Xt Xk Xn] Hh] Hl Hl' He' Hid Hf Hdup Htasks Eo Et En Eg.
  assert (∀ (P P' : ScheduleEntry → Prop), (P e ↔ P' e') → live_at q id P ↔ live_at q' id P') as Hlive.
  { intros P P' HP. unfold live_at. rewrite He, He'. split; intros (x & [= <-] & _ & Hx).
    - exists e'. split_and!; [done..|by apply HP].
    - exists e. split_and!; [done..|by apply HP]. }
  split; [done|congruence|lia| |intros g Hin; specialize (Hh g Hin); lia]. split.
  - intros o. rewrite Eo, Xo. apply Hlive. by rewrite Hf.
  - intros o. rewrite Et, Xt. apply Hlive. by rewrite Hf.
  - intros t. rewrite Htasks. unfold live_at. rewrite He'.
    split; [intros Ht; by exists e'|by intros (x & [= <-] & _ & Hx)].
  - rewrite He'. by intros x [= <-].
Qed.

Definition without (x : ScheduleExpiry) (F : list ScheduleExpiry) : list ScheduleExpiry :=
  List.filter (λ y, bool_decide (y ≠ x)) F.

Lemma elem_without x y F : y ∈ without x F ↔ y ∈ F ∧ y ≠ x.
Proof.
  unfold without. rewrite list_elem_of_In, filter_In, <- list_elem_of_In. by rewrite bool_decide_eq_true.
Qed.

Lemma without_handed x F : same_handed (ex_id x) F (without x F).
Proof. intros y Hy. rewrite elem_without. naive_solver. Qed.

Lemma near_fewer x F id q e : near F id q e → near (without x F) id q e.
Proof. intros []. split; try done. intros g [Hg _]%elem_without. auto. Qed.

Lemma mark_fired_leads F x q task now :
  slot_ok q F (ex_id x) → x ∈ F → is_current_expiry x q = true → sq_by_task q !! task = None →
  leads (without x F) (ex_id x) q (mark_fired (ex_id x) task now q).2.
Proof.
  intros Hs Hx Hc Htask. set (id := ex_id x) in *.
  destruct (current_live x q Hc) as (Hg & e & He & Hl). fold id in Hg, He.
  pose proof (live_not_retired F id q e Hs He Hl) as Hr.
  pose proof (slot_near F id q e Hs He) as Hn.
  destruct (sl_entry _ _ _ Hs e He) as (_ & _ & Hok). unfold schedule_ok in Hok. rewrite Hr in Hok.
  assert (mkExpiry id (ex_generation x) ∈ F) as HxF by (by destruct x).
  destruct (sl_handed _ _ _ Hs _ HxF) as [_ Hidle]. specialize (Hidle e Hg He).
  unfold mark_fired. rewrite He, Hl. cbn [negb snd].
  set (run := mkRunning task _ now). set (q0 := set_timers _ _ _ _ _).
  set (e1 := Entry.set_last_run now (Entry.set_running (se_running e ++ [run]) e)).
  assert (sq_entries q0 !! id = Some e1) as He1 by (cbn; by rewrite lookup_alter_eq, He).
  assert (task ∉ rf_task <$> se_running e) as Hfresh.
  { intros Hin. assert (sq_by_task q !! task = Some id); [|congruence].
    apply (ix_task _ _ (nr_indexes _ _ _ _ Hn)). by exists e. }
  assert (near (without x F) id q0 e1) as Hn0.
  { apply (near_firing _ id q q0 e e1); try done; [by apply near_fewer|..].
    - cbn. rewrite fmap_app. apply NoDup_app. split; [by apply (ix_nodup _ _ (nr_indexes _ _ _ _ Hn))|].
      split; [|apply NoDup_singleton]. cbn. set_solver.
    - intros t. cbn. rewrite fmap_app, elem_of_app. cbn. destruct (decide (t = task)) as [->|Hne].
      + rewrite lookup_insert_eq. set_solver.
      + rewrite lookup_insert_ne by done. rewrite (ix_task _ _ (nr_indexes _ _ _ _ Hn)).
        unfold live_at. rewrite He. split; [intros (y & [= <-] & _ & Hin); by left|].
        intros [Hin|Hin]; [by exists e|set_solver]. }
  assert (others id q q0) as A.
  { split; try done; cbn; intros.
    - by rewrite lookup_alter_ne.
    - by rewrite lookup_delete_ne.
    - destruct (decide (t = task)) as [->|Hne]; [|by rewrite lookup_insert_ne].
      rewrite lookup_insert_eq, Htask. split; congruence. }
  destruct Hok as [L1 L2 L3 L4 L5 L6].
  destruct (se_kind e) as [|interval] eqn:Hk.
  - split; [done|]. split; [apply Hn0| | |].
    + rewrite He1. intros y [= <-]. split; [apply Hn0|]. split; [apply Hn0|].
      assert (sq_generations q0 !! id = None) as -> by (cbn; by rewrite lookup_delete_eq).
      assert (se_running e = []) as Hnone by (apply Hidle; by left).
      unfold schedule_ok. cbn. rewrite Hr. split; cbn; rewrite ?Hnone; try done.
      * intros i. by rewrite Hk.
      * intros Hq. by destruct (L5 Hq) as (_ & _ & ?).
      * split; [done|by left].
    + intros g. cbn. by rewrite lookup_delete_eq.
    + intros g Hin. split; [by apply (nr_handed _ _ _ _ Hn0)|]. cbn. by rewrite lookup_delete_eq.
  - eapply leads_after; [exact A|]. eapply arm_after_leads; [exact Hn0|]. split; try done.
    + cbn. rewrite Hk. intros ? [= <-]. by apply L3.
    + intros Hone. cbn. assert (one_at_a_time e) as Hone' by (unfold one_at_a_time in *; cbn in Hone; by rewrite Hk in *).
      rewrite (Hidle Hone'). cbn. lia.
    + intros Hq. destruct (L5 Hq) as (_ & M1 & M2). split_and!; try done; [cbn; by destruct (se_running e)|cbn; by rewrite Hk].
    + cbn. by rewrite Hk.
Qed.
(** *** Completion *)

Lemma take_firing_spec task l r l' :
  take_firing task l = Some (r, l') → l ≡ₚ r :: l' ∧ rf_task r = task.
Proof.
  unfold take_firing. destruct (list_find _ l) as [[i x]|] eqn:Hf; [|done]. intros [= <- <-].
  apply list_find_Some in Hf as (Hi & Hx & _). split; [|done]. rewrite <- (take_drop_middle l i x Hi) at 1.
  by rewrite Permutation_middle.
Qed.

Lemma list_one {A} (l : list A) x l' : l ≡ₚ x :: l' → (length l ≤ 1)%nat → l' = [].
Proof. intros Hp. rewrite Hp. destruct l'; cbn; [done|lia]. Qed.

Lemma complete_cadence_leads F id now q0 q e :
  near F id q e → others id q0 q → se_retired e = None → Entry.is_live e = true →
  armable (Entry.set_queued false e) →
  (∀ i, se_kind e = KindEvery i → se_queued_firing e = false → slot_ok q F id) →
  leads F id q0 (complete_cadence id now e q).2.
Proof.
  intros Hn A Hr Hl Ha Hslot. eapply leads_after; [exact A|]. unfold complete_cadence.
  destruct (se_kind e) as [|interval] eqn:Hk; [by eapply retire_leads|].
  destruct (se_queued_firing e) eqn:Hq; [by eapply fire_queued_leads|].
  assert (leads F id q q) as Hsame by (split; [apply others_refl|by apply (Hslot interval)]).
  by destruct (sq_entries q !! id).
Qed.

Lemma complete_adaptive_leads F id base now n q0 q e :
  near F id q e → others id q0 q → se_retired e = None → Entry.is_live e = true →
  armable (Entry.set_queued false e) →
  (∀ i, se_kind e = KindEvery i → se_queued_firing e = false → slot_ok q F id) →
  leads F id q0 (complete_adaptive id base now n e q).2.
Proof.
  intros Hn A Hr Hl Ha Hslot. unfold complete_adaptive. destruct (f64_ltb f64_zero n).
  { destruct (match try_from_secs_f64 n with Some _ => _ | None => _ end) as [next|];
      (eapply leads_after; [exact A|]); [|by eapply retire_out_leads].
    apply (upd_leads F id (λ e, Entry.set_queued false (Entry.set_deadline next e)) q e); [done..|].
    intros Hn1. eapply rearm_leads; [exact Hn1|]. destruct Ha. by split. }
  destruct (f64_eqb n f64_zero).
  - destruct (se_kind e) eqn:Hk; [eapply leads_after; [exact A|]; by eapply retire_leads|].
    eapply complete_cadence_leads; try done. by rewrite Hk.
  - eapply leads_after; [exact A|]. apply (upd_leads F id Entry.count_fault q e); [done..|].
    intros Hn1. by eapply retire_leads.
Qed.

(** The firing [r] of [e] has ended as [out]; the firings [l] are left. *)
Definition finished (out : Outcome) (d : Duration) (l : list RunningFiring) (e : ScheduleEntry) :=
  match out with
  | OutSuccess _ => Entry.succeeded (Entry.push_duration d (Entry.set_running l e))
  | OutFault v => Entry.faulted v (Entry.push_duration d (Entry.set_running l e))
  end.

Definition finish_q (id : ScheduleId) (task : TaskId) (e : ScheduleEntry) q : ScheduleQ :=
  set_indexes (sq_by_owner q) (sq_by_target q) (delete task (sq_by_task q))
    (set_entries (<[id := e]> (sq_entries q)) q).

Lemma finished_fields out d l e :
  let e1 := finished out d l e in
  se_retired e1 = se_retired e ∧ se_next_run e1 = se_next_run e ∧ se_running e1 = l ∧
  se_kind e1 = se_kind e ∧ se_options e1 = se_options e ∧ se_queued_firing e1 = se_queued_firing e ∧
  se_scheduled_deadline e1 = se_scheduled_deadline e ∧ se_id e1 = se_id e ∧ se_firee e1 = se_firee e.
Proof. by destruct out. Qed.

Lemma finish_others F id q e e1 r l :
  near F id q e → Entry.is_live e = true → se_running e ≡ₚ r :: l → others id q (finish_q id (rf_task r) e1 q).
Proof.
  intros Hn Hl Hp. split; try done; cbn; intros.
  - by rewrite lookup_insert_ne.
  - destruct (decide (t = rf_task r)) as [->|Hne]; [|by rewrite lookup_delete_ne].
    rewrite lookup_delete_eq. split; [done|]. intros Hi.
    assert (sq_by_task q !! rf_task r = Some id); [|congruence].
    apply (ix_task _ _ (nr_indexes _ _ _ _ Hn)). exists e. split_and!; [apply Hn|done|].
    rewrite Hp. by left.
Qed.

Lemma finish_near F id q e r l out d :
  near F id q e → Entry.is_live e = true → se_running e ≡ₚ r :: l →
  near F id (finish_q id (rf_task r) (finished out d l e) q) (finished out d l e).
Proof.
  intros Hn Hl Hp. destruct (finished_fields out d l e) as (_ & R2 & R3 & _ & _ & _ & _ & R8 & R9).
  pose proof (ix_nodup _ _ (nr_indexes _ _ _ _ Hn) e (nr_entry _ _ _ _ Hn)) as Hdup.
  rewrite Hp in Hdup. cbn in Hdup. apply NoDup_cons in Hdup as [Hnin Hdup].
  apply (near_firing F id q _ e); try done; rewrite ?R3; try done.
  - apply is_live_true. rewrite R2. by apply is_live_true.
  - apply lookup_insert_eq.
  - intros t. cbn. destruct (decide (t = rf_task r)) as [->|Hne]; [by rewrite lookup_delete_eq|].
    rewrite lookup_delete_ne by done. rewrite (ix_task _ _ (nr_indexes _ _ _ _ Hn)). unfold live_at.
    rewrite (nr_entry _ _ _ _ Hn). split.
    + intros (y & [= <-] & _ & Hin). rewrite Hp in Hin. cbn in Hin. set_solver.
    + intros Hin. exists e. split_and!; [done..|]. rewrite Hp. cbn. set_solver.
Qed.

Lemma finish_armable e gen R r l out d :
  se_retired e = None → live_ok e gen R → se_running e ≡ₚ r :: l →
  armable (Entry.set_queued false (finished out d l e)).
Proof.
  intros Hr [L1 L2 L3 L4 L5 L6] Hp.
  destruct (finished_fields out d l e) as (R1 & R2 & R3 & R4 & R5 & _ & R7 & _).
  split; cbn; rewrite ?R1, ?R2, ?R3, ?R4, ?R7; try done.
  - intros Hone. rewrite (list_one _ _ _ Hp); [cbn; lia|]. apply L4. unfold one_at_a_time in *.
    cbn in Hone. by rewrite R4, R5 in Hone.
  - intros Hk. apply (list_one _ _ _ Hp), L4. by left.
Qed.

(** A recurring schedule with nothing queued goes on with the arm it has. *)
Lemma finish_slot F id q e r l out d i :
  slot_ok q F id → sq_entries q !! id = Some e → se_retired e = None → se_running e ≡ₚ r :: l →
  se_kind e = KindEvery i → se_queued_firing e = false →
  slot_ok (finish_q id (rf_task r) (finished out d l e) q) F id.
Proof.
  intros Hs He Hr Hp Hk Hq. destruct (sl_entry _ _ _ Hs e He) as (_ & _ & Hok). unfold schedule_ok in Hok.
  rewrite Hr in Hok. pose proof Hok as [L1 L2 L3 L4 L5 L6].
  pose proof (finish_near F id q e r l out d (slot_near F id q e Hs He)) as Hn.
  destruct (finished_fields out d l e) as (R1 & R2 & R3 & R4 & R5 & R6 & R7 & _).
  assert (one_at_a_time (finished out d l e) → l = []) as Hnil.
  { intros Hone. apply (list_one _ _ _ Hp), L4. unfold one_at_a_time in *. by rewrite R4, R5 in Hone. }
  destruct Hn as [N1 N2 N3 N4 N5]; [by apply is_live_true|done|]. split; [done|..].
  - rewrite N1. intros y [= <-]. split; [done|]. split; [done|]. unfold schedule_ok. rewrite R1, Hr.
    change (sq_generations (finish_q _ _ _ _)) with (sq_generations q).
    split; rewrite ?R2, ?R3, ?R4, ?R6, ?R7, ?Hq; try done.
    + intros Hone. rewrite Hnil by done. cbn. lia.
    + destruct (sq_generations q !! id); [|naive_solver congruence].
      destruct L6 as [[L6|L6] _]; [|congruence]. split; [by left|congruence].
  - intros g Hg. destruct (sl_gen _ _ _ Hs g Hg) as [Hle _]. split; [done|]. by rewrite N1.
  - intros g Hin. destruct (sl_handed _ _ _ Hs g Hin) as [Hle _]. split; [done|].
    rewrite N1. intros y Hg [= <-] Hone. rewrite R3. by apply Hnil.
Qed.

Lemma complete_leads F id task out now q :
  slot_ok q F id → leads F id q (complete id task out now q).2.
Proof.
  intros Hs. assert (leads F id q q) as Hsame by (split; [apply others_refl|done]).
  unfold complete. destruct (sq_entries q !! id) as [e|] eqn:He; [|done].
  destruct (take_firing task (se_running e)) as [[r l]|] eqn:Ht; [|done].
  apply take_firing_spec in Ht as [Hp <-]. pose proof (slot_near F id q e Hs He) as Hn.
  destruct (sl_entry _ _ _ Hs e He) as (_ & _ & Hok). unfold schedule_ok in Hok.
  destruct (se_retired e) eqn:Hret;
    [destruct Hok as (_ & Hnil & _); rewrite Hnil in Hp; by apply Permutation_nil_cons in Hp|].
  assert (Entry.is_live e = true) as Hl by apply is_live_true, Hok.
  set (d := since_or_zero now (rf_started_at r)).
  pose proof (finish_near F id q e r l out d Hn Hl Hp) as Hn1.
  pose proof (finish_others F id q e (finished out d l e) r l Hn Hl Hp) as A.
  pose proof (finish_armable e _ _ r l out d Hret Hok Hp) as Ha.
  destruct (finished_fields out d l e) as (R1 & R2 & _ & R4 & R5 & R6 & _).
  rewrite Hret in R1. assert (Entry.is_live (finished out d l e) = true) as Hl1
    by (apply is_live_true; rewrite R2; by apply is_live_true).
  assert (∀ i, se_kind (finished out d l e) = KindEvery i → se_queued_firing (finished out d l e) = false →
    slot_ok (finish_q id (rf_task r) (finished out d l e) q) F id) as Hslot
    by (intros i Hk Hq; rewrite R4 in Hk; rewrite R6 in Hq; by eapply finish_slot).
  cbv zeta. destruct out as [v|v].
  - fold (finished (OutSuccess v) d l e) (finish_q id (rf_task r) (finished (OutSuccess v) d l e) q).
    destruct (so_adaptive _); [|by eapply complete_cadence_leads].
    destruct (as_float_numeric v); [by eapply complete_adaptive_leads|by eapply complete_cadence_leads].
  - fold (finished (OutFault v) d l e) (finish_q id (rf_task r) (finished (OutFault v) d l e) q).
    case_bool_decide; [|by eapply complete_cadence_leads].
    eapply leads_after; [exact A|]. by eapply retire_leads.
Qed.

(** *** Stopping *)

Lemma not_live_retired F id q e :
  slot_ok q F id → sq_entries q !! id = Some e → Entry.is_live e = false →
  is_Some (se_retired e) ∧ sq_generations q !! id = None.
Proof.
  intros Hs He Hl. destruct (sl_entry _ _ _ Hs e He) as (_ & _ & Hok). unfold schedule_ok in Hok.
  destruct (se_retired e); [by destruct Hok as (_ & _ & ?)|]. destruct Hok as [L1 _ _ _ _ _].
  apply is_live_true in L1. congruence.
Qed.

Lemma live_at_none q id P : sq_entries q !! id = None → ¬ live_at q id P.
Proof. intros Hnone (e & He & _). congruence. Qed.

(** A slot without an entry. *)
Lemma empty_slot F id q :
  sq_entries q !! id = None → sq_generations q !! id = None →
  (∀ o, ¬ indexed (sq_by_owner q) o id) → (∀ o, ¬ indexed (sq_by_target q) o id) →
  (∀ t, sq_by_task q !! t ≠ Some id) → (∀ g, mkExpiry id g ∈ F → g ≤ sq_next_generation q) →
  slot_ok q F id.
Proof.
  intros He Hg Ho Ht Hk Hh. split.
  - split; [intros o|intros o|intros t|by rewrite He]; (split; [|by intros ?%(live_at_none q id _ He)]).
    + by intros ?%Ho.
    + by intros ?%Ht.
    + by intros ?%Hk.
  - by rewrite He.
  - by rewrite Hg.
  - intros g Hin. rewrite Hg. split; [by apply Hh|done].
Qed.

Lemma dead_unindexed F id q e :
  slot_ok q F id → sq_entries q !! id = Some e → Entry.is_live e = false →
  (∀ o, ¬ indexed (sq_by_owner q) o id) ∧ (∀ o, ¬ indexed (sq_by_target q) o id) ∧
  (∀ t, sq_by_task q !! t ≠ Some id).
Proof.
  intros Hs He Hl. assert (∀ P, ¬ live_at q id P) as Hdead by (intros P (x & Hx & Hlx & _); congruence).
  destruct (sl_indexes _ _ _ Hs) as [Xo Xt Xk _].
  split_and!; [intros o Hi%Xo|intros o Hi%Xt|intros t Hi%Xk]; by eapply Hdead.
Qed.

Lemma delete_entry_others id q : others id q (set_entries (delete id (sq_entries q)) q).
Proof. split; try done. intros i Hi. cbn. by rewrite lookup_delete_ne. Qed.

Lemma delete_retired_leads F id q e :
  slot_ok q F id → sq_entries q !! id = Some e → Entry.is_live e = false →
  leads F id q (set_entries (delete id (sq_entries q)) q).
Proof.
  intros Hs He Hl. split; [apply delete_entry_others|].
  destruct (dead_unindexed F id q e Hs He Hl) as (Ho & Ht & Hk).
  destruct (not_live_retired F id q e Hs He Hl) as [_ Hg].
  apply empty_slot; try done; [apply lookup_delete_eq|]. intros g Hin. by apply (sl_handed _ _ _ Hs g).
Qed.

Lemma stop_leads F id q : slot_ok q F id → leads F id q (stop id q).2.
Proof.
  intros Hs. unfold stop. destruct (sq_entries q !! id) as [e|] eqn:He;
    [|split; [apply others_refl|done]].
  destruct (Entry.is_live e) eqn:Hl; cbn [negb snd]; [|by eapply delete_retired_leads].
  pose proof (slot_near F id q e Hs He) as Hn.
  split; [by eapply forget_others; try done; apply delete_entry_others|].
  apply empty_slot; cbn.
  - apply lookup_delete_eq.
  - apply lookup_delete_eq.
  - intros o. by eapply forgotten_index.
  - intros o. by eapply forgotten_target.
  - intros t. by eapply forgotten_task.
  - intros g Hin. by apply (sl_handed _ _ _ Hs g).
Qed.

(** *** Creation *)

Lemma absent_unindexed F id q :
  slot_ok q F id → sq_entries q !! id = None →
  sq_generations q !! id = None ∧ (∀ o, ¬ indexed (sq_by_owner q) o id) ∧
  (∀ o, ¬ indexed (sq_by_target q) o id) ∧ (∀ t, sq_by_task q !! t ≠ Some id).
Proof.
  intros Hs He. destruct (sl_indexes _ _ _ Hs) as [Xo Xt Xk _]. split_and!.
  - destruct (sq_generations q !! id) as [g|] eqn:Hg; [|done].
    destruct (sl_gen _ _ _ Hs g Hg) as [_ [x Hx]]. congruence.
  - by intros o Hi%Xo%live_at_none.
  - by intros o Hi%Xt%live_at_none.
  - by intros t Hi%Xk%live_at_none.
Qed.

(** Entered, with the firings [tasks] tells of, and not armed yet. *)
Lemma entered_near F id q q' e :
  slot_ok q F id → sq_entries q !! id = None → se_id e = id → Entry.is_live e = true → id < sq_next_id q' →
  sq_entries q' = <[id := e]> (sq_entries q) →
  sq_by_owner q' = index_insert (fe_owner (se_firee e)) id (sq_by_owner q) →
  sq_by_target q' = index_insert (fe_target (se_firee e)) id (sq_by_target q) →
  NoDup (rf_task <$> se_running e) →
  (∀ t, sq_by_task q' !! t = Some id ↔ t ∈ rf_task <$> se_running e) →
  sq_next_generation q' = sq_next_generation q → near F id q' e.
Proof.
  intros Hs He Hid Hl Hn Ee Eo Et Hdup Hk Eg.
  destruct (absent_unindexed F id q Hs He) as (_ & Ho & Ht & _).
  assert (sq_entries q' !! id = Some e) as He' by (rewrite Ee; apply lookup_insert_eq).
  split; try done.
  - split.
    + intros o. rewrite Eo, index_insert_spec. unfold live_at. rewrite He'. split.
      * intros [[-> _]|Hi%Ho]; [by exists e|done].
      * intros (x & [= <-] & _ & <-). by left.
    + intros o. rewrite Et, index_insert_spec. unfold live_at. rewrite He'. split.
      * intros [[-> _]|Hi%Ht]; [by exists e|done].
      * intros (x & [= <-] & _ & <-). by left.
    + intros t. rewrite Hk. unfold live_at. rewrite He'. split; [intros Hin; by exists e|].
      by intros (x & [= <-] & _ & Hin).
    + rewrite He'. by intros x [= <-].
  - intros g Hin. rewrite Eg. by apply (sl_handed _ _ _ Hs g).
Qed.

Lemma entered_others id q q' e :
  sq_entries q' = <[id := e]> (sq_entries q) →
  sq_by_owner q' = index_insert (fe_owner (se_firee e)) id (sq_by_owner q) →
  sq_by_target q' = index_insert (fe_target (se_firee e)) id (sq_by_target q) →
  (∀ i t, i ≠ id → sq_by_task q' !! t = Some i ↔ sq_by_task q !! t = Some i) →
  sq_next_id q ≤ sq_next_id q' → sq_next_generation q' = sq_next_generation q →
  sq_generations q' = sq_generations q → sq_immediate q' = sq_immediate q → sq_wheel q' = sq_wheel q →
  others id q q'.
Proof.
  intros Ee Eo Et Ek En Eg Egs Ei Ew. split; intros.
  - by rewrite Ee, lookup_insert_ne.
  - by rewrite Egs.
  - unfold armed, timed in *. by rewrite Ei, Ew.
  - rewrite Eo, index_insert_spec. naive_solver.
  - rewrite Et, index_insert_spec. naive_solver.
  - by apply Ek.
  - lia.
  - done.
  - rewrite Eo. by apply index_insert_no_empty.
  - rewrite Et. by apply index_insert_no_empty.
Qed.

Lemma fresh_armable id w kind o now next first clamped :
  (∀ i, kind = KindEvery i → 0 < i) → armable (Entry.fresh id w kind o now next first clamped).
Proof. intros Hk. split; try done; try by eexists. intros _. cbn. lia. Qed.

Lemma insert_fresh_leads F q e t now :
  slot_ok q F (se_id e) → sq_entries q !! se_id e = None → se_id e < sq_next_id q → armable e →
  se_running e = [] → leads F (se_id e) q (arm (se_id e) t now (insert_entry e q)).
Proof.
  intros Hs He Hn Ha Hr. destruct (absent_unindexed F _ q Hs He) as (_ & _ & _ & Hk).
  assert (near F (se_id e) (insert_entry e q) e) as Hnear.
  { eapply (entered_near F _ q); try done; [by apply armable_live|by rewrite Hr; constructor|].
    intros t'. rewrite Hr. cbn. split; [by intros ?%Hk|set_solver]. }
  eapply leads_after; [|by eapply arm_leads]. by eapply entered_others.
Qed.

Lemma insert_at_leads F id when w o now q :
  slot_ok q F id → sq_entries q !! id = None → id < sq_next_id q →
  leads F id q (insert_at id when w o now q).2.
Proof.
  intros Hs He Hn. assert (leads F id q q) as Hsame by (split; [apply others_refl|done]).
  unfold insert_at. destruct (max_deadline <? when); [done|]. destruct (validate_state o); [|done].
  by apply (insert_fresh_leads F q (Entry.fresh id w KindAt o now when when false)); [| | |apply fresh_armable|].
Qed.

Lemma jittered_slot F id t j f q : slot_ok q F id → slot_ok (jittered t j f q).2 F id.
Proof.
  unfold jittered. destruct (j =? 0); [done|]. intros [[A1 A2 A3 A4] B C D]. by split; [split|..].
Qed.

Lemma jittered_fields t j f q :
  sq_entries (jittered t j f q).2 = sq_entries q ∧ sq_next_id (jittered t j f q).2 = sq_next_id q ∧
  sq_retired_queue (jittered t j f q).2 = sq_retired_queue q ∧ sq_tick (jittered t j f q).2 = sq_tick q.
Proof. unfold jittered. by destruct (j =? 0). Qed.

Lemma insert_every_leads F id i w o now q :
  slot_ok q F id → sq_entries q !! id = None → id < sq_next_id q → 0 ≤ i →
  leads F id q (insert_every id i w o now q).2.
Proof.
  intros Hs He Hn Hi. assert (leads F id q q) as Hsame by (split; [apply others_refl|done]).
  unfold insert_every. destruct (Z.eqb_spec i 0); [done|]. destruct (validate_state o); [|done].
  cbv zeta. set (i' := if i <? sq_tick q then sq_tick q else i).
  assert (0 < i') by (unfold i'; destruct (Z.ltb_spec i (sq_tick q)); lia).
  destruct (deadline_after now i') as [first|]; [|done].
  pose proof (jittered_slot F id first (so_jitter o) now q Hs) as Hs'.
  pose proof (jittered_others id first (so_jitter o) now q) as A.
  destruct (jittered_fields first (so_jitter o) now q) as (E1 & E2 & _).
  destruct (jittered first (so_jitter o) now q) as [next q1]. cbn in *. eapply leads_after; [exact A|].
  apply (insert_fresh_leads F q1 (Entry.fresh id w (KindEvery i') o now next first (i <? sq_tick q)));
    [done|cbn; by rewrite E1|cbn; lia|apply fresh_armable; by intros ? [= <-]|done].
Qed.
(** *** Restoring *)

(** What is known of a persisted schedule, with the tasks that came back. *)
Record loadable (e : ScheduleEntry) (restored : list TaskId) q : Prop := {
  la_absent : sq_entries q !! se_id e = None;
  la_deadline : is_Some (se_scheduled_deadline e);
  la_interval : ∀ i, se_kind e = KindEvery i → 0 < i;
  la_one : one_at_a_time e → (length (se_running e) ≤ 1)%nat;
  la_queued : se_queued_firing e = true → so_overlap (se_options e) = OverlapQueue ∧ se_kind e ≠ KindAt;
  la_nodup : NoDup (rf_task <$> se_running e);
  la_tasks r : r ∈ se_running e → rf_task r ∈ restored → sq_by_task q !! rf_task r = None;
}.

Lemma restart_spec d e now q t e' q' :
  restart_deadline d e now q = Some (t, e', q') →
  (armable e → armable e') ∧ same_index e e' ∧ se_id e' = se_id e ∧ se_queued_firing e' = se_queued_firing e
  ∧ (q' = q ∨ q' = draw q).
Proof.
  unfold restart_deadline. destruct (now <? d); [intros [= <- <- <-]; by split_and!; auto|].
  destruct (se_kind e) eqn:Hk; [intros [= <- <- <-]; by split_and!; auto|].
  destruct (so_catchup (se_options e)); [|intros [= <- <- <-]; by split_and!; auto..].
  destruct (next_cadence_after _ _ _) as [[d' m]|]; [|done].
  destruct (jittered d' _ now q) as [t' q1] eqn:Hj. intros [= <- <- <-].
  split_and!; try done.
  - intros []. by split.
  - unfold jittered in Hj. destruct (_ =? 0); simplify_eq; auto.
Qed.

Lemma insert_tasks (l : list RunningFiring) id (m : gmap TaskId ScheduleId) t i :
  foldl (λ m r, <[rf_task r := id]> m) m l !! t = Some i ↔
  (t ∈ rf_task <$> l ∧ i = id) ∨ (t ∉ rf_task <$> l ∧ m !! t = Some i).
Proof.
  revert m. induction l as [|r l IH]; intros m; cbn; [set_solver|]. rewrite IH.
  destruct (decide (t = rf_task r)) as [->|Hne].
  - rewrite lookup_insert_eq. destruct (decide (rf_task r ∈ rf_task <$> l)); [set_solver|].
    split; [intros [|[_ [= <-]]]; [set_solver|left; set_solver]|intros [[_ ->]|]; [by right|set_solver]].
  - rewrite lookup_insert_ne by done. set_solver.
Qed.

Lemma filter_sublist {A} (p : A → bool) l : List.filter p l `sublist_of` l.
Proof. induction l as [|x l IH]; cbn; [done|]. destruct (p x); by constructor. Qed.

(** [load] in steps: the counter, the indexes, the entry. *)
Definition raise_next (id : ScheduleId) q : ScheduleQ :=
  if sq_next_id q <=? id then set_next_id (id + 1) q else q.
Definition still_running (e : ScheduleEntry) (restored : list TaskId) : list RunningFiring :=
  List.filter (λ r, bool_decide (rf_task r ∈ restored)) (se_running e).
Definition linked (e : ScheduleEntry) (running : list RunningFiring) q : ScheduleQ :=
  set_indexes (index_insert (fe_owner (se_firee e)) (se_id e) (sq_by_owner q))
    (index_insert (fe_target (se_firee e)) (se_id e) (sq_by_target q))
    (foldl (λ m r, <[rf_task r := se_id e]> m) (sq_by_task q) running) q.
Definition entered (id : ScheduleId) (e : ScheduleEntry) q : ScheduleQ :=
  set_entries (<[id := e]> (sq_entries q)) q.

Lemma raise_next_leads F id q : slot_ok q F id → leads F id q (raise_next id q) ∧ id < sq_next_id (raise_next id q).
Proof.
  unfold raise_next. destruct (Z.leb_spec (sq_next_id q) id) as [Hle|Hlt].
  2: { intros Hs. split; [|done]. split; [apply others_refl|done]. }
  intros [[X1 X2 X3 X4] He Hg Hh]. split; [split|cbn; lia].
  - split; try done. cbn. lia.
  - split; [by split| |done|done]. intros e Hid. destruct (He e Hid) as (H1 & H2 & H3).
    split; [done|]. split; [cbn; lia|done].
Qed.

Lemma raise_next_fields id q :
  sq_entries (raise_next id q) = sq_entries q ∧ sq_by_task (raise_next id q) = sq_by_task q.
Proof. unfold raise_next. by destruct (_ <=? _). Qed.

Lemma raise_next_loadable id e restored q : loadable e restored q → loadable e restored (raise_next id q).
Proof. intros []. destruct (raise_next_fields id q) as [E1 E2]. split; rewrite ?E1, ?E2; done. Qed.

Section loading.
Context (F : list ScheduleExpiry) (e : ScheduleEntry) (restored : list TaskId) (now : SystemTime) (q : ScheduleQ).
Context (Hs : slot_ok q F (se_id e)) (Hload : loadable e restored q) (Hnext : se_id e < sq_next_id q).
Context (Hret : se_retired e = None) (deadline : SystemTime) (Hrun : se_next_run e = Some deadline).
#[local] Notation running := (still_running e restored).
#[local] Notation e1 := (Entry.set_running (still_running e restored) e).
#[local] Notation q1 := (linked e (still_running e restored) q).

Lemma still_running_sub : running `sublist_of` se_running e.
Proof. apply filter_sublist. Qed.

Lemma still_running_free t : t ∈ rf_task <$> running → sq_by_task q !! t = None.
Proof.
  intros (r & -> & Hr)%list_elem_of_fmap. apply list_elem_of_In, filter_In in Hr as [Hr Hb].
  apply list_elem_of_In in Hr. apply bool_decide_eq_true in Hb. by apply (la_tasks _ _ _ Hload).
Qed.

(** Once entered, it is like any schedule that is not armed. *)
Lemma entered_loaded e' q' :
  same_index e1 e' → se_id e' = se_id e → q' = q1 ∨ q' = draw q1 →
  near F (se_id e) (entered (se_id e) e' q') e' ∧ others (se_id e) q (entered (se_id e) e' q').
Proof.
  intros (Hl & Hf & Hr) Hid Hq'. cbn in Hf, Hr.
  assert (Entry.is_live e' = true) as Hl' by (rewrite Hl; apply is_live_true; cbn; rewrite Hrun; by eexists).
  assert (sq_by_task (entered (se_id e) e' q') =
    foldl (λ m r, <[rf_task r := se_id e]> m) (sq_by_task q) running) as Htask by (by destruct Hq' as [->| ->]).
  split.
  - eapply (entered_near F (se_id e) q); try done; try (by destruct Hq' as [->| ->]; rewrite ?Hf).
    + apply (la_absent _ _ _ Hload).
    + rewrite Hr. eapply sublist_NoDup; [apply (la_nodup _ _ _ Hload)|apply fmap_sublist, still_running_sub].
    + intros t. rewrite Hr, Htask, insert_tasks.
      destruct (absent_unindexed F (se_id e) q Hs (la_absent _ _ _ Hload)) as (_ & _ & _ & Hk).
      specialize (Hk t). tauto.
  - eapply (entered_others (se_id e) q); try (by destruct Hq' as [->| ->]; rewrite ?Hf).
    intros i t Hi. rewrite Htask, insert_tasks. destruct (decide (t ∈ rf_task <$> running)) as [Hm|]; [|tauto].
    rewrite (still_running_free t Hm). naive_solver.
Qed.

Lemma loaded_one : one_at_a_time e → (length running ≤ 1)%nat.
Proof.
  intros Ho. pose proof (la_one _ _ _ Hload Ho). pose proof (sublist_length _ _ still_running_sub). lia.
Qed.

Lemma entered_armed e' q' t :
  same_index e1 e' → se_id e' = se_id e → armable e' → q' = q1 ∨ q' = draw q1 →
  leads F (se_id e) q (arm (se_id e) t now (entered (se_id e) e' q')).
Proof.
  intros Hsi Hid Ha Hq'. destruct (entered_loaded e' q' Hsi Hid Hq') as [Hnear A].
  eapply leads_after; [exact A|]. by eapply arm_leads.
Qed.

Lemma loaded_armable :
  se_queued_firing e = false → (se_kind e = KindAt → running = []) → armable e1.
Proof.
  intros Hq Hat. destruct Hload as [_ L2 L3 _ _ _ _]. split; cbn; rewrite ?Hrun, ?Hq; try done.
  exact loaded_one.
Qed.

Lemma restart_leads :
  se_queued_firing e = false → (se_kind e = KindAt → running = []) →
  leads F (se_id e) q
    match restart_deadline deadline e1 now q1 with
    | None => retire (se_id e) DeadlineOutOfRange now (entered (se_id e) (Entry.count_fault e1) q1)
    | Some (t, e', q') => arm (se_id e) t now (entered (se_id e) e' q')
    end.
Proof.
  intros Hq Hat. destruct (restart_deadline deadline e1 now q1) as [[[t e'] q']|] eqn:Hrd.
  - destruct (restart_spec _ _ _ _ _ _ _ Hrd) as (H1 & H2 & H3 & _ & H4).
    apply entered_armed; auto using loaded_armable.
  - destruct (entered_loaded (Entry.count_fault e1) q1) as [Hnear A]; [done..|by left|].
    eapply leads_after; [exact A|]. eapply retire_leads; [exact Hnear| |done].
    apply is_live_true. cbn. rewrite Hrun. by eexists.
Qed.

Lemma unarmed_leads :
  running ≠ [] → (se_kind e = KindAt ∨ se_queued_firing e = true) →
  leads F (se_id e) q (entered (se_id e) e1 q1).
Proof.
  intros Hr Hw. destruct (entered_loaded e1 q1) as [Hnear A]; [done..|by left|]. split; [done|].
  assert (sq_generations (entered (se_id e) e1 q1) !! se_id e = None) as Hg
    by (by apply (absent_unindexed F (se_id e) q Hs), (la_absent _ _ _ Hload)).
  split; [apply Hnear| |by rewrite Hg|].
  - intros y Hy. rewrite (nr_entry _ _ _ _ Hnear) in Hy. injection Hy as <-.
    split; [done|]. split; [apply Hnear|]. rewrite Hg. unfold schedule_ok. cbn. rewrite Hret.
    destruct Hload as [_ L2 L3 _ L5 _ _]. split; cbn; rewrite ?Hrun; try done.
    + exact loaded_one.
    + intros Hq. split_and!; [done|by apply L5..].
  - intros g Hi. split; [by apply (nr_handed _ _ _ _ Hnear)|]. by rewrite Hg.
Qed.

Lemma queued_load_leads interval :
  running = [] → se_kind e = KindEvery interval →
  leads F (se_id e) q (fire_queued (se_id e) interval now (entered (se_id e) e1 q1)).
Proof.
  intros Hr Hk. destruct (entered_loaded e1 q1) as [Hnear A]; [done..|by left|].
  eapply leads_after; [exact A|]. eapply fire_queued_leads; [exact Hnear|].
  destruct Hload as [_ L2 L3 _ _ _ _]. split; cbn; rewrite ?Hrun; try done. exact loaded_one.
Qed.
End loading.

Lemma load_leads F e restored now q :
  slot_ok q F (se_id e) → loadable e restored q → leads F (se_id e) q (load e restored now q).
Proof.
  intros Hs Hl. destruct (raise_next_leads F (se_id e) q Hs) as [[A Hs1] Hn].
  apply (raise_next_loadable (se_id e)) in Hl. eapply leads_after; [exact A|]. unfold load.
  fold (raise_next (se_id e) q). cbv zeta. set (q1 := raise_next (se_id e) q) in *.
  destruct (se_retired e) eqn:Hret; [by split; [apply others_refl|]|].
  destruct (se_next_run e) as [deadline|] eqn:Hrun; [|by split; [apply others_refl|]].
  fold (still_running e restored). fold (linked e (still_running e restored) q1).
  set (q2 := linked e (still_running e restored) q1).
  pose proof (restart_leads F e restored now q1 Hs1 Hl Hn Hret deadline Hrun) as Hrestart.
  pose proof (unarmed_leads F e restored q1 Hs1 Hl Hn Hret deadline Hrun) as Hstay.
  pose proof (queued_load_leads F e restored now q1 Hs1 Hl Hn Hret deadline Hrun) as Hqueued.
  pose proof (la_queued _ _ _ Hl) as Hqd. fold q2 in Hrestart, Hstay, Hqueued.
  change (se_kind (Entry.set_running _ e)) with (se_kind e).
  change (se_queued_firing (Entry.set_running _ e)) with (se_queued_firing e).
  destruct (still_running e restored) as [|r l] eqn:Hr; destruct (se_kind e) as [|interval] eqn:Hk;
    destruct (se_queued_firing e) eqn:Hq; try (by apply Hrestart); try (by apply Hstay; auto);
    try (by apply Hqueued). by destruct (Hqd eq_refl).
Qed.
End queue.
