(* ===== verification/ScheduleSteps.v ===== *)
(** Schedules over time: the queue under everything the scheduler does to it
    (crates/kernel/src/tasks/scheduler/schedules.rs, effects.rs, gc.rs), in any order, and
    the accounts of a cadence. *)
From S2P Require Import Prelude Obj TxTypes Float64 Opcodes Values ValueOrder Scalars Containers VarOps.
From S2P Require Import Schedule ScheduleProofs.
From stdpp Require Import base gmap list strings sorting.

Open Scope Z_scope.

Section expiry.
Context {W : Type} `{!Wheel W, !WheelLaws W} `{Random} `{Sizes}.
#[local] Notation ScheduleQ := (ScheduleQ W).
Implicit Types q : ScheduleQ.

(** ** What is due *)






(** *** The overlap policy *)





Lemma others_taken T T' id q q' :
  others T id q q' → (∀ i, i ≠ id → i ∈ T' → i ∈ T) →
  (∀ i, i ≠ id → i ∈ T → i ∈ T') → others T' id q q'.
Proof.
  intros [A B C D E G I J K L] Hsub Hsup. split; try done. intros i g Hi [Ht|Ht]; [|by right].
  destruct (C i g Hi (or_introl Ht)) as [Ha|Ha]; [by left|right; by apply Hsup].
Qed.




(** *** Taking what is due *)




End expiry.

(** ** Everything that happens to the queue *)

Section steps.
Context {W : Type} `{!Wheel W, !WheelLaws W} `{Random} `{Sizes}.
#[local] Notation ScheduleQ := (ScheduleQ W).
Implicit Types q : ScheduleQ.

(** The queue, what [collect_and_fire_schedules] has collected and not yet looked at, and
    the creations that tasks have buffered. *)
Record Schedules := mkSchedules {
  sc_queue : ScheduleQ;
  sc_collected : list ScheduleExpiry;
  sc_buffered : list PendingCreate;
}.

Definition unbuffered (id : ScheduleId) (P : list PendingCreate) : list PendingCreate :=
  List.filter (λ p, negb (pc_id p =? id)) P.

(** [ok]: which persisted schedules are loaded, with which tasks restored. Operations of
    tasks come in at any point, also between the collection of what is due and each
    firing; schedules are loaded before there are tasks. A firing here has a session. *)
Inductive step (ok : ScheduleEntry → list TaskId → Prop) : Schedules → Schedules → Prop :=
| step_reserve kind w o now p q F P q' :
    reserve_schedule_create kind w o now q = (Ok p, q') → (∀ i, kind = PendingEvery i → 0 ≤ i) →
    step ok (mkSchedules q F P) (mkSchedules q' F (P ++ [p]))
| step_discard id q F P : step ok (mkSchedules q F P) (mkSchedules q F (unbuffered id P))
| step_publish_create p now q F P :
    p ∈ P → 0 ≤ now →
    step ok (mkSchedules q F P) (mkSchedules (publish_op now q (OpCreate p)) F (unbuffered (pc_id p) P))
| step_publish_stop id now q F P :
    step ok (mkSchedules q F P) (mkSchedules (publish_op now q (OpStop id)) F P)
| step_purge now q F P : step ok (mkSchedules q F P) (mkSchedules (purge_retired now q) F P)
| step_collect now now_sys l q F P q' :
    collect_schedules now now_sys q = (l, q') →
    step ok (mkSchedules q F P) (mkSchedules q' (F ++ l.*1) P)
| step_fire fw x e task now q F P start task' q' :
    x ∈ F → fw_session fw = true → sq_by_task q !! task = None →
    fire_one fw x e task now q = (start, task', q') →
    step ok (mkSchedules q F P) (mkSchedules q' (without x F) P)
| step_settle results now q F P :
    step ok (mkSchedules q F P) (mkSchedules (settle_schedule_firings results now q) F P)
| step_restore_id n q F P : step ok (mkSchedules q F P) (mkSchedules (restore_next_id n q) F P)
| step_load e restored now q F :
    loadable e restored q → ok e restored →
    step ok (mkSchedules q F []) (mkSchedules (load e restored now q) F []).


(** What can become of an empty queue. *)
Definition reachable ok (tick : Duration) (s : Schedules) : Prop :=
  rtc (step ok) (mkSchedules (new tick) [] []) s.





Lemma leads_id T F id q : slot_ok T q F id → leads T F id q q.
Proof. intros Hs. split; [apply others_refl|done]. Qed.

(** *** What does not create does not *)





Lemma elem_unbuffered id p P : p ∈ unbuffered id P ↔ p ∈ P ∧ pc_id p ≠ id.
Proof.
  unfold unbuffered. rewrite list_elem_of_In, filter_In, <- list_elem_of_In.
  destruct (Z.eqb_spec (pc_id p) id); naive_solver.
Qed.







(** *** Each step *)
















(** Publishing what a task has buffered is a sequence of such steps. *)
Definition created_ids (fx : PendingTaskEffects) : list ScheduleId :=
  omap (λ op, match op with OpCreate p => Some (pc_id p) | OpStop _ => None end) fx.

Lemma created_in p fx : OpCreate p ∈ fx → pc_id p ∈ created_ids fx.
Proof. intros Hp. apply list_elem_of_omap. by exists (OpCreate p). Qed.

Lemma publish_reaches ok tick fx now q F P :
  reachable ok tick (mkSchedules q F P) → 0 ≤ now → (∀ p, OpCreate p ∈ fx → p ∈ P) → NoDup (created_ids fx) →
  ∃ P', reachable ok tick (mkSchedules (publish fx now q) F P').
Proof.
  intros Hr Hn. revert q P Hr. unfold publish. induction fx as [|op fx IH]; intros q P Hr Hin Hdup; [by exists P|].
  cbn [foldl]. destruct op as [p|id].
  - cbn in Hdup. apply NoDup_cons in Hdup as [Hnin Hdup].
    apply (IH _ (unbuffered (pc_id p) P)); [|intros p' Hp'|done].
    + eapply rtc_r; [exact Hr|]. apply step_publish_create; [|done]. apply Hin. by left.
    + apply elem_unbuffered. split; [apply Hin; by right|]. intros He. apply Hnin. rewrite <- He.
      by apply created_in.
  - apply (IH _ P); [|intros p Hp; apply Hin; by right|done].
    eapply rtc_r; [exact Hr|]. apply step_publish_stop.
Qed.
End steps.

(** ** The accounts of a cadence *)

(** Points of the cadence used up: the one waited for, those fired (finished or not), and
    those the catch-up and overlap policies left out. *)
Definition points (e : ScheduleEntry) : Z :=
  1 + se_run_count e + se_fault_count e + Z.of_nat (length (se_running e))
  + se_missed_count e + se_overlap_count e.


Record balanced (e : ScheduleEntry) (interval : Duration) : Prop := {
  bl_interval : 0 < interval;
  bl_created : 0 ≤ se_created_at e;
  bl_run : 0 ≤ se_run_count e;
  bl_fault : 0 ≤ se_fault_count e;
  bl_missed : 0 ≤ se_missed_count e;
  bl_overlap : 0 ≤ se_overlap_count e;
  bl_deadline : se_scheduled_deadline e = Some (se_created_at e + interval * points e);
  bl_max : se_created_at e + interval * points e ≤ max_deadline;
}.


Section accounts.
Context {W : Type} `{!Wheel W, !WheelLaws W} `{Random} `{Sizes}.
#[local] Notation ScheduleQ := (ScheduleQ W).
Implicit Types q : ScheduleQ.




Lemma balanced_few e i :
  balanced e i → se_missed_count e < max_deadline ∧ se_overlap_count e < max_deadline ∧ 0 < points e.
Proof. intros [A B C D E G _ I]. unfold points in *. split_and!; nia. Qed.


















(** *** Restoring and collecting *)
















End accounts.

(** ** Restarting *)



(** What is not stored is gone: the last duration and the samples, the last fault. *)
Definition stored_form (e : ScheduleEntry) : ScheduleEntry :=
  Entry.set_queued (se_queued_firing e) (Entry.set_running (se_running e)
    (from_persisted (se_id e) (se_firee e) (se_kind e) (se_options e) (se_created_at e) (se_next_run e)
       (se_scheduled_deadline e) (se_last_run e) (se_run_count e) (se_fault_count e)
       (se_consecutive_faults e) (se_missed_count e) (se_overlap_count e) (se_interval_clamped e))).





Section restart.
Context {W : Type} `{!Wheel W, !WheelLaws W} `{Random} `{Sizes}.
#[local] Notation ScheduleQ := (ScheduleQ W).
Implicit Types q : ScheduleQ.
















End restart.

(** ** The wheel, a millisecond after the other *)

Section wheel.
Context {W : Type} `{!Wheel W, !WheelLaws W} `{Random} `{Sizes}.
#[local] Notation ScheduleQ := (ScheduleQ W).
Implicit Types q : ScheduleQ.

Fixpoint tick_each (n : nat) (w : W) : list ScheduleTimerEntry * W :=
  match n with
  | O => ([], w)
  | S n => let '(l, w) := wheel_tick w in let '(l', w) := tick_each n w in (l ++ l', w)
  end.

Lemma tick_each_gives n w :
  let '(l, w') := tick_each n w in
  l ≡ₚ due (Z.of_nat n) (pending w) ∧ pending w' ≡ₚ later (Z.of_nat n) (pending w).
Proof.
  revert w. induction n as [|n IH]; intros w.
  { cbn. by rewrite later_all, later_zero by apply pending_positive. }
  cbn [tick_each]. pose proof (pending_tick w) as Ht. destruct (wheel_tick w) as [l1 w1]. destruct Ht as [Hl1 Hw1].
  specialize (IH w1). destruct (tick_each n w1) as [l w']. destruct IH as [Hl Hw'].
  replace (Z.of_nat (S n)) with (1 + Z.of_nat n) by lia. split.
  - by rewrite Hl, Hl1, (due_perm _ _ _ Hw1), <- due_later by lia.
  - by rewrite Hw', (later_perm _ _ _ Hw1), later_later by lia.
Qed.

(** C18: skipping over stretches without timers, the wheel hands out what ticking through
    every millisecond since its last advance would, and is left with the same timers; the
    part of a millisecond that is left over counts for the next advance. *)
Theorem advance_is_stepping now last q :
  sq_last_advance q = Some last → last ≤ now →
  let n := wrap 32 ((now - last) `div` nanos_per_milli) in
  let '(l, q') := advance_wheel now q in
  let '(l1, w1) := tick_each (Z.to_nat n) (sq_wheel q) in
  l ≡ₚ l1 ∧ pending (sq_wheel q') ≡ₚ pending w1 ∧
  sq_last_advance q' = Some (last + n * nanos_per_milli) ∧
  (now - last < 2 ^ 32 * nanos_per_milli → 0 ≤ now - (last + n * nanos_per_milli) < nanos_per_milli).
Proof.
  intros Hlast Hle. cbv zeta. unfold advance_wheel. rewrite Hlast.
  change (default now (Some last)) with last. set (n := wrap 32 _).
  assert (0 ≤ n) as Hn by (apply Z.mod_pos_bound; lia).
  pose proof (tick_each_gives (Z.to_nat n) (sq_wheel q)) as Ht. rewrite Z2Nat.id in Ht by lia.
  destruct (tick_each (Z.to_nat n) (sq_wheel q)) as [l1 w1]. destruct Ht as [Hl1 Hw1].
  assert (nanos_per_milli = 1000000) as Hnano by done.
  assert (now - last < 2 ^ 32 * nanos_per_milli → n = (now - last) `div` nanos_per_milli) as Hsmall.
  { intros Hlt. apply Z.mod_small. split; [apply Z.div_pos; lia|]. apply Z.div_lt_upper_bound; lia. }
  assert (now - last < 2 ^ 32 * nanos_per_milli → 0 ≤ now - (last + n * nanos_per_milli) < nanos_per_milli) as Hrest.
  { intros Hlt. rewrite Hsmall by done. pose proof (Z.div_mod (now - last) nanos_per_milli ltac:(lia)).
    pose proof (Z.mod_pos_bound (now - last) nanos_per_milli ltac:(lia)). lia. }
  assert (now = last → n = 0) as Hsame by (intros ->; unfold n; by rewrite Z.sub_diag).
  clearbody n. destruct (Z.leb_spec now last) as [Hge|Hlt].
  - assert (now = last) as -> by lia. assert (n = 0) as -> by auto. rewrite later_all in Hl1 by apply pending_positive.
    rewrite later_zero in Hw1 by apply pending_positive. cbn. split_and!; try done. f_equal. lia.
  - pose proof (advance_loop_steps n (sq_wheel q) [] Hn) as Hs.
    destruct (advance_loop _ _ _ _) as [l w]. destruct Hs as [Hl Hw]. cbn.
    split_and!; [by rewrite Hl, Hl1|by rewrite Hw, Hw1|done|done].
Qed.
End wheel.

(** ** A concrete wheel and a run *)

Module ScheduleDemo.

(** Entries with the milliseconds they have left. *)
Definition ListWheel : Type := wheel_pending.

Definition positive (w : ListWheel) : wheel_pending := List.filter (λ x, 0 <? x.1) w.

#[export] Instance list_wheel : Wheel ListWheel := {
  wheel_new := [];
  insert_with_delay e d w := Some ((d `div` nanos_per_milli, e) :: w);
  can_skip w :=
    match w with
    | [] => SkipEmpty
    | x :: l => let least := foldr (λ y m, Z.min y.1 m) x.1 l in
                if 1 <? least then SkipMillis (least - 1) else SkipNone
    end;
  wheel_skip n w := later n w;
  wheel_tick w := (due 1 (positive w), later 1 w);
}.

#[export] Instance no_jitter : Random := { random_range _ _ := f64_zero }.
#[export] Instance no_sizes : Sizes := { size_bytes _ := 0 }.

Lemma positive_later n w : 0 ≤ n → positive (later n w) = later n (positive w).
Proof.
  intros Hn. induction w as [|[m e] w IH]; [done|]. unfold positive, later in *. cbn.
  destruct (Z.ltb_spec n m), (Z.ltb_spec 0 m); cbn; try lia; try done.
  - destruct (Z.ltb_spec n m); [|lia]. cbn. destruct (Z.ltb_spec 0 (m - n)); [|lia]. by rewrite IH.
  - destruct (Z.ltb_spec n m); [lia|]. done.
Qed.

Lemma positive_in x w : x ∈ positive w → 0 < x.1 ∧ x ∈ w.
Proof.
  unfold positive. rewrite list_elem_of_In, filter_In, <- list_elem_of_In. by intros [H1 H2%Z.ltb_lt].
Qed.

Lemma least_spec (x : Z * ScheduleTimerEntry) l y :
  y ∈ x :: l → foldr (λ y m, Z.min y.1 m) x.1 l ≤ y.1.
Proof.
  assert (foldr (λ y m, Z.min y.1 m) x.1 l ≤ x.1) as Hx by (induction l; cbn; lia).
  intros [->|Hy]%elem_of_cons; [done|]. clear Hx.
  induction Hy as [y l|y z l Hy IH]; cbn; lia.
Qed.

#[export] Program Instance list_wheel_laws : WheelLaws ListWheel := { pending := positive }.
Next Obligation. done. Qed.
Next Obligation. intros w. apply Forall_forall. by intros x [? _]%positive_in. Qed.
Next Obligation.
  intros e d w w' Hd [= <-]. unfold positive. cbn. assert (0 < d `div` nanos_per_milli) as Hpos.
  { apply Z.div_str_pos. unfold nanos_per_milli in *. lia. }
  by destruct (Z.ltb_spec 0 (d `div` nanos_per_milli)); [|lia].
Qed.
Next Obligation. intros [|x w]; cbn; [done|]. by destruct (1 <? _). Qed.
Next Obligation.
  intros n [|x w]; cbn -[Z.ltb positive]; [done|]. destruct (Z.ltb_spec 1 (foldr (λ y m, Z.min y.1 m) x.1 w)); [|done].
  intros [= <-]. split; [lia|]. apply Forall_forall. intros y [_ Hy]%positive_in.
  pose proof (least_spec x w y Hy). lia.
Qed.
Next Obligation. intros n w Hn _. cbn. by rewrite positive_later. Qed.
Next Obligation. intros w. cbn. split; [done|]. by rewrite positive_later. Qed.

(** *** A run: every second, woken up late, with a long firing *)

Definition sec (n : Z) : Z := n * nanos_per_sec.
Definition every_second : PendingCreate :=
  mkPending 1 (PendingEvery (sec 1)) (mkFiree (mk_id 2) (mkSymbol "chime") [] (mk_id 3) (mk_id 3))
    (for_kind (KindEvery (sec 1))).
Definition has_session : FiringWorld := mkFiringWorld true true None.

Definition r0 : ScheduleQ ListWheel := new (10 * nanos_per_milli).
Definition r1 := (reserve_schedule_create (pc_kind every_second) (pc_firee every_second)
                    (pc_options every_second) (sec 1000) r0).2.
Definition r2 := (collect_schedules 0 (sec 1000) r1).2.
Definition r3 := publish_op (sec 1000) r2 (OpCreate every_second).
Definition r4 := (collect_schedules (sec 3 + 500000000) (sec 1003 + 500000000) r3).2.
Definition x4 : ScheduleExpiry := mkExpiry 1 1.
Definition e4 : ScheduleEntry := default (stored_form (Entry.fresh 1 (pc_firee every_second) KindAt
  (pc_options every_second) 0 0 0 false)) (sq_entries r4 !! 1).
Definition r5 := (fire_one has_session x4 e4 7 (sec 1003 + 500000000) r4).2.
Definition r6 := (collect_schedules (sec 5 + 200000000) (sec 1005 + 200000000) r5).2.













Lemma run_advance : sq_last_advance r6 = Some (sec 5 + 200000000).
Proof. vm_compute. reflexivity. Qed.

Lemma advance_is_stepping_witness :
  let n := wrap 32 ((sec 6 - (sec 5 + 200000000)) `div` nanos_per_milli) in
  let '(l, q') := advance_wheel (sec 6) r6 in
  let '(l1, w1) := tick_each (Z.to_nat n) (sq_wheel r6) in
  l ≡ₚ l1 ∧ pending (sq_wheel q') ≡ₚ pending w1 ∧
  sq_last_advance q' = Some (sec 5 + 200000000 + n * nanos_per_milli) ∧
  (sec 6 - (sec 5 + 200000000) < 2 ^ 32 * nanos_per_milli →
   0 ≤ sec 6 - (sec 5 + 200000000 + n * nanos_per_milli) < nanos_per_milli).
Proof. apply (advance_is_stepping (sec 6) (sec 5 + 200000000) r6 run_advance). unfold sec, nanos_per_sec. lia. Defined.

(** *** Without a session *)

Definition no_session : FiringWorld := mkFiringWorld false true None.
Definition stranded : ScheduleQ ListWheel := (fire_one no_session x4 e4 7 (sec 1003 + 500000000) r4).2.

(** A firing without a session leaves a schedule that is alive but has no timer, no
    firing and is not about to be fired: it never fires again. *)
Example no_session_strands :
  sq_immediate stranded = [] ∧ pending (sq_wheel stranded) = [] ∧
  match sq_entries stranded !! 1 with
  | Some e => Entry.is_live e = true ∧ se_running e = []
  | None => False
  end.
Proof. vm_compute. repeat split. Qed.
End ScheduleDemo.
