(* ===== verification/WsSpec.v ===== *)
(** Reasoning about world-state operations: what a transaction's relations show
    as finite maps, and a weakest-precondition rule for every step the
    operations are made of. Under the invariant of the relations no step fails,
    so an operation's result and effect are functions of the maps and caches. *)
From S2P Require Import Prelude Obj TxTypes RelIndex RelTx RelTxSpec RelTxProofs Model.
From S2P Require Import Verbs Caches Relations CommitProofs WsBase.
From Stdlib Require Import FunctionalExtensionality.
From stdpp Require Import base gmap sets list strings fin_maps.

Open Scope Z_scope.
Open Scope ws_scope.

(** The rows a transaction sees, by relation. *)
Definition Views `{Payload} : Type := ∀ r, gmap (DomainOf r) (CodomainOf r).

Record astate `{Payload} := mkA {
  a_rows : Views;
  a_caches : Caches;
  a_memo : Memo.t;
  a_revision : Z;
  a_sequences : Sequences.t;
  a_owners : gset Obj;
  a_policies : gset PropertyKey;
}.
Arguments mkA {_} _ _ _ _ _ _ _.

Section spec.
Context `{Hashes} `{Payload} `{Interner}.
Context {P : DatabaseRelation → Type} `{∀ r, Provider (P r) (DomainOf r) (CodomainOf r)}.
Context (pms : ∀ r, gmap (DomainOf r) (Timestamp * CodomainOf r)).
(** The rows of the transaction's snapshot. *)
Context (base : ∀ r, gmap (DomainOf r) (Entry (CodomainOf r))).
Implicit Types a : astate.
Implicit Types s : ws P.

Definition rel_ok (tx : Tx) r (x : TxRelation (P := P) r) : Prop :=
  wf (pms r) x ∧ base_rows (pms r) x = base r ∧ RelationTransaction.tx x = tx ∧
  (is_secondary r = true → has_secondary_index (RelationTransaction.master x) = true).

Definition good s : Prop := ∀ r, rel_ok (wtx (w_tx s)) r (rel s r).

Definition abs s : astate :=
  mkA (λ r, view (pms r) (rel s r)) (ws_caches_of s) (w_memo s) (w_revision s) (w_sequences s)
    (wtx_owner_change_reads (w_tx s)) (wtx_inherited_policy_reads (w_tx s)).

Definition wp {A} (m : M (P := P) A) (Q : result A fault → astate → Prop) a : Prop :=
  ∀ s, good s → abs s = a → good (m s).1 ∧ Q (m s).2 (abs (m s).1).

Definition set_rows r (m : gmap (DomainOf r) (CodomainOf r)) a : astate :=
  mkA (dupd (P := λ r, gmap (DomainOf r) (CodomainOf r)) r m (a_rows a)) (a_caches a) (a_memo a)
    (a_revision a) (a_sequences a) (a_owners a) (a_policies a).
Definition with_a_caches (c : Caches) a : astate :=
  mkA (a_rows a) c (a_memo a) (a_revision a) (a_sequences a) (a_owners a) (a_policies a).
Definition with_a_memo (m : Memo.t) a : astate :=
  mkA (a_rows a) (a_caches a) m (a_revision a) (a_sequences a) (a_owners a) (a_policies a).

Lemma set_rows_same r a : set_rows r (a_rows a r) a = a.
Proof. unfold set_rows. rewrite dupd_id. by destruct a. Qed.

Lemma set_rows_eq r m a : a_rows (set_rows r m a) r = m.
Proof. exact (dupd_eq (P := λ r, gmap (DomainOf r) (CodomainOf r)) r m (a_rows a)). Qed.
Lemma set_rows_ne r r' m a : r ≠ r' → a_rows (set_rows r m a) r' = a_rows a r'.
Proof. exact (dupd_ne (P := λ r, gmap (DomainOf r) (CodomainOf r)) r r' m (a_rows a)). Qed.

(** ** Rules *)

Lemma wp_mono {A} (m : M A) (Q Q' : result A fault → astate → Prop) a :
  wp m Q a → (∀ r a', Q r a' → Q' r a') → wp m Q' a.
Proof. intros Hm HQ s Hs Ha. destruct (Hm s Hs Ha). auto. Qed.

Lemma wp_ret {A} (x : A) (Q : result A fault → astate → Prop) a : Q (Ok x) a → wp (ret x) Q a.
Proof. by intros HQ s Hs <-. Qed.

Lemma wp_fail {A} f (Q : result A fault → astate → Prop) a : Q (Err f) a → wp (fail f) Q a.
Proof. by intros HQ s Hs <-. Qed.

Lemma wp_bind {A B} (m : M A) (k : A → M B) (Q : result B fault → astate → Prop) a :
  wp m (λ r a', match r with Ok x => wp (k x) Q a' | Err f => Q (Err f) a' end) a →
  wp (bind m k) Q a.
Proof.
  intros Hm s Hs Ha. destruct (Hm s Hs Ha) as [Hs' HQ]. unfold bind.
  destruct (m s) as [s' [x|f]]; [by apply HQ|done].
Qed.

Lemma wp_assoc {A B C} (m : M A) (k : A → M B) (k' : B → M C) Q a :
  wp (bind m (λ x, bind (k x) k')) Q a → wp (bind (bind m k) k') Q a.
Proof. intros Hm s Hs Ha. specialize (Hm s Hs Ha). unfold bind in *. by destruct (m s) as [? []]. Qed.

Lemma wp_gets {A} (f : ws P → A) (g : astate → A) (Q : result A fault → astate → Prop) a :
  (∀ s, f s = g (abs s)) → Q (Ok (g a)) a → wp (gets f) Q a.
Proof. intros Hf HQ s Hs <-. unfold gets; simpl. by rewrite Hf. Qed.

Lemma wp_expect {A} (m : M A) (Q : result A fault → astate → Prop) a :
  wp m (λ r a', match r with Err (WsErr _) => Q (Err Panicked) a' | _ => Q r a' end) a →
  wp (expect m) Q a.
Proof.
  intros Hm s Hs Ha. destruct (Hm s Hs Ha) as [Hs' HQ]. unfold expect.
  by destruct (m s) as [s' [x|[]]].
Qed.

Lemma wp_try_ok {A B} (m : M A) (k : A → M (option B)) Q a :
  wp m (λ r a', match r with
                | Ok x => wp (k x) Q a'
                | Err (WsErr _) => Q (Ok None) a'
                | Err f => Q (Err f) a'
                end) a → wp (try_ok m k) Q a.
Proof.
  intros Hm s Hs Ha. destruct (Hm s Hs Ha) as [Hs' HQ]. unfold try_ok.
  destruct (m s) as [s' [x|[]]]; [by apply HQ|done..].
Qed.

Lemma wp_attempt {A} (m : M A) Q a :
  wp m (λ r a', match r with
                | Ok x => Q (Ok (Some x)) a'
                | Err (WsErr _) => Q (Ok None) a'
                | Err f => Q (Err f) a'
                end) a → wp (attempt m) Q a.
Proof.
  intros Hm s Hs Ha. destruct (Hm s Hs Ha) as [Hs' HQ]. unfold attempt.
  by destruct (m s) as [s' [x|[]]].
Qed.

(** *** Relations *)

Lemma wp_reads {A} r (f : TxRelation r → result A Error) msg x Q a :
  (∀ t tx, rel_ok tx r t → view (pms r) t = a_rows a r → f t = Ok x) →
  Q (Ok x) a → wp (reads r f msg) Q a.
Proof. intros Hf HQ s Hs <-. unfold reads; simpl. by rewrite (Hf _ _ (Hs r) eq_refl). Qed.

Lemma abs_set_rel r x s : abs (set_rel r x s) = set_rows r (view (pms r) x) (abs s).
Proof.
  unfold abs, set_rows, set_rel; simpl. f_equal. apply functional_extensionality_dep. intros r'.
  unfold rel; simpl. destruct (decide (r = r')) as [<-|Hne].
  - by rewrite !dupd_eq.
  - by rewrite !dupd_ne.
Qed.

Lemma good_set_rel r x s : good s → rel_ok (wtx (w_tx s)) r x → good (set_rel r x s).
Proof.
  intros Hs Hx r'. unfold rel, set_rel; simpl. destruct (decide (r = r')) as [<-|Hne].
  - by rewrite dupd_eq.
  - rewrite dupd_ne by done. apply Hs.
Qed.

Lemma wp_runs {A} r (f : TxRelation r → TxRelation r * result A Error) msg Q a :
  (∀ t tx, rel_ok tx r t → view (pms r) t = a_rows a r →
     ∃ m, steps_to (pms r) t m (f t).1 ∧ Q (map_err msg (f t).2) (set_rows r m a)) →
  wp (runs r f msg) Q a.
Proof.
  intros Hf s Hs <-. unfold runs. pose proof (Hs r) as (Hwf & Hb & Htx & Hsec).
  destruct (Hf _ _ (Hs r) eq_refl) as (m & (Hwf' & Hv & Hb' & Htx' & Hsec') & HQ).
  destruct (f (rel s r)) as [x res]; cbn [fst snd] in *. split.
  - apply good_set_rel; [done|]. split_and!; [done|congruence|congruence|].
    intros Hr. rewrite Hsec'. auto.
  - rewrite abs_set_rel, Hv. done.
Qed.

(** A step through [exec], by what the specification of the map says of it. *)
Lemma exec_step r (c : cmd (DomainOf r) (CodomainOf r)) tx (t : TxRelation r) a :
  rel_ok tx r t → allowed (pms r) c t → view (pms r) t = a_rows a r →
  ∃ m, steps_to (pms r) t m (exec c t).1 ∧ RelTxSpec.spec c (a_rows a r) (exec c t).2 m.
Proof. intros (Hwf & _) Ha <-. by apply exec_refines. Qed.

Lemma wp_get r d msg Q a : Q (Ok (a_rows a r !! d)) a → wp (r_get r d msg) Q a.
Proof. apply wp_reads. intros t tx (Hwf & _) <-. by apply get_view. Qed.

Lemma wp_has r d msg Q a :
  Q (Ok (bool_decide (is_Some (a_rows a r !! d)))) a → wp (r_has r d msg) Q a.
Proof. apply wp_reads. intros t tx (Hwf & _) <-. by apply has_domain_view. Qed.

Lemma wp_with {R} r d (f : CodomainOf r → R) msg Q a :
  Q (Ok (f <$> a_rows a r !! d)) a → wp (r_with r d f msg) Q a.
Proof. apply wp_reads. intros t tx (Hwf & _) <-. by apply with_domain_value_view. Qed.

(** With the row, or what there is of it, known. *)
Lemma wp_get_is r d msg x Q a : a_rows a r !! d = x → Q (Ok x) a → wp (r_get r d msg) Q a.
Proof. intros <-. apply wp_get. Qed.
Lemma wp_with_is {R} r d (f : CodomainOf r → R) msg x Q a :
  a_rows a r !! d = x → Q (Ok (f <$> x)) a → wp (r_with r d f msg) Q a.
Proof. intros <-. apply wp_with. Qed.
Lemma wp_has_is r d msg b Q a :
  bool_decide (is_Some (a_rows a r !! d)) = b → Q (Ok b) a → wp (r_has r d msg) Q a.
Proof. intros <-. apply wp_has. Qed.

Lemma wp_check r ds msg Q a :
  Q (Ok (dom (a_rows a r) ∩ list_to_set ds)) a → wp (r_check r ds msg) Q a.
Proof. apply wp_reads. intros t tx (Hwf & _) <-. by apply check_domains_view. Qed.

(** A scan by the key reads the map; one by the value may not. *)
Lemma wp_scan_keys r (f : DomainOf r → bool) msg Q a :
  Q (Ok (map_to_list (filter (λ x, f x.1 = true) (a_rows a r)))) a →
  wp (r_scan r (λ d _, f d) msg) Q a.
Proof.
  intros HQ. apply wp_bind, wp_reads with (x := filter (λ x, f x.1 = true) (a_rows a r)).
  - intros t tx (Hwf & _) <-. by apply scan_keys_view.
  - by apply wp_ret.
Qed.

Lemma wp_upsert r d v msg Q a :
  Q (Ok tt) (set_rows r (<[d := v]> (a_rows a r)) a) → wp (r_upsert r d v msg) Q a.
Proof.
  intros HQ. apply wp_bind, wp_runs. intros t tx Ht Hv.
  destruct (exec_step r (CUpsert d v) tx t a Ht I Hv) as (m & Hm & Ho & ->).
  simpl in *. destruct (RelationTransaction.upsert d v t) as [t' [x|e]]; [|done]. simpl in *.
  exists (<[d := v]> (a_rows a r)). split; [done|]. by apply wp_ret.
Qed.

Lemma wp_upsert_with r d f msg Q a :
  Q (Ok tt) (set_rows r (match f (a_rows a r !! d) with
                         | Some v => <[d := v]> (a_rows a r) | None => a_rows a r end) a) →
  wp (r_upsert_with r d f msg) Q a.
Proof.
  intros HQ. apply wp_bind, wp_runs. intros t tx Ht Hv.
  destruct (exec_step r (CUpsertWith d f) tx t a Ht I Hv) as (m & Hm & Ho & ->).
  simpl in *. destruct (RelationTransaction.upsert_with d f t) as [t' [x|e]]; [|done]. simpl in *.
  eexists. split; [done|]. by apply wp_ret.
Qed.

Lemma wp_update_with r d f msg Q a :
  Q (Ok (a_rows a r !! d))
    (set_rows r (match a_rows a r !! d ≫= f with
                 | Some v => <[d := v]> (a_rows a r) | None => a_rows a r end) a) →
  wp (r_update_with r d f msg) Q a.
Proof.
  intros HQ. apply wp_runs. intros t tx Ht Hv.
  destruct (exec_step r (CUpdateWith d f) tx t a Ht I Hv) as (m & Hm & Ho & ->).
  simpl in *. destruct (RelationTransaction.update_with d f t) as [t' [x|e]]; [|done].
  simpl in *. injection Ho as ->. eexists. by split.
Qed.

Lemma wp_update_with_is r d f msg x Q a :
  a_rows a r !! d = x →
  Q (Ok x) (set_rows r (match x ≫= f with
                        | Some v => <[d := v]> (a_rows a r) | None => a_rows a r end) a) →
  wp (r_update_with r d f msg) Q a.
Proof. intros <-. apply wp_update_with. Qed.

Lemma wp_delete r d msg Q a :
  Q (Ok tt) (set_rows r (delete d (a_rows a r)) a) → wp (r_delete r d msg) Q a.
Proof.
  intros HQ. apply wp_bind, wp_runs. intros t tx Ht Hv.
  destruct (exec_step r (CDelete d) tx t a Ht I Hv) as (m & Hm & Ho & ->).
  simpl in *. destruct (RelationTransaction.delete d t) as [t' [x|e]]; [|done]. simpl in *.
  eexists. split; [done|]. by apply wp_ret.
Qed.

Lemma wp_insert r d v msg Q a :
  a_rows a r !! d = None → Q (Ok tt) (set_rows r (<[d := v]> (a_rows a r)) a) →
  wp (r_insert r d v msg) Q a.
Proof.
  intros Hd HQ. apply wp_runs. intros t tx Ht Hv.
  destruct (exec_step r (CInsert d v) tx t a Ht I Hv) as (m & Hm & Ho).
  simpl in *. rewrite Hd in Ho. destruct Ho as [Ho ->].
  destruct (RelationTransaction.insert d v t) as [t' [[]|e]]; [|done]. simpl in *.
  eexists. by split.
Qed.

Lemma wp_insert_unique r d v msg Q a :
  base r !! d = None → Q (Ok tt) (set_rows r (<[d := v]> (a_rows a r)) a) →
  wp (r_insert_unique r d v msg) Q a.
Proof.
  intros Hd HQ. apply wp_runs. intros t tx Ht Hv. pose proof Ht as (_ & Hb & _).
  destruct (exec_step r (CInsertUnique d v) tx t a Ht) as (m & Hm & Ho & ->);
    [simpl; by rewrite Hb|done|].
  eexists. by split.
Qed.

Lemma wp_by_codomain r c msg Q a :
  is_secondary r = true →
  (∀ l, NoDup l → (∀ d, d ∈ l ↔ ∃ v, a_rows a r !! d = Some v ∧ cod_key v = cod_key c) →
     Q (Ok l) a) →
  wp (r_by_codomain r c msg) Q a.
Proof.
  intros Hr HQ. apply wp_runs. intros t tx Ht Hv. pose proof Ht as (_ & _ & _ & Hsec).
  destruct (exec_step r (CByCodomain c) tx t a Ht (Hsec Hr) Hv) as (m & Hm & -> & l & Ho & Hl).
  simpl in *. unfold RelationTransaction.get_by_codomain in *.
  destruct (RelationTransaction.for_each_by_codomain c t) as [t' [x|e]]; [|done].
  simpl in *. injection Ho as ->. destruct Hl. exists (a_rows a r). split; [done|].
  rewrite set_rows_same. by apply HQ.
Qed.

(** *** Caches, memo, edits *)

Lemma wp_modify_caches f Q a :
  Q (Ok tt) (with_a_caches (f (a_caches a)) a) → wp (modify_caches f) Q a.
Proof. by intros HQ s Hs <-. Qed.
Lemma wp_modify_memo f Q a :
  Q (Ok tt) (with_a_memo (f (a_memo a)) a) → wp (modify_memo f) Q a.
Proof. by intros HQ s Hs <-. Qed.

(** The state when an edit's body has ended. *)
Definition after_edit (scope : EditScope) a : astate :=
  with_a_memo (invalidate_memo scope (a_memo a))
    (with_a_caches (invalidate_caches scope (a_caches a)) a).
Definition before_edit (scope : EditScope) a : astate :=
  mkA (a_rows a) (a_caches a) (a_memo a)
    (if bumps_revision scope then a_revision a + 1 else a_revision a) (a_sequences a)
    (a_owners a) (a_policies a).

Lemma wp_edit {A} scope (body : M A) Q a :
  (bumps_revision scope = true → a_revision a < u64_max) →
  wp body (λ r a', Q r (after_edit scope a')) (before_edit scope a) →
  wp (edit scope body) Q a.
Proof.
  intros Hrev Hb s Hs <-. unfold edit. cbn [abs a_revision] in Hrev.
  assert (bumps_revision scope && (w_revision s =? u64_max) = false) as ->.
  { destruct (bumps_revision scope); [|done]. apply Z.eqb_neq. pose proof (Hrev eq_refl). lia. }
  set (s1 := if bumps_revision scope then _ else s).
  assert (good s1) as Hs1 by (by destruct (bumps_revision scope)).
  assert (abs s1 = before_edit scope (abs s)) as Ha1.
  { unfold s1, before_edit. by destruct (bumps_revision scope). }
  destruct (Hb s1 Hs1 Ha1) as [Hs' HQ]. by destruct (body s1) as [s' r].
Qed.

(** *** Loops *)

Lemma wp_for_each {A} (f : A → M unit) (I : list A → astate → Prop) (E : fault → astate → Prop) l a :
  I l a →
  (∀ x l a, I (x :: l) a →
     wp (f x) (λ r a', match r with Ok _ => I l a' | Err e => E e a' end) a) →
  wp (for_each l f) (λ r a', match r with Ok _ => I [] a' | Err e => E e a' end) a.
Proof.
  intros HI Hf. revert a HI. induction l as [|x l IH]; intros a HI; [by apply wp_ret|].
  apply wp_bind. eapply wp_mono; [by apply Hf|]. intros [[]|e] a' Ha'; [by apply IH|done].
Qed.
End spec.
