(* ===== verification/WsViews.v ===== *)
(** What the operations of the world state mean, on the rows alone: the lineage
    of an object, the verb or property a name stands for along it, the
    permissions of a property; and when the caches of a transaction agree with
    that. *)
From S2P Require Import Prelude Obj TxTypes RelIndex RelTx Model Verbs Caches.
From S2P Require Import Relations Forest WsBase WsVerbs WsSpec.
From stdpp Require Import base gmap sets list strings fin_maps.

Open Scope Z_scope.

(** The first result along a list. *)
Fixpoint first_some {A B} (f : A → option B) (l : list A) : option B :=
  match l with
  | [] => None
  | a :: l' => match f a with Some b => Some b | None => first_some f l' end
  end.

Lemma first_some_app {A B} (f : A → option B) l l' :
  first_some f (l ++ l') = match first_some f l with Some b => Some b | None => first_some f l' end.
Proof. induction l as [|a l IH]; [done|]. simpl. by destruct (f a). Qed.

Lemma first_some_none {A B} (f : A → option B) l :
  (∀ a, a ∈ l → f a = None) → first_some f l = None.
Proof.
  induction l as [|a l IH]; intros Hf; [done|]. simpl. rewrite Hf by constructor.
  apply IH. intros a' Ha'. apply Hf. by constructor.
Qed.

Lemma first_some_ext {A B} (f g : A → option B) l :
  (∀ a, a ∈ l → f a = g a) → first_some f l = first_some g l.
Proof.
  induction l as [|a l IH]; intros Hf; [done|]. simpl. rewrite Hf by constructor.
  rewrite IH; [done|]. intros a' Ha'. apply Hf. by constructor.
Qed.

Lemma first_some_elem {A B} (f : A → option B) l b :
  first_some f l = Some b → ∃ a, a ∈ l ∧ f a = Some b.
Proof.
  induction l as [|a l IH]; simpl; [done|]. destruct (f a) eqn:Hf.
  - intros [= ->]. exists a. split; [constructor|done].
  - intros (a' & Ha' & Hb)%IH. exists a'. split; [by constructor|done].
Qed.

Section views.
Context `{Payload}.
Implicit Types v : Views.

Definition parents v : gmap Obj Obj := v ObjectParent.
Definition locations v : gmap Obj Obj := v ObjectLocation.
Definition owners v : gmap Obj Obj := v ObjectOwner.
Definition obj_flags v : gmap Obj (BitEnum ObjFlag) := v ObjectFlags.
Definition obj_names v : gmap Obj StringHolder := v ObjectName.
Definition verbdefs v : gmap Obj VerbDefs := v ObjectVerbdefs.
Definition propdefs v : gmap Obj PropDefs := v ObjectPropdefs.
Definition propvalues v : gmap PropertyKey Var := v ObjectPropvalues.
Definition propflags v : gmap PropertyKey PropPerms := v ObjectPropflags.
Definition metadata v : gmap EntityMetadataKey Var := v EntityMetadata.

(** ** Reference definitions, on the lineage of an object *)

Definition verb_fits (name : Symbol) (argspec : option VerbArgsSpec)
    (flagspec : option (BitEnum VerbFlag)) (verb : VerbDef) : bool :=
  verb_matches_name verb name && VerbDefOps.verbdef_matches_spec verb argspec flagspec.

Definition verb_at v name argspec flagspec (o : Obj) : option VerbDef :=
  verbdefs v !! o ≫= λ d, List.find (verb_fits name argspec flagspec) (contents d).
Definition find_verb v name argspec flagspec (lineage : list Obj) : option VerbDef :=
  first_some (verb_at v name argspec flagspec) lineage.

Definition prop_at v name (o : Obj) : option PropDef :=
  propdefs v !! o ≫= λ d, DefsOps.find_first_named name d.
Definition find_prop v name (lineage : list Obj) : option PropDef :=
  first_some (prop_at v name) lineage.

Definition uuid_at v (uuid : Uuid) (o : Obj) : option PropDef :=
  propdefs v !! o ≫= λ d, DefsOps.find uuid d.
Definition find_uuid v (uuid : Uuid) (lineage : list Obj) : option PropDef :=
  first_some (uuid_at v uuid) lineage.

Definition value_at v (uuid : Uuid) (o : Obj) : option Var := propvalues v !! mkPropertyKey o uuid.
Definition find_value v (uuid : Uuid) (lineage : list Obj) : option Var :=
  first_some (value_at v uuid) lineage.

(** The permissions of property [uuid] on [o], whose lineage is [o :: l]. *)
Definition perms_of v (o : Obj) (uuid : Uuid) (l : list Obj) : result PropPerms fault :=
  match propflags v !! mkPropertyKey o uuid with
  | Some perms => Ok perms
  | None =>
      match find_uuid v uuid (o :: l) with
      | None => Err (WsErr (PropertyNotFound o (PUuidTagged uuid)))
      | Some p =>
          match propflags v !! mkPropertyKey (propdef_definer p) uuid with
          | None => Err (WsErr (DatabaseError "Canonical property permissions not found on definer"))
          | Some perms =>
              Ok (if BitEnumOps.contains PropChown (PropPermsOps.flags perms)
                     && negb (bool_decide (o = propdef_definer p))
                  then PropPermsOps.with_owner (default NOTHING (owners v !! o)) perms
                  else perms)
          end
      end
  end.

(** ** Worlds *)

(** The hierarchy has no cycle, definitions know where they are, and a property
    has permissions where it is defined. *)
Record world_ok v : Prop := {
  wo_parents : acyclic (parents v);
  wo_named : named (parents v);
  wo_definer o d p : propdefs v !! o = Some d → p ∈ contents d → propdef_definer p = o;
  wo_verb o d b : verbdefs v !! o = Some d → b ∈ contents d → verbdef_location b = o;
  wo_canonical o d p : propdefs v !! o = Some d → p ∈ contents d →
    is_Some (propflags v !! mkPropertyKey o (propdef_uuid p));
  wo_uuid o d : verbdefs v !! o = Some d → NoDup (map verbdef_uuid (contents d));
}.

(** ** Coherence *)

Context `{Interner} (names : Symbol → Prop).

Record verbs_coherent v (c : VerbResolutionCache.t) : Prop := {
  vc_entry o n args flags e l : names n → u16_flags flags →
    VerbResolutionCache.lookup_spec o n args flags c = Some e → chain (parents v) o l →
    e = VerbDefOps.as_resolved <$> find_verb v n args flags (o :: l);
  vc_first o e l : VerbResolutionCache.lookup_first_parent_with_verbs o c = Some e →
    chain (parents v) o l →
    ∃ p l1 l2, e = Some p ∧ o :: l = l1 ++ p :: l2 ∧ ∀ x, x ∈ l1 → verbdefs v !! x = None;
}.

Record props_coherent v (c : PropResolutionCache.t) : Prop := {
  pc_entry o n e l : names n → u64_obj o → PropResolutionCache.lookup o n c = Some e →
    chain (parents v) o l → e = find_prop v n (o :: l);
  pc_first o e l : PropResolutionCache.lookup_first_parent_with_props o c = Some e →
    chain (parents v) o l →
    ∃ p l1 l2, e = Some p ∧ o :: l = l1 ++ p :: l2 ∧ ∀ x n, x ∈ l1 → prop_at v n x = None;
}.

Definition ancestry_coherent v (c : AncestryCache.t) : Prop :=
  ∀ o l, AncestryCache.lookup o c = Some l → chain (parents v) o l.

Record memo_coherent v (m : Memo.t) : Prop := {
  mc_perms o u p l : Memo.cached_perms (mkPropertyKey o u) m = Some p → chain (parents v) o l →
    perms_of v o u l = Ok p;
  mc_known h : h ∈ Memo.known_propflags m → is_Some (propflags v !! h);
}.

Record coherent v (c : Caches) (m : Memo.t) : Prop := {
  co_verbs : verbs_coherent v (verb_resolution_cache c);
  co_props : props_coherent v (prop_resolution_cache c);
  co_ancestry : ancestry_coherent v (ancestry_cache c);
  co_memo : memo_coherent v m;
}.
End views.
