(* ===== verification/WsHierarchy.v ===== *)
(** The walks of the world state: ancestors, descendants and containment. They
    end, with enough fuel, exactly when the rows they follow have no cycle, and
    then give exactly the objects above or below. *)
From S2P Require Import Prelude Obj TxTypes RelIndex RelTx RelTxSpec RelTxProofs Model.
From S2P Require Import Verbs Caches Relations Forest.
From S2P Require Import WsBase WsObjects WsVerbs WsProps WsSpec WsViews.
From stdpp Require Import base gmap sets list strings fin_maps.

Open Scope Z_scope.
Open Scope ws_scope.
#[local] Opaque is_nothing WsSpec.wp.

Section hierarchy.
Context `{Hashes} `{Payload} `{!Values} `{Interner}.
Context {P : DatabaseRelation → Type} `{∀ r, Provider (P r) (DomainOf r) (CodomainOf r)}.
Context (pms : ∀ r, gmap (DomainOf r) (Timestamp * CodomainOf r)).
Context (base : ∀ r, gmap (DomainOf r) (Entry (CodomainOf r))).
Context (fuel : nat).
Implicit Types a : astate.
#[local] Notation wp := (wp (P := P) pms base).
#[local] Notation rows_parents a := (parents (a_rows a)).
#[local] Notation rows_locations a := (locations (a_rows a)).

(** ** Up the parents *)

Lemma ancestors_loop_wp n o acc l Q a :
  chain (rows_parents a) o l → (length l < n)%nat → Q (Ok (acc ++ l)) a →
  wp (ancestors_loop n o acc) Q a.
Proof.
  intros Hc. revert n acc Q. induction Hc as [o Hu|o p l Hu Hc IH]; intros [|n] acc Q Hn HQ;
    simpl in Hn; try lia; cbn [ancestors_loop]; apply wp_bind, wp_expect, wp_get; unfold up in Hu.
  - change (a_rows a ObjectParent !! o) with (rows_parents a !! o).
    destruct (rows_parents a !! o) as [p|]; cbn in Hu; [destruct (is_nothing p); [|done]|];
      apply wp_ret; by rewrite app_nil_r in HQ.
  - apply up_some in Hu as [Hp Hn']. change (a_rows a ObjectParent !! o) with (rows_parents a !! o).
    rewrite Hp, Hn'. apply IH; [lia|]. by rewrite <-app_assoc.
Qed.


(** The transaction with a longer ancestry cache. *)
Definition with_ancestry (ac : AncestryCache.t) a : astate :=
  with_a_caches (mkCaches (verb_resolution_cache (a_caches a)) (prop_resolution_cache (a_caches a)) ac)
    a.

Lemma ancestry_fill v o l c :
  ancestry_coherent v c → chain (parents v) o l → ancestry_coherent v (AncestryCache.fill o l c).
Proof.
  intros Hc Hl o' l'. unfold AncestryCache.lookup. cbn [AncestryCache.fill AncestryCache.entries].
  rewrite lookup_insert_Some. intros [[<- <-]|[_ Hl']]; [done|by apply Hc].
Qed.

(** The walk is cut short by a cache that is coherent, and fills it. *)
Lemma ancestors_wp obj (self : bool) l Q a :
  chain (rows_parents a) obj l → (length l < fuel)%nat →
  ancestry_coherent (a_rows a) (ancestry_cache (a_caches a)) →
  (∀ ac, ancestry_coherent (a_rows a) ac → 
     Q (Ok (if self then obj :: l else l)) (with_ancestry ac a)) →
  wp (ancestors fuel obj self) Q a.
Proof.
  intros Hl Hn Hc HQ. unfold ancestors. apply wp_bind.
  apply (wp_gets pms base _ (λ a, AncestryCache.lookup obj (ancestry_cache (a_caches a)))); [done|].
  apply wp_bind. destruct (AncestryCache.lookup obj _) as [hit|] eqn:Hhit.
  - apply Hc in Hhit. rewrite (chain_det _ _ _ _ Hhit Hl). apply wp_ret, wp_ret.
    specialize (HQ _ Hc). by destruct a as [? [] ? ? ? ? ?].
  - apply wp_bind. eapply ancestors_loop_wp; [done|done|]. cbn [app].
    apply wp_bind, wp_modify_caches. do 2 apply wp_ret. apply HQ. by apply ancestry_fill.
Qed.

Lemma isa_loop_wp n anc o acc b l Q a :
  chain (rows_parents a) o l → (length l < n)%nat →
  Q (Ok (acc ++ l, b || bool_decide (anc ∈ l))) a →
  wp (isa_loop n anc o acc b) Q a.
Proof.
  intros Hc. revert n acc b Q. induction Hc as [o Hu|o p l Hu Hc IH]; intros [|n] acc b Q Hn HQ;
    simpl in Hn; try lia; cbn [isa_loop]; apply wp_bind; unfold get_object_parent;
    apply wp_bind, wp_get, wp_ret; unfold up in Hu;
    change (a_rows a ObjectParent !! o) with (rows_parents a !! o).
  - assert (is_nothing (default NOTHING (rows_parents a !! o)) = true) as ->.
    { destruct (rows_parents a !! o) as [p|]; simpl in *; [by destruct (is_nothing p)|].
      with_strategy transparent [is_nothing] (vm_compute; reflexivity). }
    apply wp_ret. rewrite app_nil_r, bool_decide_eq_false_2, orb_false_r in HQ; [done|set_solver].
  - apply up_some in Hu as [Hp Hn']. rewrite Hp. simpl. rewrite Hn'. apply IH; [lia|].
    rewrite <-app_assoc. cbn [app]. rewrite <-orb_assoc.
    assert (bool_decide (anc ∈ p :: l) = bool_decide (p = anc) || bool_decide (anc ∈ l)) as Heq.
    { destruct (decide (p = anc)) as [->|Hne];
        [rewrite !(bool_decide_eq_true_2 (_ ∈ _ :: _)) by set_solver; by rewrite bool_decide_eq_true_2|].
      rewrite (bool_decide_eq_false_2 (p = anc)) by done. simpl.
      apply bool_decide_ext. set_solver. }
    by rewrite <-Heq.
Qed.

Lemma isa_wp obj anc l Q a :
  chain (rows_parents a) obj l → (length l < fuel)%nat →
  ancestry_coherent (a_rows a) (ancestry_cache (a_caches a)) →
  (∀ ac, ancestry_coherent (a_rows a) ac →
     Q (Ok (bool_decide (is_Some (obj_flags (a_rows a) !! obj)) && bool_decide (anc ∈ obj :: l)))
       (with_ancestry ac a)) →
  wp (isa fuel obj anc) Q a.
Proof.
  intros Hl Hn Hc HQ. unfold isa. apply wp_bind, wp_has.
  replace (bool_decide (is_Some (a_rows a ObjectFlags !! obj)))
    with (bool_decide (is_Some (obj_flags (a_rows a) !! obj))) by (by apply bool_decide_ext).
  assert (with_ancestry (ancestry_cache (a_caches a)) a = a) as Hid by (by destruct a as [? [] ? ? ? ? ?]).
  case_bool_decide as Hv; simpl in *;
    [|apply wp_ret; specialize (HQ _ Hc); by rewrite Hid in HQ].
  destruct (decide (obj = anc)) as [->|Hne].
  { rewrite (bool_decide_eq_true_2 (anc = anc)) by done. apply wp_ret. specialize (HQ _ Hc).
    rewrite Hid, bool_decide_eq_true_2 in HQ by set_solver. done. }
  rewrite (bool_decide_eq_false_2 (obj = anc)) by done. apply wp_bind.
  apply (wp_gets pms base _ (λ a, AncestryCache.contains obj anc (ancestry_cache (a_caches a)))); [done|].
  assert (bool_decide (anc ∈ obj :: l) = bool_decide (anc ∈ l)) as Heq.
  { apply bool_decide_ext. set_solver. }
  rewrite Heq in HQ. unfold AncestryCache.contains.
  destruct (AncestryCache.entries (ancestry_cache (a_caches a)) !! obj) as [hit|] eqn:Hhit;
    cbn [fmap option_fmap option_map].
  - apply Hc in Hhit. rewrite (chain_det _ _ _ _ Hhit Hl). apply wp_ret. specialize (HQ _ Hc).
    by rewrite Hid in HQ.
  - apply wp_bind. eapply isa_loop_wp; [done|done|]. simpl.
    apply wp_bind, wp_modify_caches, wp_ret. apply HQ. by apply ancestry_fill.
Qed.
(** ** Down to the children *)

Lemma children_wp o Q a :
  (∀ l, NoDup l → (∀ x, x ∈ l ↔ rows_parents a !! x = Some o) → Q (Ok l) a) →
  wp (get_object_children o) Q a.
Proof.
  intros HQ. unfold get_object_children. apply (wp_by_codomain pms base ObjectParent o); [done|]. intros l Hn Hl. apply HQ; [done|]. intros x.
  rewrite Hl. split; [|intros Hx; by exists o]. intros (p & Hp & He).
  change (p = o) in He. by rewrite <-He.
Qed.

Lemma up_row m x o : is_nothing o = false → m !! x = Some o ↔ up m x = Some o.
Proof. intros Hn. rewrite up_some. naive_solver. Qed.

(** What the breadth-first walk keeps: [results] are done, [queue] is to do. *)
Record bfs (m : gmap Obj Obj) (root : Obj) (queue results : list Obj) : Prop := {
  bfs_nodup : NoDup (root :: results ++ queue);
  bfs_parent x : x ∈ results ++ queue → ∃ y, y ∈ root :: results ∧ up m x = Some y;
  bfs_closed x y : y ∈ root :: results → up m x = Some y → x ∈ results ++ queue;
  bfs_below x : x ∈ results ++ queue → sbelow m root x;
}.

Lemma sbelow_up m x y : acyclic m → up m x = Some y → sbelow m y x.
Proof. intros Ha Hu. destruct (Ha y) as [l Hl]. exists (y :: l). split; [by econstructor|constructor]. Qed.

Lemma sbelow_trans m x y z : up m x = Some y → sbelow m z y → sbelow m z x.
Proof. intros Hu (l & Hl & Hz). exists (y :: l). split; [by econstructor|by constructor]. Qed.

Lemma sbelow_irrefl m x : ~ sbelow m x x.
Proof. intros (l & Hl & Hx). by apply chain_irrefl in Hl. Qed.

Lemma bfs_start m root children :
  acyclic m → NoDup children → (∀ x, x ∈ children ↔ up m x = Some root) →
  bfs m root children [].
Proof.
  intros Ha Hn Hc. split; cbn [app].
  - constructor; [|done]. intros Hr%Hc. by apply (sbelow_irrefl m root), sbelow_up.
  - intros x Hx. exists root. split; [by constructor|by apply Hc].
  - intros x y ->%list_elem_of_singleton. by rewrite Hc.
  - intros x Hx%Hc. by apply sbelow_up.
Qed.

Lemma bfs_step m root o queue results children :
  acyclic m → NoDup children → (∀ x, x ∈ children ↔ up m x = Some o) →
  bfs m root (o :: queue) results → bfs m root (queue ++ children) (results ++ [o]).
Proof.
  intros Ha Hnc Hc [Hn Hp Hcl Hb].
  assert (sbelow m root o) as Hro by (apply Hb; set_solver).
  assert (∀ x, x ∈ children → x ∉ root :: results ++ o :: queue) as Hnew.
  { intros x Hx%Hc Hin. apply elem_of_cons in Hin as [->|Hin].
    - apply (sbelow_irrefl m root). by eapply sbelow_trans.
    - destruct (Hp x Hin) as (y & Hy & Hu). assert (y = o) as -> by congruence.
      apply NoDup_cons in Hn as [Hr Hn]. apply elem_of_cons in Hy as [->|Hy]; [set_solver|].
      apply NoDup_app in Hn as (_ & Hd & _). by apply (Hd o Hy); constructor. }
  assert ((results ++ [o]) ++ queue ++ children = (results ++ o :: queue) ++ children) as Heq
    by (by rewrite <-!app_assoc).
  split; rewrite ?Heq.
  - change (NoDup ((root :: results ++ o :: queue) ++ children)). apply NoDup_app. split_and!; [done| |done].
    intros x Hx Hx'. by apply (Hnew x).
  - intros x [Hx|Hx]%elem_of_app.
    + destruct (Hp x Hx) as (y & Hy & Hu). exists y. split; [set_solver|done].
    + exists o. split; [set_solver|by apply Hc].
  - intros x y Hy Hu. apply elem_of_app. destruct (decide (y = o)) as [->|Hne]; [right; by apply Hc|].
    left. eapply Hcl; [|done]. set_solver.
  - intros x [Hx|Hx%Hc]%elem_of_app; [by apply Hb|]. by eapply sbelow_trans.
Qed.

(** No more objects than rows are ever queued. *)
Lemma bfs_length m root queue results :
  bfs m root queue results → (length results + length queue ≤ size m)%nat.
Proof.
  intros [Hn Hp _ _]. rewrite <-length_app. apply NoDup_cons in Hn as [_ Hn].
  apply nodup_dom_length; [done|]. intros x Hx. destruct (Hp x Hx) as (y & _ & Hu).
  apply up_some in Hu as [Hu _]. by exists y.
Qed.

Lemma bfs_done m root results x : bfs m root [] results → x ∈ results ↔ sbelow m root x.
Proof.
  intros [Hn _ Hcl Hb]. rewrite app_nil_r in *. split; [apply Hb|]. intros (l & Hl & Hr).
  induction Hl as [x Hu|x y l Hu Hl IH]; [by apply elem_of_nil in Hr|].
  apply (Hcl x y); [|done]. apply elem_of_cons in Hr as [->|Hr]; [constructor|].
  right. by apply IH.
Qed.

Lemma descendants_loop_wp n root queue results Q a :
  acyclic (rows_parents a) → named (rows_parents a) →
  (size (rows_parents a) ≤ n + length results)%nat →
  bfs (rows_parents a) root queue results →
  (∀ l, NoDup (root :: l) → (∀ x, x ∈ l ↔ sbelow (rows_parents a) root x) → Q (Ok l) a) →
  wp (descendants_loop n queue results) Q a.
Proof.
  intros Ha Hnn. revert queue results. induction n as [|n IH]; intros queue results Hsz Hb HQ;
    pose proof (bfs_length _ _ _ _ Hb) as Hlen; destruct queue as [|o queue]; cbn [descendants_loop].
  1,3: apply wp_ret, HQ; [pose proof (bfs_nodup _ _ _ _ Hb) as Hn; by rewrite app_nil_r in Hn|];
    intros x; by apply bfs_done.
  { simpl in Hlen. lia. }
  assert (is_nothing o = false) as Ho.
  { destruct (bfs_parent _ _ _ _ Hb o) as (y & _ & Hu); [set_solver|].
    apply up_some in Hu as [Hu _]. apply Hnn. by exists y. }
  apply wp_bind, children_wp. intros children Hnc Hc.
  apply IH; [rewrite length_app; simpl; lia| |done].
  eapply bfs_step; [done|done| |done]. intros x. rewrite Hc. by apply up_row.
Qed.

Lemma descendants_wp obj (self : bool) Q a :
  acyclic (rows_parents a) → named (rows_parents a) → is_nothing obj = false →
  (size (rows_parents a) ≤ fuel)%nat →
  (∀ l, NoDup (obj :: l) → (∀ x, x ∈ l ↔ sbelow (rows_parents a) obj x) →
     Q (Ok (if self then obj :: l else l)) a) →
  wp (descendants fuel obj self) Q a.
Proof.
  intros Ha Hnn Ho Hf HQ. unfold descendants. apply wp_bind, children_wp. intros children Hnc Hc.
  apply wp_bind, (descendants_loop_wp fuel obj); [done|done|lia| |].
  - apply bfs_start; [done|done|]. intros x. rewrite Hc. by apply up_row.
  - intros l Hn Hl. apply wp_ret. by apply HQ.
Qed.

Lemma branch_wp obj Q a :
  acyclic (rows_parents a) → named (rows_parents a) → is_nothing obj = false →
  (size (rows_parents a) ≤ fuel)%nat →
  (∀ l, (∀ x, x ∈ l ↔ below (rows_parents a) obj x) → Q (Ok l) a) →
  wp (branch_objects fuel obj) Q a.
Proof.
  intros Ha Hnn Ho Hf HQ. apply descendants_wp; [done..|]. intros l Hn Hl. apply HQ.
  intros x. unfold below. rewrite <-Hl. set_solver.
Qed.

(** ** Containment *)

Lemma recursive_move_wp n what target oid l Q a :
  chain (rows_locations a) oid l → (length l + 1 < n)%nat →
  Q (if decide (is_nothing oid = false ∧ what ∈ oid :: l)
     then Err (WsErr (RecursiveMove what target)) else Ok tt) a →
  wp (recursive_move_loop n what target oid) Q a.
Proof.
  intros Hc. revert n Q. induction Hc as [oid Hu|oid p l Hu Hc IH]; intros [|n] Q Hn HQ;
    simpl in Hn; try lia; cbn [recursive_move_loop].
  all: destruct (is_nothing oid) eqn:Ho;
    [rewrite decide_False in HQ by naive_solver; by apply wp_ret|].
  all: destruct (decide (oid = what)) as [->|Hne];
    [rewrite bool_decide_eq_true_2 by done; rewrite decide_True in HQ by (split; [done|set_solver]);
     by apply wp_fail|].
  all: rewrite bool_decide_eq_false_2 by done; apply wp_bind, wp_get;
    change (a_rows a ObjectLocation !! oid) with (rows_locations a !! oid).
  - rewrite decide_False in HQ by set_solver. unfold up in Hu.
    destruct (rows_locations a !! oid) as [p|]; [|by apply wp_ret]. simpl in Hu.
    destruct (is_nothing p) eqn:Hp; [|done]. destruct n as [|n]; [lia|].
    cbn [recursive_move_loop]. rewrite Hp. by apply wp_ret.
  - apply up_some in Hu as [Hu Hp]. rewrite Hu. apply IH; [lia|].
    case_decide as Hd; case_decide as Hd'; try done; exfalso; set_solver.
Qed.

(** ** Cycles *)

Definition endless (m : gmap Obj Obj) (o : Obj) : Prop := ~ ∃ l, chain m o l.

Lemma endless_up m o : endless m o → ∃ p, m !! o = Some p ∧ is_nothing p = false ∧ endless m p.
Proof.
  intros He. destruct (up m o) as [p|] eqn:Hu.
  - pose proof Hu as [Hp Hn]%up_some. exists p. split_and!; [done..|]. intros [l Hl].
    apply He. exists (p :: l). by econstructor.
  - destruct He. exists []. by constructor.
Qed.

Lemma closed_endless m C o :
  (∀ x, x ∈ C → ∃ y : Obj, y ∈ C ∧ up m x = Some y) → o ∈ (C : list Obj) → endless m o.
Proof.
  intros HC Ho [l Hl]. revert Ho. induction Hl as [x Hu|x y l Hu _ IH]; intros Hx;
    destruct (HC x Hx) as (z & Hz & Hup); simplify_eq. by apply IH.
Qed.

Lemma ancestors_loop_diverges n o acc Q a :
  endless (rows_parents a) o → Q (Err Diverged) a → wp (ancestors_loop n o acc) Q a.
Proof.
  revert o acc. induction n as [|n IH]; intros o acc He HQ; cbn [ancestors_loop]; [by apply wp_fail|].
  destruct (endless_up _ _ He) as (p & Hp & Hn & He').
  apply wp_bind, wp_expect, (wp_get_is pms base ObjectParent o _ (Some p)); [exact Hp|].
  rewrite Hn. by apply IH.
Qed.

Lemma ancestors_diverge obj (self : bool) Q a :
  AncestryCache.lookup obj (ancestry_cache (a_caches a)) = None →
  endless (rows_parents a) obj → Q (Err Diverged) a → wp (ancestors fuel obj self) Q a.
Proof.
  intros Hc He HQ. unfold ancestors. apply wp_bind.
  apply (wp_gets pms base _ (λ a, AncestryCache.lookup obj (ancestry_cache (a_caches a)))); [done|].
  rewrite Hc. apply wp_bind, wp_bind. by apply ancestors_loop_diverges.
Qed.

Lemma recursive_move_diverges n what target oid Q a :
  endless (rows_locations a) oid → is_nothing oid = false →
  (∀ k, Nat.iter k (λ o, o ≫= up (rows_locations a)) (Some oid) ≠ Some what) →
  Q (Err Diverged) a → wp (recursive_move_loop n what target oid) Q a.
Proof.
  revert oid. induction n as [|n IH]; intros oid He Ho Hout HQ; cbn [recursive_move_loop];
    [by apply wp_fail|].
  rewrite Ho. rewrite bool_decide_eq_false_2 by (intros ->; by apply (Hout 0%nat)).
  destruct (endless_up _ _ He) as (p & Hp & Hn & He').
  apply wp_bind, (wp_get_is pms base ObjectLocation oid _ (Some p)); [exact Hp|].
  apply IH; [done..| |done]. intros k Hk. apply (Hout (S k)). rewrite Nat.iter_succ_r. cbn [mbind option_bind].
  assert (up (rows_locations a) oid = Some p) as -> by (by apply up_some). done.
Qed.
(** A set of objects that each have a child in it. *)
Definition fertile (m : gmap Obj Obj) (C : list Obj) : Prop :=
  ∀ x, x ∈ C → ∃ y, y ∈ C ∧ m !! y = Some x.

Lemma descendants_loop_diverges n C queue results Q a :
  fertile (rows_parents a) C → (∃ x, x ∈ queue ∧ x ∈ C) → Q (Err Diverged) a →
  wp (descendants_loop n queue results) Q a.
Proof.
  intros Hc. revert queue results. induction n as [|n IH]; intros queue results (x & Hx & HC) HQ;
    destruct queue as [|o queue]; cbn [descendants_loop]; try (by apply elem_of_nil in Hx);
    [by apply wp_fail|].
  apply wp_bind, children_wp. intros children _ Hch. apply IH; [|done].
  apply elem_of_cons in Hx as [->|Hx].
  - destruct (Hc o HC) as (y & Hy & Hp). exists y. rewrite elem_of_app, Hch. by split; [right|].
  - exists x. rewrite elem_of_app. by split; [left|].
Qed.

Lemma branch_diverges C o Q a :
  fertile (rows_parents a) C → o ∈ C → Q (Err Diverged) a → wp (branch_objects fuel o) Q a.
Proof.
  intros Hc Ho HQ. unfold branch_objects, descendants. apply wp_bind, children_wp.
  intros children _ Hch. apply wp_bind, (descendants_loop_diverges _ C); [done| |done].
  destruct (Hc o Ho) as (y & Hy & Hp). exists y. by rewrite Hch.
Qed.

Lemma set_parent_diverges C o p Q a :
  fertile (rows_parents a) C → o ∈ C → rows_parents a !! o ≠ Some p → Q (Err Diverged) a →
  wp (set_object_parent fuel o p) Q a.
Proof.
  intros Hc Ho Hp HQ. unfold set_object_parent.
  apply wp_bind, (wp_get_is pms base ObjectParent o _ (rows_parents a !! o)); [done|].
  rewrite bool_decide_eq_false_2 by exact Hp. by apply wp_bind, (branch_diverges C).
Qed.
End hierarchy.
