(* ===== verification/WsResolve.v ===== *)
(** Resolution through the caches gives what the rows say. With coherent caches,
    a verb or property name resolves to the first definition along the lineage,
    whatever is cached, and the caches stay coherent. *)
From S2P Require Import Prelude Obj TxTypes RelIndex RelTx RelTxSpec RelTxProofs Model.
From S2P Require Import Verbs Caches Relations Forest.
From S2P Require Import WsBase WsObjects WsVerbs WsProps WsSpec WsViews WsHierarchy.
From stdpp Require Import base gmap sets list strings fin_maps.

Open Scope Z_scope.
Open Scope ws_scope.
#[local] Opaque is_nothing WsSpec.wp.

Section resolve.
Context `{Hashes} `{Payload} `{!Values} `{Interner}.
Context {P : DatabaseRelation → Type} `{∀ r, Provider (P r) (DomainOf r) (CodomainOf r)}.
Context (pms : ∀ r, gmap (DomainOf r) (Timestamp * CodomainOf r)).
Context (base : ∀ r, gmap (DomainOf r) (Entry (CodomainOf r))).
Context (fuel : nat).
(** The names interned so far: their 32-bit identifiers are distinct. *)
Context (names : Symbol → Prop) (Hnames : ∀ n n', names n → names n' → interned n n').
Implicit Types a : astate.
Implicit Types v : Views.
#[local] Notation wp := (wp (P := P) pms base).
#[local] Notation rows_parents a := (parents (a_rows a)).

(** ** Verbs *)

Definition with_verbs (vc : VerbResolutionCache.t) a : astate :=
  with_a_caches (mkCaches vc (prop_resolution_cache (a_caches a)) (ancestry_cache (a_caches a))) a.

Lemma fill_verb_coherent v c o l n args flags :
  verbs_coherent names v c → names n → u16_flags flags → chain (parents v) o l →
  verbs_coherent names v (VerbResolutionCache.fill_entry o n args flags
    (VerbDefOps.as_resolved <$> find_verb v n args flags (o :: l)) c).
Proof.
  intros [He Hf] Hn Hfl Hl. split; [|done].
  intros o' n' args' flags' e l' Hn' Hfl'. rewrite verb_fill by auto. case_decide as Heq.
  - injection Heq as -> -> -> Hb. assert (flags' = flags) as ->.
    { destruct flags as [[]|], flags' as [[]|]; simplify_eq/=; done. }
    intros [= <-] Hl'. by rewrite (chain_det _ _ _ _ Hl' Hl).
  - by apply He.
Qed.

Lemma fill_first_verbs_coherent v c o l p l1 l2 :
  verbs_coherent names v c → chain (parents v) o l → o :: l = l1 ++ p :: l2 →
  (∀ x, x ∈ l1 → verbdefs v !! x = None) →
  verbs_coherent names v (VerbResolutionCache.fill_first_parent_with_verbs o (Some p) c).
Proof.
  intros [He Hf] Hl Heq Hnone. split; [done|]. intros o' e l'.
  unfold VerbResolutionCache.lookup_first_parent_with_verbs. simpl.
  rewrite lookup_insert_Some. intros [[<- <-]|[_ Hl']] Hc; [|by eapply Hf].
  exists p, l1, l2. by rewrite (chain_det _ _ _ _ Hc Hl).
Qed.

Lemma find_verb_at v name args flags l1 o l2 :
  find_verb v name args flags l1 = None →
  find_verb v name args flags (l1 ++ o :: l2) =
    match verb_at v name args flags o with
    | Some b => Some b | None => find_verb v name args flags l2 end.
Proof. unfold find_verb. intros Hn. by rewrite first_some_app, Hn. Qed.

(** One object of the lineage, below which nothing fits. *)
Lemma visit_verbs_wp v obj l name args flags hit l1 o l2 Q a :
  a_rows a = v → chain (parents v) obj l → obj :: l = l1 ++ o :: l2 → names name → u16_flags flags →
  verbs_coherent names v (verb_resolution_cache (a_caches a)) →
  find_verb v name args flags l1 = None →
  (hit = false → ∀ x, x ∈ l1 → verbdefs v !! x = None) →
  (∀ hit' vc, verbs_coherent names v vc →
     (hit' = false → ∀ x, x ∈ l1 ++ [o] → verbdefs v !! x = None) →
     Q (Ok (hit', VerbDefOps.as_resolved <$> verb_at v name args flags o)) (with_verbs vc a)) →
  wp (visit_verbs obj name args flags hit o) Q a.
Proof.
  intros Hv Hl Heq Hn Hfl Hco Hnone Hfirst HQ. unfold visit_verbs. apply wp_bind, wp_with.
  change (a_rows a ObjectVerbdefs !! o) with (verbdefs (a_rows a) !! o). rewrite Hv.
  unfold verb_at in HQ. assert (a = with_verbs (verb_resolution_cache (a_caches a)) a) as Hid
    by (by destruct a as [? [] ? ? ? ? ?]).
  destruct (verbdefs v !! o) as [d|] eqn:Hd; cbn [fmap option_fmap option_map mbind option_bind] in *.
  2:{ apply wp_ret. rewrite Hid. apply HQ; [done|]. intros Hh x [Hx|Hx]%elem_of_app; [by apply Hfirst|].
      by apply list_elem_of_singleton in Hx as ->. }
  assert (∀ vc, verbs_coherent names v vc →
    wp match List.find (verb_fits name args flags) (contents d) with
       | Some verb => with_verb_cache (VerbResolutionCache.fill_hit_spec obj name args flags
                        (VerbDefOps.as_resolved verb)) ;; ret (true, Some (VerbDefOps.as_resolved verb))
       | None => ret (true, None)
       end Q (with_verbs vc a)) as Hrest.
  { intros vc Hvc. destruct (List.find _ _) as [b|] eqn:Hb; [|apply wp_ret; by apply HQ].
    apply wp_bind, wp_modify_caches, wp_ret. cbn. apply HQ; [|done].
    assert (find_verb v name args flags (obj :: l) = Some b) as Hfind.
    { rewrite Heq, find_verb_at by done. unfold verb_at. rewrite Hd. cbn. by rewrite Hb. }
    pose proof (fill_verb_coherent v vc obj l name args flags Hvc Hn Hfl Hl) as Hfill.
    by rewrite Hfind in Hfill. }
  apply wp_bind. destruct hit; cbn [negb].
  - apply wp_ret. rewrite Hid. by apply Hrest.
  - apply wp_modify_caches. apply (Hrest (VerbResolutionCache.fill_first_parent_with_verbs obj (Some o)
      (verb_resolution_cache (a_caches a)))).
    by apply (fill_first_verbs_coherent _ _ _ l _ l1 l2); auto.
Qed.

Lemma get_parent_wp o Q a :
  Q (Ok (default NOTHING (rows_parents a !! o))) a → wp (get_object_parent o) Q a.
Proof. intros HQ. apply wp_bind, wp_get, wp_ret. exact HQ. Qed.

Lemma is_nothing_NOTHING : is_nothing NOTHING = true.
Proof. with_strategy transparent [is_nothing] (vm_compute; reflexivity). Qed.

Lemma up_default (m : gmap Obj Obj) o :
  match up m o with
  | Some p => default NOTHING (m !! o) = p ∧ is_nothing p = false
  | None => is_nothing (default NOTHING (m !! o)) = true
  end.
Proof.
  unfold up. destruct (m !! o) as [p|]; cbn; [by destruct (is_nothing p) eqn:Hp|].
  apply is_nothing_NOTHING.
Qed.

Lemma resolve_verb_loop_wp v obj l name args flags search_o l2 :
  chain (parents v) obj l → chain (parents v) search_o l2 → names name → u16_flags flags →
  ∀ n hit l1 a Q, a_rows a = v → obj :: l = l1 ++ search_o :: l2 → (length l2 < n)%nat →
  verbs_coherent names v (verb_resolution_cache (a_caches a)) →
  find_verb v name args flags l1 = None →
  (hit = false → ∀ x, x ∈ l1 → verbdefs v !! x = None) →
  (∀ vc, verbs_coherent names v vc →
     Q (Ok (VerbDefOps.as_resolved <$> find_verb v name args flags (obj :: l)))
       (with_verbs vc a)) →
  wp (resolve_verb_loop n obj name args flags hit search_o) Q a.
Proof.
  intros Hl Hc Hn Hfl. induction Hc as [o Hu|o p l2 Hu Hc IH];
    intros [|n] hit l1 a Q Hv Heq Hlen Hco Hnone Hfirst HQ; simpl in Hlen; try lia;
    cbn [resolve_verb_loop]; rewrite Heq, find_verb_at in HQ by done;
    apply wp_bind; (eapply visit_verbs_wp; [done..|]); intros hit' vc Hvc Hfirst';
    destruct (verb_at v name args flags o) as [b|] eqn:Hb; cbn [fmap option_fmap option_map];
    try (apply wp_ret; by apply HQ); apply wp_bind, get_parent_wp; cbn [with_verbs a_rows with_a_caches];
    rewrite Hv; pose proof (up_default (parents v) o) as Hd; rewrite Hu in Hd.
  - rewrite Hd. apply wp_ret. by apply HQ.
  - destruct Hd as [-> ->].
    apply (IH n hit' (l1 ++ [o])); [done| |lia|done| |done|].
    + by rewrite <-app_assoc.
    + unfold find_verb in *. rewrite first_some_app, Hnone. simpl. by rewrite Hb.
    + intros vc' Hvc'. rewrite Heq, find_verb_at by done. rewrite Hb. by apply HQ.
Qed.

Lemma chain_suffix (m : gmap Obj Obj) o l p l1 l2 :
  chain m o l → o :: l = l1 ++ p :: l2 → chain m p l2.
Proof.
  intros Hl Heq. destruct l1 as [|x l1]; cbn [app] in Heq;
    [by injection Heq as <- ->|]. injection Heq as <- ->.
  destruct (chain_from m o (l1 ++ p :: l2) p Hl) as (l1' & l2' & Heq & Hc); [set_solver|].
  pose proof (chain_nodup _ _ _ Hl) as Hnd. apply NoDup_cons in Hnd as [_ Hnd].
  assert (l2 = l2') as ->; [|done].
  clear Hl Hc. revert l1' Heq. induction l1 as [|y l1 IH]; intros [|z l1'] Heq; simplify_eq/=; [done|..].
  - apply NoDup_cons in Hnd as [Hp _]. set_solver.
  - apply NoDup_cons in Hnd as [Hp _]. set_solver.
  - apply NoDup_cons in Hnd as [_ Hnd]. by eapply IH.
Qed.

Lemma verb_at_elem v name args flags o b :
  verb_at v name args flags o = Some b →
  ∃ d, verbdefs v !! o = Some d ∧ b ∈ contents d ∧ verb_fits name args flags b = true.
Proof.
  unfold verb_at. destruct (verbdefs v !! o) as [d|]; simpl; [|done].
  intros [Hin Hfit]%find_some. exists d. split_and!; [done|by apply list_elem_of_In|done].
Qed.

Lemma find_verb_elem v name args flags l b :
  find_verb v name args flags l = Some b →
  ∃ o d, o ∈ l ∧ verbdefs v !! o = Some d ∧ b ∈ contents d ∧ verb_fits name args flags b = true.
Proof.
  intros (o & Ho & (d & ? & ? & ?)%verb_at_elem)%first_some_elem. by exists o, d.
Qed.

Definition verb_answer v name args flags obj l : result VerbDef fault :=
  match find_verb v name args flags (obj :: l) with
  | Some verb => Ok verb
  | None => Err (WsErr (VerbNotFound obj (PSymbol name)))
  end.
Definition map_ok {A B} (f : A → B) (r : result A fault) : result B fault :=
  match r with Ok x => Ok (f x) | Err e => Err e end.

Lemma resolve_verb_handle_wp v obj l name args flags Q a :
  a_rows a = v → chain (parents v) obj l → (length l < fuel)%nat → names name → u16_flags flags →
  verbs_coherent names v (verb_resolution_cache (a_caches a)) →
  (∀ vc, verbs_coherent names v vc →
     Q (map_ok VerbDefOps.as_resolved (verb_answer v name args flags obj l)) (with_verbs vc a)) →
  wp (resolve_verb_handle fuel obj name args flags) Q a.
Proof.
  intros Hv Hl Hlen Hn Hfl Hco HQ. unfold resolve_verb_handle.
  assert (a = with_verbs (verb_resolution_cache (a_caches a)) a) as Hid
    by (by destruct a as [? [] ? ? ? ? ?]).
  apply wp_bind, (wp_gets pms base _ (λ a, VerbResolutionCache.lookup_spec obj name args flags
    (verb_resolution_cache (a_caches a)))); [done|].
  set (search := bind _ _). assert (wp search Q a) as Hsearch.
  { unfold search. apply wp_bind, (wp_gets pms base _ (λ a,
      VerbResolutionCache.lookup_first_parent_with_verbs obj (verb_resolution_cache (a_caches a)))); [done|].
    assert (∀ hit o l1 l2, obj :: l = l1 ++ o :: l2 → find_verb v name args flags l1 = None →
      (hit = false → l1 = []) →
      wp (let* found := resolve_verb_loop fuel obj name args flags hit o in
          match found with
          | Some resolved => ret resolved
          | None => with_verb_cache (VerbResolutionCache.fill_miss_spec obj name args flags) ;;
                    throw (VerbNotFound obj (PSymbol name))
          end) Q a) as Hloop.
    { intros hit o l1 l2 Heq Hl1 Hhit. apply wp_bind.
      assert (length l2 < fuel)%nat.
      { apply (f_equal length) in Heq. rewrite length_app in Heq. simpl in Heq. lia. }
      eapply (resolve_verb_loop_wp v obj l _ _ _ o l2); [done|by eapply chain_suffix|done..| |].
      { intros Hh x. rewrite (Hhit Hh). by intros ?%elem_of_nil. }
      intros vc Hvc. pose proof (fill_verb_coherent v vc obj l name args flags Hvc Hn Hfl Hl) as Hfill.
      unfold verb_answer in HQ.
      destruct (find_verb v name args flags (obj :: l)) as [b|]; cbn [fmap option_fmap option_map] in *.
      - apply wp_ret. by apply (HQ vc).
      - apply wp_bind, wp_modify_caches, wp_fail. by apply HQ. }
    destruct (VerbResolutionCache.lookup_first_parent_with_verbs obj _) as [e|] eqn:Hf.
    - destruct (vc_first _ _ _ Hco _ _ _ Hf Hl) as (p & l1 & l2 & -> & Heq & Hnone).
      eapply Hloop; [done| |done]. apply first_some_none. intros x Hx. unfold verb_at.
      by rewrite Hnone.
    - by apply (Hloop false obj [] l). }
  destruct (VerbResolutionCache.lookup_spec _ _ _ _ _) as [e|] eqn:Hc; [|done].
  apply (vc_entry _ _ _ Hco) with (l := l) in Hc; [|done..]. unfold verb_answer in HQ.
  destruct (find_verb v name args flags (obj :: l)) as [b|] eqn:Hb; simpl in Hc; subst e.
  - apply find_verb_elem in Hb as (o & d & _ & _ & _ & Hfit). unfold verb_fits in Hfit.
    apply andb_true_iff in Hfit as [_ Hfit].
    change (VerbDefOps.resolved_matches_spec (VerbDefOps.as_resolved b) args flags)
      with (VerbDefOps.verbdef_matches_spec b args flags).
    rewrite Hfit. apply wp_ret. rewrite Hid. by apply HQ.
  - apply wp_fail. rewrite Hid. by apply HQ.
Qed.

Lemma find_unique {A} `{HasUuid A} (x : A) (l : list A) :
  NoDup (map def_uuid l) → x ∈ l → List.find (λ p, bool_decide (def_uuid p = def_uuid x)) l = Some x.
Proof.
  induction l as [|y l IH]; [by intros _ ?%elem_of_nil|]. cbn [map]. intros [Hy Hn]%NoDup_cons.
  intros [<-|Hx]%elem_of_cons; simpl.
  - by rewrite bool_decide_eq_true_2.
  - rewrite bool_decide_eq_false_2; [by apply IH|]. intros He. apply Hy. rewrite He.
    by apply list_elem_of_fmap_2.
Qed.

(** A handle made of a verb of the world leads back to it. *)
Lemma lookup_resolved_wp v receiver name o d verb Q a :
  a_rows a = v → world_ok v → verbdefs v !! o = Some d → verb ∈ contents d →
  Q (Ok verb) a → wp (lookup_resolved_verbdef receiver name (VerbDefOps.as_resolved verb)) Q a.
Proof.
  intros <- Hw Hd Hin HQ. unfold lookup_resolved_verbdef. apply wp_bind.
  eapply (wp_with_is pms base ObjectVerbdefs (verbdef_location verb)).
  { rewrite (wo_verb _ Hw _ _ _ Hd Hin). exact Hd. }
  cbn [VerbDefOps.as_resolved rv_uuid].
  cbn [fmap option_fmap option_map mjoin option_join]. unfold DefsOps.find.
  change (verbdef_uuid verb) with (def_uuid verb).
  rewrite find_unique; [by apply wp_ret|exact (wo_uuid _ Hw _ _ Hd)|done].
Qed.

Lemma resolve_verb_wp v obj l name args flags Q a :
  a_rows a = v → world_ok v → chain (parents v) obj l → (length l < fuel)%nat → names name →
  u16_flags flags → verbs_coherent names v (verb_resolution_cache (a_caches a)) →
  (∀ vc, verbs_coherent names v vc → Q (verb_answer v name args flags obj l) (with_verbs vc a)) →
  wp (resolve_verb fuel obj name args flags) Q a.
Proof.
  intros Hv Hw Hl Hlen Hn Hfl Hco HQ. unfold resolve_verb. apply wp_bind.
  eapply resolve_verb_handle_wp; [done..|]. intros vc Hvc. specialize (HQ vc Hvc).
  unfold verb_answer in *. destruct (find_verb _ _ _ _ _) as [b|] eqn:Hb; cbn [map_ok]; [|done].
  apply find_verb_elem in Hb as (o & d & _ & Hd & Hin & _).
  by eapply (lookup_resolved_wp v _ _ o d).
Qed.

(** The verb of the object itself. *)
Definition own_verb v name obj : result VerbDef fault :=
  match verb_at v name None None obj with
  | Some verb => Ok verb
  | None => Err (WsErr (VerbNotFound obj (PSymbol name)))
  end.

Lemma verb_at_named v name obj :
  verb_at v name None None obj = verbdefs v !! obj ≫= DefsOps.find_first_named name.
Proof.
  unfold verb_at. destruct (verbdefs v !! obj) as [d|]; [|done]. simpl.
  unfold DefsOps.find_first_named. induction (contents d) as [|b l IH]; [done|].
  cbn [List.find]. unfold verb_fits at 1. cbn [VerbDefOps.verbdef_matches_spec].
  rewrite andb_true_r. by rewrite IH.
Qed.

Lemma find_verb_on_wp v obj l name Q a :
  a_rows a = v → chain (parents v) obj l → names name →
  verbs_coherent names v (verb_resolution_cache (a_caches a)) →
  (∀ vc, verbs_coherent names v vc → Q (own_verb v name obj) (with_verbs vc a)) →
  wp (find_verb_on obj name) Q a.
Proof.
  intros Hv Hl Hn Hco HQ. unfold find_verb_on. apply wp_bind.
  apply (wp_with_is pms base ObjectVerbdefs obj _ _ (verbdefs v !! obj)); [by subst v|].
  pose proof (verb_at_named v name obj) as Hat. unfold own_verb in HQ.
  replace (mjoin _) with (verb_at v name None None obj)
    by (rewrite Hat; by destruct (verbdefs v !! obj)).
  destruct (verb_at v name None None obj) as [b|] eqn:Hb.
  - apply wp_bind, wp_modify_caches, wp_ret. cbn. apply HQ.
    pose proof (fill_verb_coherent v _ obj l name None None Hco Hn I Hl) as Hfill.
    unfold find_verb in Hfill. cbn [first_some] in Hfill. by rewrite Hb in Hfill.
  - apply wp_fail. assert (a = with_verbs (verb_resolution_cache (a_caches a)) a) as Hid
      by (by destruct a as [? [] ? ? ? ? ?]). rewrite Hid. by apply HQ.
Qed.

Lemma get_verb_by_name_wp v obj l name Q a :
  a_rows a = v → world_ok v → chain (parents v) obj l → names name →
  verbs_coherent names v (verb_resolution_cache (a_caches a)) →
  (∀ vc, verbs_coherent names v vc → Q (own_verb v name obj) (with_verbs vc a)) →
  wp (get_verb_by_name obj name) Q a.
Proof.
  intros Hv Hw Hl Hn Hco HQ. unfold get_verb_by_name.
  assert (a = with_verbs (verb_resolution_cache (a_caches a)) a) as Hid
    by (by destruct a as [? [] ? ? ? ? ?]).
  apply wp_bind, (wp_gets pms base _ (λ a, VerbResolutionCache.lookup obj name
    (verb_resolution_cache (a_caches a)))); [done|].
  destruct (VerbResolutionCache.lookup obj name _) as [e|] eqn:Hc; [|by eapply find_verb_on_wp].
  apply (vc_entry _ _ _ Hco) with (l := l) in Hc; [|done..].
  destruct (find_verb v name None None (obj :: l)) as [b|] eqn:Hb; simpl in Hc; subst e.
  - case_bool_decide as Hloc; [|by eapply find_verb_on_wp].
    pose proof Hb as (o & d & Ho & Hd & Hin & Hfit)%find_verb_elem. cbn in Hloc.
    pose proof (wo_verb _ Hw _ _ _ Hd Hin) as Ho'. rewrite Hloc in Ho'. subst o.
    eapply (lookup_resolved_wp v _ _ obj d); [done..|]. rewrite Hid.
    assert (verb_at v name None None obj = Some b) as Hat; [|].
    { unfold find_verb in Hb. cbn [first_some] in Hb.
      destruct (verb_at v name None None obj) as [b'|] eqn:Hat; [done|]. exfalso.
      unfold verb_at in Hat. rewrite Hd in Hat. cbn in Hat.
      eapply List.find_none in Hat; [|by apply list_elem_of_In]. by rewrite Hfit in Hat. }
    unfold own_verb in HQ. rewrite Hat in HQ. by apply HQ.
  - apply wp_fail. rewrite Hid. unfold own_verb in HQ. unfold find_verb in Hb.
    cbn [first_some] in Hb. destruct (verb_at v name None None obj); [done|]. by apply HQ.
Qed.

(** ** Properties *)

Definition with_props (pc : PropResolutionCache.t) a : astate :=
  with_a_caches (mkCaches (verb_resolution_cache (a_caches a)) pc (ancestry_cache (a_caches a))) a.

Lemma with_props_id a : a = with_props (prop_resolution_cache (a_caches a)) a.
Proof. by destruct a as [? [] ? ? ? ? ?]. Qed.

Lemma fill_prop_coherent v c o l n :
  props_coherent names v c → names n → u64_obj o → chain (parents v) o l →
  props_coherent names v (PropResolutionCache.fill_entry o n (find_prop v n (o :: l)) c).
Proof.
  intros [He Hf] Hn Ho Hl. split; [|done].
  intros o' n' e l' Hn' Ho'. rewrite prop_fill by auto. case_decide as Heq; [|by apply He].
  injection Heq as -> ->. intros [= <-] Hl'. by rewrite (chain_det _ _ _ _ Hl' Hl).
Qed.

Lemma fill_first_props_coherent v c o l p l1 l2 :
  props_coherent names v c → chain (parents v) o l → o :: l = l1 ++ p :: l2 →
  (∀ x n, x ∈ l1 → prop_at v n x = None) →
  props_coherent names v (PropResolutionCache.fill_first_parent_with_props o (Some p) c).
Proof.
  intros [He Hf] Hl Heq Hnone. split; [done|]. intros o' e l'.
  unfold PropResolutionCache.lookup_first_parent_with_props. simpl.
  rewrite lookup_insert_Some. intros [[<- <-]|[_ Hl']] Hc; [|by eapply Hf].
  exists p, l1, l2. by rewrite (chain_det _ _ _ _ Hc Hl).
Qed.

Lemma no_props_at v o n : contents (default DefsOps.empty (propdefs v !! o)) = [] → prop_at v n o = None.
Proof.
  unfold prop_at, DefsOps.find_first_named. destruct (propdefs v !! o) as [d|]; [|done].
  simpl. by intros ->.
Qed.

(** The first object with properties, as the loop looks for it. *)
Lemma first_with_props_wp v obj l search_o l2 :
  chain (parents v) obj l → chain (parents v) search_o l2 →
  ∀ n l1 a Q, a_rows a = v → obj :: l = l1 ++ search_o :: l2 → (length l2 < n)%nat →
  props_coherent names v (prop_resolution_cache (a_caches a)) →
  (∀ x n, x ∈ l1 → prop_at v n x = None) →
  (∀ r pc, props_coherent names v pc →
     match r with
     | Some p => ∃ l1 l2, obj :: l = l1 ++ p :: l2 ∧ ∀ x n, x ∈ l1 → prop_at v n x = None
     | None => ∀ x n, x ∈ obj :: l → prop_at v n x = None
     end → Q (Ok r) (with_props pc a)) →
  wp (first_with_props_loop n obj search_o) Q a.
Proof.
  intros Hl Hc. induction Hc as [o Hu|o p l2 Hu Hc IH];
    intros [|n] l1 a Q Hv Heq Hlen Hco Hnone HQ; simpl in Hlen; try lia;
    cbn [first_with_props_loop]; apply wp_try_ok;
    apply (wp_with_is pms base ObjectPropdefs o _ _ (propdefs v !! o)); try (by subst v);
    pose proof (no_props_at v o) as Hno;
    destruct (default false _) eqn:Hd;
    try (apply wp_bind, wp_modify_caches, wp_ret; apply HQ;
         [by eapply (fill_first_props_coherent _ _ _ l _ l1)|by eexists _, _]);
    assert (∀ n, prop_at v n o = None) as Ho
      by (intros n'; apply Hno; destruct (propdefs v !! o) as [d|]; simpl in Hd; [|done];
          by apply negb_false_iff, bool_decide_eq_true in Hd);
    assert (∀ x n, x ∈ l1 ++ [o] → prop_at v n x = None) as Hnone'
      by (intros x n' [Hx| ->%list_elem_of_singleton]%elem_of_app; by auto);
    apply wp_try_ok, get_parent_wp; rewrite Hv;
    pose proof (up_default (parents v) o) as Hdef; rewrite Hu in Hdef.
  - rewrite Hdef. apply wp_ret. rewrite with_props_id. apply HQ; [done|]. by rewrite Heq.
  - destruct Hdef as [-> ->]. apply (IH n (l1 ++ [o])); [done| |lia|done..].
    by rewrite <-app_assoc.
Qed.

Lemma find_named_loop_wp v name search_o l2 :
  chain (parents v) search_o l2 →
  ∀ n a Q, a_rows a = v → (length l2 < n)%nat →
  Q (Ok (Some (find_prop v name (search_o :: l2)))) a →
  wp (find_named_loop n name search_o) Q a.
Proof.
  intros Hc. induction Hc as [o Hu|o p l2 Hu Hc IH]; intros [|n] a Q Hv Hlen HQ;
    simpl in Hlen; try lia; cbn [find_named_loop]; apply wp_try_ok;
    apply (wp_with_is pms base ObjectPropdefs o _ _ (propdefs v !! o)); try (by subst v);
    unfold find_prop in HQ; cbn [first_some] in HQ;
    (replace (mjoin _) with (prop_at v name o)
       by (unfold prop_at; by destruct (propdefs v !! o)));
    destruct (prop_at v name o) as [p'|]; try (by apply wp_ret);
    apply wp_try_ok, get_parent_wp; rewrite Hv;
    pose proof (up_default (parents v) o) as Hdef; rewrite Hu in Hdef.
  - rewrite Hdef. by apply wp_ret.
  - destruct Hdef as [-> ->]. by apply IH; [|lia|].
Qed.

Lemma find_prop_at v name l1 l2 :
  (∀ x n, x ∈ l1 → prop_at v n x = None) → find_prop v name (l1 ++ l2) = find_prop v name l2.
Proof.
  intros Hn. unfold find_prop. rewrite first_some_app, first_some_none; [done|auto].
Qed.

Lemma find_property_by_name_wp v obj l name Q a :
  a_rows a = v → chain (parents v) obj l → (length l < fuel)%nat → names name → u64_obj obj →
  props_coherent names v (prop_resolution_cache (a_caches a)) →
  (∀ pc, props_coherent names v pc → Q (Ok (find_prop v name (obj :: l))) (with_props pc a)) →
  wp (find_property_by_name fuel obj name) Q a.
Proof.
  intros Hv Hl Hlen Hn Ho Hco HQ. unfold find_property_by_name.
  apply wp_bind, (wp_gets pms base _ (λ a, PropResolutionCache.lookup obj name
    (prop_resolution_cache (a_caches a)))); [done|].
  destruct (PropResolutionCache.lookup obj name _) as [e|] eqn:Hc.
  { apply (pc_entry _ _ _ Hco) with (l := l) in Hc; [|done..]. subst e. apply wp_ret.
    rewrite with_props_id. by apply HQ. }
  apply wp_bind, (wp_gets pms base _ (λ a, PropResolutionCache.lookup_first_parent_with_props obj
    (prop_resolution_cache (a_caches a)))); [done|].
  apply wp_bind. set (after := λ r : option Obj,
    match r with
    | None => ret (P := P) None
    | Some search_o =>
        let* found := find_named_loop fuel name search_o in
        match found with
        | None => ret None
        | Some None => with_prop_cache (PropResolutionCache.fill_miss obj name) ;; ret None
        | Some (Some propdef) =>
            with_prop_cache (PropResolutionCache.fill_hit obj name propdef) ;; ret (Some propdef)
        end
    end).
  assert (∀ r pc, props_coherent names v pc →
    match r with
    | Some p => ∃ l1 l2, obj :: l = l1 ++ p :: l2 ∧ ∀ x n, x ∈ l1 → prop_at v n x = None
    | None => ∀ x n, x ∈ obj :: l → prop_at v n x = None
    end → wp (after r) Q (with_props pc a)) as Hafter.
  { intros [p|] pc Hpc; unfold after.
    - intros (l1 & l2 & Heq & Hnone). apply wp_bind. eapply (find_named_loop_wp v _ p l2);
        [by eapply chain_suffix|done|..].
      { apply (f_equal length) in Heq. rewrite length_app in Heq. simpl in Heq. lia. }
      rewrite <-(find_prop_at v name l1) by done. rewrite <-Heq.
      pose proof (fill_prop_coherent v pc obj l name Hpc Hn Ho Hl) as Hfill.
      destruct (find_prop v name (obj :: l)) as [b|];
        apply wp_bind, wp_modify_caches, wp_ret; by apply HQ.
    - intros Hnone. apply wp_ret. replace None with (find_prop v name (obj :: l)); [by apply HQ|].
      apply first_some_none. auto. }
  destruct (PropResolutionCache.lookup_first_parent_with_props obj _) as [e|] eqn:Hf.
  - destruct (pc_first _ _ _ Hco _ _ _ Hf Hl) as (p & l1 & l2 & -> & Heq & Hnone).
    apply wp_ret. rewrite with_props_id. apply (Hafter (Some p)); [done|]. by exists l1, l2.
  - eapply (first_with_props_wp v obj l obj l Hl Hl fuel []); [done..| |].
    { by intros x n ?%elem_of_nil. }
    intros r pc Hpc Hr. exact (Hafter r pc Hpc Hr).
Qed.
End resolve.
