(* ===== verification/WsInherit.v ===== *)
(** Properties along the lineage: permissions and values read through the caches
    and the permission memo are those of the rows. *)
From S2P Require Import Prelude Obj TxTypes RelIndex RelTx RelTxSpec RelTxProofs Model.
From S2P Require Import Verbs Caches Relations Forest.
From S2P Require Import WsBase WsObjects WsVerbs WsProps WsSpec WsViews WsHierarchy WsResolve.
From stdpp Require Import base gmap sets list strings fin_maps.

Open Scope Z_scope.
Open Scope ws_scope.
#[local] Opaque is_nothing WsSpec.wp.

(** What a reading operation may change: the caches and the memo, to others that
    are coherent. *)
Record refreshes `{Payload} `{Interner} (names : Symbol → Prop) (a a' : astate) : Prop := {
  rf_rows : a_rows a' = a_rows a;
  rf_revision : a_revision a' = a_revision a;
  rf_sequences : a_sequences a' = a_sequences a;
  rf_owners : a_owners a' = a_owners a;
  rf_policies : a_policies a' = a_policies a;
  rf_coherent : coherent names (a_rows a') (a_caches a') (a_memo a');
}.

Definition a_coherent `{Payload} `{Interner} (names : Symbol → Prop) (a : astate) : Prop :=
  coherent names (a_rows a) (a_caches a) (a_memo a).

Section inherit.
Context `{Hashes} `{Payload} `{!Values} `{Interner}.
Context {P : DatabaseRelation → Type} `{∀ r, Provider (P r) (DomainOf r) (CodomainOf r)}.
Context (pms : ∀ r, gmap (DomainOf r) (Timestamp * CodomainOf r)).
Context (base : ∀ r, gmap (DomainOf r) (Entry (CodomainOf r))).
Context (fuel : nat).
Context (names : Symbol → Prop) (Hnames : ∀ n n', names n → names n' → interned n n').
Implicit Types a : astate.
Implicit Types v : Views.
#[local] Notation wp := (wp (P := P) pms base).
#[local] Notation refreshes := (refreshes names).
#[local] Notation a_coherent := (a_coherent names).

Lemma refreshes_refl a : a_coherent a → refreshes a a.
Proof. by split. Qed.
Lemma refreshes_trans a a' a'' : refreshes a a' → refreshes a' a'' → refreshes a a''.
Proof. intros [] []. split; congruence. Qed.

Lemma refreshes_ancestry ac a :
  a_coherent a → ancestry_coherent (a_rows a) ac → refreshes a (with_ancestry ac a).
Proof. intros [? ? ? ?] Hc. split; [done..|]. by split. Qed.
Lemma refreshes_verbs vc a :
  a_coherent a → verbs_coherent names (a_rows a) vc → refreshes a (with_verbs vc a).
Proof. intros [? ? ? ?] Hc. split; [done..|]. by split. Qed.
Lemma refreshes_props pc a :
  a_coherent a → props_coherent names (a_rows a) pc → refreshes a (with_props pc a).
Proof. intros [? ? ? ?] Hc. split; [done..|]. by split. Qed.
Lemma refreshes_memo m a :
  a_coherent a → memo_coherent (a_rows a) m → refreshes a (with_a_memo m a).
Proof. intros [? ? ? ?] Hc. split; [done..|]. by split. Qed.

Lemma ancestors_refresh obj (self : bool) l Q a :
  a_coherent a → chain (parents (a_rows a)) obj l → (length l < fuel)%nat →
  (∀ a', refreshes a a' → Q (Ok (if self then obj :: l else l)) a') →
  wp (ancestors fuel obj self) Q a.
Proof.
  intros Ha Hl Hlen HQ. eapply ancestors_wp; [done..|apply Ha|]. intros ac Hac.
  by apply HQ, refreshes_ancestry.
Qed.

(** ** Definitions by identifier *)

Lemma find_uuid_in_wp v uuid l Q a :
  a_rows a = v → Q (Ok (find_uuid v uuid l)) a → wp (find_uuid_in uuid l) Q a.
Proof.
  intros Hv. unfold find_uuid. induction l as [|o l IH]; intros HQ; [by apply wp_ret|].
  cbn [find_uuid_in first_some] in *. apply wp_bind.
  apply (wp_with_is pms base ObjectPropdefs o _ _ (propdefs v !! o)); [by subst v|].
  replace (mjoin _) with (uuid_at v uuid o) by (unfold uuid_at; by destruct (propdefs v !! o)).
  destruct (uuid_at v uuid o); [by apply wp_ret|by apply IH].
Qed.

Definition uuid_answer v uuid obj l : result PropDef fault :=
  match find_uuid v uuid (obj :: l) with
  | Some p => Ok p
  | None => Err (WsErr (PropertyNotFound obj (PUuidTagged uuid)))
  end.

Lemma find_property_by_uuid_wp obj l uuid Q a :
  a_coherent a → chain (parents (a_rows a)) obj l → (length l < fuel)%nat →
  (∀ a', refreshes a a' → Q (uuid_answer (a_rows a) uuid obj l) a') →
  wp (find_property_by_uuid fuel obj uuid) Q a.
Proof.
  intros Ha Hl Hlen HQ. unfold find_property_by_uuid. apply wp_bind.
  eapply ancestors_refresh; [done..|]. intros a' Ha'. specialize (HQ a' Ha').
  apply wp_bind. eapply find_uuid_in_wp; [apply Ha'|]. unfold uuid_answer in HQ.
  destruct (find_uuid _ _ _); [by apply wp_ret|by apply wp_fail].
Qed.

(** ** Permissions *)

Lemma memo_fill v o l u p m :
  memo_coherent v m → chain (parents v) o l → perms_of v o u l = Ok p →
  memo_coherent v (Memo.cache_perms (mkPropertyKey o u) p m).
Proof.
  intros [Hp Hk] Hl Hperms. split; [|done]. intros o' u' p' l'. unfold Memo.cached_perms. simpl.
  rewrite lookup_insert_Some. intros [[[= <- <-] <-]|[_ Hm]] Hl'; [|by eapply Hp].
  by rewrite (chain_det _ _ _ _ Hl' Hl).
Qed.

Lemma cache_perms_wp o l u p Q a :
  a_coherent a → chain (parents (a_rows a)) o l → perms_of (a_rows a) o u l = Ok p →
  (∀ a', refreshes a a' → Q (Ok p) a') →
  wp (modify_memo (Memo.cache_perms (mkPropertyKey o u) p) ;; ret p) Q a.
Proof.
  intros Ha Hl Hp HQ. apply wp_bind, wp_modify_memo, wp_ret, HQ, refreshes_memo; [done|].
  apply (memo_fill _ _ l); [apply Ha|done..].
Qed.

Lemma retrieve_property_permissions_wp obj l uuid Q a :
  a_coherent a → chain (parents (a_rows a)) obj l → (length l < fuel)%nat →
  (∀ a', refreshes a a' → Q (perms_of (a_rows a) obj uuid l) a') →
  wp (retrieve_property_permissions fuel obj uuid) Q a.
Proof.
  intros Ha Hl Hlen HQ. unfold retrieve_property_permissions.
  apply wp_bind, (wp_gets pms base _ (λ a, Memo.cached_perms (mkPropertyKey obj uuid) (a_memo a)));
    [done|].
  destruct (Memo.cached_perms _ _) as [perms|] eqn:Hc.
  { apply (mc_perms _ _ (co_memo _ _ _ _ Ha)) with (l := l) in Hc; [|done].
    rewrite Hc in HQ. by apply wp_ret, HQ, refreshes_refl. }
  clear Hc. remember (perms_of (a_rows a) obj uuid l) as ans eqn:Hans. unfold perms_of in Hans.
  apply wp_bind, (wp_with_is pms base ObjectPropflags (mkPropertyKey obj uuid) _ _
    (propflags (a_rows a) !! mkPropertyKey obj uuid)); [done|].
  destruct (propflags (a_rows a) !! mkPropertyKey obj uuid) as [perms|] eqn:Hf; simpl.
  { subst ans. eapply cache_perms_wp; [done..| |done]. unfold perms_of. by rewrite Hf. }
  apply wp_bind. eapply find_property_by_uuid_wp; [done..|]. intros a1 Hr1.
  unfold uuid_answer. destruct (find_uuid _ _ _) as [pd|] eqn:Hpd; [|subst ans; by apply HQ].
  apply wp_bind, (wp_with_is pms base ObjectPropflags (mkPropertyKey (propdef_definer pd) uuid) _ _
    (propflags (a_rows a) !! mkPropertyKey (propdef_definer pd) uuid)); [by rewrite (rf_rows _ _ _ Hr1)|].
  destruct (propflags (a_rows a) !! mkPropertyKey (propdef_definer pd) uuid) as [cp|] eqn:Hcp; simpl;
    [|subst ans; by apply wp_fail, HQ].
  assert (∀ p, ans = Ok p → wp (modify_memo (Memo.cache_perms (mkPropertyKey obj uuid) p) ;; ret p) Q a1)
    as Hend.
  { intros p Hp. eapply (cache_perms_wp obj l).
    - apply (rf_coherent _ _ _ Hr1).
    - by rewrite (rf_rows _ _ _ Hr1).
    - rewrite (rf_rows _ _ _ Hr1). unfold perms_of. by rewrite Hf, Hpd, Hcp, <-Hans.
    - intros a' Ha'. rewrite <-Hp. by apply HQ, (refreshes_trans _ a1). }
  destruct (_ && _); apply wp_bind.
  - apply wp_bind, wp_bind, wp_get, wp_ret, wp_ret. rewrite (rf_rows _ _ _ Hr1). by apply Hend.
  - apply wp_ret. by apply Hend.
Qed.

(** ** Values *)

Lemma inherited_value_wp v uuid l Q a :
  a_rows a = v → Q (Ok (find_value v uuid l)) a → wp (inherited_value uuid l) Q a.
Proof.
  intros Hv. unfold find_value. induction l as [|o l IH]; intros HQ; [by apply wp_ret|].
  cbn [inherited_value first_some] in *. apply wp_bind.
  apply (wp_get_is pms base ObjectPropvalues (mkPropertyKey o uuid) _ (value_at v uuid o));
    [by subst v|].
  destruct (value_at v uuid o); [by apply wp_ret|by apply IH].
Qed.

(** The value and permissions of a property, and whether it is clear. *)
Definition value_answer v uuid obj l : result (Var * PropPerms * bool) fault :=
  map_ok (λ perms, match value_at v uuid obj with
                   | Some value => (value, perms, false)
                   | None => (default v_none (find_value v uuid l), perms, true)
                   end) (perms_of v obj uuid l).

Lemma retrieve_property_wp obj l uuid Q a :
  a_coherent a → chain (parents (a_rows a)) obj l → (length l < fuel)%nat →
  (∀ a', refreshes a a' →
     Q (map_ok (λ perms, (value_at (a_rows a) uuid obj, perms)) (perms_of (a_rows a) obj uuid l)) a') →
  wp (retrieve_property fuel obj uuid) Q a.
Proof.
  intros Ha Hl Hlen HQ. unfold retrieve_property. apply wp_bind.
  apply (wp_get_is pms base ObjectPropvalues (mkPropertyKey obj uuid) _ (value_at (a_rows a) uuid obj));
    [done|].
  apply wp_bind. eapply retrieve_property_permissions_wp; [done..|]. intros a' Ha'.
  specialize (HQ a' Ha'). destruct (perms_of _ _ _ _); [by apply wp_ret|done].
Qed.

(** Either resolution, with what it makes of the answer. *)
Lemma resolve_value_wp {A} (k : Var * PropPerms * bool → A) obj l uuid Q a :
  a_coherent a → chain (parents (a_rows a)) obj l → (length l < fuel)%nat →
  (∀ a', refreshes a a' → Q (map_ok k (value_answer (a_rows a) uuid obj l)) a') →
  wp (let* r := retrieve_property fuel obj uuid in
      match r with
      | (Some value, perms) => ret (k (value, perms, false))
      | (None, perms) =>
          let* ancestors := ancestors fuel obj false in
          let* value := inherited_value uuid ancestors in
          ret (k (default v_none value, perms, true))
      end) Q a.
Proof.
  intros Ha Hl Hlen HQ. apply wp_bind. eapply retrieve_property_wp; [done..|]. intros a1 Hr1.
  unfold value_answer in HQ. destruct (perms_of _ _ _ _) as [perms|e]; cbn [map_ok] in *; [|by apply HQ].
  destruct (value_at (a_rows a) uuid obj); [apply wp_ret; by apply HQ|].
  apply wp_bind. eapply (ancestors_refresh obj false l).
  - apply (rf_coherent _ _ _ Hr1).
  - by rewrite (rf_rows _ _ _ Hr1).
  - done.
  - intros a2 Hr2. apply wp_bind, (inherited_value_wp (a_rows a)).
    + by rewrite (rf_rows _ _ _ Hr2), (rf_rows _ _ _ Hr1).
    + apply wp_ret. apply HQ. by apply (refreshes_trans _ a1).
Qed.

Definition property_answer v name obj l : result (PropDef * Var * PropPerms * bool) fault :=
  match find_prop v name (obj :: l) with
  | None => Err (WsErr (PropertyNotFound obj (PSymbol name)))
  | Some p => map_ok (λ x : Var * PropPerms * bool, (p, x.1.1, x.1.2, x.2))
                (value_answer v (propdef_uuid p) obj l)
  end.

Lemma resolve_property_wp obj l name Q a :
  a_coherent a → chain (parents (a_rows a)) obj l → (length l < fuel)%nat → names name →
  u64_obj obj →
  (∀ a', refreshes a a' → Q (property_answer (a_rows a) name obj l) a') →
  wp (resolve_property fuel obj name) Q a.
Proof.
  intros Ha Hl Hlen Hn Ho HQ. unfold resolve_property. apply wp_bind.
  eapply find_property_by_name_wp; [done..|apply Ha|]. intros pc Hpc.
  unfold property_answer in HQ. pose proof (refreshes_props pc a Ha Hpc) as Hr1.
  destruct (find_prop _ _ _) as [p|]; [|by apply wp_fail, HQ].
  apply (resolve_value_wp (λ x : Var * PropPerms * bool, (p, x.1.1, x.1.2, x.2)) obj l); [apply Hr1|done..|].
  intros a' Ha'. by apply HQ, (refreshes_trans _ (with_props pc a)).
Qed.

Lemma resolve_property_by_uuid_wp obj l uuid Q a :
  a_coherent a → chain (parents (a_rows a)) obj l → (length l < fuel)%nat →
  (∀ a', refreshes a a' → Q (value_answer (a_rows a) uuid obj l) a') →
  wp (resolve_property_by_uuid fuel obj uuid) Q a.
Proof.
  intros Ha Hl Hlen HQ. apply (resolve_value_wp (λ x, x) obj l); [done..|]. intros a' Ha'.
  specialize (HQ a' Ha'). by destruct (value_answer _ _ _ _).
Qed.
End inherit.
