(* ===== verification/WsCoherent.v ===== *)
(** When changed rows leave the caches coherent: outside a set of objects that
    holds, with an object, everything that inherits from it, nothing an object
    inherits has changed; inside it the caches have been invalidated. *)
From S2P Require Import Prelude Obj TxTypes RelIndex RelTx Model.
From S2P Require Import Verbs Caches Relations Forest.
From S2P Require Import WsBase WsVerbs WsSpec WsViews.
From stdpp Require Import base gmap sets list strings fin_maps.

Open Scope Z_scope.
#[local] Opaque is_nothing.

Lemma prop_invalidate_first o objects c :
  PropResolutionCache.lookup_first_parent_with_props o
    (PropResolutionCache.invalidate_objects objects c) =
  if decide (o ∈ objects) then None else PropResolutionCache.lookup_first_parent_with_props o c.
Proof.
  unfold PropResolutionCache.lookup_first_parent_with_props, PropResolutionCache.invalidate_objects.
  destruct objects as [|x objects]; [by rewrite decide_False by (apply not_elem_of_nil)|].
  cbn [PropResolutionCache.first_parent_with_props_cache].
  assert (as_u64 o ∈ map as_u64 (x :: objects) ↔ o ∈ x :: objects) as Hids by apply elem_of_ids.
  case_decide as Hin.
  - apply filter_lookup_None. intros e He. by apply He, Hids.
  - apply filter_lookup. intros e _. cbn [fst]. by rewrite Hids.
Qed.

(** The objects a list of objects holds with everything below them. *)
Definition downset (m : gmap Obj Obj) (X : list Obj) : Prop := closed m (λ x, x ∈ X).

Lemma downset_nil m : downset m [].
Proof. by intros x y _ ?%elem_of_nil. Qed.

Section coherent.
Context `{Payload} `{Interner}.
Context (names : Symbol → Prop) (Hnames : ∀ n n', names n → names n' → interned n n').
Implicit Types v : Views.
Implicit Types X : list Obj.

(** The lineages that have not changed. *)
Record lineage_outside X v v' : Prop := {
  lo_acyclic : acyclic (parents v);
  lo_closed : downset (parents v) X;
  lo_agree x : x ∉ X → parents v' !! x = parents v !! x;
}.

Lemma lineage_same v v' : acyclic (parents v) → parents v' = parents v → lineage_outside [] v v'.
Proof. intros Ha Hp. split; [done|apply downset_nil|]. by rewrite Hp. Qed.

Lemma chain_back X v v' o l :
  lineage_outside X v v' → o ∉ X → chain (parents v') o l →
  chain (parents v) o l ∧ ∀ x, x ∈ o :: l → x ∉ X.
Proof.
  intros [Ha Hcl Hag] Ho Hl. destruct (Ha o) as [l0 Hl0].
  destruct (chain_outside (parents v) (parents v') (λ x, x ∈ X) o l0) as [Hl' Hout]; [done..|].
  by rewrite (chain_det _ _ _ _ Hl Hl').
Qed.

Lemma find_verb_agree v v' n args flags l :
  (∀ x, x ∈ l → verbdefs v' !! x = verbdefs v !! x) →
  find_verb v' n args flags l = find_verb v n args flags l.
Proof. intros Hag. apply first_some_ext. intros x Hx. unfold verb_at. by rewrite Hag. Qed.

Lemma find_prop_agree v v' n l :
  (∀ x, x ∈ l → propdefs v' !! x = propdefs v !! x) → find_prop v' n l = find_prop v n l.
Proof. intros Hag. apply first_some_ext. intros x Hx. unfold prop_at. by rewrite Hag. Qed.

Lemma verbs_outside X v v' c :
  lineage_outside X v v' → (∀ x, x ∉ X → verbdefs v' !! x = verbdefs v !! x) →
  verbs_coherent names v c → verbs_coherent names v' (VerbResolutionCache.invalidate_objects X c).
Proof.
  intros HX Hag [He Hf]. split.
  - intros o n args flags e l Hn Hfl. destruct (verb_invalidate o n args flags X c) as [-> _].
    case_decide as Ho; [done|]. intros Hc Hl. destruct (chain_back X v v' o l) as [Hl' Hout]; [done..|].
    rewrite (find_verb_agree v); [by eapply He|]. intros x Hx. by apply Hag, Hout.
  - intros o e l. destruct (verb_invalidate o (mkSymbol "") None None X c) as [_ ->].
    case_decide as Ho; [done|]. intros Hc Hl. destruct (chain_back X v v' o l) as [Hl' Hout]; [done..|].
    destruct (Hf _ _ _ Hc Hl') as (p & l1 & l2 & -> & Heq & Hnone). exists p, l1, l2.
    split_and!; [done..|]. intros x Hx. rewrite Hag; [by apply Hnone|].
    apply Hout. rewrite Heq. apply elem_of_app. by left.
Qed.

Lemma props_outside X v v' c :
  lineage_outside X v v' → (∀ x, x ∉ X → propdefs v' !! x = propdefs v !! x) →
  props_coherent names v c → props_coherent names v' (PropResolutionCache.invalidate_objects X c).
Proof.
  intros HX Hag [He Hf]. split.
  - intros o n e l Hn Hu. destruct (Hnames n n) as [Hid _]; [done..|].
    destruct (prop_invalidate o n X c) as [-> _]; [done..|].
    case_decide as Ho; [done|]. intros Hc Hl. destruct (chain_back X v v' o l) as [Hl' Hout]; [done..|].
    rewrite (find_prop_agree v); [by eapply He|]. intros x Hx. by apply Hag, Hout.
  - intros o e l. rewrite prop_invalidate_first. case_decide as Ho; [done|]. intros Hc Hl.
    destruct (chain_back X v v' o l) as [Hl' Hout]; [done..|].
    destruct (Hf _ _ _ Hc Hl') as (p & l1 & l2 & -> & Heq & Hnone). exists p, l1, l2.
    split_and!; [done..|]. intros x n Hx. unfold prop_at. rewrite Hag; [by apply Hnone|].
    apply Hout. rewrite Heq. apply elem_of_app. by left.
Qed.

Lemma ancestry_outside X v v' c :
  lineage_outside X v v' →
  ancestry_coherent v c → ancestry_coherent v' (AncestryCache.invalidate_objects X c).
Proof.
  intros HX Hc o l. unfold AncestryCache.lookup. rewrite ancestry_invalidate.
  case_decide as Ho; [done|]. intros Hl%Hc. destruct HX as [Ha Hcl Hag].
  by destruct (chain_outside (parents v) (parents v') (λ x, x ∈ X) o l).
Qed.

(** ** Permissions *)

Lemma perms_of_agree v v' o u l :
  (∀ x, x ∈ o :: l → uuid_at v' u x = uuid_at v u x) → owners v' !! o = owners v !! o →
  propflags v' !! mkPropertyKey o u = propflags v !! mkPropertyKey o u →
  (∀ p, find_uuid v u (o :: l) = Some p →
     propflags v' !! mkPropertyKey (propdef_definer p) u =
     propflags v !! mkPropertyKey (propdef_definer p) u) →
  perms_of v' o u l = perms_of v o u l.
Proof.
  intros Hu Ho Hf Hd. unfold perms_of. rewrite Hf, Ho.
  assert (find_uuid v' u (o :: l) = find_uuid v u (o :: l)) as -> by (by apply first_some_ext).
  destruct (find_uuid v u (o :: l)) as [p|]; [|done]. by rewrite Hd.
Qed.

(** The definer is where the definition is. *)
Lemma find_uuid_definer v u l p :
  world_ok v → find_uuid v u l = Some p →
  propdef_definer p ∈ l ∧ uuid_at v u (propdef_definer p) = Some p.
Proof.
  intros Hw (x & Hx & Hp)%first_some_elem. unfold uuid_at in *.
  destruct (propdefs v !! x) as [d|] eqn:Hd; simpl in Hp; [|done].
  pose proof (find_some _ _ Hp) as [Hin%list_elem_of_In _].
  rewrite (wo_definer _ Hw _ _ _ Hd Hin). by rewrite Hd.
Qed.

Lemma memo_transport v v' m m' :
  (∀ o u p l, Memo.cached_perms (mkPropertyKey o u) m' = Some p → chain (parents v') o l →
     Memo.cached_perms (mkPropertyKey o u) m = Some p ∧ chain (parents v) o l ∧
     perms_of v' o u l = perms_of v o u l) →
  (∀ h, h ∈ Memo.known_propflags m' → h ∈ Memo.known_propflags m) →
  (∀ h, h ∈ Memo.known_propflags m' → is_Some (propflags v !! h) → is_Some (propflags v' !! h)) →
  memo_coherent v m → memo_coherent v' m'.
Proof.
  intros Hc Hk Hs [Hp Hf]. split; [|auto]. intros o u p l Hm Hl.
  destruct (Hc _ _ _ _ Hm Hl) as (Hm' & Hl' & ->). by apply Hp.
Qed.

Lemma memo_outside X v v' m m' :
  world_ok v → lineage_outside X v v' →
  (∀ x, x ∉ X → propdefs v' !! x = propdefs v !! x) →
  (∀ x, x ∉ X → owners v' !! x = owners v !! x) →
  (∀ h, pk_obj h ∉ X → propflags v' !! h = propflags v !! h) →
  (∀ o u p, Memo.cached_perms (mkPropertyKey o u) m' = Some p →
     o ∉ X ∧ Memo.cached_perms (mkPropertyKey o u) m = Some p) →
  (∀ h, h ∈ Memo.known_propflags m' → h ∈ Memo.known_propflags m) →
  (∀ h, h ∈ Memo.known_propflags m' → is_Some (propflags v !! h) → is_Some (propflags v' !! h)) →
  memo_coherent v m → memo_coherent v' m'.
Proof.
  intros Hw HX Hd Ho Hf Hc Hk Hs. apply memo_transport; [|done..]. intros o u p l Hm Hl.
  destruct (Hc _ _ _ Hm) as [HoX Hm']. destruct (chain_back X v v' o l) as [Hl' Hout]; [done..|].
  split_and!; [done..|]. apply perms_of_agree.
  - intros x Hx. unfold uuid_at. by rewrite Hd by (by apply Hout).
  - by apply Ho.
  - by apply Hf.
  - intros pd Hpd. apply Hf. cbn. apply Hout. by eapply find_uuid_definer.
Qed.

(** *** What invalidation leaves of the memo *)

Lemma cached_forget objects m o u p :
  Memo.cached_perms (mkPropertyKey o u) (forget_cached objects m) = Some p ↔
  o ∉ objects ∧ Memo.cached_perms (mkPropertyKey o u) m = Some p.
Proof.
  unfold forget_cached. revert m. induction objects as [|x objects IH]; intros m; simpl.
  { split; [|by intros [_ ?]]. intros ?. split; [apply not_elem_of_nil|done]. }
  rewrite IH, not_elem_of_cons. unfold Memo.cached_perms. simpl.
  rewrite map_lookup_filter_Some. simpl. naive_solver.
Qed.

Lemma known_forget_cached objects m :
  Memo.known_propflags (forget_cached objects m) = Memo.known_propflags m.
Proof. unfold forget_cached. revert m. induction objects as [|x objects IH]; intros m; [done|]. simpl. by rewrite IH. Qed.

Lemma cached_forget_known objects m :
  Memo.perms_by_holder (forget_known objects m) = Memo.perms_by_holder m.
Proof. unfold forget_known. revert m. induction objects as [|x objects IH]; intros m; [done|]. simpl. by rewrite IH. Qed.

Lemma known_forget objects m h :
  h ∈ Memo.known_propflags (forget_known objects m) ↔
  pk_obj h ∉ objects ∧ h ∈ Memo.known_propflags m.
Proof.
  unfold forget_known. revert m. induction objects as [|x objects IH]; intros m; simpl.
  { split; [|by intros [_ ?]]. intros ?. split; [apply not_elem_of_nil|done]. }
  rewrite IH, not_elem_of_cons. cbn [Memo.invalidate_known_for_obj Memo.known_propflags].
  rewrite elem_of_filter. naive_solver.
Qed.

Lemma cached_forget_property removed objects m o u p :
  Memo.cached_perms (mkPropertyKey o u) (fold_left (forget_property removed) objects m) = Some p ↔
  o ∉ objects ∧ Memo.cached_perms (mkPropertyKey o u) m = Some p.
Proof.
  rewrite <-cached_forget. unfold forget_cached, Memo.cached_perms.
  assert (∀ m m', Memo.perms_by_holder m = Memo.perms_by_holder m' →
    Memo.perms_by_holder (fold_left (forget_property removed) objects m) =
    Memo.perms_by_holder (fold_left (λ m object, Memo.invalidate_cached_for_obj object m) objects m'))
    as Heq; [|by rewrite (Heq m m)].
  induction objects as [|x objects IH]; intros m1 m2 Hm; [done|]. simpl. apply IH.
  destruct removed; simpl; by rewrite Hm.
Qed.

Lemma known_forget_property removed objects m h :
  h ∈ Memo.known_propflags (fold_left (forget_property removed) objects m) →
  h ∈ Memo.known_propflags m ∧
  match removed with Some u => pk_obj h ∉ objects ∨ pk_uuid h ≠ u | None => True end.
Proof.
  revert m. induction objects as [|x objects IH]; intros m; simpl.
  { destruct removed; [|done]. intros ?. split; [done|]. left. apply not_elem_of_nil. }
  intros [Hh Hr]%IH. destruct removed as [u|]; cbn in Hh; [|done].
  apply elem_of_difference in Hh as [Hh Hne]. split; [done|].
  destruct (decide (pk_uuid h = u)) as [He|]; [|by right]. left. destruct Hr as [Hr|]; [|done].
  apply not_elem_of_cons. split; [|done]. intros Hx. apply Hne, elem_of_singleton.
  destruct h as [o u']. by simplify_eq/=.
Qed.
End coherent.
