(* ===== verification/WsEdits.v ===== *)
(** Edits of the hierarchy and of verbs: the rows they write, and that they leave
    the world well formed and the caches coherent. *)
From S2P Require Import Prelude Obj TxTypes RelIndex RelTx RelTxSpec RelTxProofs Model.
From S2P Require Import Verbs Caches Relations CommitProofs Forest.
From S2P Require Import WsBase WsObjects WsVerbs WsProps WsSpec WsViews WsHierarchy WsResolve.
From S2P Require Import WsInherit WsCoherent.
From Stdlib Require Import FunctionalExtensionality.
From stdpp Require Import base gmap sets list strings fin_maps.

Open Scope Z_scope.
Open Scope ws_scope.
#[local] Opaque is_nothing WsSpec.wp.

Section edits.
Context `{Hashes} `{Payload} `{!Values} `{Interner}.
Context {P : DatabaseRelation → Type} `{∀ r, Provider (P r) (DomainOf r) (CodomainOf r)}.
Context (pms : ∀ r, gmap (DomainOf r) (Timestamp * CodomainOf r)).
Context (base : ∀ r, gmap (DomainOf r) (Entry (CodomainOf r))).
Context (fuel : nat).
Context (names : Symbol → Prop) (Hnames : ∀ n n', names n → names n' → interned n n').
Implicit Types a : astate.
Implicit Types v : Views.
#[local] Notation wp := (wp (P := P) pms base).
#[local] Notation rows_parents a := (parents (a_rows a)).

(** The rows with those of one relation replaced. *)
Definition put r (m : gmap (DomainOf r) (CodomainOf r)) v : Views :=
  dupd (P := λ r, gmap (DomainOf r) (CodomainOf r)) r m v.

Lemma put_same r v : put r (v r) v = v.
Proof. apply dupd_id. Qed.

Lemma put_twice r m m' v : put r m' (put r m v) = put r m' v.
Proof.
  apply functional_extensionality_dep. intros r'. unfold put.
  destruct (decide (r = r')) as [<-|Hne]; [by rewrite !dupd_eq|by rewrite !dupd_ne].
Qed.

(** The world is well formed, the caches agree with it and there is fuel for a
    walk through all of it. *)
Record steady a : Prop := {
  sd_world : world_ok (a_rows a);
  sd_coherent : a_coherent names a;
  sd_fuel : (size (rows_parents a) < fuel)%nat;
}.

(** What an edit has done: the rows, and how often the revision was counted. *)
Record settles a v (n : Z) a' : Prop := {
  se_rows : a_rows a' = v;
  se_revision : a_revision a' = a_revision a + n;
  se_sequences : a_sequences a' = a_sequences a;
  se_world : world_ok v;
  se_coherent : a_coherent names a';
}.

Lemma settles_refl a : steady a → settles a (a_rows a) 0 a.
Proof. intros [? ? ?]. split; [done|lia|done..]. Qed.

Lemma branch_steady obj Q a :
  steady a → is_nothing obj = false →
  (∀ l, (∀ x, x ∈ l ↔ below (rows_parents a) obj x) → Q (Ok l) a) →
  wp (branch_objects fuel obj) Q a.
Proof.
  intros [[Hac Hnn _ _ _ _] _ Hf] Ho. apply branch_wp; [done..|lia].
Qed.

(** A branch holds what inherits from its objects. *)
Lemma branch_downset m o (l : list Obj) :
  acyclic m → (∀ x, x ∈ l ↔ below m o x) → downset m l.
Proof. intros Ha Hl x y Hu Hy%Hl. apply Hl. by eapply closed_below. Qed.

Lemma branch_self m o (l : list Obj) x : (∀ x, x ∈ l ↔ below m o x) → x ∉ l → x ≠ o.
Proof. intros Hl Hx ->. apply Hx, Hl. by left. Qed.

(** *** Frames *)

(** Rows no cache depends on. *)
Definition cached_relation (r : DatabaseRelation) : bool :=
  match r with
  | ObjectParent | ObjectVerbdefs | ObjectPropdefs | ObjectPropflags | ObjectOwner => true
  | _ => false
  end.

Lemma frame_world r m v : cached_relation r = false → world_ok v → world_ok (put r m v).
Proof. intros Hr Hw. destruct Hw; destruct r; try discriminate; by split. Qed.

Lemma frame_coherent r m v c mm :
  cached_relation r = false → acyclic (parents v) → coherent names v c mm →
  coherent names (put r m v) c mm.
Proof.
  intros Hr Ha [Hv Hp Hac Hm].
  assert (parents (put r m v) = parents v) as Hpar by (by destruct r).
  assert (verbdefs (put r m v) = verbdefs v) as Hvd by (by destruct r).
  assert (propdefs (put r m v) = propdefs v) as Hpd by (by destruct r).
  assert (propflags (put r m v) = propflags v) as Hpf by (by destruct r).
  assert (owners (put r m v) = owners v) as How by (by destruct r).
  pose proof (lineage_same v (put r m v) Ha Hpar) as HX. split.
  - apply (verbs_outside names [] v); [done| |done]. by rewrite Hvd.
  - apply (props_outside names Hnames [] v); [done| |done]. by rewrite Hpd.
  - by apply (ancestry_outside [] v).
  - apply (memo_transport v _ mm); [|done| |done]; [|by rewrite Hpf].
    intros o u p l Hc Hl. rewrite Hpar in Hl. split_and!; [done..|].
    apply perms_of_agree; unfold uuid_at; intros; by rewrite ?Hpd, ?Hpf, ?How.
Qed.

(** Drops such writes from the rows; [Hw] says that the rest is well formed. *)
#[local] Ltac frames Hw :=
  repeat first [apply frame_world; [reflexivity|]
               |apply frame_coherent; [reflexivity|exact (wo_parents _ Hw)|]]; try exact Hw.

(** A write to such a relation. *)
Lemma settles_frame r m a :
  cached_relation r = false → steady a → settles a (put r m (a_rows a)) 0 (set_rows r m a).
Proof.
  intros Hr [Hw Hc _]. split; [done|simpl; lia|done|by apply frame_world|].
  apply frame_coherent; [done|apply Hw|done].
Qed.

(** ** The hierarchy *)

Lemma hierarchy_coherent l v v' c m m' :
  world_ok v → lineage_outside l v v' →
  (∀ x, x ∉ l → verbdefs v' !! x = verbdefs v !! x) →
  (∀ x, x ∉ l → propdefs v' !! x = propdefs v !! x) →
  (∀ x, x ∉ l → owners v' !! x = owners v !! x) →
  (∀ h, pk_obj h ∉ l → propflags v' !! h = propflags v !! h) →
  Memo.perms_by_holder m' = Memo.perms_by_holder (forget_cached l m) →
  (∀ h, h ∈ Memo.known_propflags m' → h ∈ Memo.known_propflags m) →
  (∀ h, h ∈ Memo.known_propflags m' → is_Some (propflags v !! h) → is_Some (propflags v' !! h)) →
  coherent names v c m → coherent names v' (hierarchy_caches l c) m'.
Proof.
  intros Hw HX Hv Hp Ho Hf Hm' Hk Hs [Hvc Hpc Hac Hmc]. split.
  - by apply (verbs_outside names l v).
  - by apply (props_outside names Hnames l v).
  - by apply (ancestry_outside l v).
  - apply (memo_outside l v v' m m'); try done. intros o u p Hc.
    apply cached_forget. unfold Memo.cached_perms in *. by rewrite <-Hm'.
Qed.

Lemma world_parent o p v :
  world_ok v → is_nothing o = false → (is_nothing p = false → ~ below (parents v) o p) →
  world_ok (put ObjectParent (<[o := p]> (parents v)) v).
Proof.
  intros [Ha Hnn Hd Hv Hcan Hu] Ho Hp. split; [by apply acyclic_insert| |done..].
  intros x. change (parents (put ObjectParent _ v)) with (<[o := p]> (parents v)).
  destruct (decide (x = o)) as [->|]; [done|]. rewrite lookup_insert_ne by done. apply Hnn.
Qed.

Lemma set_object_parent_wp o p Q a :
  steady a → is_nothing o = false → (is_nothing p = false → ~ below (rows_parents a) o p) →
  (∀ a', settles a (put ObjectParent (<[o := p]> (rows_parents a)) (a_rows a)) 0 a' → Q (Ok tt) a') →
  wp (set_object_parent fuel o p) Q a.
Proof.
  intros Hs Ho Hp HQ. unfold set_object_parent. apply wp_bind.
  apply (wp_get_is pms base ObjectParent o _ (rows_parents a !! o)); [done|].
  case_bool_decide as Hcur.
  { apply wp_ret, HQ. rewrite insert_id by exact Hcur.
    change (rows_parents a) with (a_rows a ObjectParent). rewrite put_same. by apply settles_refl. }
  apply wp_bind, branch_steady; [done..|]. intros l Hl. pose proof Hs as [Hw Hc _].
  apply wp_edit; [done|]. apply wp_upsert. apply HQ.
  split; [done|simpl; lia|done|by apply world_parent|].
  apply (hierarchy_coherent l (a_rows a) _ (a_caches a) (a_memo a)); try done.
  - split; [apply Hw|by eapply branch_downset; [apply Hw|]|].
    intros x Hx. change (<[o := p]> (rows_parents a) !! x = rows_parents a !! x).
    rewrite lookup_insert_ne; [done|]. by apply not_eq_sym, (branch_self _ _ _ _ Hl).
  - intros h. cbn [after_edit with_a_memo a_memo invalidate_memo]. by rewrite known_forget_cached.
Qed.

(** ** Verbs *)

(** The world with other verbs on one object. *)
Lemma world_verbs o d v :
  world_ok v → (∀ b, b ∈ contents d → verbdef_location b = o) →
  NoDup (map verbdef_uuid (contents d)) →
  world_ok (put ObjectVerbdefs (<[o := d]> (verbdefs v)) v).
Proof.
  intros [Ha Hnn Hd Hv Hcan Hu] Hloc Hnd. split; [done..| |done|].
  - intros o' d' b. change (verbdefs (put ObjectVerbdefs _ v)) with (<[o := d]> (verbdefs v)).
    rewrite lookup_insert_Some. intros [[<- <-]|[_ Hl]]; [auto|by eapply Hv].
  - intros o' d'. change (verbdefs (put ObjectVerbdefs _ v)) with (<[o := d]> (verbdefs v)).
    rewrite lookup_insert_Some. intros [[<- <-]|[_ Hl]]; [done|by eapply Hu].
Qed.

(** And the caches, when those of the object's branch have been invalidated. *)
Lemma verbs_edited o d l v c m :
  world_ok v → (∀ x, x ∈ l ↔ below (parents v) o x) → coherent names v c m →
  coherent names (put ObjectVerbdefs (<[o := d]> (verbdefs v)) v) (verb_caches l c) m.
Proof.
  intros Hw Hl [Hvc Hpc Hac Hmc].
  set (v' := put ObjectVerbdefs (<[o := d]> (verbdefs v)) v).
  assert (lineage_outside l v v') as HX.
  { split; [apply Hw|by eapply branch_downset; [apply Hw|]|done]. }
  split; [|by destruct Hpc|exact Hac|by destruct Hmc].
  - apply (verbs_outside names l v); [done| |done]. intros x Hx.
    change (<[o := d]> (verbdefs v) !! x = verbdefs v !! x). rewrite lookup_insert_ne; [done|].
    by apply not_eq_sym, (branch_self _ _ _ _ Hl).
Qed.

Lemma set_rows_twice r m m' a : set_rows r m' (set_rows r m a) = set_rows r m' a.
Proof.
  unfold set_rows. simpl. f_equal. apply functional_extensionality_dep. intros r'.
  destruct (decide (r = r')) as [<-|Hne]; [by rewrite !dupd_eq|by rewrite !dupd_ne].
Qed.

Lemma set_rows_comm r r' m m' a :
  r ≠ r' → set_rows r m (set_rows r' m' a) = set_rows r' m' (set_rows r m a).
Proof.
  intros Hne. unfold set_rows. simpl. f_equal. apply functional_extensionality_dep. intros r2.
  destruct (decide (r = r2)) as [<-|Hne1]; [|destruct (decide (r' = r2)) as [<-|Hne2]].
  - rewrite dupd_eq, dupd_ne by done. by rewrite dupd_eq.
  - rewrite dupd_eq, dupd_ne by done. by rewrite dupd_eq.
  - by rewrite !dupd_ne.
Qed.

Lemma for_each_delete_wp r (keys : list (DomainOf r)) msg Q a :
  Q (Ok tt) (set_rows r (foldl (λ m k, delete k m) (a_rows a r) keys) a) →
  wp (for_each keys (λ k, r_delete r k msg)) Q a.
Proof.
  revert a. induction keys as [|k keys IH]; intros a HQ; simpl in *.
  - apply wp_ret. by rewrite set_rows_same in HQ.
  - apply wp_bind, wp_delete. apply IH. by rewrite set_rows_twice, set_rows_eq.
Qed.

Lemma lookup_delete_all {K A} `{Countable K} (keys : list K) (m : gmap K A) k :
  foldl (λ m k, delete k m) m keys !! k = if decide (k ∈ keys) then None else m !! k.
Proof.
  revert m. induction keys as [|x keys IH]; intros m; [done|]. cbn [foldl].
  rewrite IH. destruct (decide (k ∈ keys)) as [Hk|Hk].
  - by rewrite decide_True by (by constructor).
  - destruct (decide (x = k)) as [->|Hne].
    + by rewrite lookup_delete_eq, decide_True by constructor.
    + rewrite lookup_delete_ne by done. rewrite decide_False; [done|].
      by apply not_elem_of_cons.
Qed.

(** The metadata whose key fails the predicate. *)
Definition metadata_without (f : EntityMetadataKey → bool) v : gmap EntityMetadataKey Var :=
  filter (λ x, f x.1 = false) (metadata v).

Lemma delete_metadata_wp f Q a :
  Q (Ok tt) (set_rows EntityMetadata (metadata_without f (a_rows a)) a) →
  wp (delete_metadata_where f) Q a.
Proof.
  intros HQ. unfold delete_metadata_where. apply wp_bind, (wp_scan_keys pms base EntityMetadata f).
  apply (for_each_delete_wp EntityMetadata). replace (foldl _ _ _) with (metadata_without f (a_rows a));
    [done|]. apply map_eq. intros k. rewrite lookup_delete_all. unfold metadata_without.
  assert (∀ k, k ∈ map fst (map_to_list (filter (λ x, f x.1 = true) (metadata (a_rows a)))) ↔
    is_Some (metadata (a_rows a) !! k) ∧ f k = true) as Hin.
  { intros k'. rewrite list_elem_of_fmap. split.
    - intros ([k2 x] & -> & [Hk Hf]%elem_of_map_to_list%map_lookup_filter_Some). by split; [exists x|].
    - intros [[x Hx] Hf]. exists (k', x). split; [done|].
      apply elem_of_map_to_list, map_lookup_filter_Some. done. }
  case_decide as Hk.
  - apply Hin in Hk as [_ Hf]. apply map_lookup_filter_None. right. intros x _. by simpl; rewrite Hf.
  - change (a_rows a EntityMetadata !! k) with (metadata (a_rows a) !! k).
    destruct (metadata (a_rows a) !! k) as [x|] eqn:Hx.
    + apply map_lookup_filter_Some. split; [done|]. simpl. destruct (f k) eqn:Hf; [|done].
      exfalso. apply Hk, Hin. by rewrite Hx.
    + apply map_lookup_filter_None. by left.
Qed.

Definition verb_programs v : gmap VerbKey ProgramType := v ObjectVerbs.
Definition own_verbs v o : VerbDefs := default DefsOps.empty (verbdefs v !! o).
Definition edit_verbs o d v : Views := put ObjectVerbdefs (<[o := d]> (verbdefs v)) v.

Lemma own_verbs_location v o b : world_ok v → b ∈ contents (own_verbs v o) → verbdef_location b = o.
Proof.
  intros Hw. unfold own_verbs. destruct (verbdefs v !! o) as [d|] eqn:Hd; simpl.
  - by apply (wo_verb _ Hw).
  - by intros ?%elem_of_nil.
Qed.
Lemma own_verbs_nodup v o : world_ok v → NoDup (map verbdef_uuid (contents (own_verbs v o))).
Proof.
  intros Hw. unfold own_verbs. destruct (verbdefs v !! o) as [d|] eqn:Hd; simpl.
  - by apply (wo_uuid _ Hw o).
  - apply NoDup_nil_2.
Qed.

Lemma get_verbs_wp o Q a : Q (Ok (own_verbs (a_rows a) o)) a → wp (get_verbs o) Q a.
Proof. intros HQ. apply wp_bind, wp_get, wp_ret. exact HQ. Qed.

Lemma add_object_verb_wp uuid o owner vnames program flags args Q a :
  steady a → is_nothing o = false → a_revision a < u64_max →
  uuid ∉ map verbdef_uuid (contents (own_verbs (a_rows a) o)) →
  (∀ a', settles a
     (put ObjectVerbs (<[mkVerbKey o uuid := program]> (verb_programs (a_rows a)))
        (edit_verbs o (DefsOps.with_added (VerbDefOps.new uuid o owner vnames flags args)
           (own_verbs (a_rows a) o)) (a_rows a))) 1 a' → Q (Ok tt) a') →
  wp (add_object_verb fuel uuid o owner vnames program flags args) Q a.
Proof.
  intros Hs Ho Hrev Hu HQ. unfold add_object_verb. apply wp_bind, get_verbs_wp.
  set (d := DefsOps.with_added _ _). pose proof Hs as [Hw Hc _].
  apply wp_bind, branch_steady; [done..|]. intros l Hl.
  apply wp_edit; [done|]. apply wp_bind, (wp_upsert pms base ObjectVerbdefs o d).
  apply (wp_upsert pms base ObjectVerbs). apply HQ.
  assert (world_ok (edit_verbs o d (a_rows a))) as Hw'.
  { apply world_verbs; [done|..]; unfold d, DefsOps.with_added; cbn [contents].
    - intros b [Hb| ->%list_elem_of_singleton]%elem_of_app; [by eapply own_verbs_location|done].
    - rewrite map_app. apply NoDup_app. split_and!; [by apply own_verbs_nodup| |apply NoDup_singleton].
      by intros x Hx ->%list_elem_of_singleton. }
  split; [done..|by frames Hw'|]. frames Hw'. by apply verbs_edited.
Qed.

Lemma filter_sub_nodup {A} (f : A → bool) (g : A → Uuid) (l : list A) :
  NoDup (map g l) → NoDup (map g (List.filter f l)).
Proof.
  induction l as [|x l IH]; simpl; [done|]. intros [Hx Hn]%NoDup_cons.
  destruct (f x); [|by apply IH]. simpl. constructor; [|by apply IH].
  intros (y & Hgy & Hy)%list_elem_of_fmap. apply Hx. apply list_elem_of_fmap. exists y. split; [done|].
  apply list_elem_of_In, filter_In in Hy as [Hy _]. by apply list_elem_of_In.
Qed.

Definition verbs_without uuid (d : VerbDefs) : VerbDefs :=
  mkDefs (List.filter (λ b, negb (bool_decide (verbdef_uuid b = uuid))) (contents d)).

Lemma delete_verb_wp o uuid Q a :
  steady a → is_nothing o = false → a_revision a < u64_max →
  (∀ a', settles a
     (put EntityMetadata (metadata_without (MetadataKey.is_verb_key_for o uuid) (a_rows a))
        (put ObjectVerbs (delete (mkVerbKey o uuid) (verb_programs (a_rows a)))
           (edit_verbs o (verbs_without uuid (own_verbs (a_rows a) o)) (a_rows a)))) 1 a' →
     Q (Ok tt) a') →
  wp (delete_verb fuel o uuid) Q a.
Proof.
  intros Hs Ho Hrev HQ. unfold delete_verb. apply wp_bind, get_verbs_wp.
  cbn [DefsOps.with_removed]. pose proof Hs as [Hw Hc _].
  set (d := mkDefs _). apply wp_bind, branch_steady; [done..|]. intros l Hl.
  apply wp_edit; [done|]. apply wp_bind, (wp_upsert pms base ObjectVerbdefs o d).
  apply wp_bind, (wp_delete pms base ObjectVerbs). apply delete_metadata_wp. apply HQ.
  assert (world_ok (edit_verbs o d (a_rows a))) as Hw'.
  { apply world_verbs; [done|..]; unfold d; cbn [contents].
    - intros b Hb%list_elem_of_In. apply filter_In in Hb as [Hb%list_elem_of_In _].
      by eapply own_verbs_location.
    - by apply filter_sub_nodup, own_verbs_nodup. }
  split; [done..|by frames Hw'|]. frames Hw'. by apply verbs_edited.
Qed.

Definition verbs_updated uuid (f : VerbDef → VerbDef) (d : VerbDefs) : VerbDefs :=
  mkDefs (map (λ b, if bool_decide (verbdef_uuid b = uuid) then f b else b) (contents d)).
Definition put_program o uuid (program : option ProgramType) v : Views :=
  match program with
  | Some x => put ObjectVerbs (<[mkVerbKey o uuid := x]> (verb_programs v)) v
  | None => v
  end.

Lemma elem_of_uuid {A} `{HasUuid A} uuid (l : list A) :
  existsb (λ p, bool_decide (def_uuid p = uuid)) l = true ↔ uuid ∈ map def_uuid l.
Proof.
  rewrite existsb_exists, list_elem_of_fmap. split.
  - intros (x & Hx%list_elem_of_In & <-%bool_decide_eq_true). by exists x.
  - intros (x & -> & Hx%list_elem_of_In). exists x. by rewrite bool_decide_eq_true.
Qed.

Lemma find_uuid_elem {A} `{HasUuid A} uuid (l : list A) :
  uuid ∈ map def_uuid l → is_Some (List.find (λ p, bool_decide (def_uuid p = uuid)) l).
Proof.
  intros Hu. apply elem_of_uuid, existsb_exists in Hu as (x & Hx & Hb).
  destruct (List.find _ _) as [y|] eqn:Hf; [done|]. eapply List.find_none in Hf; [|done].
  by rewrite Hf in Hb.
Qed.

Lemma world_update_verb o uuid attrs v :
  world_ok v → world_ok (edit_verbs o (verbs_updated uuid (updated_verb attrs) (own_verbs v o)) v).
Proof.
  intros Hw. apply world_verbs; [done|..]; cbn [contents verbs_updated].
  - intros b (b' & -> & Hb)%list_elem_of_fmap. pose proof (own_verbs_location v o b' Hw Hb).
    by case_bool_decide.
  - rewrite map_map. erewrite map_ext; [by apply own_verbs_nodup|]. intros b. by case_bool_decide.
Qed.

Lemma verbs_touched l v c m :
  world_ok v → downset (parents v) l → coherent names v c m → coherent names v (verb_caches l c) m.
Proof.
  intros Hw Hl [Hvc Hpc Hac Hmc]. split; [|done..]. apply (verbs_outside names l v); [|done..].
  split; [apply Hw|done|done].
Qed.

Lemma update_verb_wp o uuid attrs Q a :
  steady a → is_nothing o = false → a_revision a < u64_max →
  (uuid ∈ map verbdef_uuid (contents (own_verbs (a_rows a) o)) →
   ∀ a', settles a (put_program o uuid (va_program attrs) (edit_verbs o
     (verbs_updated uuid (updated_verb attrs) (own_verbs (a_rows a) o)) (a_rows a))) 1 a' →
   Q (Ok tt) a') →
  (uuid ∉ map verbdef_uuid (contents (own_verbs (a_rows a) o)) →
   ∀ a', settles a (a_rows a) 1 a' → Q (Err (WsErr (VerbNotFound o (PUuid uuid)))) a') →
  wp (update_verb fuel o uuid attrs) Q a.
Proof.
  intros Hs Ho Hrev HQ HQ'. unfold update_verb. pose proof Hs as [Hw Hc _].
  apply wp_bind, branch_steady; [done..|]. intros l Hl. apply wp_edit; [done|].
  assert (settles a (a_rows a) 1 (after_edit (ScopeVerbs l) (before_edit (ScopeVerbs l) a))) as Hno.
  { split; [done..|]. apply verbs_touched; [done| |done]. by eapply branch_downset; [apply Hw|]. }
  pose proof (world_update_verb o uuid attrs _ Hw) as Hw'. unfold own_verbs in *.
  apply wp_bind, (wp_update_with_is pms base ObjectVerbdefs o _ _ (verbdefs (a_rows a) !! o)); [done|].
  destruct (verbdefs (a_rows a) !! o) as [d|]; cbn [mbind option_bind default from_option] in *.
  2:{ apply wp_fail. rewrite set_rows_same. apply HQ'; [apply not_elem_of_nil|done]. }
  unfold DefsOps.with_updated. destruct (existsb _ _) eqn:Hex.
  - apply elem_of_uuid in Hex. destruct (find_uuid_elem _ _ Hex) as [b Hb].
    unfold DefsOps.find. rewrite Hb. specialize (HQ Hex).
    destruct (va_program attrs) as [x|]; cbn [put_program] in HQ.
    + apply (wp_upsert pms base ObjectVerbs). apply HQ. split; [done..|by frames Hw'|]. frames Hw'.
      by apply verbs_edited.
    + apply wp_ret, HQ. split; [done..|]. by apply verbs_edited.
  - assert (uuid ∉ map verbdef_uuid (contents d)) as Hn.
    { intros Hin. pose proof (proj2 (elem_of_uuid uuid (contents d)) Hin) as Hin'. by rewrite Hex in Hin'. }
    destruct (DefsOps.find uuid d) as [b|] eqn:Hb.
    + exfalso. apply Hn. apply find_some in Hb as [Hb <-%bool_decide_eq_true].
      apply list_elem_of_fmap. exists b. split; [done|by apply list_elem_of_In].
    + apply wp_fail. rewrite set_rows_same. by apply HQ'.
Qed.
End edits.
