(* ===== verification/WsPropEdits.v ===== *)
(** Edits of properties, their permissions and owners: the rows they write, and
    that they leave the world well formed and the caches coherent. *)
From S2P Require Import Prelude Obj TxTypes RelIndex RelTx RelTxSpec RelTxProofs Model.
From S2P Require Import Verbs Caches Relations CommitProofs Forest.
From S2P Require Import WsBase WsObjects WsVerbs WsProps WsSpec WsViews WsHierarchy WsResolve.
From S2P Require Import WsInherit WsCoherent WsEdits.
From stdpp Require Import base gmap sets list strings fin_maps.

Open Scope Z_scope.
Open Scope ws_scope.
#[local] Opaque is_nothing WsSpec.wp.

Section edits.
Context `{Hashes} `{Payload} `{!Values} `{Interner}.
Context {P : DatabaseRelation → Type} `{∀ r, Provider (P r) (DomainOf r) (CodomainOf r)}.
Context (pms : ∀ r, gmap (DomainOf r) (Timestamp * CodomainOf r)).
Context (base : ∀ r, gmap (DomainOf r) (Entry (CodomainOf r))).
Context (fuel : nat).
Context (names : Symbol → Prop) (Hnames : ∀ n n', names n → names n' → interned n n').
Implicit Types a : astate.
Implicit Types v : Views.
#[local] Notation wp := (wp (P := P) pms base).
#[local] Notation rows_parents a := (parents (a_rows a)).
#[local] Notation steady := (steady fuel names).
#[local] Notation settles := (settles names).

Lemma settles_trans a v n a1 v' n' a2 :
  settles a v n a1 → settles a1 v' n' a2 → settles a v' (n + n') a2.
Proof. intros [? ? ? ? ?] [? ? ? ? ?]. split; [done|lia|congruence|done..]. Qed.

Lemma refreshes_settles a a' : steady a → refreshes names a a' → settles a (a_rows a) 0 a'.
Proof. intros [Hw _ _] [? ? ? ? ? ?]. split; [done|lia|done..]. Qed.

(** A settled state is steady when the hierarchy has not grown. *)
Lemma settles_steady a v n a' :
  settles a v n a' → steady a → (size (parents v) ≤ size (rows_parents a))%nat → steady a'.
Proof. intros [Hr _ _ Hw Hc] [_ _ Hf] Hsz. split; [by rewrite Hr|done|]. rewrite Hr. lia. Qed.

Lemma steady_fuel a o l : steady a → chain (rows_parents a) o l → (length l < fuel)%nat.
Proof. intros [_ _ Hf] Hl. pose proof (chain_length _ _ _ Hl). lia. Qed.

(** ** Permissions of one holder *)

(** Local permissions of a property the object does not itself define touch no
    other object's permissions. *)
Lemma holder_perms_agree v v' o u o' u' l :
  world_ok v → parents v' = parents v → propdefs v' = propdefs v → owners v' = owners v →
  uuid_at v u o = None → (∀ h, h ≠ mkPropertyKey o u → propflags v' !! h = propflags v !! h) →
  mkPropertyKey o' u' ≠ mkPropertyKey o u →
  perms_of v' o' u' l = perms_of v o' u' l.
Proof.
  intros Hw Hp Hd Ho Hu Hf Hne. apply perms_of_agree; [|by rewrite Ho|by apply Hf|].
  - intros x Hx. unfold uuid_at. by rewrite Hd.
  - intros p Hfind. apply Hf. intros [= Hdef ->].
    destruct (find_uuid_definer v u _ _ Hw Hfind) as [_ Hat]. rewrite Hdef in Hat. by rewrite Hu in Hat.
Qed.

Definition edit_flags o u (p : PropPerms) v : Views :=
  put ObjectPropflags (<[mkPropertyKey o u := p]> (propflags v)) v.

Lemma world_flags o u p v : world_ok v → world_ok (edit_flags o u p v).
Proof.
  intros [? ? ? ? Hcan ?]. split; [done..| |done]. intros o' d b Hd Hb.
  change (propflags (edit_flags o u p v)) with (<[mkPropertyKey o u := p]> (propflags v)).
  apply lookup_insert_is_Some'. right. by eapply Hcan.
Qed.

Lemma permissions_edited o u p v c m :
  world_ok v → uuid_at v u o = None → coherent names v c m →
  coherent names (edit_flags o u p v) c (Memo.mark_known_propflags (mkPropertyKey o u)
    (Memo.invalidate_cached_for_holder (mkPropertyKey o u) m)).
Proof.
  intros Hw Hu [Hvc Hpc Hac Hmc].
  split; [by destruct Hvc|by destruct Hpc|exact Hac|]. split.
  - intros o' u' p' l. unfold Memo.cached_perms.
    cbn [Memo.mark_known_propflags Memo.invalidate_cached_for_holder Memo.perms_by_holder].
    rewrite lookup_delete_Some. intros [Hne Hm] Hl.
    rewrite (holder_perms_agree v _ o u); [by apply Hmc|done..| |congruence].
    intros h Hh. change (<[mkPropertyKey o u := p]> (propflags v) !! h = propflags v !! h).
    by rewrite lookup_insert_ne.
  - intros h. cbn [Memo.mark_known_propflags Memo.invalidate_cached_for_holder Memo.known_propflags].
    change (propflags (edit_flags o u p v)) with (<[mkPropertyKey o u := p]> (propflags v)).
    intros [->%elem_of_singleton|Hh]%elem_of_union; [by rewrite lookup_insert_eq|].
    destruct (decide (mkPropertyKey o u = h)) as [<-|Hne]; [by rewrite lookup_insert_eq|].
    rewrite lookup_insert_ne by done. by apply Hmc.
Qed.

Lemma known_coherent h v c m :
  is_Some (propflags v !! h) → coherent names v c m →
  coherent names v c (Memo.mark_known_propflags h m).
Proof.
  intros Hh [Hvc Hpc Hac [Hp Hk]]. split; [done..|]. split; [done|].
  intros h'. cbn [Memo.mark_known_propflags Memo.known_propflags].
  intros [->%elem_of_singleton|Hh']%elem_of_union; auto.
Qed.

(** Permissions that come from above: the object does not define the property. *)
Lemma inherited_perms v o u l p :
  world_ok v → propflags v !! mkPropertyKey o u = None → perms_of v o u l = Ok p →
  uuid_at v u o = None ∧ is_Some (find_uuid v u (o :: l)).
Proof.
  intros Hw Hf. unfold perms_of. rewrite Hf.
  destruct (find_uuid v u (o :: l)) as [pd|] eqn:Hfind; [|done].
  destruct (propflags v !! mkPropertyKey (propdef_definer pd) u) eqn:Hc; [|done]. intros _.
  split; [|done]. destruct (uuid_at v u o) as [p'|] eqn:Hat; [|done]. exfalso.
  unfold find_uuid in Hfind. cbn [first_some] in Hfind. rewrite Hat in Hfind. injection Hfind as ->.
  assert (find_uuid v u [o] = Some pd) as Hfind' by (unfold find_uuid; simpl; by rewrite Hat).
  destruct (find_uuid_definer v u _ _ Hw Hfind') as [Hd%list_elem_of_singleton _].
  rewrite Hd in Hc. by rewrite Hf in Hc.
Qed.

(** The reads noted for the conflict policy. *)
Lemma wp_modify_reads (f g : ws P → _) (f' g' : astate → _) Q a :
  (∀ s, f s = f' (abs pms s)) → (∀ s, g s = g' (abs pms s)) →
  Q (Ok tt) (mkA (a_rows a) (a_caches a) (a_memo a) (a_revision a) (a_sequences a) (f' a) (g' a)) →
  wp (modify (λ s, set_reads (f s) (g s) s)) Q a.
Proof.
  with_strategy transparent [WsSpec.wp] (intros Hf Hg HQ s Hs <-).
  split; [done|]. cbn. rewrite Hf, Hg. exact HQ.
Qed.

Lemma settles_reads a v n a' own pol :
  settles a v n a' →
  settles a v n (mkA (a_rows a') (a_caches a') (a_memo a') (a_revision a') (a_sequences a') own pol).
Proof. intros [? ? ? ? ?]. by split. Qed.

Lemma note_policy_wp key Q a :
  steady a → (∀ a', settles a (a_rows a) 0 a' → Q (Ok tt) a') → wp (note_policy_read key) Q a.
Proof.
  intros Hs HQ. apply (wp_modify_reads _ _ a_owners (λ a, {[key]} ∪ a_policies a)); [done..|].
  by apply HQ, settles_reads, (settles_refl fuel).
Qed.

Lemma note_owner_wp objects Q a :
  steady a → (∀ a', settles a (a_rows a) 0 a' → Q (Ok tt) a') → wp (note_owner_reads objects) Q a.
Proof.
  intros Hs HQ.
  apply (wp_modify_reads _ _ (λ a, list_to_set objects ∪ a_owners a) a_policies); [done..|].
  by apply HQ, settles_reads, (settles_refl fuel).
Qed.

(** A step that keeps the rows leaves a steady state. *)
Lemma quiet_steady a a' : settles a (a_rows a) 0 a' → steady a → steady a'.
Proof. intros Hs Ha. by eapply settles_steady. Qed.

Lemma record_policy_wp o u l Q a :
  steady a → chain (rows_parents a) o l →
  (∀ a', settles a (a_rows a) 0 a' →
     Q (match propflags (a_rows a) !! mkPropertyKey o u with
        | Some _ => Ok tt
        | None => map_ok (λ _, tt) (uuid_answer (a_rows a) u o l)
        end) a') →
  wp (record_inherited_policy_dependency fuel o u) Q a.
Proof.
  intros Hs Hl HQ. unfold record_inherited_policy_dependency. apply wp_bind.
  apply (wp_has_is pms base ObjectPropflags _ _
    (bool_decide (is_Some (propflags (a_rows a) !! mkPropertyKey o u)))).
  { by apply bool_decide_ext. }
  destruct (propflags (a_rows a) !! mkPropertyKey o u) as [p|] eqn:Hf.
  { rewrite bool_decide_eq_true_2 by done. apply wp_ret, HQ. by apply (settles_refl fuel). }
  rewrite bool_decide_eq_false_2 by (intros []; done).
  pose proof (steady_fuel a o l Hs Hl) as Hlen.
  apply wp_bind. eapply find_property_by_uuid_wp; [apply Hs|done..|]. intros a1 Hr1.
  apply (refreshes_settles _ _ Hs) in Hr1. specialize (HQ a1 Hr1) as HQ1.
  destruct (uuid_answer (a_rows a) u o l) as [pd|e]; cbn [map_ok] in *; [|done].
  apply note_policy_wp; [by eapply quiet_steady|]. intros a2 Hr2. apply HQ.
  pose proof (settles_trans _ _ _ _ _ _ _ Hr1 Hr2) as Hr. by rewrite (se_rows _ _ _ _ _ Hr1) in Hr.
Qed.

(** ** Values *)

Definition edit_value o u (x : Var) v : Views :=
  put ObjectPropvalues (<[mkPropertyKey o u := x]> (propvalues v)) v.

(** The first value set on an object that inherits the property fixes the
    permissions it has then. *)
Definition fix_perms o u l v : Views * result unit fault :=
  match propflags v !! mkPropertyKey o u with
  | Some _ => (v, Ok tt)
  | None =>
      match perms_of v o u l with
      | Ok p => (edit_flags o u p v, Ok tt)
      | Err e => (v, Err e)
      end
  end.

Lemma settles_memo a v n a' m :
  settles a v n a' → coherent names v (a_caches a') m →
  settles a v n (with_a_memo m a').
Proof. intros [Hr ? ? ? ?] Hc. split; [done..|]. unfold a_coherent. simpl. by rewrite Hr. Qed.

Lemma fix_perms_wp o u l Q a :
  steady a → chain (rows_parents a) o l →
  (∀ a', settles a (fix_perms o u l (a_rows a)).1 0 a' → Q (fix_perms o u l (a_rows a)).2 a') →
  wp (let* has := r_has ObjectPropflags (mkPropertyKey o u) "Error checking property flags" in
      (if (has : bool) then ret tt
       else
         let* inherited_perms := retrieve_property_permissions fuel o u in
         record_inherited_policy_dependency fuel o u ;;
         edit (ScopePermissions (mkPropertyKey o u))
           (r_upsert ObjectPropflags (mkPropertyKey o u) inherited_perms
              "Error setting property flags")) ;;
      modify_memo (Memo.mark_known_propflags (mkPropertyKey o u))) Q a.
Proof.
  intros Hs Hl HQ. pose proof Hs as [Hw Hc _].
  apply wp_bind, (wp_has_is pms base ObjectPropflags _ _
    (bool_decide (is_Some (propflags (a_rows a) !! mkPropertyKey o u)))).
  { by apply bool_decide_ext. }
  unfold fix_perms in HQ. destruct (propflags (a_rows a) !! mkPropertyKey o u) as [p|] eqn:Hf.
  { rewrite bool_decide_eq_true_2 by done. apply wp_bind, wp_ret, wp_modify_memo, HQ. cbn [fst].
    apply settles_memo; [by apply (settles_refl fuel)|]. apply known_coherent; [by rewrite Hf|done]. }
  rewrite bool_decide_eq_false_2 by (intros []; done). apply wp_bind, wp_bind.
  pose proof (steady_fuel a o l Hs Hl) as Hlen.
  eapply retrieve_property_permissions_wp; [done..|]. intros a1 Hr1.
  apply (refreshes_settles _ _ Hs) in Hr1.
  destruct (perms_of (a_rows a) o u l) as [p|e] eqn:Hp; [|by apply HQ].
  destruct (inherited_perms _ _ _ _ _ Hw Hf Hp) as [Hat Hfind].
  pose proof (se_rows _ _ _ _ _ Hr1) as Hrows.
  apply wp_bind, (record_policy_wp o u l); [by eapply quiet_steady|by rewrite Hrows|].
  intros a2 Hr2. rewrite Hrows, Hf in *. unfold uuid_answer.
  destruct (find_uuid _ _ _) as [pd|]; [|by destruct Hfind]. cbn [map_ok].
  apply wp_edit; [done|]. apply (wp_upsert pms base ObjectPropflags), wp_modify_memo. apply HQ.
  pose proof (settles_trans _ _ _ _ _ _ _ Hr1 Hr2) as [Hr Hrev Hseq _ Hc2].
  split.
  - simpl. by rewrite Hr.
  - simpl. lia.
  - done.
  - by apply world_flags.
  - unfold a_coherent in *. rewrite Hr in Hc2. simpl. rewrite Hr. by apply permissions_edited.
Qed.

Lemma set_property_wp o u l x Q a :
  steady a → chain (rows_parents a) o l → is_none x = false →
  (∀ a', settles a (fix_perms o u l (edit_value o u x (a_rows a))).1 0 a' →
     Q (fix_perms o u l (edit_value o u x (a_rows a))).2 a') →
  wp (set_property fuel o u x) Q a.
Proof.
  intros Hs Hl Hx HQ. unfold set_property. rewrite Hx.
  apply wp_bind, (wp_upsert pms base ObjectPropvalues).
  pose proof (settles_frame fuel names Hnames ObjectPropvalues
    (<[mkPropertyKey o u := x]> (a_rows a ObjectPropvalues)) a eq_refl Hs) as Hr1.
  set (a1 := set_rows ObjectPropvalues _ a) in *.
  assert (steady a1) as Hs1 by (by eapply settles_steady; [done..|]).
  apply wp_bind, (wp_gets pms base _ (λ a, Memo.has_known_propflags (mkPropertyKey o u) (a_memo a)));
    [done|].
  destruct (Memo.has_known_propflags _ _) eqn:Hk.
  - apply bool_decide_eq_true in Hk.
    destruct (mc_known _ _ (co_memo _ _ _ _ (sd_coherent _ _ _ Hs)) _ Hk) as [p Hp].
    apply wp_ret. unfold fix_perms in HQ.
    change (propflags (edit_value o u x (a_rows a))) with (propflags (a_rows a)) in HQ.
    rewrite Hp in HQ. by apply HQ.
  - apply (fix_perms_wp o u l); [done|exact Hl|]. intros a' Ha'. apply HQ.
    exact (settles_trans _ _ _ _ _ _ _ Hr1 Ha').
Qed.

(** ** Definitions *)

Definition own_props v o : PropDefs := default DefsOps.empty (propdefs v !! o).
Definition edit_props o d v : Views := put ObjectPropdefs (<[o := d]> (propdefs v)) v.

Lemma own_props_definer v o p : world_ok v → p ∈ contents (own_props v o) → propdef_definer p = o.
Proof.
  intros Hw. unfold own_props. destruct (propdefs v !! o) as [d|] eqn:Hd; simpl.
  - by apply (wo_definer _ Hw).
  - by intros ?%elem_of_nil.
Qed.

Lemma own_props_flags v o p :
  world_ok v → p ∈ contents (own_props v o) →
  is_Some (propflags v !! mkPropertyKey o (propdef_uuid p)).
Proof.
  intros Hw. unfold own_props. destruct (propdefs v !! o) as [d|] eqn:Hd; simpl.
  - by apply (wo_canonical _ Hw).
  - by intros ?%elem_of_nil.
Qed.

Lemma prop_at_own v name o : prop_at v name o = DefsOps.find_first_named name (own_props v o).
Proof. unfold prop_at, own_props. by destruct (propdefs v !! o). Qed.

Lemma world_props o d v :
  world_ok v →
  (∀ p, p ∈ contents d →
     propdef_definer p = o ∧ is_Some (propflags v !! mkPropertyKey o (propdef_uuid p))) →
  world_ok (edit_props o d v).
Proof.
  intros [Ha Hnn Hd Hv Hcan Hu] Hdef. split; [done..| |done| |done];
    intros o' d' b; change (propdefs (edit_props o d v)) with (<[o := d]> (propdefs v));
    rewrite lookup_insert_Some.
  - intros [[<- <-]|[_ Hl]]; [by intros [? _]%Hdef|by eapply Hd].
  - intros [[<- <-]|[_ Hl]]; [by intros [_ ?]%Hdef|by eapply Hcan].
Qed.

Lemma props_edited l removed v v' c m :
  world_ok v → downset (parents v) l →
  parents v' = parents v → verbdefs v' = verbdefs v → owners v' = owners v →
  (∀ x, x ∉ l → propdefs v' !! x = propdefs v !! x) →
  (∀ h, pk_obj h ∉ l → propflags v' !! h = propflags v !! h) →
  (∀ h, is_Some (propflags v !! h) → is_Some (propflags v' !! h)) →
  coherent names v c m →
  coherent names v' (prop_caches l c) (fold_left (forget_property removed) l m).
Proof.
  intros Hw Hl Hp Hvd Ho Hd Hf Hs [Hvc Hpc Hac Hmc].
  assert (lineage_outside l v v') as HX by (split; [apply Hw|done|by rewrite Hp]).
  pose proof (lineage_same v v' (wo_parents _ Hw) Hp) as HX0. split.
  - apply (verbs_outside names [] v); [done| |done]. by rewrite Hvd.
  - by apply (props_outside names Hnames l v).
  - by apply (ancestry_outside [] v).
  - apply (memo_outside l v v' m); try done; [by rewrite Ho|..].
    + intros o u p. apply cached_forget_property.
    + intros h Hh. by apply known_forget_property in Hh as [? _].
    + intros h _. apply Hs.
Qed.

Lemma get_properties_wp o Q a : Q (Ok (own_props (a_rows a) o)) a → wp (get_properties o) Q a.
Proof. intros HQ. apply wp_bind, wp_get, wp_ret. exact HQ. Qed.

Lemma no_duplicate_wp name l Q a :
  (∀ x, x ∈ l → prop_at (a_rows a) name x ≠ None →
     Q (Err (WsErr (DuplicatePropertyDefinition x (PSymbol name)))) a) →
  ((∀ x, x ∈ l → prop_at (a_rows a) name x = None) → Q (Ok tt) a) →
  wp (no_duplicate name l) Q a.
Proof.
  induction l as [|o l IH]; intros Herr HQ; cbn [no_duplicate].
  { apply wp_ret, HQ. by intros x ?%elem_of_nil. }
  apply wp_bind, get_properties_wp. rewrite <-prop_at_own.
  destruct (prop_at (a_rows a) name o) as [p|] eqn:Hp.
  - apply wp_fail, Herr; [by constructor|by rewrite Hp].
  - apply IH; [intros x Hx; apply Herr; by constructor|]. intros Hn. apply HQ.
    intros x [->|Hx]%elem_of_cons; auto.
Qed.

Definition define_rows u o name owner perms v : Views :=
  edit_flags o u (PropPermsOps.new owner perms)
    (edit_props o (DefsOps.with_added (mkPropDef u o o name) (own_props v o)) v).

Lemma world_define u o name owner perms v :
  world_ok v → world_ok (define_rows u o name owner perms v).
Proof.
  intros Hw. pose proof (world_flags o u (PropPermsOps.new owner perms) v Hw) as Hw1.
  destruct (world_props o (DefsOps.with_added (mkPropDef u o o name) (own_props v o))
    (edit_flags o u (PropPermsOps.new owner perms) v) Hw1); [|by split].
  unfold DefsOps.with_added. cbn [contents].
  intros p [Hp| ->%list_elem_of_singleton]%elem_of_app.
  - split; [by eapply own_props_definer|]. by apply (own_props_flags _ _ _ Hw1).
  - split; [done|]. change (is_Some (<[mkPropertyKey o u := PropPermsOps.new owner perms]> (propflags v)
      !! mkPropertyKey o u)). by rewrite lookup_insert_eq.
Qed.

Lemma define_coherent l u o name owner perms v c m :
  world_ok v → (∀ x, x ∈ l ↔ below (parents v) o x) → coherent names v c m →
  coherent names (define_rows u o name owner perms v) (prop_caches l c)
    (Memo.mark_known_propflags (mkPropertyKey o u) (fold_left (forget_property None) l m)).
Proof.
  intros Hw Hl Hc. assert (o ∈ l) as Ho by (apply Hl; by left).
  apply known_coherent.
  { change (propflags (define_rows u o name owner perms v))
      with (<[mkPropertyKey o u := PropPermsOps.new owner perms]> (propflags v)).
    by rewrite lookup_insert_eq. }
  apply (props_edited l None v); [done| |done..| | | |done].
  - by eapply branch_downset; [apply Hw|].
  - intros x Hx. change (propdefs (define_rows u o name owner perms v)) with
      (<[o := DefsOps.with_added (mkPropDef u o o name) (own_props v o)]> (propdefs v)).
    rewrite lookup_insert_ne; [done|]. by intros ->.
  - intros h Hh. change (propflags (define_rows u o name owner perms v))
      with (<[mkPropertyKey o u := PropPermsOps.new owner perms]> (propflags v)).
    rewrite lookup_insert_ne; [done|]. by intros <-.
  - intros h Hh. change (propflags (define_rows u o name owner perms v))
      with (<[mkPropertyKey o u := PropPermsOps.new owner perms]> (propflags v)).
    by apply lookup_insert_is_Some'; right.
Qed.

Definition define_answer (u : Uuid) (value : option Var) : result Uuid fault :=
  match value with
  | Some x => if is_none x then Err (WsErr PropertyTypeMismatch) else Ok u
  | None => Ok u
  end.
Definition define_value o u (value : option Var) v : Views :=
  match value with
  | Some x => if is_none x then v else edit_value o u x v
  | None => v
  end.

Lemma descendants_steady obj Q a :
  steady a → is_nothing obj = false →
  (∀ l, (∀ x, x ∈ l ↔ sbelow (rows_parents a) obj x) → Q (Ok l) a) →
  wp (descendants fuel obj false) Q a.
Proof.
  intros [[Hac Hnn _ _ _ _] _ Hf] Ho HQ. apply descendants_wp; [done..|lia|]. auto.
Qed.

(** The definition written, the value is. *)
Lemma define_value_wp u o name owner perms value l Q a a1 :
  steady a → chain (rows_parents a) o l →
  settles a (define_rows u o name owner perms (a_rows a)) 0 a1 →
  (∀ a', settles a (define_value o u value (define_rows u o name owner perms (a_rows a))) 0 a' →
     Q (define_answer u value) a') →
  wp (match value with Some value => set_property fuel o u value | None => ret tt end ;; ret u) Q a1.
Proof.
  intros Hs Hl Hr1 HQ. apply wp_bind. unfold define_value, define_answer in HQ.
  destruct value as [x|]; [|do 2 apply wp_ret; by apply HQ].
  destruct (is_none x) eqn:Hx.
  { unfold set_property. rewrite Hx. apply wp_fail. by apply HQ. }
  pose proof (se_rows _ _ _ _ _ Hr1) as Hrows.
  apply (set_property_wp o u l); [by eapply settles_steady|by rewrite Hrows|done|].
  intros a2 Hr2. rewrite Hrows in *.
  set (v1 := edit_value o u x (define_rows u o name owner perms (a_rows a))) in *.
  assert (fix_perms o u l v1 = (v1, Ok tt)) as Hfix.
  { unfold fix_perms. change (propflags v1) with
      (<[mkPropertyKey o u := PropPermsOps.new owner perms]> (propflags (a_rows a))).
    by rewrite lookup_insert_eq. }
  rewrite Hfix in *. apply wp_ret, HQ. exact (settles_trans _ _ _ _ _ _ _ Hr1 Hr2).
Qed.

Lemma define_property_wp u o name owner perms value l Q a :
  steady a → is_nothing o = false → chain (rows_parents a) o l →
  (∀ x, x ∈ l ∨ below (rows_parents a) o x → prop_at (a_rows a) name x ≠ None →
     ∀ a', settles a (a_rows a) 0 a' →
     Q (Err (WsErr (DuplicatePropertyDefinition x (PSymbol name)))) a') →
  ((∀ x, x ∈ l ∨ below (rows_parents a) o x → prop_at (a_rows a) name x = None) →
   ∀ a', settles a (define_value o u value (define_rows u o name owner perms (a_rows a))) 0 a' →
   Q (define_answer u value) a') →
  wp (define_property fuel u o o name owner perms value) Q a.
Proof.
  intros Hs Ho Hl Hdup HQ. unfold define_property. apply wp_bind, get_properties_wp.
  rewrite <-prop_at_own. destruct (prop_at (a_rows a) name o) as [p|] eqn:Hp.
  { apply wp_fail, Hdup; [right; by left|by rewrite Hp|by apply (settles_refl fuel)]. }
  pose proof (steady_fuel a o l Hs Hl) as Hlen.
  apply wp_bind. eapply (ancestors_refresh pms base fuel names o false l); [apply Hs|done..|].
  intros a1 Hr1. apply (refreshes_settles _ _ Hs) in Hr1. pose proof (se_rows _ _ _ _ _ Hr1) as Hrows.
  assert (steady a1) as Hs1 by (by eapply quiet_steady).
  apply wp_bind, no_duplicate_wp; rewrite Hrows; [intros x Hx Hn; apply (Hdup x); auto|]. intros Hanc.
  apply wp_bind, descendants_steady; [done..|]. rewrite Hrows. intros ds Hds.
  apply wp_bind, no_duplicate_wp; rewrite Hrows.
  { intros x Hx Hn. apply (Hdup x); [right; right; by apply Hds|done|done]. }
  intros Hdesc. specialize (HQ ltac:(intros x [Hx|[->|Hx%Hds]]; auto)).
  apply wp_bind, wp_edit; [done|]. apply wp_bind, (wp_upsert pms base ObjectPropdefs).
  apply (wp_upsert pms base ObjectPropflags), wp_bind, wp_modify_memo.
  apply (define_value_wp u o name owner perms value l Q a); [done..| |exact HQ].
  destruct Hr1 as [Hr Hrev Hseq Hw Hc]. split.
  - simpl. by rewrite Hrows.
  - simpl. lia.
  - done.
  - by apply world_define.
  - unfold a_coherent in *. rewrite Hr in Hc. simpl. rewrite Hr. apply define_coherent; [done| |done].
    intros x. unfold below. rewrite <-Hds. set_solver.
Qed.

(** *** Removing a definition *)

Definition props_without u (d : PropDefs) : PropDefs :=
  mkDefs (List.filter (λ p, negb (bool_decide (propdef_uuid p = u))) (contents d)).

Definition undefine_all u (l : list Obj) (m : gmap Obj PropDefs) : gmap Obj PropDefs :=
  fold_left (λ m x, alter (props_without u) x m) l m.
Definition undescribe_all u (l : list Obj) (m : gmap EntityMetadataKey Var)
  : gmap EntityMetadataKey Var :=
  fold_left (λ m x, filter (λ kv, MetadataKey.is_property_key_for x u kv.1 = false) m) l m.

Lemma delete_loop_wp u l Q a :
  Q (Ok tt) (set_rows EntityMetadata (undescribe_all u l (metadata (a_rows a)))
               (set_rows ObjectPropdefs (undefine_all u l (propdefs (a_rows a))) a)) →
  wp (for_each l (λ location,
        r_update_with ObjectPropdefs location
          (λ props : PropDefs, DefsOps.with_removed u props) "Error deleting property" ;;
        delete_property_metadata_for_holder location u)) Q a.
Proof.
  revert a. induction l as [|x l IH]; intros a HQ; cbn [for_each undefine_all undescribe_all fold_left] in *.
  { apply wp_ret. change (metadata (a_rows a)) with (a_rows a EntityMetadata) in HQ.
    change (propdefs (a_rows a)) with (a_rows a ObjectPropdefs) in HQ.
    rewrite (set_rows_same ObjectPropdefs), set_rows_same in HQ. exact HQ. }
  apply wp_bind, wp_bind, (wp_update_with_is pms base ObjectPropdefs x _ _ (propdefs (a_rows a) !! x));
    [done|].
  assert (∀ m : gmap Obj PropDefs,
    match m !! x ≫= DefsOps.with_removed u with Some d => <[x := d]> m | None => m end =
    alter (props_without u) x m) as Halter.
  { intros m. apply map_eq. intros y. destruct (decide (x = y)) as [<-|Hne].
    - rewrite lookup_alter_eq. destruct (m !! x) as [d|] eqn:Hd; simpl; [|done].
      by rewrite lookup_insert_eq.
    - rewrite lookup_alter_ne by done. destruct (m !! x); simpl; [|done].
      by rewrite lookup_insert_ne. }
  pose proof (Halter (propdefs (a_rows a))) as Halt.
  set (m1 := match _ ≫= _ with Some _ => _ | None => _ end) in *.
  change (match propdefs (a_rows a) !! x ≫= DefsOps.with_removed u with
    Some d => <[x := d]> (propdefs (a_rows a)) | None => propdefs (a_rows a) end) with m1 in Halt.
  apply delete_metadata_wp, IH.
  rewrite (set_rows_comm ObjectPropdefs EntityMetadata) by done.
  rewrite (set_rows_twice EntityMetadata), (set_rows_twice ObjectPropdefs).
  unfold metadata_without. cbn. rewrite Halt in *. exact HQ.
Qed.

Lemma props_without_twice u d : props_without u (props_without u d) = props_without u d.
Proof.
  unfold props_without. simpl. f_equal. induction (contents d) as [|p l IH]; [done|]. simpl.
  destruct (negb _) eqn:Hp; [|done]. simpl. by rewrite Hp, IH.
Qed.

Lemma lookup_undefine u (l : list Obj) m (x : Obj) :
  undefine_all u l m !! x = (if decide (x ∈ l) then props_without u else λ d, d) <$> m !! x.
Proof.
  unfold undefine_all. revert m. induction l as [|y l IH]; intros m; cbn [fold_left].
  { rewrite decide_False by apply not_elem_of_nil. by destruct (m !! x). }
  rewrite IH. destruct (decide (y = x)) as [->|Hne].
  - rewrite lookup_alter_eq, (decide_True (P := x ∈ x :: l)) by constructor.
    destruct (m !! x) as [d|]; simpl; [|done]. f_equal.
    case_decide; [apply props_without_twice|done].
  - rewrite lookup_alter_ne by done. f_equal.
    destruct (decide (x ∈ l)) as [Hx|Hx].
    + by rewrite decide_True by (by constructor).
    + rewrite decide_False; [done|]. apply not_elem_of_cons. by split; [apply not_eq_sym|].
Qed.

(** The rows after the property is removed from the branch of [o]. *)
Definition undefine_rows u l v : Views :=
  put EntityMetadata (undescribe_all u l (metadata v))
    (put ObjectPropdefs (undefine_all u l (propdefs v)) v).

Lemma world_undefine u l v : world_ok v → world_ok (undefine_rows u l v).
Proof.
  intros [Ha Hnn Hd Hv Hcan Hu].
  assert (∀ o d p, propdefs (undefine_rows u l v) !! o = Some d → p ∈ contents d →
    ∃ d', propdefs v !! o = Some d' ∧ p ∈ contents d') as Hback.
  { intros o d p. change (propdefs (undefine_rows u l v)) with (undefine_all u l (propdefs v)).
    rewrite lookup_undefine, fmap_Some. intros (d' & Hd' & ->) Hp. exists d'. split; [done|].
    case_decide; [|done]. apply list_elem_of_In, filter_In in Hp as [Hp _]. by apply list_elem_of_In. }
  split; [done..| |done| |done].
  - intros o d p Hd1 Hp. destruct (Hback _ _ _ Hd1 Hp) as (d' & ? & ?). by eapply Hd.
  - intros o d p Hd1 Hp. destruct (Hback _ _ _ Hd1 Hp) as (d' & ? & ?). by eapply Hcan.
Qed.

Lemma delete_property_wp o u Q a :
  steady a → is_nothing o = false →
  (∀ l a', (∀ x, x ∈ l ↔ below (rows_parents a) o x) →
     settles a (undefine_rows u l (a_rows a)) 0 a' → Q (Ok tt) a') →
  wp (delete_property fuel o u) Q a.
Proof.
  intros Hs Ho HQ. unfold delete_property. apply wp_bind, descendants_steady; [done..|].
  intros ds Hds. cbn [app]. pose proof Hs as [Hw Hc _].
  assert (∀ x, x ∈ o :: ds ↔ below (rows_parents a) o x) as Hl.
  { intros x. unfold below. rewrite <-Hds. set_solver. }
  apply wp_edit; [done|]. apply delete_loop_wp. apply (HQ (o :: ds)); [done|].
  assert (world_ok (undefine_rows u (o :: ds) (a_rows a))) as Hw' by (by apply world_undefine).
  split; [done|simpl; lia|done|done|].
  apply (props_edited (o :: ds) (Some u) (a_rows a)); try done.
  - by eapply branch_downset; [apply Hw|].
  - intros x Hx. change (undefine_all u (o :: ds) (propdefs (a_rows a)) !! x = propdefs (a_rows a) !! x).
    rewrite lookup_undefine, decide_False by done. by destruct (propdefs (a_rows a) !! x).
Qed.

(** *** Clearing a value *)

Lemma props_forget X v c :
  props_coherent names v c → props_coherent names v (PropResolutionCache.invalidate_objects X c).
Proof.
  intros [He Hf]. split.
  - intros o n e l Hn Hu. destruct (Hnames n n) as [Hid _]; [done..|].
    destruct (prop_invalidate o n X c) as [-> _]; [done..|]. case_decide; [done|]. by apply He.
  - intros o e l. rewrite prop_invalidate_first. case_decide; [done|]. by apply Hf.
Qed.

Lemma clear_property_wp o u Q a :
  steady a →
  (∀ a', settles a (put ObjectPropvalues (delete (mkPropertyKey o u) (propvalues (a_rows a)))
                      (a_rows a)) 0 a' → Q (Ok tt) a') →
  wp (clear_property o u) Q a.
Proof.
  intros Hs HQ. apply wp_edit; [done|]. apply (wp_delete pms base ObjectPropvalues). apply HQ.
  destruct (settles_frame fuel names Hnames ObjectPropvalues
    (delete (mkPropertyKey o u) (propvalues (a_rows a))) a eq_refl Hs) as [? ? ? ? [? Hp ? ?]].
  split; [done..|]. split; [done| |done..]. by apply props_forget.
Qed.

(** *** Changing a definition's name and permissions *)

Definition props_renamed u name (d : PropDefs) : PropDefs :=
  mkDefs (map (λ p, if bool_decide (propdef_uuid p = u)
                    then mkPropDef (propdef_uuid p) (propdef_definer p) (propdef_location p) name
                    else p) (contents d)).

(** What the renaming part does. *)
Definition rename_rows o u (name : option Symbol) v : Views * result unit fault :=
  match name with
  | None => (v, Ok tt)
  | Some name =>
      if decide (u ∈ map propdef_uuid (contents (own_props v o)))
      then (edit_props o (props_renamed u name (own_props v o)) v, Ok tt)
      else (v, Err (WsErr (PropertyNotFound o (PUuid u))))
  end.

Lemma world_rename o u name v : world_ok v → world_ok (rename_rows o u name v).1.
Proof.
  intros Hw. destruct name as [name|]; [|done]. cbn [rename_rows]. case_decide as Hu; [|done].
  apply world_props; [done|]. intros p (p' & -> & Hp)%list_elem_of_fmap.
  pose proof (own_props_definer _ _ _ Hw Hp). pose proof (own_props_flags _ _ _ Hw Hp).
  by case_bool_decide.
Qed.

Lemma rename_coherent o u name l v c m :
  world_ok v → (∀ x, x ∈ l ↔ below (parents v) o x) → coherent names v c m →
  coherent names (rename_rows o u name v).1 (prop_caches l c) (fold_left (forget_property None) l m).
Proof.
  intros Hw Hl Hc. assert (downset (parents v) l) as Hdown by (by eapply branch_downset; [apply Hw|]).
  assert (coherent names v (prop_caches l c) (fold_left (forget_property None) l m)) as Hsame
    by (by apply (props_edited l None v)).
  destruct name as [name|]; [|done]. cbn [rename_rows]. case_decide as Hu; [|done].
  apply (props_edited l None v); try done. intros x Hx.
  change (<[o := props_renamed u name (own_props v o)]> (propdefs v) !! x = propdefs v !! x).
  rewrite lookup_insert_ne; [done|]. by apply not_eq_sym, (branch_self _ _ _ _ Hl).
Qed.

Lemma rename_property_wp o u name l Q a :
  steady a → (∀ x, x ∈ l ↔ below (rows_parents a) o x) →
  (∀ a', settles a (rename_rows o u (Some name) (a_rows a)).1 0 a' →
     Q (rename_rows o u (Some name) (a_rows a)).2 a') →
  wp (rename_property l o u name) Q a.
Proof.
  intros [Hw Hc _] Hl HQ. pose proof (world_rename o u (Some name) _ Hw) as Hw'.
  pose proof (rename_coherent o u (Some name) l _ _ _ Hw Hl Hc) as Hc'.
  apply wp_edit; [done|]. unfold rename_rows, own_props in *.
  apply wp_bind, (wp_update_with_is pms base ObjectPropdefs o _ _ (propdefs (a_rows a) !! o)); [done|].
  destruct (propdefs (a_rows a) !! o) as [d|] eqn:Hd; cbn [mbind option_bind default from_option] in *.
  2:{ apply wp_fail. rewrite set_rows_same. rewrite decide_False in * by apply not_elem_of_nil.
      apply HQ. split; [done|simpl; lia|done..]. }
  unfold DefsOps.with_updated. case_decide as Hu.
  - pose proof (proj2 (elem_of_uuid u (contents d)) Hu) as Hex. rewrite Hex.
    destruct (find_uuid_elem u (contents d) (proj1 (elem_of_uuid u (contents d)) Hex)) as [b Hb]. unfold DefsOps.find. rewrite Hb.
    apply wp_ret, HQ. split; [done|simpl; lia|done..].
  - destruct (existsb _ _) eqn:Hex; [by apply (elem_of_uuid u (contents d)) in Hex|].
    rewrite set_rows_same. destruct (DefsOps.find u d) as [b|] eqn:Hb.
    { exfalso. apply Hu. apply find_some in Hb as [Hb <-%bool_decide_eq_true].
      apply list_elem_of_fmap. exists b. split; [done|by apply list_elem_of_In]. }
    apply wp_fail, HQ. split; [done|simpl; lia|done..].
Qed.

Definition new_perms (new_owner : option Obj) (new_flags : option (BitEnum PropFlag)) (p : PropPerms)
  : PropPerms :=
  let p := match new_flags with Some f => PropPermsOps.with_flags f p | None => p end in
  match new_owner with Some w => PropPermsOps.with_owner w p | None => p end.

(** The permissions written, when any are given. *)
Definition reperm_rows o u l (new_owner : option Obj) (new_flags : option (BitEnum PropFlag)) v
  : Views * result unit fault :=
  match new_flags, new_owner with
  | None, None => (v, Ok tt)
  | _, _ =>
      match perms_of v o u l with
      | Ok p => (edit_flags o u (new_perms new_owner new_flags p) v, Ok tt)
      | Err e => (v, Err e)
      end
  end.

Lemma reperm_coherent o u p l v c m :
  world_ok v → (∀ x, x ∈ l ↔ below (parents v) o x) → coherent names v c m →
  coherent names (edit_flags o u p v) (prop_caches l c)
    (Memo.mark_known_propflags (mkPropertyKey o u) (fold_left (forget_property None) l m)).
Proof.
  intros Hw Hl Hc. assert (o ∈ l) as Ho by (apply Hl; by left). apply known_coherent.
  { change (is_Some (<[mkPropertyKey o u := p]> (propflags v) !! mkPropertyKey o u)).
    by rewrite lookup_insert_eq. }
  apply (props_edited l None v); try done.
  - by eapply branch_downset; [apply Hw|].
  - intros h Hh. change (<[mkPropertyKey o u := p]> (propflags v) !! h = propflags v !! h).
    rewrite lookup_insert_ne; [done|]. by intros <-.
  - intros h Hh. change (is_Some (<[mkPropertyKey o u := p]> (propflags v) !! h)).
    by apply lookup_insert_is_Some'; right.
Qed.

(** The policy is noted without failing exactly when there are permissions. *)
Lemma policy_answer v o u l :
  world_ok v →
  match perms_of v o u l with
  | Ok _ => match propflags v !! mkPropertyKey o u with
            | Some _ => True | None => is_Some (find_uuid v u (o :: l)) end
  | Err e => propflags v !! mkPropertyKey o u = None ∧ find_uuid v u (o :: l) = None ∧
             e = WsErr (PropertyNotFound o (PUuidTagged u))
  end.
Proof.
  intros Hw. unfold perms_of. destruct (propflags v !! mkPropertyKey o u); [done|].
  destruct (find_uuid v u (o :: l)) as [pd|] eqn:Hpd; [|done].
  destruct (find_uuid_definer v u _ _ Hw Hpd) as [_ Hat]. unfold uuid_at in Hat.
  destruct (propdefs v !! propdef_definer pd) as [d|] eqn:Hd; simpl in Hat; [|done].
  pose proof (find_some _ _ Hat) as [Hin%list_elem_of_In Hu%bool_decide_eq_true].
  destruct (wo_canonical _ Hw _ _ _ Hd Hin) as [cp Hcp]. change (propdef_uuid pd = u) in Hu.
  rewrite Hu in Hcp. by rewrite Hcp.
Qed.

Lemma reperm_wp o u l ls new_owner new_flags Q a :
  steady a → chain (rows_parents a) o l → (∀ x, x ∈ ls ↔ below (rows_parents a) o x) →
  (∀ a', settles a (reperm_rows o u l new_owner new_flags (a_rows a)).1 0 a' →
     Q (reperm_rows o u l new_owner new_flags (a_rows a)).2 a') →
  wp (match new_flags, new_owner with
      | None, None => ret tt
      | _, _ =>
          record_inherited_policy_dependency fuel o u ;;
          let* perms := retrieve_property_permissions fuel o u in
          let perms := match new_flags with
                       | Some new_flags => PropPermsOps.with_flags new_flags perms
                       | None => perms
                       end in
          let perms := match new_owner with
                       | Some new_owner => PropPermsOps.with_owner new_owner perms
                       | None => perms
                       end in
          edit (ScopeProperties ls None)
            (r_upsert ObjectPropflags (mkPropertyKey o u) perms "Error updating property") ;;
          modify_memo (Memo.mark_known_propflags (mkPropertyKey o u))
      end) Q a.
Proof.
  intros Hs Hl Hls HQ. pose proof Hs as [Hw _ _].
  set (body := record_inherited_policy_dependency fuel o u ;; _).
  assert ((∀ a', settles a (match perms_of (a_rows a) o u l with
      | Ok p => edit_flags o u (new_perms new_owner new_flags p) (a_rows a)
      | Err e => a_rows a end) 0 a' → Q (map_ok (λ _, tt) (perms_of (a_rows a) o u l)) a') →
    wp body Q a) as Hbody.
  2:{ unfold reperm_rows in HQ. destruct new_flags as [f|], new_owner as [w|];
      try (apply Hbody; intros a' Ha'; by destruct (perms_of _ _ _ _); apply HQ).
      apply wp_ret, HQ. by apply (settles_refl fuel). }
  clear HQ. intros HQ. apply wp_bind, (record_policy_wp o u l); [done..|]. intros a1 Hr1.
  pose proof (policy_answer (a_rows a) o u l Hw) as Hpol. unfold uuid_answer.
  destruct (perms_of (a_rows a) o u l) as [p|e] eqn:Hp; cbn [map_ok] in HQ.
  2:{ destruct Hpol as (-> & -> & ->). by apply HQ. }
  set (r := match propflags (a_rows a) !! _ with Some _ => _ | None => _ end).
  assert (r = Ok tt) as ->.
  { unfold r. destruct (propflags (a_rows a) !! _); [done|]. by destruct (find_uuid _ _ _), Hpol. }
  pose proof (se_rows _ _ _ _ _ Hr1) as Hrows. assert (steady a1) as Hs1 by (by eapply quiet_steady).
  assert (chain (rows_parents a1) o l) as Hl1 by (by rewrite Hrows).
  apply wp_bind. eapply (retrieve_property_permissions_wp pms base fuel names o l);
    [apply Hs1|done|by eapply steady_fuel|]. intros a2 Hr2%(refreshes_settles _ _ Hs1).
  rewrite Hrows, Hp in *. apply wp_bind, wp_edit; [done|].
  apply (wp_upsert pms base ObjectPropflags), wp_modify_memo, HQ.
  pose proof (settles_trans _ _ _ _ _ _ _ Hr1 Hr2) as [Hr Hrev Hseq _ Hc2]. split.
  - simpl. by rewrite Hr.
  - simpl. lia.
  - done.
  - by apply world_flags.
  - unfold a_coherent in *. rewrite Hr in Hc2. simpl. rewrite Hr. by apply reperm_coherent.
Qed.

Definition update_rows o u l new_owner new_flags new_name v : Views * result unit fault :=
  match rename_rows o u new_name v with
  | (v, Ok _) => reperm_rows o u l new_owner new_flags v
  | (v, Err e) => (v, Err e)
  end.

Lemma update_property_info_wp o u l new_owner new_flags new_name Q a :
  steady a → is_nothing o = false → chain (rows_parents a) o l →
  (∀ a', settles a (update_rows o u l new_owner new_flags new_name (a_rows a)).1 0 a' →
     Q (update_rows o u l new_owner new_flags new_name (a_rows a)).2 a') →
  wp (update_property_info fuel o u new_owner new_flags new_name) Q a.
Proof.
  intros Hs Ho Hl HQ. unfold update_property_info, update_rows in *.
  set (body := bind (branch_objects fuel o) _). assert (wp body Q a) as Hbody.
  2:{ destruct new_owner, new_flags, new_name; try exact Hbody.
      apply wp_ret, HQ. by apply (settles_refl fuel). }
  apply wp_bind, (branch_steady pms base fuel names); [done..|]. intros ls Hls. apply wp_bind.
  destruct new_name as [name|].
  2:{ apply wp_ret. by apply (reperm_wp o u l ls). }
  apply rename_property_wp; [done..|]. intros a1 Hr1.
  assert (parents (rename_rows o u (Some name) (a_rows a)).1 = rows_parents a) as Hpar.
  { cbn [rename_rows]. by case_decide. }
  destruct (rename_rows o u (Some name) (a_rows a)) as [v1 [[]|e]]; cbn [fst snd] in *; [|by apply HQ].
  pose proof (se_rows _ _ _ _ _ Hr1) as Hrows.
  apply (reperm_wp o u l ls); rewrite ?Hrows, ?Hpar; [|done..|].
  - eapply settles_steady; [done..|]. by rewrite Hpar.
  - intros a' Ha'. apply HQ. exact (settles_trans _ _ _ _ _ _ _ Hr1 Ha').
Qed.
End edits.
