(* ===== verification/WsOwner.v ===== *)
(** Changing the owner of an object. The properties that follow the owner of the
    object they are on are first given the permissions they have, so the change
    of owner changes no permission. *)
From S2P Require Import Prelude Obj TxTypes RelIndex RelTx RelTxSpec RelTxProofs Model.
From S2P Require Import Verbs Caches Relations CommitProofs Forest.
From S2P Require Import WsBase WsObjects WsVerbs WsProps WsSpec WsViews WsHierarchy WsResolve.
From S2P Require Import ModelProofs WsInherit WsCoherent WsEdits WsPropEdits.
From stdpp Require Import base gmap sets list strings fin_maps.

Open Scope Z_scope.
Open Scope ws_scope.
#[local] Opaque is_nothing WsSpec.wp.

Section owner.
Context `{Hashes} `{Payload} `{!Values} `{Interner}.
Context {P : DatabaseRelation → Type} `{∀ r, Provider (P r) (DomainOf r) (CodomainOf r)}.
Context (pms : ∀ r, gmap (DomainOf r) (Timestamp * CodomainOf r)).
Context (base : ∀ r, gmap (DomainOf r) (Entry (CodomainOf r))).
Context (fuel : nat).
Context (names : Symbol → Prop) (Hnames : ∀ n n', names n → names n' → interned n n').
Implicit Types a : astate.
Implicit Types v : Views.
#[local] Notation wp := (wp (P := P) pms base).
#[local] Notation rows_parents a := (parents (a_rows a)).
#[local] Notation steady := (steady fuel names).
#[local] Notation settles := (settles names).

Lemma wp_fold_m {A B} (f : B → A → M (P := P) B) (g : B → A → B) (J : astate → Prop) l b Q a :
  J a →
  (∀ b x a, x ∈ l → J a → wp (f b x) (λ r a', r = Ok (g b x) ∧ J a') a) →
  (∀ a', J a' → Q (Ok (fold_left g l b)) a') →
  wp (fold_m f b l) Q a.
Proof.
  revert b a. induction l as [|x l IH]; intros b a HJ Hf HQ; cbn [fold_m fold_left] in *.
  { by apply wp_ret, HQ. }
  apply wp_bind. eapply wp_mono; [apply Hf; [by constructor|done]|]. intros r a' [-> Ha'].
  apply IH; [done| |done]. intros b' y a'' Hy. apply Hf. by constructor.
Qed.

(** ** The permissions to keep *)

(** The permissions of property [u] on [o] that the owner of [o] decides. *)
Definition kept v (o : Obj) (l : list Obj) (u : Uuid) : option PropPerms :=
  match propflags v !! mkPropertyKey o u with
  | Some _ => None
  | None =>
      match perms_of v o u l with
      | Ok p => if BitEnumOps.contains PropChown (PropPermsOps.flags p) then Some p else None
      | Err _ => None
      end
  end.

Definition defined_uuids v (x : Obj) : list Uuid := map propdef_uuid (contents (own_props v x)).

Definition keep_one v o l (acc : list (PropertyKey * PropPerms)) (p : PropDef)
  : list (PropertyKey * PropPerms) :=
  match kept v o l (propdef_uuid p) with
  | Some perms => acc ++ [(mkPropertyKey o (propdef_uuid p), perms)]
  | None => acc
  end.
Definition keep_ancestor v o l acc (x : Obj) := fold_left (keep_one v o l) (contents (own_props v x)) acc.
Definition keep_all v o (l : list Obj) : list (PropertyKey * PropPerms) :=
  fold_left (keep_ancestor v o l) l [].

Lemma elem_of_keep_one v o l ps acc h p :
  (h, p) ∈ fold_left (keep_one v o l) ps acc ↔
  (h, p) ∈ acc ∨ ∃ pd, pd ∈ ps ∧ h = mkPropertyKey o (propdef_uuid pd) ∧
    kept v o l (propdef_uuid pd) = Some p.
Proof.
  clear Hnames. revert acc. induction ps as [|pd ps IH]; intros acc; cbn [fold_left].
  { split; [by left|]. intros [?|(pd & Hpd & _)]; [done|by apply elem_of_nil in Hpd]. }
  rewrite IH. unfold keep_one at 1. destruct (kept v o l (propdef_uuid pd)) as [p'|] eqn:Hk.
  - rewrite elem_of_app, list_elem_of_singleton. split.
    + intros [[?|[= -> ->]]|(pd' & ? & ?)]; [by left|right; exists pd; set_solver|].
      right. exists pd'. set_solver.
    + intros [?|(pd' & [->|?]%elem_of_cons & -> & Hk')]; [by left; left| |right; by exists pd'].
      left. right. congruence.
  - split.
    + intros [?|(pd' & ? & ?)]; [by left|]. right. exists pd'. set_solver.
    + intros [?|(pd' & [->|?]%elem_of_cons & -> & Hk')]; [by left|congruence|right; by exists pd'].
Qed.

Lemma elem_of_keep_all v o l h p :
  (h, p) ∈ keep_all v o l ↔
  ∃ x u, x ∈ l ∧ u ∈ defined_uuids v x ∧ h = mkPropertyKey o u ∧ kept v o l u = Some p.
Proof.
  clear Hnames. unfold keep_all.
  assert (∀ l2 acc, (h, p) ∈ fold_left (keep_ancestor v o l) l2 acc ↔ (h, p) ∈ acc ∨
    ∃ x u, x ∈ l2 ∧ u ∈ defined_uuids v x ∧ h = mkPropertyKey o u ∧ kept v o l u = Some p) as Hall.
  { intros l2. induction l2 as [|x l2 IH]; intros acc; cbn [fold_left].
    { split; [by left|]. intros [?|(x & ? & Hx & _)]; [done|by apply elem_of_nil in Hx]. }
    rewrite IH. unfold keep_ancestor at 1. rewrite elem_of_keep_one. split.
    - intros [[?|(pd & Hpd & -> & Hk)]|(y & u & ? & ?)]; [by left| |right; exists y, u; set_solver].
      right. exists x, (propdef_uuid pd). split_and!; [by constructor| |done..].
      by apply list_elem_of_fmap_2.
    - intros [?|(y & u & [->|Hy]%elem_of_cons & Hu & -> & Hk)]; [by left; left| |].
      + left. right. apply list_elem_of_fmap in Hu as (pd & -> & Hpd). by exists pd.
      + right. by exists y, u. }
  rewrite Hall. split; [by intros [?%elem_of_nil|?]|by right].
Qed.

Lemma defined_found v o l x pd :
  x ∈ l → pd ∈ contents (own_props v x) → is_Some (find_uuid v (propdef_uuid pd) (o :: l)).
Proof.
  intros Hx Hpd. destruct (find_uuid v _ (o :: l)) as [p|] eqn:Hf; [done|]. exfalso.
  assert (∀ y, y ∈ o :: l → uuid_at v (propdef_uuid pd) y = None) as Hnone.
  { revert Hf. unfold find_uuid. generalize (o :: l). intros l'. induction l' as [|z l' IH]; simpl.
    - by intros _ y ?%elem_of_nil.
    - destruct (uuid_at v _ z) eqn:Hz; [done|]. intros Hf y [->|Hy]%elem_of_cons; auto. }
  specialize (Hnone x ltac:(by constructor)). unfold uuid_at, own_props in *.
  destruct (propdefs v !! x) as [d|]; simpl in *; [|by apply elem_of_nil in Hpd].
  eapply List.find_none in Hnone; [|by apply list_elem_of_In].
  by apply bool_decide_eq_false in Hnone.
Qed.

(** The definer's row is the canonical one. *)
Lemma canonical_flags v o u l pd :
  world_ok v → find_uuid v u (o :: l) = Some pd →
  ∃ cp, propflags v !! mkPropertyKey (propdef_definer pd) u = Some cp.
Proof.
  intros Hw Hpd. destruct (find_uuid_definer v u _ _ Hw Hpd) as [_ Hat]. unfold uuid_at in Hat.
  destruct (propdefs v !! propdef_definer pd) as [d|] eqn:Hd; simpl in Hat; [|done].
  pose proof (find_some _ _ Hat) as [Hin%list_elem_of_In <-%bool_decide_eq_true].
  by apply (wo_canonical _ Hw _ _ _ Hd Hin).
Qed.

Lemma perms_found v o u l :
  world_ok v → is_Some (find_uuid v u (o :: l)) → ∃ p, perms_of v o u l = Ok p.
Proof.
  intros Hw [pd Hpd]. unfold perms_of. destruct (propflags v !! mkPropertyKey o u); [by eexists|].
  rewrite Hpd. destruct (canonical_flags _ _ _ _ _ Hw Hpd) as [cp ->]. by eexists.
Qed.

Section preserve.
Context (a0 : astate) (o : Obj) (l : list Obj).
Context (Hs0 : steady a0) (Hl : chain (rows_parents a0) o l).
#[local] Notation v := (a_rows a0).
#[local] Notation J := (settles a0 v 0).

Lemma quiet a a' : J a → settles a (a_rows a) 0 a' → J a'.
Proof.
  intros Ha Ha'. pose proof (settles_trans _ _ _ _ _ _ _ _ Ha Ha') as Hr.
  by rewrite (se_rows _ _ _ _ _ Ha) in Hr.
Qed.
Lemma quiet_rows a : J a → a_rows a = v.
Proof. by intros []. Qed.
Lemma quiet_now a : J a → steady a.
Proof. intros Ha. by eapply quiet_steady. Qed.

Lemma preserve_property_wp x acc pd a :
  x ∈ l → pd ∈ contents (own_props v x) → J a →
  wp (preserve_property fuel o acc pd) (λ r a', r = Ok (keep_one v o l acc pd) ∧ J a') a.
Proof.
  intros Hx Hpd Ha. unfold preserve_property.
  set (u := propdef_uuid pd). set (h := mkPropertyKey o u).
  assert (is_Some (find_uuid v u (o :: l))) as Hfind by (by eapply defined_found).
  destruct (perms_found v o u l (sd_world _ _ _ Hs0) Hfind) as [p Hp].
  apply wp_bind, (note_policy_wp pms base fuel names); [by apply quiet_now|]. intros a1 Hr1.
  apply (quiet _ _ Ha) in Hr1. pose proof (quiet_rows _ Hr1) as Hrows1.
  apply wp_bind, (wp_has_is pms base ObjectPropflags _ _ (bool_decide (is_Some (propflags v !! h)))).
  { rewrite Hrows1. by apply bool_decide_ext. }
  unfold keep_one, kept. fold u h. rewrite Hp. destruct (propflags v !! h) as [fl|] eqn:Hf.
  { rewrite bool_decide_eq_true_2 by done. by apply wp_ret. }
  rewrite bool_decide_eq_false_2 by (intros []; done).
  apply wp_bind, (record_policy_wp pms base fuel names o u l); [by apply quiet_now|by rewrite Hrows1|].
  intros a2 Hr2. apply (quiet _ _ Hr1) in Hr2. pose proof (quiet_rows _ Hr2) as Hrows2.
  rewrite Hrows1. fold h. rewrite Hf. unfold uuid_answer.
  destruct (find_uuid v u (o :: l)) as [q|]; [|by destruct Hfind]. cbn [map_ok].
  assert (chain (rows_parents a2) o l) as Hl2 by (by rewrite Hrows2).
  apply wp_bind, (retrieve_property_permissions_wp pms base fuel names o l).
  - apply Hr2.
  - done.
  - by eapply steady_fuel; [apply quiet_now|].
  - intros a3 Hr3. rewrite Hrows2, Hp. apply wp_ret. split; [by destruct (BitEnumOps.contains _ _)|].
    eapply quiet; [exact Hr2|]. apply (refreshes_settles fuel); [by apply quiet_now|done].
Qed.

Lemma preserve_all_wp Q a :
  J a → (∀ a', J a' → Q (Ok (keep_all v o l)) a') →
  wp (fold_m (preserve_ancestor fuel o) [] l) Q a.
Proof.
  intros Ha. apply (wp_fold_m _ _ J); [done|]. intros acc x a1 Hx Ha1. unfold preserve_ancestor.
  apply wp_bind, get_properties_wp. rewrite (quiet_rows _ Ha1).
  apply (wp_fold_m _ (keep_one v o l) J); [done| |by intros].
  intros acc' pd a2 Hpd Ha2. by apply (preserve_property_wp x).
Qed.
End preserve.

(** ** The change *)

Definition keep_rows (ps : list (PropertyKey * PropPerms)) v : Views :=
  fold_left (λ v x, edit_flags (pk_obj x.1) (pk_uuid x.1) x.2 v) ps v.
Definition owner_rows o w l v : Views :=
  let v := keep_rows (keep_all v o l) v in
  put ObjectOwner (<[o := w]> (owners v)) v.

Lemma keep_wp h p Q a :
  steady a → uuid_at (a_rows a) (pk_uuid h) (pk_obj h) = None →
  (∀ a', settles a (edit_flags (pk_obj h) (pk_uuid h) p (a_rows a)) 0 a' → Q (Ok tt) a') →
  wp (edit (ScopePermissions h) (r_upsert ObjectPropflags h p "Error preserving property flags") ;;
      modify_memo (Memo.mark_known_propflags h)) Q a.
Proof.
  destruct h as [o u]. cbn [pk_obj pk_uuid]. intros [Hw Hc _] Hat HQ.
  apply wp_bind, wp_edit; [done|]. apply (wp_upsert pms base ObjectPropflags), wp_modify_memo. apply HQ.
  split; [done|simpl; lia|done|by apply world_flags|]. by apply permissions_edited.
Qed.

Lemma keep_loop_wp ps Q a :
  steady a → (∀ h p, (h, p) ∈ ps → uuid_at (a_rows a) (pk_uuid h) (pk_obj h) = None) →
  (∀ a', settles a (keep_rows ps (a_rows a)) 0 a' → Q (Ok tt) a') →
  wp (for_each ps (λ x : PropertyKey * PropPerms,
        edit (ScopePermissions x.1)
          (r_upsert ObjectPropflags x.1 x.2 "Error preserving property flags") ;;
        modify_memo (Memo.mark_known_propflags x.1))) Q a.
Proof.
  revert a. induction ps as [|[h p] ps IH]; intros a Hs Hat HQ; cbn [for_each keep_rows fold_left] in *.
  { apply wp_ret, HQ. by apply (settles_refl fuel). }
  apply wp_bind, keep_wp; [done|by apply (Hat h p); constructor|]. cbn [fst snd]. intros a1 Hr1.
  pose proof (se_rows _ _ _ _ _ Hr1) as Hrows. apply IH.
  - by eapply settles_steady.
  - intros h' p' Hin. rewrite Hrows. apply (Hat h' p'). by constructor.
  - intros a' Ha'. apply HQ. rewrite Hrows in Ha'. exact (settles_trans _ _ _ _ _ _ _ _ Hr1 Ha').
Qed.

Lemma keep_views ps v :
  parents (keep_rows ps v) = parents v ∧ verbdefs (keep_rows ps v) = verbdefs v ∧
  propdefs (keep_rows ps v) = propdefs v ∧ owners (keep_rows ps v) = owners v.
Proof.
  unfold keep_rows. revert v. induction ps as [|x ps IH]; intros v; cbn [fold_left]; [done|].
  destruct (IH (edit_flags (pk_obj x.1) (pk_uuid x.1) x.2 v)) as (-> & -> & -> & ->). done.
Qed.

Lemma keep_propflags ps v h :
  (∀ p p', (h, p) ∈ ps → (h, p') ∈ ps → p = p') →
  propflags (keep_rows ps v) !! h = propflags v !! h ∧ (∀ p, (h, p) ∉ ps) ∨
  ∃ p, (h, p) ∈ ps ∧ propflags (keep_rows ps v) !! h = Some p.
Proof.
  unfold keep_rows. revert v. induction ps as [|[h1 p1] ps IH]; intros v Huniq; cbn [fold_left].
  { left. split; [done|]. intros p. apply not_elem_of_nil. }
  destruct (IH (edit_flags (pk_obj h1) (pk_uuid h1) p1 v)) as [[Hf Hn]|(p & Hp & Hf)].
  { intros p p' Hp Hp'. apply Huniq; by constructor. }
  - cbn [fst snd]. rewrite Hf. change (propflags (edit_flags _ _ p1 v)) with
      (<[mkPropertyKey (pk_obj h1) (pk_uuid h1) := p1]> (propflags v)).
    assert (mkPropertyKey (pk_obj h1) (pk_uuid h1) = h1) as -> by (by destruct h1).
    destruct (decide (h1 = h)) as [->|Hne].
    + right. exists p1. split; [constructor|]. by rewrite lookup_insert_eq.
    + left. rewrite lookup_insert_ne by done. split; [done|].
      intros p [[= -> _]|Hp]%elem_of_cons; [done|by apply (Hn p)].
  - right. exists p. split; [by constructor|done].
Qed.

Lemma world_keep ps v : world_ok v → world_ok (keep_rows ps v).
Proof.
  unfold keep_rows. revert v. induction ps as [|x ps IH]; intros v Hw; cbn [fold_left]; [done|].
  by apply IH, world_flags.
Qed.
Lemma world_owner o w v : world_ok v → world_ok (put ObjectOwner (<[o := w]> (owners v)) v).
Proof. intros [? ? ? ? ? ?]. by split. Qed.

Lemma owner_edited o w v c m :
  coherent names v c m →
  coherent names (put ObjectOwner (<[o := w]> (owners v)) v) c (Memo.invalidate_cached_for_obj o m).
Proof.
  intros [Hvc Hpc Hac [Hp Hk]]. split; [by destruct Hvc|by destruct Hpc|exact Hac|]. split; [|done].
  intros o' u p l. unfold Memo.cached_perms. cbn [Memo.invalidate_cached_for_obj Memo.perms_by_holder].
  rewrite map_lookup_filter_Some. cbn. intros [Hm Hne] Hl.
  rewrite (perms_of_agree v); [by eapply Hp|done| |done|done].
  change (<[o := w]> (owners v) !! o' = owners v !! o'). by rewrite lookup_insert_ne.
Qed.

Lemma filter_self (m : gmap Obj Obj) o l :
  chain m o l → List.filter (λ x, negb (bool_decide (x = o))) (o :: l) = l.
Proof.
  intros Hl%chain_irrefl. cbn [List.filter]. rewrite bool_decide_eq_true_2 by done. simpl.
  induction l as [|x l IH]; [done|]. apply not_elem_of_cons in Hl as [Hne Hl]. simpl.
  rewrite bool_decide_eq_false_2 by auto. simpl. f_equal. by apply IH.
Qed.

Lemma kept_inherited v o l u p : world_ok v → kept v o l u = Some p →
  propflags v !! mkPropertyKey o u = None ∧ perms_of v o u l = Ok p ∧ uuid_at v u o = None.
Proof.
  intros Hw. unfold kept. destruct (propflags v !! _) eqn:Hf; [done|].
  destruct (perms_of v o u l) as [q|] eqn:Hp; [|done]. destruct (BitEnumOps.contains _ _); [|done].
  intros [= <-]. split_and!; [done..|]. by eapply inherited_perms.
Qed.

Lemma set_object_owner_wp o w l Q a :
  steady a → chain (rows_parents a) o l →
  (∀ a', settles a (if decide (owners (a_rows a) !! o = Some w) then a_rows a
                    else owner_rows o w l (a_rows a)) 0 a' → Q (Ok tt) a') →
  wp (set_object_owner fuel o w) Q a.
Proof.
  intros Hs Hl HQ. unfold set_object_owner. apply wp_bind.
  apply (wp_get_is pms base ObjectOwner o _ (owners (a_rows a) !! o)); [done|].
  case_decide as Hcur.
  { rewrite bool_decide_eq_true_2 by exact Hcur. apply wp_ret, HQ. by apply (settles_refl fuel). }
  rewrite bool_decide_eq_false_2 by exact Hcur. pose proof (steady_fuel _ _ _ _ _ Hs Hl) as Hlen.
  apply wp_bind, (ancestors_refresh pms base fuel names o true l); [apply Hs|done..|].
  intros a1 Hr1. apply (refreshes_settles fuel) in Hr1; [|done].
  apply wp_bind, (note_owner_wp pms base fuel names); [by apply (quiet_now a)|]. intros a2 Hr2.
  apply (quiet a _ _ Hr1) in Hr2. rewrite (filter_self _ _ _ Hl).
  apply wp_bind, (preserve_all_wp a); [done..|]. intros a3 Hr3.
  pose proof (sd_world _ _ _ Hs) as Hw.
  apply wp_bind, keep_loop_wp; [by apply (quiet_now a)|..].
  { rewrite (quiet_rows a _ Hr3). intros h p (x & u & _ & _ & -> & Hk)%elem_of_keep_all.
    by eapply kept_inherited. }
  intros a4 Hr4. rewrite (quiet_rows a _ Hr3) in Hr4.
  pose proof (settles_trans _ _ _ _ _ _ _ _ Hr3 Hr4) as [Hr Hrev Hseq Hw4 Hc4].
  apply wp_edit; [done|]. apply (wp_upsert pms base ObjectOwner). apply HQ. split.
  - simpl. by rewrite Hr.
  - simpl. lia.
  - done.
  - by apply world_owner.
  - unfold a_coherent in *. simpl. rewrite Hr in *. by apply owner_edited.
Qed.

(** ** No permission changes *)

Lemma kept_unique v o l h p p' :
  (h, p) ∈ keep_all v o l → (h, p') ∈ keep_all v o l → p = p'.
Proof.
  intros (x & u & _ & _ & -> & Hk)%elem_of_keep_all (x' & u' & _ & _ & [= <-] & Hk')%elem_of_keep_all.
  congruence.
Qed.

Lemma owner_flags o w l v h :
  propflags (owner_rows o w l v) !! h = propflags (keep_rows (keep_all v o l) v) !! h.
Proof. done. Qed.

(** Rows that were there stay. *)
Lemma owner_flags_old o w l v h p :
  world_ok v → propflags v !! h = Some p → propflags (owner_rows o w l v) !! h = Some p.
Proof.
  intros Hw Hh. rewrite owner_flags.
  destruct (keep_propflags (keep_all v o l) v h) as [[-> _]|(q & Hq & _)]; [|done|].
  { intros p1 p2. apply kept_unique. }
  apply elem_of_keep_all in Hq as (x & u & _ & _ & -> & Hk).
  apply kept_inherited in Hk as (Hn & _); [congruence|done].
Qed.

Lemma owner_perms_other o w l v o' u l' :
  world_ok v → o' ≠ o → perms_of (owner_rows o w l v) o' u l' = perms_of v o' u l'.
Proof.
  intros Hw Hne. destruct (keep_views (keep_all v o l) v) as (_ & _ & Hd & Ho).
  apply perms_of_agree.
  - intros x _. unfold uuid_at. change (propdefs (owner_rows o w l v))
      with (propdefs (keep_rows (keep_all v o l) v)). by rewrite Hd.
  - change (owners (owner_rows o w l v)) with (<[o := w]> (owners (keep_rows (keep_all v o l) v))).
    by rewrite lookup_insert_ne, Ho.
  - rewrite owner_flags. destruct (keep_propflags (keep_all v o l) v (mkPropertyKey o' u))
      as [[-> _]|(q & Hq & _)]; [|done|].
    { intros p1 p2. apply kept_unique. }
    apply elem_of_keep_all in Hq as (x & u' & _ & _ & [= ? ?] & _). done.
  - intros pd Hpd. destruct (canonical_flags v o' u l' pd Hw Hpd) as [cp Hcp]. rewrite Hcp.
    by apply owner_flags_old.
Qed.

Lemma chown_with_owner w p :
  BitEnumOps.contains PropChown (PropPermsOps.flags (PropPermsOps.with_owner w p)) =
  BitEnumOps.contains PropChown (PropPermsOps.flags p).
Proof.
  unfold PropPermsOps.with_owner. unfold PropPermsOps.flags at 1, PropPermsOps.slice.
  rewrite new_bytes, drop_app_length' by (by rewrite le_bytes_length).
  rewrite take_ge by (by rewrite le_bytes_length).
  generalize (PropPermsOps.flags p). intros [x]. unfold BitEnumOps.contains, BitEnumOps.from_u16,
    BitEnumOps.to_u16. cbn [be_value]. do 2 f_equal. rewrite le_bytes_S. cbn [from_le_bytes].
  change (BitEnumOps.bit PropChown) with 4. rewrite Z.land_lor_distr_l, <-Z.land_assoc.
  change (Z.land 255 4) with 4. set (y := from_le_bytes _).
  assert (Z.land (Z.shiftl y 8) 4 = 0) as ->; [|by rewrite Z.lor_0_r].
  apply Z.bits_inj'. intros n Hn. rewrite Z.land_spec, Z.shiftl_spec, Z.bits_0 by done.
  destruct (Z.ltb_spec n 8) as [Hlt|Hge]; [by rewrite Z.testbit_neg_r by lia|].
  rewrite (Z.bits_above_log2 4 n), andb_false_r; [done|done|]. change (Z.log2 4) with 2. lia.
Qed.

(** Permissions the owner decides are kept: such a property is defined above. *)
Lemma owner_decides v o u l pd cp :
  world_ok v → propflags v !! mkPropertyKey o u = None → find_uuid v u (o :: l) = Some pd →
  propflags v !! mkPropertyKey (propdef_definer pd) u = Some cp →
  BitEnumOps.contains PropChown (PropPermsOps.flags cp) = true →
  ∃ p, (mkPropertyKey o u, p) ∈ keep_all v o l.
Proof.
  intros Hw Hf Hpd Hcp Hch. destruct (find_uuid_definer v u _ _ Hw Hpd) as [Hin Hat].
  assert (propdef_definer pd ≠ o) as Hne by (intros He; rewrite He in Hcp; congruence).
  assert (propdef_definer pd ∈ l) as Hl by (apply elem_of_cons in Hin as [?|?]; done).
  destruct (perms_found v o u l Hw ltac:(by rewrite Hpd)) as [p Hp]. exists p.
  apply elem_of_keep_all. exists (propdef_definer pd), u. split_and!; [done| |done|].
  - unfold uuid_at in Hat. unfold defined_uuids, own_props.
    destruct (propdefs v !! propdef_definer pd) as [d|]; simpl in *; [|done].
    apply find_some in Hat as [Hd%list_elem_of_In <-%bool_decide_eq_true].
    by apply list_elem_of_fmap_2.
  - unfold kept. rewrite Hf, Hp. unfold perms_of in Hp. rewrite Hf, Hpd, Hcp, Hch in Hp.
    injection Hp as <-. destruct (negb _); cbn [andb]; [rewrite chown_with_owner|]; by rewrite Hch.
Qed.

Lemma owner_perms_self o w l v u :
  world_ok v → perms_of (owner_rows o w l v) o u l = perms_of v o u l.
Proof.
  intros Hw. pose proof (keep_propflags (keep_all v o l) v (mkPropertyKey o u)
    ltac:(intros p1 p2; apply kept_unique)) as Hkeep. rewrite <-(owner_flags o w l) in Hkeep.
  destruct Hkeep as [[Hsame Hnone]|(p & Hin & Hsome)].
  2:{ unfold perms_of at 1. rewrite Hsome.
      apply elem_of_keep_all in Hin as (x & u' & _ & _ & [= <-] & Hk).
      by apply kept_inherited in Hk as (_ & -> & _). }
  unfold perms_of. rewrite Hsame. destruct (propflags v !! mkPropertyKey o u) eqn:Hf; [done|].
  destruct (keep_views (keep_all v o l) v) as (_ & _ & Hd & _).
  assert (find_uuid (owner_rows o w l v) u (o :: l) = find_uuid v u (o :: l)) as ->.
  { apply first_some_ext. intros x _. unfold uuid_at. change (propdefs (owner_rows o w l v))
      with (propdefs (keep_rows (keep_all v o l) v)). by rewrite Hd. }
  destruct (find_uuid v u (o :: l)) as [pd|] eqn:Hpd; [|done].
  destruct (canonical_flags _ _ _ _ _ Hw Hpd) as [cp Hcp].
  rewrite (owner_flags_old o w l v _ _ Hw Hcp), Hcp.
  destruct (BitEnumOps.contains PropChown (PropPermsOps.flags cp)) eqn:Hch; [|done].
  destruct (owner_decides v o u l pd cp Hw Hf Hpd Hcp Hch) as [p Hin]. by destruct (Hnone p).
Qed.
End owner.

