(* ===== verification/WsLife.v ===== *)
(** The life of an object: moving it, recycling it and creating it. *)
From S2P Require Import Prelude Obj TxTypes RelIndex RelTx RelTxSpec RelTxProofs Model.
From S2P Require Import Verbs Caches Relations CommitProofs Forest.
From S2P Require Import WsBase WsObjects WsVerbs WsProps WsSpec WsViews WsHierarchy WsResolve.
From S2P Require Import WsInherit WsCoherent WsEdits WsPropEdits.
From Stdlib Require Import FunctionalExtensionality.
From stdpp Require Import base gmap sets list strings fin_maps.

Open Scope Z_scope.
Open Scope ws_scope.
#[local] Opaque is_nothing WsSpec.wp.

Section life.
Context `{Hashes} `{Payload} `{!Values} `{Interner}.
Context {P : DatabaseRelation → Type} `{∀ r, Provider (P r) (DomainOf r) (CodomainOf r)}.
Context (pms : ∀ r, gmap (DomainOf r) (Timestamp * CodomainOf r)).
Context (base : ∀ r, gmap (DomainOf r) (Entry (CodomainOf r))).
Context (fuel : nat).
Context (names : Symbol → Prop) (Hnames : ∀ n n', names n → names n' → interned n n').
Implicit Types a : astate.
Implicit Types v : Views.
#[local] Notation wp := (wp (P := P) pms base).
#[local] Notation rows_parents a := (parents (a_rows a)).
#[local] Notation steady := (steady fuel names).
#[local] Notation settles := (settles names).

(** ** Moving *)

(** A move that would put an object into itself. *)
Definition recursive (m : gmap Obj Obj) (what target : Obj) : Prop :=
  is_nothing target = false ∧ below m what target.

Definition move_rows what target v : Views :=
  put ObjectLocation (<[what := target]> (locations v)) v.

Lemma contents_wp o Q a :
  (∀ l, NoDup l → (∀ x, x ∈ l ↔ locations (a_rows a) !! x = Some o) → Q (Ok l) a) →
  wp (get_object_contents o) Q a.
Proof.
  intros HQ. apply (wp_by_codomain pms base ObjectLocation o); [done|].
  intros l Hn Hl. apply HQ; [done|]. intros x. rewrite Hl. split; [|intros Hx; by exists o].
  intros (p & Hp & He). change (p = o) in He. by rewrite <-He.
Qed.

Lemma below_chain m r x l : chain m x l → below m r x ↔ r ∈ x :: l.
Proof.
  intros Hl. rewrite elem_of_cons. unfold below, sbelow. split.
  - intros [->|(l' & Hl' & Hr)]; [by left|]. right. by rewrite (chain_det _ _ _ _ Hl Hl').
  - intros [->|Hr]; [by left|]. right. by exists l.
Qed.

Lemma set_object_location_wp what target l Q a :
  chain (locations (a_rows a)) target l → (length l + 1 < fuel)%nat →
  (recursive (locations (a_rows a)) what target → Q (Err (WsErr (RecursiveMove what target))) a) →
  (~ recursive (locations (a_rows a)) what target →
   Q (Ok tt) (set_rows ObjectLocation (<[what := target]> (locations (a_rows a))) a)) →
  wp (set_object_location fuel what target) Q a.
Proof.
  intros Hl Hlen Herr HQ. unfold recursive in *. rewrite (below_chain _ _ _ l) in * by done.
  unfold set_object_location. apply wp_bind. eapply recursive_move_wp; [done..|].
  case_decide as Hrec; [by apply Herr|].
  apply wp_bind, (wp_get_is pms base ObjectLocation what _ (locations (a_rows a) !! what)); [done|].
  case_bool_decide as Hcur.
  - apply wp_ret. specialize (HQ Hrec). rewrite insert_id in HQ by exact Hcur.
    change (locations (a_rows a)) with (a_rows a ObjectLocation) in HQ. by rewrite set_rows_same in HQ.
  - apply (wp_upsert pms base ObjectLocation). by apply HQ.
Qed.

(** Emptying an object: a move to [NOTHING] never recurses. *)
Lemma empty_wp cs Q a :
  (1 < fuel)%nat →
  Q (Ok tt) (set_rows ObjectLocation (fold_left (λ m c, <[c := NOTHING]> m) cs (locations (a_rows a))) a) →
  wp (for_each cs (λ c, set_object_location fuel c NOTHING)) Q a.
Proof.
  intros Hf. revert a. induction cs as [|c cs IH]; intros a HQ; cbn [for_each fold_left] in *.
  { apply wp_ret. change (locations (a_rows a)) with (a_rows a ObjectLocation) in HQ.
    by rewrite set_rows_same in HQ. }
  apply wp_bind. unfold set_object_location at 1. apply wp_bind.
  assert (∃ n, fuel = S n) as [n Hn] by (exists (pred fuel); lia).
  rewrite Hn at 1. cbn [recursive_move_loop]. rewrite is_nothing_NOTHING. apply wp_ret.
  apply wp_bind, (wp_get_is pms base ObjectLocation c _ (locations (a_rows a) !! c)); [done|].
  case_bool_decide as Hcur.
  - apply wp_ret, IH. rewrite insert_id in HQ by exact Hcur. exact HQ.
  - apply (wp_upsert pms base ObjectLocation), IH. rewrite set_rows_twice. exact HQ.
Qed.

Lemma lookup_fold_insert (cs : list Obj) (p : Obj) (m : gmap Obj Obj) x :
  fold_left (λ m c, <[c := p]> m) cs m !! x = if decide (x ∈ cs) then Some p else m !! x.
Proof.
  revert m. induction cs as [|c cs IH]; intros m; [done|]. cbn [fold_left]. rewrite IH.
  destruct (decide (x ∈ cs)) as [Hx|Hx].
  - by rewrite decide_True by (by constructor).
  - destruct (decide (c = x)) as [->|Hne].
    + by rewrite lookup_insert_eq, decide_True by constructor.
    + rewrite lookup_insert_ne, decide_False; [done| |done]. apply not_elem_of_cons.
      by split; [apply not_eq_sym|].
Qed.

(** Every row that points to [o] pointed to [p]. *)
Definition redirect (o p : Obj) (m : gmap Obj Obj) : gmap Obj Obj :=
  (λ q, if decide (q = o) then p else q) <$> m.

Lemma fold_insert_redirect cs o p m :
  (∀ x, x ∈ cs ↔ m !! x = Some o) → fold_left (λ m c, <[c := p]> m) cs m = redirect o p m.
Proof.
  intros Hcs. apply map_eq. intros x. rewrite lookup_fold_insert. unfold redirect. rewrite lookup_fmap.
  case_decide as Hx.
  - apply Hcs in Hx. rewrite Hx. simpl. by rewrite decide_True.
  - destruct (m !! x) as [q|] eqn:Hq; [|done]. simpl. rewrite decide_False; [done|].
    intros ->. apply Hx. by apply Hcs.
Qed.

(** ** Recycling *)

Lemma reparent_wp p lp cs Q a :
  steady a → (∀ c, c ∈ cs → is_nothing c = false ∧ is_Some (rows_parents a !! c)) →
  (is_nothing p = false → chain (rows_parents a) p lp ∧ ∀ c, c ∈ cs → c ∉ p :: lp) →
  (∀ a', settles a (put ObjectParent (fold_left (λ m c, <[c := p]> m) cs (rows_parents a))
                      (a_rows a)) 0 a' → Q (Ok tt) a') →
  wp (for_each cs (λ c, set_object_parent fuel c p)) Q a.
Proof.
  revert a. induction cs as [|c cs IH]; intros a Hs Hcs Hp HQ; cbn [for_each fold_left] in *.
  { apply wp_ret, HQ. change (rows_parents a) with (a_rows a ObjectParent).
    rewrite put_same. by apply (settles_refl fuel). }
  destruct (Hcs c) as [Hc Hrow]; [by constructor|].
  apply wp_bind, (set_object_parent_wp pms base fuel names Hnames); [done..| |].
  { intros Hn Hb. destruct (Hp Hn) as [Hlp Hout]. apply (Hout c); [by constructor|].
    by apply (below_chain (rows_parents a) c p lp). }
  intros a1 Hr1. pose proof (se_rows _ _ _ _ _ Hr1) as Hrows.
  assert (rows_parents a1 = <[c := p]> (rows_parents a)) as Hpar by (by rewrite Hrows).
  apply IH.
  - eapply settles_steady; [done..|].
    change (size (<[c := p]> (rows_parents a)) ≤ size (rows_parents a))%nat.
    by rewrite map_size_insert_Some.
  - intros c' Hc'. destruct (Hcs c') as [Hn' Hrow']; [by constructor|]. split; [done|].
    rewrite Hpar. by apply lookup_insert_is_Some'; right.
  - intros Hn. destruct (Hp Hn) as [Hlp Hout]. split.
    + rewrite Hpar. apply (chain_agree (rows_parents a)); [done|]. intros x Hx.
      rewrite lookup_insert_ne; [done|]. intros ->. apply (Hout x); [by constructor|done].
    + intros c' Hc'. apply Hout. by constructor.
  - intros a' Ha'. apply HQ. rewrite Hpar, Hrows, put_twice in Ha'.
    exact (settles_trans _ _ _ _ _ _ _ _ Hr1 Ha').
Qed.

(** What is above the parent of an object is not below the object. *)
Lemma children_outside m o p lp c :
  acyclic m → is_nothing o = false → default NOTHING (m !! o) = p → is_nothing p = false →
  chain m p lp → m !! c = Some o → c ∉ p :: lp.
Proof.
  intros Ha Ho Hp Hn Hlp Hc.
  assert (up m o = Some p) as Hup.
  { apply up_some. split; [|done]. destruct (m !! o) as [q|]; simpl in Hp; [by rewrite Hp|].
    subst p. by rewrite is_nothing_NOTHING in Hn. }
  assert (chain m c (o :: p :: lp)) as Hcc.
  { constructor; [by apply up_some|]. by constructor. }
  apply chain_irrefl in Hcc. apply not_elem_of_cons in Hcc as [_ Hcc]. done.
Qed.

Lemma parent_ne m o : acyclic m → is_nothing o = false → default NOTHING (m !! o) ≠ o.
Proof.
  intros Ha Ho Hp. assert (up m o = Some o) as Hup.
  { apply up_some. split; [|done]. destruct (m !! o) as [q|]; simpl in Hp; [by rewrite Hp|].
    subst o. by rewrite is_nothing_NOTHING in Ho. }
  destruct (Ha o) as [l Hl]. pose proof Hl as Hirr%chain_irrefl. apply chain_inv in Hl.
  destruct l as [|q l]; [congruence|]. destruct Hl as [Hq _]. rewrite Hup in Hq. injection Hq as <-.
  apply Hirr. by constructor.
Qed.

(** The rows without object [o]. *)
Definition remove_rows o v : Views :=
  put ObjectPropdefs (delete o (propdefs v))
    (put ObjectPropvalues (foldl (λ m k, delete k m) (propvalues v)
       (map (λ p, mkPropertyKey o (propdef_uuid p)) (contents (own_props v o))))
    (put ObjectVerbdefs (delete o (verbdefs v))
    (put EntityMetadata (metadata_without (MetadataKey.references_obj o) v)
    (put ObjectOwner (delete o (owners v))
    (put ObjectName (delete o (obj_names v))
    (put ObjectFlags (delete o (obj_flags v))
    (put ObjectLocation (delete o (locations v))
    (put ObjectParent (delete o (parents v)) v)))))))).

Lemma world_remove o v : world_ok v → world_ok (remove_rows o v).
Proof.
  intros [Ha Hnn Hd Hv Hcan Hu]. split.
  - by apply acyclic_delete.
  - intros x [y Hy]. apply Hnn. change (delete o (parents v) !! x = Some y) in Hy.
    apply lookup_delete_Some in Hy as [_ Hy]. by exists y.
  - intros x d p Hx Hp. change (delete o (propdefs v) !! x = Some d) in Hx.
    apply lookup_delete_Some in Hx as [_ Hx]. by eapply Hd.
  - intros x d p Hx Hp. change (delete o (verbdefs v) !! x = Some d) in Hx.
    apply lookup_delete_Some in Hx as [_ Hx]. by eapply Hv.
  - intros x d p Hx Hp. change (delete o (propdefs v) !! x = Some d) in Hx.
    apply lookup_delete_Some in Hx as [_ Hx]. by eapply Hcan.
  - intros x d Hx. change (delete o (verbdefs v) !! x = Some d) in Hx.
    apply lookup_delete_Some in Hx as [_ Hx]. by eapply Hu.
Qed.

Lemma remove_coherent o v c m :
  world_ok v → (∀ x, parents v !! x ≠ Some o) → coherent names v c m →
  coherent names (remove_rows o v) (hierarchy_caches [o] c) (forget_known [o] (forget_cached [o] m)).
Proof.
  intros Hw Hno Hc.
  assert (∀ x : Obj, x ∉ [o] → o ≠ x) as Hne by (intros x Hx ->; apply Hx; constructor).
  apply (hierarchy_coherent names Hnames [o] v _ c m); try done.
  - split; [apply Hw| |].
    + intros x y Hu ->%list_elem_of_singleton. apply up_some in Hu as [Hu _]. by destruct (Hno x).
    + intros x Hx%Hne. change (delete o (parents v) !! x = parents v !! x).
      by rewrite lookup_delete_ne.
  - intros x Hx%Hne. change (delete o (verbdefs v) !! x = verbdefs v !! x). by rewrite lookup_delete_ne.
  - intros x Hx%Hne. change (delete o (propdefs v) !! x = propdefs v !! x). by rewrite lookup_delete_ne.
  - intros x Hx%Hne. change (delete o (owners v) !! x = owners v !! x). by rewrite lookup_delete_ne.
  - intros h [_ Hh]%known_forget. by rewrite known_forget_cached in Hh.
Qed.

Lemma views_ext v v' : (∀ r, v r = v' r) → v = v'.
Proof. apply functional_extensionality_dep. Qed.

Lemma delete_values_wp o (ps : list PropDef) Q a :
  Q (Ok tt) (set_rows ObjectPropvalues (foldl (λ m k, delete k m) (propvalues (a_rows a))
               (map (λ p, mkPropertyKey o (propdef_uuid p)) ps)) a) →
  wp (for_each ps (λ p, r_delete ObjectPropvalues (mkPropertyKey o (propdef_uuid p))
                          "Error deleting property value")) Q a.
Proof.
  revert a. induction ps as [|p ps IH]; intros a HQ; cbn [for_each map foldl] in *.
  { apply wp_ret. change (propvalues (a_rows a)) with (a_rows a ObjectPropvalues) in HQ.
    by rewrite set_rows_same in HQ. }
  apply wp_bind, (wp_delete pms base ObjectPropvalues), IH. rewrite set_rows_twice. exact HQ.
Qed.

Definition with_rows v a : astate :=
  mkA v (a_caches a) (a_memo a) (a_revision a) (a_sequences a) (a_owners a) (a_policies a).

Lemma with_rows_id a : with_rows (a_rows a) a = a.
Proof. by destruct a. Qed.
(** A state after a write, as rows over the state before all of them. *)
#[local] Ltac as_rows a :=
  match goal with |- context [set_rows ?r ?m (with_rows ?v a)] =>
    change (set_rows r m (with_rows v a)) with (with_rows (put r m v) a) end.

Lemma delete_rows_wp r d msg v Q a :
  Q (Ok tt) (with_rows (put r (delete d (v r)) v) a) → wp (r_delete r d msg) Q (with_rows v a).
Proof. intros HQ. apply wp_delete. exact HQ. Qed.

Lemma remove_object_rows_wp o Q a :
  Q (Ok tt) (with_rows (remove_rows o (a_rows a)) a) →
  wp (remove_object_rows o (own_props (a_rows a) o)) Q a.
Proof.
  intros HQ. unfold remove_object_rows. set (d := own_props (a_rows a) o).
  rewrite <-(with_rows_id a).
  do 7 (apply wp_bind, delete_rows_wp). apply wp_bind, delete_metadata_wp.
  as_rows a.
  apply wp_bind, delete_rows_wp, wp_bind, delete_values_wp.
  as_rows a.
  apply wp_bind, wp_attempt, delete_rows_wp, wp_ret.
  match goal with |- Q _ (with_rows ?rows a) =>
    rewrite (views_ext rows (remove_rows o (a_rows a))); [exact HQ|] end.
  clear HQ. intros []; try reflexivity.
  - exact (delete_delete_eq (locations (a_rows a)) o).
  - exact (delete_delete_eq (parents (a_rows a)) o).
Qed.

(** What recycling leaves: children under the parent, contents nowhere. *)
Definition recycle_rows o v : Views :=
  remove_rows o
    (put ObjectParent (redirect o (default NOTHING (parents v !! o)) (parents v))
       (put ObjectLocation (redirect o NOTHING (locations v)) v)).

Lemma recycle_object_wp o Q a :
  steady a → is_nothing o = false → a_revision a < u64_max → (1 < fuel)%nat →
  (∀ a', settles a (recycle_rows o (a_rows a)) 1 a' → Q (Ok tt) a') →
  wp (recycle_object fuel o) Q a.
Proof.
  intros Hs Ho Hrev Hf HQ. unfold recycle_object. apply wp_bind, contents_wp. intros cs _ Hcs.
  apply wp_bind, get_parent_wp. set (p := default NOTHING (rows_parents a !! o)).
  apply wp_bind, children_wp. intros ks _ Hks. pose proof (sd_world _ _ _ Hs) as Hw.
  apply wp_bind, empty_wp; [done|]. rewrite (fold_insert_redirect _ o) by done.
  pose proof (settles_frame fuel names Hnames ObjectLocation (redirect o NOTHING (locations (a_rows a)))
    a eq_refl Hs) as Hr1. set (a1 := set_rows ObjectLocation _ a) in *.
  assert (steady a1) as Hs1 by (by eapply settles_steady).
  destruct (wo_parents _ Hw p) as [lp Hlp].
  apply wp_bind, (reparent_wp p lp); [done|..].
  { intros c Hc%Hks. split; [|by exists o]. apply (wo_named _ Hw). by exists o. }
  { intros Hn. split; [exact Hlp|]. intros c Hc%Hks. by apply (children_outside (rows_parents a) o); [apply Hw|..]. }
  intros a2 Hr2. rewrite (fold_insert_redirect _ o) in Hr2 by exact Hks.
  pose proof (settles_trans _ _ _ _ _ _ _ _ Hr1 Hr2) as Hr12.
  pose proof (se_rows _ _ _ _ _ Hr12) as Hrows.
  set (v2 := put ObjectParent _ _) in *. apply wp_bind, get_properties_wp.
  destruct Hr12 as [_ Hrev2 Hseq2 Hw2 Hc2].
  apply wp_edit; [intros _; lia|]. cbn [a_rows before_edit].
  change (a_rows a2) with (a_rows (before_edit (ScopeRemove [o] [o]) a2)).
  apply remove_object_rows_wp, HQ. split.
  - cbn. rewrite Hrows. done.
  - cbn. lia.
  - done.
  - by apply world_remove.
  - unfold a_coherent in *. cbn [after_edit with_rows with_a_memo with_a_caches a_rows a_caches a_memo
      before_edit invalidate_caches invalidate_memo]. rewrite Hrows in *.
    apply remove_coherent; [done| |done]. intros x Hx.
    change (redirect o p (rows_parents a) !! x = Some o) in Hx. unfold redirect in Hx.
    apply lookup_fmap_Some in Hx as (q & Hq & Hx). case_decide; [|congruence].
    by apply (parent_ne (rows_parents a) o); [apply Hw|..].
Qed.

(** ** Creating *)

Definition with_a_sequences q a : astate :=
  mkA (a_rows a) (a_caches a) (a_memo a) (a_revision a) q (a_owners a) (a_policies a).

Lemma with_a_sequences_id a : with_a_sequences (a_sequences a) a = a.
Proof. by destruct a. Qed.

Lemma wp_increment seq Q a :
  Q (Ok (Sequences.increment seq (a_sequences a)).2)
    (with_a_sequences (Sequences.increment seq (a_sequences a)).1 a) →
  wp (increment_sequence seq) Q a.
Proof.
  with_strategy transparent [WsSpec.wp] (intros HQ s Hs <-). unfold increment_sequence.
  cbn [abs a_sequences] in HQ. destruct (Sequences.increment _ _). by split.
Qed.
Lemma wp_update_max seq x Q a :
  Q (Ok (Sequences.update_max seq x (a_sequences a)).2)
    (with_a_sequences (Sequences.update_max seq x (a_sequences a)).1 a) →
  wp (update_sequence_max seq x) Q a.
Proof.
  with_strategy transparent [WsSpec.wp] (intros HQ s Hs <-). unfold update_sequence_max.
  cbn [abs a_sequences] in HQ. destruct (Sequences.update_max _ _ _). by split.
Qed.

(** An identifier no row uses, in the transaction or the snapshot it started from. *)
Record unused (id : Obj) v : Prop := {
  un_valid : is_valid_object id = true;
  un_row : parents v !! id = None;
  un_childless x : parents v !! x ≠ Some id;
  un_owner : base ObjectOwner !! id = None;
  un_name : base ObjectName !! id = None;
  un_parent : base ObjectParent !! id = None;
  un_flags : base ObjectFlags !! id = None;
}.

Lemma valid_kinds id :
  is_valid_object id = true →
  is_nothing id = false ∧ (is_uuobjid id = true ∨ is_anonymous id = true ∨ is_Some (Obj.id id)).
Proof.
  with_strategy transparent [is_nothing] (unfold is_valid_object, is_nothing, is_uuobjid,
    is_anonymous, Obj.id).
  destruct (Z.eqb_spec (object_type_code id) OBJID_TYPE_CODE) as [_|_]; cbn [andb].
  - intros Hd%Z.leb_le. split; [apply Z.eqb_neq; lia|]. right. right. by eexists.
  - destruct (object_type_code id =? UUOBJID_TYPE_CODE).
    { intros _. split; [reflexivity|]. by left. }
    destruct (object_type_code id =? ANONYMOUS_TYPE_CODE); [|discriminate].
    intros _. split; [reflexivity|]. right. by left.
Qed.

Definition put_parent id (p : option Obj) v : Views :=
  match p with Some p => put ObjectParent (<[id := p]> (parents v)) v | None => v end.
Definition put_location id (p : option Obj) v : Views :=
  match p with Some p => put ObjectLocation (<[id := p]> (locations v)) v | None => v end.
Definition create_rows id (attrs : ObjAttrs) v : Views :=
  let v := put ObjectOwner (<[id := default id (ObjAttrsOps.owner attrs)]> (owners v)) v in
  let v := put ObjectName (<[id := mkStringHolder (default "" (ObjAttrsOps.name attrs))]> (obj_names v))
             v in
  let v := put_location id (ObjAttrsOps.location attrs) (put_parent id (ObjAttrsOps.parent attrs) v) in
  put ObjectFlags (<[id := ObjAttrsOps.flags attrs]> (obj_flags v)) v.

(** An object without ancestors does not inherit from its owner. *)
Lemma orphan_owner id w v c m :
  world_ok v → parents v !! id = None → coherent names v c m →
  coherent names (put ObjectOwner (<[id := w]> (owners v)) v) c m.
Proof.
  intros Hw Hid [Hvc Hpc Hac Hmc]. split; [by destruct Hvc|by destruct Hpc|exact Hac|].
  apply (memo_transport v _ m); try done. intros o u p l Hm Hl. split_and!; [done..|].
  destruct (decide (o = id)) as [->|Hne].
  2:{ apply perms_of_agree; try done.
      change (<[id := w]> (owners v) !! o = owners v !! o). by rewrite lookup_insert_ne. }
  assert (l = []) as ->.
  { apply (chain_det (parents v) id); [exact Hl|]. constructor. unfold up. by rewrite Hid. }
  unfold perms_of. change (propflags (put ObjectOwner _ v)) with (propflags v).
  change (find_uuid (put ObjectOwner _ v) u [id]) with (find_uuid v u [id]).
  destruct (propflags v !! mkPropertyKey id u); [done|].
  destruct (find_uuid v u [id]) as [pd|] eqn:Hpd; [|done].
  destruct (find_uuid_definer v u _ _ Hw Hpd) as [->%list_elem_of_singleton _].
  destruct (propflags v !! _); [|done]. rewrite (bool_decide_eq_true_2 (id = id)) by done.
  simpl. by rewrite andb_false_r.
Qed.

Lemma unused_below m id p :
  (∀ x, m !! x ≠ Some id) → p ≠ id → ~ below m id p.
Proof.
  intros Hno Hne [->|(l & Hl & Hin)]; [done|].
  induction Hl as [o Hu|o q l Hu Hl IH]; [by apply elem_of_nil in Hin|].
  apply up_some in Hu as [Hu _]. apply elem_of_cons in Hin as [->|Hin]; [by destruct (Hno o)|].
  apply IH; [|done]. intros ->. by destruct (Hno o).
Qed.

Lemma initial_parent_wp id p Q a :
  world_ok (a_rows a) → a_coherent names a → unused id (a_rows a) → p ≠ id →
  (∀ a', settles a (put ObjectParent (<[id := p]> (rows_parents a)) (a_rows a)) 0 a' → Q (Ok tt) a') →
  wp (set_initial_object_parent id p) Q a.
Proof.
  intros Hw Hc [Hn Hrow Hch _ _ Hbase _] Hp HQ. apply valid_kinds in Hn as [Hn _].
  apply wp_edit; [done|].
  assert (Q (Ok tt) (after_edit (ScopeHierarchy [id]) (set_rows ObjectParent (<[id := p]> (rows_parents a))
    (before_edit (ScopeHierarchy [id]) a)))) as Hend.
  2:{ destruct (_ || _); apply wp_expect.
      - apply (wp_insert_unique pms base ObjectParent); [done|]. exact Hend.
      - apply (wp_insert pms base ObjectParent); [exact Hrow|]. exact Hend. }
  apply HQ. split; [done|simpl; lia|done| |].
  { apply world_parent; [done..|]. intros _. by apply unused_below. }
  assert (∀ x : Obj, x ∉ [id] → id ≠ x) as Hne by (intros x Hx ->; apply Hx; constructor).
  apply (hierarchy_coherent names Hnames [id] (a_rows a) _ (a_caches a) (a_memo a)); try done.
  split; [apply Hw| |].
  - intros x y Hu ->%list_elem_of_singleton. apply up_some in Hu as [Hu _]. by destruct (Hch x).
  - intros x Hx%Hne. change (<[id := p]> (rows_parents a) !! x = rows_parents a !! x).
    by rewrite lookup_insert_ne.
Qed.

(** The identifier and the sequences after it is taken. *)
Definition new_id (kind : ObjectKind) (generated : Obj) (q : Sequences.t)
  : Sequences.t * result Obj fault :=
  match kind with
  | KindObjid id => (q, Ok id)
  | KindNextObjid =>
      let '(q, max) := Sequences.increment SEQUENCE_MAX_OBJECT q in
      (q, if (max <? i32_min) || (i32_max <? max)
          then Err (WsErr (DatabaseError "Maximum object sequence number out of bounds"))
          else Ok (mk_id max))
  | KindUuObjId | KindAnonymous => (q, Ok generated)
  end.
(** A numbered object raises the largest number. *)
Definition note_id (id : Obj) (q : Sequences.t) : Sequences.t :=
  if negb (is_uuobjid id) && negb (is_anonymous id)
  then match Obj.id id with
       | Some n => (Sequences.update_max SEQUENCE_MAX_OBJECT (objid_val n) q).1
       | None => q
       end
  else q.

Lemma new_object_id_wp kind generated Q a :
  Q (new_id kind generated (a_sequences a)).2
    (with_a_sequences (new_id kind generated (a_sequences a)).1 a) →
  wp (new_object_id kind generated) Q a.
Proof.
  intros HQ. pose proof (with_a_sequences_id a) as Hid.
  destruct kind as [id| | |]; cbn [new_id new_object_id fst snd] in *;
    rewrite ?Hid in HQ; try (by apply wp_ret).
  apply wp_bind, wp_increment. destruct (Sequences.increment _ _) as [q max]. cbn [fst snd] in *.
  destruct (_ || _); [by apply wp_fail|by apply wp_ret].
Qed.

(** What a creation has done. *)
Record creates a id (attrs : ObjAttrs) q a' : Prop := {
  cr_rows : a_rows a' = create_rows id attrs (a_rows a);
  cr_revision : a_revision a' = a_revision a;
  cr_sequences : a_sequences a' = note_id id q;
  cr_world : world_ok (a_rows a');
  cr_coherent : a_coherent names a';
}.

Lemma put_parent_wp id p Q a :
  world_ok (a_rows a) → a_coherent names a → unused id (a_rows a) → p ≠ Some id →
  (∀ a', settles a (put_parent id p (a_rows a)) 0 a' → Q (Ok tt) a') →
  wp (match p with
      | Some parent => expect (set_initial_object_parent id parent)
      | None => ret tt
      end) Q a.
Proof.
  intros Hw Hc Hun Hp HQ. destruct p as [p|].
  - apply wp_expect, initial_parent_wp; [done..|congruence|exact HQ].
  - apply wp_ret, HQ. split; [done|lia|done..].
Qed.

Lemma put_location_wp id p Q a :
  world_ok (a_rows a) → a_coherent names a →
  (∀ a', settles a (put_location id p (a_rows a)) 0 a' → Q (Ok tt) a') →
  wp (match p with
      | Some location => expect (set_initial_object_location id location)
      | None => ret tt
      end) Q a.
Proof.
  intros Hw Hc HQ. destruct p as [p|].
  - apply wp_expect, (wp_upsert pms base ObjectLocation), HQ.
    split; [done|simpl; lia|done|by apply frame_world|].
    apply frame_coherent; [done..|apply Hw|done].
  - apply wp_ret, HQ. split; [done|lia|done..].
Qed.

Lemma create_object_wp kind generated attrs q id Q a :
  world_ok (a_rows a) → a_coherent names a →
  new_id kind generated (a_sequences a) = (q, Ok id) → unused id (a_rows a) →
  ObjAttrsOps.parent attrs ≠ Some id →
  (∀ a', creates a id attrs q a' → Q (Ok id) a') →
  wp (create_object kind generated attrs) Q a.
Proof.
  intros Hw Hc Hid Hun Hp HQ. unfold create_object. apply wp_bind, new_object_id_wp.
  rewrite Hid. cbn [fst snd]. set (w := default id (ObjAttrsOps.owner attrs)).
  apply wp_bind, wp_expect, (wp_insert_unique pms base ObjectOwner); [apply Hun|].
  apply wp_bind, wp_expect, (wp_insert_unique pms base ObjectName); [apply Hun|].
  set (a1 := set_rows ObjectName _ _).
  assert (world_ok (a_rows a1)) as Hw1.
  { apply frame_world; [done|]. by destruct Hw; split. }
  assert (a_coherent names a1) as Hc1.
  { apply frame_coherent; [done..|apply Hw|]. apply orphan_owner; [done|apply Hun|done]. }
  apply wp_bind, put_parent_wp; [done..|by destruct Hun|done|]. intros a2 [Hr2 Hv2 Hq2 Hw2 Hc2].
  apply wp_bind, put_location_wp; [by rewrite Hr2|done|]. intros a3 [Hr3 Hv3 Hq3 Hw3 Hc3].
  rewrite Hr2 in *.
  apply wp_bind, wp_expect, (wp_insert_unique pms base ObjectFlags); [apply Hun|].
  set (a4 := set_rows ObjectFlags _ a3).
  assert (a_rows a4 = create_rows id attrs (a_rows a)) as Hr4.
  { unfold a4. cbn [set_rows a_rows]. by rewrite Hr3. }
  assert (world_ok (a_rows a4)) as Hw4 by (apply frame_world; [done|]; by rewrite Hr3).
  assert (a_coherent names a4) as Hc4.
  { apply frame_coherent; [done..|rewrite Hr3; apply Hw3|done]. }
  assert (a_sequences a4 = q) as Hq4 by (change (a_sequences a4) with (a_sequences a3); by rewrite Hq3, Hq2).
  assert (a_revision a4 = a_revision a) as Hv4.
  { change (a_revision a4) with (a_revision a3). rewrite Hv3, Hv2. simpl. lia. }
  apply wp_bind. unfold note_id in *.
  assert (∀ q', q' = note_id id q → creates a id attrs q (with_a_sequences q' a4)) as Hend.
  { intros q' ->. by split. }
  unfold note_id in Hend. destruct (valid_kinds id (un_valid _ _ Hun)) as [_ Hkind].
  destruct (negb (is_uuobjid id) && negb (is_anonymous id)) eqn:Hnum.
  - apply andb_true_iff in Hnum as [?%negb_true_iff ?%negb_true_iff].
    destruct Hkind as [?|[?|[n Hn]]]; [congruence..|]. rewrite Hn in *.
    apply wp_bind, wp_update_max, wp_ret, wp_ret, HQ. apply Hend. by rewrite Hq4.
  - apply wp_ret, wp_ret, HQ. specialize (Hend q eq_refl).
    rewrite <-Hq4, with_a_sequences_id, Hq4 in Hend. exact Hend.
Qed.
End life.
