(* ===== verification/WsSession.v ===== *)
(** A whole session of a transaction. The operations, in any order and whatever
    they return, keep the world well formed and the caches coherent with it; so
    after them every resolution gives what the rows say. *)
From S2P Require Import Prelude Obj TxTypes RelIndex RelTx RelTxSpec RelTxProofs Model.
From S2P Require Import Verbs Caches Relations CommitProofs Forest.
From S2P Require Import WsBase WsObjects WsVerbs WsProps WsSpec WsViews WsHierarchy WsResolve.
From S2P Require Import WsInherit WsCoherent WsEdits WsPropEdits WsOwner WsLife.
From stdpp Require Import base gmap sets list strings fin_maps.

Open Scope Z_scope.
Open Scope ws_scope.
#[local] Opaque is_nothing WsSpec.wp.

Inductive op `{Payload} :=
| OpSetParent (o p : Obj)
| OpMove (what target : Obj)
| OpSetOwner (o w : Obj)
| OpSetFlags (o : Obj) (flags : BitEnum ObjFlag)
| OpSetName (o : Obj) (name : string)
| OpCreate (kind : ObjectKind) (generated : Obj) (attrs : ObjAttrs)
| OpRecycle (o : Obj)
| OpAddVerb (uuid : Uuid) (o owner : Obj) (vnames : list (list Ascii.ascii))
    (program : ProgramType) (flags : BitEnum VerbFlag) (args : VerbArgsSpec)
| OpUpdateVerb (o : Obj) (uuid : Uuid) (attrs : VerbAttrs)
| OpDeleteVerb (o : Obj) (uuid : Uuid)
| OpDefineProperty (uuid : Uuid) (o : Obj) (name : Symbol) (owner : Obj)
    (perms : BitEnum PropFlag) (value : option Var)
| OpDeleteProperty (o : Obj) (uuid : Uuid)
| OpUpdateProperty (o : Obj) (uuid : Uuid) (new_owner : option Obj)
    (new_flags : option (BitEnum PropFlag)) (new_name : option Symbol)
| OpSetProperty (o : Obj) (uuid : Uuid) (value : Var)
| OpClearProperty (o : Obj) (uuid : Uuid)
| OpAncestors (o : Obj)
| OpIsa (o possible_ancestor : Obj)
| OpResolveVerb (o : Obj) (name : Symbol) (args : option VerbArgsSpec)
    (flags : option (BitEnum VerbFlag))
| OpGetVerb (o : Obj) (name : Symbol)
| OpResolveProperty (o : Obj) (name : Symbol)
| OpPropertyPermissions (o : Obj) (uuid : Uuid).

Section session.
Context `{Hashes} `{Payload} `{!Values} `{Interner}.
Context {P : DatabaseRelation → Type} `{∀ r, Provider (P r) (DomainOf r) (CodomainOf r)}.
Context (pms : ∀ r, gmap (DomainOf r) (Timestamp * CodomainOf r)).
Context (base : ∀ r, gmap (DomainOf r) (Entry (CodomainOf r))).
Context (fuel : nat).
Context (names : Symbol → Prop).
Implicit Types a : astate.
Implicit Types v : Views.
#[local] Notation M := (M (P := P)).
#[local] Notation wp := (wp (P := P) pms base).
#[local] Notation rows_parents a := (parents (a_rows a)).
#[local] Notation steady := (steady fuel names).
#[local] Notation settles := (settles names).

Definition do_op (o : op) : M unit :=
  match o with
  | OpSetParent o p => set_object_parent fuel o p
  | OpMove what target => set_object_location fuel what target
  | OpSetOwner o w => set_object_owner fuel o w
  | OpSetFlags o flags => set_object_flags o flags
  | OpSetName o name => set_object_name o name
  | OpCreate kind generated attrs => create_object kind generated attrs ;; ret tt
  | OpRecycle o => recycle_object fuel o
  | OpAddVerb uuid o owner vnames program flags args =>
      add_object_verb fuel uuid o owner vnames program flags args
  | OpUpdateVerb o uuid attrs => update_verb fuel o uuid attrs
  | OpDeleteVerb o uuid => delete_verb fuel o uuid
  | OpDefineProperty uuid o name owner perms value =>
      define_property fuel uuid o o name owner perms value ;; ret tt
  | OpDeleteProperty o uuid => delete_property fuel o uuid
  | OpUpdateProperty o uuid new_owner new_flags new_name =>
      update_property_info fuel o uuid new_owner new_flags new_name
  | OpSetProperty o uuid value => set_property fuel o uuid value
  | OpClearProperty o uuid => clear_property o uuid
  | OpAncestors o => ancestors fuel o true ;; ret tt
  | OpIsa o anc => isa fuel o anc ;; ret tt
  | OpResolveVerb o name args flags => resolve_verb fuel o name args flags ;; ret tt
  | OpGetVerb o name => get_verb_by_name o name ;; ret tt
  | OpResolveProperty o name => resolve_property fuel o name ;; ret tt
  | OpPropertyPermissions o uuid => retrieve_property_permissions fuel o uuid ;; ret tt
  end.

(** What the callers of the operations see to. *)
Definition op_ok (o : op) a : Prop :=
  match o with
  | OpSetParent o p =>
      is_nothing o = false ∧ (is_nothing p = false → ~ below (rows_parents a) o p)
  | OpMove _ target =>
      ∃ l, chain (locations (a_rows a)) target l ∧ (length l + 1 < fuel)%nat
  | OpCreate kind generated attrs =>
      ∃ q id, new_id kind generated (a_sequences a) = (q, Ok id) ∧ unused base id (a_rows a) ∧
        ObjAttrsOps.parent attrs ≠ Some id
  | OpRecycle o => is_nothing o = false ∧ a_revision a < u64_max ∧ (1 < fuel)%nat
  | OpAddVerb uuid o _ _ _ _ _ =>
      is_nothing o = false ∧ a_revision a < u64_max ∧
      uuid ∉ map verbdef_uuid (contents (own_verbs (a_rows a) o))
  | OpUpdateVerb o _ _ | OpDeleteVerb o _ => is_nothing o = false ∧ a_revision a < u64_max
  | OpDefineProperty _ o _ _ _ _ | OpDeleteProperty o _ | OpUpdateProperty o _ _ _ _ =>
      is_nothing o = false
  | OpResolveVerb _ name _ flags => names name ∧ u16_flags flags
  | OpGetVerb _ name => names name
  | OpResolveProperty o name => names name ∧ u64_obj o
  | _ => True
  end.

Definition sound a : Prop := world_ok (a_rows a) ∧ a_coherent names a.

Lemma settles_sound a v n a' : settles a v n a' → sound a'.
Proof. intros [Hr _ _ Hw Hc]. split; [by rewrite Hr|done]. Qed.
Lemma refreshes_sound a a' : sound a → refreshes names a a' → sound a'.
Proof. intros [Hw _] [Hr _ _ _ _ Hc]. split; [by rewrite Hr|done]. Qed.

Context (Hnames : ∀ n n', names n → names n' → interned n n').

Lemma sound_ignore {A} (m : M A) a :
  wp m (λ _ a', sound a') a → wp (m ;; ret tt) (λ _ a', sound a') a.
Proof. intros Hm. apply wp_bind. eapply wp_mono; [done|]. intros [x|e] a' Ha'; [by apply wp_ret|done]. Qed.

(** Writes to the attributes no cache depends on. *)
Lemma frame_sound r m a : cached_relation r = false → steady a → sound (set_rows r m a).
Proof. intros Hr Hs. eapply settles_sound. by apply (settles_frame fuel names Hnames). Qed.

Lemma edit_sound o a :
  sound a → (size (rows_parents a) < fuel)%nat → op_ok o a → wp (do_op o) (λ _ a', sound a') a.
Proof.
  intros Ha Hf Hok. pose proof Ha as [Hw Hc]. assert (steady a) as Hs by (by split).
  assert (∀ x, ∃ l, chain (rows_parents a) x l ∧ (length l < fuel)%nat) as Hchain.
  { intros x. destruct (wo_parents _ Hw x) as [l Hl]. exists l. split; [done|].
    pose proof (chain_length _ _ _ Hl). lia. }
  destruct o as [o p|what target|o w|o flags|o name|kind gen attrs|o|uuid o w vn pr fl ar|o uuid attrs
    |o uuid|uuid o name w perms value|o uuid|o uuid w fl name|o uuid x|o uuid|o|o anc
    |o name args flags|o name|o name|o uuid]; cbn [do_op op_ok] in *;
    lazymatch goal with
    | |- WsSpec.wp _ _ (bind _ (λ _, ret tt)) _ _ => apply sound_ignore
    | _ => idtac
    end.
  - destruct Hok. eapply set_object_parent_wp; [done..|]. intros; by eapply settles_sound.
  - destruct Hok as (l & Hl & Hlen). eapply set_object_location_wp; [done..|].
    intros _. by apply frame_sound.
  - destruct (Hchain o) as (l & Hl & _). eapply set_object_owner_wp; [done..|].
    intros; by eapply settles_sound.
  - apply (wp_upsert_with pms base ObjectFlags). by apply frame_sound.
  - apply (wp_upsert_with pms base ObjectName). by apply frame_sound.
  - destruct Hok as (q & id & Hid & Hun & Hp). eapply create_object_wp; [done..|].
    intros a' [_ _ _ Hw' Hc']. by split.
  - destruct Hok as (? & ? & ?). eapply recycle_object_wp; [done..|]. intros; by eapply settles_sound.
  - destruct Hok as (? & ? & ?). eapply add_object_verb_wp; [done..|]. intros; by eapply settles_sound.
  - destruct Hok. eapply update_verb_wp; [done..| |]; intros; by eapply settles_sound.
  - destruct Hok. eapply delete_verb_wp; [done..|]. intros; by eapply settles_sound.
  - destruct (Hchain o) as (l & Hl & _). eapply define_property_wp; [done..| |];
      intros; by eapply settles_sound.
  - eapply delete_property_wp; [done..|]. intros; by eapply settles_sound.
  - destruct (Hchain o) as (l & Hl & _). eapply update_property_info_wp; [done..|].
    intros; by eapply settles_sound.
  - destruct (Hchain o) as (l & Hl & _). destruct (is_none x) eqn:Hx.
    + unfold set_property. rewrite Hx. by apply wp_fail.
    + eapply set_property_wp; [done..|]. intros; by eapply settles_sound.
  - eapply clear_property_wp; [done..|]. intros; by eapply settles_sound.
  - destruct (Hchain o) as (l & Hl & Hlen). eapply ancestors_refresh; [done..|].
    intros; by eapply refreshes_sound.
  - destruct (Hchain o) as (l & Hl & Hlen). eapply isa_wp; [done..|apply Hc|]. intros ac Hac.
    by eapply refreshes_sound, refreshes_ancestry.
  - destruct Hok, (Hchain o) as (l & Hl & Hlen). eapply resolve_verb_wp; [done..|apply Hc|].
    intros vc Hvc. by eapply refreshes_sound, refreshes_verbs.
  - destruct (Hchain o) as (l & Hl & Hlen). eapply get_verb_by_name_wp; [done..|apply Hc|].
    intros vc Hvc. by eapply refreshes_sound, refreshes_verbs.
  - destruct Hok, (Hchain o) as (l & Hl & Hlen). eapply resolve_property_wp; [done..|].
    intros; by eapply refreshes_sound.
  - destruct (Hchain o) as (l & Hl & Hlen). eapply retrieve_property_permissions_wp; [done..|].
    intros; by eapply refreshes_sound.
Qed.

(** ** Sessions *)

(** The operations run one after the other, each with what it relies on. *)
Inductive session : ws P → list op → ws P → Prop :=
| session_end s : session s [] s
| session_op s o ops s' :
    (size (rows_parents (abs pms s)) < fuel)%nat → op_ok o (abs pms s) →
    session (do_op o s).1 ops s' → session s (o :: ops) s'.

Lemma session_sound s ops s' :
  session s ops s' → good pms base s → sound (abs pms s) → good pms base s' ∧ sound (abs pms s').
Proof.
  induction 1 as [s|s o ops s' Hf Hok _ IH]; intros Hg Ha; [done|].
  destruct (edit_sound o (abs pms s) Ha Hf Hok s Hg eq_refl) as [Hg' Ha']. by apply IH.
Qed.

(** What a step that keeps its promises answers. *)
Lemma wp_answer {A} (m : M A) s r Q :
  good pms base s → wp m (λ r' a', r' = r ∧ Q a') (abs pms s) → (m s).2 = r.
Proof. intros Hg Hm. by destruct (Hm s Hg eq_refl) as (_ & <- & _). Qed.

(** The answers of a transaction, against those of the rows. *)
Record answers (s : ws P) (obj : Obj) (l : list Obj) (name : Symbol) : Prop := {
  an_ancestors : (ancestors fuel obj true s).2 = Ok (obj :: l);
  an_verb args flags : u16_flags flags →
    (resolve_verb fuel obj name args flags s).2 = verb_answer (a_rows (abs pms s)) name args flags obj l;
  an_own_verb : (get_verb_by_name obj name s).2 = own_verb (a_rows (abs pms s)) name obj;
  an_property : u64_obj obj →
    (resolve_property fuel obj name s).2 = property_answer (a_rows (abs pms s)) name obj l;
  an_permissions uuid :
    (retrieve_property_permissions fuel obj uuid s).2 = perms_of (a_rows (abs pms s)) obj uuid l;
}.

Lemma sound_answers s obj l name :
  good pms base s → sound (abs pms s) → chain (rows_parents (abs pms s)) obj l →
  (length l < fuel)%nat → names name → answers s obj l name.
Proof.
  intros Hg [Hw Hc] Hl Hlen Hn. split.
  - eapply (wp_answer _ _ _ (λ _, True)); [done|]. by eapply ancestors_refresh.
  - intros args flags Hfl. eapply (wp_answer _ _ _ (λ _, True)); [done|].
    by eapply resolve_verb_wp; [done..|apply Hc|].
  - eapply (wp_answer _ _ _ (λ _, True)); [done|].
    by eapply get_verb_by_name_wp; [done..|apply Hc|].
  - intros Ho. eapply (wp_answer _ _ _ (λ _, True)); [done|]. by eapply resolve_property_wp.
  - intros uuid. eapply (wp_answer _ _ _ (λ _, True)); [done|].
    by eapply retrieve_property_permissions_wp.
Qed.
End session.
