(* ===== verification/WsMediate.v ===== *)
(** What a task can ask of the world state, as data: every operation of DbWorldState
    (crates/db/src/api/world_state.rs) that can change rows, run with the permissions
    of the task. And complete mediation: what each request needs, as a decision on
    the rows, and that a request without it writes nothing. *)
From S2P Require Import Prelude Obj TxTypes RelIndex RelTx RelTxSpec RelTxProofs Model.
From S2P Require Import Verbs Caches Relations Forest Auth.
From S2P Require Import WsBase WsObjects WsVerbs WsProps WsRenumber WorldState WsSpec WsViews WsHierarchy.
From S2P Require Import WsResolve WsInherit WsSession.
From stdpp Require Import base gmap sets list strings fin_maps.

Open Scope Z_scope.
Open Scope ws_scope.

(** ** Requests *)

Inductive request `{Payload} :=
| ReqSetFlags (o : Obj) (flags : BitEnum ObjFlag)
| ReqCreate (parent owner : Obj) (flags : BitEnum ObjFlag) (kind : ObjectKind) (generated : Obj)
| ReqRecycle (o : Obj)
| ReqMove (now : Z) (o new_loc : Obj)
| ReqChangeParent (o new_parent : Obj)
| ReqRenumber (generated o : Obj) (target : option ObjectKind)
| ReqSetPropertyInfo (o : Obj) (pname : Symbol) (attrs : PropAttrs)
| ReqUpdateProperty (o : Obj) (pname : Symbol) (value : Var)
| ReqClearProperty (o : Obj) (pname : Symbol)
| ReqDefineProperty (u : Uuid) (definer location : Obj) (pname : Symbol) (propowner : Obj)
    (flags : BitEnum PropFlag) (value : option Var)
| ReqDeleteProperty (o : Obj) (pname : Symbol)
| ReqSetObjectMetadata (o : Obj) (key : Symbol) (value : Var)
| ReqClearObjectMetadata (o : Obj) (key : Symbol)
| ReqSetPropertyMetadata (o : Obj) (pname key : Symbol) (value : Var)
| ReqClearPropertyMetadata (o : Obj) (pname key : Symbol)
| ReqAddVerb (uuid : Uuid) (o : Obj) (vnames : list (list Ascii.ascii)) (owner : Obj)
    (flags : BitEnum VerbFlag) (args : VerbArgsSpec) (program : ProgramType)
| ReqRemoveVerb (o : Obj) (verb : Var)
| ReqUpdateVerb (o : Obj) (vname : Symbol) (attrs : VerbAttrs)
| ReqUpdateVerbAtIndex (o : Obj) (vidx : nat) (attrs : VerbAttrs)
| ReqUpdateVerbWithId (o : Obj) (uuid : Uuid) (attrs : VerbAttrs)
| ReqSetVerbMetadata (o : Obj) (uuid : Uuid) (key : Symbol) (value : Var)
| ReqClearVerbMetadata (o : Obj) (uuid : Uuid) (key : Symbol).

Section tasks.
Context `{Hashes} `{Payload} `{!Values} `{!ValueForms} `{Interner}.
Context {P : DatabaseRelation → Type} `{∀ r, Provider (P r) (DomainOf r) (CodomainOf r)}.
Context (fuel : nat).
Import DbWorldState.

Definition serve (p : TaskPermissions) (r : request) : M (P := P) unit :=
  match r with
  | ReqSetFlags o flags => set_flags_of p o flags
  | ReqCreate parent owner flags kind generated =>
      create_object p parent owner flags kind generated ;; ret tt
  | ReqRecycle o => recycle_object fuel p o
  | ReqMove now o new_loc => move_object fuel now p o new_loc
  | ReqChangeParent o new_parent => change_parent fuel p o new_parent
  | ReqRenumber generated o target => renumber_object fuel p generated o target ;; ret tt
  | ReqSetPropertyInfo o pname attrs => set_property_info fuel p o pname attrs
  | ReqUpdateProperty o pname value => update_property fuel p o pname value
  | ReqClearProperty o pname => clear_property fuel p o pname
  | ReqDefineProperty u definer location pname propowner flags value =>
      define_property fuel u p definer location pname propowner flags value
  | ReqDeleteProperty o pname => delete_property fuel p o pname
  | ReqSetObjectMetadata o key value => set_object_metadata p o key value
  | ReqClearObjectMetadata o key => clear_object_metadata p o key
  | ReqSetPropertyMetadata o pname key value => set_property_metadata fuel p o pname key value
  | ReqClearPropertyMetadata o pname key => clear_property_metadata fuel p o pname key
  | ReqAddVerb uuid o vnames owner flags args program =>
      add_verb fuel uuid p o vnames owner flags args program
  | ReqRemoveVerb o verb => remove_verb fuel p o verb
  | ReqUpdateVerb o vname attrs => update_verb fuel p o vname attrs
  | ReqUpdateVerbAtIndex o vidx attrs => update_verb_at_index fuel p o vidx attrs
  | ReqUpdateVerbWithId o uuid attrs => update_verb_with_id fuel p o uuid attrs
  | ReqSetVerbMetadata o uuid key value => set_verb_metadata p o uuid key value
  | ReqClearVerbMetadata o uuid key => clear_verb_metadata p o uuid key
  end.
End tasks.

(** ** What a request needs *)

Section authority.
Context `{Payload} `{!Values} `{!ValueForms}.
Context (fuel : nat).
Implicit Types v : Views.

Definition owner_at v (o : Obj) : Obj := default NOTHING (owners v !! o).
Definition flags_at v (o : Obj) : BitEnum ObjFlag := default BitEnumOps.new (obj_flags v !! o).
Definition lineage v (o : Obj) : list Obj := default [] (walk (parents v) fuel o).

Definition authority v (p : TaskPermissions) : AuthContext :=
  mkAuth (tp_principal p) (flags_at v (tp_principal p)) (tp_grants p).
Definition may v p (rule : AuthRule) : bool := Auth.allows rule (authority v p).

(** [parent] may have children of the task's making, which [owner] is to own. *)
Definition may_parent v p (parent owner : Obj) : bool :=
  if bool_decide (is_Some (obj_flags v !! parent))
  then may v p (RuleObjectAllows parent (owner_at v parent) (flags_at v parent)
                  (BitEnumOps.new_with ObjFertile))
  else bool_decide (parent = NOTHING) && may v p (RuleObjectOwnerOrWizard owner).

(** The permissions of the property the name stands for on the object. *)
Definition on_property v (o : Obj) (name : Symbol) (f : PropPerms → bool) : bool :=
  match find_prop v name (o :: lineage v o) with
  | Some d => match perms_of v o (propdef_uuid d) (lineage v o) with
              | Ok perms => f perms
              | Err _ => false
              end
  | None => false
  end.
Definition on_verb (verb : option VerbDef) (f : VerbDef → bool) : bool :=
  match verb with Some vh => f vh | None => false end.

Definition may_property v p o name (flag : PropFlag) (perms : PropPerms) : bool :=
  may v p (RulePropertyAllows o name perms flag).
Definition may_verb v p o (flag : VerbFlag) (vh : VerbDef) : bool :=
  may v p (RuleVerbAllows o (verbdef_uuid vh) (verbdef_owner vh) (verbdef_flags vh) flag).
Definition when (b c : bool) : bool := if b then c else true.

Definition may_set_info v p o name (attrs : PropAttrs) (perms : PropPerms) : bool :=
  may_property v p o name PropWrite perms &&
  match pa_flags attrs with
  | Some flags => when (negb (bool_decide (BitEnumOps.contains PropClobber flags =
                                BitEnumOps.contains PropClobber (PropPermsOps.flags perms))))
                    (may v p RulePropertyWizard)
  | None => true
  end &&
  match pa_owner attrs with
  | Some w => may v p (RulePropertyOwnerUnchangedOrWizard (PropPermsOps.owner perms) w)
  | None => true
  end.

Definition may_update v p o (pname : Symbol) : bool :=
  if symbol_in pname [LOCATION_SYM; CONTENTS_SYM; PARENT_SYM; CHILDREN_SYM] then false
  else if bool_decide (pname = NAME_SYM) then
    when (BitEnumOps.contains ObjUser (flags_at v o)) (may v p RulePropertyWizard) &&
    may v p (RuleObjectRename o (owner_at v o))
  else if bool_decide (pname = OWNER_SYM) then may v p RulePropertyWizard
  else if symbol_in pname [R_SYM; W_SYM; F_SYM]
  then may v p (RuleObjectOwnerOrWizard (owner_at v o))
  else if symbol_in pname [PROGRAMMER_SYM; WIZARD_SYM] then may v p RulePropertyWizard
  else on_property v o pname (may_property v p o pname PropWrite).

Definition may_define v p o (pname : Symbol) (owner : Obj) (flags : BitEnum PropFlag) : bool :=
  negb (symbol_in pname [NAME_SYM; LOCATION_SYM; CONTENTS_SYM; OWNER_SYM; PROGRAMMER_SYM; WIZARD_SYM;
                         R_SYM; W_SYM; F_SYM; PARENT_SYM; CHILDREN_SYM]) &&
  may v p (RulePropertyDefine o (owner_at v o) (flags_at v o)) &&
  may v p (RulePropertyOwnerOrWizard owner) &&
  when (BitEnumOps.contains PropClobber flags) (may v p RulePropertyWizard).

Definition may_edit_verb v p o (attrs : VerbAttrs) (vh : VerbDef) : bool :=
  may_verb v p o VerbWrite vh &&
  match va_owner attrs with
  | Some w => may v p (RuleVerbOwnerUnchangedOrWizard (verbdef_owner vh) w)
  | None => true
  end &&
  match va_program attrs with
  | Some _ => may v p (RuleVerbProgram o (verbdef_uuid vh))
  | None => true
  end.

Definition verb_of v (o : Obj) (uuid : Uuid) : option VerbDef :=
  verbdefs v !! o ≫= DefsOps.find uuid.

(** Whether the task may make the request. *)
Definition authorized v (p : TaskPermissions) (r : request) : bool :=
  let owner_or_wizard o := may v p (RuleObjectOwnerOrWizard (owner_at v o)) in
  match r with
  | ReqSetFlags o _ | ReqSetObjectMetadata o _ _ | ReqClearObjectMetadata o _ => owner_or_wizard o
  | ReqCreate parent owner _ _ _ =>
      may v p (RuleObjectOwnerOrWizard owner) && may_parent v p parent owner
  | ReqRecycle o => may v p (RuleObjectRecycle o (owner_at v o))
  | ReqMove _ o _ => may v p (RuleObjectMove o (owner_at v o))
  | ReqChangeParent o new_parent =>
      may_parent v p new_parent (owner_at v o) && may v p (RuleObjectChparent o (owner_at v o))
  | ReqRenumber _ _ _ => may v p RuleObjectWizard
  | ReqSetPropertyInfo o pname attrs => on_property v o pname (may_set_info v p o pname attrs)
  | ReqUpdateProperty o pname _ => may_update v p o pname
  | ReqClearProperty o pname => on_property v o pname (may_property v p o pname PropWrite)
  | ReqDefineProperty _ _ location pname owner flags _ => may_define v p location pname owner flags
  | ReqDeleteProperty o pname => may v p (RulePropertyDelete o pname (owner_at v o) (flags_at v o))
  | ReqSetPropertyMetadata o pname _ _ | ReqClearPropertyMetadata o pname _ =>
      on_property v o pname (λ perms, may_property v p o pname PropRead perms &&
                                      may_property v p o pname PropWrite perms)
  | ReqAddVerb _ o _ owner _ _ _ =>
      may v p (RuleVerbAdd o (owner_at v o) (flags_at v o)) && may v p (RuleVerbOwnerOrWizard owner)
  | ReqRemoveVerb o _ =>
      may v p (RuleObjectAllows o (owner_at v o) (flags_at v o) (BitEnumOps.new_with ObjWrite))
  | ReqUpdateVerb o vname attrs =>
      on_verb (verb_at v vname None None o) (may_edit_verb v p o attrs)
  | ReqUpdateVerbAtIndex o i attrs =>
      on_verb (verbdefs v !! o ≫= λ d, contents d !! i) (may_edit_verb v p o attrs)
  | ReqUpdateVerbWithId o uuid attrs => on_verb (verb_of v o uuid) (may_edit_verb v p o attrs)
  | ReqSetVerbMetadata o uuid _ _ | ReqClearVerbMetadata o uuid _ =>
      on_verb (verb_of v o uuid) (may_verb v p o VerbWrite)
  end.

(** The names a request resolves, and the objects it resolves them on. *)
Definition resolvable (names : Symbol → Prop) (r : request) : Prop :=
  match r with
  | ReqSetPropertyInfo o pname _ | ReqUpdateProperty o pname _ | ReqClearProperty o pname
  | ReqSetPropertyMetadata o pname _ _ | ReqClearPropertyMetadata o pname _ =>
      names pname ∧ u64_obj o
  | ReqUpdateVerb _ vname _ => names vname
  | _ => True
  end.
End authority.

(** ** The checks *)

Section mediate.
Context `{Hashes} `{Payload} `{!Values} `{!ValueForms} `{Interner}.
Context {P : DatabaseRelation → Type} `{∀ r, Provider (P r) (DomainOf r) (CodomainOf r)}.
Context (pms : ∀ r, gmap (DomainOf r) (Timestamp * CodomainOf r)).
Context (base : ∀ r, gmap (DomainOf r) (Entry (CodomainOf r))).
Context (fuel : nat).
Context (names : Symbol → Prop) (Hnames : ∀ n n', names n → names n' → interned n n').
#[local] Notation wp := (wp (P := P) pms base).
#[local] Opaque is_nothing WsSpec.wp Auth.allows.
Import DbWorldState.

(** The rows and counters the request found, with coherent caches. *)
Context (v : Views) (q : Sequences.t) (Hw : world_ok v) (Hfuel : (S (size (parents v)) < fuel)%nat).
Record here (a : astate) : Prop := {
  here_rows : a_rows a = v;
  here_sequences : a_sequences a = q;
  here_coherent : a_coherent names a;
}.

(** A step that only reads, with its outcome. *)
Definition reads_as {A} (m : M (P := P) A) (r : result A fault) : Prop :=
  ∀ a Q, here a → (∀ a', here a' → Q r a') → wp m Q a.

(** The outcome of a request that is turned down: an error, and no row written. *)
Definition refused {A} (r : result A fault) a : Prop :=
  (∃ e, r = Err (WsErr e)) ∧ a_rows a = v ∧ a_sequences a = q.
Definition refuses {A} (m : M (P := P) A) : Prop := ∀ a, here a → wp m refused a.

Lemma refuses_throw {A} e : refuses (throw (A := A) e).
Proof. intros a [? ? ?]. apply wp_fail. split; [eauto|done]. Qed.
Lemma refuses_bind {A B} (m : M A) (k : A → M B) : refuses m → refuses (bind m k).
Proof.
  intros Hm a Ha. apply wp_bind. eapply wp_mono; [by apply Hm|]. intros r a' [[e ->] ?].
  split; [eauto|done].
Qed.
(** A step before the check. *)
Lemma refuses_after {A B} (m : M A) r (k : A → M B) :
  reads_as m r →
  match r with Ok x => refuses (k x) | Err (WsErr _) => True | Err _ => False end →
  refuses (bind m k).
Proof.
  intros Hm Hk a Ha. apply wp_bind, Hm; [done|]. intros a' [? ? ?].
  destruct r as [x|[e| |]]; [by apply Hk| |done..]. split; [eauto|done].
Qed.
(** A check that passes when [b] does. *)
Definition checks (m : M (P := P) unit) (b : bool) : Prop :=
  ∃ e, reads_as m (if b then Ok tt else Err (WsErr e)).
Lemma refuses_check {A} m b (k : unit → M A) :
  checks m b → (b = true → refuses (k tt)) → refuses (bind m k).
Proof. intros [e Hm] Hk. eapply refuses_after; [exact Hm|]. destruct b; [by apply Hk|done]. Qed.
Lemma refuses_last m b : checks m b → b = false → refuses m.
Proof.
  intros [e Hm] -> a Ha. apply Hm; [done|]. intros a' [? ? ?]. split; [eauto|done].
Qed.
Lemma checks_after {A} (m : M A) x (k : A → M unit) b :
  reads_as m (Ok x) → checks (k x) b → checks (bind m k) b.
Proof. intros Hm [e Hk]. exists e. intros a Q Ha HQ. apply wp_bind, Hm; [done|]. auto. Qed.
Lemma checks_require rule auth : checks (require rule auth) (Auth.allows rule auth).
Proof.
  exists (denial rule). intros a Q Ha HQ. unfold require.
  destruct (Auth.allows rule auth); [by apply wp_ret, HQ|by apply wp_fail, HQ].
Qed.
Lemma checks_throw e : checks (throw e) false.
Proof. exists e. intros a Q Ha HQ. by apply wp_fail, HQ. Qed.
Lemma checks_ret : checks (ret tt) true.
Proof. exists ObjectPermissionDenied. intros a Q Ha HQ. by apply wp_ret, HQ. Qed.
Lemma checks_when (b c : bool) m : checks m c → checks (if b then m else ret tt) (when b c).
Proof. intros Hm. by destruct b; [|apply checks_ret]. Qed.

Lemma reads_flags o : reads_as (flags_of o) (Ok (flags_at v o)).
Proof. intros a Q Ha HQ. apply wp_bind, wp_get, wp_ret. rewrite (here_rows a Ha). by apply HQ. Qed.
Lemma reads_owner o : reads_as (owner_of o) (Ok (owner_at v o)).
Proof. intros a Q Ha HQ. apply wp_bind, wp_get, wp_ret. rewrite (here_rows a Ha). by apply HQ. Qed.
Lemma reads_valid o : reads_as (valid o) (Ok (bool_decide (is_Some (obj_flags v !! o)))).
Proof. intros a Q Ha HQ. apply wp_has. rewrite (here_rows a Ha). by apply HQ. Qed.
Lemma reads_bind {A B} (m : M A) x (k : A → M B) r :
  reads_as m (Ok x) → reads_as (k x) r → reads_as (bind m k) r.
Proof. intros Hm Hk a Q Ha HQ. apply wp_bind, Hm; [done|]. intros a' Ha'. by apply Hk. Qed.
Lemma reads_ret {A} (x : A) : reads_as (ret x) (Ok x).
Proof. intros a Q Ha HQ. by apply wp_ret, HQ. Qed.
Lemma reads_both o : reads_as (flags_and_owner o) (Ok (flags_at v o, owner_at v o)).
Proof. eapply reads_bind, reads_bind, reads_ret; [apply reads_flags|apply reads_owner]. Qed.
Lemma reads_auth p : reads_as (auth_context p) (Ok (authority v p)).
Proof. eapply reads_bind, reads_ret. apply reads_flags. Qed.
Lemma reads_verbs o : reads_as (get_verbs o) (Ok (default DefsOps.empty (verbdefs v !! o))).
Proof. intros a Q Ha HQ. apply wp_bind, wp_get, wp_ret. rewrite (here_rows a Ha). by apply HQ. Qed.
Lemma reads_properties o : reads_as (get_properties o) (Ok (default DefsOps.empty (propdefs v !! o))).
Proof. intros a Q Ha HQ. apply wp_bind, wp_get, wp_ret. rewrite (here_rows a Ha). by apply HQ. Qed.

Lemma lineage_chain o : chain (parents v) o (lineage fuel v o).
Proof.
  destruct (wo_parents _ Hw o) as [l Hl]. unfold lineage.
  rewrite (chain_walk _ fuel _ _ Hl); [done|]. pose proof (chain_length _ _ _ Hl). lia.
Qed.

Lemma here_refreshes a a' : here a → refreshes names a a' → here a'.
Proof. intros [Hr Hs Hc] []. split; congruence || done. Qed.

Lemma lineage_short o : (length (lineage fuel v o) < fuel)%nat.
Proof. pose proof (chain_length _ _ _ (lineage_chain o)). lia. Qed.

(** *** Properties and verbs *)

Lemma reads_property o name :
  names name → u64_obj o →
  reads_as (resolve_property fuel o name) (property_answer v name o (lineage fuel v o)).
Proof.
  intros Hn Ho a Q Ha HQ. pose proof Ha as [Hr _ Hc].
  eapply (resolve_property_wp pms base fuel names Hnames); [exact Hc|rewrite Hr; apply lineage_chain|
    apply lineage_short|done..|].
  intros a' Ha'. rewrite Hr. by apply HQ, (here_refreshes a).
Qed.

(** What depends on the permissions of a property, once it is resolved. *)
Lemma refuses_property {A} o name f (k : PropDef * Var * PropPerms * bool → M A) :
  names name → u64_obj o → on_property fuel v o name f = false →
  (∀ d x perms b, f perms = false → refuses (k (d, x, perms, b))) →
  refuses (bind (resolve_property fuel o name) k).
Proof.
  intros Hn Ho Hf Hk. eapply refuses_after; [by apply reads_property|].
  unfold on_property, property_answer, value_answer in *.
  destruct (find_prop v name (o :: lineage fuel v o)) as [d|]; [|done].
  destruct (perms_of v o (propdef_uuid d) (lineage fuel v o)) as [perms|e] eqn:Hp; cbn [map_ok].
  - by destruct (value_at v (propdef_uuid d) o); apply Hk.
  - unfold perms_of in Hp. repeat case_match; by simplify_eq.
Qed.

Lemma reads_own_verb o name : names name → reads_as (get_verb_by_name o name) (own_verb v name o).
Proof.
  intros Hn a Q Ha HQ. pose proof Ha as [Hr _ Hc].
  eapply (get_verb_by_name_wp pms base names Hnames); [exact Hr|done|apply lineage_chain|done| |].
  { rewrite <-Hr. apply Hc. }
  intros vc Hvc. apply HQ, (here_refreshes a); [done|]. apply refreshes_verbs; [done|by rewrite Hr].
Qed.

Lemma reads_with {R} r d (f : CodomainOf r → R) msg : reads_as (r_with r d f msg) (Ok (f <$> v r !! d)).
Proof. intros a Q Ha HQ. apply wp_with. rewrite (here_rows a Ha). by apply HQ. Qed.

(** A verb found on the object, or an error. *)
Definition found (m : M (P := P) VerbDef) (verb : option VerbDef) : Prop :=
  ∃ e, reads_as m match verb with Some vh => Ok vh | None => Err (WsErr e) end.

Lemma found_name o name : names name → found (get_verb_by_name o name) (verb_at v name None None o).
Proof.
  intros Hn. exists (VerbNotFound o (PSymbol name)).
  exact (reads_own_verb o name Hn).
Qed.
Lemma reads_throw {A} e : reads_as (throw (A := A) e) (Err (WsErr e)).
Proof. intros a Q Ha HQ. by apply wp_fail, HQ. Qed.
Lemma found_index o i : found (get_verb_by_index o i) (verbdefs v !! o ≫= λ d, contents d !! i).
Proof.
  exists (VerbNotFound o (PIndex i)). eapply reads_bind; [apply reads_with|].
  change (v ObjectVerbdefs !! o) with (verbdefs v !! o).
  destruct (verbdefs v !! o) as [d|] eqn:Hd; cbn [fmap option_fmap option_map default mbind option_bind].
  - unfold DefsOps.len. case_match eqn:Hi.
    + apply Nat.leb_le in Hi. rewrite (lookup_ge_None_2 _ _ Hi). apply reads_throw.
    + apply Nat.leb_gt in Hi. eapply reads_bind; [apply reads_with|].
      change (v ObjectVerbdefs !! o) with (verbdefs v !! o). rewrite Hd. cbn.
      destruct (contents d !! i) eqn:Hx; [apply reads_ret|apply reads_throw].
  - destruct i; apply reads_throw.
Qed.
Lemma found_uuid o uuid : found (own_verb_by_uuid o uuid) (verb_of v o uuid).
Proof.
  exists (VerbNotFound o (PUuid uuid)). eapply reads_bind; [apply reads_verbs|]. unfold verb_of.
  destruct (verbdefs v !! o) as [d|]; cbn; [|apply reads_throw].
  destruct (DefsOps.find uuid d); [apply reads_ret|apply reads_throw].
Qed.

Lemma refuses_verb {A} m verb f (k : VerbDef → M A) :
  found m verb → on_verb verb f = false → (∀ vh, f vh = false → refuses (k vh)) → refuses (bind m k).
Proof.
  intros [e Hm] Hf Hk. eapply refuses_after; [exact Hm|]. destruct verb as [vh|]; [|done]. by apply Hk.
Qed.

(** ** Requests *)

Lemma checks_owner p o :
  checks (require_owner_or_wizard p o) (may v p (RuleObjectOwnerOrWizard (owner_at v o))).
Proof.
  eapply checks_after; [apply reads_owner|]. eapply checks_after; [apply reads_auth|]. apply checks_require.
Qed.
Lemma checks_object p o flag :
  checks (require_object_allows p o flag)
    (may v p (RuleObjectAllows o (owner_at v o) (flags_at v o) (BitEnumOps.new_with flag))).
Proof.
  eapply checks_after; [apply reads_both|]. eapply checks_after; [apply reads_auth|]. apply checks_require.
Qed.
Lemma checks_property p o name perms flag :
  checks (require_property p o name perms flag) (may_property v p o name flag perms).
Proof. eapply checks_after; [apply reads_auth|]. apply checks_require. Qed.
Lemma checks_verb p o vh flag : checks (require_verb p o vh flag) (may_verb v p o flag vh).
Proof. eapply checks_after; [apply reads_auth|]. apply checks_require. Qed.
Lemma checks_valid o : checks (must_be_valid o) (bool_decide (is_Some (obj_flags v !! o))).
Proof.
  eapply checks_after; [apply reads_valid|]. destruct (bool_decide _); [apply checks_ret|apply checks_throw].
Qed.
Lemma checks_parent p parent owner : checks (check_parent p parent owner) (may_parent v p parent owner).
Proof.
  eapply checks_after; [apply reads_both|]. eapply checks_after; [apply reads_auth|].
  eapply checks_after; [apply reads_valid|]. unfold may_parent.
  destruct (bool_decide (is_Some _)); [apply checks_require|].
  destruct (bool_decide (parent = NOTHING)); [apply checks_require|apply checks_throw].
Qed.
Lemma checks_recycle p o : checks (check_recycle_object p o) (may v p (RuleObjectRecycle o (owner_at v o))).
Proof.
  eapply checks_after; [apply reads_owner|]. eapply checks_after; [apply reads_auth|]. apply checks_require.
Qed.

(** The walk of [change_parent] ends: it passes, or finds the object. *)
Lemma checks_loop p o new_parent l x n :
  chain (parents v) x l → (S (length l) < n)%nat →
  ∃ b, checks (change_parent_loop n p o new_parent x) b.
Proof.
  intros Hc. revert n. induction Hc as [x Hu|x y l Hu Hc IH]; intros [|n] Hn; simpl in Hn; try lia;
    cbn [change_parent_loop].
  all: destruct (is_nothing x); [exists true; apply checks_ret|].
  all: case_bool_decide; [exists false; apply checks_throw|].
  all: assert (reads_as (parent_of (P := P) p x) (Ok (default NOTHING (parents v !! x)))) as Hp
    by (intros a Q Ha HQ; apply wp_bind, wp_get, wp_ret; rewrite (here_rows a Ha); by apply HQ).
  - exists true. eapply checks_after; [exact Hp|]. destruct n as [|n]; [lia|]. cbn [change_parent_loop].
    unfold up in Hu. destruct (parents v !! x) as [y|]; cbn in Hu |- *.
    + destruct (is_nothing y); [apply checks_ret|done].
    + rewrite is_nothing_NOTHING. apply checks_ret.
  - apply up_some in Hu as [Hu _]. rewrite Hu in Hp. destruct (IH n) as [b Hb]; [lia|].
    exists b. eapply checks_after; [exact Hp|done].
Qed.

Ltac check := eapply refuses_check; [first
  [ apply checks_require | apply checks_owner | apply checks_object | apply checks_property
  | apply checks_verb | apply checks_valid | apply checks_parent | apply checks_recycle
  | apply checks_when, checks_require ]|intros ?Hb; cbn [fst snd] in *].
Ltac know := eapply refuses_after; [first
  [apply reads_auth|apply reads_both|apply reads_owner|apply reads_flags|apply reads_valid|
   apply reads_properties|apply reads_verbs]|].

Lemma refuses_change_parent p o new_parent :
  may_parent v p new_parent (owner_at v o) && may v p (RuleObjectChparent o (owner_at v o)) = false →
  refuses (change_parent fuel p o new_parent).
Proof.
  intros Hf. unfold change_parent.
  destruct (checks_loop p o new_parent _ _ fuel (lineage_chain new_parent)) as [b Hb].
  { pose proof (chain_length _ _ _ (lineage_chain new_parent)). lia. }
  eapply refuses_check; [exact Hb|intros _]. know. check. know. check.
  change (may v p (RuleObjectChparent o (owner_at v o)) = true) in Hb1. by rewrite Hb0, Hb1 in Hf.
Qed.

(** A conjunct that has been checked leaves the rest to be refused. *)
Ltac left_over Hf :=
  unfold may_property, may_verb, may in *; cbn [negb] in Hf;
  repeat match goal with Hb : ?b = true |- _ => rewrite Hb in Hf end;
  rewrite ?andb_true_r, ?andb_true_l, ?andb_false_r in Hf; try done.

Lemma refuses_set_info p o name attrs :
  names name → u64_obj o → on_property fuel v o name (may_set_info v p o name attrs) = false →
  refuses (set_property_info fuel p o name attrs).
Proof.
  intros Hn Ho Hf. unfold set_property_info. know. eapply refuses_property; [done..|].
  intros d x perms b Hno. unfold may_set_info in Hno. check.
  change (may_property v p o name PropWrite perms = true) in Hb. rewrite Hb in Hno. cbn [andb] in Hno.
  eapply refuses_check.
  { instantiate (1 := match pa_flags attrs with Some flags => when _ _ | None => true end).
    destruct (pa_flags attrs); [apply checks_when, checks_require|apply checks_ret]. }
  intros Hb1. rewrite andb_false_iff in Hno. destruct Hno as [Hno|Hno].
  { unfold may in Hno. destruct (pa_flags attrs); [|done]. congruence. }
  destruct (pa_owner attrs); [|done]. apply refuses_bind. eapply refuses_last; [apply checks_require|done].
Qed.

Lemma refuses_define u p definer location name owner flags value :
  may_define v p location name owner flags = false →
  refuses (DbWorldState.define_property fuel u p definer location name owner flags value).
Proof.
  intros Hf. unfold DbWorldState.define_property, may_define in *.
  destruct (symbol_in name _); [apply refuses_throw|]. know. know. do 3 check. left_over Hf.
Qed.

Lemma refuses_edit_verb p o attrs vh :
  may_edit_verb v p o attrs vh = false → refuses (do_update_verb fuel o p vh attrs).
Proof.
  intros Hf. unfold do_update_verb, may_edit_verb in *. know. check.
  change (may_verb v p o VerbWrite vh = true) in Hb. rewrite Hb in Hf. cbn [andb] in Hf.
  eapply refuses_check.
  { instantiate (1 := match va_owner attrs with Some w => _ | None => true end).
    destruct (va_owner attrs); [apply checks_require|apply checks_ret]. }
  intros Hb1. rewrite andb_false_iff in Hf. destruct Hf as [Hf|Hf].
  { unfold may in Hf. destruct (va_owner attrs); [|done]. congruence. }
  destruct (va_program attrs); [|done]. apply refuses_bind. eapply refuses_last; [apply checks_require|done].
Qed.

Lemma symbol_in_cons name x l : symbol_in name (x :: l) = bool_decide (name = x) || symbol_in name l.
Proof. done. Qed.

Lemma refuses_update p o name value :
  resolvable names (ReqUpdateProperty o name value) → may_update fuel v p o name = false →
  refuses (DbWorldState.update_property fuel p o name value).
Proof.
  intros [Hn Ho] Hf. unfold DbWorldState.update_property, may_update in *. know.
  destruct (symbol_in name [LOCATION_SYM; _; _; _]); [apply refuses_throw|].
  rewrite symbol_in_cons. destruct (bool_decide (name = NAME_SYM)) eqn:Hname; cbn [orb].
  { unfold update_attribute. know. unfold update_attribute_of. rewrite Hname.
    destruct (as_string value); [|apply refuses_throw]. check. check. left_over Hf. }
  rewrite symbol_in_cons. unfold update_attribute, update_attribute_of. rewrite Hname.
  destruct (bool_decide (name = OWNER_SYM)) eqn:Howner; cbn [orb].
  { know. destruct (as_object value); [|apply refuses_throw]. check. left_over Hf. }
  destruct (symbol_in name [R_SYM; _; _]); [know; check; left_over Hf|].
  destruct (symbol_in name [PROGRAMMER_SYM; _]); [check; left_over Hf|].
  destruct (is_none value); [apply refuses_throw|].
  eapply refuses_property; [done..|]. intros d x perms b Hno. check. left_over Hno.
Qed.

Lemma refuses_create p parent owner flags kind generated :
  may v p (RuleObjectOwnerOrWizard owner) && may_parent v p parent owner = false →
  refuses (create_object p parent owner flags kind generated).
Proof.
  intros Hf. unfold create_object. know. know.
  cbv beta iota. destruct (_ && negb (is_nothing parent)); [apply refuses_throw|]. check.
  eapply refuses_check.
  { instantiate (1 := match kind with
                      | KindObjid id => negb (bool_decide (is_Some (obj_flags v !! id)))
                      | _ => true
                      end).
    destruct kind; [|apply checks_ret..]. eapply checks_after; [apply reads_valid|].
    destruct (bool_decide (is_Some _)); [apply checks_throw|apply checks_ret]. }
  intros _. check. left_over Hf.
Qed.

Lemma refuses_assoc {A B C} (m : M A) (k : A → M B) (k' : B → M C) :
  refuses (bind m (λ x, bind (k x) k')) → refuses (bind (bind m k) k').
Proof. intros Hm a Ha. by apply wp_assoc, Hm. Qed.

Lemma refuses_metadata p o name (k : PropDef * PropPerms → M unit) :
  names name → u64_obj o →
  on_property fuel v o name (λ perms, may_property v p o name PropRead perms &&
                                      may_property v p o name PropWrite perms) = false →
  (∀ info, may_property v p o name PropWrite info.2 = false → refuses (k info)) →
  refuses (bind (get_property_info fuel p o name) k).
Proof.
  intros Hn Ho Hf Hk. unfold get_property_info.
  apply refuses_assoc. eapply refuses_property; [done..|]. intros d x perms b Hno.
  apply refuses_assoc. check. intros a Ha. apply wp_bind, wp_ret, Hk; [|done].
  cbn [snd]. by rewrite Hb in Hno.
Qed.

Lemma refuses_serve p r :
  resolvable names r → authorized fuel v p r = false → refuses (serve fuel p r).
Proof.
  destruct r; cbn [resolvable authorized serve]; intros Hn Hf.
  - check. left_over Hf.
  - by apply refuses_bind, refuses_create.
  - check. left_over Hf.
  - unfold move_object. know. know. check. left_over Hf.
  - by apply refuses_change_parent.
  - apply refuses_bind. unfold renumber_object. know. check. left_over Hf.
  - destruct Hn. by apply refuses_set_info.
  - by apply refuses_update.
  - destruct Hn. unfold DbWorldState.clear_property. eapply refuses_property; [done..|].
    intros d x perms b Hno. check. left_over Hno.
  - by apply refuses_define.
  - unfold DbWorldState.delete_property. know. cbv beta iota. destruct (DefsOps.find_first_named _ _); [|apply refuses_throw].
    know. know. check. left_over Hf.
  - check. check. left_over Hf.
  - check. check. left_over Hf.
  - destruct Hn. unfold DbWorldState.set_property_metadata. apply refuses_metadata; [done..|].
    intros info Hno. check. left_over Hno.
  - destruct Hn. unfold DbWorldState.clear_property_metadata. apply refuses_metadata; [done..|].
    intros info Hno. check. left_over Hno.
  - unfold DbWorldState.add_verb. know. know. check. check. left_over Hf.
  - check. left_over Hf.
  - eapply refuses_verb; [by apply found_name|exact Hf|]. intros vh. apply refuses_edit_verb.
  - eapply refuses_verb; [apply found_index|exact Hf|]. intros vh. apply refuses_edit_verb.
  - eapply refuses_verb; [apply found_uuid|exact Hf|]. intros vh. apply refuses_edit_verb.
  - eapply refuses_verb; [apply found_uuid|exact Hf|]. intros vh Hno. check. left_over Hno.
  - eapply refuses_verb; [apply found_uuid|exact Hf|]. intros vh Hno. check. left_over Hno.
Qed.
End mediate.
