(* ===== verification/WsWithin.v ===== *)
(** What an operation does to its transaction is a sequence of commands on the
    relations, with changes to caches and notes between them. So a relation
    between transactions that every command keeps is kept by every operation,
    whatever the operation returns. *)
From S2P Require Import Prelude Obj TxTypes RelIndex RelTx RelTxSpec Model Verbs Caches Relations.
From S2P Require Import Forest Auth WsBase WsObjects WsVerbs WsProps WsRenumber WorldState WsMediate.
From S2P Require Import WsSpec WsViews WsLife.
From stdpp Require Import base gmap sets list strings fin_maps.

Open Scope Z_scope.
Open Scope ws_scope.

Create HintDb within.

Section within.
Context `{Hashes} `{Payload} `{!Values} `{!ValueForms} `{Interner}.
Context {P : DatabaseRelation → Type} `{∀ r, Provider (P r) (DomainOf r) (CodomainOf r)}.
#[local] Notation M := (M (P := P)).

(** Commands without a condition of their own. *)
Definition plain r (c : cmd (DomainOf r) (CodomainOf r)) : Prop :=
  match c with
  | CInsertUnique _ _ => False
  | CByCodomain _ => is_secondary r = true
  | _ => True
  end.

(** Which commands may be run. *)
#[local] Notation permission := (∀ r, cmd (DomainOf r) (CodomainOf r) → Prop).

(** A relation kept by the commands [W] permits. *)
Class Journal (R : ws P → ws P → Prop) (W : permission) := {
  journal_preorder :: PreOrder R;
  journal_note s s' :
    wtx (w_tx s') = wtx (w_tx s) → wtx_relations (w_tx s') = wtx_relations (w_tx s) → R s s';
  journal_exec s r (c : cmd (DomainOf r) (CodomainOf r)) :
    W r c → plain r c → R s (set_rel r (exec c (rel s r)).1 s);
}.

Context (R : ws P → ws P → Prop) (W : permission) `{!Journal R W}.

Definition within {A} (m : M A) : Prop := ∀ s, R s (m s).1.

Lemma within_same {A} (m : M A) :
  (∀ s, wtx (w_tx (m s).1) = wtx (w_tx s) ∧ wtx_relations (w_tx (m s).1) = wtx_relations (w_tx s)) →
  within m.
Proof. intros Hm s. destruct (Hm s). by apply journal_note. Qed.

Lemma within_ret {A} (x : A) : within (ret x).
Proof. by apply within_same. Qed.
Lemma within_fail {A} f : within (fail (A := A) f).
Proof. by apply within_same. Qed.
Lemma within_gets {A} (f : ws P → A) : within (gets f).
Proof. by apply within_same. Qed.
Lemma within_bind_at {A B} (m : M A) (k : A → M B) s :
  R s (m s).1 → (∀ x, (m s).2 = Ok x → within (k x)) → R s (bind m k s).1.
Proof.
  intros Hm Hk. unfold bind. destruct (m s) as [s' [x|f]]; [|done]. cbn [fst snd] in *.
  etrans; [done|]. by apply Hk.
Qed.
Lemma within_bind {A B} (m : M A) (k : A → M B) :
  within m → (∀ x, within (k x)) → within (bind m k).
Proof. intros Hm Hk s. by apply within_bind_at. Qed.
Lemma within_expect {A} (m : M A) : within m → within (expect m).
Proof. intros Hm s. specialize (Hm s). unfold expect. by destruct (m s) as [s' [x|[]]]. Qed.
Lemma within_attempt {A} (m : M A) : within m → within (attempt m).
Proof. intros Hm s. specialize (Hm s). unfold attempt. by destruct (m s) as [s' [x|[]]]. Qed.
Lemma within_or_not_found {A} (m : M A) : within m → within (DbWorldState.or_not_found m).
Proof.
  intros Hm s. specialize (Hm s). unfold DbWorldState.or_not_found.
  by destruct (m s) as [s' [x|[[]| |]]].
Qed.
Lemma within_try_ok {A B} (m : M A) (k : A → M (option B)) :
  within m → (∀ x, within (k x)) → within (try_ok m k).
Proof.
  intros Hm Hk s. specialize (Hm s). unfold try_ok. destruct (m s) as [s' [x|[]]]; [|done..].
  cbn [fst] in *. etrans; [done|]. by apply Hk.
Qed.
Lemma within_reads {A} r (f : TxRelation r → result A Error) msg : within (reads r f msg).
Proof. by apply within_same. Qed.
Lemma within_caches f : within (modify_caches f).
Proof. by apply within_same. Qed.
Lemma within_memo f : within (modify_memo f).
Proof. by apply within_same. Qed.
Lemma within_note f g : within (modify (λ s, set_reads (f s) (g s) s)).
Proof. by apply within_same. Qed.
Lemma within_edit {A} scope (body : M A) : within body → within (edit scope body).
Proof.
  intros Hb s. unfold edit. destruct (_ && _); [done|].
  set (s1 := if bumps_revision scope then _ else s).
  assert (R s s1) as Hs1 by (apply journal_note; by destruct (bumps_revision scope)).
  specialize (Hb s1). destruct (body s1) as [s2 r]. cbn [fst] in *.
  etrans; [exact Hs1|]. etrans; [exact Hb|]. by apply journal_note.
Qed.
Lemma within_for_each {A} (l : list A) f : (∀ x, within (f x)) → within (for_each l f).
Proof. intros Hf. induction l as [|x l IH]; [apply within_ret|]. by apply within_bind. Qed.
Lemma within_fold_m {A B} (f : B → A → M B) l z : (∀ z x, within (f z x)) → within (fold_m f z l).
Proof.
  intros Hf. revert z. induction l as [|x l IH]; intros z; [apply within_ret|]. by apply within_bind.
Qed.

(** *** Commands *)

Lemma within_runs {A} r (f : TxRelation r → TxRelation r * result A Error) msg
    (c : cmd (DomainOf r) (CodomainOf r)) :
  W r c → plain r c → (∀ t, (f t).1 = (exec c t).1) → within (runs r f msg).
Proof.
  intros Hr Hc Hf s. unfold runs. specialize (Hf (rel s r)). destruct (f (rel s r)) as [x res].
  cbn [fst] in *. rewrite Hf. by apply journal_exec.
Qed.

Lemma within_upsert r d v msg : W r (CUpsert d v) → within (r_upsert r d v msg).
Proof.
  intros Hr. apply within_bind; [|intros; apply within_ret].
  apply (within_runs _ _ _ (CUpsert d v)); [done..|].
  intros t. simpl. by destruct (RelationTransaction.upsert d v t).
Qed.
Lemma within_upsert_with r d f msg : W r (CUpsertWith d f) → within (r_upsert_with r d f msg).
Proof.
  intros Hr. apply within_bind; [|intros; apply within_ret].
  apply (within_runs _ _ _ (CUpsertWith d f)); [done..|].
  intros t. simpl. by destruct (RelationTransaction.upsert_with d f t).
Qed.
Lemma within_update_with r d f msg : W r (CUpdateWith d f) → within (r_update_with r d f msg).
Proof.
  intros Hr. apply (within_runs _ _ _ (CUpdateWith d f)); [done..|].
  intros t. simpl. by destruct (RelationTransaction.update_with d f t).
Qed.
Lemma within_delete r d msg : W r (CDelete d) → within (r_delete r d msg).
Proof.
  intros Hr. apply within_bind; [|intros; apply within_ret].
  apply (within_runs _ _ _ (CDelete d)); [done..|].
  intros t. simpl. by destruct (RelationTransaction.delete d t).
Qed.
Lemma within_insert r d v msg : W r (CInsert d v) → within (r_insert r d v msg).
Proof.
  intros Hr. apply (within_runs _ _ _ (CInsert d v)); [done..|].
  intros t. simpl. by destruct (RelationTransaction.insert d v t).
Qed.
Lemma within_by_codomain r c msg : is_secondary r = true → W r (CByCodomain c) → within (r_by_codomain r c msg).
Proof.
  intros Hs Hr. apply (within_runs _ _ _ (CByCodomain c)); [done..|].
  intros t. simpl. unfold RelationTransaction.get_by_codomain.
  by destruct (RelationTransaction.for_each_by_codomain c t) as [? []].
Qed.
Lemma within_get_all r msg : W r CGetAll → within (r_get_all r msg).
Proof.
  intros Hr. apply within_bind; [|intros; apply within_ret].
  apply (within_runs _ _ _ CGetAll); [done..|].
  intros t. simpl. by destruct (RelationTransaction.get_all t).
Qed.
Lemma within_scan r f msg : within (r_scan r f msg).
Proof. apply within_bind; [apply within_reads|intros; apply within_ret]. Qed.

(** ** The operations *)

(** Every relation but the flags may be written; those that write the flags say
    so. *)
Context (fuel : nat) (HW : ∀ r c, r ≠ ObjectFlags → W r c).

#[local] Ltac writable := first [assumption | apply HW; discriminate | match goal with HF : ∀ c, W _ c |- _ => apply HF end].

(** Goes through the body of an operation. *)
#[local] Ltac within_one :=
  lazymatch goal with
  | |- ∀ _, _ => intro
  | |- within (ret _) => apply within_ret
  | |- within (fail _) => apply within_fail
  | |- within (throw _) => apply within_fail
  | |- within (gets _) => apply within_gets
  | |- within (bind _ _) => apply within_bind
  | |- within (edit _ _) => apply within_edit
  | |- within (expect _) => apply within_expect
  | |- within (attempt _) => apply within_attempt
  | |- within (DbWorldState.or_not_found _) => apply within_or_not_found
  | |- within (try_ok _ _) => apply within_try_ok
  | |- within (for_each _ _) => apply within_for_each
  | |- within (fold_m _ _ _) => apply within_fold_m
  | |- within (modify_caches _) => apply within_caches
  | |- within (with_verb_cache _) => apply within_caches
  | |- within (with_prop_cache _) => apply within_caches
  | |- within (with_ancestry_cache _) => apply within_caches
  | |- within (modify_memo _) => apply within_memo
  | |- within (r_get ?r _ _) => exact (within_reads r _ _)
  | |- within (r_has ?r _ _) => exact (within_reads r _ _)
  | |- within (r_with ?r _ _ _) => exact (within_reads r _ _)
  | |- within (r_scan ?r _ _) => exact (within_scan r _ _)
  | |- within (r_by_codomain ?r ?c ?m) => apply (within_by_codomain r); [reflexivity|writable]
  | |- within (r_upsert ?r _ _ _) => apply (within_upsert r); writable
  | |- within (r_upsert_with ?r _ _ _) => apply (within_upsert_with r); writable
  | |- within (r_update_with ?r _ _ _) => apply (within_update_with r); writable
  | |- within (r_delete ?r _ _) => apply (within_delete r); writable
  | |- within (r_insert ?r _ _ _) => apply (within_insert r); writable
  | |- within (r_get_all ?r _) => apply (within_get_all r); writable
  | |- within (match _ with _ => _ end) => case_match
  end.
#[local] Ltac within := repeat first [solve [eauto 2 with within] | within_one].

Lemma within_children o : within (get_object_children o).
Proof. unfold get_object_children. within. Qed.
Lemma within_parent o : within (get_object_parent o).
Proof. unfold get_object_parent. within. Qed.
Lemma within_verbs o : within (get_verbs o).
Proof. unfold get_verbs. within. Qed.
Lemma within_properties o : within (get_properties o).
Proof. unfold get_properties. within. Qed.
#[local] Hint Resolve within_children within_parent within_verbs within_properties : within.

Lemma within_ancestors o self : within (ancestors fuel o self).
Proof.
  assert (∀ n l o, within (ancestors_loop n o l)) as Hloop.
  { intros n. induction n as [|n IH]; intros l x; cbn [ancestors_loop]; within. }
  unfold ancestors. within.
Qed.
Lemma within_isa o anc : within (isa fuel o anc).
Proof.
  assert (∀ n x l known, within (isa_loop n anc x l known)) as Hloop.
  { intros n. induction n as [|n IH]; intros x l known; cbn [isa_loop]; within. }
  unfold isa, object_valid. within.
Qed.
Lemma within_descendants o self : within (descendants fuel o self).
Proof.
  assert (∀ n queue l, within (descendants_loop n queue l)) as Hloop.
  { intros n. induction n as [|n IH]; intros [|x queue] l; cbn [descendants_loop]; within. }
  unfold descendants. within.
Qed.
Lemma within_branch o : within (branch_objects fuel o).
Proof. apply within_descendants. Qed.
Lemma within_delete_metadata f : within (delete_metadata_where f).
Proof. unfold delete_metadata_where. within. Qed.
#[local] Hint Resolve within_ancestors within_isa within_descendants within_branch : within.
#[local] Hint Resolve within_delete_metadata : within.

Lemma within_set_parent o p : within (set_object_parent fuel o p).
Proof. unfold set_object_parent. within. Qed.
Lemma within_set_location o p : within (set_object_location fuel o p).
Proof.
  assert (∀ n x, within (recursive_move_loop n o p x)) as Hloop.
  { intros n. induction n as [|n IH]; intros x; cbn [recursive_move_loop]; within. }
  unfold set_object_location. within.
Qed.
#[local] Hint Resolve within_set_parent within_set_location : within.

(** The flags of the object may be set to these. *)
Definition may_set (o : Obj) (flags : BitEnum ObjFlag) : Prop :=
  ∀ f : option (BitEnum ObjFlag) → option (BitEnum ObjFlag),
    (∀ current v, f current = Some v → v = flags) → W ObjectFlags (CUpsertWith o f).

Lemma within_set_flags o flags : may_set o flags → within (set_object_flags o flags).
Proof.
  intros Hflags. apply (within_upsert_with ObjectFlags), Hflags.
  intros current v. repeat case_match; congruence.
Qed.
Lemma within_set_name o name : within (set_object_name o name).
Proof. unfold set_object_name. within. Qed.
Lemma within_recycle o : W ObjectFlags (CDelete o) → within (recycle_object fuel o).
Proof.
  intros Hflags. unfold recycle_object, get_object_contents, remove_object_rows, delete_metadata_for_obj. within.
Qed.

(** *** Verbs *)

Lemma within_lookup_verb o name rv : within (lookup_resolved_verbdef o name rv).
Proof. unfold lookup_resolved_verbdef. within. Qed.
Lemma within_get_verb o name : within (get_verb_by_name o name).
Proof. unfold get_verb_by_name, find_verb_on, lookup_resolved_verbdef. within. Qed.
Lemma within_resolve_verb o name args flags : within (resolve_verb fuel o name args flags).
Proof.
  assert (∀ n hit x, within (resolve_verb_loop n o name args flags hit x)) as Hloop.
  { intros n. induction n as [|n IH]; intros hit x; cbn [resolve_verb_loop]; unfold visit_verbs; within. }
  unfold resolve_verb, resolve_verb_handle, lookup_resolved_verbdef. within.
Qed.
Lemma within_update_verb o uuid attrs : within (update_verb fuel o uuid attrs).
Proof. unfold update_verb. within. Qed.
Lemma within_add_verb uuid o w vn pr fl ar : within (add_object_verb fuel uuid o w vn pr fl ar).
Proof. unfold add_object_verb. within. Qed.
Lemma within_delete_verb o uuid : within (delete_verb fuel o uuid).
Proof. unfold delete_verb, delete_verb_metadata_for_holder. within. Qed.

(** *** Properties *)

Lemma within_find_uuid o uuid : within (find_property_by_uuid fuel o uuid).
Proof.
  assert (∀ l, within (find_uuid_in uuid l)) as Hloop.
  { intros l. induction l as [|x l IH]; cbn [find_uuid_in]; within. }
  unfold find_property_by_uuid. within.
Qed.
Lemma within_find_property o name : within (find_property_by_name fuel o name).
Proof.
  assert (∀ n x, within (first_with_props_loop n o x)) as Hfirst.
  { intros n. induction n as [|n IH]; intros x; cbn [first_with_props_loop]; within. }
  assert (∀ n x, within (find_named_loop n name x)) as Hnamed.
  { intros n. induction n as [|n IH]; intros x; cbn [find_named_loop]; within. }
  unfold find_property_by_name. within.
Qed.
#[local] Hint Resolve within_find_uuid within_find_property : within.

Lemma within_permissions o uuid : within (retrieve_property_permissions fuel o uuid).
Proof. unfold retrieve_property_permissions, get_object_owner. within. Qed.
Lemma within_policy key : within (note_policy_read key).
Proof. apply within_note. Qed.
Lemma within_owners l : within (note_owner_reads l).
Proof. apply within_note. Qed.
#[local] Hint Resolve within_permissions within_policy within_owners : within.
Lemma within_record o uuid : within (record_inherited_policy_dependency fuel o uuid).
Proof. unfold record_inherited_policy_dependency. within. Qed.
#[local] Hint Resolve within_record : within.

Lemma within_resolve_property o name : within (resolve_property fuel o name).
Proof.
  assert (∀ uuid l, within (inherited_value uuid l)) as Hloop.
  { intros uuid l. induction l as [|x l IH]; cbn [inherited_value]; within. }
  unfold resolve_property, retrieve_property. within.
Qed.
Lemma within_set_property o uuid v : within (set_property fuel o uuid v).
Proof. unfold set_property. within. Qed.
#[local] Hint Resolve within_set_property : within.
Lemma within_define_property uuid d o name w fl v :
  within (define_property fuel uuid d o name w fl v).
Proof.
  assert (∀ l, within (no_duplicate name l)) as Hloop.
  { intros l. induction l as [|x l IH]; cbn [no_duplicate]; within. }
  unfold define_property. within.
Qed.
Lemma within_update_property o uuid w fl name : within (update_property_info fuel o uuid w fl name).
Proof. unfold update_property_info, rename_property. within. Qed.
Lemma within_clear_property o uuid : within (clear_property o uuid).
Proof. unfold clear_property. within. Qed.
Lemma within_delete_property o uuid : within (delete_property fuel o uuid).
Proof. unfold delete_property, delete_property_metadata_for_holder. within. Qed.
Lemma within_set_owner o w : within (set_object_owner fuel o w).
Proof. unfold set_object_owner, preserve_ancestor, preserve_property. within. Qed.


(** *** Renumbering *)

Lemma within_move_row_with r old new f k :
  (∀ c, W r c) → (∀ v, within (k v)) → within (move_row_with r old new f k).
Proof. intros Hr Hk. unfold move_row_with. within. Qed.
Lemma within_move_property_rows r obj_of rekey o :
  (∀ c, W r c) → within (move_property_rows r obj_of rekey o).
Proof. intros Hr. unfold move_property_rows. within. Qed.
Lemma within_repoint r points new msg msg' : (∀ c, W r c) → within (repoint r points new msg msg').
Proof. intros Hr. unfold repoint. within. Qed.
Lemma within_id_of o : within (id_of o).
Proof. unfold id_of. within. Qed.
Lemma within_valid o : within (object_valid o).
Proof. unfold object_valid. within. Qed.
Lemma within_max : within get_max_object.
Proof. unfold get_max_object, get_sequence. within. Qed.
#[local] Hint Resolve within_id_of within_valid within_max : within.

Lemma within_renumber_target generated o target : within (renumber_target fuel generated o target).
Proof.
  assert (∀ n c, within (next_free_loop n c)) as Hnext.
  { intros n. induction n as [|n IH]; intros c; cbn [next_free_loop]; within. }
  assert (∀ n m c, within (scan_down_loop n m c)) as Hdown.
  { intros n. induction n as [|n IH]; intros m c; cbn [scan_down_loop]; within. }
  assert (∀ n m c, within (scan_up_loop n m c)) as Hup.
  { intros n. induction n as [|n IH]; intros m c; cbn [scan_up_loop]; within. }
  unfold renumber_target. within.
Qed.
Lemma within_renumber_rows o o' : (∀ c, W ObjectFlags c) → within (renumber_rows o o').
Proof.
  intros Hflags. unfold renumber_rows, move_verbs, move_propdefs, move_row.
  repeat first [ apply within_repoint; intro; writable | apply within_move_property_rows; intro; writable
               | apply within_move_row_with; [intro; writable|intro] | within_one ].
Qed.
Lemma within_update_max n v : within (update_sequence_max n v).
Proof.
  apply within_same. intros s. unfold update_sequence_max. by destruct (Sequences.update_max _ _ _).
Qed.
#[local] Hint Resolve within_renumber_target within_renumber_rows within_update_max : within.
Lemma within_renumber generated o target :
  (∀ c, W ObjectFlags c) → within (renumber_object fuel generated o target).
Proof. intros Hflags. unfold renumber_object. within. Qed.

(** ** Creation *)

(** Rows of the object may be written without looking for others. *)
Record may_create (id : Obj) (flags : BitEnum ObjFlag) : Prop := {
  mc_owner v msg : within (r_insert_unique ObjectOwner id v msg);
  mc_name v msg : within (r_insert_unique ObjectName id v msg);
  mc_parent v msg : within (r_insert_unique ObjectParent id v msg);
  mc_flags msg : within (r_insert_unique ObjectFlags id flags msg);
}.

Lemma new_object_id_at kind generated (s : ws P) :
  new_object_id kind generated s =
  (set_sequences (new_id kind generated (w_sequences s)).1 s, (new_id kind generated (w_sequences s)).2).
Proof.
  destruct kind as [id| | |]; [by destruct s| |by destruct s..].
  unfold new_object_id, new_id, bind, increment_sequence.
  destruct (Sequences.increment _ _) as [q max]. by destruct (_ || _).
Qed.

Lemma within_create kind generated attrs s :
  (∀ q id, new_id kind generated (w_sequences s) = (q, Ok id) →
     may_create id (ObjAttrsOps.flags attrs)) →
  R s (create_object kind generated attrs s).1.
Proof.
  intros Hid. apply within_bind_at; [rewrite new_object_id_at; by apply journal_note|].
  rewrite new_object_id_at. destruct (new_id kind generated (w_sequences s)) as [q [id|e]]; [|done].
  intros x [= <-]. destruct (Hid q id eq_refl) as [Ho Hn Hp Hf].
  unfold set_initial_object_parent, set_initial_object_location.
  repeat first [apply Ho|apply Hn|apply Hp|apply Hf|apply within_update_max|within_one].
Qed.

(** *** Steps that leave the state alone *)

Definition reading {A} (m : M A) : Prop := ∀ s, (m s).1 = s.
Lemma reading_bind {A B} (m : M A) (k : A → M B) :
  reading m → (∀ x, reading (k x)) → reading (bind m k).
Proof.
  intros Hm Hk s. specialize (Hm s). unfold bind. destruct (m s) as [s' [x|f]]; cbn in *; subst; [|done].
  apply Hk.
Qed.
Lemma after_reading {A B} (m : M A) (k : A → M B) s :
  reading m → (∀ x, (m s).2 = Ok x → R s (k x s).1) → R s (bind m k s).1.
Proof.
  intros Hm Hk. specialize (Hm s). unfold bind. destruct (m s) as [s' [x|f]]; cbn in *; subst; [|done].
  by apply Hk.
Qed.

(** ** Requests *)

Import DbWorldState.

Lemma within_require rule auth : within (require rule auth).
Proof. unfold require. within. Qed.
Lemma within_flags o : within (flags_of o).
Proof. unfold flags_of, get_object_flags. within. Qed.
Lemma within_owner o : within (owner_of o).
Proof. unfold owner_of, get_object_owner. within. Qed.
#[local] Hint Resolve within_require within_flags within_owner : within.
Lemma within_auth p : within (auth_context p).
Proof. unfold auth_context. within. Qed.
Lemma within_flags_and_owner o : within (flags_and_owner o).
Proof. unfold flags_and_owner. within. Qed.
Lemma within_must_be_valid o : within (must_be_valid o).
Proof. unfold must_be_valid, valid. within. Qed.
#[local] Hint Resolve within_auth within_flags_and_owner within_must_be_valid : within.
Lemma within_require_object p o f : within (require_object_allows p o f).
Proof. unfold require_object_allows. within. Qed.
Lemma within_require_owner p o : within (require_owner_or_wizard p o).
Proof. unfold require_owner_or_wizard. within. Qed.
Lemma within_require_property p o name perms f : within (require_property p o name perms f).
Proof. unfold require_property. within. Qed.
Lemma within_require_verb p o vh f : within (require_verb p o vh f).
Proof. unfold require_verb. within. Qed.
Lemma within_own_verb o uuid : within (own_verb_by_uuid o uuid).
Proof. unfold own_verb_by_uuid. within. Qed.
Lemma within_check_parent p parent owner : within (check_parent p parent owner).
Proof. unfold check_parent, valid. within. Qed.
Lemma within_property_info p o name : within (get_property_info fuel p o name).
Proof. unfold get_property_info, require_property. within; apply within_resolve_property. Qed.
Lemma within_verb_index o i : within (get_verb_by_index o i).
Proof. unfold get_verb_by_index. within. Qed.
#[local] Hint Resolve within_require_object within_require_owner within_require_property : within.
#[local] Hint Resolve within_require_verb within_own_verb within_check_parent : within.
#[local] Hint Resolve within_property_info within_verb_index within_get_verb : within.
#[local] Hint Resolve within_resolve_property within_set_flags within_set_name within_set_owner : within.
#[local] Hint Resolve within_update_property within_clear_property within_delete_property : within.
#[local] Hint Resolve within_define_property within_add_verb within_update_verb : within.
#[local] Hint Resolve within_delete_verb within_recycle within_renumber : within.

Lemma within_change_parent p o o' : within (change_parent fuel p o o').
Proof.
  assert (∀ n x, within (change_parent_loop n p o o' x)) as Hloop.
  { intros n. induction n as [|n IH]; intros x; cbn [change_parent_loop]; unfold parent_of; within. }
  unfold change_parent, check_chparent_property_conflict, property_names, descendants_of, ancestors_of.
  within.
Qed.
Lemma within_move now p o l : within (move_object fuel now p o l).
Proof. unfold move_object, get_object_location, set_last_move. within. Qed.
Lemma within_update_verb_checked o p vh attrs : within (do_update_verb fuel o p vh attrs).
Proof. unfold do_update_verb. within. Qed.
#[local] Hint Resolve within_change_parent within_move within_update_verb_checked : within.

Lemma reading_flags o : reading (flags_of o).
Proof. by apply reading_bind. Qed.
Lemma reading_owner o : reading (owner_of o).
Proof. by apply reading_bind. Qed.
Lemma reading_auth p : reading (auth_context p).
Proof. apply reading_bind; [apply reading_flags|done]. Qed.
Lemma reading_both o : reading (flags_and_owner o).
Proof. apply reading_bind; [apply reading_flags|intros]. by apply reading_bind; [apply reading_owner|]. Qed.
Lemma reading_require rule auth : reading (require rule auth).
Proof. intros s. unfold require. by destruct (Auth.allows rule auth). Qed.
Lemma reading_check_parent p parent owner : reading (check_parent p parent owner).
Proof.
  apply reading_bind; [apply reading_both|intros fo]. apply reading_bind; [apply reading_auth|intros auth].
  apply reading_bind; [done|intros [|]]; [apply reading_require|].
  destruct (negb _); [done|apply reading_require].
Qed.

Lemma within_create_request p parent owner flags kind generated s :
  (∀ q id, new_id kind generated (w_sequences s) = (q, Ok id) → may_create id flags) →
  R s (serve fuel p (ReqCreate parent owner flags kind generated) s).1.
Proof.
  intros Hid. cbn [serve]. apply within_bind_at; [|intros; apply within_ret].
  unfold create_object.
  apply after_reading; [apply reading_auth|intros auth _].
  apply after_reading; [done|intros ok _].
  destruct (negb ok && _); [reflexivity|].
  apply after_reading; [apply reading_require|intros _ _].
  apply after_reading.
  { destruct kind; [|done..]. apply reading_bind; [done|]. by intros [|]. }
  intros _ _. apply after_reading; [apply reading_check_parent|intros _ _].
  by apply within_create.
Qed.

Lemma within_attribute_of auth o pname v flags owner :
  (symbol_in pname [R_SYM; W_SYM; F_SYM] = true →
   ∀ f on, f ≠ ObjWizard → within (set_object_flags o (with_flag f on flags))) →
  symbol_in pname [NAME_SYM; OWNER_SYM; R_SYM; W_SYM; F_SYM] = true →
  within (update_attribute_of fuel auth o pname v flags owner).
Proof.
  intros Hflags Hname. unfold update_attribute_of.
  destruct (bool_decide (pname = NAME_SYM)) eqn:Hn; [within|].
  destruct (bool_decide (pname = OWNER_SYM)) eqn:Ho; [within|].
  unfold symbol_in in Hname. cbn [existsb] in Hname. rewrite Hn, Ho in Hname.
  specialize (Hflags Hname). within; by apply Hflags.
Qed.

Lemma rwf_name pname :
  symbol_in pname [R_SYM; W_SYM; F_SYM] = true →
  symbol_in pname [R_SYM; W_SYM; F_SYM; PROGRAMMER_SYM; WIZARD_SYM] = true.
Proof.
  unfold symbol_in. cbn [existsb]. by destruct (bool_decide (pname = R_SYM)),
    (bool_decide (pname = W_SYM)), (bool_decide (pname = F_SYM)).
Qed.
Lemma wizard_name pname :
  symbol_in pname [PROGRAMMER_SYM; WIZARD_SYM] = true →
  symbol_in pname [R_SYM; W_SYM; F_SYM; PROGRAMMER_SYM; WIZARD_SYM] = true.
Proof. unfold symbol_in. cbn [existsb]. intros ->. by rewrite !orb_true_r. Qed.

Lemma within_update o p pname v :
  (symbol_in pname [R_SYM; W_SYM; F_SYM; PROGRAMMER_SYM; WIZARD_SYM] = true →
   ∀ flags, may_set o flags) →
  within (DbWorldState.update_property fuel p o pname v).
Proof.
  intros Hflags. unfold DbWorldState.update_property.
  apply within_bind; [apply within_auth|intros auth].
  destruct (symbol_in pname [LOCATION_SYM; _; _; _]); [within|].
  destruct (symbol_in pname [NAME_SYM; _; _; _; _]) eqn:Hname.
  { apply within_bind; [apply within_flags_and_owner|intros fo]. apply within_attribute_of; [|done].
    intros Hrwf f on _. by apply within_set_flags, Hflags, rwf_name. }
  destruct (symbol_in pname [PROGRAMMER_SYM; WIZARD_SYM]) eqn:Hpw; [|within; apply within_resolve_property].
  within; by apply within_set_flags, Hflags, wizard_name.
Qed.
#[local] Hint Resolve within_update : within.

(** ** Any request *)

(** The commands a request runs on the flags are permitted; creation is left to
    its own lemma. *)
Definition permitted (r : request) : Prop :=
  match r with
  | ReqSetFlags o flags => may_set o flags
  | ReqCreate _ _ _ _ _ => False
  | ReqRecycle o => W ObjectFlags (CDelete o)
  | ReqRenumber _ _ _ => ∀ c, W ObjectFlags c
  | ReqUpdateProperty o pname _ =>
      symbol_in pname [R_SYM; W_SYM; F_SYM; PROGRAMMER_SYM; WIZARD_SYM] = true →
      ∀ flags, may_set o flags
  | _ => True
  end.

Lemma within_serve p r : permitted r → within (serve fuel p r).
Proof.
  destruct r; cbn [permitted serve]; intros Hr; try done.
  all: unfold set_flags_of, DbWorldState.recycle_object, check_recycle_object, DbWorldState.renumber_object,
    set_property_info, DbWorldState.clear_property, DbWorldState.define_property,
    DbWorldState.delete_property, DbWorldState.set_object_metadata, DbWorldState.clear_object_metadata,
    DbWorldState.set_property_metadata, DbWorldState.clear_property_metadata, DbWorldState.add_verb,
    remove_verb, DbWorldState.update_verb, update_verb_at_index, update_verb_with_id,
    DbWorldState.set_verb_metadata, DbWorldState.clear_verb_metadata.
  all: unfold WsObjects.set_object_metadata, WsObjects.clear_object_metadata,
    WsObjects.set_property_metadata, WsObjects.clear_property_metadata,
    WsObjects.set_verb_metadata, WsObjects.clear_verb_metadata.
  all: within.
Qed.
End within.
