(* ===== verification/WsSteps.v ===== *)
(** The operations of the world state are steps of the database: whatever an
    operation does to its transaction, the database with the transaction so
    changed is reachable, so what holds of every reachable database holds after
    any operation. *)
From S2P Require Import Prelude Obj TxTypes RelIndex RelTx RelTxSpec RelTxProofs CheckApply Model.
From S2P Require Import Verbs Caches Relations Commit CommitProofs System SystemProofs.
From S2P Require Import CacheCoherence IndexKinds Forest Auth.
From S2P Require Import WsBase WsObjects WsVerbs WsProps WorldState WsSpec WsViews WsHierarchy WsResolve.
From S2P Require Import WsInherit WsCoherent WsEdits WsPropEdits WsOwner WsLife WsSession WsWithin.
From stdpp Require Import base gmap sets list strings fin_maps.

Open Scope Z_scope.
Open Scope ws_scope.

Section steps.
Context `{Hashes} `{Payload} `{!Values} `{Interner}.
Context {P : DatabaseRelation → Type} `{∀ r, Provider (P r) (DomainOf r) (CodomainOf r)}.
Context (sources : ∀ r, P r) (pms : ∀ r, gmap (DomainOf r) (Timestamp * CodomainOf r)).
Context (sources_model : ∀ r, ProviderModel (sources r) (pms r)).
(** The rows of the snapshot the transaction started from. *)
Context (b : Rows).
#[local] Notation M := (M (P := P)).
#[local] Notation reachable := (reachable sources pms).

(** The database with transaction [i] replaced. *)
Definition running_as (i : nat) (base : WorldStateSnapshot) (s : ws P) (x : sys (P := P)) : sys :=
  mkSys (sys_db x) (<[i := Running base (w_tx s)]> (sys_txs x)) (sys_history x).

Definition moves (s s' : ws P) : Prop :=
  ∀ x i base, rows_of base = b → reachable x → sys_txs x !! i = Some (Running base (w_tx s)) →
    reachable (running_as i base s' x).

Definition anywhere r (c : cmd (DomainOf r) (CodomainOf r)) : Prop := True.

Lemma moves_trans s s' s'' : moves s s' → moves s' s'' → moves s s''.
Proof.
  intros Hm1 Hm2 x i base Hb Hx Hi. specialize (Hm1 x i base Hb Hx Hi).
  specialize (Hm2 _ i base Hb Hm1 ltac:(apply lookup_insert_eq)). unfold running_as in *. simpl in Hm2.
  by rewrite insert_insert_eq in Hm2.
Qed.

(** A command of a relation. *)
Lemma moves_exec s r (c : cmd (DomainOf r) (CodomainOf r)) :
  (∀ x i base, rows_of base = b → reachable x → sys_txs x !! i = Some (Running base (w_tx s)) →
     allowed (pms r) c (rel s r)) →
  moves s (set_rel r (exec c (rel s r)).1 s).
Proof.
  intros Ha x i base Hb Hx Hi. apply (reach_step _ _ x); [done|].
  apply step_op; [done|]. by apply (Ha x i base).
Qed.

#[export] Instance moves_journal : Journal moves anywhere.
Proof.
  split.
  - split; [|intros ?; apply moves_trans].
    intros s x i base _ Hx Hi. unfold running_as. rewrite insert_id by done. by destruct x.
  - intros s s' Htx Hrel x i base _ Hx Hi. unfold running_as.
    destruct s' as [[tx' rels' c o p] m rev q]. simpl in *. subst.
    apply (reach_step _ _ x); [done|]. by apply step_note.
  - intros s r c _ Hc. apply moves_exec. intros x i base _ Hx Hi. destruct c; simpl in *; try done.
    exact (ki_running x (kinds_reachable sources pms sources_model x Hx) i base _ r Hi Hc).
Qed.

Lemma moves_insert_unique r d v msg : b r !! d = None → within moves (r_insert_unique r d v msg).
Proof.
  intros Hd s. unfold r_insert_unique, runs.
  change (moves s (set_rel r (exec (CInsertUnique d v) (rel s r)).1 s)). apply moves_exec.
  intros x i base Hb Hx Hi. simpl. unfold rel.
  destruct (reachable_inv sources pms sources_model x Hx) as [c0 Hinv].
  destruct (inv_txs _ _ _ _ Hinv i _ Hi) as [_ Hok]. destruct (Hok r) as (_ & -> & _). by rewrite Hb.
Qed.

(** ** Creation *)

Context (fuel : nat) (names : Symbol → Prop).

(** No row of the snapshot is keyed by the object. *)
Record fresh (id : Obj) : Prop := {
  fr_owner : b ObjectOwner !! id = None;
  fr_name : b ObjectName !! id = None;
  fr_parent : b ObjectParent !! id = None;
  fr_flags : b ObjectFlags !! id = None;
}.

Lemma fresh_create id flags : fresh id → may_create moves id flags.
Proof. intros []. split; intros; by apply moves_insert_unique. Qed.

Lemma moves_create kind generated attrs s :
  (∀ q id, new_id kind generated (w_sequences s) = (q, Ok id) → fresh id) →
  moves s (create_object kind generated attrs s).1.
Proof.
  intros Hid. apply (within_create moves anywhere); [done|]. intros q id Hq. by apply fresh_create, (Hid q).
Qed.

(** ** Sessions *)

Lemma unused_fresh id v : unused b id v → fresh id.
Proof. by intros []. Qed.

#[local] Hint Resolve within_set_parent within_set_location within_set_owner within_recycle : within.
#[local] Hint Resolve within_add_verb within_update_verb within_delete_verb within_delete_property : within.
#[local] Hint Resolve within_update_property within_set_property within_clear_property : within.
#[local] Hint Resolve within_define_property within_get_verb within_resolve_verb within_ancestors : within.
#[local] Hint Resolve within_resolve_property within_permissions within_isa within_set_flags within_set_name : within.

Lemma moves_op o s : op_ok b fuel names o (abs pms s) → moves s (do_op fuel o s).1.
Proof.
  destruct o as [| | | | |kind gen attrs| | | | | | | | | | | | | | |]; cbn [do_op op_ok]; intros Hok.
  6: { destruct Hok as (q & id & Hid & Hun & _). apply (within_bind_at moves anywhere).
       - apply moves_create. intros q' id' Hid'. change (a_sequences (abs pms s)) with (w_sequences s) in Hid.
         rewrite Hid in Hid'. simplify_eq. by eapply unused_fresh.
       - intros; apply (within_ret moves anywhere). }
  all: assert (∀ r c, r ≠ ObjectFlags → anywhere r c) as Hw by done.
  all: assert (∀ o flags, may_set anywhere o flags) as Hset by done.
  all: assert (∀ r c, anywhere r c) as Hflags by done.
  all: assert (within moves (ret (P := P) tt)) as Hret by apply (within_ret moves anywhere).
  all: revert s Hok; match goal with |- ∀ s, _ → moves s (?m s).1 => cut (within moves m); [by intros Hm s _|] end.
  all: lazymatch goal with
       | |- within _ (bind _ _) => apply (within_bind moves anywhere); [|done] | _ => idtac end.
  all: eauto 3 with typeclass_instances within.
Qed.

Lemma session_moves s ops s' : session pms b fuel names s ops s' → moves s s'.
Proof.
  induction 1 as [s|s o ops s' _ Hok _ IH]; [done|].
  eapply moves_trans; [|exact IH]. by apply moves_op.
Qed.
End steps.
