(* ===== verification/WsMain.v ===== *)
(** What the world state promises, for a transaction of a database that any
    number of transactions use: resolution through the caches gives what the
    rows say, walks through the hierarchy end, objects are never inside
    themselves, and what moving, recycling, creating and changing the owner of
    an object do. *)
From S2P Require Import Prelude Obj TxTypes RelIndex RelTx RelTxSpec RelTxProofs Model.
From S2P Require Import Verbs Caches Relations Commit CommitProofs System SystemProofs.
From S2P Require Import CacheCoherence IndexKinds Forest.
From S2P Require Import WsBase WsObjects WsVerbs WsProps WsSpec WsViews WsHierarchy WsResolve.
From S2P Require Import WsInherit WsCoherent WsEdits WsPropEdits WsOwner WsLife WsSession WsSteps.
From stdpp Require Import base gmap sets list strings fin_maps.

Open Scope Z_scope.
Open Scope ws_scope.
#[local] Opaque is_nothing WsSpec.wp.

(** ** The interface to the caches of the database *)

Section interface.
Context `{Payload} `{Interner}.
Context (names : Symbol → Prop).

(** The values of rows kept with their timestamps. *)
Definition values_of (m : Rows) : Views := λ r, entry_value <$> m r.

Definition caches_coherent (v : Views) (c : Caches) : Prop :=
  verbs_coherent names v (verb_resolution_cache c) ∧
  props_coherent names v (prop_resolution_cache c) ∧
  ancestry_coherent v (ancestry_cache c).

Lemma new_coherent v : caches_coherent v caches_new.
Proof.
  split_and!; [split|split|].
  - intros o n args flags e l _ _ Hc. exfalso. exact (lookup_empty_Some _ _ Hc).
  - intros o e l Hc. exfalso. exact (lookup_empty_Some _ _ Hc).
  - intros o n e l _ _ Hc. exfalso. exact (lookup_empty_Some _ _ Hc).
  - intros o e l Hc. exfalso. exact (lookup_empty_Some _ _ Hc).
  - intros o l Hc. exfalso. exact (lookup_empty_Some _ _ Hc).
Qed.

(** What the database asks of a notion of coherence holds of this one. *)
#[export] Instance world_coherence : Coherence (λ m c, caches_coherent (values_of m) c).
Proof.
  split.
  - intros m m' c Hm. assert (values_of m' = values_of m) as ->; [|done].
    apply views_ext. intros r. unfold values_of. by rewrite Hm.
  - intros m. apply new_coherent.
  - intros m c ([He Hf] & [Hpe Hpf] & Ha). split_and!; [by split|by split|exact Ha].
Qed.
End interface.

Section main.
Context `{Hashes} `{Payload} `{!Values} `{Interner}.
Context {P : DatabaseRelation → Type} `{∀ r, Provider (P r) (DomainOf r) (CodomainOf r)}.
Context (sources : ∀ r, P r) (pms : ∀ r, gmap (DomainOf r) (Timestamp * CodomainOf r)).
Context (sources_model : ∀ r, ProviderModel (sources r) (pms r)).
Context (fuel : nat).
Context (names : Symbol → Prop).

Definition rows (s : ws P) : Views := a_rows (abs pms s).

(** A running transaction satisfies the invariant of the relations. *)
Lemma running_good x i base t q :
  reachable sources pms x → sys_txs x !! i = Some (Running base t) →
  good pms (rows_of base) (ws_start t q).
Proof.
  intros Hx Hi r. destruct (reachable_inv sources pms sources_model x Hx) as [c0 Hinv].
  destruct (inv_txs _ _ _ _ Hinv i _ Hi) as [_ Hok]. destruct (Hok r) as (Hwf & Hb & Htx).
  split_and!; [done..|]. intros Hr.
  exact (ki_running x (kinds_reachable sources pms sources_model x Hx) i base t r Hi Hr).
Qed.

(** Before it writes, its rows are those of its snapshot. *)
Lemma unwritten_rows base (t : WorldStateTransaction (P := P)) q :
  good pms (rows_of base) (ws_start t q) → has_mutations t = false →
  rows (ws_start t q) = values_of (rows_of base).
Proof.
  intros Hg Hm. apply views_ext. intros r. destruct (Hg r) as (_ & Hb & _).
  unfold rows, values_of, abs, view. cbn [a_rows]. rewrite Hb.
  assert (RelTxSpec.log (rel (ws_start t q) r) = ∅) as ->.
  { assert (RelationTransaction.has_mutations (wtx_relations t r) = false) as Hr.
    { destruct (RelationTransaction.has_mutations (wtx_relations t r)) eqn:Hr; [|done].
      rewrite <-Hm. symmetry. apply existsb_exists. exists r. split; [|done]. destruct r; simpl; tauto. }
    unfold RelationTransaction.has_mutations, LocalOperations.is_empty in Hr.
    apply negb_false_iff, bool_decide_eq_true in Hr. done. }
  apply map_eq. intros d. unfold overlay. rewrite lookup_merge, lookup_empty, lookup_fmap.
  by destruct (rows_of base r !! d).
Qed.

Lemma start_sound x i base t q :
  reachable_coherently sources pms (λ m c, caches_coherent names (values_of m) c) x →
  sys_txs x !! i = Some (Running base t) → has_mutations t = false →
  world_ok (values_of (rows_of base)) →
  good pms (rows_of base) (ws_start t q) ∧ sound names (abs pms (ws_start t q)).
Proof.
  intros Hx Hi Hm Hw.
  assert (good pms (rows_of base) (ws_start t q)) as Hg
    by (by eapply running_good; [eapply coherently_reachable|]).
  pose proof (unwritten_rows base t q Hg Hm) as Hrows. unfold rows in Hrows.
  pose proof (caches_inv_reachable sources pms _ sources_model x Hx) as Hinv.
  destruct (ci_running _ _ Hinv i base t Hi Hm) as (Hv & Hp & Ha).
  split; [done|]. unfold sound, a_coherent. rewrite Hrows. split; [done|]. split; [done..|].
  split.
  - intros o u p l Hc. exfalso. exact (lookup_empty_Some _ _ Hc).
  - intros h Hh. by apply elem_of_empty in Hh.
Qed.

(** C4: the caches are transparent. Take any database history in which the
    transactions that only read keep the shared caches coherent (as this
    theorem's operations do), a transaction that has not written yet, and any
    sequence of operations on it: changes of parents, locations, owners, flags,
    names, verbs, properties and values, creations, recyclings, and resolutions
    that fill the caches. Whatever the operations return, afterwards the
    database with the transaction in its new state is one its transactions can
    reach, so the results on commits apply to it, the relations are intact, the world is well formed, and ancestors, verbs,
    properties and permissions resolved through the caches are exactly those
    found by walking the current rows: the first fitting definition on the
    lineage, or the error that says there is none. *)
Theorem resolution_is_transparent x i base t q ops s obj l name :
  (∀ n n', names n → names n' → interned n n') →
  reachable_coherently sources pms (λ m c, caches_coherent names (values_of m) c) x →
  sys_txs x !! i = Some (Running base t) → has_mutations t = false →
  world_ok (values_of (rows_of base)) →
  session pms (rows_of base) fuel names (ws_start t q) ops s →
  chain (parents (rows s)) obj l → (size (parents (rows s)) < fuel)%nat → names name →
  reachable sources pms (running_as i base s x) ∧
  good pms (rows_of base) s ∧ world_ok (rows s) ∧ answers pms fuel s obj l name.
Proof.
  intros Hnames Hx Hi Hm Hw Hses Hl Hf Hn.
  destruct (start_sound x i base t q Hx Hi Hm Hw) as [Hg0 Hs0].
  destruct (session_sound pms (rows_of base) fuel names Hnames _ _ _ Hses Hg0 Hs0) as [Hg Hs].
  split_and!; [|done|apply Hs|].
  { refine (session_moves sources pms sources_model _ fuel names _ _ _ Hses x i base eq_refl _ Hi).
    by eapply coherently_reachable. }
  apply (sound_answers pms (rows_of base) fuel names Hnames); [done..| |done].
  pose proof (chain_length _ _ _ Hl). unfold rows in *. lia.
Qed.

(** C24: the walks through the hierarchy end and are exact. When no object is its
    own ancestor, a number of steps above the number of objects with a parent
    is enough for every walk, and then the ancestors are the whole chain of
    parents in order, the descendants are exactly the objects with the given
    one on their chain, each once, and the test for an ancestor is membership
    in the chain, whatever is cached. *)
Theorem hierarchy_walks_end base s obj l anc :
  good pms base s → acyclic (parents (rows s)) → named (parents (rows s)) →
  ancestry_coherent (rows s) (ancestry_cache (ws_caches_of s)) →
  is_nothing obj = false → chain (parents (rows s)) obj l →
  (size (parents (rows s)) < fuel)%nat →
  (ancestors fuel obj true s).2 = Ok (obj :: l) ∧
  (isa fuel obj anc s).2 =
    Ok (bool_decide (is_Some (obj_flags (rows s) !! obj)) && bool_decide (anc ∈ obj :: l)) ∧
  ∃ ds, (descendants fuel obj true s).2 = Ok (obj :: ds) ∧ NoDup (obj :: ds) ∧
    ∀ x, x ∈ ds ↔ sbelow (parents (rows s)) obj x.
Proof.
  intros Hg Ha Hnn Hc Ho Hl Hf. pose proof (chain_length _ _ _ Hl) as Hlen.
  split_and!.
  - apply (wp_answer pms base _ _ _ (λ _, True)); [done|].
    by eapply ancestors_wp; [done|unfold rows in *; lia|..].
  - apply (wp_answer pms base _ _ _ (λ _, True)); [done|].
    by eapply isa_wp; [done|unfold rows in *; lia|..].
  - assert (WsSpec.wp pms base (descendants fuel obj true) (λ r _, ∃ ds, r = Ok (obj :: ds) ∧
      NoDup (obj :: ds) ∧ ∀ x, x ∈ ds ↔ sbelow (parents (rows s)) obj x) (abs pms s)) as Hwp.
    { apply descendants_wp; [done..|unfold rows in *; lia|]. intros ds Hn Hds. by exists ds. }
    by destruct (Hwp s Hg eq_refl).
Qed.

Lemma endless_ancestors base s obj :
  good pms base s → AncestryCache.lookup obj (ancestry_cache (ws_caches_of s)) = None →
  endless (parents (rows s)) obj → ∀ n, (ancestors n obj false s).2 = Err Diverged.
Proof.
  intros Hg Hc He n. apply (wp_answer pms base _ _ _ (λ _, True)); [done|]. by apply ancestors_diverge.
Qed.

Lemma endless_set_parent base s C o p :
  good pms base s → fertile (parents (rows s)) C → o ∈ C → parents (rows s) !! o ≠ Some p →
  ∀ n, (set_object_parent n o p s).2 = Err Diverged.
Proof.
  intros Hg HC Ho Hp n. apply (wp_answer pms base _ _ _ (λ _, True)); [done|].
  by apply (set_parent_diverges _ _ _ C).
Qed.

(** the walk up the parents ends exactly when the chain of parents does: on
    a cycle, whatever the number of steps allowed, an uncached query for the
    ancestors never returns, and a move to a location that is on a cycle
    without the moved object never returns either. *)
Theorem walk_ends_iff_chain_does base s obj :
  good pms base s → AncestryCache.lookup obj (ancestry_cache (ws_caches_of s)) = None →
  ((∃ n r, (ancestors n obj false s).2 = Ok r) ↔ ∃ l, chain (parents (rows s)) obj l) ∧
  (endless (parents (rows s)) obj → ∀ n, (ancestors n obj false s).2 = Err Diverged) ∧
  (∀ what target, endless (locations (rows s)) target →
     (∀ k, Nat.iter k (λ o, o ≫= up (locations (rows s))) (Some target) ≠ Some what) →
     is_nothing target = false → ∀ n, (set_object_location n what target s).2 = Err Diverged).
Proof.
  intros Hg Hc.
  pose proof (endless_ancestors base s obj Hg Hc) as Hdiv.
  split_and!; [|done|].
  - split.
    + intros (n & r & Hr). destruct (chain_or_endless (parents (rows s)) obj) as [Hl|He]; [done|].
      rewrite (Hdiv He n) in Hr. done.
    + intros [l Hl]. exists (S (length l)), l.
      apply (wp_answer pms base _ _ _ (λ _, True)); [done|]. unfold ancestors. apply wp_bind.
      apply (wp_gets pms base _ (λ a, AncestryCache.lookup obj (ancestry_cache (a_caches a)))); [done|].
      change (ancestry_cache (a_caches (abs pms s))) with (ancestry_cache (ws_caches_of s)). rewrite Hc.
      apply wp_bind, wp_bind. eapply ancestors_loop_wp; [done|lia|].
      apply wp_bind, wp_modify_caches. by do 2 apply wp_ret.
  - intros what target He Hout Hn n. apply (wp_answer pms base _ _ _ (λ _, True)); [done|].
    apply wp_bind. by apply recursive_move_diverges.
Qed.

(** C25: nothing is ever inside itself. While containment has no cycle, a move
    is refused as recursive exactly when it would close one, and a refused move
    changes no row; any other move returns and changes the location of the moved
    object alone; either way containment has no cycle afterwards. *)
Theorem moves_keep_containment base s what target :
  good pms base s → acyclic (locations (rows s)) → (size (locations (rows s)) + 1 < fuel)%nat →
  let '(s', r) := set_object_location fuel what target s in
  (r = Err (WsErr (RecursiveMove what target)) ↔
     ~ acyclic (<[what := target]> (locations (rows s)))) ∧
  (r = Err (WsErr (RecursiveMove what target)) → rows s' = rows s) ∧
  (r ≠ Err (WsErr (RecursiveMove what target)) → r = Ok tt ∧ rows s' = move_rows what target (rows s)) ∧
  acyclic (locations (rows s')).
Proof.
  intros Hg Ha Hf. destruct (Ha target) as [l Hl]. pose proof (chain_length _ _ _ Hl) as Hlen.
  assert (recursive (locations (rows s)) what target ↔
    ~ acyclic (<[what := target]> (locations (rows s)))) as Hrec.
  { split; [intros [Hn Hb]; by apply cyclic_insert|]. intros Hcyc. unfold recursive.
    rewrite (below_chain _ _ _ _ Hl). destruct (is_nothing target) eqn:Hn.
    - destruct Hcyc. by apply acyclic_insert; [|rewrite Hn].
    - split; [done|]. destruct (decide (what ∈ target :: l)) as [|Hout]; [done|].
      destruct Hcyc. apply acyclic_insert; [done|]. intros _. by rewrite (below_chain _ _ _ _ Hl). }
  assert (WsSpec.wp pms base (set_object_location fuel what target) (λ r a',
    r = Err (WsErr (RecursiveMove what target)) ∧ recursive (locations (rows s)) what target ∧
      a_rows a' = rows s ∨
    r = Ok tt ∧ ~ recursive (locations (rows s)) what target ∧
      a_rows a' = move_rows what target (rows s)) (abs pms s)) as Hwp.
  { eapply set_object_location_wp; [done|unfold rows in *; lia|..]; intros Hr; [by left|by right]. }
  specialize (Hwp s Hg eq_refl). destruct (set_object_location fuel what target s) as [s' r].
  cbn [fst snd] in Hwp. destruct Hwp as [_ [(-> & Hr & Hrows)|(-> & Hr & Hrows)]];
    unfold rows at 4 5 6 in |- *; rewrite Hrows, <-Hrec.
  - split_and!; done.
  - split_and!; [by split|done|done|].
    apply acyclic_insert; [done|]. intros Hn Hb. apply Hr. by split.
Qed.

(** C26: changing the owner changes no permission. It always succeeds; the object
    has the new owner, and the permissions of every property on every object,
    also of properties that follow the owner of the object they are inherited
    by, are what they were: those are written down first. Names, verbs,
    definitions and values are untouched. *)
Theorem chown_keeps_permissions base s o w :
  good pms base s → sound names (abs pms s) → (size (parents (rows s)) < fuel)%nat →
  let '(s', r) := set_object_owner fuel o w s in
  r = Ok tt ∧ owners (rows s') = <[o := w]> (owners (rows s)) ∧
  (∀ o' u l, chain (parents (rows s)) o' l → perms_of (rows s') o' u l = perms_of (rows s) o' u l) ∧
  (∀ rel, rel ≠ ObjectOwner → rel ≠ ObjectPropflags → rows s' rel = rows s rel).
Proof.
  intros Hg [Hw Hc] Hf. destruct (wo_parents _ Hw o) as [l Hl].
  assert (WsSpec.wp pms base (set_object_owner fuel o w) (λ r a', r = Ok tt ∧
    a_rows a' = if decide (owners (rows s) !! o = Some w) then rows s else owner_rows o w l (rows s))
    (abs pms s)) as Hwp.
  { eapply (set_object_owner_wp pms base fuel names); [by split|done|].
    intros a' [Hr _ _ _ _]. by rewrite Hr. }
  specialize (Hwp s Hg eq_refl). destruct (set_object_owner fuel o w s) as [s' r].
  cbn [fst snd] in Hwp. destruct Hwp as (_ & -> & Hrows). fold (rows s') in Hrows. rewrite Hrows.
  case_decide as Hcur.
  - split_and!; [done| |done..]. by rewrite insert_id.
  - split_and!; [done| | |].
    + destruct (keep_views (keep_all (rows s) o l) (rows s)) as (_ & _ & _ & Ho).
      change (owners (owner_rows o w l (rows s)))
        with (<[o := w]> (owners (keep_rows (keep_all (rows s) o l) (rows s)))). by rewrite Ho.
    + intros o' u l' Hl'. destruct (decide (o' = o)) as [->|Hne].
      * rewrite (chain_det _ _ _ _ Hl' Hl). by apply owner_perms_self.
      * by apply owner_perms_other.
    + intros r Hr1 Hr2. unfold owner_rows, put. rewrite dupd_ne by done.
      generalize (keep_all (rows s) o l). intros ps. generalize (rows s). clear -Hr2.
      unfold keep_rows. induction ps as [|p ps IH]; intros v; cbn [fold_left]; [done|].
      rewrite IH. unfold edit_flags, put. by rewrite dupd_ne.
Qed.


Context (Hnames : ∀ n n', names n → names n' → interned n n').


Lemma increment_load q :
  length (Sequences.values q) = SEQUENCE_COUNT → -1 ≤ Sequences.load SEQUENCE_MAX_OBJECT q ≤ i32_max →
  (Sequences.increment SEQUENCE_MAX_OBJECT q).2 = Sequences.load SEQUENCE_MAX_OBJECT q + 1 ∧
  Sequences.load SEQUENCE_MAX_OBJECT (Sequences.increment SEQUENCE_MAX_OBJECT q).1 =
    Sequences.load SEQUENCE_MAX_OBJECT q + 1.
Proof.
  intros Hlen Hm. unfold Sequences.increment. cbn [fst snd].
  assert (to_signed 64 (wrap 64 (Sequences.load SEQUENCE_MAX_OBJECT q + 1)) =
    Sequences.load SEQUENCE_MAX_OBJECT q + 1) as ->.
  { unfold to_signed, wrap, i32_max in *. rewrite Z.mod_small by lia. case_match; lia. }
  split; [done|]. unfold Sequences.load, Sequences.mark_dirty. cbn [Sequences.values].
  destruct (Sequences.values q); [done|]. done.
Qed.

Lemma note_id_numbered n q :
  0 ≤ n ≤ i32_max → Sequences.load SEQUENCE_MAX_OBJECT q = n → note_id (mk_id n) q = q.
Proof.
  intros Hn Hq. unfold note_id, is_uuobjid, is_anonymous, Obj.id, mk_id.
  rewrite encode_as_objid_code. cbn. rewrite decode_encode_objid by (unfold i32_max in *; lia).
  cbn [objid_val]. unfold Sequences.update_max. rewrite Hq.
  by rewrite (proj2 (Z.leb_le n n)) by lia.
Qed.

(** C28: new objects get the next number, within 32 bits. With the largest number
    so far below the maximum, creating a numbered object whose number no row
    uses returns the next number, writes exactly the rows of the new object,
    leaves the world well formed and the caches coherent, and that number is
    then the largest. At the maximum, creation is refused with an error and no
    row is written, instead of wrapping around to a negative number; the
    counter has moved on all the same. *)
Theorem create_numbered_object base s generated attrs :
  good pms base s → sound names (abs pms s) →
  length (Sequences.values (w_sequences s)) = SEQUENCE_COUNT →
  let max := Sequences.load SEQUENCE_MAX_OBJECT (w_sequences s) in
  -1 ≤ max ≤ i32_max →
  let '(s', r) := create_object KindNextObjid generated attrs s in
  (max = i32_max →
     r = Err (WsErr (DatabaseError "Maximum object sequence number out of bounds")) ∧
     rows s' = rows s ∧ Sequences.load SEQUENCE_MAX_OBJECT (w_sequences s') = max + 1) ∧
  (max < i32_max → unused base (mk_id (max + 1)) (rows s) →
   ObjAttrsOps.parent attrs ≠ Some (mk_id (max + 1)) →
   r = Ok (mk_id (max + 1)) ∧ rows s' = create_rows (mk_id (max + 1)) attrs (rows s) ∧
   Sequences.load SEQUENCE_MAX_OBJECT (w_sequences s') = max + 1 ∧
   good pms base s' ∧ sound names (abs pms s')).
Proof.
  intros Hg [Hw Hc] Hlen max Hmax. destruct (increment_load _ Hlen Hmax) as [Hval Hload]. fold max in Hval, Hload.
  assert (new_id KindNextObjid generated (w_sequences s) =
    ((Sequences.increment SEQUENCE_MAX_OBJECT (w_sequences s)).1,
     if max =? i32_max then Err (WsErr (DatabaseError "Maximum object sequence number out of bounds"))
     else Ok (mk_id (max + 1)))) as Hid.
  { unfold new_id. destruct (Sequences.increment _ _) as [q m]. cbn [fst snd] in *. subst m. f_equal.
    destruct (Z.eqb_spec max i32_max), (Z.ltb_spec (max + 1) i32_min), (Z.ltb_spec i32_max (max + 1));
      try done; unfold i32_min, i32_max in *; lia. }
  set (q := (Sequences.increment SEQUENCE_MAX_OBJECT (w_sequences s)).1) in *.
  destruct (create_object KindNextObjid generated attrs s) as [s' r] eqn:Hrun. split.
  - intros Heq. rewrite Heq, Z.eqb_refl in Hid.
    assert (WsSpec.wp pms base (create_object KindNextObjid generated attrs) (λ r a',
      r = Err (WsErr (DatabaseError "Maximum object sequence number out of bounds")) ∧
      a' = with_a_sequences q (abs pms s)) (abs pms s)) as Hwp.
    { apply wp_bind, new_object_id_wp. change (a_sequences (abs pms s)) with (w_sequences s).
      by rewrite Hid. }
    specialize (Hwp s Hg eq_refl). rewrite Hrun in Hwp. cbn [fst snd] in Hwp.
    destruct Hwp as (_ & -> & Ha). split_and!; [done|unfold rows; by rewrite Ha|].
    change (w_sequences s') with (a_sequences (abs pms s')). rewrite Ha. exact Hload.
  - intros Hlt Hun Hp. assert ((max =? i32_max) = false) as Hne by (apply Z.eqb_neq; lia).
    rewrite Hne in Hid.
    assert (WsSpec.wp pms base (create_object KindNextObjid generated attrs) (λ r a',
      r = Ok (mk_id (max + 1)) ∧ creates names (abs pms s) (mk_id (max + 1)) attrs q a') (abs pms s)) as Hwp.
    { eapply (create_object_wp pms base names Hnames); [done..|]. by intros. }
    specialize (Hwp s Hg eq_refl). rewrite Hrun in Hwp. cbn [fst snd] in Hwp.
    destruct Hwp as (Hg' & -> & [Hr _ Hq Hw' Hc']). split_and!; [done|exact Hr| |done|by split].
    change (w_sequences s') with (a_sequences (abs pms s')).
    rewrite Hq, note_id_numbered by (done || lia). done.
Qed.
End main.
