(* ===== verification/WsAuthority.v ===== *)
(** What the permission checks guarantee: a request the task has no authority
    for writes nothing, and tasks without a wizard's authority make no wizards. *)
From S2P Require Import Prelude Obj TxTypes RelIndex RelTx RelTxSpec RelTxProofs Model.
From S2P Require Import Verbs Caches Relations Commit CommitProofs System SystemProofs.
From S2P Require Import CacheCoherence ModelProofs IndexKinds Forest Auth.
From S2P Require Import WsBase WsObjects WsVerbs WsProps WsRenumber WorldState WsSpec WsViews WsHierarchy.
From S2P Require Import WsResolve WsInherit WsCoherent WsLife WsSession WsMediate WsWithin WsSteps WsMain.
From stdpp Require Import base gmap sets list strings fin_maps.

Open Scope Z_scope.
Open Scope ws_scope.
#[local] Opaque is_nothing WsSpec.wp.

Section authority.
Context `{Hashes} `{Payload} `{!Values} `{!ValueForms} `{Interner}.
Context {P : DatabaseRelation → Type} `{∀ r, Provider (P r) (DomainOf r) (CodomainOf r)}.
Context (sources : ∀ r, P r) (pms : ∀ r, gmap (DomainOf r) (Timestamp * CodomainOf r)).
Context (sources_model : ∀ r, ProviderModel (sources r) (pms r)).
Context (fuel : nat).
Context (names : Symbol → Prop).
#[local] Notation reachable := (reachable sources pms).
#[local] Notation rows := (rows pms).

(** ** Wizards *)

(** The objects with the wizard flag. *)
Definition is_wizard_at (v : Views) (o : Obj) : bool := BitEnumOps.contains ObjWizard (flags_at v o).

Definition wizards_in (X : Obj → Prop) (s : ws P) : Prop := ∀ o, is_wizard_at (rows s) o = true → X o.

(** Setting flags makes no wizard outside [X]. *)
Definition modest (X : Obj → Prop) r : cmd (DomainOf r) (CodomainOf r) → Prop :=
  match r return cmd (DomainOf r) (CodomainOf r) → Prop with
  | ObjectFlags => λ c,
      match c with
      | CUpsertWith o f =>
          ∀ current flags, f current = Some flags → BitEnumOps.contains ObjWizard flags = true → X o
      | CInsertUnique o flags => BitEnumOps.contains ObjWizard flags = true → X o
      | CDelete _ | CGetAll => True
      | _ => False
      end
  | _ => λ _, True
  end.

Context (b : Rows).
#[local] Notation moves := (moves sources pms b).

(** A step of the database after which the wizards are still in [X]. *)
Definition keeps (X : Obj → Prop) (s s' : ws P) : Prop :=
  ∀ x i base, rows_of base = b → reachable x → sys_txs x !! i = Some (Running base (w_tx s)) →
    reachable (running_as i base s' x) ∧ (wizards_in X s → wizards_in X s').

Lemma keeps_moves X s s' : keeps X s s' → moves s s'.
Proof. intros Hk x i base Hb Hx Hi. by apply (Hk x i base). Qed.

Lemma moves_keeps X s s' :
  moves s s' → (good pms b s → wizards_in X s → wizards_in X s') → keeps X s s'.
Proof.
  intros Hm Hw x i base Hb Hx Hi. split; [by apply Hm|]. apply Hw.
  rewrite <-Hb. exact (running_good sources pms sources_model x i base (w_tx s) (w_sequences s) Hx Hi).
Qed.

Lemma wizards_same X s s' :
  wtx_relations (w_tx s') = wtx_relations (w_tx s) → wizards_in X s → wizards_in X s'.
Proof.
  intros Hrel Hw o. unfold is_wizard_at, flags_at, obj_flags, WsMain.rows, abs, rel in *. cbn [a_rows].
  rewrite Hrel. apply Hw.
Qed.

Lemma wizards_flags X v v' :
  (∀ o, is_wizard_at v o = true → X o) →
  (∀ o flags, obj_flags v' !! o = Some flags → BitEnumOps.contains ObjWizard flags = true →
     obj_flags v !! o = Some flags ∨ X o) →
  ∀ o, is_wizard_at v' o = true → X o.
Proof.
  intros Hw Hv o Ho. unfold is_wizard_at, flags_at in Ho.
  destruct (obj_flags v' !! o) as [flags|] eqn:Hl; [|done]. cbn in Ho.
  destruct (Hv o flags Hl Ho) as [Hold|]; [|done]. apply Hw. unfold is_wizard_at, flags_at. by rewrite Hold.
Qed.

Lemma keeps_exec X s r (c : cmd (DomainOf r) (CodomainOf r)) :
  moves s (set_rel r (exec c (rel s r)).1 s) → (good pms b s → allowed (pms r) c (rel s r)) →
  modest X r c → keeps X s (set_rel r (exec c (rel s r)).1 s).
Proof.
  intros Hm Ha Hc. apply moves_keeps; [done|]. intros Hg Hw. specialize (Ha Hg).
  unfold wizards_in. unfold WsMain.rows. rewrite abs_set_rel. apply (wizards_flags X (rows s)); [exact Hw|].
  intros o flags. unfold obj_flags.
  destruct (decide (r = ObjectFlags)) as [->|Hne]; [|rewrite set_rows_ne by done; by left].
  rewrite set_rows_eq. destruct (Hg ObjectFlags) as (Hwf & _).
  destruct (exec_refines _ c (rel s ObjectFlags) Hwf Ha) as (m & (_ & -> & _) & Hs).
  change (rows s ObjectFlags) with (view (pms ObjectFlags) (rel s ObjectFlags)).
  revert Hs. generalize (view (pms ObjectFlags) (rel s ObjectFlags)) as old. intros old.
  destruct c; cbn in Hc |- *; try done; intros [_ ->].
  - intros [[<- <-]|[_ ?]]%lookup_insert_Some Hf; [right; auto|by left].
  - case_match eqn:Hfl; [|auto].
    intros [[<- <-]|[_ ?]]%lookup_insert_Some Hf; [right; by eapply Hc|by left].
  - intros [_ ?]%lookup_delete_Some. by left.
  - auto.
Qed.

#[export] Instance keeps_journal X : Journal (keeps X) (modest X).
Proof.
  assert (∀ s s', moves s s' → (wizards_in X s → wizards_in X s') → keeps X s s') as Hkeep.
  { intros s s' Hm Hw. by apply moves_keeps. }
  pose proof (moves_journal sources pms sources_model b) as Hj.
  split.
  - split.
    + intros s. by apply Hkeep.
    + intros s s' s'' Hk1 Hk2 x i base Hb Hx Hi. destruct (Hk1 x i base Hb Hx Hi) as [Hr Hw].
      destruct (Hk2 (running_as i base s' x) i base Hb Hr (lookup_insert_eq _ _ _)) as [Hr' Hw'].
      unfold running_as in *. cbn in Hr'. rewrite insert_insert_eq in Hr'. auto.
  - intros s s' Htx Hrel. apply Hkeep; [by apply (journal_note (R := moves) (W := anywhere))|].
    by apply wizards_same.
  - intros s r c Hc Hp. apply keeps_exec; [by apply (journal_exec (R := moves) (W := anywhere))| |done].
    intros Hg. destruct c; try done; cbn in *. destruct (Hg r) as (_ & _ & _ & Hs). auto.
Qed.


(** ** Requests of tasks without a wizard's authority *)













End authority.

(** ** The guarantees *)

Section guarantees.
Context `{Hashes} `{Payload} `{!Values} `{!ValueForms} `{Interner}.
Context {P : DatabaseRelation → Type} `{∀ r, Provider (P r) (DomainOf r) (CodomainOf r)}.
Context (sources : ∀ r, P r) (pms : ∀ r, gmap (DomainOf r) (Timestamp * CodomainOf r)).
Context (sources_model : ∀ r, ProviderModel (sources r) (pms r)).
Context (fuel : nat).
Context (names : Symbol → Prop).
#[local] Notation reachable := (reachable sources pms).
#[local] Notation rows := (rows pms).

(** C6: mediation is complete. Every request a task can make of the world state
    that may change rows (attributes, creation, recycling, moving, changing
    parents, renumbering, properties with their metadata, verbs with theirs) has
    its condition on the task's authority as a decision on the rows of the
    transaction: owners, flags, property and verb permissions found by walking
    the parents, the grants of the task and the current flags of its principal.
    Where the condition does not hold the request ends in an error and has
    written no row and taken no object number, whatever the caches hold. *)
Theorem complete_mediation base s p r :
  (∀ n n', names n → names n' → interned n n') →
  good pms base s → sound names (abs pms s) → (S (size (parents (rows s))) < fuel)%nat →
  resolvable names r → authorized fuel (rows s) p r = false →
  (∃ e, (serve fuel p r s).2 = Err (WsErr e)) ∧
  good pms base (serve fuel p r s).1 ∧ rows (serve fuel p r s).1 = rows s ∧
  w_sequences (serve fuel p r s).1 = w_sequences s.
Proof.
  intros Hnames Hg [Hw Hc] Hf Hr Hno.
  assert (here names (rows s) (w_sequences s) (abs pms s)) as Hhere by (by split).
  destruct (refuses_serve pms base fuel names Hnames (rows s) (w_sequences s) Hw Hf p r Hr Hno
    (abs pms s) Hhere s Hg eq_refl) as (Hg' & He & Hrows & Hseq).
  by split_and!.
Qed.

End guarantees.
