(* ===== verification/WsRuns.v ===== *)
(** Concrete runs of the world state: a session whose operations and resolutions
    are evaluated, and two transactions that together close a cycle in the
    hierarchy although each of them checks that it does not. *)
From S2P Require Import Prelude Obj TxTypes RelIndex RelTx RelTxSpec RelTxProofs CheckApply Model.
From S2P Require Import Verbs Caches Relations Commit CommitProofs System SystemProofs.
From S2P Require Import CacheCoherence IndexKinds SystemRuns Forest.
From S2P Require Import Auth WsBase WsObjects WsVerbs WsProps WsRenumber WorldState WsSpec WsViews WsHierarchy WsResolve.
From S2P Require Import WsInherit WsCoherent WsEdits WsPropEdits WsOwner WsLife WsSession WsWithin WsSteps WsMain.
From stdpp Require Import base gmap sets list strings fin_maps.

Open Scope Z_scope.
Open Scope ws_scope.

Section guard.
Context `{Hashes} `{Payload} `{!Values} `{!ValueForms} `{Interner}.
Context {P : DatabaseRelation → Type} `{∀ r, Provider (P r) (DomainOf r) (CodomainOf r)}.
Context (sources : ∀ r, P r) (pms : ∀ r, gmap (DomainOf r) (Timestamp * CodomainOf r)).
Context (sources_model : ∀ r, ProviderModel (sources r) (pms r)).

(** The walk [change_parent] makes never ends on a cycle without the object. *)
Lemma guard_diverges base n tp o p x Q a :
  endless (parents (a_rows a)) x → is_nothing x = false →
  (∀ k, Nat.iter k (λ o, o ≫= up (parents (a_rows a))) (Some x) ≠ Some o) →
  Q (Err Diverged) a → WsSpec.wp pms base (DbWorldState.change_parent_loop n tp o p x) Q a.
Proof.
  revert x. induction n as [|n IH]; intros x He Hx Hout HQ; cbn [DbWorldState.change_parent_loop];
    [by apply wp_fail|].
  rewrite Hx. rewrite bool_decide_eq_false_2 by (intros ->; by apply (Hout 0%nat)).
  destruct (endless_up _ _ He) as (y & Hy & Hn & He').
  apply wp_bind, wp_bind, (wp_get_is pms base ObjectParent x _ (Some y)); [exact Hy|].
  apply wp_ret. apply IH; [done..| |done]. intros k Hk. apply (Hout (S k)).
  rewrite Nat.iter_succ_r. cbn [mbind option_bind].
  assert (up (parents (a_rows a)) x = Some y) as -> by (by apply up_some). done.
Qed.

Lemma endless_guard base s tp o p :
  good pms base s → endless (parents (rows pms s)) p → is_nothing p = false →
  (∀ k, Nat.iter k (λ o, o ≫= up (parents (rows pms s))) (Some p) ≠ Some o) →
  ∀ n, (DbWorldState.change_parent n tp o p s).2 = Err Diverged.
Proof.
  intros Hg He Hp Hout n. apply (wp_answer pms base _ _ _ (λ _, True)); [done|].
  by apply wp_bind, guard_diverges.
Qed.
End guard.

(** ** A small world *)

Module World.
Import Run.

#[export] Instance run_values : Values := {
  v_none := (0, 0);
  is_none v := bool_decide (v.1 = 0);
  v_empty_map := (1, 0);
  v_last_move now o := (now + obj_bits o, 0);
  var_anonymous_refs _ := ∅;
}.
(** A value of the runs is a tag and a number. *)
#[export] Instance run_forms : ValueForms := {
  as_string _ := None;
  as_object v := if v.1 =? 2 then Some (mkObj v.2) else None;
  as_integer v := if v.1 =? 3 then Some v.2 else None;
  as_verb_ref v := if v.1 =? 3 then RefIndex v.2 else RefOther "";
  as_list _ := None;
  is_true v := negb (v.2 =? 0);
  v_str _ := (4, 0);
  v_obj o := (2, obj_bits o);
  v_list l := (5, Z.of_nat (length l));
  v_bool_int b := (3, Z.b2z b);
}.
(** Three names have been interned. *)
#[export] Instance run_interner : Interner := {
  compare_id s := if bool_decide (s = mkSymbol "look") then 1
                  else if bool_decide (s = mkSymbol "size") then 2 else 3;
}.
Definition run_names (s : Symbol) : Prop := s = mkSymbol "look" ∨ s = mkSymbol "size".

(** Objects 1 and 2 are children of object 0, which defines a verb and a
    property; object 1 is inside object 2, which is a wizard. *)
Definition look_verb : VerbDef :=
  VerbDefOps.new (mkUuid 5) (mkObj 0) (mkObj 2) [str "look"] (mkBitEnum 0)
    (mkVerbArgsSpec ArgAny PrepAny ArgAny).
Definition size_prop : PropDef := mkPropDef (mkUuid 6) (mkObj 0) (mkObj 0) (mkSymbol "size").
Definition size_perms : PropPerms := PropPermsOps.new (mkObj 2) (mkBitEnum 4).
Definition sources : ∀ r, store r := λ r,
  match r return store r with
  | ObjectParent => list_to_map [(mkObj 1, (3, mkObj 0)); (mkObj 2, (4, mkObj 0))]
  | ObjectLocation => list_to_map [(mkObj 1, (5, mkObj 2))]
  | ObjectFlags => list_to_map [(mkObj 0, (1, mkBitEnum 0)); (mkObj 1, (3, mkBitEnum 0));
                                (mkObj 2, (4, mkBitEnum 4))]
  | ObjectOwner => list_to_map [(mkObj 1, (3, mkObj 2))]
  | ObjectVerbdefs => list_to_map [(mkObj 0, (6, DefsOps.with_added look_verb DefsOps.empty))]
  | ObjectPropdefs => list_to_map [(mkObj 0, (7, DefsOps.with_added size_prop DefsOps.empty))]
  | ObjectPropflags => list_to_map [(mkPropertyKey (mkObj 0) (mkUuid 6), (7, size_perms))]
  | ObjectPropvalues => list_to_map [(mkPropertyKey (mkObj 0) (mkUuid 6), (8, (10, 0)))]
  | _ => ∅
  end.

Definition wizard : TaskPermissions := Permissions.new (mkObj 2) (mkBitEnum 4).

Lemma world_model r : ProviderModel (sources r) (sources r).
Proof. apply rows_provider_model. Qed.
Lemma world_opens : is_ok (try_open sources) = true.
Proof. vm_compute. reflexivity. Qed.
Definition x0 : sys (P := store) := mkSys (get_ok _ world_opens) ∅ [].
Definition seq0 : Sequences.t := Sequences.set_initial SEQUENCE_MAX_OBJECT 2 Sequences.new.
End World.

(** ** Two transactions that together close a cycle *)

Module Skew.
Import Run World.

(** Two transactions on the first snapshot; one puts object 1 under object 2,
    the other object 2 under object 1. *)
Definition x1 : sys := started 1 (started 0 x0).
Definition a0 : ws store := ws_start (start (sys_db x0)) seq0.
Definition b0 : ws store := ws_start (start (sys_db (started 0 x0))) seq0.
Definition a1 : ws store := (DbWorldState.change_parent 10 wizard (mkObj 1) (mkObj 2) a0).1.
Definition b1 : ws store := (DbWorldState.change_parent 10 wizard (mkObj 2) (mkObj 1) b0).1.

(** Both guards pass. *)
Lemma guards_pass :
  (DbWorldState.change_parent 10 wizard (mkObj 1) (mkObj 2) a0).2 = Ok tt ∧
  (DbWorldState.change_parent 10 wizard (mkObj 2) (mkObj 1) b0).2 = Ok tt.
Proof. vm_compute. by split. Qed.

Definition x2 : sys := running_as 1 (root x0) b1 (running_as 0 (root x0) a1 x1).

(** Both prepare on the newest root and publish, one after the other. *)
Lemma skew_prepares0 : is_ok (prepare_on x2 (w_tx a1)) = true.
Proof. vm_compute. reflexivity. Qed.
Definition pc0 : PreparedCommit (P := store) := get_ok _ skew_prepares0.
Definition x3 : sys := with_phase 0 (Prepared (root x0) (wtx (w_tx a1)) pc0) x2.
Lemma skew_publishes0 : is_ok (try_publish pc0 (planes_of x3)).2 = true.
Proof. vm_compute. reflexivity. Qed.
Definition x4 : sys := published 0 pc0 (get_ok _ skew_publishes0) x3.
Lemma skew_prepares1 : is_ok (prepare_on x4 (w_tx b1)) = true.
Proof. vm_compute. reflexivity. Qed.
Definition pc1 : PreparedCommit (P := store) := get_ok _ skew_prepares1.
Definition x5 : sys := with_phase 1 (Prepared (root x0) (wtx (w_tx b1)) pc1) x4.
Lemma skew_publishes1 : is_ok (try_publish pc1 (planes_of x5)).2 = true.
Proof. vm_compute. reflexivity. Qed.
Definition x6 : sys := published 1 pc1 (get_ok _ skew_publishes1) x5.

(** A transaction on the result. *)
Definition x7 : sys := started 2 x6.
Definition c0 : ws store := ws_start (start (sys_db x6)) seq0.

Lemma reach_moved (m : M (P := store) unit) i base s x :
  within (moves sources sources (rows_of base)) m → reachable sources sources x →
  sys_txs x !! i = Some (Running base (w_tx s)) →
  reachable sources sources (running_as i base (m s).1 x).
Proof. intros Hm Hx Hi. by apply (Hm s). Qed.

Lemma skew_reach_x2 : reachable sources sources x2.
Proof.
  assert (∀ b o p, within (moves sources sources b) (DbWorldState.change_parent 10 wizard o p)) as Hstep.
  { intros b o p. pose proof (moves_journal sources sources world_model b).
    by apply (within_change_parent _ anywhere). }
  unfold x2, b1. apply reach_moved; [apply Hstep| |reflexivity].
  unfold a1. apply reach_moved; [apply Hstep| |reflexivity].
  unfold x1. repeat apply reach_started; [apply reach_open, get_ok_eq|vm_compute; reflexivity..].
Qed.

Lemma skew_reach_x7 : reachable sources sources x7.
Proof.
  apply reach_started; [|reflexivity|vm_compute; reflexivity].
  eapply reach_published; [|reflexivity|apply get_ok_eq].
  apply reach_prepare; [|reflexivity|vm_compute; reflexivity|apply get_ok_eq].
  eapply reach_published; [|reflexivity|apply get_ok_eq].
  apply reach_prepare; [|reflexivity|vm_compute; reflexivity|apply get_ok_eq]. apply skew_reach_x2.
Qed.

Lemma c0_good : good sources (rows_of (root x6)) c0.
Proof. by apply (running_good sources sources world_model x7 2); [apply skew_reach_x7|]. Qed.

Lemma c0_rows : rows sources c0 = values_of (rows_of (root x6)).
Proof. apply unwritten_rows; [apply c0_good|vm_compute; reflexivity]. Qed.

Lemma c0_parents :
  parents (rows sources c0) !! mkObj 1 = Some (mkObj 2) ∧
  parents (rows sources c0) !! mkObj 2 = Some (mkObj 1).
Proof. rewrite c0_rows. vm_compute. by split. Qed.

Definition cycle : list Obj := [mkObj 1; mkObj 2].

Section cycle.
Context (m : gmap Obj Obj) (H1 : m !! mkObj 1 = Some (mkObj 2)) (H2 : m !! mkObj 2 = Some (mkObj 1)).

Lemma cycle_cases (Q : Obj → Prop) : Q (mkObj 1) → Q (mkObj 2) → ∀ x, x ∈ cycle → Q x.
Proof. by intros ?? x [->|[->|?%elem_of_nil]%elem_of_cons]%elem_of_cons. Qed.
Lemma cycle_up : ∀ x, x ∈ cycle → ∃ y, y ∈ cycle ∧ up m x = Some y.
Proof.
  apply cycle_cases; [exists (mkObj 2)|exists (mkObj 1)]; (split; [set_solver|by apply up_some]).
Qed.
Lemma cycle_fertile : fertile m cycle.
Proof. unfold fertile. apply cycle_cases; [exists (mkObj 2)|exists (mkObj 1)]; (split; [set_solver|done]). Qed.
Lemma cycle_iter k x :
  x ∈ cycle → ∃ y, Nat.iter k (λ o, o ≫= up m) (Some x) = Some y ∧ y ∈ cycle.
Proof.
  intros Hx. induction k as [|k (y & Hk & Hy)]; [by exists x|].
  destruct (cycle_up y Hy) as (z & Hz & Hup). exists z. by rewrite Nat.iter_succ, Hk.
Qed.
Lemma cycle_endless : endless m (mkObj 1).
Proof. apply (closed_endless _ cycle); [apply cycle_up|set_solver]. Qed.
End cycle.

(** C29: the check against cycles holds within one transaction only. Two
    transactions on the same snapshot, one putting object 1 under object 2 and
    the other object 2 under object 1, both pass the check and both commit,
    because they write different rows and the rows a transaction only reads are
    not validated. In the published state each object is the other's parent.
    From then on asking for the ancestors of object 1 never returns, neither
    does putting an object outside the cycle under object 1, and neither does
    giving object 1 another parent, which would break the cycle. *)
Theorem concurrent_reparenting_closes_cycle :
  (DbWorldState.change_parent 10 wizard (mkObj 1) (mkObj 2) a0).2 = Ok tt ∧
  (DbWorldState.change_parent 10 wizard (mkObj 2) (mkObj 1) b0).2 = Ok tt ∧
  reachable sources sources x7 ∧ version (root x7) = 2 ∧
  parents (rows sources c0) !! mkObj 1 = Some (mkObj 2) ∧
  parents (rows sources c0) !! mkObj 2 = Some (mkObj 1) ∧
  ∀ n, (ancestors n (mkObj 1) false c0).2 = Err Diverged ∧
    (∀ o, o ∉ cycle → (DbWorldState.change_parent n wizard o (mkObj 1) c0).2 = Err Diverged) ∧
    ∀ p, p ≠ mkObj 2 → (set_object_parent n (mkObj 1) p c0).2 = Err Diverged.
Proof.
  pose proof c0_good as Hg. destruct guards_pass as [Hg1 Hg2], c0_parents as [H1 H2].
  pose proof (cycle_endless _ H1 H2) as He.
  split; [exact Hg1|]. split; [exact Hg2|]. split; [exact skew_reach_x7|].
  split; [vm_compute; reflexivity|]. split; [exact H1|]. split; [exact H2|]. intros n. split_and!.
  - apply (endless_ancestors sources _ _ _ Hg); [vm_compute; reflexivity|exact He].
  - intros o Ho. apply (endless_guard sources _ _ _ _ _ Hg He); [vm_compute; reflexivity|].
    intros k Hk. destruct (cycle_iter _ H1 H2 k (mkObj 1)) as (y & Hy & Hin); [apply elem_of_cons; by left|].
    pose proof (eq_trans (eq_sym Hk) Hy) as [= ->]. exact (Ho Hin).
  - intros p Hp. apply (endless_set_parent sources _ _ cycle _ _ Hg (cycle_fertile _ H1 H2));
      [apply elem_of_cons; by left|]. rewrite H1. congruence.
Qed.
End Skew.

(** ** A session *)

Module Session.
Import Run World.

Definition fuel : nat := 10.
Definition look : Symbol := mkSymbol "look".
Definition any : VerbArgsSpec := mkVerbArgsSpec ArgAny PrepAny ArgAny.
Definition own_look : VerbDef :=
  VerbDefOps.new (mkUuid 9) (mkObj 1) (mkObj 1) [str "look"] (mkBitEnum 0) any.

(** Resolving a verb through object 0, overriding it on object 1, and putting
    object 2, which has resolved it too, under object 1. *)
Definition op1 : op := OpResolveVerb (mkObj 2) look None None.
Definition op2 : op :=
  OpAddVerb (mkUuid 9) (mkObj 1) (mkObj 1) [str "look"] 3 (mkBitEnum 0) any.
Definition op3 : op := OpSetParent (mkObj 2) (mkObj 1).

Definition s0 : ws store := ws_start (start (sys_db x0)) seq0.
Definition s1 : ws store := (WsSession.do_op fuel op1 s0).1.
Definition s2 : ws store := (WsSession.do_op fuel op2 s1).1.
Definition s3 : ws store := (WsSession.do_op fuel op3 s2).1.

Lemma names_interned n n' : run_names n → run_names n' → interned n n'.
Proof. intros [->| ->] [->| ->]; vm_compute; split_and!; by try intros [=]. Qed.

Lemma x1_coherent :
  reachable_coherently sources sources (λ m c, caches_coherent run_names (values_of m) c) (started 0 x0).
Proof.
  apply (rc_step _ _ _ x0); [apply rc_open, get_ok_eq| |].
  - apply step_start; [reflexivity|vm_compute; reflexivity|apply surjective_pairing].
  - intros i base t t' Hi. exfalso. exact (lookup_empty_Some _ _ Hi).
Qed.

Definition v0 : Views := values_of (rows_of (root x0)).

Lemma v0_world : world_ok v0.
Proof.
  assert (verbdefs v0 = {[mkObj 0 := DefsOps.with_added look_verb DefsOps.empty]}) as Hv
    by (vm_compute; reflexivity).
  assert (propdefs v0 = {[mkObj 0 := DefsOps.with_added size_prop DefsOps.empty]}) as Hp
    by (vm_compute; reflexivity).
  split.
  - apply (acyclic_walks _ fuel). vm_compute. reflexivity.
  - intros x. assert (parents v0 = {[mkObj 1 := mkObj 0; mkObj 2 := mkObj 0]}) as ->
      by (vm_compute; reflexivity).
    intros [p [[<- _]|[_ [<- _]%lookup_singleton_Some]]%lookup_insert_Some]; vm_compute; reflexivity.
  - intros o d p. rewrite Hp. intros [<- <-]%lookup_singleton_Some ->%list_elem_of_singleton. done.
  - intros o d p. rewrite Hv. intros [<- <-]%lookup_singleton_Some ->%list_elem_of_singleton. done.
  - intros o d p. rewrite Hp. intros [<- <-]%lookup_singleton_Some ->%list_elem_of_singleton.
    exists size_perms. vm_compute. reflexivity.
  - intros o d. rewrite Hv. intros [<- <-]%lookup_singleton_Some. apply NoDup_singleton.
Qed.

Ltac small := apply Nat.ltb_lt; vm_compute; reflexivity.

Lemma s3_session : session sources (rows_of (root x0)) fuel run_names s0 [op1; op2; op3] s3.
Proof.
  apply session_op; [small| |].
  { split; [by left|done]. }
  apply session_op; [small| |].
  { split_and!; [vm_compute; reflexivity|vm_compute; reflexivity|].
    apply (bool_decide_unpack (_ ∉ _)). vm_compute. done. }
  apply session_op; [small| |apply session_end].
  split; [vm_compute; reflexivity|]. intros _. apply (walk_not_below _ fuel _ _ [mkObj 0]);
    vm_compute; reflexivity.
Qed.

Lemma s0_sound : good sources (rows_of (root x0)) s0 ∧ sound run_names (abs sources s0).
Proof.
  apply (start_sound sources sources world_model run_names (started 0 x0) 0);
    [exact x1_coherent|reflexivity|vm_compute; reflexivity|exact v0_world].
Qed.

(** ** The results on the world state at the states of the runs *)

Lemma resolution_is_transparent_witness :
  answers sources fuel s3 (mkObj 2) [mkObj 1; mkObj 0] look ∧
  (resolve_verb fuel (mkObj 2) look None None s3).2 = Ok own_look.
Proof.
  split; [|vm_compute; reflexivity].
  destruct (resolution_is_transparent sources sources world_model fuel run_names (started 0 x0) 0
    (root x0) (start (sys_db x0)) seq0 [op1; op2; op3] s3 (mkObj 2) [mkObj 1; mkObj 0] look)
    as (_ & _ & _ & Ha); [..|exact Ha].
  - exact names_interned.
  - exact x1_coherent.
  - reflexivity.
  - vm_compute. reflexivity.
  - exact v0_world.
  - exact s3_session.
  - apply (walk_chain _ fuel). vm_compute. reflexivity.
  - small.
  - by left.
Defined.

Lemma hierarchy_walks_end_witness :
  (ancestors fuel (mkObj 1) true s0).2 = Ok [mkObj 1; mkObj 0] ∧
  (isa fuel (mkObj 1) (mkObj 0) s0).2 = Ok true.
Proof.
  destruct s0_sound as [Hg [Hw Hc]].
  destruct (hierarchy_walks_end sources fuel (rows_of (root x0)) s0 (mkObj 1) [mkObj 0] (mkObj 0) Hg)
    as (Ha & Hi & _); [apply Hw|apply Hw|apply Hc|vm_compute; reflexivity| |small|].
  - apply (walk_chain _ fuel). vm_compute. reflexivity.
  - split; [exact Ha|]. rewrite Hi. vm_compute. reflexivity.
Defined.

Lemma walk_ends_iff_chain_does_witness :
  (ancestors 1000 (mkObj 1) false Skew.c0).2 = Err Diverged.
Proof.
  destruct Skew.c0_parents as [H1 H2].
  destruct (walk_ends_iff_chain_does sources _ Skew.c0 (mkObj 1) Skew.c0_good) as (_ & Hd & _);
    [vm_compute; reflexivity|]. exact (Hd (Skew.cycle_endless _ H1 H2) 1000%nat).
Defined.

Lemma s0_locations : acyclic (locations (rows sources s0)).
Proof. apply (acyclic_walks _ fuel). vm_compute. reflexivity. Qed.

Lemma moves_keep_containment_witness :
  let m := set_object_location fuel (mkObj 2) (mkObj 1) s0 in
  m.2 = Err (WsErr (RecursiveMove (mkObj 2) (mkObj 1))) ∧ acyclic (locations (rows sources m.1)).
Proof.
  pose proof (moves_keep_containment sources fuel _ s0 (mkObj 2) (mkObj 1) (proj1 s0_sound)
    s0_locations ltac:(small)) as Hm.
  cbv zeta. split; [vm_compute; reflexivity|].
  destruct (set_object_location fuel (mkObj 2) (mkObj 1) s0) as [s' r]. apply Hm.
Defined.

Lemma chown_keeps_permissions_witness :
  let m := set_object_owner fuel (mkObj 1) (mkObj 1) s0 in
  m.2 = Ok tt ∧
  perms_of (rows sources m.1) (mkObj 1) (mkUuid 6) [mkObj 0] =
    perms_of (rows sources s0) (mkObj 1) (mkUuid 6) [mkObj 0] ∧
  perms_of (rows sources s0) (mkObj 1) (mkUuid 6) [mkObj 0] = Ok size_perms.
Proof.
  pose proof (chown_keeps_permissions sources fuel run_names _ s0 (mkObj 1) (mkObj 1) (proj1 s0_sound)
    (proj2 s0_sound) ltac:(small)) as Hm.
  cbv zeta. split; [vm_compute; reflexivity|]. split; [|vm_compute; reflexivity].
  destruct (set_object_owner fuel (mkObj 1) (mkObj 1) s0) as [s' r]. apply Hm.
  apply (walk_chain _ fuel). vm_compute. reflexivity.
Defined.


Lemma three_unused : unused (rows_of (root x0)) (mk_id 3) (rows sources s0).
Proof.
  split; try (vm_compute; reflexivity). intros x.
  assert (parents (rows sources s0) = {[mkObj 1 := mkObj 0; mkObj 2 := mkObj 0]}) as ->
    by (vm_compute; reflexivity).
  by intros [[_ ?]|[_ [_ ?]%lookup_singleton_Some]]%lookup_insert_Some.
Qed.

Lemma create_numbered_object_witness :
  (create_object KindNextObjid NOTHING ObjAttrsOps.empty s0).2 = Ok (mk_id 3).
Proof.
  pose proof (create_numbered_object sources run_names names_interned _ s0 NOTHING ObjAttrsOps.empty
    (proj1 s0_sound) (proj2 s0_sound) ltac:(reflexivity) ltac:(split; apply Z.leb_le; vm_compute; reflexivity)) as Hm.
  destruct (create_object KindNextObjid NOTHING ObjAttrsOps.empty s0) as [s' r]. apply Hm.
  - vm_compute. reflexivity.
  - exact three_unused.
  - vm_compute. by intros [=].
Defined.

(** ** Renumbering after a move *)

(** Object 2 is moved from object 0 to object 1; renumbering object 0 to 3 in the
    same transaction takes it for a child still: it ends under object 3. *)
Definition moved : ws store := (set_object_parent fuel (mkObj 2) (mkObj 1) s0).1.
Definition renumbered : ws store :=
  (renumber_object fuel NOTHING (mkObj 0) (Some (KindObjid (mkObj 3))) moved).1.

Theorem renumber_adopts_moved_child :
  (get_object_parent (mkObj 2) moved).2 = Ok (mkObj 1) ∧
  (renumber_object fuel NOTHING (mkObj 0) (Some (KindObjid (mkObj 3))) moved).2 = Ok (mkObj 3) ∧
  (get_object_parent (mkObj 2) renumbered).2 = Ok (mkObj 3).
Proof. vm_compute. by split_and!. Qed.

(** A UUID object renumbered before any number has been given out gets the number
    of the object that stands for nothing. *)
Definition uuid_object : Obj := encode_as_uuobjid (mkUuObjid 77).
Definition no_numbers : ws store :=
  (create_object (KindObjid uuid_object) uuid_object ObjAttrsOps.empty
     (set_sequences Sequences.new s0)).1.

Theorem renumber_uuid_to_nothing :
  (get_max_object no_numbers).2 = Ok NOTHING ∧
  (renumber_object fuel uuid_object uuid_object None no_numbers).2 = Ok NOTHING.
Proof. vm_compute. by split. Qed.
End Session.
