(* ===== verification/WsTaskRuns.v ===== *)
(** Concrete runs of tasks: the guarantees of the permission checks at a session
    of an ordinary user, and two tasks that create the same object. *)
From S2P Require Import Prelude Obj TxTypes RelIndex RelTx RelTxSpec RelTxProofs CheckApply Model.
From S2P Require Import Verbs Caches Relations Commit CommitProofs System SystemProofs.
From S2P Require Import CacheCoherence IndexKinds SystemRuns Forest Auth.
From S2P Require Import WsBase WsObjects WsVerbs WsProps WsRenumber WorldState WsSpec WsViews WsHierarchy.
From S2P Require Import WsResolve WsInherit WsCoherent WsLife WsSession WsMediate WsWithin WsSteps WsMain.
From S2P Require Import WsAuthority WsRuns.
From stdpp Require Import base gmap sets list strings fin_maps.

Open Scope Z_scope.
Open Scope ws_scope.

Module User.
Import Run World Session.

(** Object 1 is an ordinary user. *)
Definition user : TaskPermissions := Permissions.new (mkObj 1) (mkBitEnum 0).
Definition create_child : request := ReqCreate NOTHING (mkObj 1) (mkBitEnum 0) KindNextObjid NOTHING.
Definition become_wizard : request := ReqUpdateProperty (mkObj 1) WIZARD_SYM (3, 1).
Definition make_readable : request := ReqSetFlags (mkObj 3) (mkBitEnum 8).
Definition set_size : request := ReqUpdateProperty (mkObj 1) (mkSymbol "size") (3, 7).
Definition u1 : ws store := (serve fuel user create_child s0).1.
Definition u2 : ws store := (serve fuel user become_wizard u1).1.

(** The first and the last are served, the one between is not. *)
Example user_answers :
  (serve fuel user create_child s0).2 = Ok tt ∧
  (serve fuel user become_wizard u1).2 = Err (WsErr PropertyPermissionDenied) ∧
  (serve fuel user make_readable u2).2 = Ok tt.
Proof. vm_compute. by split_and!. Qed.


Lemma s0_rows : rows sources s0 = v0.
Proof.
  exact (unwritten_rows sources (root x0) (start (sys_db x0)) seq0 (proj1 s0_sound)
    ltac:(vm_compute; reflexivity)).
Qed.

Lemma complete_mediation_witness :
  authorized fuel (rows sources s0) user set_size = false ∧
  ∃ e, (serve fuel user set_size s0).2 = Err (WsErr e).
Proof.
  assert (authorized fuel (rows sources s0) user set_size = false) as Hno
    by (rewrite s0_rows; vm_compute; reflexivity).
  split; [exact Hno|].
  exact (proj1 (complete_mediation sources fuel run_names _ s0 user set_size names_interned
    (proj1 s0_sound) (proj2 s0_sound) ltac:(small) ltac:(split; [by right|by split]) Hno)).
Defined.

End User.

(** ** Two tasks that create the same object *)

Module Clash.
Import Run World Skew.







End Clash.
